(* ===== verification/_CoqProject ===== *)
-Q . S2P
Prelude.v
Common.v
LruK.v
Disk.v
BufferPool.v
PageStore.v
PageIO.v
Lock.v
LockLiveness.v
PageLogic.v
SortedAssoc.v
BPlusPage.v
BPlusTree.v
TreeLogic.v
BPlusShape.v
BPlusSplit.v
BPlusInsert.v
BPlusRefit.v
BPlusBorrow.v
BPlusIntBorrow.v
BPlusRemove.v
BPlusHistory.v
Value.v
Tuple.v
TablePage.v
TableHeap.v
TableEdit.v
Expression.v
Catalog.v
Executor.v
Operators.v
Join.v
Aggregate.v
Dml.v
OrderBy.v
Utility.v
Engine.v
Effects.v
SelfInsert.v
Optimizer.v
Statements.v
Refusals.v
PageGuard.v
Protocol.v
Binder.v
Meaning.v
SelectMeaning.v
JoinMeaning.v
GroupMeaning.v
ChangeMeaning.v
InsertMeaning.v
Server.v
Session.v
Shell.v
Setup.v
Assembly.v
ServerMain.v
