(* ===== verification/Prelude.v ===== *)
(** * OneBase: a verification library

    OneBase is a teaching database: SQL text is bound to a plan, the plan is
    optimized and executed by iterators over table heaps, and everything lives in
    4096-byte pages behind a buffer pool.  This library models the C++ sources under
    src/src and src/tools as functions and step relations, and proves what makes each
    part correct, up to a session of a client with the server.

    ** Conventions

    Code that may fail returns [res]: a value, a C++ exception ([Throw]), undefined
    behaviour ([UB]: an index outside an array or a page, a signed overflow, a null or
    dangling pointer), or the end of the fuel given to a loop ([OutOfFuel]).  Code with
    state is in the monad [ST], where the state survives an exception.  Integers are
    [Z] with their wrap-around written out ([u32], [i32], [u64], ...); bytes are the
    bytes of the page.  A theorem that gives [Ok] says that the code terminates, does
    not throw and is defined.

    ** Parts and files

    Storage.  [Common] (types.h, config.h, rid.h); [Disk] (disk_manager.cpp); [LruK]
    (lru_k_replacer.cpp); [BufferPool] (buffer_pool_manager.cpp, page.h).  [PageStore]
    is the specification of the pool, an abstract store of pages with pins, and the
    proof that every run of a disciplined client is a run of it.  [PageIO] turns this
    into the interface (a class) that the clients of the pool are written against, with
    two instances: the real pool, and a store without eviction for examples.
    [PageLogic] is a program logic for those clients.  [PageGuard] (page_guard.cpp,
    rwlatch.h) are the guards.

    B+ tree.  [SortedAssoc] (sorted lists and the map they stand for), [BPlusPage]
    (b_plus_tree_page.h and the leaf and internal pages), [BPlusTree] (b_plus_tree.cpp
    and its iterator, over [PageIO]).  The correctness of Insert is proved in [TreeLogic]
    (one rule for each page call), [BPlusShape] (well-formed trees, and the path above
    the subtree at hand), [BPlusSplit] (splits) and [BPlusInsert]; that of Remove in
    [BPlusRefit] (what borrowing and merging make of a list of children), [BPlusBorrow]
    and [BPlusIntBorrow] (leaves and internal pages with a neighbour) and [BPlusRemove].
    [BPlusHistory] puts both together.

    Tables.  [Value] (value.cpp, type.cpp), [Tuple] (tuple.cpp, column.h, schema.h),
    [TablePage] (table_page.cpp), [TableHeap] (table_heap.cpp, over [PageIO]),
    [TableEdit] (editing the records of a heap while it is scanned), [Catalog]
    (catalog.cpp: tables, indexes, and the state of the database).

    Queries.  [Expression] (expressions/*.h), [Executor] (the iterator interface as a
    class; sequential and index scan), [Operators] (limit, projection, sort), [OrderBy]
    (the order the sort uses), [Join], [Aggregate], [Dml] (insert, delete, update),
    [Utility] (SHOW, CREATE INDEX, DROP INDEX), [Engine] (plan_nodes.h,
    executor_factory.cpp, execution_engine.cpp), [Optimizer] (optimizer.cpp), [Binder]
    (binder.cpp).  [Meaning] is a reference semantics of expressions on rows with named
    columns, without plans, indices and tuples; on it are built [SelectMeaning] (SELECT
    from one table), [JoinMeaning] (SELECT * from a join), [GroupMeaning] (aggregates and
    GROUP BY), [ChangeMeaning] (DELETE and UPDATE) and [InsertMeaning] (INSERT ...
    SELECT): what a statement means, and that the code does it.  [Effects] specifies what
    a plan does to the tables, [Statements] what a statement does to the database,
    [Refusals] what one that fails leaves; [SelfInsert] is the insertion of a table into
    itself.

    Concurrency.  [Lock] (lock_manager.cpp, transaction.h, transaction_manager.cpp: calls
    that sleep on the condition variable of a queue, [notify_all], spurious wake-ups) and
    [LockLiveness].

    Front ends.  [Protocol] (protocol.h), [Server] (server_main.cpp, client_main.cpp,
    onebase_shell.cpp), [Session] (from the client to the pages), [Shell] (the same for the
    local shell), [Setup] (making tables by calls of the catalog and the heaps), [Assembly] (onebase_instance.cpp: the
    instance over the real pool), [ServerMain] (the server process: [main], its threads
    and its signal; options and sockets).

    ** What the theorems show

    - The pool: [PageStore.buffer_pool_refines_store], and under it the replacement
      policy ([LruK.Evict_lru_k_policy]), and the lemmas on the invariant of the replacer
      ([LruK.replacer_invariant_always]) and on the disk ([Disk.disk_read_after_write]).  The guards pin and latch what they own and
      nothing else ([PageGuard.guards_balance]).
    - The B+ tree is a finite map with ordered iteration: lookup, iteration, insertion
      and removal ([BPlusTree.btree_get_value], [btree_iteration],
      [BPlusInsert.btree_insert], [BPlusRemove.btree_remove]), over pages that are maps
      ([BPlusPage.leaf_page_is_a_map]), from the empty tree on
      ([BPlusHistory.btree_history]), while a full page has room for the entry
      that splits it ([btree_default_sizes_overflow]: the default sizes leave none).
      Removal is right while no internal page has to take a child from its right
      neighbour; there it loses keys (the run [btree_remove_loses_keys]).
    - A table heap is a map from record ids to byte strings, its iterator terminates and
      gives the live records ([TableHeap.heap_records], [heap_insert],
      [heap_iteration]), over pages that are lists of slots.
    - Values and tuples: arithmetic with its overflow; comparisons, round trips and where
      a stored tuple is read from wrong offsets are lemmas of [Value] and [Tuple].
    - Queries: [Engine.query_rows] gives the rows a plan asks for as a function of the
      records of the tables; [Engine.engine_answers_queries] proves that the engine
      computes them, and [Optimizer.optimizer_preserves_queries] that the optimizer
      keeps them where its side conditions hold ([Optimizer.fits]) and while the indexes
      are current (nothing keeps them current: the run [stale_index_misses_rows]).  [OrderBy.order_by_sorts] is about the sort alone.
      [Binder.select_answers_typed]: answers have the types of the schema.
    - What statements mean: [Meaning.expression_meaning], an expression means a datum
      exactly when it is bound and evaluates to it; [SelectMeaning.select_meaning],
      [JoinMeaning.join_meaning], [GroupMeaning.group_meaning],
      [ChangeMeaning.delete_meaning], [update_meaning] and
      [InsertMeaning.insert_meaning], from the parse tree of the text through binder,
      optimizer and engine to the answer and the records in the pages.  Their hypotheses
      delimit where the code does what the text says: columns that have values,
      conditions that are true or false, keys whose texts tell them apart, no overflow,
      tables without an index for the statements that change them.
    - Statements: [Effects.data_statements], what plans of INSERT ... SELECT,
      DELETE and UPDATE do to the records; [Statements.statements_run], the optimized
      statements of [Statements.good_statement], with the indexes they leave;
      [Refusals.failed_statements]; [SelfInsert.insert_into_itself_never_ends].
    - Locks: exclusion, two-phase locking, no undefined step, and liveness of a blocked
      request, by the wake-ups of [notify_all] alone; two ways to sleep on are the lemmas
      [LockLiveness.upgrade_forgets_a_sleeper] and [abort_wakes_nobody]; what Commit and
      Abort do wrong is the lemma [Lock.finish_needs_no_locks].
    - The server process: [ServerMain.server_shutdown], when [main] returns after a
      signal, and that an idle client keeps it from returning.
    - The whole: [Session.session_runs_statements], from the lines a user types to the
      tables printed and the database in the pages, over any connection and any page
      store; [Shell.shell_runs_statements], the same for the local shell, whose optimizer
      uses no index, so that indexes may be out of date; [Assembly.instance_serves], the same from a new instance on, over the
      buffer pool, the replacer and the disk.

    Several theorems and lemmas state what the code does where that is not what it means
    to do.

    ** Bounds and fuel

    Loops over chains of pages or over rows take fuel; each theorem says how much is
    enough (one more than the height of a tree, the pages of a heap, or the rows read)
    and then the result is [Ok].  The relation [io_rel] carries a budget: the number of
    page calls before the 64-bit clock of the replacer or the 32-bit page ids run out;
    a theorem asks for as many calls as the code makes.  The pool has at most
    [INT32_MAX] frames, a page 4096 bytes; an insertion into a B+ tree holds at most
    three frames, a removal four, and the theorems ask the pool for as many.

    ** Parameters

    The order of iteration over a hash map (any permutation), [std::sort] (its contract
    on a strict weak order), the text of a float, [std::stof], the SQL parser (vendored)
    and the sockets.  Each class of assumptions has an instance used by the witnesses.

    ** Not modelled

    Threads, but for the lock manager, whose waits are steps of a concurrent system, the
    guards' latches, and the server process, whose threads interleave around their
    queries: every other method runs alone (the pool and the replacer hold their latch;
    the catalog and the executors have none, and [ServerMain.queries_overlap] shows that
    two clients are inside them at once, which no theorem covers).  [badbit] of the
    database file; the banners, the prompts, the log, the tool that prints three fixed
    lines, and the tests.  The vendored parser is a parameter: the theorems about text
    start from the tree it makes.  The reference semantics leave out what the binder gets
    wrong or ignores (projections over joins, several tables in FROM, DISTINCT, HAVING,
    OFFSET, ORDER BY over aggregates): there the code has its model and no theorem says it
    is right. *)

From Stdlib Require Export ZArith Lia Ascii.
From stdpp Require Export base numbers list gmap strings.

#[global] Open Scope Z_scope.
#[global] Open Scope list_scope.
#[global] Set Default Goal Selector "!".

(** ** Outcomes of C++ code

    [Throw] is a C++ exception that leaves the function, [UB] a step whose
    behaviour the C++ standard leaves undefined (an access outside an array or
    a page, a signed overflow, [front()] of an empty list), [OutOfFuel] the
    exhaustion of the fuel given to a loop of the model. *)

Inductive exn :=
  | LogicError (msg : string)
  | RuntimeError (msg : string)
  | InvalidArgument (msg : string)
  | OutOfRange (msg : string).

Inductive res (A : Type) :=
  | Ok (a : A)
  | Throw (e : exn)
  | UB
  | OutOfFuel.
Arguments Ok {A} a.
Arguments Throw {A} e.
Arguments UB {A}.
Arguments OutOfFuel {A}.

#[global] Instance exn_eq_dec : EqDecision exn.
Proof. solve_decision. Defined.
#[global] Instance res_eq_dec {A} `{EqDecision A} : EqDecision (res A).
Proof. solve_decision. Defined.

#[global] Instance res_ret : MRet res := @Ok.
#[global] Instance res_bind : MBind res := λ A B f m,
  match m with
  | Ok a => f a
  | Throw e => Throw e
  | UB => UB
  | OutOfFuel => OutOfFuel
  end.
#[global] Instance res_fmap : FMap res := λ A B f m, m ≫= λ a, Ok (f a).

(** Stateful code: the state survives an exception, as it does in C++. *)
Definition ST (S A : Type) : Type := S → res A * S.

#[global] Instance st_ret {S} : MRet (ST S) := λ A a s, (Ok a, s).
#[global] Instance st_bind {S} : MBind (ST S) := λ A B f m s,
  match m s with
  | (Ok a, s') => f a s'
  | (Throw e, s') => (Throw e, s')
  | (UB, s') => (UB, s')
  | (OutOfFuel, s') => (OutOfFuel, s')
  end.

Definition st_get {S} : ST S S := λ s, (Ok s, s).
Definition st_put {S} (s : S) : ST S unit := λ _, (Ok tt, s).
Definition st_gets {S A} (f : S → A) : ST S A := λ s, (Ok (f s), s).
Definition st_modify {S} (f : S → S) : ST S unit := λ s, (Ok tt, f s).
Definition st_throw {S A} (e : exn) : ST S A := λ s, (Throw e, s).
Definition st_ub {S A} : ST S A := λ s, (UB, s).
Definition st_fuel {S A} : ST S A := λ s, (OutOfFuel, s).
Definition st_lift {S A} (m : res A) : ST S A := λ s, (m, s).
(** A component embedded in a larger state through a getter and a setter. *)
Definition st_zoom {S T A} (get : S → T) (set : T → S → S) (m : ST T A) : ST S A :=
  λ s, let '(r, t) := m (get s) in (r, set t s).

(** ** Machine integers *)
Definition u8 (z : Z) : Z := z mod 2 ^ 8.
Definition u16 (z : Z) : Z := z mod 2 ^ 16.
Definition u32 (z : Z) : Z := z mod 2 ^ 32.
Definition u64 (z : Z) : Z := z mod 2 ^ 64.
(** Two's complement reading of the low 32 bits. *)
Definition i32 (z : Z) : Z := (z + 2 ^ 31) mod 2 ^ 32 - 2 ^ 31.
Definition INT32_MIN : Z := - 2 ^ 31.
Definition INT32_MAX : Z := 2 ^ 31 - 1.
Definition UINT32_MAX : Z := 2 ^ 32 - 1.
Definition SIZE_MAX : Z := 2 ^ 64 - 1.
Definition in_i32 (z : Z) : bool := (INT32_MIN <=? z) && (z <=? INT32_MAX).
(** Signed arithmetic: out of range is undefined. *)
Definition i32_arith (z : Z) : res Z := if in_i32 z then Ok z else UB.

(** ** Arrays and bytes *)
Definition arr_get {A} (a : list A) (i : Z) : res A :=
  if decide (0 ≤ i) then
    match a !! Z.to_nat i with Some x => Ok x | None => UB end
  else UB.
Definition arr_set {A} (a : list A) (i : Z) (x : A) : res (list A) :=
  if decide (0 ≤ i < Z.of_nat (length a)) then Ok (<[Z.to_nat i := x]> a) else UB.

Abbreviation bytes := (list ascii).

Fixpoint le_encode (n : nat) (z : Z) : bytes :=
  match n with
  | O => []
  | S n => ascii_of_N (Z.to_N (z mod 256)) :: le_encode n (z / 256)
  end.
Fixpoint le_decode (bs : bytes) : Z :=
  match bs with
  | [] => 0
  | b :: bs => Z.of_N (N_of_ascii b) + 256 * le_decode bs
  end.

(** [memcpy] out of, and into, a buffer. *)
Definition mem_read (data : bytes) (off len : Z) : res bytes :=
  if decide (0 ≤ off ∧ 0 ≤ len ∧ off + len ≤ Z.of_nat (length data))
  then Ok (take (Z.to_nat len) (drop (Z.to_nat off) data)) else UB.
Definition mem_write (data : bytes) (off : Z) (bs : bytes) : res bytes :=
  if decide (0 ≤ off ∧ off + Z.of_nat (length bs) ≤ Z.of_nat (length data))
  then Ok (take (Z.to_nat off) data ++ bs ++ drop (Z.to_nat off + length bs) data) else UB.

(** ** Tactics *)

(** Split the conjunctions, pairs and existentials of the context. *)
Ltac split_hyps :=
  repeat match goal with
  | H : _ ∧ _ |- _ => destruct H
  | H : ∃ _, _ |- _ => destruct H
  | p : (_ * _)%type |- _ => destruct p
  end.
(** Case split on the scrutinee of the first [match] of a hypothesis or of
    the goal, simplifying after each split. *)
Ltac case_in H :=
  match type of H with context [match ?x with _ => _ end] =>
    let E := fresh "E" in destruct x eqn:E; simplify_eq/= end.
Ltac case_goal :=
  match goal with |- context [match ?x with _ => _ end] =>
    let E := fresh "E" in destruct x eqn:E; simplify_eq/= end.
(** Invert a successful chain of [res] binds. *)
Ltac res_inv H :=
  unfold mbind, res_bind, mret, res_ret in H; repeat case_in H.

Create HintDb onebase discriminated.

(** ** Running a bind *)

Lemma st_bind_ok {S A B} (m : ST S A) (k : A → ST S B) s a s' :
  m s = (Ok a, s') → (m ≫= k) s = k a s'.
Proof. intros H. unfold mbind, st_bind. by rewrite H. Qed.

(** Execute the first command of the goal's computation with an equation. *)
Ltac st_step H := rewrite (st_bind_ok _ _ _ _ _ H); cbn beta iota.
(** Execute a first command that computes by itself. *)
Ltac st_run :=
  match goal with |- context [mbind ?k ?m ?s] =>
    let v := eval hnf in (m s) in
    lazymatch v with (?r, ?s') =>
      let r' := eval hnf in r in
      lazymatch r' with Ok ?a =>
        rewrite (st_bind_ok m k s a s' eq_refl); cbn beta iota
      end
    end
  end.

Lemma res_bind_ok {A B} (m : res A) (k : A → res B) a : m = Ok a → (m ≫= k) = k a.
Proof. by intros ->. Qed.

(** ** Lemmas on arrays *)

Lemma arr_get_lookup {A} (a : list A) i x :
  arr_get a i = Ok x ↔ 0 ≤ i ∧ a !! Z.to_nat i = Some x.
Proof.
  unfold arr_get. case_decide; [|naive_solver].
  destruct (a !! Z.to_nat i); naive_solver.
Qed.

Lemma arr_get_ok {A} (a : list A) (i : nat) x :
  a !! i = Some x → arr_get a (Z.of_nat i) = Ok x.
Proof. intros. apply arr_get_lookup. by rewrite Nat2Z.id; auto with lia. Qed.

Lemma arr_set_ok {A} (a : list A) (i : nat) x :
  (i < length a)%nat → arr_set a (Z.of_nat i) x = Ok (<[i := x]> a).
Proof. intros. unfold arr_set. rewrite decide_True by lia. by rewrite Nat2Z.id. Qed.

(** ** Lemmas on bytes *)

Lemma length_le_encode n z : length (le_encode n z) = n.
Proof. revert z; induction n; intros; simpl; congruence. Qed.

Lemma byte_value z : 0 ≤ z < 256 → Z.of_N (N_of_ascii (ascii_of_N (Z.to_N z))) = z.
Proof. intros. rewrite N_ascii_embedding; lia. Qed.

Lemma le_decode_encode n z : le_decode (le_encode n z) = z mod 256 ^ Z.of_nat n.
Proof.
  revert z; induction n as [|n IH]; intros z.
  { simpl. by rewrite Z.mod_1_r. }
  cbn [le_encode le_decode]. rewrite IH, byte_value by (apply Z.mod_pos_bound; lia).
  rewrite Nat2Z.inj_succ, Z.pow_succ_r by lia.
  rewrite Z.rem_mul_r by lia. lia.
Qed.

Lemma le_decode_bound bs : 0 ≤ le_decode bs < 256 ^ Z.of_nat (length bs).
Proof.
  induction bs as [|b bs IH]; [done|].
  cbn [le_decode length]. rewrite Nat2Z.inj_succ, Z.pow_succ_r by lia.
  pose proof (N_ascii_bounded b). lia.
Qed.
Lemma mem_write_length data off bs d :
  mem_write data off bs = Ok d → length d = length data.
Proof.
  unfold mem_write. case_decide as Hd; [|done]. intros [= <-].
  rewrite !length_app, length_take, length_drop. lia.
Qed.

Lemma mem_write_ok data off bs :
  0 ≤ off → off + Z.of_nat (length bs) ≤ Z.of_nat (length data) →
  ∃ d, mem_write data off bs = Ok d ∧ length d = length data.
Proof.
  intros. unfold mem_write. rewrite decide_True by lia. eexists; split; [done|].
  rewrite !length_app, length_take, length_drop. lia.
Qed.

(** Byte-wise reading of a write: the lemma every page layout proof uses. *)
Lemma mem_write_lookup data off bs d i :
  mem_write data off bs = Ok d →
  d !! i = if decide (off ≤ Z.of_nat i < off + Z.of_nat (length bs))
           then bs !! (i - Z.to_nat off)%nat else data !! i.
Proof.
  unfold mem_write. case_decide as Hd; [|done]. intros [= <-].
  destruct (decide (Z.of_nat i < off)) as [Hlt|].
  { rewrite lookup_app_l by (rewrite length_take; lia).
    rewrite lookup_take_lt by lia. by rewrite decide_False by lia. }
  rewrite lookup_app_r by (rewrite length_take; lia). rewrite length_take.
  rewrite Nat.min_l by lia. case_decide.
  - by rewrite lookup_app_l by lia.
  - rewrite lookup_app_r by lia. rewrite lookup_drop. f_equal. lia.
Qed.

Lemma mem_read_lookup data off len bs i :
  mem_read data off len = Ok bs →
  bs !! i = if decide (Z.of_nat i < len) then data !! (Z.to_nat off + i)%nat else None.
Proof.
  unfold mem_read. case_decide as Hd; [|done]. intros [= <-]. case_decide.
  - rewrite lookup_take_lt by lia. by rewrite lookup_drop.
  - apply lookup_take_ge. lia.
Qed.

Lemma mem_read_ok data off len :
  0 ≤ off → 0 ≤ len → off + len ≤ Z.of_nat (length data) →
  mem_read data off len = Ok (take (Z.to_nat len) (drop (Z.to_nat off) data)).
Proof. intros. unfold mem_read. by rewrite decide_True by lia. Qed.

(** Reading back what was written. *)
Lemma mem_read_write_same data off bs d :
  mem_write data off bs = Ok d → mem_read d off (Z.of_nat (length bs)) = Ok bs.
Proof.
  intros Hw. pose proof (mem_write_length _ _ _ _ Hw) as Hl.
  revert Hw. unfold mem_write. case_decide as Hd; [|done]. intros [= Hw].
  rewrite mem_read_ok by lia. f_equal. rewrite <- Hw.
  rewrite drop_app_length' by (rewrite length_take; lia).
  by rewrite take_app_length' by lia.
Qed.

(** A write does not disturb a disjoint range. *)
Lemma mem_read_write_other data off bs d off' len' :
  mem_write data off bs = Ok d →
  off' + len' ≤ off ∨ off + Z.of_nat (length bs) ≤ off' →
  mem_read d off' len' = mem_read data off' len'.
Proof.
  intros Hw Hdis. pose proof (mem_write_length _ _ _ _ Hw) as Hl.
  unfold mem_read. rewrite Hl. case_decide as Hd; [|done]. f_equal.
  apply list_eq. intros i. destruct (decide (i < Z.to_nat len')%nat).
  - rewrite !lookup_take_lt, !lookup_drop by lia.
    rewrite (mem_write_lookup _ _ _ _ _ Hw). rewrite decide_False by lia. done.
  - by rewrite !lookup_take_ge by lia.
Qed.

(** ** Lemmas on lists *)

Lemma filter_none {A} (P : A → Prop) `{∀ x, Decision (P x)} (l : list A) :
  (∀ x, x ∈ l → ¬ P x) → filter P l = [].
Proof.
  induction l as [|x l IH]; intros Hl; [done|].
  rewrite filter_cons_False by (apply Hl; set_solver). apply IH. set_solver.
Qed.

Lemma filter_every {A} (P : A → Prop) `{∀ x, Decision (P x)} (l : list A) :
  (∀ x, x ∈ l → P x) → filter P l = l.
Proof.
  induction l as [|x l IH]; intros Hl; [done|].
  rewrite filter_cons_True by (apply Hl; set_solver). f_equal. apply IH. set_solver.
Qed.
