(* ===== verification/Common.v ===== *)
(** * Common types: page and frame identifiers, record identifiers

    [types.h], [config.h] and [rid.h] (src/src/include/onebase/common/), [config.cpp] and
    [rid.cpp] (src/src/common/). *)

From stdpp Require Import pretty.
From S2P Require Import Prelude.

(** ** Identifiers and sentinel values ([types.h], [config.h]) *)
Definition PAGE_SIZE : Z := 4096.
Definition DEFAULT_BUFFER_POOL_SIZE : Z := 64.
Definition DEFAULT_LRU_K : Z := 10.
Definition INVALID_PAGE_ID : Z := -1.
Definition INVALID_FRAME_ID : Z := -1.
Definition INVALID_TXN_ID : Z := -1.
(** The globals of [config.cpp] keep their first values: nothing assigns them. *)
Definition BUFFER_POOL_SIZE : Z := DEFAULT_BUFFER_POOL_SIZE.
Definition LRUK_REPLACER_K : Z := DEFAULT_LRU_K.

(** ** Record identifiers ([rid.h]): [page_id_] is an [int32_t], [slot_num_] a
    [uint16_t]. *)
Record RID := mkRID { rid_page_id : Z; rid_slot_num : Z }.

(** The default constructor. *)
Definition RID_default : RID := mkRID INVALID_PAGE_ID 0.

Definition RID_eqb (a b : RID) : bool :=
  (rid_page_id a =? rid_page_id b) && (rid_slot_num a =? rid_slot_num b).

(** [std::hash<RID>]: the page id sign-extended to 64 bits, shifted by 16, or-ed
    with the slot; [std::hash<int64_t>] is the identity into [size_t]. *)
Definition RID_hash (r : RID) : Z :=
  u64 (Z.lor (Z.shiftl (rid_page_id r) 16) (rid_slot_num r)).

(** [fmt::format] prints both numbers in decimal. *)
Definition RID_ToString (r : RID) : string :=
  "(" +:+ pretty (rid_page_id r) +:+ ", " +:+ pretty (rid_slot_num r) +:+ ")".

#[global] Instance RID_eq_dec : EqDecision RID.
Proof. solve_decision. Defined.
#[global] Instance RID_countable : Countable RID.
Proof.
  refine (inj_countable' (λ r, (rid_page_id r, rid_slot_num r)) (λ p, mkRID p.1 p.2) _).
  by intros [].
Defined.

Definition RID_in_range (r : RID) : Prop :=
  in_i32 (rid_page_id r) = true ∧ 0 ≤ rid_slot_num r < 2 ^ 16.

Lemma RID_eqb_eq a b : RID_eqb a b = true ↔ a = b.
Proof.
  unfold RID_eqb. rewrite andb_true_iff, !Z.eqb_eq. destruct a, b; simpl.
  split; [intros [-> ->]; done | by intros [= -> ->]].
Qed.

Lemma lor_shiftl_add p s : 0 ≤ s < 2 ^ 16 → Z.lor (Z.shiftl p 16) s = p * 2 ^ 16 + s.
Proof.
  intros Hs. rewrite <- Z.add_nocarry_lor.
  { by rewrite Z.shiftl_mul_pow2 by lia. }
  apply Z.bits_inj'. intros n Hn. rewrite Z.land_spec, Z.bits_0.
  destruct (decide (n < 16)).
  - rewrite Z.shiftl_spec_low by lia. done.
  - rewrite (Z.bits_above_log2 s n), andb_false_r; [done|lia|].
    destruct (decide (s = 0)) as [->|]; [simpl; lia|].
    assert (Z.log2 s < 16) by (apply Z.log2_lt_pow2; lia). lia.
Qed.

Lemma RID_hash_inj a b :
  RID_in_range a → RID_in_range b → RID_hash a = RID_hash b → a = b.
Proof.
  unfold RID_in_range, in_i32, INT32_MIN, INT32_MAX. intros [Hpa Hsa] [Hpb Hsb].
  apply andb_true_iff in Hpa, Hpb. destruct a as [pa sa], b as [pb sb]; simpl in *.
  unfold RID_hash; simpl. rewrite !lor_shiftl_add by lia. unfold u64. intros H.
  assert (pa * 2 ^ 16 + sa = pb * 2 ^ 16 + sb) as Heq.
  { assert ((pa * 2 ^ 16 + sa + 2 ^ 63) mod 2 ^ 64 = (pb * 2 ^ 16 + sb + 2 ^ 63) mod 2 ^ 64) as H'.
    { rewrite (Zplus_mod _ (2 ^ 63)), H, <- Zplus_mod. done. }
    rewrite !Z.mod_small in H' by lia. lia. }
  f_equal; lia.
Qed.
