(* ===== verification/LruK.v ===== *)
(** * The LRU-K replacer

    [src/src/buffer/lru_k_replacer.cpp] and its header.  The frames that may be
    evicted are kept with their access history; [Evict] scans them in the
    (unspecified) iteration order of an [unordered_map], which the model takes
    as an argument: [Evict_in order]. *)

From S2P Require Import Prelude Common.

(** ** State *)
Record FrameEntry := mkFrameEntry { history_ : list Z; is_evictable_ : bool }.

Record LRUKReplacer := mkLRUK {
  max_frames_ : Z;
  k_ : Z;
  curr_size_ : Z;
  current_timestamp_ : Z;
  entries_ : gmap Z FrameEntry
}.

Definition LRUK_new (num_frames k : Z) : LRUKReplacer := mkLRUK num_frames k 0 0 ∅.

(** [std::list::front]: undefined on an empty list. *)
Definition list_front (l : list Z) : res Z :=
  match l with x :: _ => Ok x | [] => UB end.

(** ** Operations *)

(** The local variables of the scan of [Evict]. *)
Record EvictAcc := mkAcc {
  victim : Z; min_timestamp : Z; max_k_distance : Z; found_inf : bool
}.
Definition acc0 : EvictAcc := mkAcc (-1) SIZE_MAX 0 false.

(** One iteration of the loop of [Evict]. *)
Definition evict_step (k now : Z) (a : EvictAcc) (fe : Z * FrameEntry) : res EvictAcc :=
  let '(fid, entry) := fe in
  if negb (is_evictable_ entry) then Ok a
  else if Z.of_nat (length (history_ entry)) <? k then
    t ← list_front (history_ entry);
    if t <? min_timestamp a then Ok (mkAcc fid t (max_k_distance a) true)
    else Ok (mkAcc (victim a) (min_timestamp a) (max_k_distance a) true)
  else if negb (found_inf a) then
    t ← list_front (history_ entry);
    let k_distance := u64 (now - t) in
    if max_k_distance a <? k_distance then Ok (mkAcc fid (min_timestamp a) k_distance (found_inf a))
    else Ok a
  else Ok a.

Fixpoint evict_scan (k now : Z) (order : list (Z * FrameEntry)) (a : EvictAcc) : res EvictAcc :=
  match order with
  | [] => Ok a
  | fe :: rest => a' ← evict_step k now a fe; evict_scan k now rest a'
  end.

(** [Evict]: [None] models the result [false], [Some f] the result [true] with
    [*frame_id = f]. *)
Definition Evict_in (order : list (Z * FrameEntry)) (s : LRUKReplacer)
    : res (option Z * LRUKReplacer) :=
  a ← evict_scan (k_ s) (current_timestamp_ s) order acc0;
  if victim a =? -1 then Ok (None, s)
  else Ok (Some (victim a),
           mkLRUK (max_frames_ s) (k_ s) (u64 (curr_size_ s - 1)) (current_timestamp_ s)
                  (delete (victim a) (entries_ s))).

Definition Evict (s : LRUKReplacer) : res (option Z * LRUKReplacer) :=
  Evict_in (map_to_list (entries_ s)) s.

(** [RecordAccess]: [static_cast<size_t>(frame_id) >= max_frames_] refuses the
    negative ids too. *)
Definition RecordAccess (frame_id : Z) (s : LRUKReplacer) : res LRUKReplacer :=
  if max_frames_ s <=? u64 frame_id then Throw (InvalidArgument "Invalid frame_id")
  else
    let entry := default (mkFrameEntry [] false) (entries_ s !! frame_id) in
    let h := history_ entry ++ [current_timestamp_ s] in
    let h' := if k_ s <? Z.of_nat (length h) then tail h else h in
    Ok (mkLRUK (max_frames_ s) (k_ s) (curr_size_ s) (u64 (current_timestamp_ s + 1))
               (<[frame_id := mkFrameEntry h' (is_evictable_ entry)]> (entries_ s))).

Definition SetEvictable (frame_id : Z) (set_evictable : bool) (s : LRUKReplacer) : LRUKReplacer :=
  match entries_ s !! frame_id with
  | None => s
  | Some entry =>
      let size' :=
        if set_evictable && negb (is_evictable_ entry) then u64 (curr_size_ s + 1)
        else if negb set_evictable && is_evictable_ entry then u64 (curr_size_ s - 1)
        else curr_size_ s in
      mkLRUK (max_frames_ s) (k_ s) size' (current_timestamp_ s)
             (<[frame_id := mkFrameEntry (history_ entry) set_evictable]> (entries_ s))
  end.

Definition Remove (frame_id : Z) (s : LRUKReplacer) : res LRUKReplacer :=
  match entries_ s !! frame_id with
  | None => Ok s
  | Some entry =>
      if negb (is_evictable_ entry) then Throw (RuntimeError "Cannot remove a non-evictable frame")
      else Ok (mkLRUK (max_frames_ s) (k_ s) (u64 (curr_size_ s - 1)) (current_timestamp_ s)
                      (delete frame_id (entries_ s)))
  end.

Definition Size (s : LRUKReplacer) : Z := curr_size_ s.

(** ** Specification *)

Definition evictable_entries (m : gmap Z FrameEntry) : gmap Z FrameEntry :=
  filter (λ fe, is_evictable_ fe.2 = true) m.

Definition front_of (e : FrameEntry) : Z := default 0 (head (history_ e)).

(** Fewer than [k] accesses: backward [k]-distance [+infinity]. *)
Definition few (k : Z) (e : FrameEntry) : Prop := Z.of_nat (length (history_ e)) < k.

(** The invariant of the replacer: the histories are non-empty, hold at most
    [k] accesses of the past, the timestamps of different frames are different,
    and [curr_size_] counts the evictable entries. *)
Record lruk_inv (s : LRUKReplacer) : Prop := {
  li_k : 1 ≤ k_ s;
  li_max : 0 ≤ max_frames_ s ≤ INT32_MAX;
  li_size : curr_size_ s = Z.of_nat (size (evictable_entries (entries_ s)));
  li_frames : ∀ f e, entries_ s !! f = Some e → 0 ≤ f < max_frames_ s;
  li_hist : ∀ f e, entries_ s !! f = Some e →
    history_ e ≠ [] ∧ Z.of_nat (length (history_ e)) ≤ k_ s ∧
    Forall (λ t, 0 ≤ t < current_timestamp_ s) (history_ e);
  li_fresh : ∀ f g e e' t, entries_ s !! f = Some e → entries_ s !! g = Some e' →
    t ∈ history_ e → t ∈ history_ e' → f = g;
  li_now : 0 ≤ current_timestamp_ s ≤ SIZE_MAX
}.

(** The LRU-K policy: among the evictable frames, one with fewer than [k]
    accesses goes first, the one with the earliest first access; otherwise the
    one whose [k]-th most recent access is the oldest. *)
Record lruk_choice (s : LRUKReplacer) (f : Z) : Prop := {
  lc_entry : ∃ e, entries_ s !! f = Some e ∧ is_evictable_ e = true ∧
    ∀ g e', entries_ s !! g = Some e' → is_evictable_ e' = true →
      (few (k_ s) e' → few (k_ s) e ∧ front_of e ≤ front_of e') ∧
      (¬ few (k_ s) e → front_of e ≤ front_of e')
}.

(** ** The scan of [Evict] *)

Definition entry_ok (now : Z) (e : FrameEntry) : Prop :=
  history_ e ≠ [] ∧ Forall (λ t, 0 ≤ t < now) (history_ e).

(** What the accumulator knows after the entries of [seen]. *)
Definition acc_ok (k now : Z) (seen : list (Z * FrameEntry)) (a : EvictAcc) : Prop :=
  if found_inf a then
    ∃ e, (victim a, e) ∈ seen ∧ is_evictable_ e = true ∧ few k e ∧ min_timestamp a = front_of e ∧
      ∀ g e', (g, e') ∈ seen → is_evictable_ e' = true → few k e' → front_of e ≤ front_of e'
  else
    min_timestamp a = SIZE_MAX ∧
    (∀ g e', (g, e') ∈ seen → is_evictable_ e' = true → ¬ few k e') ∧
    ((victim a = -1 ∧ max_k_distance a = 0 ∧
      ∀ g e', (g, e') ∈ seen → is_evictable_ e' = false) ∨
     ∃ e, (victim a, e) ∈ seen ∧ is_evictable_ e = true ∧ max_k_distance a = now - front_of e ∧
       ∀ g e', (g, e') ∈ seen → is_evictable_ e' = true → front_of e ≤ front_of e').

Lemma entry_front now e :
  entry_ok now e → list_front (history_ e) = Ok (front_of e) ∧ 0 ≤ front_of e < now.
Proof.
  intros [Hne Hall]. unfold front_of. destruct (history_ e) as [|t l]; [done|].
  simpl. split; [done|]. by apply Forall_cons in Hall as [? _].
Qed.

Lemma evict_step_ok k now seen a f e :
  now ≤ SIZE_MAX → entry_ok now e → acc_ok k now seen a →
  ∃ a', evict_step k now a (f, e) = Ok a' ∧ acc_ok k now ((f, e) :: seen) a'.
Proof.
  intros Hnow He Ha. destruct (entry_front _ _ He) as [Hf Hb].
  assert (u64 (now - front_of e) = now - front_of e) as Hu.
  { unfold u64, SIZE_MAX in *. apply Z.mod_small. lia. }
  unfold evict_step, acc_ok in *. destruct (is_evictable_ e) eqn:Hev; simpl.
  2:{ exists a. split; [done|]. destruct (found_inf a).
    - destruct Ha as (e0 & Hin & H1 & H2 & H3 & Hmin). exists e0. split_and!; try done; [set_solver|].
      intros g e' [[= -> ->]|?]%elem_of_cons; [congruence|eauto].
    - destruct Ha as (H1 & H2 & H3). split_and!; [done| |].
      + intros g e' [[= -> ->]|?]%elem_of_cons; [congruence|eauto].
      + destruct H3 as [(?&?&?)|(e0&?&?&?&Hmin)]; [left|right].
        * split_and!; [done..|]. intros g e' [[= -> ->]|?]%elem_of_cons; eauto.
        * exists e0. split_and!; try done; [set_solver|].
          intros g e' [[= -> ->]|?]%elem_of_cons; [congruence|eauto]. }
  destruct (Z.ltb_spec (Z.of_nat (length (history_ e))) k) as [Hk|Hk].
  { rewrite Hf; simpl. destruct (Z.ltb_spec (front_of e) (min_timestamp a)) as [Hlt|Hge].
    - eexists. split; [done|]. simpl. exists e. split_and!; try done; [set_solver|].
      intros g e' [[= -> ->]|Hin]%elem_of_cons; [done|]. intros He' Hfew.
      destruct (found_inf a); [|by destruct Ha as (_ & Hno & _); destruct (Hno g e')].
      destruct Ha as (e0 & _ & _ & _ & H3 & Hmin). specialize (Hmin g e' Hin He' Hfew). lia.
    - eexists. split; [done|]. simpl. destruct (found_inf a).
      + destruct Ha as (e0 & Hin & H1 & H2 & H3 & Hmin). exists e0.
        split_and!; try done; [set_solver|].
        intros g e' [[= -> ->]|?]%elem_of_cons; [lia|eauto].
      + destruct Ha as (Hm & _). unfold SIZE_MAX in *. lia. }
  destruct (found_inf a) eqn:Hinf; simpl.
  { exists a. split; [done|]. rewrite Hinf.
    destruct Ha as (e0 & Hin & H1 & H2 & H3 & Hmin). exists e0. split_and!; try done; [set_solver|].
    intros g e' [[= -> ->]|?]%elem_of_cons; [unfold few; lia|eauto]. }
  rewrite Hf; simpl. rewrite Hu. destruct Ha as (Hm & Hno & Hcase).
  assert (∀ g e', (g, e') ∈ (f, e) :: seen → is_evictable_ e' = true → ¬ few k e') as Hno'.
  { intros g e' [[= -> ->]|?]%elem_of_cons; [unfold few; lia|eauto]. }
  destruct (Z.ltb_spec (max_k_distance a) (now - front_of e)) as [Hlt|Hge].
  - eexists. split; [done|]. simpl. split_and!; [done..|]. right. exists e.
    split_and!; try done; [set_solver|]. intros g e' [[= -> ->]|Hin]%elem_of_cons He'; [done|].
    destruct Hcase as [(_&_&Hnone)|(e0&_&_&Hd&Hmin)].
    + by rewrite (Hnone g e' Hin) in He'.
    + specialize (Hmin g e' Hin He'). lia.
  - exists a. split; [done|]. rewrite Hinf. split_and!; [done..|]. right.
    destruct Hcase as [(_&?&_)|(e0&?&?&Hd&Hmin)]; [lia|].
    exists e0. split_and!; try done; [set_solver|].
    intros g e' [[= -> ->]|Hin]%elem_of_cons He'; [lia|eauto].
Qed.

Lemma evict_scan_ok k now order seen a :
  now ≤ SIZE_MAX → (∀ f e, (f, e) ∈ order → entry_ok now e) → acc_ok k now seen a →
  ∃ a', evict_scan k now order a = Ok a' ∧ acc_ok k now (reverse order ++ seen) a'.
Proof.
  intros Hnow. revert seen a; induction order as [|[f e] order IH]; intros seen a Hok Ha.
  { by exists a. }
  destruct (evict_step_ok k now seen a f e) as (a' & Hs & Ha'); [done|apply (Hok f); set_solver|done|].
  destruct (IH ((f, e) :: seen) a') as (a'' & Hs' & Ha''); [set_solver|done|].
  exists a''. split.
  - cbn [evict_scan]. rewrite Hs. done.
  - by rewrite reverse_cons, <- (assoc_L (++)).
Qed.

Lemma acc0_ok k now : acc_ok k now [] acc0.
Proof.
  unfold acc_ok, acc0; simpl. split_and!; [done|set_solver|]. left. split_and!; [done..|set_solver].
Qed.

(** ** Preservation of the invariant *)

Lemma evictable_size_bound s :
  lruk_inv s → Z.of_nat (size (evictable_entries (entries_ s))) ≤ max_frames_ s.
Proof.
  intros [? ? _ Hf _ _ _]. rewrite <- size_dom.
  assert (dom (evictable_entries (entries_ s)) ⊆
          (list_to_set (seqZ 0 (max_frames_ s)) : gset Z)) as Hsub.
  { intros f Hin. apply elem_of_dom in Hin as [e He].
    apply map_lookup_filter_Some in He as [He _].
    apply elem_of_list_to_set, elem_of_seqZ. apply Hf in He. lia. }
  apply subseteq_size in Hsub. rewrite size_list_to_set in Hsub by apply NoDup_seqZ.
  rewrite length_seqZ in Hsub. lia.
Qed.

Lemma evictable_insert_true m f e :
  is_evictable_ e = true →
  evictable_entries (<[f := e]> m) = <[f := e]> (evictable_entries m).
Proof. intros. unfold evictable_entries. by rewrite map_filter_insert_True. Qed.

Lemma evictable_insert_false m f e :
  is_evictable_ e = false →
  evictable_entries (<[f := e]> m) = delete f (evictable_entries m).
Proof.
  intros H. unfold evictable_entries. rewrite map_filter_insert_False; [|simpl; by rewrite H].
  by rewrite map_filter_delete.
Qed.

Lemma evictable_lookup m f e :
  evictable_entries m !! f = Some e ↔ m !! f = Some e ∧ is_evictable_ e = true.
Proof. unfold evictable_entries. by rewrite map_lookup_filter_Some. Qed.

Lemma evictable_none m f :
  (∀ e, m !! f = Some e → is_evictable_ e = false) → evictable_entries m !! f = None.
Proof.
  intros H. apply map_lookup_filter_None. right. intros e He. simpl. by rewrite (H e He).
Qed.

Lemma size_delete_evictable m f e :
  m !! f = Some e → is_evictable_ e = true →
  Z.of_nat (size (evictable_entries (delete f m))) = Z.of_nat (size (evictable_entries m)) - 1 ∧
  1 ≤ Z.of_nat (size (evictable_entries m)).
Proof.
  intros He Hev. unfold evictable_entries. rewrite map_filter_delete.
  assert (evictable_entries m !! f = Some e) as Hl by (by apply evictable_lookup).
  rewrite map_size_delete_Some by (by eexists).
  assert (size (evictable_entries m) ≠ 0%nat) as Hz.
  { apply map_size_non_empty_iff. intros E. by rewrite E, lookup_empty in Hl. }
  unfold evictable_entries in *. lia.
Qed.

Lemma u64_small z : 0 ≤ z < 2 ^ 64 → u64 z = z.
Proof. apply Z.mod_small. Qed.

(** Dropping an evictable entry, as [Evict] and [Remove] do. *)
Lemma lruk_inv_drop s f e :
  lruk_inv s → entries_ s !! f = Some e → is_evictable_ e = true →
  lruk_inv (mkLRUK (max_frames_ s) (k_ s) (u64 (curr_size_ s - 1)) (current_timestamp_ s)
                   (delete f (entries_ s))) ∧
  u64 (curr_size_ s - 1) = curr_size_ s - 1.
Proof.
  intros Hinv He Hev. pose proof (evictable_size_bound s Hinv) as Hb.
  destruct (size_delete_evictable _ _ _ He Hev) as [Hsz Hpos].
  destruct Hinv as [? ? Hcs Hfr Hh Hfresh ?].
  assert (u64 (curr_size_ s - 1) = curr_size_ s - 1) as Hu.
  { apply u64_small. unfold INT32_MAX in *. lia. }
  split; [|done]. split; simpl; [done|done|lia| | | |done].
  - intros g e' Hg. apply lookup_delete_Some in Hg as [_ Hg]. eauto.
  - intros g e' Hg. apply lookup_delete_Some in Hg as [_ Hg]. eauto.
  - intros g g' e1 e2 t Hg Hg'. apply lookup_delete_Some in Hg as [_ Hg].
    apply lookup_delete_Some in Hg' as [_ Hg']. eauto.
Qed.

(** Changing the flag of an entry. *)
Lemma lruk_inv_set_evictable s f b : lruk_inv s → lruk_inv (SetEvictable f b s).
Proof.
  intros Hinv. unfold SetEvictable. destruct (entries_ s !! f) as [e|] eqn:He; [|done].
  pose proof (evictable_size_bound s Hinv) as Hb. destruct Hinv as [? ? Hcs Hfr Hh Hfresh ?].
  assert (∀ g e', <[f:=mkFrameEntry (history_ e) b]> (entries_ s) !! g = Some e' →
     ∃ e0, entries_ s !! g = Some e0 ∧ history_ e' = history_ e0) as Hsame.
  { intros g e' Hg. destruct (decide (g = f)) as [->|].
    - rewrite lookup_insert_eq in Hg. injection Hg as <-. eauto.
    - rewrite lookup_insert_ne in Hg by done. eauto. }
  assert (∀ e', is_evictable_ e = false → evictable_entries (entries_ s) !! f = Some e' → False) as Hno.
  { intros e' H1 H2. apply evictable_lookup in H2 as [H2 ?]. congruence. }
  split; simpl; [done|done| | | | |done].
  - destruct b, (is_evictable_ e) eqn:Hev; simpl.
    + rewrite evictable_insert_true by done.
      rewrite map_size_insert_Some; [done|]. exists e. by apply evictable_lookup.
    + rewrite evictable_insert_true by done. rewrite map_size_insert_None.
      * rewrite u64_small by (unfold INT32_MAX in *; lia). lia.
      * destruct (evictable_entries (entries_ s) !! f) eqn:E; [by destruct (Hno f0)|done].
    + rewrite evictable_insert_false by done. unfold evictable_entries.
      rewrite <- map_filter_delete. fold (evictable_entries (delete f (entries_ s))).
      destruct (size_delete_evictable _ _ _ He Hev) as [-> ?].
      rewrite u64_small by (unfold INT32_MAX in *; lia). lia.
    + rewrite evictable_insert_false by done.
      destruct (evictable_entries (entries_ s) !! f) eqn:E; [by destruct (Hno f0)|].
      by rewrite delete_id.
  - intros g e' Hg. apply Hsame in Hg as (e0 & ? & _). eauto.
  - intros g e' Hg. apply Hsame in Hg as (e0 & ? & ->). eauto.
  - intros g g' e1 e2 t Hg Hg'. apply Hsame in Hg as (? & ? & ->).
    apply Hsame in Hg' as (? & ? & ->). eauto.
Qed.

(** [RecordAccess] of a frame of the pool. *)
Lemma lruk_inv_record s f :
  lruk_inv s → 0 ≤ f < max_frames_ s → current_timestamp_ s < SIZE_MAX →
  ∃ s', RecordAccess f s = Ok s' ∧ lruk_inv s' ∧ max_frames_ s' = max_frames_ s ∧
    k_ s' = k_ s ∧ current_timestamp_ s' = current_timestamp_ s + 1 ∧
    ∃ h, entries_ s' = <[f := mkFrameEntry h
           (default false (is_evictable_ <$> entries_ s !! f))]> (entries_ s).
Proof.
  intros [Hk Hm Hcs Hfr Hh Hfresh Hnow] Hf Hts. unfold RecordAccess.
  rewrite (u64_small f) by (unfold INT32_MAX in *; lia).
  destruct (Z.leb_spec (max_frames_ s) f); [lia|]. eexists. split; [done|].
  set (e := default (mkFrameEntry [] false) (entries_ s !! f)).
  set (now := current_timestamp_ s) in *.
  set (h := if k_ s <? Z.of_nat (length (history_ e ++ [now]))
            then tail (history_ e ++ [now]) else history_ e ++ [now]).
  assert (Z.of_nat (length (history_ e)) ≤ k_ s ∧ Forall (λ t, 0 ≤ t < now) (history_ e)) as [Hlen Hall].
  { unfold e. destruct (entries_ s !! f) as [e0|] eqn:He0; simpl; [|split; [lia|constructor]].
    destruct (Hh _ _ He0) as (_ & ? & ?). done. }
  assert (∀ t, t ∈ h → t ∈ history_ e ∨ t = now) as Hin.
  { intros t Ht. assert (t ∈ history_ e ++ [now]) as Ht'.
    { unfold h in Ht. case_match; [|done]. destruct (history_ e ++ [now]); [done|].
      simpl in Ht. set_solver. }
    set_solver. }
  assert (h ≠ [] ∧ Z.of_nat (length h) ≤ k_ s ∧ Forall (λ t, 0 ≤ t < now + 1) h) as Hhok.
  { split_and!.
    - unfold h. destruct (Z.ltb_spec (k_ s) (Z.of_nat (length (history_ e ++ [now])))) as [Hlt|_].
      + rewrite length_app in Hlt. simpl in Hlt. destruct (history_ e) as [|t l]; simpl in *; [lia|].
        by destruct l.
      + by destruct (history_ e).
    - unfold h. destruct (Z.ltb_spec (k_ s) (Z.of_nat (length (history_ e ++ [now])))) as [Hlt|Hge];
        [|done]. rewrite length_app in Hlt; simpl in Hlt.
      destruct (history_ e) as [|t l]; simpl in *; [lia|]. rewrite length_app; simpl. lia.
    - apply Forall_forall. intros t [Ht| ->]%Hin; [|lia]. rewrite Forall_forall in Hall.
      specialize (Hall t Ht). lia. }
  assert (∀ g e' t, g ≠ f → entries_ s !! g = Some e' → t ∈ history_ e' → t ∈ h → False) as Hsep.
  { intros g e' t Hg He' Ht [Hth| ->]%Hin.
    - unfold e in Hth. destruct (entries_ s !! f) as [e0|] eqn:He0; simpl in Hth; [|set_solver].
      apply Hg. by apply (Hfresh g f e' e0 t).
    - destruct (Hh _ _ He') as (_ & _ & Ha). rewrite Forall_forall in Ha. specialize (Ha now Ht). lia. }
  split_and!; try done.
  2:{ simpl. apply u64_small. unfold SIZE_MAX in *. lia. }
  2:{ exists h. simpl. unfold e. by destruct (entries_ s !! f). }
  assert (u64 (now + 1) = now + 1) as Hu by (apply u64_small; unfold SIZE_MAX in *; lia).
  split; simpl; rewrite ?Hu; [done|done| | | | |lia].
  - destruct (is_evictable_ e) eqn:Hev.
    + rewrite evictable_insert_true by done. rewrite map_size_insert_Some; [done|].
      unfold e in Hev. destruct (entries_ s !! f) as [e0|] eqn:He0; [|done].
      exists e0. by apply evictable_lookup.
    + rewrite evictable_insert_false by done. rewrite delete_id; [done|].
      apply evictable_none. intros e0 He0. unfold e in Hev. by rewrite He0 in Hev.
  - intros g e' Hg. destruct (decide (g = f)) as [->|]; [done|].
    rewrite lookup_insert_ne in Hg by done. eauto.
  - intros g e' Hg. destruct (decide (g = f)) as [->|].
    + rewrite lookup_insert_eq in Hg. by injection Hg as <-.
    + rewrite lookup_insert_ne in Hg by done. destruct (Hh _ _ Hg) as (?&?&Ha).
      split_and!; [done..|]. eapply Forall_impl; [exact Ha|]. simpl; lia.
  - intros g g' e1 e2 t Hg Hg' Ht Ht'.
    destruct (decide (g = f)) as [->|], (decide (g' = f)) as [->|]; [done| | |].
    + rewrite lookup_insert_eq in Hg. injection Hg as <-. rewrite lookup_insert_ne in Hg' by done.
      by destruct (Hsep g' e2 t).
    + rewrite lookup_insert_eq in Hg'. injection Hg' as <-. rewrite lookup_insert_ne in Hg by done.
      by destruct (Hsep g e1 t).
    + rewrite !lookup_insert_ne in * by done. eauto.
Qed.

(** ** The victim *)

Definition lruk_drop (f : Z) (s : LRUKReplacer) : LRUKReplacer :=
  mkLRUK (max_frames_ s) (k_ s) (curr_size_ s - 1) (current_timestamp_ s) (delete f (entries_ s)).

Lemma lruk_choice_unique s f g : lruk_inv s → lruk_choice s f → lruk_choice s g → f = g.
Proof.
  intros Hinv [(e & He & Hev & Hf)] [(e' & He' & Hev' & Hg)].
  destruct (Hf _ _ He' Hev') as [H1 H2]. destruct (Hg _ _ He Hev) as [H3 H4].
  assert (front_of e = front_of e') as Heq.
  { unfold few in *. destruct (decide (Z.of_nat (length (history_ e)) < k_ s));
      destruct (decide (Z.of_nat (length (history_ e')) < k_ s)).
    - destruct H1, H3; [done..|]. lia.
    - by destruct H3.
    - by destruct H1.
    - specialize (H2 ltac:(lia)). specialize (H4 ltac:(lia)). lia. }
  assert (∀ x a, entries_ s !! x = Some a → front_of a ∈ history_ a) as Hfront.
  { intros x a Ha. destruct (li_hist _ Hinv _ _ Ha) as [Hne _]. unfold front_of.
    destruct (history_ a); [done|]. simpl. set_solver. }
  eapply (li_fresh _ Hinv f g e e' (front_of e)); eauto. rewrite Heq. eauto.
Qed.

Lemma Evict_in_spec s order :
  lruk_inv s → order ≡ₚ map_to_list (entries_ s) →
  (∃ f, lruk_choice s f ∧ Evict_in order s = Ok (Some f, lruk_drop f s) ∧ lruk_inv (lruk_drop f s)) ∨
  (evictable_entries (entries_ s) = ∅ ∧ Evict_in order s = Ok (None, s)).
Proof.
  intros Hinv Hperm.
  assert (∀ f e, (f, e) ∈ order ↔ entries_ s !! f = Some e) as Hin.
  { intros f e. rewrite Hperm. apply elem_of_map_to_list. }
  destruct (evict_scan_ok (k_ s) (current_timestamp_ s) order [] acc0) as (a & Hscan & Ha).
  { apply (li_now _ Hinv). }
  { intros f e He. apply Hin in He. destruct (li_hist _ Hinv _ _ He) as (?&?&?). by split. }
  { apply acc0_ok. }
  unfold Evict_in. rewrite Hscan; simpl. rewrite app_nil_r in Ha.
  assert (∀ f e, (f, e) ∈ reverse order ↔ entries_ s !! f = Some e) as Hin'.
  { intros f e. rewrite elem_of_reverse. apply Hin. }
  assert (∀ e, (victim a, e) ∈ reverse order → is_evictable_ e = true →
     lruk_choice s (victim a) → ∃ f, lruk_choice s f ∧
      (if victim a =? -1 then Ok (None, s) else
       Ok (Some (victim a), mkLRUK (max_frames_ s) (k_ s) (u64 (curr_size_ s - 1))
         (current_timestamp_ s) (delete (victim a) (entries_ s)))) =
      Ok (Some f, lruk_drop f s) ∧ lruk_inv (lruk_drop f s)) as Hfin.
  { intros e He Hev Hch. apply Hin' in He. exists (victim a).
    destruct (lruk_inv_drop _ _ _ Hinv He Hev) as [Hi Hu]. rewrite Hu in *.
    destruct (li_frames _ Hinv _ _ He). destruct (Z.eqb_spec (victim a) (-1)); [lia|]. done. }
  unfold acc_ok in Ha. destruct (found_inf a).
  - destruct Ha as (e & He & Hev & Hfew & _ & Hmin). left. apply (Hfin e); [done..|]. split.
    exists e. split_and!; [by apply Hin'|done|]. intros g e' Hg Hev'. apply Hin' in Hg.
    split; [intros; split; eauto|done].
  - destruct Ha as (_ & Hno & [(Hv & _ & Hnone)|(e & He & Hev & _ & Hmin)]).
    + right. rewrite Hv. split; [|done]. apply map_empty. intros f. apply evictable_none.
      intros e He. apply Hin' in He. eauto.
    + left. apply (Hfin e); [done..|]. split. exists e. split_and!; [by apply Hin'|done|].
      intros g e' Hg Hev'. apply Hin' in Hg. split; [|eauto].
      intros Hfew. by destruct (Hno _ _ Hg Hev').
Qed.

Lemma Evict_permutation s order :
  lruk_inv s → order ≡ₚ map_to_list (entries_ s) → Evict_in order s = Evict s.
Proof.
  intros Hinv Hperm. unfold Evict.
  destruct (Evict_in_spec s order Hinv Hperm) as [(f & Hf & -> & _)|[Hz ->]];
    destruct (Evict_in_spec s _ Hinv (reflexivity _)) as [(g & Hg & -> & _)|[Hz' ->]]; [|exfalso..|done].
  - by rewrite (lruk_choice_unique s f g).
  - destruct Hf as [(e & He & Hev & _)].
    assert (evictable_entries (entries_ s) !! f = Some e) as H by (by apply evictable_lookup).
    by rewrite Hz', lookup_empty in H.
  - destruct Hg as [(e & He & Hev & _)].
    assert (evictable_entries (entries_ s) !! g = Some e) as H by (by apply evictable_lookup).
    by rewrite Hz, lookup_empty in H.
Qed.

Lemma lruk_inv_new n k : 1 ≤ k → 0 ≤ n ≤ INT32_MAX → lruk_inv (LRUK_new n k).
Proof.
  intros Hk Hn. split; simpl; [done|done|done|..].
  - intros f e. by rewrite lookup_empty.
  - intros f e. by rewrite lookup_empty.
  - intros f g e e' t. by rewrite lookup_empty.
  - unfold SIZE_MAX. lia.
Qed.

(** ** Sequences of calls *)

(** The public methods as calls; a call that throws leaves the object as it
    was before the call (each method throws before its first assignment). *)
Inductive lruk_call :=
  | CallAccess (f : Z)
  | CallSetEvictable (f : Z) (b : bool)
  | CallRemove (f : Z)
  | CallEvict.

Definition lruk_exec (c : lruk_call) (s : LRUKReplacer) : LRUKReplacer :=
  match c with
  | CallAccess f => match RecordAccess f s with Ok s' => s' | _ => s end
  | CallSetEvictable f b => SetEvictable f b s
  | CallRemove f => match Remove f s with Ok s' => s' | _ => s end
  | CallEvict => match Evict s with Ok (_, s') => s' | _ => s end
  end.

Definition lruk_run (cs : list lruk_call) (s : LRUKReplacer) : LRUKReplacer :=
  fold_left (λ s c, lruk_exec c s) cs s.

(** Frame ids are [int32_t]. *)
Definition call_in_range (c : lruk_call) : Prop :=
  match c with
  | CallAccess f | CallSetEvictable f _ | CallRemove f => in_i32 f = true
  | CallEvict => True
  end.

Lemma RecordAccess_out s f :
  lruk_inv s → in_i32 f = true → ¬ 0 ≤ f < max_frames_ s →
  RecordAccess f s = Throw (InvalidArgument "Invalid frame_id").
Proof.
  intros Hinv Hr Hf. unfold RecordAccess. pose proof (li_max _ Hinv) as Hmax.
  unfold in_i32, INT32_MIN, INT32_MAX in *. apply andb_true_iff in Hr.
  destruct (Z.leb_spec (max_frames_ s) (u64 f)) as [|Hlt]; [done|]. exfalso. unfold u64 in Hlt.
  destruct (decide (0 ≤ f)).
  - rewrite Z.mod_small in Hlt by lia. lia.
  - rewrite <- (Z.mod_add f 1) in Hlt by lia. rewrite Z.mod_small in Hlt by lia. lia.
Qed.

Lemma Remove_spec s f :
  lruk_inv s →
  match entries_ s !! f with
  | None => Remove f s = Ok s
  | Some e => if is_evictable_ e
              then Remove f s = Ok (lruk_drop f s) ∧ lruk_inv (lruk_drop f s)
              else Remove f s = Throw (RuntimeError "Cannot remove a non-evictable frame")
  end.
Proof.
  intros Hinv. unfold Remove. destruct (entries_ s !! f) as [e|] eqn:He; [|done].
  destruct (is_evictable_ e) eqn:Hev; simpl; [|done].
  destruct (lruk_inv_drop _ _ _ Hinv He Hev) as [Hi Hu]. rewrite Hu in *. done.
Qed.

Lemma SetEvictable_now s f b : current_timestamp_ (SetEvictable f b s) = current_timestamp_ s.
Proof. unfold SetEvictable. by destruct (entries_ s !! f). Qed.

Lemma lruk_exec_inv s c :
  lruk_inv s → call_in_range c → current_timestamp_ s < SIZE_MAX →
  lruk_inv (lruk_exec c s) ∧ current_timestamp_ (lruk_exec c s) ≤ current_timestamp_ s + 1.
Proof.
  intros Hinv Hc Hnow. destruct c as [f|f b|f|]; simpl.
  - destruct (decide (0 ≤ f < max_frames_ s)) as [Hf|Hf].
    + destruct (lruk_inv_record s f Hinv Hf Hnow) as (s' & -> & Hi & _ & _ & -> & _). split; [done|lia].
    + rewrite RecordAccess_out by done. split; [done|lia].
  - rewrite SetEvictable_now. split; [by apply lruk_inv_set_evictable|lia].
  - pose proof (Remove_spec s f Hinv) as H. destruct (entries_ s !! f) as [e|]; [|rewrite H; split; [done|lia]].
    destruct (is_evictable_ e); [destruct H as [-> ?]|rewrite H]; (split; [done|simpl; lia]).
  - unfold Evict. destruct (Evict_in_spec s _ Hinv (reflexivity _)) as [(f & _ & -> & Hi)|[_ ->]];
      (split; [done|simpl; lia]).
Qed.

Lemma lruk_run_inv cs s :
  lruk_inv s → Forall call_in_range cs →
  current_timestamp_ s + Z.of_nat (length cs) ≤ SIZE_MAX → lruk_inv (lruk_run cs s).
Proof.
  revert s; induction cs as [|c cs IH]; intros s Hinv Hcs Hlen; [done|].
  apply Forall_cons in Hcs as [Hc Hcs]. simpl in Hlen.
  destruct (lruk_exec_inv s c) as [? ?]; [done|done|lia|]. apply IH; [done|done|lia].
Qed.

(** ** Properties *)

(** C30: [LRUKReplacer::Evict] returns a victim exactly when some frame is
    evictable, the victim is the one the LRU-K policy names, its entry is
    removed and [Size()] decremented; the answer does not depend on the
    iteration order of the [unordered_map]. *)
Theorem Evict_lru_k_policy s order :
  lruk_inv s → order ≡ₚ map_to_list (entries_ s) →
  Evict_in order s = Evict s ∧
  (evictable_entries (entries_ s) = ∅ → Evict s = Ok (None, s)) ∧
  (evictable_entries (entries_ s) ≠ ∅ →
   ∃ f, lruk_choice s f ∧ (∀ g, lruk_choice s g → g = f) ∧ Evict s = Ok (Some f, lruk_drop f s)).
Proof.
  intros Hinv Hperm. split; [by apply Evict_permutation|]. unfold Evict.
  destruct (Evict_in_spec s _ Hinv (reflexivity _)) as [(f & Hf & -> & _)|[Hz ->]].
  - split.
    + intros Hz. destruct Hf as [(e & He & Hev & _)].
      assert (evictable_entries (entries_ s) !! f = Some e) as H by (by apply evictable_lookup).
      by rewrite Hz, lookup_empty in H.
    + intros _. exists f. split_and!; [done| |done]. intros g Hg. by apply (lruk_choice_unique s).
  - done.
Qed.

(** Whatever the sequence of calls from construction (throwing calls
    included), [Size()] is the number of evictable entries, every history holds
    between one and [k] timestamps of the past, and no two frames share a
    timestamp. *)
Lemma replacer_invariant_always n k cs :
  1 ≤ k → 0 ≤ n ≤ INT32_MAX → Forall call_in_range cs → Z.of_nat (length cs) ≤ SIZE_MAX →
  lruk_inv (lruk_run cs (LRUK_new n k)) ∧
  Size (lruk_run cs (LRUK_new n k)) =
    Z.of_nat (size (evictable_entries (entries_ (lruk_run cs (LRUK_new n k))))).
Proof.
  intros Hk Hn Hcs Hlen.
  assert (lruk_inv (lruk_run cs (LRUK_new n k))) as Hinv.
  { apply lruk_run_inv; [by apply lruk_inv_new|done|]. simpl. lia. }
  split; [done|]. apply (li_size _ Hinv).
Qed.

(** ** Witnesses *)

(** Frame 0 is accessed twice, frames 1 and 2 once, with [k = 2]. *)
Definition lruk_demo_calls : list lruk_call :=
  [CallAccess 0; CallAccess 1; CallAccess 0; CallAccess 2;
   CallSetEvictable 0 true; CallSetEvictable 1 true; CallSetEvictable 2 true].
Definition lruk_demo : LRUKReplacer := lruk_run lruk_demo_calls (LRUK_new 3 2).

Example lruk_demo_evict : (fst <$> Evict lruk_demo) = Ok (Some 1).
Proof. vm_compute. reflexivity. Qed.

Lemma lruk_demo_inv : lruk_inv lruk_demo.
Proof.
  apply lruk_run_inv; [apply lruk_inv_new; unfold INT32_MAX; lia| |vm_compute; discriminate].
  repeat constructor.
Qed.

Lemma Evict_lru_k_policy_witness :
  lruk_inv lruk_demo ∧
  Evict_in (reverse (map_to_list (entries_ lruk_demo))) lruk_demo = Evict lruk_demo.
Proof.
  split; [exact lruk_demo_inv|].
  apply (Evict_lru_k_policy lruk_demo (reverse (map_to_list (entries_ lruk_demo)))).
  - exact lruk_demo_inv.
  - apply reverse_Permutation.
Defined.

Lemma replacer_invariant_always_witness : Size (lruk_run lruk_demo_calls (LRUK_new 3 2)) = 3.
Proof.
  destruct (replacer_invariant_always 3 2 lruk_demo_calls) as [_ ->].
  - lia.
  - unfold INT32_MAX; lia.
  - repeat constructor.
  - vm_compute. discriminate.
  - vm_compute. reflexivity.
Defined.
