(* ===== verification/Disk.v ===== *)
(** * The disk manager

    [src/src/storage/disk/disk_manager.cpp] and its header.  The database file
    is a list of whole pages; [D] is the type of a page's contents and [zero]
    the page of zero bytes.  The [std::fstream] is modelled with the sticky
    [failbit] of the standard library: a read that reaches the end of the file
    sets it, and every later [seekg], [read], [seekp] and [write] of the stream
    does nothing ([disk_manager.cpp] tests only [bad()]).  [badbit], raised by
    a failing device, is not modelled. *)

From S2P Require Import Prelude Common.

Section Disk.
Context {D : Type} (zero : D).

Record DiskManager := mkDisk {
  file : list D;
  failbit : bool;
  next_page_id_ : Z;
  num_pages_ : Z
}.

(** The constructor on an existing (or empty) file of whole pages. *)
Definition Disk_open (content : list D) : DiskManager :=
  mkDisk content false (i32 (Z.of_nat (length content))) (Z.of_nat (length content)).

(** The constructor: the file is opened, or else created; [existing] and [created] are
    the outcomes of the two calls of [open]. *)
Definition DiskManager_open (db_file : string) (existing : option (list D)) (created : bool) : res DiskManager :=
  match existing with
  | Some content => Ok (Disk_open content)
  | None => if created then Ok (Disk_open []) else Throw (RuntimeError ("Cannot open DB file: " +:+ db_file))
  end.

(** [close]: the next [seekg] or [seekp] of the closed stream sets [failbit], so that
    nothing is read or written any more. *)
Definition ShutDown (s : DiskManager) : DiskManager := mkDisk (file s) true (next_page_id_ s) (num_pages_ s).

(** The page at an index of the file. *)
Definition file_page (fl : list D) (p : Z) : option D :=
  if decide (0 ≤ p) then fl !! Z.to_nat p else None.

(** [seekg], [read] and [gcount]; the missing bytes are zeroed. *)
Definition ReadPage (page_id : Z) (s : DiskManager) : D * DiskManager :=
  if failbit s then (zero, s)
  else match file_page (file s) page_id with
  | Some d => (d, s)
  | None => (zero, mkDisk (file s) true (next_page_id_ s) (num_pages_ s))
  end.

(** Writing a page of the file, which grows by a hole of zeros when needed. *)
Definition file_write (fl : list D) (p : nat) (d : D) : list D :=
  <[p := d]> (fl ++ replicate (S p - length fl) zero).

Definition WritePage (page_id : Z) (d : D) (s : DiskManager) : DiskManager :=
  let np := if num_pages_ s <=? u64 page_id then u64 (page_id + 1) else num_pages_ s in
  if failbit s then mkDisk (file s) true (next_page_id_ s) np
  else if page_id <? 0 then mkDisk (file s) true (next_page_id_ s) np
  else mkDisk (file_write (file s) (Z.to_nat page_id) d) false (next_page_id_ s) np.

(** [next_page_id_++] on an [int32_t]. *)
Definition AllocatePage (s : DiskManager) : res (Z * DiskManager) :=
  n ← i32_arith (next_page_id_ s + 1);
  Ok (next_page_id_ s, mkDisk (file s) (failbit s) n (num_pages_ s)).

Definition DeallocatePage (page_id : Z) (s : DiskManager) : DiskManager := s.

Definition GetNumPages (s : DiskManager) : Z := num_pages_ s.

(** ** Lemmas *)

Lemma file_write_same fl p d : file_write fl p d !! p = Some d.
Proof.
  unfold file_write. apply list_lookup_insert_eq. rewrite length_app, length_replicate. lia.
Qed.

Lemma file_write_other fl p q d x :
  q ≠ p → fl !! q = Some x → file_write fl p d !! q = Some x.
Proof.
  intros Hne Hq. unfold file_write. rewrite list_lookup_insert_ne by done.
  by rewrite lookup_app_l by (by eapply lookup_lt_Some).
Qed.

Lemma WritePage_file s p d :
  failbit s = false → 0 ≤ p →
  failbit (WritePage p d s) = false ∧ next_page_id_ (WritePage p d s) = next_page_id_ s ∧
  file_page (file (WritePage p d s)) p = Some d ∧
  (∀ q x, q ≠ p → file_page (file s) q = Some x → file_page (file (WritePage p d s)) q = Some x).
Proof.
  intros Hf Hp. unfold WritePage. rewrite Hf. destruct (Z.ltb_spec p 0); [lia|]. simpl.
  unfold file_page. split_and!; [done|done| |].
  - rewrite decide_True by done. apply file_write_same.
  - intros q x Hne. case_decide; [|done]. intros. apply file_write_other; [lia|done].
Qed.

Lemma ReadPage_hit s p d :
  failbit s = false → file_page (file s) p = Some d → ReadPage p s = (d, s).
Proof. intros Hf Hp. unfold ReadPage. by rewrite Hf, Hp. Qed.

(** ** Properties *)

(** Once a read has reached past the end of the file, the stream stays in
    the failed state: whatever is read or written afterwards, the file never
    changes again and every read returns a page of zeros. *)
Theorem disk_failed_stream_is_dead (p : Z) (s : DiskManager) (ops : list (Z * option D)) :
  failbit s = false → file_page (file s) p = None →
  let run := fold_left (λ st op,
    match op.2 with Some d => WritePage op.1 d st | None => (ReadPage op.1 st).2 end) ops in
  let s' := run (ReadPage p s).2 in
  file s' = file s ∧ failbit s' = true ∧ ∀ q, (ReadPage q s').1 = zero.
Proof.
  intros Hf Hp run.
  assert (∀ s1, failbit s1 = true → file (run s1) = file s1 ∧ failbit (run s1) = true) as Hrun.
  { unfold run. induction ops as [|[q [d|]] ops IH]; intros s1 H1; [done| |]; simpl.
    - destruct (IH (WritePage q d s1)) as [-> ->]; unfold WritePage; by rewrite H1.
    - destruct (IH (ReadPage q s1).2) as [-> ->]; unfold ReadPage; by rewrite H1. }
  cbv zeta. destruct (Hrun (ReadPage p s).2) as [H1 H2]; [unfold ReadPage; by rewrite Hf, Hp|].
  rewrite H1. split_and!; [unfold ReadPage; by rewrite Hf, Hp|done|].
  intros q. unfold ReadPage at 1. by rewrite H2.
Qed.

(** While the stream is good, a page that was written is what is read back,
    and the other pages of the file are untouched. *)
Lemma disk_read_after_write (s : DiskManager) (p q : Z) (d : D) :
  failbit s = false → 0 ≤ p →
  ReadPage p (WritePage p d s) = (d, WritePage p d s) ∧
  (∀ x, q ≠ p → ReadPage q s = (x, s) → file_page (file s) q ≠ None →
        ReadPage q (WritePage p d s) = (x, WritePage p d s)).
Proof.
  intros Hf Hp. destruct (WritePage_file s p d Hf Hp) as (Hf' & _ & Hsame & Hother). split.
  - by apply ReadPage_hit.
  - intros x Hne Hr Hq. unfold ReadPage in Hr. rewrite Hf in Hr.
    destruct (file_page (file s) q) as [y|] eqn:Hy; [|done]. injection Hr as ->.
    apply ReadPage_hit; [done|]. by apply Hother.
Qed.
End Disk.

Arguments DiskManager : clear implicits.

(** ** Witnesses *)
Lemma disk_failed_stream_is_dead_witness :
  file (WritePage (D := Z) 0 0 7 (ReadPage 0 3 (Disk_open [5; 6])).2) = [5; 6].
Proof.
  destruct (disk_failed_stream_is_dead (D := Z) 0 3 (Disk_open [5; 6]) [(0, Some 7)]) as [H _];
    [reflexivity|reflexivity|exact H].
Defined.

Lemma disk_read_after_write_witness :
  (ReadPage (D := Z) 0 4 (WritePage 0 4 9 (Disk_open [5; 6]))).1 = 9.
Proof.
  destruct (disk_read_after_write (D := Z) 0 (Disk_open [5; 6]) 4 0 9) as [-> _];
    [reflexivity|lia|reflexivity].
Defined.
