(* ===== verification/BufferPool.v ===== *)
(** * The buffer pool manager

    [src/src/buffer/buffer_pool_manager.cpp], its header, and the [Page] class
    of [page.h].  Every method runs under [latch_], so a method is one atomic
    step on the state.  A [Page *] is the index of a frame of [pages_]. *)

From S2P Require Import Prelude Common LruK Disk.

Section BufferPool.
Context {D : Type} (zero : D).

(** ** State *)

(** [Page]: the frame's contents and metadata (the latch is in [PageGuard]). *)
Record Page := mkPage { data_ : D; page_id_ : Z; pin_count_ : Z; is_dirty_ : bool }.

(** [Page()]: zeroed memory, no page. *)
Definition Page_new : Page := mkPage zero INVALID_PAGE_ID 0 false.

Record BufferPool := mkPool {
  pool_size_ : Z;
  disk_manager_ : DiskManager D;
  replacer_ : LRUKReplacer;
  pages_ : list Page;
  page_table_ : gmap Z Z;
  free_list_ : list Z
}.

#[local] Notation BP := (ST BufferPool).

Definition set_disk (d : DiskManager D) (s : BufferPool) : BufferPool :=
  mkPool (pool_size_ s) d (replacer_ s) (pages_ s) (page_table_ s) (free_list_ s).
Definition set_replacer (r : LRUKReplacer) (s : BufferPool) : BufferPool :=
  mkPool (pool_size_ s) (disk_manager_ s) r (pages_ s) (page_table_ s) (free_list_ s).
Definition set_pages (ps : list Page) (s : BufferPool) : BufferPool :=
  mkPool (pool_size_ s) (disk_manager_ s) (replacer_ s) ps (page_table_ s) (free_list_ s).
Definition set_table (t : gmap Z Z) (s : BufferPool) : BufferPool :=
  mkPool (pool_size_ s) (disk_manager_ s) (replacer_ s) (pages_ s) t (free_list_ s).
Definition set_free (l : list Z) (s : BufferPool) : BufferPool :=
  mkPool (pool_size_ s) (disk_manager_ s) (replacer_ s) (pages_ s) (page_table_ s) l.

(** The constructor: every frame is on the free list, in order. *)
Definition BufferPool_new (pool_size : Z) (disk : DiskManager D) (replacer_k : Z) : BufferPool :=
  mkPool pool_size disk (LRUK_new pool_size replacer_k)
         (replicate (Z.to_nat pool_size) Page_new) ∅ (seqZ 0 pool_size).

(** ** Operations *)

Definition get_page (f : Z) : BP Page := λ s, (arr_get (pages_ s) f, s).
Definition put_page (f : Z) (p : Page) : BP unit := λ s,
  match arr_set (pages_ s) f p with Ok ps => (Ok tt, set_pages ps s) | _ => (UB, s) end.

(** A frame from the free list, else the replacer's victim. *)
Definition take_frame : BP (option Z) := λ s,
  match free_list_ s with
  | f :: rest => (Ok (Some f), set_free rest s)
  | [] =>
      match Evict (replacer_ s) with
      | Ok (o, r) => (Ok o, set_replacer r s)
      | Throw e => (Throw e, s)
      | UB => (UB, s)
      | OutOfFuel => (OutOfFuel, s)
      end
  end.

(** The page the frame held: written back if dirty, and unmapped. *)
Definition release_old (f : Z) : BP unit :=
  page ← get_page f;
  if page_id_ page =? INVALID_PAGE_ID then mret tt
  else
    _ ← (if is_dirty_ page
         then st_modify (λ s, set_disk (WritePage zero (page_id_ page) (data_ page) (disk_manager_ s)) s)
         else mret tt);
    st_modify (λ s, set_table (delete (page_id_ page) (page_table_ s)) s).

(** [RecordAccess] then [SetEvictable(frame_id, false)]. *)
Definition touch (f : Z) : BP unit := λ s,
  match RecordAccess f (replacer_ s) with
  | Ok r => (Ok tt, set_replacer (SetEvictable f false r) s)
  | Throw e => (Throw e, s)
  | UB => (UB, s)
  | OutOfFuel => (OutOfFuel, s)
  end.

(** [NewPage]: [None] models [nullptr], [Some (p, f)] the new page id and the
    frame. *)
Definition NewPage : BP (option (Z * Z)) :=
  o ← take_frame;
  match o with
  | None => mret None
  | Some f =>
      _ ← release_old f;
      s ← st_get;
      '(pid, d) ← st_lift (AllocatePage (disk_manager_ s));
      _ ← st_modify (set_disk d);
      _ ← put_page f (mkPage zero pid 1 false);
      _ ← st_modify (λ s, set_table (<[pid := f]> (page_table_ s)) s);
      _ ← touch f;
      mret (Some (pid, f))
  end.

Definition FetchPage (pid : Z) : BP (option Z) :=
  s ← st_get;
  match page_table_ s !! pid with
  | Some f =>
      page ← get_page f;
      _ ← put_page f (mkPage (data_ page) (page_id_ page) (pin_count_ page + 1) (is_dirty_ page));
      _ ← touch f;
      mret (Some f)
  | None =>
      o ← take_frame;
      match o with
      | None => mret None
      | Some f =>
          _ ← release_old f;
          s ← st_get;
          let '(data, d) := ReadPage zero pid (disk_manager_ s) in
          _ ← st_modify (set_disk d);
          _ ← put_page f (mkPage data pid 1 false);
          _ ← st_modify (λ s, set_table (<[pid := f]> (page_table_ s)) s);
          _ ← touch f;
          mret (Some f)
      end
  end.

Definition UnpinPage (pid : Z) (is_dirty : bool) : BP bool :=
  s ← st_get;
  match page_table_ s !! pid with
  | None => mret false
  | Some f =>
      page ← get_page f;
      if pin_count_ page <=? 0 then mret false
      else
        let pc := pin_count_ page - 1 in
        _ ← put_page f (mkPage (data_ page) (page_id_ page) pc (is_dirty || is_dirty_ page));
        _ ← (if pc =? 0
             then st_modify (λ s, set_replacer (SetEvictable f true (replacer_ s)) s)
             else mret tt);
        mret true
  end.

Definition FlushPage (pid : Z) : BP bool :=
  s ← st_get;
  if pid =? INVALID_PAGE_ID then mret false
  else match page_table_ s !! pid with
  | None => mret false
  | Some f =>
      page ← get_page f;
      _ ← st_modify (λ s, set_disk (WritePage zero pid (data_ page) (disk_manager_ s)) s);
      _ ← put_page f (mkPage (data_ page) (page_id_ page) (pin_count_ page) false);
      mret true
  end.

(** The body of the loop of [FlushAllPages] on frame [i]. *)
Definition flush_frame (i : Z) : BP unit :=
  page ← get_page i;
  if page_id_ page =? INVALID_PAGE_ID then mret tt
  else
    _ ← st_modify (λ s, set_disk (WritePage zero (page_id_ page) (data_ page) (disk_manager_ s)) s);
    put_page i (mkPage (data_ page) (page_id_ page) (pin_count_ page) false).

Fixpoint flush_frames (fs : list Z) : BP unit :=
  match fs with
  | [] => mret tt
  | i :: fs => _ ← flush_frame i; flush_frames fs
  end.

Definition FlushAllPages : BP unit :=
  s ← st_get; flush_frames (seqZ 0 (pool_size_ s)).

Definition DeletePage (pid : Z) : BP bool :=
  s ← st_get;
  match page_table_ s !! pid with
  | None => mret true
  | Some f =>
      page ← get_page f;
      if 0 <? pin_count_ page then mret false
      else
        _ ← st_modify (λ s, set_table (delete pid (page_table_ s)) s);
        s ← st_get;
        r ← st_lift (Remove f (replacer_ s));
        _ ← st_modify (set_replacer r);
        _ ← st_modify (λ s, set_free (free_list_ s ++ [f]) s);
        _ ← put_page f (mkPage zero INVALID_PAGE_ID 0 false);
        _ ← st_modify (λ s, set_disk (DeallocatePage pid (disk_manager_ s)) s);
        mret true
  end.

(** A client's writes through [Page::GetData()]. *)
Definition write_frame (f : Z) (g : D → D) : BP unit :=
  page ← get_page f;
  put_page f (mkPage (g (data_ page)) (page_id_ page) (pin_count_ page) (is_dirty_ page)).
Definition read_frame (f : Z) : BP D := page ← get_page f; mret (data_ page).

(** ** Specification: the abstract store *)

(** The frame [f] of the pool. *)
Definition frame (s : BufferPool) (f : Z) : option Page :=
  if decide (0 ≤ f) then pages_ s !! Z.to_nat f else None.

(** [bp_ok h m s]: the state [s] represents the map [m] from live page ids to
    contents.  [h] names the frame, if any, that an operation has taken out of
    the free list or the replacer and not yet given a page: between the calls
    [h] is [None]. *)
Record bp_ok (h : option Z) (m : gmap Z D) (s : BufferPool) : Prop := {
  bo_size : pool_size_ s = Z.of_nat (length (pages_ s));
  bo_lru : lruk_inv (replacer_ s);
  bo_max : max_frames_ (replacer_ s) = pool_size_ s;
  bo_disk : failbit (disk_manager_ s) = false;
  bo_next : 0 ≤ next_page_id_ (disk_manager_ s);
  bo_hole : ∀ f, h = Some f → ∃ pg, frame s f = Some pg;
  bo_table : ∀ p f, page_table_ s !! p = Some f ↔
    h ≠ Some f ∧ p ≠ INVALID_PAGE_ID ∧ ∃ pg, frame s f = Some pg ∧ page_id_ pg = p;
  bo_free_nd : NoDup (free_list_ s);
  bo_free : ∀ f, f ∈ free_list_ s ↔
    h ≠ Some f ∧ ∃ pg, frame s f = Some pg ∧ page_id_ pg = INVALID_PAGE_ID;
  bo_entry : ∀ f, is_Some (entries_ (replacer_ s) !! f) ↔
    h ≠ Some f ∧ ∃ pg, frame s f = Some pg ∧ page_id_ pg ≠ INVALID_PAGE_ID;
  bo_evictable : ∀ f e pg, entries_ (replacer_ s) !! f = Some e → frame s f = Some pg →
    0 ≤ pin_count_ pg ∧ (is_evictable_ e = true ↔ pin_count_ pg = 0);
  bo_dom : ∀ p f, page_table_ s !! p = Some f → is_Some (m !! p);
  bo_live : ∀ p d, m !! p = Some d → 0 ≤ p < next_page_id_ (disk_manager_ s);
  bo_resident : ∀ p f pg d, page_table_ s !! p = Some f → frame s f = Some pg →
    m !! p = Some d → data_ pg = d;
  bo_stored : ∀ p d, page_table_ s !! p = None → m !! p = Some d →
    file_page (file (disk_manager_ s)) p = Some d;
  bo_clean : ∀ p f pg, page_table_ s !! p = Some f → frame s f = Some pg →
    pin_count_ pg = 0 → is_dirty_ pg = false →
    file_page (file (disk_manager_ s)) p = Some (data_ pg)
}.

(** The pin count of a page; zero when it is not resident. *)
Definition pins (s : BufferPool) (p : Z) : Z :=
  match page_table_ s !! p with
  | Some f => match frame s f with Some pg => pin_count_ pg | None => 0 end
  | None => 0
  end.

(** Frame [f] holds page [p]. *)
Definition holds (s : BufferPool) (p f : Z) : Prop := page_table_ s !! p = Some f.

(** Some frame can be had: a free one, or one whose page nobody pins. *)
Definition frame_available (s : BufferPool) : Prop :=
  free_list_ s ≠ [] ∨ ∃ p f, holds s p f ∧ pins s p = 0.

(** A clean frame shows what the file holds. *)
Definition clean (s : BufferPool) (q : Z) : Prop := ∀ f pg,
  holds s q f → frame s f = Some pg → is_dirty_ pg = false →
  file_page (file (disk_manager_ s)) q = Some (data_ pg).

Definition ticks (s : BufferPool) : Z := current_timestamp_ (replacer_ s).

(** ** Lemmas on frames *)

Implicit Types s : BufferPool.

Lemma get_page_ok s f pg : frame s f = Some pg → get_page f s = (Ok pg, s).
Proof. unfold frame, get_page, arr_get. case_decide; [|done]. by intros ->. Qed.

Lemma put_page_ok s f pg pg' :
  frame s f = Some pg →
  put_page f pg' s = (Ok tt, set_pages (<[Z.to_nat f := pg']> (pages_ s)) s).
Proof.
  unfold frame, put_page, arr_set. case_decide; [|done]. intros Hl.
  apply lookup_lt_Some in Hl. by rewrite decide_True by lia.
Qed.

Lemma frame_range s f pg : frame s f = Some pg → 0 ≤ f < Z.of_nat (length (pages_ s)).
Proof. unfold frame. case_decide; [|done]. intros Hl%lookup_lt_Some. lia. Qed.

Lemma frame_set_pages s f pg pg' g :
  frame s f = Some pg →
  frame (set_pages (<[Z.to_nat f := pg']> (pages_ s)) s) g =
    if decide (g = f) then Some pg' else frame s g.
Proof.
  intros Hf. pose proof (frame_range _ _ _ Hf). unfold frame; simpl. case_decide.
  - case_decide as E; [subst|].
    + apply list_lookup_insert_eq. lia.
    + rewrite list_lookup_insert_ne by lia. done.
  - by rewrite decide_False by lia.
Qed.

Lemma holds_inj h m s p f g : bp_ok h m s → holds s p f → holds s p g → f = g.
Proof. unfold holds. congruence. Qed.

Lemma holds_frame h m s p f :
  bp_ok h m s → holds s p f → ∃ pg, frame s f = Some pg ∧ page_id_ pg = p ∧ p ≠ INVALID_PAGE_ID.
Proof. intros Hok Hp. apply (bo_table _ _ _ Hok) in Hp as (_ & ? & pg & ? & ?). eauto. Qed.

Lemma holds_page_inj h m s p q f : bp_ok h m s → holds s p f → holds s q f → p = q.
Proof.
  intros Hok Hp Hq. destruct (holds_frame _ _ _ _ _ Hok Hp) as (pg & H1 & H2 & _).
  destruct (holds_frame _ _ _ _ _ Hok Hq) as (pg' & H3 & H4 & _). congruence.
Qed.

Lemma holds_pins s p f pg : holds s p f → frame s f = Some pg → pins s p = pin_count_ pg.
Proof. unfold holds, pins. by intros -> ->. Qed.

Lemma holds_entry h m s p f :
  bp_ok h m s → holds s p f → ∃ e pg, entries_ (replacer_ s) !! f = Some e ∧ frame s f = Some pg ∧
    page_id_ pg = p ∧ 0 ≤ pin_count_ pg ∧ (is_evictable_ e = true ↔ pin_count_ pg = 0).
Proof.
  intros Hok Hp. pose proof Hp as Ht. apply (bo_table _ _ _ Hok) in Ht as (Hh & Hn & pg & Hf & Hpg).
  destruct (proj2 (bo_entry _ _ _ Hok f)) as [e He]; [split; [done|]; exists pg; by rewrite Hpg|].
  destruct (bo_evictable _ _ _ Hok _ _ _ He Hf). eauto 10.
Qed.

Lemma holds_live h m s p f :
  bp_ok h m s → holds s p f → 0 ≤ p < next_page_id_ (disk_manager_ s).
Proof.
  intros Hok Hp. destruct (bo_dom _ _ _ Hok _ _ Hp) as [d Hd]. apply (bo_live _ _ _ Hok _ _ Hd).
Qed.

(** ** The steps of the operations *)

(** Writing a resident page to disk. *)
Lemma write_back_ok h m s p f pg :
  bp_ok h m s → holds s p f → frame s f = Some pg →
  bp_ok h m (set_disk (WritePage zero p (data_ pg) (disk_manager_ s)) s) ∧
  file_page (file (WritePage zero p (data_ pg) (disk_manager_ s))) p = Some (data_ pg) ∧
  next_page_id_ (WritePage zero p (data_ pg) (disk_manager_ s)) = next_page_id_ (disk_manager_ s).
Proof.
  intros Hok Hp Hf. destruct (bo_dom _ _ _ Hok _ _ Hp) as [d Hd].
  destruct (bo_live _ _ _ Hok _ _ Hd) as [Hp0 _].
  destruct (WritePage_file zero (disk_manager_ s) p (data_ pg) (bo_disk _ _ _ Hok) Hp0)
    as (Hfb & Hnext & Hsame & Hother).
  split; [|done]. destruct Hok. split; simpl; rewrite ?Hnext; try done.
  - intros q d' Hq Hm. apply Hother; [unfold holds in Hp; congruence|eauto].
  - intros q g pg' Hq Hg Hpin Hcl. destruct (decide (q = p)) as [->|].
    + unfold holds in Hp. assert (g = f) as -> by congruence.
      change (frame s f = Some pg') in Hg. congruence.
    + apply Hother; [done|]. eauto.
Qed.

(** Taking the frame of an unpinned page, whose contents are on disk if the
    page lives on. *)
Lemma evict_frame_ok m m' s p f pg :
  bp_ok None m s → holds s p f → frame s f = Some pg → pin_count_ pg = 0 →
  (∀ q, q ≠ p → m' !! q = m !! q) →
  (∀ d, m' !! p = Some d → m !! p = Some d ∧ file_page (file (disk_manager_ s)) p = Some d) →
  bp_ok (Some f) m' (set_table (delete p (page_table_ s))
                     (set_replacer (lruk_drop f (replacer_ s)) s)).
Proof.
  intros Hok Hp Hf Hpin Hm Hfile. pose proof (λ q, holds_page_inj None m s p q f Hok) as Hinj.
  destruct (holds_entry _ _ _ _ _ Hok Hp) as (e & pg' & He & Hf' & Hid & _ & Hev).
  assert (pg' = pg) as -> by congruence. apply Hev in Hpin.
  destruct (lruk_inv_drop _ _ _ (bo_lru _ _ _ Hok) He Hpin) as [Hl Hu]. rewrite Hu in Hl.
  destruct Hok. unfold holds in *. split; simpl; try done.
  - intros g [= <-]. by exists pg.
  - intros q g. rewrite lookup_delete_Some, bo_table0. split.
    + intros (Hne & _ & Hq & pg' & Hg & Hpg). split_and!; [|done|by exists pg'].
      intros [= ->]. congruence.
    + intros (Hne & Hq & pg' & Hg & Hpg). split_and!; [|done|done|by exists pg'].
      intros ->. apply Hne. f_equal.
      assert (page_table_ s !! q = Some g) as Hqg by (apply bo_table0; split_and!; [done..|by exists pg']).
      congruence.
  - intros g. rewrite bo_free0. split; [|intros (_ & ?); by split].
    intros (_ & pg' & Hg & Hpg). split; [|by exists pg']. intros [= ->].
    apply bo_table0 in Hp as (_ & Hp & _). assert (frame s g = Some pg') by done. congruence.
  - intros g. rewrite lookup_delete_is_Some, bo_entry0. split.
    + intros (Hne & _ & ?). split; [congruence|done].
    + intros (Hne & ?). split_and!; [congruence|done|done].
  - intros g e' pg' Hg. apply lookup_delete_Some in Hg as [_ Hg]. eauto.
  - intros q g Hq. apply lookup_delete_Some in Hq as [? Hq]. rewrite Hm by done. eauto.
  - intros q d Hq. destruct (decide (q = p)) as [->|].
    + apply Hfile in Hq as [? _]. eauto.
    + rewrite Hm in Hq by done. eauto.
  - intros q g pg' d Hq. apply lookup_delete_Some in Hq as [? Hq]. rewrite Hm by done. eauto.
  - intros q d Hq Hd. destruct (decide (q = p)) as [->|].
    + by apply Hfile.
    + rewrite lookup_delete_ne in Hq by done. rewrite Hm in Hd by done. eauto.
  - intros q g pg' Hq. apply lookup_delete_Some in Hq as [_ Hq]. eauto.
Qed.

(** The first free frame. *)
Lemma free_frame_ok m s f rest :
  bp_ok None m s → free_list_ s = f :: rest →
  ∃ pg, frame s f = Some pg ∧ page_id_ pg = INVALID_PAGE_ID ∧ bp_ok (Some f) m (set_free rest s).
Proof.
  intros Hok Hfr. destruct (proj1 (bo_free _ _ _ Hok f)) as (_ & pg & Hf & Hid); [rewrite Hfr; set_solver|].
  exists pg. split_and!; [done|done|]. pose proof (bo_free_nd _ _ _ Hok) as Hnd.
  rewrite Hfr in Hnd. apply NoDup_cons in Hnd as [Hnin Hnd]. destruct Hok. split; simpl; try done.
  - intros g [= <-]. by exists pg.
  - intros q g. rewrite bo_table0. split; [|intros (_ & ?); by split].
    intros (_ & Hq & pg' & Hg & Hpg). split_and!; [|done|by exists pg'].
    intros [= ->]. change (frame s g = Some pg') in Hg. congruence.
  - intros g. split.
    + intros Hin. destruct (proj1 (bo_free0 g)) as (_ & ?); [rewrite Hfr; set_solver|].
      split; [|done]. intros [= ->]. done.
    + intros (Hne & ?). assert (g ∈ free_list_ s) as Hin by (by apply bo_free0).
      rewrite Hfr in Hin. set_solver.
  - intros g. rewrite bo_entry0. split; [|intros (_ & ?); by split].
    intros (_ & pg' & Hg & Hpg). split; [|by exists pg']. intros [= ->].
    change (frame s g = Some pg') in Hg. congruence.
Qed.

(** What taking a frame leaves of the other pages: the pinned ones stay where
    they are, and every pin count is what it was. *)
Record kept (s s' : BufferPool) : Prop := {
  kp_holds : ∀ q g, holds s' q g → holds s q g;
  kp_pinned : ∀ q g, holds s q g → 0 < pins s q → holds s' q g;
  kp_pins : ∀ q, pins s' q = pins s q;
  kp_clean : ∀ q, clean s q → clean s' q;
  kp_ticks : ticks s' = ticks s;
  kp_next : next_page_id_ (disk_manager_ s') = next_page_id_ (disk_manager_ s)
}.

Lemma evicted_kept h m s s' p f :
  bp_ok h m s → holds s p f → pins s p = 0 → (∀ g, frame s' g = frame s g) →
  page_table_ s' = delete p (page_table_ s) →
  (∀ q x, q ≠ p → file_page (file (disk_manager_ s)) q = Some x →
          file_page (file (disk_manager_ s')) q = Some x) → ticks s' = ticks s →
  next_page_id_ (disk_manager_ s') = next_page_id_ (disk_manager_ s) → kept s s'.
Proof.
  intros Hok Hp Hpin Hfr Ht Hfile Hti Hn. split; [| | | |done|done].
  - intros q g. unfold holds. rewrite Ht. by intros [_ ?]%lookup_delete_Some.
  - intros q g Hq Hpos. unfold holds. rewrite Ht. apply lookup_delete_Some. split; [|done].
    intros ->. lia.
  - intros q. destruct (decide (q = p)) as [->|].
    + rewrite Hpin. unfold pins. by rewrite Ht, lookup_delete_eq.
    + unfold pins. rewrite Ht, lookup_delete_ne by done.
      destruct (page_table_ s !! q); [|done]. by rewrite Hfr.
  - intros q Hq f' pg. unfold holds. rewrite Ht, Hfr. intros [Hne Hh]%lookup_delete_Some Hf Hd.
    apply Hfile; [congruence|]. by apply (Hq f').
Qed.

Lemma take_frame_ok m s :
  bp_ok None m s →
  (∃ f s1 s2, take_frame s = (Ok (Some f), s1) ∧ release_old f s1 = (Ok tt, s2) ∧
     bp_ok (Some f) m s2 ∧ kept s s2) ∨
  (¬ frame_available s ∧ take_frame s = (Ok None, s)).
Proof.
  intros Hok. unfold take_frame. destruct (free_list_ s) as [|f rest] eqn:Hfree.
  2:{ left. destruct (free_frame_ok _ _ _ _ Hok Hfree) as (pg & Hf & Hid & Hok').
    exists f, (set_free rest s), (set_free rest s). split_and!; [done| |done|].
    - unfold release_old, mbind, st_bind. rewrite (get_page_ok _ f pg) by done.
      by rewrite (proj2 (Z.eqb_eq _ _) Hid).
    - by split. }
  unfold Evict.
  destruct (Evict_in_spec _ _ (bo_lru _ _ _ Hok) (reflexivity _)) as [(f & Hc & -> & _)|[Hz Hev]].
  2:{ right. fold (Evict (replacer_ s)) in Hev |- *. rewrite Hev. split.
    - intros [?|(p & f & Hp & Hpin)]; [done|].
      destruct (holds_entry _ _ _ _ _ Hok Hp) as (e & pg & He & Hf & _ & _ & Hiff).
      rewrite (holds_pins _ _ _ _ Hp Hf) in Hpin.
      assert (evictable_entries (entries_ (replacer_ s)) !! f = Some e) as E
        by (apply evictable_lookup; split; [done|by apply Hiff]).
      by rewrite Hz, lookup_empty in E.
    - by destruct s. }
  left. destruct Hc as [(e & He & Hevict & _)].
  destruct (proj1 (bo_entry _ _ _ Hok f)) as (_ & pg & Hf & Hid); [by eexists|].
  destruct (bo_evictable _ _ _ Hok _ _ _ He Hf) as [_ Hpin]. apply Hpin in Hevict.
  assert (holds s (page_id_ pg) f) as Hp.
  { apply (bo_table _ _ _ Hok). split_and!; [done|done|by exists pg]. }
  set (s1 := set_replacer (lruk_drop f (replacer_ s)) s).
  set (s1' := if is_dirty_ pg
    then set_disk (WritePage zero (page_id_ pg) (data_ pg) (disk_manager_ s1)) s1 else s1).
  exists f, s1, (set_table (delete (page_id_ pg) (page_table_ s)) s1'). split_and!; [done| | |].
  - unfold release_old, mbind, st_bind. rewrite (get_page_ok _ f pg) by done.
    rewrite (proj2 (Z.eqb_neq _ _) Hid). unfold s1', st_modify. by destruct (is_dirty_ pg).
  - unfold s1'. destruct (is_dirty_ pg) eqn:Hdirty.
    + destruct (write_back_ok _ _ _ _ _ _ Hok Hp Hf) as (Hok' & Hfile & _).
      apply (evict_frame_ok _ _ _ _ _ pg Hok'); [done..|]. intros d Hd. split; [done|].
      etrans; [exact Hfile|]. f_equal. by apply (bo_resident _ _ _ Hok (page_id_ pg) f).
    + apply (evict_frame_ok _ _ _ _ _ pg Hok); [done..|]. intros d Hd. split; [done|].
      rewrite (bo_clean _ _ _ Hok (page_id_ pg) f pg) by done. f_equal.
      by apply (bo_resident _ _ _ Hok (page_id_ pg) f).
  - apply (evicted_kept None m _ _ (page_id_ pg) f); [done|done|by rewrite (holds_pins _ _ f pg)|..].
    + unfold s1'. by destruct (is_dirty_ pg).
    + done.
    + unfold s1'. destruct (is_dirty_ pg); [|done]. destruct (holds_live _ _ _ _ _ Hok Hp).
      apply (WritePage_file zero (disk_manager_ s1)); [apply (bo_disk _ _ _ Hok)|lia].
    + unfold s1'. by destruct (is_dirty_ pg).
    + unfold s1'. destruct (is_dirty_ pg); [|done].
      by destruct (write_back_ok _ _ _ _ _ _ Hok Hp Hf) as (_ & _ & ?).
Qed.

(** [touch] of a frame of the pool. *)
Lemma touch_ok (s : BufferPool) f :
  lruk_inv (replacer_ s) → 0 ≤ f < max_frames_ (replacer_ s) → ticks s < SIZE_MAX →
  ∃ r, touch f s = (Ok tt, set_replacer r s) ∧ lruk_inv r ∧
    max_frames_ r = max_frames_ (replacer_ s) ∧ current_timestamp_ r = ticks s + 1 ∧
    ∃ h, entries_ r = <[f := mkFrameEntry h false]> (entries_ (replacer_ s)).
Proof.
  intros Hinv Hf Ht. destruct (lruk_inv_record _ _ Hinv Hf Ht) as (r & Hr & Hi & Hm & _ & Hts & h & He).
  exists (SetEvictable f false r). unfold touch. rewrite Hr. split_and!; [done| | | |].
  - by apply lruk_inv_set_evictable.
  - unfold SetEvictable. by destruct (entries_ r !! f).
  - by rewrite SetEvictable_now.
  - exists h. unfold SetEvictable. rewrite He, lookup_insert_eq. simpl.
    by rewrite insert_insert_eq.
Qed.

(** Giving the taken frame a page. *)
Definition install (f pid : Z) (d : D) : BP unit :=
  _ ← put_page f (mkPage d pid 1 false);
  _ ← st_modify (λ s, set_table (<[pid := f]> (page_table_ s)) s);
  touch f.

Lemma install_then {A} f pid d (a : A) s s' :
  install f pid d s = (Ok tt, s') →
  (_ ← put_page f (mkPage d pid 1 false);
   _ ← st_modify (λ s, set_table (<[pid := f]> (page_table_ s)) s);
   _ ← touch f; mret a) s = (Ok a, s').
Proof.
  unfold install, mbind, st_bind, st_modify.
  destruct (put_page f (mkPage d pid 1 false) s) as [[[]| | |] s1]; [|done..].
  destruct (touch f _) as [[[]| | |] s2]; [|done..]. by intros [= ->].
Qed.

(** The state after [install]. *)
Record installed (f p : Z) (d : D) (s s' : BufferPool) : Prop := {
  in_old : page_table_ s !! p = None ∧ ∃ pg, frame s f = Some pg;
  in_frame : ∀ g, frame s' g = if decide (g = f) then Some (mkPage d p 1 false) else frame s g;
  in_table : page_table_ s' = <[p := f]> (page_table_ s);
  in_size : pool_size_ s' = pool_size_ s ∧ length (pages_ s') = length (pages_ s);
  in_disk : disk_manager_ s' = disk_manager_ s;
  in_free : free_list_ s' = free_list_ s;
  in_lru : lruk_inv (replacer_ s') ∧ max_frames_ (replacer_ s') = max_frames_ (replacer_ s) ∧
    ticks s' = ticks s + 1 ∧
    ∃ h, entries_ (replacer_ s') = <[f := mkFrameEntry h false]> (entries_ (replacer_ s))
}.

Lemma install_run m s f p d :
  bp_ok (Some f) m s → page_table_ s !! p = None → ticks s < SIZE_MAX →
  ∃ s', install f p d s = (Ok tt, s') ∧ installed f p d s s'.
Proof.
  intros Hok Hnp Ht. destruct (bo_hole _ _ _ Hok f eq_refl) as [pg Hf].
  pose proof (frame_range _ _ _ Hf) as Hrange. unfold install, mbind, st_bind.
  rewrite (put_page_ok _ _ pg) by done. unfold st_modify.
  set (s1 := set_pages (<[Z.to_nat f:=mkPage d p 1 false]> (pages_ s)) s).
  destruct (touch_ok (set_table (<[p:=f]> (page_table_ s1)) s1) f) as (r & -> & Hinv & Hmax & Hts & h & He).
  { apply (bo_lru _ _ _ Hok). }
  { simpl. rewrite (bo_max _ _ _ Hok), (bo_size _ _ _ Hok). done. }
  { done. }
  eexists. split; [done|]. split; try done.
  - split; [done|]. by exists pg.
  - intros g. apply (frame_set_pages _ _ pg). done.
  - split; [done|]. simpl. by rewrite length_insert.
  - split_and!; [done..|]. by exists h.
Qed.

Lemma installed_old m s f p q g :
  bp_ok (Some f) m s → page_table_ s !! p = None → holds s q g → q ≠ p ∧ g ≠ f.
Proof.
  unfold holds. intros Hok Hnp Hq. split; [congruence|]. intros ->.
  apply (bo_table _ _ _ Hok) in Hq as (Hq & _). done.
Qed.

Lemma installed_ok m m' s s' f p d :
  bp_ok (Some f) m s → installed f p d s s' → 0 ≤ p < next_page_id_ (disk_manager_ s) →
  m' !! p = Some d → (∀ q, q ≠ p → m' !! q = m !! q) → bp_ok None m' s'.
Proof.
  intros Hok [[Hnp [pg Hf]] Hfr Htab [Hps Hlen] Hdm Hfree (Hinv & Hmax & _ & h & He)] Hp Hmp Hm.
  assert (p ≠ INVALID_PAGE_ID) as Hpv by (unfold INVALID_PAGE_ID; lia).
  pose proof (λ q g, installed_old m s f p q g Hok Hnp) as Hold. unfold holds in Hold.
  destruct Hok. split; rewrite ?Hdm; try done; [congruence|congruence|..].
  - intros q g. rewrite Htab, lookup_insert_Some, bo_table0, Hfr. case_decide as E; subst.
    + split.
      * intros [[<- _]|(_ & ? & _)]; [|done]. split_and!; [done..|by eexists].
      * intros (_ & _ & ? & [= <-] & <-). left. done.
    + split.
      * intros [[_ <-]|(_ & _ & ?)]; done.
      * intros (_ & Hq & pg0 & Hg & Hid). right. split.
        -- intros ->. assert (page_table_ s !! q = Some g) as X; [|by rewrite Hnp in X].
           apply bo_table0. split_and!; [congruence|done|by exists pg0].
        -- split_and!; [congruence|done|by exists pg0].
  - congruence.
  - intros g. rewrite Hfree, bo_free0, Hfr. case_decide as E; subst.
    + split; [by intros [? _]|]. intros (_ & ? & [= <-] & Hid). done.
    + split; [by intros [_ ?]|]. intros [_ ?]. split; [congruence|done].
  - intros g. rewrite He, lookup_insert_is_Some, bo_entry0, Hfr. case_decide as E; subst.
    + split; [intros _; split; [done|by eexists]|]. by left.
    + split.
      * intros [?|(_ & _ & ?)]; [congruence|done].
      * intros (_ & ?). right. split; [done|]. split; [congruence|done].
  - intros g e pg0. rewrite He, Hfr. case_decide as E; subst.
    + rewrite lookup_insert_eq. intros [= <-] [= <-]. done.
    + rewrite lookup_insert_ne by done. eauto.
  - intros q g. rewrite Htab, lookup_insert_Some. intros [[<- _]|[? Hq]]; [by eexists|].
    rewrite Hm by done. eauto.
  - intros q d' Hq. destruct (decide (q = p)) as [->|]; [done|]. rewrite Hm in Hq by done. eauto.
  - intros q g pg0 d'. rewrite Htab, lookup_insert_Some, Hfr. intros [[<- <-]|[Hne Hq]].
    + rewrite decide_True by done. intros [= <-] Hd'. simpl. congruence.
    + destruct (Hold _ _ Hq). rewrite decide_False by done. rewrite Hm by done. eauto.
  - intros q d'. rewrite Htab, lookup_insert_None. intros [Hq Hne]. rewrite Hm by done. eauto.
  - intros q g pg0. rewrite Htab, lookup_insert_Some, Hfr. intros [[<- <-]|[Hne Hq]].
    + rewrite decide_True by done. intros [= <-]. done.
    + destruct (Hold _ _ Hq). rewrite decide_False by done. eauto.
Qed.

(** The other pages keep their pin counts, the pinned ones their frames, and
    stay clean. *)
Definition others_kept (p : Z) (s s' : BufferPool) : Prop :=
  (∀ q, q ≠ p → pins s' q = pins s q) ∧ (∀ q g, holds s q g → 0 < pins s q → holds s' q g) ∧
  (∀ q, q ≠ p → clean s q → clean s' q).

(** Frame [f] shows page [p] with contents [d]. *)
Definition shows (s : BufferPool) (p f : Z) (d : D) : Prop :=
  holds s p f ∧ ∃ pg, frame s f = Some pg ∧ data_ pg = d.

Lemma installed_shows f p d s s' : installed f p d s s' → shows s' p f d ∧ pins s' p = 1.
Proof.
  intros Hi. assert (frame s' f = Some (mkPage d p 1 false)) as Hf
    by (by rewrite (in_frame _ _ _ _ _ Hi), decide_True by done).
  assert (page_table_ s' !! p = Some f) as Hp by (by rewrite (in_table _ _ _ _ _ Hi), lookup_insert_eq).
  split; [|unfold pins; by rewrite Hp, Hf]. split; [done|]. by eexists.
Qed.

Lemma installed_others m f p d s s' :
  bp_ok (Some f) m s → installed f p d s s' →
  others_kept p s s' ∧ ∀ q g, holds s q g → holds s' q g.
Proof.
  intros Hok [[Hnp _] Hfr Htab _ Hdm _ _].
  pose proof (λ q g, installed_old m s f p q g Hok Hnp) as Hold.
  assert (∀ q g, holds s q g → holds s' q g) as Hkeep.
  { intros q g Hq. destruct (Hold _ _ Hq). unfold holds. by rewrite Htab, lookup_insert_ne by done. }
  split_and!; [split_and!|done].
  - intros q Hq. unfold pins. rewrite Htab, lookup_insert_ne by done.
    destruct (page_table_ s !! q) as [g|] eqn:E; [|done].
    destruct (Hold _ _ E). by rewrite Hfr, decide_False by done.
  - eauto.
  - intros q Hne Hq g pg. unfold holds. rewrite Htab, lookup_insert_ne, Hfr, Hdm by done. intros Hg.
    destruct (Hold _ _ Hg). rewrite decide_False by done. by apply Hq.
Qed.

(** A clean frame whose page was not resident: its contents came from disk. *)
Lemma installed_clean m f p d s s' :
  bp_ok (Some f) m s → installed f p d s s' → m !! p = Some d → clean s' p.
Proof.
  intros Hok [[Hnp _] Hfr Htab _ Hdm _ _] Hd g pg. unfold holds.
  rewrite Htab, lookup_insert_eq, Hdm. intros [= <-]. rewrite Hfr, decide_True by done. intros [= <-] _.
  by apply (bo_stored _ _ _ Hok).
Qed.

(** Replacing the metadata or the contents of a resident page, together with
    its entry in the replacer. *)
Lemma update_frame_ok m m' s p f pg pg' e' r :
  bp_ok None m s → holds s p f → frame s f = Some pg → page_id_ pg' = p →
  lruk_inv r → max_frames_ r = max_frames_ (replacer_ s) →
  entries_ r = <[f := e']> (entries_ (replacer_ s)) →
  0 ≤ pin_count_ pg' → (is_evictable_ e' = true ↔ pin_count_ pg' = 0) →
  m' !! p = Some (data_ pg') → (∀ q, q ≠ p → m' !! q = m !! q) →
  (pin_count_ pg' = 0 → is_dirty_ pg' = false →
   file_page (file (disk_manager_ s)) p = Some (data_ pg')) →
  bp_ok None m' (set_replacer r (set_pages (<[Z.to_nat f := pg']> (pages_ s)) s)).
Proof.
  intros Hok Hp Hf Hid Hinv Hmax He Hpin0 Hev Hmp Hm Hclean.
  destruct (holds_frame _ _ _ _ _ Hok Hp) as (pg0 & Hf0 & Hid0 & Hpv).
  assert (pg0 = pg) as -> by congruence.
  assert (∀ g, frame (set_replacer r (set_pages (<[Z.to_nat f:=pg']> (pages_ s)) s)) g =
               if decide (g = f) then Some pg' else frame s g) as Hfr.
  { intros g. apply (frame_set_pages _ _ pg). done. }
  pose proof (λ q, holds_page_inj None m s q p f Hok) as Hinj.
  destruct (bo_dom _ _ _ Hok _ _ Hp) as [d0 Hd0]. destruct (bo_live _ _ _ Hok _ _ Hd0) as [Hp0 Hpn].
  destruct Hok. unfold holds in *. split; try done.
  - simpl. by rewrite length_insert.
  - simpl. congruence.
  - intros q g. simpl. rewrite bo_table0, Hfr. case_decide as E; subst; [|done].
    split; intros (_ & Hq & pgx & Hg & Hid'); (split_and!; [done|done|]).
    + exists pg'. split; [done|]. congruence.
    + exists pg. split; [done|]. congruence.
  - intros g. simpl. rewrite bo_free0, Hfr. case_decide as E; subst; [|done].
    split; intros (_ & pgx & Hg & Hid'); congruence.
  - intros g. simpl. rewrite He, lookup_insert_is_Some, bo_entry0, Hfr. case_decide as E; subst.
    + split; [intros _; split; [done|by exists pg']|]. by left.
    + split; [intros [?|(_ & ?)]; done|]. intros ?. by right.
  - intros g e pg0. simpl. rewrite He, Hfr. case_decide as E; subst.
    + rewrite lookup_insert_eq. intros [= <-] [= <-]. done.
    + rewrite lookup_insert_ne by done. eauto.
  - intros q g Hq. simpl in Hq. destruct (decide (q = p)) as [->|]; [by eexists|].
    rewrite Hm by done. eauto.
  - intros q d Hq. destruct (decide (q = p)) as [->|]; [done|]. rewrite Hm in Hq by done. simpl. eauto.
  - intros q g pg0 d Hq. rewrite Hfr. simpl in Hq. case_decide as E; subst.
    + intros [= <-] Hd. assert (q = page_id_ pg') as -> by (by apply Hinj). congruence.
    + intros Hg Hd. rewrite Hm in Hd; [eauto|]. intros ->. congruence.
  - intros q d Hq Hd. simpl in *. rewrite Hm in Hd; [eauto|]. intros ->. congruence.
  - intros q g pg0 Hq. rewrite Hfr. simpl in Hq. case_decide as E; subst; [|eauto].
    intros [= <-]. assert (q = page_id_ pg') as -> by (by apply Hinj). done.
Qed.

Lemma pins_update s f pg pg' p r q :
  (∀ q g, holds s q g → g = f → q = p) → frame s f = Some pg →
  pins (set_replacer r (set_pages (<[Z.to_nat f := pg']> (pages_ s)) s)) q =
  if decide (q = p) then (match page_table_ s !! p with
    | Some g => if decide (g = f) then pin_count_ pg' else pins s p | None => 0 end) else pins s q.
Proof.
  intros Hinj Hf. unfold pins at 1. simpl.
  assert (∀ g, frame (set_replacer r (set_pages (<[Z.to_nat f:=pg']> (pages_ s)) s)) g =
               if decide (g = f) then Some pg' else frame s g) as Hfr.
  { intros g. apply (frame_set_pages _ _ pg). done. }
  case_decide as E; subst.
  - unfold pins. destruct (page_table_ s !! p) as [g|] eqn:Hg; [|done]. rewrite Hfr. by case_decide.
  - unfold pins. destruct (page_table_ s !! q) as [g|] eqn:Hg; [|done]. rewrite Hfr.
    case_decide as E'; [|done]. by destruct E; apply (Hinj q g).
Qed.

Lemma pins_update_same s h m f pg pg' p r :
  bp_ok h m s → holds s p f → frame s f = Some pg →
  let s' := set_replacer r (set_pages (<[Z.to_nat f := pg']> (pages_ s)) s) in
  pins s' p = pin_count_ pg' ∧ (∀ q, q ≠ p → pins s' q = pins s q).
Proof.
  intros Hok Hp Hf.
  assert (∀ q g, holds s q g → g = f → q = p) as Hinj.
  { intros q g Hq ->. by apply (holds_page_inj _ _ _ _ _ _ Hok Hq). }
  split; intros; rewrite (pins_update _ _ _ _ p) by done.
  - rewrite decide_True by done. unfold holds in Hp. rewrite Hp. by rewrite decide_True by done.
  - by rewrite decide_False by done.
Qed.

Lemma update_clean_other s h m p f pg pg' r q :
  bp_ok h m s → holds s p f → frame s f = Some pg → q ≠ p → clean s q →
  clean (set_replacer r (set_pages (<[Z.to_nat f := pg']> (pages_ s)) s)) q.
Proof.
  intros Hok Hp Hf Hne Hc g pgg Hq Hg. apply (Hc g); [done|].
  change (frame (set_pages (<[Z.to_nat f := pg']> (pages_ s)) s) g = Some pgg) in Hg.
  rewrite (frame_set_pages _ _ pg) in Hg by done. case_decide; [|done]. subst.
  destruct Hne. by apply (holds_page_inj _ _ _ _ _ _ Hok Hq).
Qed.

(** Same contents, dirty if it was: still clean. *)
Lemma update_clean s p f pg pg' r :
  holds s p f → frame s f = Some pg → data_ pg' = data_ pg →
  (is_dirty_ pg' = false → is_dirty_ pg = false) → clean s p →
  clean (set_replacer r (set_pages (<[Z.to_nat f := pg']> (pages_ s)) s)) p.
Proof.
  intros Hp Hf Hd Hdirty Hc g pgg Hq Hg.
  change (frame (set_pages (<[Z.to_nat f := pg']> (pages_ s)) s) g = Some pgg) in Hg.
  unfold holds in *. assert (g = f) as -> by (simpl in Hq; congruence).
  rewrite (frame_set_pages _ _ pg), decide_True in Hg by done. injection Hg as <-.
  intros Hpg. rewrite Hd. apply (Hc f); auto.
Qed.

(** ** The operations on the abstract store *)

Lemma others_kept_after p s s1 s2 : kept s s1 → others_kept p s1 s2 →
  (∀ q g, holds s1 q g → holds s2 q g) → others_kept p s s2.
Proof.
  intros [? Hk Hpins Hcl _ _] (Hp & _ & Hc) Hh. split_and!.
  - intros q Hq. by rewrite Hp, Hpins.
  - intros q g Hq Hpos. apply Hh. by apply Hk.
  - intros q Hq Hcq. apply Hc, Hcl; done.
Qed.

Lemma NewPage_ok m s :
  bp_ok None m s → ticks s < SIZE_MAX → next_page_id_ (disk_manager_ s) < INT32_MAX →
  let p := next_page_id_ (disk_manager_ s) in
  (∃ f s', NewPage s = (Ok (Some (p, f)), s') ∧ m !! p = None ∧ bp_ok None (<[p := zero]> m) s' ∧
     shows s' p f zero ∧ pins s' p = 1 ∧ others_kept p s s' ∧ ticks s' = ticks s + 1 ∧
     next_page_id_ (disk_manager_ s') = p + 1) ∨
  (¬ frame_available s ∧ NewPage s = (Ok None, s)).
Proof.
  intros Hok Ht Hn p. unfold NewPage.
  destruct (take_frame_ok m s Hok) as [(f & s1 & s2 & Htake & Hrel & Hok2 & Hkept)|[Hno Htake]].
  2:{ right. split; [done|]. by st_step Htake. }
  left. pose proof (kp_ticks _ _ Hkept) as Hti. pose proof (kp_next _ _ Hkept) as Hnx.
  pose proof (bo_next _ _ _ Hok) as Hnn.
  set (s3 := set_disk (mkDisk (file (disk_manager_ s2)) (failbit (disk_manager_ s2)) (p + 1)
                              (num_pages_ (disk_manager_ s2))) s2).
  assert (AllocatePage (disk_manager_ s2) = Ok (p, disk_manager_ s3)) as Halloc.
  { unfold AllocatePage, i32_arith. rewrite Hnx. unfold in_i32, INT32_MIN, INT32_MAX in *.
    rewrite (proj2 (Z.leb_le _ _)), (proj2 (Z.leb_le _ _)) by lia. done. }
  assert (bp_ok (Some f) m s3) as Hok3.
  { destruct Hok2. split; simpl; try done; [lia|]. intros q d Hq.
    specialize (bo_live0 q d Hq). rewrite Hnx in bo_live0. lia. }
  assert (m !! p = None) as Hmp.
  { destruct (m !! p) eqn:E; [|done]. pose proof (bo_live _ _ _ Hok _ _ E). lia. }
  destruct (install_run m s3 f p zero Hok3) as (s' & Hinst & Hin).
  { simpl. destruct (page_table_ s2 !! p) eqn:E; [|done].
    apply (bo_dom _ _ _ Hok2) in E as [? E]. congruence. }
  { unfold ticks in *. simpl. lia. }
  destruct (installed_shows _ _ _ _ _ Hin) as [Hsh Hp1].
  destruct (installed_others _ _ _ _ _ _ Hok3 Hin) as [Hoth Hold].
  destruct (in_lru _ _ _ _ _ Hin) as (_ & _ & Hti' & _).
  exists f, s'. split_and!; [|done| |done|done| |unfold ticks in *; simpl in *; lia|].
  - st_step Htake. st_step Hrel. st_run. unfold st_lift at 1.
    rewrite (st_bind_ok _ _ _ (p, disk_manager_ s3) s2) by (by rewrite Halloc). cbn beta iota.
    st_run. apply install_then, Hinst.
  - apply (installed_ok m _ s3 s' f p zero); [done|done|simpl; lia|apply lookup_insert_eq|].
    intros q Hq. by apply lookup_insert_ne.
  - apply (others_kept_after p s s2); [done|exact Hoth|exact Hold].
  - by rewrite (in_disk _ _ _ _ _ Hin).
Qed.

Lemma FetchPage_hit m s p f d :
  bp_ok None m s → m !! p = Some d → holds s p f → ticks s < SIZE_MAX →
  ∃ s', FetchPage p s = (Ok (Some f), s') ∧ bp_ok None m s' ∧ shows s' p f d ∧
    pins s' p = pins s p + 1 ∧ others_kept p s s' ∧ (clean s p → clean s' p) ∧
    ticks s' = ticks s + 1 ∧ disk_manager_ s' = disk_manager_ s.
Proof.
  intros Hok Hd Hp Ht. destruct (holds_entry _ _ _ _ _ Hok Hp) as (e & pg & He & Hf & Hid & Hpin & _).
  set (pg' := mkPage (data_ pg) (page_id_ pg) (pin_count_ pg + 1) (is_dirty_ pg)).
  pose proof (frame_range _ _ _ Hf) as Hr.
  destruct (touch_ok (set_pages (<[Z.to_nat f := pg']> (pages_ s)) s) f) as (r & Htouch & Hi & Hm & Hts & h & Hent).
  { apply (bo_lru _ _ _ Hok). }
  { simpl. rewrite (bo_max _ _ _ Hok), (bo_size _ _ _ Hok). done. }
  { done. }
  exists (set_replacer r (set_pages (<[Z.to_nat f := pg']> (pages_ s)) s)).
  destruct (pins_update_same s None m f pg pg' p r Hok Hp Hf) as [Hpp Hpo].
  split_and!; [| | | | | |done|done].
  - unfold FetchPage. st_run. unfold holds in Hp. rewrite Hp. st_step (get_page_ok s f pg Hf).
    st_step (put_page_ok s f pg pg' Hf). by st_step Htouch.
  - apply (update_frame_ok m m s p f pg pg' (mkFrameEntry h false)); try done; simpl.
    + lia.
    + split; [done|lia].
    + rewrite Hd. f_equal. symmetry. by apply (bo_resident _ _ _ Hok p f).
    + lia.
  - split; [done|]. exists pg'. split.
    + unfold frame. simpl. rewrite decide_True by lia. apply list_lookup_insert_eq. lia.
    + simpl. by apply (bo_resident _ _ _ Hok p f).
  - rewrite Hpp. by rewrite (holds_pins _ _ _ pg Hp Hf).
  - split_and!; [done|done|]. intros q Hne. apply (update_clean_other s None m p f pg pg' r q); done.
  - intros Hc. by apply (update_clean s p f pg pg' r).
Qed.

Lemma FetchPage_miss m s p d :
  bp_ok None m s → m !! p = Some d → page_table_ s !! p = None → ticks s < SIZE_MAX →
  (∃ f s', FetchPage p s = (Ok (Some f), s') ∧ bp_ok None m s' ∧ shows s' p f d ∧
     pins s' p = 1 ∧ others_kept p s s' ∧ (clean s p → clean s' p) ∧ ticks s' = ticks s + 1 ∧
     next_page_id_ (disk_manager_ s') = next_page_id_ (disk_manager_ s)) ∨
  (¬ frame_available s ∧ FetchPage p s = (Ok None, s)).
Proof.
  intros Hok Hd Hp Ht. unfold FetchPage.
  destruct (take_frame_ok m s Hok) as [(f & s1 & s2 & Htake & Hrel & Hok2 & Hkept)|[Hno Htake]].
  2:{ right. split; [done|]. st_run. rewrite Hp. by st_step Htake. }
  left. pose proof Hkept as [Hh1 Hh2 Hpins Hcl Hti Hnx].
  assert (page_table_ s2 !! p = None) as Hp2.
  { destruct (page_table_ s2 !! p) eqn:E; [|done]. apply Hh1 in E. unfold holds in E. congruence. }
  assert (ReadPage zero p (disk_manager_ s2) = (d, disk_manager_ s2)) as Hread.
  { apply ReadPage_hit; [apply (bo_disk _ _ _ Hok2)|]. by apply (bo_stored _ _ _ Hok2). }
  destruct (bo_live _ _ _ Hok _ _ Hd) as [Hp0 Hpn].
  destruct (install_run m s2 f p d Hok2) as (s' & Hinst & Hin); [done|lia|].
  destruct (installed_shows _ _ _ _ _ Hin) as [Hsh Hp1].
  destruct (installed_others _ _ _ _ _ _ Hok2 Hin) as [Hoth Hold].
  destruct (in_lru _ _ _ _ _ Hin) as (_ & _ & Hti' & _).
  exists f, s'. split_and!; [| |done|done| | |lia|by rewrite (in_disk _ _ _ _ _ Hin)].
  - st_run. rewrite Hp. st_step Htake. st_step Hrel. st_run. rewrite Hread. st_run.
    replace (set_disk (disk_manager_ s2) s2) with s2 by (by destruct s2).
    apply install_then, Hinst.
  - apply (installed_ok m m s2 s' f p d); [done|done|lia|done|done].
  - by apply (others_kept_after p s s2).
  - intros _. by apply (installed_clean m f p d s2).
Qed.

Lemma FetchPage_ok m s p d :
  bp_ok None m s → m !! p = Some d → ticks s < SIZE_MAX →
  (∃ f s', FetchPage p s = (Ok (Some f), s') ∧ bp_ok None m s' ∧ shows s' p f d ∧
     pins s' p = pins s p + 1 ∧ others_kept p s s' ∧ (clean s p → clean s' p) ∧
     ticks s' = ticks s + 1 ∧ next_page_id_ (disk_manager_ s') = next_page_id_ (disk_manager_ s)) ∨
  (page_table_ s !! p = None ∧ ¬ frame_available s ∧ FetchPage p s = (Ok None, s)).
Proof.
  intros Hok Hd Ht. destruct (page_table_ s !! p) as [f|] eqn:Hp.
  - destruct (FetchPage_hit m s p f d) as (s' & ? & ? & ? & ? & ? & ? & ? & Hdm); [done..|].
    left. exists f, s'. by rewrite Hdm.
  - destruct (FetchPage_miss m s p d) as [(f & s' & ? & ? & ? & Hp1 & ? & ? & ? & ?)|[? ?]];
      [done..| |by right].
    left. exists f, s'. unfold pins at 2. rewrite Hp. done.
Qed.
(** The frame of the hole goes back to the free list. *)
Lemma free_hole_ok m s f :
  bp_ok (Some f) m s →
  bp_ok None m (set_pages (<[Z.to_nat f := Page_new]> (pages_ s)) (set_free (free_list_ s ++ [f]) s)).
Proof.
  intros Hok. destruct (bo_hole _ _ _ Hok f eq_refl) as [pg Hf].
  set (s' := set_pages _ _).
  assert (∀ g, frame s' g = if decide (g = f) then Some Page_new else frame s g) as Hfr.
  { intros g. apply (frame_set_pages (set_free (free_list_ s ++ [f]) s) _ pg). done. }
  assert (∀ q g, page_table_ s !! q = Some g → g ≠ f) as Hold.
  { intros q g Hq ->. by apply (bo_table _ _ _ Hok) in Hq as (? & _). }
  destruct Hok. split; try done.
  - simpl. by rewrite length_insert.
  - intros q g. simpl. rewrite bo_table0, Hfr. case_decide as E; subst.
    + split; [by intros (? & _)|]. intros (_ & ? & ? & [= <-] & ?). done.
    + split; intros (_ & ?); split; congruence.
  - simpl. apply NoDup_app. split_and!; [done| |apply NoDup_singleton].
    intros g Hg ->%list_elem_of_singleton. by apply bo_free0 in Hg as [? _].
  - intros g. simpl. rewrite elem_of_app, list_elem_of_singleton, bo_free0, Hfr. case_decide as E; subst.
    + split; [intros _|]; [|by right]. split; [done|]. by eexists.
    + split; [intros [[_ ?]|?]; done|]. intros [_ ?]. left. split; [congruence|done].
  - intros g. simpl. rewrite bo_entry0, Hfr. case_decide as E; subst.
    + split; [by intros [? _]|]. intros (_ & ? & [= <-] & ?). done.
    + split; intros (_ & ?); split; congruence.
  - intros g e pg0 He. simpl in He. rewrite Hfr. case_decide as E; subst; [|eauto].
    by destruct (proj1 (bo_entry0 f)) as [? _]; [eexists|].
  - intros q g pg0 d Hq. rewrite Hfr, decide_False by eauto. eauto.
  - intros q g pg0 Hq. rewrite Hfr, decide_False by eauto. eauto.
Qed.

(** Nothing moves but the contents of the disk and the dirty flags. *)
Record same_pages (s s' : BufferPool) : Prop := {
  sp_table : page_table_ s' = page_table_ s;
  sp_pins : ∀ q, pins s' q = pins s q;
  sp_clean : ∀ q, clean s q → clean s' q;
  sp_ticks : ticks s' = ticks s;
  sp_next : next_page_id_ (disk_manager_ s') = next_page_id_ (disk_manager_ s);
  sp_size : length (pages_ s') = length (pages_ s)
}.

Lemma flush_frame_ok m s f p pg :
  bp_ok None m s → holds s p f → frame s f = Some pg →
  ∃ s', flush_frame f s = (Ok tt, s') ∧ FlushPage p s = (Ok true, s') ∧
    bp_ok None m s' ∧ same_pages s s' ∧ clean s' p.
Proof.
  intros Hok Hp Hf. destruct (holds_entry _ _ _ _ _ Hok Hp) as (e & pg1 & He & Hf1 & Hid & Hpin & Hev).
  assert (pg1 = pg) as -> by congruence. destruct (holds_live _ _ _ _ _ Hok Hp) as [Hp0 _].
  destruct (write_back_ok _ _ _ _ _ _ Hok Hp Hf) as (Hok1 & Hfile & Hnx).
  set (s1 := set_disk _ s) in *. set (pg' := mkPage (data_ pg) (page_id_ pg) (pin_count_ pg) false).
  destruct (bo_dom _ _ _ Hok _ _ Hp) as [d Hd].
  assert (data_ pg = d) as Hdata by (by apply (bo_resident _ _ _ Hok p f)).
  set (s' := set_replacer (replacer_ s1) (set_pages (<[Z.to_nat f := pg']> (pages_ s1)) s1)).
  destruct (pins_update_same s1 None m f pg pg' p (replacer_ s1) Hok1 Hp Hf) as [Hpp Hpo].
  assert (clean s' p) as Hclean.
  { intros g pgg Hg Hgf Hgd. change (page_table_ s !! p = Some g) in Hg. unfold holds in Hp.
    assert (g = f) as -> by congruence.
    change (frame (set_pages (<[Z.to_nat f := pg']> (pages_ s1)) s1) f = Some pgg) in Hgf.
    rewrite (frame_set_pages s1 f pg) in Hgf by done. rewrite decide_True in Hgf by done.
    by injection Hgf as <-. }
  exists s'. split_and!; [| | | |done].
  - unfold flush_frame. st_step (get_page_ok s f pg Hf).
    rewrite (proj2 (Z.eqb_neq _ _)) by (unfold INVALID_PAGE_ID; lia). st_run. rewrite Hid. fold s1.
    rewrite (put_page_ok s1 f pg) by done. unfold s', pg'. by rewrite Hid.
  - unfold FlushPage. st_run. rewrite (proj2 (Z.eqb_neq _ _)) by (unfold INVALID_PAGE_ID; lia).
    unfold holds in Hp. rewrite Hp. st_step (get_page_ok s f pg Hf). st_run. fold s1.
    by st_step (put_page_ok s1 f pg pg' Hf).
  - apply (update_frame_ok m m s1 p f pg pg' e); try done; simpl.
    + apply (bo_lru _ _ _ Hok).
    + by rewrite insert_id.
    + by rewrite Hdata.
  - split; [done| | |done|done|simpl; by rewrite length_insert].
    + intros q. destruct (decide (q = p)) as [->|Hq].
      * change (pins s' p = pins s p). etrans; [exact Hpp|]. by rewrite (holds_pins s p f pg).
      * by apply Hpo.
    + intros q Hq. destruct (decide (q = p)) as [->|Hne]; [done|].
      apply (update_clean_other s1 None m p f pg pg' _ q); try done.
      intros g pgg Hg Hgf Hgd. apply (WritePage_file zero (disk_manager_ s)); [apply (bo_disk _ _ _ Hok)|done..|].
      by apply (Hq g).
Qed.
Lemma same_pages_refl s : same_pages s s.
Proof. by split. Qed.

Lemma same_pages_trans s1 s2 s3 : same_pages s1 s2 → same_pages s2 s3 → same_pages s1 s3.
Proof. intros [] []. split; intros; try congruence; auto. Qed.

Lemma flush_frame_free s i pg :
  frame s i = Some pg → page_id_ pg = INVALID_PAGE_ID → flush_frame i s = (Ok tt, s).
Proof. intros Hf Hid. unfold flush_frame. st_step (get_page_ok s i pg Hf). by rewrite Hid. Qed.

Lemma flush_frames_ok m s l :
  bp_ok None m s → (∀ i, i ∈ l → 0 ≤ i < Z.of_nat (length (pages_ s))) →
  ∃ s', flush_frames l s = (Ok tt, s') ∧ bp_ok None m s' ∧ same_pages s s' ∧
    ∀ p f, holds s p f → f ∈ l → clean s' p.
Proof.
  revert s; induction l as [|i l IH]; intros s Hok Hl.
  { exists s. split_and!; [done|done|apply same_pages_refl|]. intros p f _ Hf. set_solver. }
  destruct (lookup_lt_is_Some_2 (pages_ s) (Z.to_nat i)) as [pg Hpg].
  { specialize (Hl i). set_solver by lia. }
  assert (frame s i = Some pg) as Hf.
  { unfold frame. rewrite decide_True; [done|]. specialize (Hl i). set_solver by lia. }
  assert (∃ s1, flush_frame i s = (Ok tt, s1) ∧ bp_ok None m s1 ∧ same_pages s s1 ∧
          ∀ p, holds s p i → clean s1 p) as (s1 & Hrun & Hok1 & Hsame & Hcl).
  { destruct (decide (page_id_ pg = INVALID_PAGE_ID)) as [Hid|Hid].
    - exists s. split_and!; [by apply (flush_frame_free s i pg)|done|apply same_pages_refl|].
      intros p Hp. destruct (holds_frame _ _ _ _ _ Hok Hp) as (pg' & ? & ? & ?). congruence.
    - assert (holds s (page_id_ pg) i) as Hp.
      { apply (bo_table _ _ _ Hok). split_and!; [done|done|by exists pg]. }
      destruct (flush_frame_ok m s i _ pg Hok Hp Hf) as (s1 & ? & _ & ? & ? & ?).
      exists s1. split_and!; [done..|]. intros p Hpi.
      by rewrite (holds_page_inj _ _ _ _ _ _ Hok Hpi Hp). }
  destruct (IH s1 Hok1) as (s' & Hrun' & Hok' & Hsame' & Hcl').
  { intros j Hj. rewrite (sp_size _ _ Hsame). apply Hl. set_solver. }
  exists s'. split_and!; [|done|by apply (same_pages_trans s s1)|].
  - simpl. by st_step Hrun.
  - intros p f Hp Hfl. apply elem_of_cons in Hfl as [->|Hfl].
    + apply (sp_clean _ _ Hsame'). by apply Hcl.
    + apply (Hcl' p f); [|done]. unfold holds. by rewrite (sp_table _ _ Hsame).
Qed.

Lemma FlushAllPages_ok m s :
  bp_ok None m s →
  ∃ s', FlushAllPages s = (Ok tt, s') ∧ bp_ok None m s' ∧ same_pages s s' ∧ ∀ p, clean s' p.
Proof.
  intros Hok. destruct (flush_frames_ok m s (seqZ 0 (pool_size_ s)) Hok) as (s' & Hrun & Hok' & Hsame & Hcl).
  { intros i Hi%elem_of_seqZ. rewrite (bo_size _ _ _ Hok) in Hi. lia. }
  exists s'. split_and!; [|done|done|].
  - unfold FlushAllPages. by st_run.
  - intros p f pg Hp Hf Hd. refine (Hcl p f _ _ f pg Hp Hf Hd).
    + unfold holds in *. by rewrite (sp_table _ _ Hsame) in Hp.
    + apply elem_of_seqZ. pose proof (frame_range _ _ _ Hf).
      rewrite (sp_size _ _ Hsame) in H. rewrite (bo_size _ _ _ Hok). lia.
Qed.

Lemma UnpinPage_ok m s p f b :
  bp_ok None m s → holds s p f → 0 < pins s p → (b = false → pins s p = 1 → clean s p) →
  ∃ s', UnpinPage p b s = (Ok true, s') ∧ bp_ok None m s' ∧ holds s' p f ∧
    pins s' p = pins s p - 1 ∧ others_kept p s s' ∧ (b = true ∨ clean s p → clean s' p) ∧
    ticks s' = ticks s ∧ disk_manager_ s' = disk_manager_ s.
Proof.
  intros Hok Hp Hpos Hb. destruct (holds_entry _ _ _ _ _ Hok Hp) as (e & pg & He & Hf & Hid & Hpin & Hev).
  rewrite (holds_pins _ _ _ _ Hp Hf) in *.
  set (pg' := mkPage (data_ pg) (page_id_ pg) (pin_count_ pg - 1) (b || is_dirty_ pg)).
  destruct (bo_dom _ _ _ Hok _ _ Hp) as [d Hd].
  assert (data_ pg = d) as Hdata by (by apply (bo_resident _ _ _ Hok p f)).
  set (r := if pin_count_ pg - 1 =? 0 then SetEvictable f true (replacer_ s) else replacer_ s).
  destruct (pins_update_same s None m f pg pg' p r Hok Hp Hf) as [Hpp Hpo].
  exists (set_replacer r (set_pages (<[Z.to_nat f := pg']> (pages_ s)) s)).
  split_and!; [| |done|exact Hpp| | | |done].
  - unfold UnpinPage. st_run. unfold holds in Hp. rewrite Hp. st_step (get_page_ok s f pg Hf).
    rewrite (proj2 (Z.leb_gt _ _)) by lia. st_step (put_page_ok s f pg pg' Hf).
    unfold r. destruct (pin_count_ pg - 1 =? 0); by st_run.
  - set (e' := mkFrameEntry (history_ e) (if pin_count_ pg - 1 =? 0 then true else is_evictable_ e)).
    apply (update_frame_ok m m s p f pg pg' e'); try done; simpl.
    + unfold r. destruct (_ =? _); [apply lruk_inv_set_evictable|]; apply (bo_lru _ _ _ Hok).
    + unfold r. destruct (_ =? _); [|done]. unfold SetEvictable. by rewrite He.
    + unfold r, e'. destruct (_ =? _).
      * unfold SetEvictable. by rewrite He.
      * rewrite insert_id; [done|]. by destruct e.
    + lia.
    + unfold e'. destruct (Z.eqb_spec (pin_count_ pg - 1) 0); simpl; [done|]. split; [|lia].
      intros H%Hev. lia.
    + by rewrite Hdata.
    + intros H1 [-> Hdirty]%orb_false_iff. apply (Hb eq_refl) with f; [lia|done|done|done].
  - split_and!; [done|done|]. intros q Hne. apply (update_clean_other s None m p f pg pg' r q); done.
  - intros [->|Hc].
    + intros g pgg Hg Hgf. change (page_table_ s !! p = Some g) in Hg. unfold holds in Hp.
      assert (g = f) as -> by congruence.
      change (frame (set_pages (<[Z.to_nat f := pg']> (pages_ s)) s) f = Some pgg) in Hgf.
      rewrite (frame_set_pages s f pg), decide_True in Hgf by done. by injection Hgf as <-.
    + apply (update_clean s p f pg pg'); [done..| |done]. intros [_ ?]%orb_false_iff. done.
  - unfold ticks, r. simpl. destruct (_ =? _); [apply SetEvictable_now|done].
Qed.

Lemma write_frame_ok m s p f d g :
  bp_ok None m s → m !! p = Some d → holds s p f → 0 < pins s p →
  ∃ s', write_frame f g s = (Ok tt, s') ∧ bp_ok None (<[p := g d]> m) s' ∧ holds s' p f ∧
    pins s' p = pins s p ∧ others_kept p s s' ∧ ticks s' = ticks s ∧
    disk_manager_ s' = disk_manager_ s.
Proof.
  intros Hok Hd Hp Hpos. destruct (holds_entry _ _ _ _ _ Hok Hp) as (e & pg & He & Hf & Hid & Hpin & Hev).
  assert (data_ pg = d) as Hdata by (by apply (bo_resident _ _ _ Hok p f)).
  set (pg' := mkPage (g (data_ pg)) (page_id_ pg) (pin_count_ pg) (is_dirty_ pg)).
  destruct (pins_update_same s None m f pg pg' p (replacer_ s) Hok Hp Hf) as [Hpp Hpo].
  rewrite (holds_pins _ _ _ _ Hp Hf) in *.
  exists (set_replacer (replacer_ s) (set_pages (<[Z.to_nat f := pg']> (pages_ s)) s)).
  split_and!; [| |done|exact Hpp| |done|done].
  - unfold write_frame. st_step (get_page_ok s f pg Hf).
    by rewrite (put_page_ok s f pg).
  - apply (update_frame_ok m _ s p f pg pg' e); try done; simpl; [apply (bo_lru _ _ _ Hok)| | | |lia].
    + by rewrite insert_id.
    + by rewrite lookup_insert_eq, Hdata.
    + intros q Hq. by apply lookup_insert_ne.
  - split_and!; [done|done|]. intros q Hne.
    apply (update_clean_other s None m p f pg pg' (replacer_ s) q); done.
Qed.

Lemma read_frame_ok m s p f d :
  bp_ok None m s → m !! p = Some d → holds s p f → read_frame f s = (Ok d, s).
Proof.
  intros Hok Hd Hp. destruct (holds_frame _ _ _ _ _ Hok Hp) as (pg & Hf & _).
  unfold read_frame. st_step (get_page_ok s f pg Hf). by rewrite (bo_resident _ _ _ Hok p f pg d).
Qed.

Lemma DeletePage_ok m s p f :
  bp_ok None m s → holds s p f → pins s p = 0 →
  ∃ s', DeletePage p s = (Ok true, s') ∧ bp_ok None (delete p m) s' ∧ kept s s' ∧
    page_table_ s' !! p = None.
Proof.
  intros Hok Hp Hpin. destruct (holds_entry _ _ _ _ _ Hok Hp) as (e & pg & He & Hf & Hid & _ & Hev).
  rewrite (holds_pins _ _ _ _ Hp Hf) in Hpin.
  assert (bp_ok (Some f) (delete p m) (set_table (delete p (page_table_ s))
            (set_replacer (lruk_drop f (replacer_ s)) s))) as Hok1.
  { apply (evict_frame_ok m _ s p f pg); [done..| |].
    - intros q Hq. by apply lookup_delete_ne.
    - intros d. by rewrite lookup_delete_eq. }
  set (s1 := set_table _ _) in Hok1. pose proof (free_hole_ok _ _ _ Hok1) as Hok2.
  eexists. split_and!; [|exact Hok2| |].
  - unfold DeletePage. st_run. unfold holds in Hp. rewrite Hp. st_step (get_page_ok s f pg Hf).
    rewrite Hpin. change (0 <? 0) with false. cbv iota. st_run. st_run.
    pose proof (Remove_spec (replacer_ s) f (bo_lru _ _ _ Hok)) as Hr. rewrite He in Hr.
    rewrite (proj2 Hev Hpin) in Hr. destruct Hr as [Hr _]. unfold st_lift.
    rewrite (st_bind_ok _ _ _ (lruk_drop f (replacer_ s)) (set_table (delete p (page_table_ s)) s)) by (simpl; by rewrite Hr).
    st_run. st_run. set (s2 := set_free _ _). st_step (put_page_ok s2 f pg Page_new Hf). st_run. reflexivity.
  - set (s2 := set_pages _ _). split; [| | | |done|done].
    + intros q g. unfold holds; simpl. by intros [_ ?]%lookup_delete_Some.
    + intros q g Hq Hpos. unfold holds; simpl. rewrite lookup_delete_ne; [done|]. intros <-.
      rewrite (holds_pins _ _ _ _ Hp Hf) in Hpos. lia.
    + intros q. destruct (decide (q = p)) as [->|Hne].
      * unfold pins at 1; simpl. rewrite lookup_delete_eq. by rewrite (holds_pins _ _ _ _ Hp Hf).
      * unfold pins; simpl. rewrite lookup_delete_ne by done.
        destruct (page_table_ s !! q) as [g|] eqn:Hq; [|done].
        unfold s2. rewrite (frame_set_pages (set_free (free_list_ s1 ++ [f]) s1) f pg) by done.
        rewrite decide_False; [done|]. intros ->. destruct Hne.
        by apply (holds_page_inj _ _ _ _ _ _ Hok Hq).
    + intros q Hq g pgg. unfold holds; simpl. intros [Hne Hg]%lookup_delete_Some.
      unfold s2. rewrite (frame_set_pages (set_free (free_list_ s1 ++ [f]) s1) f pg) by done.
      rewrite decide_False; [by apply Hq|]. intros ->. destruct Hne. symmetry.
      by apply (holds_page_inj _ _ _ _ _ _ Hok Hg).
  - simpl. apply lookup_delete_eq.
Qed.

(** A page that is not resident may be forgotten. *)
Lemma forget_ok m s p : bp_ok None m s → page_table_ s !! p = None → bp_ok None (delete p m) s.
Proof.
  intros Hok Hp. destruct Hok. split; try done.
  - intros q f Hq. rewrite lookup_delete_ne by congruence. eauto.
  - intros q d [_ Hq]%lookup_delete_Some. eauto.
  - intros q f pg d Hq Hf [_ Hd]%lookup_delete_Some. eauto.
  - intros q d Hq [_ Hd]%lookup_delete_Some. eauto.
Qed.

Lemma frame_new n disk k f pg :
  frame (BufferPool_new n disk k) f = Some pg → pg = Page_new.
Proof.
  unfold frame; simpl. case_decide; [|done]. intros Hl. by apply lookup_replicate in Hl as [-> _].
Qed.

Lemma BufferPool_new_ok n disk k :
  1 ≤ k → 0 ≤ n ≤ INT32_MAX → failbit disk = false → 0 ≤ next_page_id_ disk →
  bp_ok None ∅ (BufferPool_new n disk k).
Proof.
  intros Hk Hn Hd Hnx.
  assert (∀ f, 0 ≤ f < n → frame (BufferPool_new n disk k) f = Some Page_new) as Hfr.
  { intros f Hf. unfold frame; simpl. rewrite decide_True by lia. apply lookup_replicate. split; [done|lia]. }
  split; simpl; try done; try (intros *; by rewrite ?lookup_empty).
  - rewrite length_replicate. lia.
  - intros p f. rewrite lookup_empty. split; [done|]. intros (_ & ? & pg & Hf & Hid).
    apply frame_new in Hf. by subst.
  - apply NoDup_seqZ.
  - intros f. rewrite elem_of_seqZ. split.
    + intros Hf. split; [done|]. eexists. split; [apply Hfr; lia|done].
    + intros (_ & pg & Hf & _). apply frame_range in Hf. simpl in Hf. rewrite length_replicate in Hf. lia.
  - intros f. rewrite lookup_empty. split; [by intros [? ?]|]. intros (_ & pg & Hf & Hid).
    apply frame_new in Hf. by subst.
Qed.
(** ** No operation changes the number of frames *)

Definition keeps_size {A} (c : BP A) : Prop := ∀ s, pool_size_ (c s).2 = pool_size_ s.

Lemma keeps_size_bind {A B} (c : BP A) (k : A → BP B) :
  keeps_size c → (∀ x, keeps_size (k x)) → keeps_size (c ≫= k).
Proof.
  intros Hc Hk s. unfold mbind, st_bind. specialize (Hc s).
  destruct (c s) as [[x| | |] s1]; simpl in *; [|done..]. by rewrite Hk.
Qed.
Lemma keeps_size_ret {A} (x : A) : keeps_size (mret x).
Proof. done. Qed.
Lemma keeps_size_get : keeps_size st_get.
Proof. done. Qed.
Lemma keeps_size_lift {A} (x : res A) : keeps_size (st_lift x).
Proof. done. Qed.
Lemma keeps_size_modify g : (∀ s, pool_size_ (g s) = pool_size_ s) → keeps_size (st_modify g).
Proof. intros Hg s. apply Hg. Qed.
Lemma keeps_size_get_page f : keeps_size (get_page f).
Proof. done. Qed.
Lemma keeps_size_put_page f pg : keeps_size (put_page f pg).
Proof. intros s. unfold put_page. by destruct (arr_set _ _ _). Qed.
Lemma keeps_size_touch f : keeps_size (touch f).
Proof. intros s. unfold touch. by destruct (RecordAccess _ _). Qed.
Lemma keeps_size_take_frame : keeps_size take_frame.
Proof.
  intros s. unfold take_frame. destruct (free_list_ s); [|done].
  by destruct (Evict _) as [[? ?]| | |].
Qed.
Hint Resolve keeps_size_bind keeps_size_ret keeps_size_get keeps_size_lift keeps_size_modify
  keeps_size_get_page keeps_size_put_page keeps_size_touch keeps_size_take_frame : onebase.

Ltac keeps_size_tac := repeat first
  [ done | apply keeps_size_bind; [|intros] | solve [eauto with onebase] | case_goal ].

Lemma keeps_size_release_old f : keeps_size (release_old f).
Proof. unfold release_old. keeps_size_tac. Qed.
Hint Resolve keeps_size_release_old : onebase.
Lemma keeps_size_NewPage : keeps_size NewPage.
Proof. unfold NewPage. keeps_size_tac. Qed.
Lemma keeps_size_FetchPage p : keeps_size (FetchPage p).
Proof. unfold FetchPage. keeps_size_tac. Qed.
Lemma keeps_size_UnpinPage p b : keeps_size (UnpinPage p b).
Proof. unfold UnpinPage. keeps_size_tac. Qed.
Lemma keeps_size_FlushPage p : keeps_size (FlushPage p).
Proof. unfold FlushPage. keeps_size_tac. Qed.
Lemma keeps_size_flush_frames l : keeps_size (flush_frames l).
Proof. induction l; simpl; [done|]. unfold flush_frame. keeps_size_tac. Qed.
Lemma keeps_size_FlushAllPages : keeps_size FlushAllPages.
Proof. unfold FlushAllPages. apply keeps_size_bind; [done|]. intros s. apply keeps_size_flush_frames. Qed.
Lemma keeps_size_DeletePage p : keeps_size (DeletePage p).
Proof. unfold DeletePage. keeps_size_tac. Qed.
Lemma keeps_size_write_frame f g : keeps_size (write_frame f g).
Proof. unfold write_frame. keeps_size_tac. Qed.
Lemma keeps_size_read_frame f : keeps_size (read_frame f).
Proof. unfold read_frame. keeps_size_tac. Qed.
End BufferPool.

Arguments Page : clear implicits.
Arguments BufferPool : clear implicits.
#[global] Notation BP D := (ST (BufferPool D)).
