(* ===== verification/PageStore.v ===== *)
(** * What the buffer pool promises: a store of pages

    An abstract store of pages with pins, the calls a client makes, and the
    proof that [BufferPool] refines it: every run of a client that obeys the
    pin discipline is a run of the store, whatever the replacement policy, the
    size of the pool and the traffic to the disk.  The frames stay visible in
    the specification (a [Page *] is a frame), so that the specification says
    that a pinned page does not move. *)

From S2P Require Import Prelude Common LruK Disk BufferPool.

Section PageStore.
Context {D : Type} (zero : D).

(** ** The abstract store *)

(** [contents]: the live pages.  [pinned]: the pin count and the frame of the
    pinned pages.  [tainted]: the pinned pages that were created or written
    since they were last flushed or unpinned as dirty. *)
Record Store := mkStore {
  contents : gmap Z D;
  pinned : gmap Z (Z * Z);
  tainted : gset Z;
  next_id : Z
}.

Inductive pool_call :=
  | CNew
  | CFetch (p : Z)
  | CUnpin (p : Z) (is_dirty : bool)
  | CFlush (p : Z)
  | CFlushAll
  | CDelete (p : Z)
  | CRead (f : Z)
  | CWrite (f : Z) (g : D → D).

Inductive pool_ret :=
  | RPage (o : option (Z * Z))
  | RFrame (o : option Z)
  | RBool (b : bool)
  | RUnit
  | RData (d : D).

Definition ret_map {A} (k : A → pool_ret) (m : ST (BufferPool D) A) : ST (BufferPool D) pool_ret :=
  x ← m; mret (k x).

Definition pool_exec (c : pool_call) : ST (BufferPool D) pool_ret :=
  match c with
  | CNew => ret_map RPage (NewPage zero)
  | CFetch p => ret_map RFrame (FetchPage zero p)
  | CUnpin p b => ret_map RBool (UnpinPage p b)
  | CFlush p => ret_map RBool (FlushPage zero p)
  | CFlushAll => ret_map (λ _, RUnit) (FlushAllPages zero)
  | CDelete p => ret_map RBool (DeletePage zero p)
  | CRead f => ret_map RData (read_frame f)
  | CWrite f g => ret_map (λ _, RUnit) (write_frame f g)
  end.

Definition pinned_frames (a : Store) : list Z := (λ x, x.2.2) <$> map_to_list (pinned a).

(** The discipline of a client: it fetches live pages, uses a page only while
    it pins it, and the last unpin of a page it modified says so. *)
Definition allowed (a : Store) (c : pool_call) : Prop :=
  match c with
  | CFetch p => is_Some (contents a !! p)
  | CUnpin p b => ∀ f, pinned a !! p = Some (1, f) → b = false → p ∉ tainted a
  | CRead f | CWrite f _ => ∃ p k, pinned a !! p = Some (k, f)
  | _ => True
  end.

Definition full (n : Z) (a : Store) : Prop := Z.of_nat (size (pinned a)) = n.

(** What a call may answer, and what it leaves; [n] is the number of frames. *)
Inductive store_step (n : Z) (a : Store) : pool_call → pool_ret → Store → Prop :=
  | S_new f :
      contents a !! next_id a = None → f ∉ pinned_frames a → ¬ full n a →
      store_step n a CNew (RPage (Some (next_id a, f)))
        (mkStore (<[next_id a := zero]> (contents a)) (<[next_id a := (1, f)]> (pinned a))
                 ({[next_id a]} ∪ tainted a) (next_id a + 1))
  | S_new_full : full n a → store_step n a CNew (RPage None) a
  | S_fetch_pinned p k f :
      pinned a !! p = Some (k, f) →
      store_step n a (CFetch p) (RFrame (Some f))
        (mkStore (contents a) (<[p := (k + 1, f)]> (pinned a)) (tainted a) (next_id a))
  | S_fetch p f :
      pinned a !! p = None → f ∉ pinned_frames a → ¬ full n a →
      store_step n a (CFetch p) (RFrame (Some f))
        (mkStore (contents a) (<[p := (1, f)]> (pinned a)) (tainted a) (next_id a))
  | S_fetch_full p :
      pinned a !! p = None → full n a → store_step n a (CFetch p) (RFrame None) a
  | S_unpin p b k f :
      pinned a !! p = Some (k, f) →
      store_step n a (CUnpin p b) (RBool true)
        (mkStore (contents a)
                 (if decide (k = 1) then delete p (pinned a) else <[p := (k - 1, f)]> (pinned a))
                 (if b then tainted a ∖ {[p]} else tainted a) (next_id a))
  | S_unpin_none p b :
      pinned a !! p = None → store_step n a (CUnpin p b) (RBool false) a
  | S_flush p r :
      (is_Some (pinned a !! p) → r = true) → (contents a !! p = None → r = false) →
      store_step n a (CFlush p) (RBool r)
        (mkStore (contents a) (pinned a) (tainted a ∖ {[p]}) (next_id a))
  | S_flush_all :
      store_step n a CFlushAll RUnit (mkStore (contents a) (pinned a) ∅ (next_id a))
  | S_delete_pinned p :
      is_Some (pinned a !! p) → store_step n a (CDelete p) (RBool false) a
  | S_delete p :
      pinned a !! p = None →
      store_step n a (CDelete p) (RBool true)
        (mkStore (delete p (contents a)) (pinned a) (tainted a) (next_id a))
  | S_read f p k d :
      pinned a !! p = Some (k, f) → contents a !! p = Some d →
      store_step n a (CRead f) (RData d) a
  | S_write f p k d g :
      pinned a !! p = Some (k, f) → contents a !! p = Some d →
      store_step n a (CWrite f g) RUnit
        (mkStore (<[p := g d]> (contents a)) (pinned a) ({[p]} ∪ tainted a) (next_id a)).

(** ** The simulation relation *)

Record pool_rel (n : Z) (a : Store) (s : BufferPool D) : Prop := {
  pr_ok : bp_ok None (contents a) s;
  pr_size : pool_size_ s = n;
  pr_next : next_page_id_ (disk_manager_ s) = next_id a;
  pr_pinned : ∀ p k f, pinned a !! p = Some (k, f) ↔ holds s p f ∧ pins s p = k ∧ 0 < k;
  pr_clean : ∀ p, p ∉ tainted a → clean s p;
  pr_tainted : ∀ p, p ∈ tainted a → is_Some (pinned a !! p)
}.

Implicit Types (a : Store) (s : BufferPool D).

Lemma pins_nonneg m s p : bp_ok None m s → 0 ≤ pins s p.
Proof.
  intros Hok. destruct (page_table_ s !! p) as [f|] eqn:Hp; [|unfold pins; by rewrite Hp].
  destruct (holds_entry _ _ _ _ _ Hok Hp) as (e & pg & _ & Hf & _ & ? & _).
  by rewrite (holds_pins _ _ f pg).
Qed.

Lemma pins_pos_holds s p : 0 < pins s p → ∃ f, holds s p f.
Proof. unfold pins, holds. destruct (page_table_ s !! p); [eauto|lia]. Qed.

Lemma pinned_None n a s p : pool_rel n a s → pinned a !! p = None ↔ pins s p = 0.
Proof.
  intros Hr. pose proof (pins_nonneg _ _ p (pr_ok _ _ _ Hr)). split.
  - intros Hn. destruct (decide (pins s p = 0)) as [|Hne]; [done|].
    destruct (pins_pos_holds s p) as [f Hf]; [lia|].
    assert (pinned a !! p = Some (pins s p, f)) as E; [|congruence].
    apply (pr_pinned _ _ _ Hr). split_and!; [done|done|lia].
  - intros Hz. destruct (pinned a !! p) as [[k f]|] eqn:E; [|done].
    apply (pr_pinned _ _ _ Hr) in E. lia.
Qed.

Lemma elem_pinned_frames a f : f ∈ pinned_frames a ↔ ∃ p k, pinned a !! p = Some (k, f).
Proof.
  unfold pinned_frames. rewrite list_elem_of_fmap. split.
  - intros ([p [k g]] & -> & Hin). apply elem_of_map_to_list in Hin. eauto.
  - intros (p & k & Hp). exists (p, (k, f)). by rewrite elem_of_map_to_list.
Qed.

Lemma NoDup_pinned_frames n a s : pool_rel n a s → NoDup (pinned_frames a).
Proof.
  intros Hr. apply NoDup_fmap_2_strong; [|apply NoDup_map_to_list].
  intros [p [k f]] [q [j g]] Hp%elem_of_map_to_list Hq%elem_of_map_to_list; simpl. intros <-.
  assert (p = q) as ->; [|congruence].
  apply (pr_pinned _ _ _ Hr) in Hp as (Hp & _), Hq as (Hq & _).
  by apply (holds_page_inj _ _ _ _ _ _ (pr_ok _ _ _ Hr) Hp).
Qed.

Lemma pinned_frames_range n a s f : pool_rel n a s → f ∈ pinned_frames a → f ∈ seqZ 0 n.
Proof.
  intros Hr. rewrite elem_pinned_frames. intros (p & k & Hp).
  apply (pr_pinned _ _ _ Hr) in Hp as (Hp & _).
  destruct (holds_frame _ _ _ _ _ (pr_ok _ _ _ Hr) Hp) as (pg & Hf & _).
  apply frame_range in Hf. rewrite elem_of_seqZ, <- (pr_size _ _ _ Hr), (bo_size _ _ _ (pr_ok _ _ _ Hr)). lia.
Qed.

Lemma available_iff n a s :
  pool_rel n a s → frame_available s ↔ ∃ f, f ∈ seqZ 0 n ∧ f ∉ pinned_frames a.
Proof.
  intros Hr. pose proof (pr_ok _ _ _ Hr) as Hok.
  assert (∀ f pg, frame s f = Some pg → f ∈ seqZ 0 n) as Hrange.
  { intros f pg Hf%frame_range. rewrite elem_of_seqZ, <- (pr_size _ _ _ Hr), (bo_size _ _ _ Hok). lia. }
  split.
  - intros [Hfree|(p & f & Hp & Hpin)].
    + destruct (free_list_ s) as [|f l] eqn:Hfl; [done|].
      destruct (proj1 (bo_free _ _ _ Hok f)) as (_ & pg & Hf & Hid); [rewrite Hfl; set_solver|].
      exists f. split; [eauto|]. rewrite elem_pinned_frames. intros (p & k & Hp).
      apply (pr_pinned _ _ _ Hr) in Hp as (Hp & _).
      destruct (holds_frame _ _ _ _ _ Hok Hp) as (pg' & ? & ? & ?). congruence.
    + destruct (holds_frame _ _ _ _ _ Hok Hp) as (pg & Hf & _). exists f. split; [eauto|].
      rewrite elem_pinned_frames. intros (q & k & Hq). apply (pr_pinned _ _ _ Hr) in Hq as (Hq & <- & ?).
      rewrite (holds_page_inj _ _ _ _ _ _ Hok Hq Hp) in *. lia.
  - intros (f & Hf%elem_of_seqZ & Hnp).
    destruct (lookup_lt_is_Some_2 (pages_ s) (Z.to_nat f)) as [pg Hpg].
    { pose proof (bo_size _ _ _ Hok) as E. rewrite (pr_size _ _ _ Hr) in E. lia. }
    assert (frame s f = Some pg) as Hfr by (unfold frame; by rewrite decide_True by lia).
    destruct (decide (page_id_ pg = INVALID_PAGE_ID)) as [Hid|Hid].
    + left. assert (f ∈ free_list_ s) as Hin; [|intros E; rewrite E in Hin; set_solver].
      apply (bo_free _ _ _ Hok). split; [done|]. by exists pg.
    + right. assert (holds s (page_id_ pg) f) as Hp.
      { apply (bo_table _ _ _ Hok). split_and!; [done|done|by exists pg]. }
      exists (page_id_ pg), f. split; [done|]. apply (pinned_None _ _ _ _ Hr).
      destruct (pinned a !! page_id_ pg) as [[k g]|] eqn:E; [|done]. destruct Hnp.
      apply elem_pinned_frames. exists (page_id_ pg), k. rewrite E.
      apply (pr_pinned _ _ _ Hr) in E as (E & _). by rewrite (holds_inj _ _ _ _ _ _ Hok E Hp).
Qed.

(** No frame can be had exactly when every frame is pinned. *)
Lemma full_iff n a s : pool_rel n a s → full n a ↔ ¬ frame_available s.
Proof.
  intros Hr. rewrite (available_iff _ _ _ Hr). unfold full.
  assert (length (pinned_frames a) = size (pinned a)) as Hlen.
  { unfold pinned_frames. rewrite length_fmap. apply length_map_to_list. }
  assert (pinned_frames a ⊆+ seqZ 0 n) as Hsub.
  { apply NoDup_submseteq; [by apply (NoDup_pinned_frames _ _ _ Hr)|].
    intros f. apply (pinned_frames_range _ _ _ _ Hr). }
  assert (0 ≤ n) as Hn by (rewrite <- (pr_size _ _ _ Hr), (bo_size _ _ _ (pr_ok _ _ _ Hr)); lia).
  rewrite <- Hlen. split.
  - intros Hf (f & Hf1 & Hf2). apply Hf2.
    rewrite (submseteq_length_Permutation _ _ Hsub); [done|]. rewrite length_seqZ. lia.
  - intros Hno. apply submseteq_length in Hsub. rewrite length_seqZ in Hsub.
    assert (seqZ 0 n ⊆+ pinned_frames a) as Hsub'; [|apply submseteq_length in Hsub'; rewrite length_seqZ in Hsub'; lia].
    apply NoDup_submseteq; [apply NoDup_seqZ|]. intros f Hf.
    destruct (decide (f ∈ pinned_frames a)); [done|]. by destruct Hno; exists f.
Qed.
(** ** Each call is simulated *)

Definition budget_ok (k : Z) (s : BufferPool D) : Prop :=
  ticks s + k ≤ SIZE_MAX ∧ next_page_id_ (disk_manager_ s) + k ≤ INT32_MAX.

Lemma others_pinned m p s s' q g k :
  others_kept p s s' → bp_ok None m s → q ≠ p →
  (holds s' q g ∧ pins s' q = k ∧ 0 < k) ↔ (holds s q g ∧ pins s q = k ∧ 0 < k).
Proof.
  intros (Hp & Hh & _) Hok Hne. rewrite Hp by done. split; intros (Hg & Hk & Hpos); split_and!; try done.
  - destruct (pins_pos_holds s q) as [g' Hg']; [lia|].
    assert (holds s' q g') as Hg'' by (apply Hh; [done|lia]). unfold holds in *. congruence.
  - apply Hh; [done|lia].
Qed.

(** The pinned pages after a call that leaves page [p] in frame [f] with [k]
    pins and keeps the others. *)
Lemma pr_pinned_insert n a s s' p f k :
  pool_rel n a s → others_kept p s s' → holds s' p f → pins s' p = k → 0 < k →
  ∀ q j g, <[p := (k, f)]> (pinned a) !! q = Some (j, g) ↔ holds s' q g ∧ pins s' q = j ∧ 0 < j.
Proof.
  intros Hr Hoth Hp Hk Hpos q j g. destruct (decide (q = p)) as [->|Hne].
  - rewrite lookup_insert_eq. unfold holds in *. split.
    + intros [= <- <-]. done.
    + intros (Hq & <- & _). congruence.
  - rewrite lookup_insert_ne, (pr_pinned _ _ _ Hr) by done. symmetry.
    by apply (others_pinned _ _ _ _ _ _ _ Hoth (pr_ok _ _ _ Hr)).
Qed.

Lemma pr_pinned_delete n a s s' p :
  pool_rel n a s → others_kept p s s' → pins s' p = 0 →
  ∀ q j g, delete p (pinned a) !! q = Some (j, g) ↔ holds s' q g ∧ pins s' q = j ∧ 0 < j.
Proof.
  intros Hr Hoth Hk q j g. destruct (decide (q = p)) as [->|Hne].
  - rewrite lookup_delete_eq. split; [done|]. lia.
  - rewrite lookup_delete_ne, (pr_pinned _ _ _ Hr) by done. symmetry.
    by apply (others_pinned _ _ _ _ _ _ _ Hoth (pr_ok _ _ _ Hr)).
Qed.

Lemma fresh_frame n a s s' p f :
  pool_rel n a s → others_kept p s s' → (∃ m, bp_ok None m s') → holds s' p f → pinned a !! p = None →
  f ∉ pinned_frames a.
Proof.
  intros Hr (_ & Hh & _) [m Hok'] Hp Hnp. rewrite elem_pinned_frames. intros (q & k & Hq).
  assert (p = q) as ->; [|congruence]. apply (pr_pinned _ _ _ Hr) in Hq as (Hq & <- & ?).
  apply (holds_page_inj _ _ _ _ _ _ Hok' Hp). by apply Hh.
Qed.

Definition simulates (n : Z) (a : Store) (s : BufferPool D) (c : pool_call) : Prop :=
  ∃ r s' a', pool_exec c s = (Ok r, s') ∧ store_step n a c r a' ∧ pool_rel n a' s' ∧
    ticks s' ≤ ticks s + 1 ∧
    next_page_id_ (disk_manager_ s') ≤ next_page_id_ (disk_manager_ s) + 1.

Lemma ret_map_ok {A} (k : A → pool_ret) m s x s' :
  m s = (Ok x, s') → ret_map k m s = (Ok (k x), s').
Proof. intros Hm. unfold ret_map. by st_step Hm. Qed.

Lemma pool_exec_size c s : pool_size_ (pool_exec c s).2 = pool_size_ s.
Proof.
  assert (keeps_size (pool_exec c)) as H; [|apply H].
  destruct c; apply keeps_size_bind; try (intros; apply keeps_size_ret).
  - apply keeps_size_NewPage.
  - apply keeps_size_FetchPage.
  - apply keeps_size_UnpinPage.
  - apply keeps_size_FlushPage.
  - apply keeps_size_FlushAllPages.
  - apply keeps_size_DeletePage.
  - apply keeps_size_read_frame.
  - apply keeps_size_write_frame.
Qed.

Lemma exec_size n a s c r s' : pool_rel n a s → pool_exec c s = (Ok r, s') → pool_size_ s' = n.
Proof.
  intros Hr He. rewrite <- (pr_size _ _ _ Hr), <- (pool_exec_size c s). by rewrite He.
Qed.

Lemma sim_new n a s : pool_rel n a s → budget_ok 1 s → simulates n a s CNew.
Proof.
  intros Hr [Ht Hn]. pose proof (pr_next _ _ _ Hr) as Hnx.
  destruct (NewPage_ok zero _ _ (pr_ok _ _ _ Hr)) as
    [(f & s' & Hrun & Hm & Hok & [Hp _] & Hp1 & Hoth & Hti & Hnx')|[Hno Hrun]]; [lia..| |].
  - rewrite Hnx in *. apply (ret_map_ok RPage) in Hrun. assert (pinned a !! next_id a = None) as Hnp.
    { destruct (pinned a !! next_id a) as [[k g]|] eqn:E; [|done].
      apply (pr_pinned _ _ _ Hr) in E as (E & _).
      apply (bo_dom _ _ _ (pr_ok _ _ _ Hr)) in E as [? ?]. congruence. }
    eexists _, s', _. split; [exact Hrun|]. split; [apply S_new with (f := f); [done| |]|split].
    + apply (fresh_frame _ _ _ _ _ _ Hr Hoth); eauto.
    + intros Hfull. apply (full_iff _ _ _ Hr) in Hfull. apply Hfull.
      apply (available_iff _ _ _ Hr). exists f. split.
      * destruct (holds_frame _ _ _ _ _ Hok Hp) as (pg & Hf & _). apply frame_range in Hf.
        rewrite <- (bo_size _ _ _ Hok), (exec_size n a s CNew _ s' Hr Hrun) in Hf. rewrite elem_of_seqZ. lia.
      * apply (fresh_frame _ _ _ _ _ _ Hr Hoth); eauto.
    + split; simpl; [done|by apply (exec_size n a s CNew _ s' Hr Hrun)|done| | |].
      * by apply (pr_pinned_insert n a s).
      * intros q Hq. apply Hoth; [set_solver|]. apply (pr_clean _ _ _ Hr). set_solver.
      * intros q [->%elem_of_singleton|Hq]%elem_of_union; [rewrite lookup_insert_eq; by eexists|].
        rewrite lookup_insert_is_Some. right. split; [|by apply (pr_tainted _ _ _ Hr)].
        intros <-. apply (pr_tainted _ _ _ Hr) in Hq as [? ?]. congruence.
    + lia.
  - exists (RPage None), s, a. split; [by apply ret_map_ok|].
    split; [constructor; by apply (full_iff _ _ _ Hr)|]. split; [done|lia].
Qed.
(** A client may fetch a live page; other unpinned pages may be evicted. *)
Lemma sim_fetch n a s p : pool_rel n a s → budget_ok 1 s → allowed a (CFetch p) → simulates n a s (CFetch p).
Proof.
  intros Hr [Ht Hn] [d Hd]. pose proof (pr_next _ _ _ Hr) as Hnx.
  destruct (FetchPage_ok zero _ _ p d (pr_ok _ _ _ Hr)) as
    [(f & s' & Hrun & Hok & [Hp _] & Hpp & Hoth & Hcl & Hti & Hnx')|(Hpt & Hno & Hrun)]; [done|lia| |].
  2:{ exists (RFrame None), s, a. split; [by apply (ret_map_ok RFrame)|].
      split; [constructor; [|by apply (full_iff _ _ _ Hr)]|split; [done|lia]].
      apply (pinned_None _ _ _ _ Hr). unfold pins. by rewrite Hpt. }
  apply (ret_map_ok RFrame) in Hrun. pose proof (exec_size n a s (CFetch p) _ s' Hr Hrun) as Hsz.
  assert (∀ k, pins s' p = k → 0 < k → pool_rel n
    (mkStore (contents a) (<[p := (k, f)]> (pinned a)) (tainted a) (next_id a)) s') as Hrel.
  { intros k Hk Hpos. split; simpl; [done|done|congruence| | |].
    - by apply (pr_pinned_insert n a s).
    - intros q Hq. apply (pr_clean _ _ _ Hr) in Hq. destruct (decide (q = p)) as [->|]; [by apply Hcl|].
      by apply Hoth.
    - intros q Hq. rewrite lookup_insert_is_Some. destruct (decide (p = q)) as [->|]; [by left|].
      right. split; [done|]. by apply (pr_tainted _ _ _ Hr). }
  destruct (pinned a !! p) as [[k g]|] eqn:Hpin.
  - pose proof Hpin as Hg. apply (pr_pinned _ _ _ Hr) in Hg as (Hg & Hk & Hpos).
    assert (holds s' p g) as Hg' by (apply Hoth; [done|lia]).
    assert (g = f) as -> by (unfold holds in *; congruence).
    eexists _, s', _. split; [exact Hrun|]. split; [by apply S_fetch_pinned with (k := k)|].
    split; [apply Hrel; lia|lia].
  - pose proof Hpin as Hz. apply (pinned_None _ _ _ _ Hr) in Hz.
    assert (f ∉ pinned_frames a) as Hfresh by (apply (fresh_frame _ _ _ _ _ _ Hr Hoth); eauto).
    eexists _, s', _. split; [exact Hrun|]. split; [apply S_fetch; [done|done|]|split; [apply Hrel; lia|lia]].
    rewrite (full_iff _ _ _ Hr). intros Hfull. apply Hfull, (available_iff _ _ _ Hr). exists f. split; [|done].
    destruct (holds_frame _ _ _ _ _ Hok Hp) as (pg & Hf & _). apply frame_range in Hf.
    rewrite <- (bo_size _ _ _ Hok), Hsz in Hf. rewrite elem_of_seqZ. lia.
Qed.

Lemma sim_unpin n a s p b :
  pool_rel n a s → allowed a (CUnpin p b) → simulates n a s (CUnpin p b).
Proof.
  intros Hr Hal. pose proof (pr_ok _ _ _ Hr) as Hok.
  destruct (pinned a !! p) as [[k f]|] eqn:Hpin.
  2:{ exists (RBool false), s, a. split; [|split; [by constructor|split; [done|lia]]].
      apply (ret_map_ok RBool). unfold UnpinPage. st_run.
      apply (pinned_None _ _ _ _ Hr) in Hpin. destruct (page_table_ s !! p) as [f|] eqn:Hp; [|done].
      destruct (holds_frame _ _ _ _ _ Hok Hp) as (pg & Hf & _).
      rewrite (holds_pins _ _ _ _ Hp Hf) in Hpin. st_step (get_page_ok s f pg Hf).
      by rewrite Hpin. }
  pose proof Hpin as Hp. apply (pr_pinned _ _ _ Hr) in Hp as (Hp & Hk & Hpos).
  destruct (UnpinPage_ok _ s p f b Hok Hp) as (s' & Hrun & Hok' & Hp' & Hpp & Hoth & Hcl & Hti & Hd).
  { lia. }
  { intros -> H1. apply (pr_clean _ _ _ Hr). apply (Hal f); congruence. }
  apply (ret_map_ok RBool) in Hrun.
  eexists _, s', _. split; [exact Hrun|]. split; [by apply S_unpin with (k := k) (f := f)|].
  split; [|rewrite Hd; lia]. split; simpl; [done|by apply (exec_size n a s (CUnpin p b) _ s' Hr Hrun)|by rewrite Hd, (pr_next _ _ _ Hr)| | |].
  - case_decide; [apply (pr_pinned_delete n a s); [done..|lia]|apply (pr_pinned_insert n a s); [done..|lia|lia]].
  - intros q Hq. destruct (decide (q = p)) as [->|Hne].
    + apply Hcl. destruct b; [by left|right]. by apply (pr_clean _ _ _ Hr).
    + apply Hoth; [done|]. apply (pr_clean _ _ _ Hr). destruct b; set_solver.
  - intros q Hq. assert (q ∈ tainted a) as Ht by (destruct b; set_solver).
    pose proof (pr_tainted _ _ _ Hr _ Ht) as Hsome. case_decide as H1.
    + rewrite lookup_delete_ne; [done|]. intros ->. destruct b; [set_solver|].
      by apply (Hal f); [congruence|..].
    + rewrite lookup_insert_is_Some. destruct (decide (p = q)); [by left|by right].
Qed.

Lemma same_pages_rel n a s s' t :
  pool_rel n a s → bp_ok None (contents a) s' → pool_size_ s' = n → same_pages s s' →
  t ⊆ tainted a → (∀ p, p ∈ tainted a → p ∉ t → clean s' p) →
  pool_rel n (mkStore (contents a) (pinned a) t (next_id a)) s'.
Proof.
  intros Hr Hok Hsz Hsame Hsub Hcl. split; simpl; [done|done|by rewrite (sp_next _ _ Hsame), (pr_next _ _ _ Hr)| | |].
  - intros p k f. rewrite (pr_pinned _ _ _ Hr), (sp_pins _ _ Hsame). unfold holds.
    by rewrite (sp_table _ _ Hsame).
  - intros p Hp. destruct (decide (p ∈ tainted a)); [by apply Hcl|].
    apply (sp_clean _ _ Hsame). by apply (pr_clean _ _ _ Hr).
  - intros p Hp. apply (pr_tainted _ _ _ Hr). set_solver.
Qed.

Lemma sim_flush n a s p : pool_rel n a s → simulates n a s (CFlush p).
Proof.
  intros Hr. pose proof (pr_ok _ _ _ Hr) as Hok. destruct (page_table_ s !! p) as [f|] eqn:Hp.
  - destruct (holds_frame _ _ _ _ _ Hok Hp) as (pg & Hf & _).
    destruct (flush_frame_ok zero _ s f p pg Hok Hp Hf) as (s' & _ & Hrun & Hok' & Hsame & Hcl).
    apply (ret_map_ok RBool) in Hrun. eexists _, s', _. split; [exact Hrun|]. split; [constructor; [done|]|].
    { intros Hc. apply (bo_dom _ _ _ Hok) in Hp as [? ?]. congruence. }
    split; [|rewrite (sp_ticks _ _ Hsame), (sp_next _ _ Hsame); lia].
    apply (same_pages_rel n a s); [done|done|by apply (exec_size n a s (CFlush p) _ s' Hr Hrun)|done|set_solver|].
    intros q Hq Hnq. destruct (decide (q = p)) as [->|]; [done|set_solver].
  - assert (pinned a !! p = None) as Hnp by (apply (pinned_None _ _ _ _ Hr); unfold pins; by rewrite Hp).
    eexists (RBool false), s, _. split.
    { apply (ret_map_ok RBool). unfold FlushPage. st_run. rewrite Hp. by destruct (p =? INVALID_PAGE_ID). }
    split; [constructor; [rewrite Hnp; by intros [? ?]|done]|]. split; [|lia].
    apply (same_pages_rel n a s); [done|done|apply (pr_size _ _ _ Hr)|apply same_pages_refl|set_solver|].
    intros q Hq Hnq. destruct (decide (q = p)) as [->|]; [|set_solver].
    apply (pr_tainted _ _ _ Hr) in Hq as [? ?]. congruence.
Qed.

Lemma sim_flush_all n a s : pool_rel n a s → simulates n a s CFlushAll.
Proof.
  intros Hr. destruct (FlushAllPages_ok zero _ _ (pr_ok _ _ _ Hr)) as (s' & Hrun & Hok' & Hsame & Hcl).
  apply (ret_map_ok (λ _, RUnit)) in Hrun. eexists _, s', _. split; [exact Hrun|]. split; [constructor|].
  split; [|rewrite (sp_ticks _ _ Hsame), (sp_next _ _ Hsame); lia].
  apply (same_pages_rel n a s); [done|done|by apply (exec_size n a s CFlushAll _ s' Hr Hrun)|done|set_solver|done].
Qed.

Lemma sim_delete n a s p : pool_rel n a s → simulates n a s (CDelete p).
Proof.
  intros Hr. pose proof (pr_ok _ _ _ Hr) as Hok. destruct (page_table_ s !! p) as [f|] eqn:Hp.
  - destruct (holds_frame _ _ _ _ _ Hok Hp) as (pg & Hf & _).
    destruct (pinned a !! p) as [[k g]|] eqn:Hpin.
    + exists (RBool false), s, a. split; [|split; [by constructor; eexists|split; [done|lia]]].
      apply (ret_map_ok RBool). unfold DeletePage. st_run. rewrite Hp. st_step (get_page_ok s f pg Hf).
      apply (pr_pinned _ _ _ Hr) in Hpin as (_ & <- & Hpos). rewrite (holds_pins s p f pg) in Hpos by done.
      by rewrite (proj2 (Z.ltb_lt _ _) Hpos).
    + destruct (DeletePage_ok zero _ s p f Hok Hp) as (s' & Hrun & Hok' & [Hk1 Hk2 Hk3 Hk4 Hk5 Hk6] & Hnone).
      { by apply (pinned_None _ _ _ _ Hr). }
      apply (ret_map_ok RBool) in Hrun. eexists _, s', _. split; [exact Hrun|]. split; [by constructor|].
      split; [|lia]. split; simpl; [done|by apply (exec_size n a s (CDelete p) _ s' Hr Hrun)|rewrite Hk6; apply Hr| | |apply Hr].
      * intros q j h. rewrite (pr_pinned _ _ _ Hr), Hk3. split; intros (Hq & Hj & Hpos); split_and!; try done.
        -- apply Hk2; [done|lia].
        -- by apply Hk1.
      * intros q Hq. apply Hk4. by apply (pr_clean _ _ _ Hr).
  - assert (pinned a !! p = None) as Hnp by (apply (pinned_None _ _ _ _ Hr); unfold pins; by rewrite Hp).
    exists (RBool true), s. eexists. split; [|split; [by constructor|split; [|lia]]].
    + apply (ret_map_ok RBool). unfold DeletePage. st_run. by rewrite Hp.
    + destruct Hr. split; simpl; try done. by apply forget_ok.
Qed.

Lemma sim_read n a s f : pool_rel n a s → allowed a (CRead f) → simulates n a s (CRead f).
Proof.
  intros Hr (p & k & Hp). pose proof Hp as Hh. apply (pr_pinned _ _ _ Hr) in Hh as (Hh & _).
  destruct (bo_dom _ _ _ (pr_ok _ _ _ Hr) _ _ Hh) as [d Hd].
  exists (RData d), s, a. split; [|split; [by apply S_read with (p := p) (k := k)|split; [done|lia]]].
  apply (ret_map_ok RData). by apply (read_frame_ok (contents a) s p f d (pr_ok _ _ _ Hr)).
Qed.

Lemma sim_write n a s f g : pool_rel n a s → allowed a (CWrite f g) → simulates n a s (CWrite f g).
Proof.
  intros Hr (p & k & Hp). pose proof Hp as Hh. apply (pr_pinned _ _ _ Hr) in Hh as (Hh & Hk & Hpos).
  destruct (bo_dom _ _ _ (pr_ok _ _ _ Hr) _ _ Hh) as [d Hd].
  destruct (write_frame_ok (contents a) s p f d g (pr_ok _ _ _ Hr) Hd Hh) as
    (s' & Hrun & Hok' & Hh' & Hpp & Hoth & Hti & Hdm); [lia|].
  apply (ret_map_ok (λ _, RUnit)) in Hrun. eexists _, s', _. split; [exact Hrun|].
  split; [by apply S_write with (p := p) (k := k) (d := d)|]. split; [|rewrite Hdm; lia].
  split; simpl; [done|by apply (exec_size n a s (CWrite f g) _ s' Hr Hrun)|by rewrite Hdm, (pr_next _ _ _ Hr)| | |].
  - intros q j h. rewrite <- (pr_pinned_insert n a s s' p f k) by (done || lia). by rewrite insert_id.
  - intros q Hq. apply Hoth; [set_solver|]. apply (pr_clean _ _ _ Hr). set_solver.
  - intros q [->%elem_of_singleton|Hq]%elem_of_union; [by eexists|]. by apply (pr_tainted _ _ _ Hr).
Qed.

Lemma call_simulated n a s c :
  pool_rel n a s → budget_ok 1 s → allowed a c → simulates n a s c.
Proof.
  intros Hr Hb Hal. destruct c.
  - by apply sim_new.
  - by apply sim_fetch.
  - by apply sim_unpin.
  - by apply sim_flush.
  - by apply sim_flush_all.
  - by apply sim_delete.
  - by apply sim_read.
  - by apply sim_write.
Qed.

(** ** Whole runs *)

(** A client decides its next call from the answers so far, the last first. *)
Definition client : Type := list pool_ret → pool_call.

(** The answers of the pool to the first [k] calls of a client that has had the
    answers [h]; [None] if one of them does not return. *)
Fixpoint pool_run (cl : client) (k : nat) (h : list pool_ret) (s : BufferPool D)
    : option (list pool_ret * BufferPool D) :=
  match k with
  | O => Some (h, s)
  | S k =>
      match pool_exec (cl h) s with
      | (Ok r, s1) => pool_run cl k (r :: h) s1
      | _ => None
      end
  end.

(** The runs of the store, and the clients all of whose calls are allowed. *)
Inductive store_run (n : Z) (cl : client) : nat → list pool_ret → Store → list pool_ret → Store → Prop :=
  | run_nil h a : store_run n cl O h a h a
  | run_cons k h a r a1 h2 a2 :
      store_step n a (cl h) r a1 → store_run n cl k (r :: h) a1 h2 a2 → store_run n cl (S k) h a h2 a2.

Fixpoint well_behaved (n : Z) (cl : client) (k : nat) (h : list pool_ret) (a : Store) : Prop :=
  match k with
  | O => True
  | S k => allowed a (cl h) ∧ ∀ r a', store_step n a (cl h) r a' → well_behaved n cl k (r :: h) a'
  end.

Lemma runs_simulated n cl k h a s :
  pool_rel n a s → budget_ok (Z.of_nat k) s → well_behaved n cl k h a →
  ∃ h' s' a', pool_run cl k h s = Some (h', s') ∧ store_run n cl k h a h' a' ∧ pool_rel n a' s'.
Proof.
  revert h a s; induction k as [|k IH]; intros h a s Hr Hb Hw.
  { exists h, s, a. split_and!; [done|constructor|done]. }
  destruct Hw as [Hal Hw]. unfold budget_ok in Hb. rewrite Nat2Z.inj_succ in Hb.
  destruct (call_simulated n a s (cl h) Hr) as (r & s1 & a1 & He & Hs & Hr1 & Ht & Hn); [unfold budget_ok; lia|done|].
  destruct (IH (r :: h) a1 s1 Hr1) as (h' & s' & a' & Hrun & Hst & Hr'); [unfold budget_ok; lia|by apply Hw|].
  exists h', s', a'. split_and!; [|by econstructor|done]. simpl. by rewrite He.
Qed.

Definition Store_new (next : Z) : Store := mkStore ∅ ∅ ∅ next.

Lemma Store_new_rel n disk k :
  1 ≤ k → 0 ≤ n ≤ INT32_MAX → failbit disk = false → 0 ≤ next_page_id_ disk →
  pool_rel n (Store_new (next_page_id_ disk)) (BufferPool_new zero n disk k).
Proof.
  intros Hk Hn Hd Hnx. split; simpl; [by apply BufferPool_new_ok|done|done| | |set_solver].
  - intros p j f. unfold holds, pins; simpl. rewrite !lookup_empty. split; [done|]. by intros (? & _).
  - intros p _ f pg. unfold holds; simpl. by rewrite lookup_empty.
Qed.

(** C29: the buffer pool implements the store of pages.  For every pool size,
    every [k] of the LRU-K policy and every client that keeps the pin discipline,
    a run from the empty pool never throws, never reads or writes outside the
    pool, and its answers are the answers of a run of the store: a page read
    through a pinned frame has the contents last written to that page however
    often it was evicted and fetched again, a pinned page stays in its frame, and
    [nullptr] is returned exactly when all the frames are pinned. *)
Theorem buffer_pool_refines_store n k disk cl calls :
  1 ≤ k → 0 ≤ n ≤ INT32_MAX → failbit disk = false → 0 ≤ next_page_id_ disk →
  next_page_id_ disk + Z.of_nat calls ≤ INT32_MAX →
  well_behaved n cl calls [] (Store_new (next_page_id_ disk)) →
  ∃ h s' a', pool_run cl calls [] (BufferPool_new zero n disk k) = Some (h, s') ∧
    store_run n cl calls [] (Store_new (next_page_id_ disk)) h a' ∧ pool_rel n a' s'.
Proof.
  intros Hk Hn Hd Hnx Hlen Hw. apply runs_simulated; [by apply Store_new_rel| |done].
  unfold budget_ok, ticks; simpl. unfold SIZE_MAX, INT32_MAX in *. lia.
Qed.
End PageStore.

Arguments Store : clear implicits.
Arguments pool_call : clear implicits.
Arguments pool_ret : clear implicits.

(** ** Witness: a pool of one frame

    The client creates page 0, writes 7 in it, unpins it dirty, creates page 1
    (which evicts page 0), unpins it, fetches page 0 again and reads it. *)
Definition demo_client : client (D := Z) := λ h,
  match h with
  | [] => CNew
  | [RPage (Some (_, f))] => CWrite f (λ _, 7)
  | [_; RPage (Some (p, _))] => CUnpin p true
  | [_; _; _] => CNew
  | [RPage (Some (q, _)); _; _; _] => CUnpin q true
  | [_; _; _; _; RPage (Some (p, _))] => CFetch p
  | RFrame (Some f) :: _ => CRead f
  | _ => CFlushAll
  end.

Example demo_run :
  fst <$> pool_run 0 demo_client 7 [] (BufferPool_new 0 1 (Disk_open []) 2) =
  Some [RData 7; RFrame (Some 0); RBool true; RPage (Some (1, 0)); RBool true; RUnit; RPage (Some (0, 0))].
Proof. vm_compute. reflexivity. Qed.

(** Step the store: the answers the specification allows. *)
Ltac store_next :=
  let H := fresh "Hs" in intros ? ? H; inversion H; clear H; simplify_map_eq;
  repeat match goal with E : <[_ := _]> _ !! _ = Some _ |- _ =>
    apply lookup_insert_Some in E as [[? ?]|[? ?]]; simplify_map_eq end;
  try match goal with F : full _ _ |- _ => vm_compute in F; discriminate F end.

Lemma demo_well_behaved : well_behaved 0 1 demo_client 7 [] (Store_new 0).
Proof.
  split; [done|]. store_next.
  split; [by exists 0, 1|]. store_next.
  split; [by intros|]. store_next.
  split; [done|]. store_next.
  split; [by intros|]. store_next.
  split; [by simplify_map_eq|]. store_next.
  split; [by eexists 0, _; simplify_map_eq|]. by store_next.
Qed.

Lemma buffer_pool_refines_store_witness :
  ∃ h s' a', pool_run 0 demo_client 7 [] (BufferPool_new 0 1 (Disk_open []) 2) = Some (h, s') ∧
    store_run 0 1 demo_client 7 [] (Store_new 0) h a' ∧ pool_rel 1 a' s'.
Proof.
  apply (buffer_pool_refines_store 0 1 2 (Disk_open []) demo_client 7);
    [lia|unfold INT32_MAX; lia|reflexivity|vm_compute; discriminate|vm_compute; discriminate|].
  exact demo_well_behaved.
Defined.
