(* ===== verification/PageIO.v ===== *)
(** * The interface of the buffer pool to its clients

    The B+ tree and the table heaps use the buffer pool through six calls.  The
    class [PageIO] states what they may rely on: the calls are steps of the
    abstract store of [PageStore].  [buffer_pool_io] discharges it.

    The relation of the class has a budget: the number of calls left before the
    64-bit clock of the replacer or the 32-bit page ids run out. *)

From S2P Require Import Prelude Common LruK Disk BufferPool PageStore.

Class PageIO (D S : Type) := {
  io_zero : D;
  io_frames : Z;
  io_new : ST S (option (Z * Z));
  io_fetch : Z → ST S (option Z);
  io_unpin : Z → bool → ST S bool;
  io_delete : Z → ST S bool;
  io_read : Z → ST S D;
  io_write : Z → (D → D) → ST S unit;
  io_rel : Z → Store D → S → Prop;
  io_weaken k k' a s : k' ≤ k → io_rel k a s → io_rel k' a s;
  io_new_law k a s : 0 ≤ k → io_rel (k + 1) a s → ∃ o s' a',
    io_new s = (Ok o, s') ∧ store_step io_zero io_frames a CNew (RPage o) a' ∧ io_rel k a' s';
  io_fetch_law k a s p : 0 ≤ k → io_rel (k + 1) a s → is_Some (contents a !! p) → ∃ o s' a',
    io_fetch p s = (Ok o, s') ∧ store_step io_zero io_frames a (CFetch p) (RFrame o) a' ∧ io_rel k a' s';
  io_unpin_law k a s p b : 0 ≤ k → io_rel (k + 1) a s → allowed a (CUnpin p b) → ∃ r s' a',
    io_unpin p b s = (Ok r, s') ∧ store_step io_zero io_frames a (CUnpin p b) (RBool r) a' ∧ io_rel k a' s';
  io_delete_law k a s p : 0 ≤ k → io_rel (k + 1) a s → ∃ r s' a',
    io_delete p s = (Ok r, s') ∧ store_step io_zero io_frames a (CDelete p) (RBool r) a' ∧ io_rel k a' s';
  io_read_law k a s f : 0 ≤ k → io_rel (k + 1) a s → allowed a (CRead f) → ∃ d s' a',
    io_read f s = (Ok d, s') ∧ store_step io_zero io_frames a (CRead f) (RData d) a' ∧ io_rel k a' s';
  io_write_law k a s f g : 0 ≤ k → io_rel (k + 1) a s → allowed a (CWrite f g) → ∃ s' a',
    io_write f g s = (Ok tt, s') ∧ store_step io_zero io_frames a (CWrite f g) RUnit a' ∧ io_rel k a' s'
}.

(** ** The buffer pool implements the interface *)

Section Instance_.
Context {D : Type} (zero : D) (n : Z).

Definition pool_io_rel (k : Z) (a : Store D) (s : BufferPool D) : Prop :=
  pool_rel n a s ∧ budget_ok k s.

Lemma budget_weaken k k' (s : BufferPool D) : k' ≤ k → budget_ok k s → budget_ok k' s.
Proof. unfold budget_ok. lia. Qed.

Lemma ret_map_inv {A} (g : A → pool_ret D) (m : ST (BufferPool D) A) s r s' :
  ret_map g m s = (Ok r, s') → ∃ x, m s = (Ok x, s') ∧ r = g x.
Proof.
  unfold ret_map, mbind, st_bind. destruct (m s) as [[x| | |] s1]; [|done..].
  intros [= <- <-]. by exists x.
Qed.

(** The simulation of a call, read as a law of the interface. *)
Lemma pool_law {A} k a s c (g : A → pool_ret D) (m : ST (BufferPool D) A) :
  0 ≤ k → pool_io_rel (k + 1) a s → allowed a c → pool_exec zero c = ret_map g m →
  ∃ x s' a', m s = (Ok x, s') ∧ store_step zero n a c (g x) a' ∧ pool_io_rel k a' s'.
Proof.
  intros Hk [Hr Hb] Hal He.
  destruct (call_simulated zero n a s c Hr) as (r & s' & a' & Hrun & Hst & Hr' & Ht & Hn);
    [apply (budget_weaken (k + 1)); [lia|done]|done|].
  rewrite He in Hrun. apply ret_map_inv in Hrun as (x & Hx & ->).
  exists x, s', a'. do 2 (split; [done|]). split; [done|]. unfold budget_ok in *. lia.
Qed.

#[global, refine] Instance buffer_pool_io : PageIO D (BufferPool D) := {
  io_zero := zero;
  io_frames := n;
  io_new := NewPage zero;
  io_fetch := FetchPage zero;
  io_unpin := UnpinPage;
  io_delete := DeletePage zero;
  io_read := read_frame;
  io_write := write_frame;
  io_rel := pool_io_rel
}.
Proof.
  - intros k k' a s Hk [? ?]. split; [done|]. by apply (budget_weaken k).
  - intros k a s Hk Hr. by apply (pool_law k a s CNew RPage).
  - intros k a s p Hk Hr Hp. by apply (pool_law k a s (CFetch p) RFrame).
  - intros k a s p b Hk Hr Hal. by apply (pool_law k a s (CUnpin p b) RBool).
  - intros k a s p Hk Hr. by apply (pool_law k a s (CDelete p) RBool).
  - intros k a s f Hk Hr Hal. by apply (pool_law k a s (CRead f) RData).
  - intros k a s f g Hk Hr Hal.
    destruct (pool_law k a s (CWrite f g) (λ _, RUnit) (write_frame f g)) as ([] & s' & a' & ?); [done..|].
    by exists s', a'.
Defined.
End Instance_.

(** A pool of [n] frames over the page type [D], at the zero page. *)
Lemma pool_io_start {D} (zero : D) n disk lru k :
  1 ≤ lru → 0 ≤ n ≤ INT32_MAX → failbit disk = false → 0 ≤ next_page_id_ disk →
  next_page_id_ disk + k ≤ INT32_MAX → 0 ≤ k →
  io_rel (PageIO := buffer_pool_io zero n) k (Store_new (next_page_id_ disk)) (BufferPool_new zero n disk lru).
Proof.
  intros. split; [by apply Store_new_rel|]. unfold budget_ok, ticks; simpl. unfold SIZE_MAX, INT32_MAX in *. lia.
Qed.

(** ** The store itself as an implementation

    The abstract store, executed: the first frame not in use is taken, nothing is
    ever evicted.  It shows that the laws can hold, and the clients' theorems can
    be tried on it. *)

Section Direct.
Context {D : Type} (zero : D) (n : Z).
Implicit Types a : Store D.

Definition fresh_frame a : Z := infinite_fresh (pinned_frames a).
#[local] Instance full_dec a : Decision (full n a).
Proof. unfold full. apply _. Defined.

Definition direct_new : ST (Store D) (option (Z * Z)) := λ a,
  if decide (full n a) then (Ok None, a)
  else (Ok (Some (next_id a, fresh_frame a)),
        mkStore (<[next_id a := zero]> (contents a)) (<[next_id a := (1, fresh_frame a)]> (pinned a))
                ({[next_id a]} ∪ tainted a) (next_id a + 1)).

Definition direct_fetch (p : Z) : ST (Store D) (option Z) := λ a,
  match pinned a !! p with
  | Some (k, f) => (Ok (Some f), mkStore (contents a) (<[p := (k + 1, f)]> (pinned a)) (tainted a) (next_id a))
  | None =>
      if decide (full n a) then (Ok None, a)
      else (Ok (Some (fresh_frame a)),
            mkStore (contents a) (<[p := (1, fresh_frame a)]> (pinned a)) (tainted a) (next_id a))
  end.

Definition direct_unpin (p : Z) (b : bool) : ST (Store D) bool := λ a,
  match pinned a !! p with
  | None => (Ok false, a)
  | Some (k, f) =>
      (Ok true, mkStore (contents a)
        (if decide (k = 1) then delete p (pinned a) else <[p := (k - 1, f)]> (pinned a))
        (if b then tainted a ∖ {[p]} else tainted a) (next_id a))
  end.

Definition direct_delete (p : Z) : ST (Store D) bool := λ a,
  match pinned a !! p with
  | Some _ => (Ok false, a)
  | None => (Ok true, mkStore (delete p (contents a)) (pinned a) (tainted a) (next_id a))
  end.

Definition page_in_frame (f : Z) a : option Z :=
  fst <$> head (filter (λ x, x.2.2 = f) (map_to_list (pinned a))).

Definition direct_read (f : Z) : ST (Store D) D := λ a,
  match page_in_frame f a ≫= λ p, contents a !! p with Some d => (Ok d, a) | None => (UB, a) end.
Definition direct_write (f : Z) (g : D → D) : ST (Store D) unit := λ a,
  match page_in_frame f a with
  | Some p =>
      match contents a !! p with
      | Some d => (Ok tt, mkStore (<[p := g d]> (contents a)) (pinned a) ({[p]} ∪ tainted a) (next_id a))
      | None => (UB, a)
      end
  | None => (UB, a)
  end.

(** Live pages are below the next id, and pinned pages are live. *)
Definition direct_rel (k : Z) a (s : Store D) : Prop :=
  a = s ∧ (∀ p, is_Some (contents a !! p) → p < next_id a) ∧
  (∀ p, is_Some (pinned a !! p) → is_Some (contents a !! p)).

Lemma page_in_frame_ok a f :
  (∃ p k, pinned a !! p = Some (k, f)) → ∃ p k, page_in_frame f a = Some p ∧ pinned a !! p = Some (k, f).
Proof.
  intros (p & k & Hp). unfold page_in_frame.
  destruct (filter (λ x, x.2.2 = f) (map_to_list (pinned a))) as [|[q [j g]] l] eqn:E.
  - assert ((p, (k, f)) ∈ filter (λ x, x.2.2 = f) (map_to_list (pinned a))) as H; [|rewrite E in H; set_solver].
    apply list_elem_of_filter. split; [done|]. by apply elem_of_map_to_list.
  - assert ((q, (j, g)) ∈ filter (λ x, x.2.2 = f) (map_to_list (pinned a))) as H by (rewrite E; set_solver).
    apply list_elem_of_filter in H as [H1 H2]. simpl in H1. subst. apply elem_of_map_to_list in H2.
    by exists q, j.
Qed.

Lemma direct_pinned_insert k a p j f cs nid :
  direct_rel k a a → is_Some (cs !! p) → (∀ q, is_Some (contents a !! q) → is_Some (cs !! q)) →
  (∀ q, is_Some (cs !! q) → q < nid) → ∀ tn, direct_rel k (mkStore cs (<[p := (j, f)]> (pinned a)) tn nid)
                                               (mkStore cs (<[p := (j, f)]> (pinned a)) tn nid).
Proof.
  intros (_ & _ & Hlive) Hp Hsub Hlt tn. split_and!; [done|done|]. simpl. intros q.
  rewrite lookup_insert_is_Some. intros [->|[_ Hq]]; [done|]. by apply Hsub, Hlive.
Qed.

#[refine] Instance direct_io : PageIO D (Store D) := {
  io_zero := zero;
  io_frames := n;
  io_new := direct_new;
  io_fetch := direct_fetch;
  io_unpin := direct_unpin;
  io_delete := direct_delete;
  io_read := direct_read;
  io_write := direct_write;
  io_rel := direct_rel
}.
Proof.
  - done.
  - intros k a s Hk Hr. pose proof Hr as (<- & Hlt & Hlive). unfold direct_new. case_decide as Hf.
    + exists None, a, a. split_and!; [done|by constructor|done].
    + eexists _, _, _. split; [reflexivity|]. split.
      * constructor; [|apply infinite_is_fresh|done].
        destruct (contents a !! next_id a) eqn:E; [|done]. specialize (Hlt (next_id a)). rewrite E in Hlt.
        specialize (Hlt ltac:(by eexists)). lia.
      * apply (direct_pinned_insert (k + 1) a); [done|rewrite lookup_insert_eq; by eexists| |].
        -- intros q Hq. rewrite lookup_insert_is_Some. destruct (decide (next_id a = q)); [by left|by right].
        -- intros q. rewrite lookup_insert_is_Some. intros [<-|[_ Hq]]; [lia|]. specialize (Hlt q Hq). lia.
  - intros k a s p Hk Hr Hp. pose proof Hr as (<- & Hlt & Hlive). unfold direct_fetch.
    destruct (pinned a !! p) as [[j f]|] eqn:E; [|case_decide as Hf].
    + eexists _, _, _. split; [reflexivity|]. split; [by constructor|]. by apply (direct_pinned_insert (k + 1) a).
    + exists None, a, a. split_and!; [done|by constructor|done].
    + eexists _, _, _. split; [reflexivity|]. split; [constructor; [done|apply infinite_is_fresh|done]|].
      by apply (direct_pinned_insert (k + 1) a).
  - intros k a s p b Hk Hr _. pose proof Hr as (<- & Hlt & Hlive). unfold direct_unpin.
    destruct (pinned a !! p) as [[j f]|] eqn:E.
    + eexists _, _, _. split; [reflexivity|]. split; [by constructor|].
      split_and!; [done|done|]. simpl. intros q Hq. apply Hlive. case_decide.
      * by apply lookup_delete_is_Some in Hq as [_ ?].
      * apply lookup_insert_is_Some in Hq as [<-|[_ ?]]; [rewrite E; by eexists|done].
    + exists false, a, a. split_and!; [done|by constructor|done].
  - intros k a s p Hk Hr. pose proof Hr as (<- & Hlt & Hlive). unfold direct_delete.
    destruct (pinned a !! p) as [[j f]|] eqn:E.
    + exists false, a, a. split_and!; [done|constructor; rewrite E; by eexists|done].
    + eexists _, _, _. split; [reflexivity|]. split; [by constructor|]. split_and!; [done| |]; simpl.
      * intros q [_ Hq]%lookup_delete_is_Some. by apply Hlt.
      * intros q Hq. rewrite lookup_delete_is_Some. split; [|by apply Hlive]. intros <-. rewrite E in Hq. by destruct Hq.
  - intros k a s f Hk Hr Hal. pose proof Hr as (<- & Hlt & Hlive).
    destruct (page_in_frame_ok a f Hal) as (p & j & Hpf & Hp).
    destruct (Hlive p) as [d Hd]; [rewrite Hp; by eexists|].
    exists d, a, a. unfold direct_read. rewrite Hpf. simpl. rewrite Hd. split_and!; [done| |done].
    by apply S_read with (p := p) (k := j).
  - intros k a s f g Hk Hr Hal. pose proof Hr as (<- & Hlt & Hlive).
    destruct (page_in_frame_ok a f Hal) as (p & j & Hpf & Hp).
    destruct (Hlive p) as [d Hd]; [rewrite Hp; by eexists|].
    unfold direct_write. rewrite Hpf, Hd. eexists _, _. split; [reflexivity|].
    split; [by apply S_write with (p := p) (k := j) (d := d)|]. split_and!; [done| |]; simpl.
    + intros q. rewrite lookup_insert_is_Some. intros [<-|[_ Hq]]; [apply Hlt; by eexists|by apply Hlt].
    + intros q Hq. rewrite lookup_insert_is_Some. destruct (decide (p = q)); [by left|right]. split; [done|by apply Hlive].
Defined.
End Direct.
