(* ===== verification/Lock.v ===== *)
(** * Transactions, the lock manager and the transaction manager

    [src/src/concurrency/lock_manager.cpp], [transaction_manager.cpp] and the
    headers [lock_manager.h], [transaction.h], [transaction_manager.h].

    A call of the lock manager runs under [latch_] up to [cv_.wait], which
    releases the latch while its predicate is false: a call is a first step,
    that returns or blocks, and a blocked call sleeps on the condition variable
    of the queue until a [notify_all] or a spurious wake-up, after which a step
    tests the predicate again: true, the call returns; false, it sleeps again.  A
    list node of a request queue has an address, so that the iterator [req_it] kept
    across the wait may be found dangling. *)

From S2P Require Import Prelude Common.

(** ** Transactions ([transaction.h]) *)

Inductive TransactionState := GROWING | SHRINKING | COMMITTED | ABORTED.
Inductive IsolationLevel := READ_UNCOMMITTED | READ_COMMITTED | REPEATABLE_READ.
Inductive LockMode := SHARED | EXCLUSIVE.

#[global] Instance TransactionState_eq_dec : EqDecision TransactionState.
Proof. solve_decision. Defined.
#[global] Instance IsolationLevel_eq_dec : EqDecision IsolationLevel.
Proof. solve_decision. Defined.
#[global] Instance LockMode_eq_dec : EqDecision LockMode.
Proof. solve_decision. Defined.

Record Transaction := mkTxn {
  isolation_level_ : IsolationLevel;
  state_ : TransactionState;
  shared_lock_set_ : gset RID;
  exclusive_lock_set_ : gset RID
}.

Definition Transaction_new (iso : IsolationLevel) : Transaction := mkTxn iso GROWING ∅ ∅.
Definition SetState (st : TransactionState) (t : Transaction) : Transaction :=
  mkTxn (isolation_level_ t) st (shared_lock_set_ t) (exclusive_lock_set_ t).
Definition IsSharedLocked (t : Transaction) (r : RID) : bool := bool_decide (r ∈ shared_lock_set_ t).
Definition IsExclusiveLocked (t : Transaction) (r : RID) : bool := bool_decide (r ∈ exclusive_lock_set_ t).
(** Insertions into, and erasures from, the sets behind the two getters. *)
Definition set_locks (sh ex : gset RID) (t : Transaction) : Transaction :=
  mkTxn (isolation_level_ t) (state_ t) sh ex.

(** ** The state of the lock manager *)

Record LockRequest := mkReq { txn_id_ : Z; lock_mode_ : LockMode; granted_ : bool }.

(** [std::list<LockRequest>]: the nodes with their addresses. *)
Abbreviation request_list := (list (Z * LockRequest)).

(** [cv_] is the set of threads asleep on the condition variable, named by their
    transactions: a thread runs one call, for one transaction. *)
Record LockRequestQueue := mkQueue { request_queue_ : request_list; upgrading_ : bool; cv_ : gset Z }.

(** The lock table, the [Transaction] objects ([Transaction *] is the
    transaction's id), and the next fresh node address. *)
Record LockManager := mkLM {
  lock_table_ : gmap RID LockRequestQueue;
  txns : gmap Z Transaction;
  next_node : Z
}.

Definition LockManager_new : LockManager := mkLM ∅ ∅ 0.

Definition set_txn (t : Z) (x : Transaction) (s : LockManager) : LockManager :=
  mkLM (lock_table_ s) (<[t := x]> (txns s)) (next_node s).
Definition set_queue (r : RID) (q : LockRequestQueue) (s : LockManager) : LockManager :=
  mkLM (<[r := q]> (lock_table_ s)) (txns s) (next_node s).

(** Dereferencing a [Transaction *], [lock_table_[rid]] and an iterator. *)
Definition get_txn (t : Z) (s : LockManager) : res Transaction :=
  match txns s !! t with Some x => Ok x | None => UB end.
Definition get_queue (r : RID) (s : LockManager) : LockRequestQueue :=
  default (mkQueue [] false ∅) (lock_table_ s !! r).

(** [emplace_back] and [std::prev(end())]. *)
Definition push_request (r : RID) (t : Z) (m : LockMode) (s : LockManager) : Z * LockManager :=
  let q := get_queue r s in
  (next_node s,
   mkLM (<[r := mkQueue (request_queue_ q ++ [(next_node s, mkReq t m false)]) (upgrading_ q) (cv_ q)]>
           (lock_table_ s)) (txns s) (next_node s + 1)).

(** Writing through, and erasing, the node at address [n]: undefined if the
    node is gone. *)
Definition update_node (n : Z) (g : LockRequest → LockRequest) (l : request_list) : res request_list :=
  if decide (n ∈ l.*1) then Ok ((λ x, if decide (x.1 = n) then (x.1, g x.2) else x) <$> l) else UB.
Definition erase_node (n : Z) (l : request_list) : res request_list :=
  if decide (n ∈ l.*1) then Ok (filter (λ x, x.1 ≠ n) l) else UB.

Definition grant (req : LockRequest) : LockRequest := mkReq (txn_id_ req) (lock_mode_ req) true.

(** ** Blocked calls *)

Inductive WaitKind := WShared | WExclusive | WUpgrade.
#[global] Instance WaitKind_eq_dec : EqDecision WaitKind.
Proof. solve_decision. Defined.

(** The local variables of a call blocked in [cv_.wait]. *)
Record Wait := mkWait { w_kind : WaitKind; w_txn : Z; w_rid : RID; w_node : Z }.

Inductive outcome := Returned (b : bool) | Blocked (w : Wait).

(** A request that the predicate of the wait must not find. *)
Definition blocks (k : WaitKind) (t : Z) (req : LockRequest) : bool :=
  negb (txn_id_ req =? t) && granted_ req &&
  match k with WShared => bool_decide (lock_mode_ req = EXCLUSIVE) | _ => true end.

(** The predicates given to [cv_.wait]. *)
Definition wait_pred (w : Wait) (s : LockManager) : res bool :=
  txn ← get_txn (w_txn w) s;
  if decide (state_ txn = ABORTED) then Ok true
  else Ok (forallb (λ x, negb (blocks (w_kind w) (w_txn w) x.2)) (request_queue_ (get_queue (w_rid w) s))).

(** A thread goes to sleep, [notify_all] wakes every sleeper, and a single
    sleeper may wake for no reason. *)
Definition asleep (w : Wait) (s : LockManager) : bool := bool_decide (w_txn w ∈ cv_ (get_queue (w_rid w) s)).
Definition set_sleepers (f : gset Z → gset Z) (q : LockRequestQueue) : LockRequestQueue :=
  mkQueue (request_queue_ q) (upgrading_ q) (f (cv_ q)).
Definition notify_all : LockRequestQueue → LockRequestQueue := set_sleepers (λ _, ∅).
Definition cv_wait (w : Wait) (s : LockManager) : LockManager :=
  set_queue (w_rid w) (set_sleepers (λ cv, {[w_txn w]} ∪ cv) (get_queue (w_rid w) s)) s.
Definition spurious_wakeup (w : Wait) (s : LockManager) : LockManager :=
  set_queue (w_rid w) (set_sleepers (λ cv, cv ∖ {[w_txn w]}) (get_queue (w_rid w) s)) s.

(** What [LockShared] does after the wait. *)
Definition LockShared_wake (w : Wait) (s : LockManager) : res (bool * LockManager) :=
  txn ← get_txn (w_txn w) s;
  let q := get_queue (w_rid w) s in
  if decide (state_ txn = ABORTED) then
    l ← erase_node (w_node w) (request_queue_ q);
    Ok (false, set_queue (w_rid w) (notify_all (mkQueue l (upgrading_ q) (cv_ q))) s)
  else
    l ← update_node (w_node w) grant (request_queue_ q);
    Ok (true, set_txn (w_txn w) (set_locks ({[w_rid w]} ∪ shared_lock_set_ txn) (exclusive_lock_set_ txn) txn)
                (set_queue (w_rid w) (mkQueue l (upgrading_ q) (cv_ q)) s)).

Definition LockExclusive_wake (w : Wait) (s : LockManager) : res (bool * LockManager) :=
  txn ← get_txn (w_txn w) s;
  let q := get_queue (w_rid w) s in
  if decide (state_ txn = ABORTED) then
    l ← erase_node (w_node w) (request_queue_ q);
    Ok (false, set_queue (w_rid w) (notify_all (mkQueue l (upgrading_ q) (cv_ q))) s)
  else
    l ← update_node (w_node w) grant (request_queue_ q);
    Ok (true, set_txn (w_txn w) (set_locks (shared_lock_set_ txn) ({[w_rid w]} ∪ exclusive_lock_set_ txn) txn)
                (set_queue (w_rid w) (mkQueue l (upgrading_ q) (cv_ q)) s)).

(** [upgrading_ = false] comes first. *)
Definition LockUpgrade_wake (w : Wait) (s : LockManager) : res (bool * LockManager) :=
  txn ← get_txn (w_txn w) s;
  let q := get_queue (w_rid w) s in
  if decide (state_ txn = ABORTED) then
    l ← erase_node (w_node w) (request_queue_ q);
    Ok (false, set_txn (w_txn w) (set_locks (shared_lock_set_ txn ∖ {[w_rid w]}) (exclusive_lock_set_ txn) txn)
                 (set_queue (w_rid w) (notify_all (mkQueue l false (cv_ q))) s))
  else
    l ← update_node (w_node w) grant (request_queue_ q);
    Ok (true, set_txn (w_txn w) (set_locks (shared_lock_set_ txn ∖ {[w_rid w]})
                                           ({[w_rid w]} ∪ exclusive_lock_set_ txn) txn)
                (set_queue (w_rid w) (mkQueue l false (cv_ q)) s)).

Definition wake (w : Wait) : LockManager → res (bool * LockManager) :=
  match w_kind w with
  | WShared => LockShared_wake w
  | WExclusive => LockExclusive_wake w
  | WUpgrade => LockUpgrade_wake w
  end.

(** [cv_.wait(lock, pred)]: no wait at all if the predicate is true; else the
    thread sleeps, and tests the predicate again each time it wakes. *)
Definition wait_on (w : Wait) (s : LockManager) : res (outcome * LockManager) :=
  ok ← wait_pred w s;
  if (ok : bool) then '(b, s') ← wake w s; Ok (Returned b, s') else Ok (Blocked w, cv_wait w s).

(** ** Operations *)

Definition LockShared (t : Z) (r : RID) (s : LockManager) : res (outcome * LockManager) :=
  txn ← get_txn t s;
  if decide (state_ txn = SHRINKING) then Ok (Returned false, set_txn t (SetState ABORTED txn) s)
  else if decide (state_ txn = ABORTED) then Ok (Returned false, s)
  else if IsSharedLocked txn r || IsExclusiveLocked txn r then Ok (Returned true, s)
  else let '(n, s) := push_request r t SHARED s in wait_on (mkWait WShared t r n) s.

Definition LockExclusive (t : Z) (r : RID) (s : LockManager) : res (outcome * LockManager) :=
  txn ← get_txn t s;
  if decide (state_ txn = SHRINKING) then Ok (Returned false, set_txn t (SetState ABORTED txn) s)
  else if decide (state_ txn = ABORTED) then Ok (Returned false, s)
  else if IsExclusiveLocked txn r then Ok (Returned true, s)
  else let '(n, s) := push_request r t EXCLUSIVE s in wait_on (mkWait WExclusive t r n) s.

(** The first node of the transaction in the queue. *)
Fixpoint find_request (t : Z) (l : request_list) : option (Z * LockRequest) :=
  match l with
  | [] => None
  | (n, req) :: l => if txn_id_ req =? t then Some (n, req) else find_request t l
  end.

Definition demote (req : LockRequest) : LockRequest := mkReq (txn_id_ req) EXCLUSIVE false.

Definition LockUpgrade (t : Z) (r : RID) (s : LockManager) : res (outcome * LockManager) :=
  txn ← get_txn t s;
  if decide (state_ txn = SHRINKING) then Ok (Returned false, set_txn t (SetState ABORTED txn) s)
  else if decide (state_ txn = ABORTED) then Ok (Returned false, s)
  else if IsExclusiveLocked txn r then Ok (Returned true, s)
  else if negb (IsSharedLocked txn r) then Ok (Returned false, s)
  else
    let q := get_queue r s in
    if upgrading_ q then
      Ok (Returned false, set_txn t (SetState ABORTED txn) (set_queue r q s))
    else match find_request t (request_queue_ q) with
    | None => Ok (Returned false, set_queue r (mkQueue (request_queue_ q) false (cv_ q)) s)
    | Some (n, _) =>
        l ← update_node n demote (request_queue_ q);
        wait_on (mkWait WUpgrade t r n) (set_queue r (mkQueue l true (cv_ q)) s)
    end.

Definition Unlock (t : Z) (r : RID) (s : LockManager) : res (bool * LockManager) :=
  match lock_table_ s !! r with
  | None => Ok (false, s)
  | Some q =>
      match find_request t (request_queue_ q) with
      | None => Ok (false, s)
      | Some (n, req) =>
          let up := if upgrading_ q && bool_decide (lock_mode_ req = EXCLUSIVE) && negb (granted_ req)
                    then false else upgrading_ q in
          l ← erase_node n (request_queue_ q);
          txn ← get_txn t s;
          let st := if decide (state_ txn = GROWING) then SHRINKING else state_ txn in
          Ok (true, set_txn t (mkTxn (isolation_level_ txn) st (shared_lock_set_ txn ∖ {[r]})
                                     (exclusive_lock_set_ txn ∖ {[r]}))
                      (set_queue r (notify_all (mkQueue l up (cv_ q))) s))
      end
  end.

(** ** The transaction manager *)

(** [next_txn_id_] and the lock manager with the transactions of [txn_map_]. *)
Record TransactionManager := mkTM { next_txn_id_ : Z; lock_manager_ : LockManager }.

Definition Begin (iso : IsolationLevel) (s : TransactionManager) : Z * TransactionManager :=
  (next_txn_id_ s,
   mkTM (next_txn_id_ s + 1) (set_txn (next_txn_id_ s) (Transaction_new iso) (lock_manager_ s))).

(** The loop of [Commit] and [Abort] over the locks of one set, read through
    [locks]: [Unlock] may erase the element the iterator stands on, and the
    increment of an erased iterator is undefined. *)
Fixpoint release_all (locks : Transaction → gset RID) (t : Z) (rids : list RID) (s : LockManager)
    : res LockManager :=
  match rids with
  | [] => Ok s
  | r :: rids =>
      '(_, s1) ← Unlock t r s;
      txn ← get_txn t s1;
      if decide (r ∈ locks txn) then release_all locks t rids s1 else UB
  end.

Definition finish (st : TransactionState) (t : Z) (s : LockManager) : res LockManager :=
  txn ← get_txn t s;
  let s := set_txn t (SetState st txn) s in
  s ← release_all shared_lock_set_ t (elements (shared_lock_set_ txn)) s;
  txn ← get_txn t s;
  s ← release_all exclusive_lock_set_ t (elements (exclusive_lock_set_ txn)) s;
  txn ← get_txn t s;
  Ok (set_txn t (set_locks ∅ ∅ txn) s).

Definition Commit (t : Z) (s : TransactionManager) : res TransactionManager :=
  lm ← finish COMMITTED t (lock_manager_ s); Ok (mkTM (next_txn_id_ s) lm).
Definition Abort (t : Z) (s : TransactionManager) : res TransactionManager :=
  lm ← finish ABORTED t (lock_manager_ s); Ok (mkTM (next_txn_id_ s) lm).

(** ** The system: the transactions, the lock manager and the blocked calls

    A [Transaction] is used by one thread: a call is made for a transaction
    that has no blocked call ([waiting]).  A blocked call that is awake tests its
    predicate, and returns or sleeps again; asleep, it is woken by the
    [notify_all] of another call, or spuriously.  Setting the state of a
    transaction and [Abort] may happen at any time. *)

Record Sys := mkSys { tm : TransactionManager; waiting : gmap Z Wait }.

Definition lm (s : Sys) : LockManager := lock_manager_ (tm s).
Definition with_lm (l : LockManager) (s : Sys) : Sys := mkSys (mkTM (next_txn_id_ (tm s)) l) (waiting s).
Definition Sys_new : Sys := mkSys (mkTM 0 LockManager_new) ∅.

Inductive lock_call := CallShared (r : RID) | CallExclusive (r : RID) | CallUpgrade (r : RID) | CallUnlock (r : RID).

Definition lock_exec (c : lock_call) (t : Z) (s : LockManager) : res (outcome * LockManager) :=
  match c with
  | CallShared r => LockShared t r s
  | CallExclusive r => LockExclusive t r s
  | CallUpgrade r => LockUpgrade t r s
  | CallUnlock r => '(b, s') ← Unlock t r s; Ok (Returned b, s')
  end.

Definition after_call (t : Z) (o : outcome) (ws : gmap Z Wait) : gmap Z Wait :=
  match o with Blocked w => <[t := w]> ws | Returned _ => ws end.

Inductive sys_step : Sys → Sys → Prop :=
  | step_begin iso tid tm' s :
      Begin iso (tm s) = (tid, tm') → sys_step s (mkSys tm' (waiting s))
  | step_call c t o lm' s :
      waiting s !! t = None → is_Some (txns (lm s) !! t) →
      lock_exec c t (lm s) = Ok (o, lm') →
      sys_step s (mkSys (tm (with_lm lm' s)) (after_call t o (waiting s)))
  | step_wake t w b lm' s :
      waiting s !! t = Some w → asleep w (lm s) = false →
      wait_pred w (lm s) = Ok true → wake w (lm s) = Ok (b, lm') →
      sys_step s (mkSys (tm (with_lm lm' s)) (delete t (waiting s)))
  | step_sleep t w s :
      waiting s !! t = Some w → asleep w (lm s) = false → wait_pred w (lm s) = Ok false →
      sys_step s (with_lm (cv_wait w (lm s)) s)
  | step_spurious t w s :
      waiting s !! t = Some w → asleep w (lm s) = true → sys_step s (with_lm (spurious_wakeup w (lm s)) s)
  | step_set_state t txn st s :
      txns (lm s) !! t = Some txn → sys_step s (with_lm (set_txn t (SetState st txn) (lm s)) s)
  | step_finish t st lm' s :
      finish st t (lm s) = Ok lm' → sys_step s (with_lm lm' s).

Definition reachable : Sys → Prop := rtc sys_step Sys_new.

(** ** The invariant *)

Definition requests (s : LockManager) (r : RID) : request_list := request_queue_ (get_queue r s).

Definition requested_mode (k : WaitKind) : LockMode :=
  match k with WShared => SHARED | _ => EXCLUSIVE end.

(** The request behind a blocked call. *)
Definition wait_ok (s : Sys) (t : Z) (w : Wait) : Prop :=
  w_txn w = t ∧
  (∃ req, (w_node w, req) ∈ requests (lm s) (w_rid w) ∧ txn_id_ req = t ∧
    lock_mode_ req = requested_mode (w_kind w) ∧ granted_ req = false) ∧
  is_Some (txns (lm s) !! t) ∧
  (w_kind w = WUpgrade → ∀ txn, txns (lm s) !! t = Some txn → w_rid w ∉ exclusive_lock_set_ txn).

(** Transaction [t] has a granted request of mode [m] on [r]. *)
Definition granted_in (s : LockManager) (t : Z) (r : RID) (m : LockMode) : Prop :=
  ∃ n, (n, mkReq t m true) ∈ requests s r.

Definition upgrading_on (s : Sys) (t : Z) (r : RID) : Prop :=
  ∃ w, waiting s !! t = Some w ∧ w_kind w = WUpgrade ∧ w_rid w = r.

Record sys_inv (s : Sys) : Prop := {
  si_fresh : ∀ t, is_Some (txns (lm s) !! t) → t < next_txn_id_ (tm s);
  si_node : ∀ r n req, (n, req) ∈ requests (lm s) r → n < next_node (lm s);
  si_nodup : ∀ r, NoDup (requests (lm s) r).*1;
  si_owner : ∀ r n req, (n, req) ∈ requests (lm s) r → is_Some (txns (lm s) !! txn_id_ req);
  si_excl : ∀ r t u m, granted_in (lm s) t r EXCLUSIVE → granted_in (lm s) u r m → t = u;
  si_wait : ∀ t w, waiting s !! t = Some w → wait_ok s t w;
  si_x : ∀ t txn r, txns (lm s) !! t = Some txn → r ∈ exclusive_lock_set_ txn →
    granted_in (lm s) t r EXCLUSIVE;
  si_s : ∀ t txn r, txns (lm s) !! t = Some txn → r ∈ shared_lock_set_ txn →
    (∃ m, granted_in (lm s) t r m) ∨ (upgrading_on s t r ∧ ∃ n req, (n, req) ∈ requests (lm s) r ∧ txn_id_ req = t)
}.

(** ** Lemmas on request lists *)

Lemma update_node_spec n g l l' :
  update_node n g l = Ok l' →
  l'.*1 = l.*1 ∧ ∀ k req, (k, req) ∈ l' ↔ (k ≠ n ∧ (k, req) ∈ l) ∨ (k = n ∧ ∃ q, (k, q) ∈ l ∧ req = g q).
Proof.
  unfold update_node. case_decide as Hn; [|done]. intros [= <-]. split.
  - rewrite <- list_fmap_compose. apply list_fmap_ext. intros i [k q] _. simpl. by case_decide.
  - intros k req. rewrite list_elem_of_fmap. split.
    + intros ([k' q] & Heq & Hin). simpl in Heq. case_decide; simplify_eq; eauto 10.
    + intros [[Hne Hin]|[-> (q & Hin & ->)]].
      * exists (k, req). simpl. by rewrite decide_False by done.
      * exists (n, q). simpl. by rewrite decide_True by done.
Qed.

Lemma erase_node_spec n l l' :
  erase_node n l = Ok l' →
  l'.*1 `sublist_of` l.*1 ∧ ∀ k req, (k, req) ∈ l' ↔ k ≠ n ∧ (k, req) ∈ l.
Proof.
  unfold erase_node. case_decide as Hn; [|done]. intros [= <-]. split.
  - apply fmap_sublist, sublist_filter.
  - intros k req. by rewrite list_elem_of_filter.
Qed.

Lemma find_request_spec t l :
  match find_request t l with
  | Some (n, req) => (n, req) ∈ l ∧ txn_id_ req = t
  | None => ∀ n req, (n, req) ∈ l → txn_id_ req ≠ t
  end.
Proof.
  induction l as [|[n req] l IH]; simpl; [set_solver|].
  destruct (Z.eqb_spec (txn_id_ req) t); [set_solver|].
  destruct (find_request t l) as [[n' req']|]; set_solver.
Qed.

Lemma node_in {A} n (req : A) (l : list (Z * A)) : (n, req) ∈ l → n ∈ l.*1.
Proof. intros. apply list_elem_of_fmap. by exists (n, req). Qed.

Lemma node_unique {A} n (p q : A) (l : list (Z * A)) : NoDup l.*1 → (n, p) ∈ l → (n, q) ∈ l → p = q.
Proof.
  intros Hnd Hp Hq. apply (elem_of_list_to_map_1 (M := gmap Z)) in Hp, Hq; [congruence|done..].
Qed.

Lemma requests_set_queue s r q r' :
  requests (set_queue r q s) r' = if decide (r' = r) then request_queue_ q else requests s r'.
Proof.
  unfold requests, get_queue; simpl. case_decide as E; [subst; by rewrite lookup_insert_eq|].
  by rewrite lookup_insert_ne.
Qed.

Lemma requests_set_txn s t x r : requests (set_txn t x s) r = requests s r.
Proof. done. Qed.

(** ** Preservation: changes to one queue and one transaction *)

(** [changed s s' t r l x]: the step from [s] to [s'] gives queue [r] the
    requests [l] and transaction [t] the value [x]; the requests of the other
    transactions and the other blocked calls stay. *)
Record changed (s s' : Sys) (t : Z) (r : RID) (l : request_list) (x : Transaction) : Prop := {
  ch_requests : ∀ r', requests (lm s') r' = if decide (r' = r) then l else requests (lm s) r';
  ch_txns : txns (lm s') = <[t := x]> (txns (lm s));
  ch_known : is_Some (txns (lm s) !! t);
  ch_next : next_txn_id_ (tm s') = next_txn_id_ (tm s) ∧ next_node (lm s) ≤ next_node (lm s');
  ch_waiting : ∀ u, u ≠ t → waiting s' !! u = waiting s !! u;
  ch_others : ∀ n req, txn_id_ req ≠ t → (n, req) ∈ l ↔ (n, req) ∈ requests (lm s) r;
  ch_nodes : NoDup l.*1 ∧ ∀ n req, (n, req) ∈ l → n < next_node (lm s');
  ch_sets : ∀ y r', txns (lm s) !! t = Some y → r' ≠ r →
    (r' ∈ shared_lock_set_ x ↔ r' ∈ shared_lock_set_ y) ∧
    (r' ∈ exclusive_lock_set_ x ↔ r' ∈ exclusive_lock_set_ y);
  ch_upgrading : ∀ r', r' ≠ r → upgrading_on s t r' → upgrading_on s' t r'
}.

Lemma changed_granted s s' t r l x u r' m :
  changed s s' t r l x →
  granted_in (lm s') u r' m ↔
    if decide (r' = r) then if decide (u = t) then ∃ n, (n, mkReq t m true) ∈ l else granted_in (lm s) u r m
    else granted_in (lm s) u r' m.
Proof.
  intros Hc. unfold granted_in. rewrite (ch_requests _ _ _ _ _ _ Hc). case_decide; [subst|done].
  case_decide; [by subst|]. split; intros [n Hn]; exists n; by apply (ch_others _ _ _ _ _ _ Hc).
Qed.

Lemma changed_request s s' t r l x n req :
  changed s s' t r l x → txn_id_ req ≠ t → ∀ r', (n, req) ∈ requests (lm s') r' ↔ (n, req) ∈ requests (lm s) r'.
Proof.
  intros Hc Hne r'. rewrite (ch_requests _ _ _ _ _ _ Hc). case_decide; [|done]. subst.
  by apply (ch_others _ _ _ _ _ _ Hc).
Qed.

Lemma changed_wait_ok s s' t r l x u w :
  changed s s' t r l x → u ≠ t → wait_ok s u w → wait_ok s' u w.
Proof.
  intros Hc Hne (Hw & (req & Hin & Ht & Hm) & Hk & Hup).
  assert (txns (lm s') !! u = txns (lm s) !! u) as Hu.
  { by rewrite (ch_txns _ _ _ _ _ _ Hc), lookup_insert_ne. }
  split; [done|]. rewrite Hu. split_and!; [|done|done].
  exists req. split; [|done]. apply (changed_request _ _ _ _ _ _ _ _ Hc); [congruence|done].
Qed.

Lemma changed_inv s s' t r l x :
  sys_inv s → changed s s' t r l x →
  (∀ n n' m m' u, u ≠ t → (n, mkReq t m true) ∈ l → (n', mkReq u m' true) ∈ l → m = SHARED ∧ m' = SHARED) →
  (r ∈ exclusive_lock_set_ x → ∃ n, (n, mkReq t EXCLUSIVE true) ∈ l) →
  (r ∈ shared_lock_set_ x → (∃ m n, (n, mkReq t m true) ∈ l) ∨
     (upgrading_on s' t r ∧ ∃ n req, (n, req) ∈ l ∧ txn_id_ req = t)) →
  (∀ w, waiting s' !! t = Some w → wait_ok s' t w) →
  sys_inv s'.
Proof.
  intros Hinv Hc Hexcl Hx Hs Hw. pose proof (λ u r' m, changed_granted s s' t r l x u r' m Hc) as Hg.
  assert (∀ u, is_Some (txns (lm s') !! u) ↔ is_Some (txns (lm s) !! u)) as Hdom.
  { intros u. rewrite (ch_txns _ _ _ _ _ _ Hc), lookup_insert_is_Some. pose proof (ch_known _ _ _ _ _ _ Hc).
    destruct (decide (t = u)); naive_solver. }
  destruct (ch_next _ _ _ _ _ _ Hc) as [Hn1 Hn2]. destruct (ch_nodes _ _ _ _ _ _ Hc) as [Hnd Hnode].
  split.
  - intros u Hu%Hdom. rewrite Hn1. by apply (si_fresh _ Hinv).
  - intros r' n req. rewrite (ch_requests _ _ _ _ _ _ Hc). case_decide; [by apply Hnode|].
    intros Hin. pose proof (si_node _ Hinv _ _ _ Hin). lia.
  - intros r'. rewrite (ch_requests _ _ _ _ _ _ Hc). case_decide; [done|]. apply (si_nodup _ Hinv).
  - intros r' n req Hin. apply Hdom. destruct (decide (txn_id_ req = t)) as [->|Hne].
    + apply (ch_known _ _ _ _ _ _ Hc).
    + rewrite (changed_request _ _ _ _ _ _ _ _ Hc) in Hin by done. by apply (si_owner _ Hinv _ _ _ Hin).
  - intros r' u v m. rewrite !Hg. case_decide; [|apply (si_excl _ Hinv)]. subst.
    case_decide as Eu; case_decide as Ev; subst; try done; [| |apply (si_excl _ Hinv)].
    + intros [n Hn] [n' Hn']. destruct (Hexcl n n' EXCLUSIVE m v) as [? _]; [done..| |done].
      by apply (ch_others _ _ _ _ _ _ Hc).
    + intros [n Hn] [n' Hn']. destruct (Hexcl n' n m EXCLUSIVE u) as [_ ?]; [done..| |done].
      by apply (ch_others _ _ _ _ _ _ Hc).
  - intros u w. destruct (decide (u = t)) as [->|Hne]; [by apply Hw|].
    rewrite (ch_waiting _ _ _ _ _ _ Hc) by done. intros Hu%(si_wait _ Hinv).
    by apply (changed_wait_ok _ _ _ _ _ _ _ _ Hc).
  - intros u txn r'. rewrite (ch_txns _ _ _ _ _ _ Hc), Hg. destruct (decide (u = t)) as [->|Hne].
    + rewrite lookup_insert_eq. intros [= <-]. case_decide as Er; [by subst|].
      destruct (ch_known _ _ _ _ _ _ Hc) as [y Hy]. intros Hr.
      apply (ch_sets _ _ _ _ _ _ Hc y r' Hy Er) in Hr. by apply (si_x _ Hinv _ y).
    + rewrite lookup_insert_ne by done. intros Hu Hr. apply (si_x _ Hinv _ _ _ Hu) in Hr.
      case_decide; [by subst|done].
  - intros u txn r'. rewrite (ch_txns _ _ _ _ _ _ Hc), (ch_requests _ _ _ _ _ _ Hc).
    destruct (decide (u = t)) as [->|Hne].
    + rewrite lookup_insert_eq. intros [= <-] Hr. case_decide as Er; [subst|].
      * destruct (Hs Hr) as [(m & Hm)|Hm]; [left|by right].
        exists m. apply Hg. by rewrite !decide_True.
      * destruct (ch_known _ _ _ _ _ _ Hc) as [y Hy].
        apply (ch_sets _ _ _ _ _ _ Hc y r' Hy Er) in Hr.
        destruct (si_s _ Hinv _ _ _ Hy Hr) as [[m Hm]|[Hup Hreq]].
        -- left. exists m. apply Hg. by rewrite decide_False.
        -- right. split; [by apply (ch_upgrading _ _ _ _ _ _ Hc)|done].
    + rewrite lookup_insert_ne by done. intros Hu Hr.
      destruct (si_s _ Hinv _ _ _ Hu Hr) as [[m Hm]|[(w & Hw1 & Hw2) (n & req & Hin & Hreq)]].
      * left. exists m. apply Hg. case_decide; [subst; by rewrite decide_False|done].
      * right. split; [exists w; by rewrite (ch_waiting _ _ _ _ _ _ Hc)|]. exists n, req. split; [|done].
        case_decide; [subst|done]. apply (ch_others _ _ _ _ _ _ Hc); [congruence|done].
Qed.

(** ** Preservation: the steps *)

Implicit Types (s : Sys) (l : LockManager).

Lemma requests_push l r t m r' :
  requests (push_request r t m l).2 r' =
  if decide (r' = r) then requests l r ++ [(next_node l, mkReq t m false)] else requests l r'.
Proof.
  unfold requests, get_queue, push_request; simpl. case_decide as E; [subst; by rewrite lookup_insert_eq|].
  by rewrite lookup_insert_ne.
Qed.

(** A transaction of which no call is blocked, and its locks. *)
Lemma idle_locks s t x r :
  sys_inv s → waiting s !! t = None → txns (lm s) !! t = Some x → r ∈ shared_lock_set_ x →
  ∃ m n, (n, mkReq t m true) ∈ requests (lm s) r.
Proof.
  intros Hinv Hidle Hx Hr. destruct (si_s _ Hinv _ _ _ Hx Hr) as [(m & Hm)|[(w & Hw & _) _]]; [by exists m|].
  congruence.
Qed.

(** The requests of [t] and of another transaction in the queue. *)
Lemma excl_old s t u r n n' m m' :
  sys_inv s → u ≠ t → (n, mkReq t m true) ∈ requests (lm s) r → (n', mkReq u m' true) ∈ requests (lm s) r →
  m = SHARED ∧ m' = SHARED.
Proof.
  intros Hinv Hne Ht Hu. split.
  - destruct m; [done|]. destruct Hne. symmetry. apply (si_excl _ Hinv r t u m'); [by exists n|by exists n'].
  - destruct m'; [done|]. destruct Hne. apply (si_excl _ Hinv r u t m); [by exists n'|by exists n].
Qed.

(** A step that leaves the queues alone. *)
Lemma changed_only_txn s s' t x y r :
  sys_inv s → txns (lm s) !! t = Some y → (∀ r', requests (lm s') r' = requests (lm s) r') →
  txns (lm s') = <[t := x]> (txns (lm s)) → tm s' = mkTM (next_txn_id_ (tm s)) (lm s') →
  next_node (lm s') = next_node (lm s) → waiting s' = waiting s →
  shared_lock_set_ x = shared_lock_set_ y → exclusive_lock_set_ x = exclusive_lock_set_ y →
  changed s s' t r (requests (lm s) r) x.
Proof.
  intros Hinv Hy Hreq Htx Htm Hnn Hw Hs Hx. split; try done.
  - intros r'. rewrite Hreq. by case_decide; subst.
  - by rewrite Htm, Hnn.
  - by rewrite Hw.
  - split; [apply (si_nodup _ Hinv)|]. rewrite Hnn. apply (si_node _ Hinv).
  - intros y' r' Hy' _. assert (y' = y) as -> by congruence. by rewrite Hs, Hx.
  - intros r' _ (w & ? & ?). exists w. by rewrite Hw.
Qed.

Lemma only_txn_inv s s' t x y :
  sys_inv s → txns (lm s) !! t = Some y → (∀ r', requests (lm s') r' = requests (lm s) r') →
  txns (lm s') = <[t := x]> (txns (lm s)) → tm s' = mkTM (next_txn_id_ (tm s)) (lm s') →
  next_node (lm s') = next_node (lm s) → waiting s' = waiting s →
  shared_lock_set_ x = shared_lock_set_ y → exclusive_lock_set_ x = exclusive_lock_set_ y →
  sys_inv s'.
Proof.
  intros Hinv Hy Hreq Htx Htm Hnn Hw Hs Hx.
  pose proof (changed_only_txn s s' t x y RID_default Hinv Hy Hreq Htx Htm Hnn Hw Hs Hx) as Hc.
  apply (changed_inv _ _ _ _ _ _ Hinv Hc).
  - intros n n' m m' u. by apply excl_old.
  - rewrite Hx. intros Hr. by apply (si_x _ Hinv _ y).
  - rewrite Hs. intros Hr. destruct (si_s _ Hinv _ _ _ Hy Hr) as [Hm|[Hup Hreq']]; [by left|].
    right. split; [|done]. destruct Hup as (w & ? & ?). exists w. by rewrite Hw.
  - intros w. rewrite Hw. intros (Ht & (req & Hin & Hreq') & _ & Hk)%(si_wait _ Hinv).
    split; [done|]. split_and!.
    + exists req. by rewrite Hreq.
    + rewrite Htx, lookup_insert_eq. by eexists.
    + intros Hup txn. rewrite Htx, lookup_insert_eq. intros [= <-]. rewrite Hx. by apply Hk.
Qed.

Lemma push_inv s t r k x :
  sys_inv s → waiting s !! t = None → txns (lm s) !! t = Some x → k ≠ WUpgrade →
  let '(n, l1) := push_request r t (requested_mode k) (lm s) in
  sys_inv (mkSys (tm (with_lm l1 s)) (<[t := mkWait k t r n]> (waiting s))).
Proof.
  intros Hinv Hidle Hx Hk. pose proof (requests_push (lm s) r t (requested_mode k)) as Hreq.
  destruct (push_request _ _ _ _) as [n l1] eqn:Hp. injection Hp as <- <-. simpl in Hreq.
  set (req := mkReq t (requested_mode k) false) in *. set (n := next_node (lm s)) in *.
  set (s1 := mkSys _ _).
  assert (changed s s1 t r (requests (lm s) r ++ [(n, req)]) x) as Hc.
  { split; simpl; try done.
    - by rewrite insert_id.
    - split; [done|lia].
    - intros u Hu. by rewrite lookup_insert_ne.
    - intros n' req' Hne. rewrite elem_of_app, list_elem_of_singleton. split; [|by left].
      intros [?|[= -> ->]]; done.
    - split.
      + rewrite fmap_app. apply NoDup_app. split_and!; [apply (si_nodup _ Hinv)| |apply NoDup_singleton].
        intros k' ([? req'] & -> & Hin)%list_elem_of_fmap Hn. apply list_elem_of_singleton in Hn. simpl in Hn.
        apply (si_node _ Hinv) in Hin. unfold n in Hn. lia.
      + intros n' req' [Hin|[= -> ->]%list_elem_of_singleton]%elem_of_app.
        * apply (si_node _ Hinv) in Hin. lia.
        * unfold n. lia.
    - intros y r' Hy _. by assert (y = x) as -> by congruence.
    - intros r' _ (w & Hw & _). congruence. }
  apply (changed_inv _ _ _ _ _ _ Hinv Hc).
  - intros n1 n2 m m' u Hne. rewrite !elem_of_app, !list_elem_of_singleton. unfold req.
    intros [H1|?] [H2|?]; [by apply (excl_old s t u r n1 n2)|congruence..].
  - intros Hr. destruct (si_x _ Hinv _ _ _ Hx Hr) as [n' Hn']. exists n'. apply elem_of_app. by left.
  - intros Hr. left. destruct (idle_locks _ _ _ _ Hinv Hidle Hx Hr) as (m & n' & Hn').
    exists m, n'. apply elem_of_app. by left.
  - intros w. simpl. rewrite lookup_insert_eq. intros [= <-]. split; [done|]. split_and!; simpl; [| by eexists|done].
    exists req. split; [|done]. rewrite (ch_requests _ _ _ _ _ _ Hc), decide_True by done.
    apply elem_of_app. right. by apply list_elem_of_singleton.
Qed.

Lemma demote_inv s t r x n req l1 lq up cv :
  sys_inv s → waiting s !! t = None → txns (lm s) !! t = Some x → r ∉ exclusive_lock_set_ x →
  find_request t (requests (lm s) r) = Some (n, req) → update_node n demote (requests (lm s) r) = Ok lq →
  l1 = set_queue r (mkQueue lq up cv) (lm s) →
  sys_inv (mkSys (tm (with_lm l1 s)) (<[t := mkWait WUpgrade t r n]> (waiting s))).
Proof.
  intros Hinv Hidle Hx Hrx Hfind Hupd ->. set (s1 := mkSys _ _).
  pose proof (find_request_spec t (requests (lm s) r)) as Hf. rewrite Hfind in Hf. destruct Hf as [Hin Ht].
  destruct (update_node_spec _ _ _ _ Hupd) as [Hnodes Hmem].
  assert ((n, mkReq t EXCLUSIVE false) ∈ lq) as Hnew.
  { apply Hmem. right. split; [done|]. exists req. split; [done|]. unfold demote. by rewrite Ht. }
  assert (changed s s1 t r lq x) as Hc.
  { split; simpl; try done.
    - intros r'. apply requests_set_queue.
    - by rewrite insert_id.
    - intros u Hu. by rewrite lookup_insert_ne.
    - intros k q Hne. rewrite Hmem. split.
      + intros [[_ ?]|[-> (q' & Hq' & ->)]]; [done|]. destruct Hne. simpl.
        by rewrite (node_unique _ _ _ _ (si_nodup _ Hinv r) Hq' Hin).
      + intros Hq. left. split; [|done]. intros ->. destruct Hne.
        by rewrite (node_unique _ _ _ _ (si_nodup _ Hinv r) Hq Hin).
    - split; [rewrite Hnodes; apply (si_nodup _ Hinv)|].
      intros k q [[_ Hq]|[-> (q' & Hq & _)]]%Hmem; by apply (si_node _ Hinv) in Hq.
    - intros y r' Hy _. by assert (y = x) as -> by congruence.
    - intros r' _ (w & Hw & _). congruence. }
  assert (waiting s1 !! t = Some (mkWait WUpgrade t r n)) as Hw by apply lookup_insert_eq.
  apply (changed_inv _ _ _ _ _ _ Hinv Hc).
  - intros n1 n2 m m' u Hne H1 H2. apply Hmem in H1, H2.
    destruct H1 as [[_ H1]|[_ (? & _ & ?)]]; [|done]. destruct H2 as [[_ H2]|[_ (? & _ & ?)]]; [|done].
    by apply (excl_old s t u r n1 n2).
  - done.
  - intros Hr. right. split; [by exists (mkWait WUpgrade t r n)|]. by exists n, (mkReq t EXCLUSIVE false).
  - intros w. rewrite Hw. intros [= <-]. split; [done|]. split_and!; simpl; [|by eexists|].
    + exists (mkReq t EXCLUSIVE false). split; [|done]. rewrite (ch_requests _ _ _ _ _ _ Hc), decide_True by done. done.
    + intros _ txn Htx. by assert (txn = x) as -> by congruence.
Qed.

(** The predicate of a wait that is not aborted. *)
Lemma wait_pred_true w l x :
  wait_pred w l = Ok true → txns l !! w_txn w = Some x → state_ x ≠ ABORTED →
  ∀ n req, (n, req) ∈ requests l (w_rid w) → blocks (w_kind w) (w_txn w) req = false.
Proof.
  unfold wait_pred, get_txn. intros Hp Hx Hst n req Hin. rewrite Hx in Hp. simpl in Hp.
  rewrite decide_False in Hp by done. injection Hp as Hp. rewrite forallb_forall in Hp.
  specialize (Hp (n, req)). apply negb_true_iff, Hp. by apply list_elem_of_In.
Qed.

(** Granting the request of a blocked call. *)
Lemma grant_inv s t w x x' lq up cv :
  sys_inv s → waiting s !! t = Some w → wait_pred w (lm s) = Ok true → txns (lm s) !! t = Some x →
  state_ x ≠ ABORTED → update_node (w_node w) grant (requests (lm s) (w_rid w)) = Ok lq →
  (∀ r', r' ≠ w_rid w → (r' ∈ shared_lock_set_ x' ↔ r' ∈ shared_lock_set_ x) ∧
                        (r' ∈ exclusive_lock_set_ x' ↔ r' ∈ exclusive_lock_set_ x)) →
  (w_rid w ∈ exclusive_lock_set_ x' → w_rid w ∈ exclusive_lock_set_ x ∨ w_kind w ≠ WShared) →
  sys_inv (mkSys (tm (with_lm (set_txn t x' (set_queue (w_rid w) (mkQueue lq up cv) (lm s))) s))
                 (delete t (waiting s))).
Proof.
  intros Hinv Hw Hp Hx Hst Hupd Hsets Hxr. set (s1 := mkSys _ _). set (r := w_rid w) in *.
  destruct (si_wait _ Hinv _ _ Hw) as (Hwt & (req & Hin & Ht & Hm & _) & _ & _).
  destruct (update_node_spec _ _ _ _ Hupd) as [Hnodes Hmem].
  assert ((w_node w, mkReq t (requested_mode (w_kind w)) true) ∈ lq) as Hnew.
  { apply Hmem. right. split; [done|]. exists req. split; [done|]. unfold grant. by rewrite Ht, Hm. }
  assert (∀ k q, (k, q) ∈ lq → txn_id_ q ≠ t → (k, q) ∈ requests (lm s) r) as Hoth.
  { intros k q [[_ ?]|[-> (q' & Hq' & ->)]]%Hmem Hne; [done|]. destruct Hne. simpl.
    by rewrite (node_unique _ _ _ _ (si_nodup _ Hinv r) Hq' Hin). }
  assert (changed s s1 t r lq x') as Hc.
  { split; simpl; try done.
    - intros r'. exact (requests_set_queue (lm s) r (mkQueue lq up cv) r').
    - intros u Hu. by rewrite lookup_delete_ne.
    - intros k q Hne. split; [intros; by apply Hoth|]. intros Hq. apply Hmem. left. split; [|done].
      intros ->. destruct Hne. by rewrite (node_unique _ _ _ _ (si_nodup _ Hinv r) Hq Hin).
    - split; [rewrite Hnodes; apply (si_nodup _ Hinv)|].
      intros k q [[_ Hq]|[-> (q' & Hq & _)]]%Hmem; by apply (si_node _ Hinv) in Hq.
    - intros y r' Hy. assert (y = x) as -> by congruence. apply Hsets.
    - intros r' Hne (w' & Hw' & _ & Hr). destruct Hne. unfold r. congruence. }
  apply (changed_inv _ _ _ _ _ _ Hinv Hc).
  - intros n1 n2 m m' u Hne H1 H2. apply Hoth in H2; [|done].
    pose proof (wait_pred_true w (lm s) x Hp) as Hb. rewrite Hwt in Hb.
    specialize (Hb Hx Hst _ _ H2). unfold blocks in Hb. simpl in Hb.
    rewrite (proj2 (Z.eqb_neq u t) Hne) in Hb. simpl in Hb. destruct (w_kind w) eqn:Hk; [|done..].
    apply bool_decide_eq_false in Hb. split; [|by destruct m'].
    apply Hmem in H1 as [[Hn1 H1]|[-> (q' & Hq' & Heq)]].
    + exact (proj1 (excl_old s t u r n1 n2 m m' Hinv Hne H1 H2)).
    + assert (q' = req) as -> by (by apply (node_unique _ _ _ _ (si_nodup _ Hinv r) Hq' Hin)).
      unfold grant in Heq. rewrite Hm in Heq. by injection Heq.
  - intros Hr. destruct (Hxr Hr) as [Hold|Hk].
    + destruct (si_x _ Hinv _ _ _ Hx Hold) as [n Hn]. exists n.
      apply Hmem. destruct (decide (n = w_node w)) as [->|]; [|by left]. right. split; [done|].
      exists (mkReq t EXCLUSIVE true). by split.
    + exists (w_node w). by destruct (w_kind w).
  - intros _. left. by eexists _, _.
  - intros w'. simpl. by rewrite lookup_delete_eq.
Qed.

(** Withdrawing the request of a blocked call whose transaction is aborted. *)
Lemma withdraw_inv s t w x x' lq up cv :
  sys_inv s → waiting s !! t = Some w → txns (lm s) !! t = Some x →
  erase_node (w_node w) (requests (lm s) (w_rid w)) = Ok lq →
  exclusive_lock_set_ x' = exclusive_lock_set_ x →
  shared_lock_set_ x' = (if decide (w_kind w = WUpgrade) then shared_lock_set_ x ∖ {[w_rid w]}
                         else shared_lock_set_ x) →
  sys_inv (mkSys (tm (with_lm (set_txn t x' (set_queue (w_rid w) (mkQueue lq up cv) (lm s))) s))
                 (delete t (waiting s))).
Proof.
  intros Hinv Hw Hx Hupd Hxx Hsx.
  destruct (si_wait _ Hinv _ _ Hw) as (_ & (req & Hun & Hreqt & _ & Hreqg) & _ & _). set (s1 := mkSys _ _). set (r := w_rid w) in *.
  destruct (erase_node_spec _ _ _ Hupd) as [Hnodes Hmem].
  assert (∀ n q, (n, q) ∈ requests (lm s) r → txn_id_ q ≠ t ∨ granted_ q = true → n ≠ w_node w) as Hne.
  { intros n q Hq Hor ->. rewrite (node_unique _ _ _ _ (si_nodup _ Hinv r) Hq Hun) in Hor. destruct Hor; congruence. }
  assert (changed s s1 t r lq x') as Hc.
  { split; simpl; try done.
    - intros r'. exact (requests_set_queue (lm s) r (mkQueue lq up cv) r').
    - intros u Hu. by rewrite lookup_delete_ne.
    - intros k q Hq. rewrite Hmem. split; [by intros [_ ?]|]. intros Hin. split; [|done].
      apply (Hne k q Hin). by left.
    - split; [by eapply sublist_NoDup; [apply (si_nodup _ Hinv r)|]|].
      intros k q [_ Hq]%Hmem. by apply (si_node _ Hinv) in Hq.
    - intros y r' Hy Hr'. assert (y = x) as -> by congruence. rewrite Hxx, Hsx. case_decide; set_solver.
    - intros r' Hr' (w' & Hw' & _ & Hr). destruct Hr'. unfold r. congruence. }
  apply (changed_inv _ _ _ _ _ _ Hinv Hc).
  - intros n1 n2 m1 m2 u Hu [_ H1]%Hmem [_ H2]%Hmem. by apply (excl_old s t u r n1 n2).
  - rewrite Hxx. intros Hr. destruct (si_x _ Hinv _ _ _ Hx Hr) as [n Hn]. exists n. apply Hmem.
    split; [|done]. apply (Hne n _ Hn). by right.
  - rewrite Hsx. intros Hr. left. case_decide as Hk; [set_solver|].
    destruct (si_s _ Hinv _ _ _ Hx Hr) as [(m' & n & Hn)|[(w' & Hw' & Hk' & _) _]]; [|congruence].
    exists m', n. apply Hmem. split; [|done]. apply (Hne n _ Hn). by right.
  - intros w'. simpl. by rewrite lookup_delete_eq.
Qed.

Lemma unlock_inv s t x x' r n req lq up cv :
  sys_inv s → waiting s !! t = None → txns (lm s) !! t = Some x →
  find_request t (requests (lm s) r) = Some (n, req) → erase_node n (requests (lm s) r) = Ok lq →
  shared_lock_set_ x' = shared_lock_set_ x ∖ {[r]} → exclusive_lock_set_ x' = exclusive_lock_set_ x ∖ {[r]} →
  sys_inv (with_lm (set_txn t x' (set_queue r (mkQueue lq up cv) (lm s))) s).
Proof.
  intros Hinv Hidle Hx Hfind Hupd Hsx Hxx. set (s1 := with_lm _ _).
  pose proof (find_request_spec t (requests (lm s) r)) as Hf. rewrite Hfind in Hf. destruct Hf as [Hin Ht].
  destruct (erase_node_spec _ _ _ Hupd) as [Hnodes Hmem].
  assert (changed s s1 t r lq x') as Hc.
  { split; simpl; try done.
    - intros r'. exact (requests_set_queue (lm s) r (mkQueue lq up cv) r').
    - intros k q Hq. rewrite Hmem. split; [by intros [_ ?]|]. intros Hk. split; [|done].
      intros ->. destruct Hq. by rewrite (node_unique _ _ _ _ (si_nodup _ Hinv r) Hk Hin).
    - split; [by eapply sublist_NoDup; [apply (si_nodup _ Hinv r)|]|].
      intros k q [_ Hq]%Hmem. by apply (si_node _ Hinv) in Hq.
    - intros y r' Hy Hr'. assert (y = x) as -> by congruence. rewrite Hxx, Hsx. set_solver. }
  apply (changed_inv _ _ _ _ _ _ Hinv Hc).
  - intros n1 n2 m1 m2 u Hu [_ H1]%Hmem [_ H2]%Hmem. by apply (excl_old s t u r n1 n2).
  - rewrite Hxx. set_solver.
  - rewrite Hsx. set_solver.
  - intros w Hw. simpl in Hw. congruence.
Qed.

(** ** Every call returns or blocks *)

Lemma update_node_ok n g (l : request_list) : n ∈ l.*1 → ∃ lq, update_node n g l = Ok lq.
Proof. intros Hn. unfold update_node. rewrite decide_True by done. by eexists. Qed.
Lemma erase_node_ok n (l : request_list) : n ∈ l.*1 → ∃ lq, erase_node n l = Ok lq.
Proof. intros Hn. unfold erase_node. rewrite decide_True by done. by eexists. Qed.

Lemma set_locks_same x : set_locks (shared_lock_set_ x) (exclusive_lock_set_ x) x = x.
Proof. by destruct x. Qed.

Lemma wait_pred_ok s t w : sys_inv s → waiting s !! t = Some w → ∃ b, wait_pred w (lm s) = Ok b.
Proof.
  intros Hinv Hw. destruct (si_wait _ Hinv _ _ Hw) as (Ht & _ & [x Hx] & _).
  unfold wait_pred, get_txn. rewrite Ht, Hx. simpl. case_decide; by eexists.
Qed.

Lemma set_txn_same l t x : txns l !! t = Some x → set_txn t x l = l.
Proof. intros Hx. unfold set_txn. rewrite insert_id by done. by destruct l. Qed.

(** A resumed call never finds its iterator dangling, and keeps the invariant. *)
Lemma wake_inv s t w :
  sys_inv s → waiting s !! t = Some w → wait_pred w (lm s) = Ok true →
  ∃ b l', wake w (lm s) = Ok (b, l') ∧ sys_inv (mkSys (tm (with_lm l' s)) (delete t (waiting s))).
Proof.
  intros Hinv Hw Hp. destruct (si_wait _ Hinv _ _ Hw) as (Hwt & (req & Hin & _) & [x Hx] & _).
  destruct (update_node_ok (w_node w) grant _ (node_in _ _ _ Hin)) as [lu Hu].
  destruct (erase_node_ok (w_node w) _ (node_in _ _ _ Hin)) as [le He].
  unfold wake. destruct (decide (state_ x = ABORTED)) as [Ha|Ha].
  - pose proof (λ x' up cv, withdraw_inv s t w x x' le up cv Hinv Hw Hx He) as Hinv'.
    destruct (w_kind w) eqn:Hk; unfold LockShared_wake, LockExclusive_wake, LockUpgrade_wake, get_txn;
      rewrite Hwt, Hx; simpl; rewrite decide_True by done; unfold requests in He; rewrite He; simpl;
      (eexists _, _; split; [reflexivity|]).
    + rewrite <- (set_txn_same (set_queue _ _ _) t x Hx). by apply Hinv'.
    + rewrite <- (set_txn_same (set_queue _ _ _) t x Hx). by apply Hinv'.
    + by apply Hinv'.
  - pose proof (λ x' up cv, grant_inv s t w x x' lu up cv Hinv Hw Hp Hx Ha Hu) as Hinv'.
    destruct (w_kind w) eqn:Hk; unfold LockShared_wake, LockExclusive_wake, LockUpgrade_wake, get_txn;
      rewrite Hwt, Hx; simpl; rewrite decide_False by done; unfold requests in Hu; rewrite Hu; simpl;
      (eexists _, _; split; [reflexivity|]); apply Hinv'; simpl; set_solver.
Qed.

(** Requests untouched: only the [upgrading_] flag and the sleepers, or an empty
    queue created by [lock_table_[rid]]. *)
Lemma same_requests_inv s l :
  sys_inv s → (∀ r, requests l r = requests (lm s) r) → txns l = txns (lm s) →
  next_node l = next_node (lm s) → sys_inv (with_lm l s).
Proof.
  intros Hinv Hreq Htx Hnn. destruct Hinv. unfold granted_in, wait_ok in *.
  split; unfold granted_in, wait_ok; change (lm (with_lm l s)) with l;
    try setoid_rewrite Hreq; rewrite ?Htx, ?Hnn; done.
Qed.

Lemma requests_touch l r b cv r' :
  requests (set_queue r (mkQueue (request_queue_ (get_queue r l)) b cv) l) r' = requests l r'.
Proof. rewrite requests_set_queue. case_decide; [by subst|done]. Qed.

(** The wait at the end of a call. *)
Lemma wait_on_inv s t w :
  waiting s !! t = None → sys_inv (mkSys (tm s) (<[t := w]> (waiting s))) →
  ∃ o l', wait_on w (lm s) = Ok (o, l') ∧
    sys_inv (mkSys (tm (with_lm l' s)) (after_call t o (waiting s))).
Proof.
  intros Hidle Hinv. set (s1 := mkSys _ _) in Hinv.
  assert (waiting s1 !! t = Some w) as Hw by apply lookup_insert_eq.
  destruct (wait_pred_ok _ _ _ Hinv Hw) as [b Hp]. unfold wait_on. change (lm s1) with (lm s) in Hp.
  rewrite Hp. simpl. destruct b.
  - destruct (wake_inv _ _ _ Hinv Hw Hp) as (b & l' & Hwake & Hinv'). change (lm s1) with (lm s) in Hwake.
    rewrite Hwake. simpl. eexists _, _. split; [reflexivity|]. simpl.
    simpl in Hinv'. by rewrite delete_insert_id in Hinv' by done.
  - eexists _, _. split; [reflexivity|]. apply (same_requests_inv _ (cv_wait w (lm s)) Hinv); [|done..].
    intros r. apply requests_touch.
Qed.

Lemma with_lm_same s : with_lm (lm s) s = s.
Proof. by destruct s as [[? ?] ?]. Qed.

Lemma set_state_inv s t x st :
  sys_inv s → txns (lm s) !! t = Some x → sys_inv (with_lm (set_txn t (SetState st x) (lm s)) s).
Proof. intros Hinv Hx. by eapply (only_txn_inv s _ t _ x Hinv Hx). Qed.

(** The guards the three lock operations share. *)
Lemma refused_inv s t x :
  sys_inv s → txns (lm s) !! t = Some x →
  sys_inv (mkSys (tm (with_lm (set_txn t (SetState ABORTED x) (lm s)) s)) (waiting s)) ∧
  sys_inv (mkSys (tm (with_lm (lm s) s)) (waiting s)).
Proof.
  intros Hinv Hx. split; [by apply (set_state_inv s t x ABORTED)|].
  destruct s as [[? ?] ?]. exact Hinv.
Qed.

Definition call_good (s : Sys) (t : Z) (m : res (outcome * LockManager)) : Prop :=
  ∃ o l', m = Ok (o, l') ∧ sys_inv (mkSys (tm (with_lm l' s)) (after_call t o (waiting s))).

Lemma call_return s t b l :
  sys_inv (mkSys (tm (with_lm l s)) (waiting s)) → call_good s t (Ok (Returned b, l)).
Proof. intros H. by eexists _, _. Qed.

Lemma push_wait_good s t r k x :
  sys_inv s → waiting s !! t = None → txns (lm s) !! t = Some x → k ≠ WUpgrade →
  call_good s t (let '(n, l1) := push_request r t (requested_mode k) (lm s) in wait_on (mkWait k t r n) l1).
Proof.
  intros Hinv Hidle Hx Hk. pose proof (push_inv s t r k x Hinv Hidle Hx Hk) as Hp.
  destruct (push_request _ _ _ _) as [n l1].
  destruct (wait_on_inv (with_lm l1 s) t (mkWait k t r n)) as (o & l' & Hw & Hinv'); [done|exact Hp|].
  exists o, l'. by split.
Qed.

Lemma LockShared_good s t r :
  sys_inv s → waiting s !! t = None → is_Some (txns (lm s) !! t) → call_good s t (LockShared t r (lm s)).
Proof.
  intros Hinv Hidle [x Hx]. destruct (refused_inv s t x Hinv Hx) as [H1 H2].
  unfold LockShared, get_txn. rewrite Hx. simpl.
  case_decide; [by apply call_return|]. case_decide; [by apply call_return|].
  case_match; [by apply call_return|]. by apply (push_wait_good s t r WShared x).
Qed.

Lemma LockExclusive_good s t r :
  sys_inv s → waiting s !! t = None → is_Some (txns (lm s) !! t) → call_good s t (LockExclusive t r (lm s)).
Proof.
  intros Hinv Hidle [x Hx]. destruct (refused_inv s t x Hinv Hx) as [H1 H2].
  unfold LockExclusive, get_txn. rewrite Hx. simpl.
  case_decide; [by apply call_return|]. case_decide; [by apply call_return|].
  case_match; [by apply call_return|]. by apply (push_wait_good s t r WExclusive x).
Qed.

Lemma LockUpgrade_good s t r :
  sys_inv s → waiting s !! t = None → is_Some (txns (lm s) !! t) → call_good s t (LockUpgrade t r (lm s)).
Proof.
  intros Hinv Hidle [x Hx]. destruct (refused_inv s t x Hinv Hx) as [H1 H2].
  unfold LockUpgrade, get_txn. rewrite Hx. simpl.
  case_decide; [by apply call_return|]. case_decide; [by apply call_return|].
  destruct (IsExclusiveLocked x r) eqn:Hxl; [by apply call_return|].
  case_match; [by apply call_return|]. apply bool_decide_eq_false in Hxl.
  destruct (upgrading_ _) eqn:Hup.
  { apply call_return. eapply (only_txn_inv s _ t (SetState ABORTED x) x Hinv Hx); try done.
    intros r'. etrans; [exact (requests_set_queue (lm s) r (get_queue r (lm s)) r')|].
    case_decide; [by subst|done]. }
  change (request_queue_ (get_queue r (lm s))) with (requests (lm s) r).
  destruct (find_request t _) as [[n req]|] eqn:Hfind.
  - pose proof (find_request_spec t (requests (lm s) r)) as Hf. rewrite Hfind in Hf. destruct Hf as [Hin _].
    destruct (update_node_ok n demote _ (node_in _ _ _ Hin)) as [lq Hlq]. rewrite Hlq. simpl.
    pose proof (demote_inv s t r x n req _ lq true (cv_ (get_queue r (lm s))) Hinv Hidle Hx Hxl Hfind Hlq eq_refl) as Hd.
    destruct (wait_on_inv (with_lm (set_queue r (mkQueue lq true (cv_ (get_queue r (lm s)))) (lm s)) s) t (mkWait WUpgrade t r n))
      as (o & l' & Hw & Hinv'); [done|exact Hd|]. exists o, l'. by split.
  - apply call_return. apply (same_requests_inv s); [done| |done|done]. intros r'. apply requests_touch.
Qed.

Lemma Unlock_good s t r :
  sys_inv s → waiting s !! t = None → is_Some (txns (lm s) !! t) →
  call_good s t (lock_exec (CallUnlock r) t (lm s)).
Proof.
  intros Hinv Hidle [x Hx]. destruct (refused_inv s t x Hinv Hx) as [_ H2].
  unfold lock_exec, Unlock. destruct (lock_table_ (lm s) !! r) as [q|] eqn:Hq; [|by apply call_return].
  assert (request_queue_ q = requests (lm s) r) as -> by (unfold requests, get_queue; by rewrite Hq).
  destruct (find_request t _) as [[n req]|] eqn:Hfind; [|by apply call_return].
  pose proof (find_request_spec t (requests (lm s) r)) as Hf. rewrite Hfind in Hf. destruct Hf as [Hin _].
  destruct (erase_node_ok n _ (node_in _ _ _ Hin)) as [lq Hlq]. rewrite Hlq. simpl.
  unfold get_txn. rewrite Hx. simpl. apply call_return.
  eapply (unlock_inv s t x _ r n req); done.
Qed.

Lemma lock_exec_good s c t :
  sys_inv s → waiting s !! t = None → is_Some (txns (lm s) !! t) → call_good s t (lock_exec c t (lm s)).
Proof.
  destruct c; simpl; [apply LockShared_good|apply LockExclusive_good|apply LockUpgrade_good|apply Unlock_good].
Qed.

(** [Commit] and [Abort]: what they do to the locks. *)
Lemma unlock_held s t x r l st :
  sys_inv s → txns (lm s) !! t = Some x → l = set_txn t (SetState st x) (lm s) →
  r ∈ shared_lock_set_ x ∪ exclusive_lock_set_ x →
  ∃ l' x', Unlock t r l = Ok (true, l') ∧ txns l' !! t = Some x' ∧
    r ∉ shared_lock_set_ x' ∧ r ∉ exclusive_lock_set_ x'.
Proof.
  intros Hinv Hx -> Hr.
  assert (∃ n req, (n, req) ∈ requests (lm s) r ∧ txn_id_ req = t) as (n & req & Hin & Ht).
  { apply elem_of_union in Hr as [Hr|Hr].
    - destruct (si_s _ Hinv _ _ _ Hx Hr) as [(m & n & Hn)|[_ Hreq]]; [by eexists n, _|done].
    - destruct (si_x _ Hinv _ _ _ Hx Hr) as [n Hn]. by eexists n, _. }
  unfold Unlock. change (lock_table_ (set_txn t (SetState st x) (lm s))) with (lock_table_ (lm s)).
  unfold requests, get_queue in Hin. destruct (lock_table_ (lm s) !! r) as [q|]; simpl in Hin; [|set_solver].
  pose proof (find_request_spec t (request_queue_ q)) as Hf.
  destruct (find_request t (request_queue_ q)) as [[n' req']|]; [|by destruct (Hf n req)].
  destruct (erase_node_ok n' _ (node_in _ _ _ (proj1 Hf))) as [lq ->]. simpl.
  unfold get_txn. simpl. rewrite lookup_insert_eq. simpl. eexists _, _. split; [reflexivity|].
  simpl. rewrite lookup_insert_eq. split; [reflexivity|]. simpl. set_solver.
Qed.

Lemma finish_cases s t x st :
  sys_inv s → txns (lm s) !! t = Some x →
  finish st t (lm s) = if decide (shared_lock_set_ x ∪ exclusive_lock_set_ x = ∅)
                       then Ok (set_txn t (SetState st x) (lm s)) else UB.
Proof.
  intros Hinv Hx. unfold finish, get_txn. rewrite Hx. simpl. set (l := set_txn t (SetState st x) (lm s)).
  pose proof (λ r, unlock_held s t x r l st Hinv Hx eq_refl) as Hun.
  assert (txns l !! t = Some (SetState st x)) as Hl by apply lookup_insert_eq.
  destruct (elements (shared_lock_set_ x)) as [|r rs] eqn:Hs; simpl.
  2:{ destruct (Hun r) as (l' & x' & -> & Hx' & Hr & _).
      { apply elem_of_union_l, elem_of_elements. rewrite Hs. set_solver. }
      simpl. unfold get_txn. rewrite Hx'. simpl. rewrite decide_False by done. simpl.
      rewrite decide_False; [done|]. intros He. assert (r ∈ elements (shared_lock_set_ x)) as Hin by (rewrite Hs; set_solver).
      apply elem_of_elements in Hin. set_solver. }
  rewrite lookup_insert_eq. simpl. destruct (elements (exclusive_lock_set_ x)) as [|r rs] eqn:Hxs; simpl.
  - rewrite lookup_insert_eq. simpl. apply elements_empty_inv in Hs, Hxs.
    assert (shared_lock_set_ x = ∅) as Es by set_solver. assert (exclusive_lock_set_ x = ∅) as Ex by set_solver.
    rewrite decide_True by set_solver. unfold l, set_txn. simpl. rewrite insert_insert_eq.
    unfold SetState, set_locks. simpl. by rewrite Es, Ex.
  - destruct (Hun r) as (l' & x' & -> & Hx' & _ & Hr).
    { apply elem_of_union_r, elem_of_elements. rewrite Hxs. set_solver. }
    simpl. unfold get_txn. rewrite Hx'. simpl. rewrite decide_False by done. simpl.
    rewrite decide_False; [done|]. intros He. assert (r ∈ elements (exclusive_lock_set_ x)) as Hin by (rewrite Hxs; set_solver).
    apply elem_of_elements in Hin. set_solver.
Qed.

Lemma begin_inv s iso tid tm' :
  sys_inv s → Begin iso (tm s) = (tid, tm') → sys_inv (mkSys tm' (waiting s)).
Proof.
  intros Hinv [= <- <-]. set (t := next_txn_id_ (tm s)).
  assert (txns (lm s) !! t = None) as Hfresh.
  { destruct (txns (lm s) !! t) eqn:E; [|done]. assert (t < t); [|lia]. apply (si_fresh _ Hinv). by eexists. }
  set (s' := mkSys _ _).
  assert (∀ u, is_Some (txns (lm s) !! u) → txns (lm s') !! u = txns (lm s) !! u) as Hold.
  { intros u [y Hy]. unfold lm; simpl. apply lookup_insert_ne. intros <-. unfold lm in *. congruence. }
  destruct Hinv. split; try done.
  - intros u [y Hy]. unfold lm in Hy; simpl in *. apply lookup_insert_Some in Hy as [[<- _]|[_ Hy]]; [lia|].
    assert (u < t); [|unfold t in *; lia]. apply si_fresh0. by eexists.
  - intros r n req Hin. rewrite Hold; by eapply si_owner0.
  - intros u w Hw. destruct (si_wait0 _ _ Hw) as (? & ? & Hu & ?). unfold wait_ok. by rewrite (Hold u Hu).
  - intros u y r Hu Hr. unfold lm in Hu; simpl in Hu. apply lookup_insert_Some in Hu as [[<- <-]|[_ Hu]]; [set_solver|].
    by eapply si_x0.
  - intros u y r Hu Hr. unfold lm in Hu; simpl in Hu. apply lookup_insert_Some in Hu as [[<- <-]|[_ Hu]]; [set_solver|].
    by eapply si_s0.
Qed.

Lemma Sys_new_inv : sys_inv Sys_new.
Proof.
  split; unfold granted_in, lm; simpl; intros *.
  - by intros [? ?].
  - intros H. by apply elem_of_nil in H.
  - apply NoDup_nil_2.
  - intros H. by apply elem_of_nil in H.
  - intros [n H]. by apply elem_of_nil in H.
  - by rewrite lookup_empty.
  - by rewrite lookup_empty.
  - by rewrite lookup_empty.
Qed.

Lemma sys_step_inv s s' : sys_inv s → sys_step s s' → sys_inv s'.
Proof.
  intros Hinv Hs.
  destruct Hs as [iso tid tm' s Hb|c t o l' s Hidle Hx He|t w b l' s Hw _ Hp Hwake|t w s _ _ _|t w s _ _|t x st s Hx|t st l' s Hf].
  - by apply (begin_inv s iso tid).
  - destruct (lock_exec_good s c t Hinv Hidle Hx) as (o1 & l1 & He1 & Hinv1).
    rewrite He in He1. by injection He1 as <- <-.
  - destruct (wake_inv s t w Hinv Hw Hp) as (b1 & l1 & He1 & Hinv1).
    rewrite Hwake in He1. by injection He1 as <- <-.
  - apply (same_requests_inv _ _ Hinv); [|done..]. intros r. apply requests_touch.
  - apply (same_requests_inv _ _ Hinv); [|done..]. intros r. apply requests_touch.
  - by apply set_state_inv.
  - destruct (txns (lm s) !! t) as [x|] eqn:Hx; [|unfold finish, get_txn in Hf; by rewrite Hx in Hf].
    rewrite (finish_cases s t x st Hinv Hx) in Hf. case_decide; [|done]. injection Hf as <-.
    by apply set_state_inv.
Qed.

Lemma reachable_inv s : reachable s → sys_inv s.
Proof.
  intros Hr. unfold reachable in Hr.
  assert (∀ s0, sys_inv s0 → rtc sys_step s0 s → sys_inv s) as H; [|by apply (H Sys_new Sys_new_inv)].
  clear Hr. intros s0 Hinv Hrt. induction Hrt as [|a b c Hab _ IH]; [done|]. apply IH. by apply (sys_step_inv a).
Qed.

(** ** Executing the system *)

Inductive command :=
  | DoBegin (iso : IsolationLevel)
  | DoCall (c : lock_call) (t : Z)
  | DoWake (t : Z)
  | DoState (t : Z) (st : TransactionState).

Definition sys_exec (c : command) (s : Sys) : option Sys :=
  match c with
  | DoBegin iso => Some (mkSys (Begin iso (tm s)).2 (waiting s))
  | DoCall c t =>
      match waiting s !! t, txns (lm s) !! t, lock_exec c t (lm s) with
      | None, Some _, Ok (o, l) => Some (mkSys (tm (with_lm l s)) (after_call t o (waiting s)))
      | _, _, _ => None
      end
  | DoWake t =>
      w ← waiting s !! t;
      match asleep w (lm s), wait_pred w (lm s), wake w (lm s) with
      | false, Ok true, Ok (_, l) => Some (mkSys (tm (with_lm l s)) (delete t (waiting s)))
      | false, Ok false, _ => Some (with_lm (cv_wait w (lm s)) s)
      | _, _, _ => None
      end
  | DoState t st => x ← txns (lm s) !! t; Some (with_lm (set_txn t (SetState st x) (lm s)) s)
  end.

Fixpoint sys_run (cs : list command) (s : Sys) : option Sys :=
  match cs with [] => Some s | c :: cs => s1 ← sys_exec c s; sys_run cs s1 end.

Lemma sys_exec_step c s s' : sys_exec c s = Some s' → sys_step s s'.
Proof.
  destruct c as [iso|c t|t|t st]; simpl.
  - intros [= <-]. by apply step_begin with iso (next_txn_id_ (tm s)).
  - destruct (waiting s !! t) eqn:Hw; [done|]. destruct (txns (lm s) !! t) eqn:Hx; [|done].
    destruct (lock_exec c t (lm s)) as [[o l]| | |] eqn:He; [|done..]. intros [= <-].
    by apply (step_call c t o l s).
  - destruct (waiting s !! t) as [w|] eqn:Hw; [|done]. simpl.
    destruct (asleep w (lm s)) eqn:Ha; [done|].
    destruct (wait_pred w (lm s)) as [[]| | |] eqn:Hp; [| |done..].
    + destruct (wake w (lm s)) as [[b l]| | |] eqn:Hk; [|done..]. intros [= <-]. by apply (step_wake t w b l s).
    + intros [= <-]. by apply (step_sleep t w s).
  - destruct (txns (lm s) !! t) as [x|] eqn:Hx; [|done]. intros [= <-]. by apply (step_set_state t x st s).
Qed.

Lemma sys_run_reachable cs s : sys_run cs Sys_new = Some s → reachable s.
Proof.
  unfold reachable. generalize Sys_new. induction cs as [|c cs IH]; intros s0; simpl; [by intros [= ->]|].
  destruct (sys_exec c s0) as [s1|] eqn:E; [|done]. intros Hr.
  apply rtc_l with s1; [by apply (sys_exec_step c)|by apply IH].
Qed.

(** A resumed call answers [false] exactly when its transaction is aborted. *)
Lemma wake_answer w l x b l' :
  txns l !! w_txn w = Some x → wake w l = Ok (b, l') → b = negb (bool_decide (state_ x = ABORTED)).
Proof.
  intros Hx. unfold wake.
  destruct (w_kind w); unfold LockShared_wake, LockExclusive_wake, LockUpgrade_wake, get_txn; rewrite Hx; simpl;
    case_decide as Ha; intros Hk; res_inv Hk;
    first [by rewrite bool_decide_eq_true_2|by rewrite bool_decide_eq_false_2].
Qed.

(** ** Properties *)

(** C28: what an exclusive lock excludes.  In every
    state the system can reach, if [t] holds [r] exclusively then no other
    transaction holds [r] exclusively, and another transaction holds it shared
    only while it is itself blocked in [LockUpgrade] on [r]. *)
Theorem exclusive_lock_excludes s t u x y r :
  reachable s → t ≠ u → txns (lm s) !! t = Some x → txns (lm s) !! u = Some y →
  IsExclusiveLocked x r = true →
  IsExclusiveLocked y r = false ∧ (IsSharedLocked y r = true → upgrading_on s u r).
Proof.
  intros Hr%reachable_inv Hne Hx Hy. unfold IsExclusiveLocked, IsSharedLocked.
  rewrite bool_decide_eq_true, bool_decide_eq_false, bool_decide_eq_true. intros Hl.
  apply (si_x _ Hr _ _ _ Hx) in Hl. split.
  - intros Hu%(si_x _ Hr _ _ _ Hy). apply Hne. by apply (si_excl _ Hr r t u EXCLUSIVE).
  - intros Hu. destruct (si_s _ Hr _ _ _ Hy Hu) as [[m Hm]|[? _]]; [|done].
    destruct Hne. by apply (si_excl _ Hr r t u m).
Qed.

(** C39: no call of the lock manager is undefined.  In every reachable state, a
    call for a transaction without a blocked call returns or blocks, and a
    blocked call whose predicate holds returns: the iterator it kept across the
    wait is never dangling. *)
Theorem lock_calls_defined s t x c :
  reachable s → txns (lm s) !! t = Some x →
  match waiting s !! t with
  | None => ∃ o l, lock_exec c t (lm s) = Ok (o, l)
  | Some w => ∃ ready, wait_pred w (lm s) = Ok ready ∧
      (ready = true → ∃ b l, wake w (lm s) = Ok (b, l) ∧ (b = true ↔ state_ x ≠ ABORTED))
  end.
Proof.
  intros Hr%reachable_inv Hx. destruct (waiting s !! t) as [w|] eqn:Hw.
  - destruct (wait_pred_ok s t w Hr Hw) as [ready Hp]. exists ready. split; [done|]. intros ->.
    destruct (wake_inv s t w Hr Hw Hp) as (b & l & Hwake & _). exists b, l. split; [done|].
    destruct (si_wait _ Hr _ _ Hw) as (Ht & _). rewrite (wake_answer w (lm s) x b l); [|by rewrite Ht|done].
    by rewrite negb_true_iff, bool_decide_eq_false.
  - destruct (lock_exec_good s c t Hr Hw) as (o & l & ? & _); [by eexists|]. by exists o, l.
Qed.

(** C40: two-phase locking.  A successful [Unlock] in the growing phase ends it;
    after that, or once aborted, every lock request is refused at once, aborts
    the transaction and leaves its locks as they are. *)
Theorem two_phase_locking l t x c r :
  txns l !! t = Some x →
  (state_ x = GROWING → ∀ l', Unlock t r l = Ok (true, l') →
     ∃ y, txns l' !! t = Some y ∧ state_ y = SHRINKING ∧
       shared_lock_set_ y = shared_lock_set_ x ∖ {[r]} ∧
       exclusive_lock_set_ y = exclusive_lock_set_ x ∖ {[r]}) ∧
  (state_ x = SHRINKING ∨ state_ x = ABORTED → (∀ r', c ≠ CallUnlock r') →
     lock_exec c t l = Ok (Returned false, set_txn t (SetState ABORTED x) l)).
Proof.
  intros Hx. split.
  - intros Hst l' Hu. unfold Unlock in Hu. res_inv Hu. unfold get_txn in *. simplify_map_eq.
    eexists. split; [reflexivity|]. by split_and!.
  - intros Hst Hc.
    assert (∀ P : Prop, ∀ d : Decision (state_ x = SHRINKING), state_ x ≠ SHRINKING →
            set_txn t (SetState ABORTED x) l = l) as Hsame.
    { intros _ _ Hn. destruct Hst as [?|Ha]; [done|]. apply set_txn_same. rewrite Hx. f_equal.
      destruct x; simpl in *. by subst. }
    destruct c as [q|q|q|q]; [| | |by destruct (Hc q)];
      unfold lock_exec, LockShared, LockExclusive, LockUpgrade, get_txn; rewrite Hx; simpl;
      (case_decide as Hs; [done|]); rewrite decide_True by naive_solver; by rewrite (Hsame True _ Hs).
Qed.

(** [Commit] and [Abort] release nothing.  In every reachable state, a
    transaction that holds a lock is committed or aborted by code whose behaviour
    is undefined (the loop over the lock set increments an iterator that [Unlock]
    erased); only a transaction without locks gets its final state. *)
Lemma finish_needs_no_locks s t x st :
  reachable s → txns (lm s) !! t = Some x →
  finish st t (lm s) = if decide (shared_lock_set_ x ∪ exclusive_lock_set_ x = ∅)
                       then Ok (set_txn t (SetState st x) (lm s)) else UB.
Proof. intros Hr%reachable_inv Hx. by apply finish_cases. Qed.

(** ** Runs of the code *)

Definition r0 : RID := mkRID 1 0.

(** Transactions 0 and 1 share the lock, 2 waits to write; 0 starts an upgrade,
    1 unlocks, and 2 is the first to wake up. *)
Definition upgrade_run : list command :=
  [DoBegin REPEATABLE_READ; DoBegin REPEATABLE_READ; DoBegin REPEATABLE_READ;
   DoCall (CallShared r0) 0; DoCall (CallShared r0) 1; DoCall (CallExclusive r0) 2;
   DoCall (CallUpgrade r0) 0; DoCall (CallUnlock r0) 1; DoWake 2].

Definition run_state (cs : list command) : Sys := default Sys_new (sys_run cs Sys_new).
Definition locked (f : Transaction → RID → bool) (t : Z) (s : Sys) : bool :=
  match txns (lm s) !! t with Some x => f x r0 | None => false end.

Definition state_of (t : Z) (s : Sys) : option TransactionState := state_ <$> txns (lm s) !! t.

(** An upgrade gives up its shared lock while it waits.  A reachable state
    has a growing transaction with a shared lock on a record that another
    transaction holds exclusively: the first is blocked in [LockUpgrade], and the
    record it has read may change before it gets the lock it already had. *)
Theorem upgrade_loses_the_shared_lock :
  ∃ s, reachable s ∧ locked IsSharedLocked 0 s = true ∧ locked IsExclusiveLocked 2 s = true ∧
    state_of 0 s = Some GROWING ∧ state_of 2 s = Some GROWING.
Proof.
  exists (run_state upgrade_run). split; [apply (sys_run_reachable upgrade_run)|split_and!]; vm_compute; reflexivity.
Qed.

(** [LockShared] then [LockExclusive] by one transaction, released by one
    [Unlock], which is all that the lock sets ask for. *)
Definition leak_run : list command :=
  [DoBegin REPEATABLE_READ; DoBegin REPEATABLE_READ; DoCall (CallShared r0) 0; DoCall (CallExclusive r0) 0;
   DoCall (CallUnlock r0) 0; DoCall (CallShared r0) 1].

(** An exclusive lock taken on top of a shared one is never released.  After
    the [Unlock] that empties both lock sets the exclusive request stays granted,
    and another transaction's request blocks on it. *)
Theorem shared_then_exclusive_leaks :
  ∃ s, reachable s ∧ locked IsSharedLocked 0 s = false ∧ locked IsExclusiveLocked 0 s = false ∧
    granted_in (lm s) 0 r0 EXCLUSIVE ∧ is_Some (waiting s !! 1).
Proof.
  exists (run_state leak_run). split; [apply (sys_run_reachable leak_run); vm_compute; reflexivity|].
  split_and!; [vm_compute; reflexivity..| |].
  - exists 1. apply (list_elem_of_lookup_2 _ 0%nat). vm_compute. reflexivity.
  - eexists. vm_compute. reflexivity.
Qed.

(** ** Witnesses *)

Definition held_run : list command :=
  [DoBegin REPEATABLE_READ; DoBegin REPEATABLE_READ; DoCall (CallExclusive r0) 0; DoCall (CallShared r0) 1].
Definition held : Sys := run_state held_run.
Definition txn_in (s : Sys) (t : Z) : Transaction :=
  default (Transaction_new REPEATABLE_READ) (txns (lm s) !! t).

Lemma held_reachable : reachable held.
Proof. apply (sys_run_reachable held_run). vm_compute. reflexivity. Qed.

Lemma exclusive_lock_excludes_witness : IsExclusiveLocked (txn_in held 1) r0 = false.
Proof.
  apply (exclusive_lock_excludes held 0 1 (txn_in held 0) (txn_in held 1) r0 held_reachable);
    [discriminate|vm_compute; reflexivity..].
Defined.

Lemma lock_calls_defined_witness : ∃ o l, lock_exec (CallUnlock r0) 0 (lm held) = Ok (o, l).
Proof.
  exact (lock_calls_defined held 0 (txn_in held 0) (CallUnlock r0) held_reachable eq_refl).
Defined.

Lemma two_phase_locking_witness :
  let l := match Unlock 0 r0 (lm held) with Ok (_, l) => l | _ => lm held end in
  ∃ y, txns l !! 0 = Some y ∧ state_ y = SHRINKING.
Proof.
  destruct (two_phase_locking (lm held) 0 (txn_in held 0) (CallUnlock r0) r0) as [H _];
    [vm_compute; reflexivity|].
  destruct (H eq_refl _ eq_refl) as (y & Hy & Hst & _). exists y. split; [exact Hy|exact Hst].
Defined.

Lemma finish_needs_no_locks_witness : finish COMMITTED 0 (lm held) = UB.
Proof.
  rewrite (finish_needs_no_locks held 0 (txn_in held 0) COMMITTED held_reachable) by (vm_compute; reflexivity).
  rewrite decide_False; [reflexivity|]. intros H. apply (f_equal (λ X, bool_decide (r0 ∈ X))) in H.
  vm_compute in H. discriminate.
Defined.
