(* ===== verification/LockLiveness.v ===== *)
(** * A blocked lock request is served

    Liveness of the lock manager ([lock_manager.cpp]): a request waits only for the
    requests granted before it, and the [notify_all] of [Unlock] reaches it.  No
    spurious wake-up is used: a call that sleeps goes on only after a [notify_all].
    Nothing is said of runs in which new requests keep coming: the queue is not
    served in order, and a later shared request may pass a waiting exclusive one. *)

From S2P Require Import Prelude Common Lock.

(** [P] holds after at most [n] steps of any run, and the run does not stop before. *)
Fixpoint within {S} (step : S → S → Prop) (P : S → Prop) (n : nat) (s : S) : Prop :=
  P s ∨ match n with O => False | Datatypes.S n => (∃ s', step s s') ∧ ∀ s', step s s' → within step P n s' end.

Lemma within_measure {S} (step : S → S → Prop) (P J : S → Prop) (size : S → nat) :
  (∀ s, J s → ∃ s', step s s') →
  (∀ s s', J s → step s s' → P s' ∨ (J s' ∧ (size s' < size s)%nat)) →
  ∀ n s, J s → (size s < n)%nat → within step P n s.
Proof.
  intros Hgo Hstep n. induction n as [|n IH]; intros s Hj Hn; [lia|]. right. split; [by apply Hgo|].
  intros s' Hs. destruct (Hstep s s' Hj Hs) as [Hp|[Hj' Hlt]].
  - destruct n; by left.
  - apply IH; [done|lia].
Qed.

(** The steps of the transactions at [r], when none makes a new request: a
    transaction unlocks, and a call that is awake tests its predicate. *)
Inductive release_step (r : RID) : Sys → Sys → Prop :=
  | release_unlock u l s :
      waiting s !! u = None → Unlock u r (lm s) = Ok (true, l) → release_step r s (mkSys (tm (with_lm l s)) (waiting s))
  | release_wake u w b l s :
      waiting s !! u = Some w → w_rid w = r → asleep w (lm s) = false →
      wait_pred w (lm s) = Ok true → wake w (lm s) = Ok (b, l) →
      release_step r s (mkSys (tm (with_lm l s)) (delete u (waiting s)))
  | release_sleep u w s :
      waiting s !! u = Some w → w_rid w = r → asleep w (lm s) = false → wait_pred w (lm s) = Ok false →
      release_step r s (with_lm (cv_wait w (lm s)) s).

(** The blocked call returned: with the lock, unless its transaction is aborted. *)
Definition served (t : Z) (w : Wait) (s : Sys) : Prop :=
  waiting s !! t = None ∧ ∃ x, txns (lm s) !! t = Some x ∧
    (state_ x = ABORTED ∨
     match w_kind w with WShared => IsSharedLocked x (w_rid w) | _ => IsExclusiveLocked x (w_rid w) end = true).

Lemma Unlock_requests u r l l' : Unlock u r l = Ok (true, l') →
  is_Some (txns l !! u) ∧ ∃ n req, (n, req) ∈ requests l r ∧ txn_id_ req = u ∧ erase_node n (requests l r) = Ok (requests l' r).
Proof.
  unfold Unlock, requests, get_queue. destruct (lock_table_ l !! r) as [q|] eqn:Eq; [|done].
  pose proof (find_request_spec u (request_queue_ q)) as Hf. destruct (find_request u (request_queue_ q)) as [[n req]|]; [|done].
  destruct (erase_node n _) as [lq| | |] eqn:He; try done. unfold get_txn. simpl.
  destruct (txns l !! u) as [x|]; [|done]. simpl. intros [= <-]. split; [by eexists|]. exists n, req.
  simpl. rewrite lookup_insert_eq. by destruct Hf.
Qed.

Lemma Unlock_ok u r l n req : is_Some (txns l !! u) → (n, req) ∈ requests l r → txn_id_ req = u → ∃ l', Unlock u r l = Ok (true, l').
Proof.
  intros [x Hx] Hin Hu. unfold Unlock. unfold requests, get_queue in Hin.
  destruct (lock_table_ l !! r) as [q|]; simpl in Hin; [|set_solver].
  pose proof (find_request_spec u (request_queue_ q)) as Hf.
  destruct (find_request u (request_queue_ q)) as [[n' req']|]; [|by destruct (Hf n req)].
  destruct (erase_node_ok n' _ (node_in _ _ _ (proj1 Hf))) as [lq ->]. simpl. unfold get_txn. rewrite Hx. by eexists.
Qed.

Lemma get_queue_touched r q l t x : get_queue r (set_queue r q l) = q ∧ get_queue r (set_txn t x (set_queue r q l)) = q.
Proof. unfold get_queue. simpl. by rewrite !lookup_insert_eq. Qed.

Lemma get_queue_set_queue r q l r' : get_queue r' (set_queue r q l) = if decide (r' = r) then q else get_queue r' l.
Proof. unfold get_queue. simpl. case_decide as E; [subst; by rewrite lookup_insert_eq|by rewrite lookup_insert_ne]. Qed.

Lemma get_queue_set_txn t x l r : get_queue r (set_txn t x l) = get_queue r l.
Proof. done. Qed.

(** ** No sleeper is forgotten

    A call that sleeps has a granted request in front of it, whose [Unlock] will
    call [notify_all]. *)

(** The request that keeps [w] asleep.  For an exclusive request it may be one of
    its own transaction, since [LockUpgrade] takes a grant back without
    [notify_all] (see [upgrade_forgets_a_sleeper]). *)
Definition held_up (w : Wait) (l : LockManager) : Prop :=
  ∃ n req, (n, req) ∈ requests l (w_rid w) ∧ granted_ req = true ∧
    (w_kind w = WShared → lock_mode_ req = EXCLUSIVE ∧ txn_id_ req ≠ w_txn w).

Definition no_lost_wakeup (s : Sys) : Prop :=
  ∀ t w, waiting s !! t = Some w → asleep w (lm s) = true → held_up w (lm s).

(** A change of the lock manager that leaves the sleepers of the transactions
    other than [t] asleep only where they are still held up. *)
Definition keeps_others (t : Z) (l l' : LockManager) : Prop :=
  ∀ w, w_txn w ≠ t → asleep w l' = true → asleep w l = true ∧ (held_up w l → held_up w l').

Lemma keeps_others_trans t l1 l2 l3 : keeps_others t l1 l2 → keeps_others t l2 l3 → keeps_others t l1 l3.
Proof. intros H1 H2 w Ht H3. destruct (H2 w Ht H3) as [H4 H5]. destruct (H1 w Ht H4). auto. Qed.

(** The queue of [r] gets the requests [lq] and the sleepers [cv]. *)
Lemma keeps_queue t l l' r lq up cv :
  (∀ r', get_queue r' l' = if decide (r' = r) then mkQueue lq up cv else get_queue r' l) →
  cv ⊆ {[t]} ∪ cv_ (get_queue r l) →
  (∀ w, w_rid w = r → w_txn w ≠ t → w_txn w ∈ cv → held_up w l →
     ∃ n req, (n, req) ∈ lq ∧ granted_ req = true ∧ (w_kind w = WShared → lock_mode_ req = EXCLUSIVE ∧ txn_id_ req ≠ w_txn w)) →
  keeps_others t l l'.
Proof.
  intros Hq Hcv Hheld w Ht. unfold asleep. rewrite Hq, !bool_decide_eq_true. intros Hw.
  assert (w_rid w ≠ r ∨ w_rid w = r ∧ w_txn w ∈ cv) as [E|[E Hin]] by (case_decide; naive_solver).
  - rewrite decide_False in Hw by done. split; [done|]. unfold held_up, requests. by rewrite Hq, decide_False.
  - split; [rewrite E; set_solver|]. intros Hup. unfold held_up, requests. rewrite Hq, decide_True by done. by apply Hheld.
Qed.

Lemma wait_pred_false w l : wait_pred w l = Ok false →
  ∃ n req, (n, req) ∈ requests l (w_rid w) ∧ blocks (w_kind w) (w_txn w) req = true.
Proof.
  unfold wait_pred. destruct (get_txn _ _) as [y| | |]; try done. simpl. case_decide; [done|]. intros [= Hp].
  unfold requests. induction (request_queue_ _) as [|[n req] q IH]; [done|]. simpl in Hp.
  destruct (blocks _ _ req) eqn:E; [exists n, req; by split; [left|]|].
  destruct (IH Hp) as (k & z & ? & ?). exists k, z. by split; [right|].
Qed.

Lemma blocks_inv k t req : blocks k t req = true →
  txn_id_ req ≠ t ∧ granted_ req = true ∧ (k = WShared → lock_mode_ req = EXCLUSIVE).
Proof.
  unfold blocks. rewrite !andb_true_iff, negb_true_iff, Z.eqb_neq. intros [[? ?] Hk]. split_and!; [done..|].
  intros ->. by apply bool_decide_eq_true in Hk.
Qed.

Lemma blocked_held_up w l : wait_pred w l = Ok false → held_up w l.
Proof. intros (n & req & Hin & (? & ? & ?)%blocks_inv)%wait_pred_false. exists n, req. naive_solver. Qed.

Lemma granted_kept n l lq k req : update_node n grant l = Ok lq → (k, req) ∈ l → granted_ req = true → (k, req) ∈ lq.
Proof.
  intros [_ Hm]%update_node_spec Hin Hg. apply Hm. destruct (decide (k = n)) as [->|]; [right|by left].
  split; [done|]. exists req. split; [done|]. destruct req; simpl in *; by subst.
Qed.

Lemma wake_keeps w l b l' : wake w l = Ok (b, l') → keeps_others (w_txn w) l l'.
Proof.
  unfold wake, LockShared_wake, LockExclusive_wake, LockUpgrade_wake. intros Hk.
  assert (∃ lq up, (∀ r', get_queue r' l' = if decide (r' = w_rid w) then mkQueue lq up ∅ else get_queue r' l) ∨
    update_node (w_node w) grant (requests l (w_rid w)) = Ok lq ∧
    ∀ r', get_queue r' l' = if decide (r' = w_rid w) then mkQueue lq up (cv_ (get_queue (w_rid w) l)) else get_queue r' l)
    as (lq & up & [Hq|[Hu Hq]]).
  { destruct (w_kind w); res_inv Hk; simplify_eq; rewrite ?get_queue_set_txn;
      (eexists _, _; first [left; intros r'; apply get_queue_set_queue|right; split; [eassumption|]; intros r'; apply get_queue_set_queue]). }
  - apply (keeps_queue _ _ _ _ _ _ _ Hq); set_solver.
  - apply (keeps_queue _ _ _ _ _ _ _ Hq); [set_solver|]. intros w' Hr _ _ (n & req & Hin & Hg & Hs).
    exists n, req. split; [|done]. rewrite Hr in Hin. by eapply granted_kept.
Qed.

Lemma cv_wait_keeps w l : keeps_others (w_txn w) l (cv_wait w l).
Proof.
  eapply (keeps_queue _ _ _ (w_rid w)); [intros r'; apply get_queue_set_queue|set_solver|].
  intros w' Hr _ _ (n & req & Hin & ?). exists n, req. by rewrite Hr in Hin.
Qed.

Lemma held_up_cv_wait w w' l : held_up w (cv_wait w' l) ↔ held_up w l.
Proof. unfold held_up, cv_wait, set_sleepers. by rewrite requests_touch. Qed.

Lemma wait_on_keeps w l o l' : wait_on w l = Ok (o, l') →
  keeps_others (w_txn w) l l' ∧ ∀ w', o = Blocked w' → w' = w ∧ held_up w l'.
Proof.
  unfold wait_on. destruct (wait_pred w l) as [[]| | |] eqn:Hp; simpl; try done.
  - destruct (wake w l) as [[b l1]| | |] eqn:Hk; simpl; try done. intros [= <- <-].
    split; [by eapply wake_keeps|done].
  - intros [= <- <-]. split; [apply cv_wait_keeps|]. intros w' [= <-]. split; [done|].
    by apply held_up_cv_wait, blocked_held_up.
Qed.

Lemma push_keeps t l r m : keeps_others t l (push_request r t m l).2.
Proof.
  eapply (keeps_queue _ _ _ r); [intros r'; apply (get_queue_set_queue r _ l r')|set_solver|].
  intros w Hr _ _ (n & req & Hin & ?). exists n, req. rewrite elem_of_app. rewrite Hr in Hin. naive_solver.
Qed.

(** An upgrade takes a granted request back, and grants it again unless another
    transaction has a granted request. *)
Lemma upgrade_keeps s t r n req lq o l' :
  sys_inv s → find_request t (requests (lm s) r) = Some (n, req) → update_node n demote (requests (lm s) r) = Ok lq →
  wait_on (mkWait WUpgrade t r n) (set_queue r (mkQueue lq true (cv_ (get_queue r (lm s)))) (lm s)) = Ok (o, l') →
  keeps_others t (lm s) l'.
Proof.
  intros Hinv Hf [_ Hm]%update_node_spec Hw. pose proof (find_request_spec t (requests (lm s) r)) as Hft. rewrite Hf in Hft.
  destruct Hft as [Hin Ht]. set (l1 := set_queue _ _ _) in *.
  assert (requests l1 r = lq) as Hr1 by (unfold l1; by rewrite requests_set_queue, decide_True).
  assert (∀ q, (n, q) ∈ requests (lm s) r → q = req) as Hun by (intros; by eapply (node_unique n); [apply (si_nodup _ Hinv r)|..]).
  intros w Hne Ha. destruct (wait_on_keeps _ _ _ _ Hw) as [Hk _]. destruct (Hk w Hne Ha) as [Ha1 _].
  assert (asleep w (lm s) = true) as Has.
  { unfold asleep in *. unfold l1 in Ha1. rewrite get_queue_set_queue in Ha1. case_decide as E; [by rewrite E|done]. }
  split; [done|]. intros (k & q & Hq & Hg & Hs).
  destruct (decide (w_rid w = r ∧ k = n)) as [[E ->]|Hno]; cycle 1.
  { apply Hk; [done..|]. exists k, q. split; [|done]. unfold l1. rewrite requests_set_queue. case_decide as E; [|done].
    apply Hm. left. rewrite <- E. naive_solver. }
  rewrite E in Hq. rewrite (Hun _ Hq) in Hg, Hs. clear q Hq. destruct (wait_pred (mkWait WUpgrade t r n) l1) as [[]| | |] eqn:Hp.
  - unfold wait_on in Hw. rewrite Hp in Hw. simpl in Hw. destruct (wake _ l1) as [[b l2]| | |] eqn:Hk2; [|done..].
    injection Hw as _ ->. unfold wake, LockUpgrade_wake in Hk2. simpl in Hk2. res_inv Hk2.
    + exfalso. unfold asleep in Ha. rewrite get_queue_set_txn, get_queue_set_queue, decide_True in Ha by done.
      apply bool_decide_eq_true in Ha. set_solver.
    + exists n, (mkReq (txn_id_ req) EXCLUSIVE true). rewrite requests_set_txn, requests_set_queue, decide_True by done.
      split; [|naive_solver]. eapply update_node_spec; [eassumption|]. right. split; [done|].
      exists (demote req). split; [|done]. change ((n, demote req) ∈ requests l1 (w_rid w)). rewrite Hr1. apply Hm. naive_solver.
  - destruct (wait_pred_false _ _ Hp) as (k & q & Hq & (Hqt & Hqg & _)%blocks_inv). simpl in Hq, Hqt.
    rewrite Hr1 in Hq. apply Hm in Hq as [[_ Hq]|(_ & q' & _ & ->)]; [|done].
    apply Hk; [done..|]. exists k, q. rewrite E, Hr1. split; [apply Hm; left; split; [|done]|split; [done|]].
    + intros ->. by rewrite (Hun _ Hq) in Hqt.
    + intros Hsh. destruct (Hs Hsh) as [Hx _]. destruct Hqt. symmetry. rewrite <- Ht.
      apply (si_excl _ Hinv r (txn_id_ req) (txn_id_ q) (lock_mode_ q)); [exists n; rewrite <- Hx, <- Hg; by destruct req|exists k; rewrite <- Hqg; by destruct q].
  - unfold wait_on in Hw. by rewrite Hp in Hw.
  - unfold wait_on in Hw. by rewrite Hp in Hw.
  - unfold wait_on in Hw. by rewrite Hp in Hw.
Qed.

Lemma keeps_same t l l' r up :
  (∀ r', get_queue r' l' = if decide (r' = r) then mkQueue (requests l r) up (cv_ (get_queue r l)) else get_queue r' l) →
  keeps_others t l l'.
Proof. intros Hq. apply (keeps_queue _ _ _ _ _ _ _ Hq); [set_solver|]. intros w Hr _ _ (n & req & Hin & ?). exists n, req. by rewrite Hr in Hin. Qed.

Lemma keeps_refl t l : keeps_others t l l.
Proof. by intros w. Qed.

(** A call leaves the sleepers of the other transactions held up, and blocks only
    where it is held up itself. *)
Definition call_keeps (t : Z) (l : LockManager) (m : res (outcome * LockManager)) : Prop :=
  ∀ o l', m = Ok (o, l') → keeps_others t l l' ∧ ∀ w, o = Blocked w → held_up w l'.

Lemma returned_keeps t l b l1 : keeps_others t l l1 → call_keeps t l (Ok (Returned b, l1)).
Proof. by intros Hk o l' [= <- <-]. Qed.

Lemma wait_keeps t l l1 w : keeps_others t l l1 → w_txn w = t → call_keeps t l (wait_on w l1).
Proof.
  intros Hk <- o l' Hw. destruct (wait_on_keeps _ _ _ _ Hw) as [Hk' Hb]. split; [by eapply keeps_others_trans|].
  intros w' Ho. by destruct (Hb w' Ho) as [-> ?].
Qed.

Lemma lock_exec_keeps s c t : sys_inv s → call_keeps t (lm s) (lock_exec c t (lm s)).
Proof.
  intros Hinv. pose proof (λ r m, push_keeps t (lm s) r m) as Hpush.
  destruct c as [r|r|r|r]; simpl; unfold LockShared, LockExclusive, LockUpgrade, Unlock, get_txn.
  1-3: destruct (txns (lm s) !! t) as [x|]; [simpl|done];
    repeat (case_decide; [by apply returned_keeps|]); (case_match; [by apply returned_keeps|]).
  - apply (wait_keeps _ _ (push_request r t SHARED (lm s)).2); [apply Hpush|done].
  - apply (wait_keeps _ _ (push_request r t EXCLUSIVE (lm s)).2); [apply Hpush|done].
  - case_match; [by apply returned_keeps|]. destruct (upgrading_ _) eqn:Hup.
    { apply returned_keeps, (keeps_same _ _ _ r true). intros r'. rewrite get_queue_set_txn, get_queue_set_queue.
      case_decide; [|done]. rewrite <- Hup. unfold requests. by destruct (get_queue r (lm s)). }
    change (request_queue_ (get_queue r (lm s))) with (requests (lm s) r).
    destruct (find_request t _) as [[n req]|] eqn:Hfind.
    + destruct (update_node n demote _) as [lq| | |] eqn:Hlq; [|done..]. intros o l' Hw. simpl in Hw.
      split; [by eapply (upgrade_keeps s t r n)|]. intros w Ho. destruct (wait_on_keeps _ _ _ _ Hw) as [_ Hb].
      by destruct (Hb w Ho) as [-> ?].
    + apply returned_keeps, (keeps_same _ _ _ r false). intros r'. apply get_queue_set_queue.
  - destruct (lock_table_ (lm s) !! r) as [q|]; [|by apply returned_keeps].
    destruct (find_request t _) as [[n req]|]; [|by apply returned_keeps]. destruct (erase_node n _) as [lq| | |]; [|done..]. simpl.
    destruct (txns (lm s) !! t) as [x|]; [|done]. simpl. apply returned_keeps.
    eapply (keeps_queue _ _ _ r); [intros r'; rewrite get_queue_set_txn; apply get_queue_set_queue|set_solver..].
Qed.

(** Seen by the calls of the system: [t] has none blocked, or is [w]. *)
Lemma keeps_no_lost s s' t :
  sys_inv s → no_lost_wakeup s → keeps_others t (lm s) (lm s') → (∀ u, u ≠ t → waiting s' !! u = waiting s !! u) →
  (∀ w, waiting s' !! t = Some w → asleep w (lm s') = true → held_up w (lm s')) → no_lost_wakeup s'.
Proof.
  intros Hinv Hn Hk Hw Ht u w Hu Ha. destruct (decide (u = t)) as [->|Hne]; [by apply Ht|].
  rewrite Hw in Hu by done. destruct (si_wait _ Hinv _ _ Hu) as [Hwu _].
  destruct (Hk w ltac:(congruence) Ha) as [Ha' Hup]. apply Hup. by apply (Hn u).
Qed.

Lemma step_no_lost s s' : sys_inv s → no_lost_wakeup s → sys_step s s' → no_lost_wakeup s'.
Proof.
  intros Hinv Hn Hs. destruct Hs as [iso tid tm' s Hb|c t o l' s Hidle Hx He|t w b l' s Hw _ Hp Hwake|t w s Hw _ Hp|t w s Hw _|t x st s Hx|t st l' s Hf].
  - injection Hb as <- <-. exact Hn.
  - destruct (lock_exec_keeps s c t Hinv o l' He) as [Hk Hb]. apply (keeps_no_lost s _ t Hinv Hn); [exact Hk|..].
    + intros u Hu. destruct o; [done|]. simpl. by rewrite lookup_insert_ne.
    + intros w. destruct o as [|w']; simpl; [congruence|]. rewrite lookup_insert_eq. intros [= ->] _. by apply Hb.
  - destruct (si_wait _ Hinv _ _ Hw) as [Ht _]. pose proof (wake_keeps _ _ _ _ Hwake) as Hk. rewrite Ht in Hk.
    apply (keeps_no_lost s _ t Hinv Hn); [exact Hk|intros u Hu; simpl; by rewrite lookup_delete_ne|].
    intros w'. simpl. by rewrite lookup_delete_eq.
  - destruct (si_wait _ Hinv _ _ Hw) as [Ht _]. pose proof (cv_wait_keeps w (lm s)) as Hk. rewrite Ht in Hk.
    apply (keeps_no_lost s _ t Hinv Hn); [exact Hk|done|]. intros w'. simpl. rewrite Hw. intros [= <-] _.
    by apply held_up_cv_wait, blocked_held_up.
  - intros u w' Hu Ha. assert (asleep w' (lm s) = true) as Ha'.
    { change (lm (with_lm ?l s)) with l in Ha. unfold asleep, spurious_wakeup in *. rewrite bool_decide_eq_true in *.
      rewrite get_queue_set_queue in Ha.
      case_decide as E; [rewrite E; set_solver|done]. }
    destruct (Hn u w' Hu Ha') as (n & req & Hin & ?). exists n, req. split; [|done].
    change (lm (with_lm ?l s)) with l. unfold spurious_wakeup, set_sleepers. by rewrite requests_touch.
  - exact Hn.
  - destruct (txns (lm s) !! t) as [x|] eqn:Hx; [|unfold finish, get_txn in Hf; by rewrite Hx in Hf].
    rewrite (finish_cases s t x st Hinv Hx) in Hf. case_decide; [|done]. injection Hf as <-. exact Hn.
Qed.

Lemma reachable_no_lost s : reachable s → no_lost_wakeup s.
Proof.
  unfold reachable. assert (no_lost_wakeup Sys_new) as H0 by (intros t w; simpl; by rewrite lookup_empty).
  pose proof Sys_new_inv as Hi. revert H0 Hi. generalize Sys_new. intros s0 H0 Hi Hr.
  induction Hr as [|a b c Hab _ IH]; [done|]. apply IH; [by eapply step_no_lost|by eapply sys_step_inv].
Qed.

(** What a resumed call does to the queue and to the locks. *)
Lemma wake_effect w l b l' x : txns l !! w_txn w = Some x → wake w l = Ok (b, l') →
  (if decide (state_ x = ABORTED) then erase_node (w_node w) (requests l (w_rid w))
   else update_node (w_node w) grant (requests l (w_rid w))) = Ok (requests l' (w_rid w)) ∧
  ∃ x', txns l' !! w_txn w = Some x' ∧ state_ x' = state_ x ∧
    (state_ x ≠ ABORTED → w_rid w ∈ match w_kind w with WShared => shared_lock_set_ x' | _ => exclusive_lock_set_ x' end).
Proof.
  intros Hx. unfold wake, requests.
  destruct (w_kind w); unfold LockShared_wake, LockExclusive_wake, LockUpgrade_wake, get_txn; rewrite Hx; simpl;
    case_decide as Ha; intros Hk; res_inv Hk; simplify_eq; (split; [by rewrite ?(proj1 (get_queue_touched _ _ _ 0 x)), ?(proj2 (get_queue_touched _ _ _ _ _))|]); simpl;
    rewrite ?lookup_insert_eq; (eexists; split; [first [reflexivity|exact Hx]|]; split; [done|]; intros ?; first [done|simpl; set_solver]).
Qed.

(** ** The steps left *)

Definition cost (req : LockRequest) : nat := if granted_ req then 1 else 2.
Definition weight (l : request_list) : nat := sum_list ((λ x : Z * LockRequest, cost x.2) <$> l).

Lemma cost_range req : (1 ≤ cost req ≤ 2)%nat.
Proof. unfold cost. destruct (granted_ req); lia. Qed.
Lemma weight_cons x l : weight (x :: l) = (cost x.2 + weight l)%nat.
Proof. done. Qed.

Lemma weight_bound l : (weight l ≤ 2 * length l)%nat.
Proof. induction l as [|x l IH]; [done|]. rewrite weight_cons. simpl. pose proof (cost_range x.2). lia. Qed.

Lemma weight_erase n l l' : erase_node n l = Ok l' → (weight l' < weight l)%nat.
Proof.
  unfold erase_node. case_decide as Hn; [|done]. intros [= <-].
  assert (∀ l : request_list, (weight (filter (λ x, x.1 ≠ n) l) ≤ weight l)%nat) as Hle.
  { intros k. induction k as [|x k IH]; [done|]. rewrite filter_cons. case_decide; rewrite !weight_cons; lia. }
  induction l as [|x l IH]; [set_solver|]. pose proof (cost_range x.2). rewrite filter_cons.
  case_decide as E; rewrite !weight_cons.
  - simpl in Hn. apply elem_of_cons in Hn as [Hn|Hn]; [done|]. specialize (IH Hn). lia.
  - specialize (Hle l). lia.
Qed.

Lemma weight_grant n l l' req : update_node n grant l = Ok l' → (n, req) ∈ l → granted_ req = false → (weight l' < weight l)%nat.
Proof.
  unfold update_node. case_decide as Hn; [|done]. clear Hn. intros [= <-] Hin Hg.
  set (f := λ x : Z * LockRequest, if decide (x.1 = n) then (x.1, grant x.2) else x).
  assert (∀ x, (cost (f x).2 ≤ cost x.2)%nat) as Hf.
  { intros x. unfold f. case_decide; [|done]. simpl. pose proof (cost_range x.2). unfold cost at 1. simpl. lia. }
  assert (∀ k : request_list, (weight (f <$> k) ≤ weight k)%nat) as Hle.
  { intros k. induction k as [|x k IH]; [done|]. rewrite fmap_cons, !weight_cons. specialize (Hf x). lia. }
  induction l as [|x l IH]; [set_solver|]. rewrite fmap_cons, !weight_cons. apply elem_of_cons in Hin as [<-|Hin].
  - specialize (Hle l). assert (cost (f (n, req)).2 = 1%nat) as -> by (unfold f; simpl; by rewrite decide_True).
    unfold cost. simpl. rewrite Hg. lia.
  - specialize (IH Hin). specialize (Hf x). lia.
Qed.

(** The blocked calls at [r], and those of them that are awake. *)
Definition calls_at (r : RID) (s : Sys) : nat := size (filter (λ x : Z * Wait, w_rid x.2 = r) (waiting s)).
Definition awake_at (r : RID) (s : Sys) : nat :=
  size (filter (λ x : Z * Wait, w_rid x.2 = r ∧ asleep x.2 (lm s) = false) (waiting s)).

Lemma awake_calls r s : (awake_at r s ≤ calls_at r s)%nat.
Proof. apply map_subseteq_size, map_filter_subseteq_ext. naive_solver. Qed.

Lemma calls_delete r u s l : (calls_at r (mkSys l (delete u (waiting s))) ≤ calls_at r s)%nat.
Proof. unfold calls_at. simpl. apply map_subseteq_size, map_filter_subseteq_mono, delete_subseteq. Qed.

(** A call that sleeps again is awake no more; the others stay as they are. *)
Lemma awake_sleep u w s : sys_inv s → waiting s !! u = Some w → asleep w (lm s) = false →
  (awake_at (w_rid w) (with_lm (cv_wait w (lm s)) s) < awake_at (w_rid w) s)%nat.
Proof.
  intros Hinv Hw Ha. unfold awake_at. simpl. set (m := filter _ _). set (m' := filter _ (waiting s)).
  assert (m' !! u = Some w) as Hu by (by apply map_lookup_filter_Some_2).
  assert (m ⊆ delete u m') as Hsub.
  { apply map_subseteq_spec. intros v w' [Hv [Hr Hna]]%map_lookup_filter_Some. simpl in Hr, Hna.
    change (lm (with_lm ?l s)) with l in Hna. unfold asleep, cv_wait in Hna. rewrite get_queue_set_queue, Hr, decide_True in Hna by done.
    apply bool_decide_eq_false in Hna. simpl in Hna.
    assert (u ≠ v) as Hne.
    { intros ->. destruct (si_wait _ Hinv _ _ Hw) as [Ht _], (si_wait _ Hinv _ _ Hv) as [Ht' _]. set_solver. }
    rewrite lookup_delete_ne by done. apply map_lookup_filter_Some_2; [done|]. split; [done|]. simpl.
    unfold asleep. rewrite Hr. apply bool_decide_eq_false. set_solver. }
  apply map_subseteq_size in Hsub. rewrite map_size_delete, Hu in Hsub.
  assert (size m' ≠ 0%nat) by (apply map_size_ne_0_lookup; by exists u, w). lia.
Qed.

(** [t] is blocked in [w], and no transaction that holds the record is blocked itself. *)
Record awaiting (t : Z) (w : Wait) (k : nat) (s : Sys) : Prop := {
  aw_reach : reachable s;
  aw_wait : waiting s !! t = Some w;
  aw_free : ∀ n req, (n, req) ∈ requests (lm s) (w_rid w) → granted_ req = true → waiting s !! txn_id_ req = None;
  aw_calls : (calls_at (w_rid w) s ≤ k)%nat
}.

Lemma awaiting_moves t w k s : awaiting t w k s → ∃ s', release_step (w_rid w) s s'.
Proof.
  intros [Hr Hw Hfree _]. pose proof (reachable_inv _ Hr) as Hinv. destruct (asleep w (lm s)) eqn:Ha.
  - destruct (reachable_no_lost s Hr t w Hw Ha) as (n & req & Hin & Hg & _).
    destruct (Unlock_ok (txn_id_ req) (w_rid w) (lm s) n req (si_owner _ Hinv _ _ _ Hin) Hin eq_refl) as [l Hl].
    eexists. eapply release_unlock; [by eapply Hfree|exact Hl].
  - destruct (wait_pred_ok s t w Hinv Hw) as [[] Hp].
    + destruct (wake_inv s t w Hinv Hw Hp) as (b & l & Hk & _). eexists. by eapply release_wake.
    + eexists. by eapply release_sleep.
Qed.

Lemma release_step_reachable r s s' : reachable s → release_step r s s' → reachable s'.
Proof.
  intros Hr Hs. eapply rtc_r; [exact Hr|]. destruct Hs as [u l s Hu Hl|u w b l s Hw _ Ha Hp Hk|u w s Hw _ Ha Hp].
  - apply (step_call (CallUnlock r) u (Returned true) l s); [done|by apply Unlock_requests in Hl as [? _]|]. simpl. by rewrite Hl.
  - by apply (step_wake u w b l s).
  - by apply (step_sleep u w s).
Qed.

(** The steps left: the requests first, then the calls that are awake. *)
Definition steps_left (r : RID) (k : nat) (s : Sys) : nat := (weight (requests (lm s) r) * (k + 1) + awake_at r s)%nat.

Lemma steps_left_requests r k s s' : (weight (requests (lm s') r) < weight (requests (lm s) r))%nat →
  (calls_at r s' ≤ k)%nat → (steps_left r k s' < steps_left r k s)%nat.
Proof. intros Hw Hk. unfold steps_left. pose proof (awake_calls r s'). nia. Qed.

(** A resumed call of another transaction. *)
Lemma awaiting_wake t w k u w0 b l s :
  awaiting t w k s → waiting s !! u = Some w0 → w_rid w0 = w_rid w → u ≠ t → wake w0 (lm s) = Ok (b, l) →
  let s' := mkSys (tm (with_lm l s)) (delete u (waiting s)) in
  reachable s' → awaiting t w k s' ∧ (weight (requests (lm s') (w_rid w)) < weight (requests (lm s) (w_rid w)))%nat.
Proof.
  intros [Hr Hw Hfree Hk] Hw0 Hr0 Hne Hwk s' Hr'. pose proof (reachable_inv _ Hr) as Hinv.
  destruct (si_wait _ Hinv _ _ Hw0) as (Ht0 & (req & Hin & Htx & _ & Hg) & [x Hx] & _). rewrite <- Ht0 in Hx.
  destruct (wake_effect _ _ _ _ _ Hx Hwk) as (Hq & _). rewrite Hr0 in Hq, Hin.
  split; [split|]; [done|by simpl; rewrite lookup_delete_ne| | |].
  - intros n q Hn Hgr. simpl. destruct (decide (txn_id_ q = u)) as [->|Hqu]; [apply lookup_delete_eq|].
    rewrite lookup_delete_ne by done. change (lm s') with l in Hn. case_decide.
    + apply (erase_node_spec _ _ _ Hq) in Hn as [_ Hn]. by eapply Hfree.
    + apply (update_node_spec _ _ _ _ Hq) in Hn as [[_ Hn]|(-> & q0 & Hq0 & ->)]; [by eapply Hfree|].
      destruct Hqu. simpl. rewrite (node_unique _ q0 req _ (si_nodup _ Hinv _) Hq0 Hin). done.
  - etrans; [apply calls_delete|done].
  - change (lm s') with l. case_decide; [by eapply weight_erase|by eapply weight_grant].
Qed.

(** A step brings the answer, or leaves fewer steps. *)
Lemma awaiting_step t w k s s' : awaiting t w k s → release_step (w_rid w) s s' →
  served t w s' ∨ (awaiting t w k s' ∧ (steps_left (w_rid w) k s' < steps_left (w_rid w) k s)%nat).
Proof.
  intros Haw Hs. pose proof Haw as [Hr Hw Hfree Hk]. pose proof (release_step_reachable _ _ _ Hr Hs) as Hr'.
  pose proof (reachable_inv _ Hr) as Hinv. inversion Hs as [u l s0 Hu Hl|u w0 b l s0 Hw0 Hr0 Ha Hp Hwk|u w0 s0 Hw0 Hr0 Ha Hp]; subst s0 s'.
  - right. apply Unlock_requests in Hl as (_ & n & req & Hin & Htx & He). split.
    + split; [done|exact Hw| |exact Hk]. intros n' q Hn. apply Hfree with n'. by apply (erase_node_spec _ _ _ He) in Hn as [_ ?].
    + apply steps_left_requests; [by eapply weight_erase|exact Hk].
  - destruct (decide (u = t)) as [->|Hne].
    + left. rewrite Hw in Hw0. injection Hw0 as <-. destruct (si_wait _ Hinv _ _ Hw) as (Ht & _ & [x Hx] & _).
      rewrite <- Ht in Hx. destruct (wake_effect _ _ _ _ _ Hx Hwk) as (_ & x' & Hx' & Hst & Hlock). rewrite Ht in Hx'.
      split; [apply lookup_delete_eq|]. exists x'. split; [exact Hx'|].
      destruct (decide (state_ x = ABORTED)) as [Hab|Hab]; [left; by rewrite Hst|right].
      specialize (Hlock Hab). unfold IsSharedLocked, IsExclusiveLocked. destruct (w_kind w); by apply bool_decide_eq_true.
    + right. destruct (awaiting_wake t w k u w0 b l s Haw Hw0 Hr0 Hne Hwk Hr') as [Haw' Hlt].
      split; [done|]. apply steps_left_requests; [done|]. by destruct Haw'.
  - right. assert (∀ r, requests (lm (with_lm (cv_wait w0 (lm s)) s)) r = requests (lm s) r) as Hq by (intros; apply requests_touch).
    split.
    + split; [done|exact Hw| |exact Hk]. intros n q. rewrite Hq. apply Hfree.
    + unfold steps_left. rewrite Hq. pose proof (awake_sleep u w0 s Hinv Hw0 Ha) as Hlt. rewrite Hr0 in Hlt. lia.
Qed.

(** C38: a blocked request is served.  In every reachable state, if no transaction that
    holds a lock on the record is itself blocked, and from now on the transactions at
    that record only unlock, and the calls blocked there test their predicates when a
    [notify_all] has woken them (no spurious wake-up is needed), in any order, then the
    blocked call returns within (2 requests + 1) * (blocked calls + 1) steps, and no run
    stops before; it returns with the lock, or because its transaction is aborted. *)
Theorem blocked_request_served s t w :
  reachable s → waiting s !! t = Some w →
  (∀ n req, (n, req) ∈ requests (lm s) (w_rid w) → granted_ req = true → waiting s !! txn_id_ req = None) →
  within (release_step (w_rid w)) (served t w)
    ((2 * length (requests (lm s) (w_rid w)) + 1) * (calls_at (w_rid w) s + 1)) s.
Proof.
  intros Hr Hw Hfree. set (k := calls_at (w_rid w) s).
  apply (within_measure _ _ (awaiting t w k) (steps_left (w_rid w) k)).
  - apply awaiting_moves.
  - apply awaiting_step.
  - by split.
  - unfold steps_left. pose proof (weight_bound (requests (lm s) (w_rid w))).
    pose proof (awake_calls (w_rid w) s). fold k in H0. nia.
Qed.

(** Two transactions share the record; the third waits to write. *)
Definition sharing_run : list command :=
  [DoBegin REPEATABLE_READ; DoBegin REPEATABLE_READ; DoBegin REPEATABLE_READ; DoCall (CallShared r0) 0; DoCall (CallShared r0) 1;
   DoCall (CallExclusive r0) 2].
Definition sharing : Sys := run_state sharing_run.
Definition writer : Wait := default (mkWait WShared 0 r0 0) (waiting sharing !! 2).

Lemma blocked_request_served_witness :
  w_kind writer = WExclusive ∧ asleep writer (lm sharing) = true ∧ within (release_step r0) (served 2 writer) 14 sharing.
Proof.
  split_and!; [reflexivity..|]. apply (blocked_request_served sharing 2 writer).
  - apply (sys_run_reachable sharing_run). vm_compute. reflexivity.
  - reflexivity.
  - intros n req Hin Hg. change (w_rid writer) with r0 in Hin.
    assert (requests (lm sharing) r0 = [(0, mkReq 0 SHARED true); (1, mkReq 1 SHARED true); (2, mkReq 2 EXCLUSIVE false)]) as E
      by (vm_compute; reflexivity).
    rewrite E in Hin. repeat (apply elem_of_cons in Hin as [[= -> ->]|Hin]; [first [reflexivity|discriminate Hg]|]).
    destruct (not_elem_of_nil _ Hin).
Defined.

(** ** Sleepers that nobody wakes *)

(** All calls at [r] sleep, and every transaction with a request there is blocked. *)
Lemma all_asleep_stuck r s :
  (∀ u w, waiting s !! u = Some w → w_rid w = r → asleep w (lm s) = true) →
  (∀ n req, (n, req) ∈ requests (lm s) r → is_Some (waiting s !! txn_id_ req)) → ∀ s', ¬ release_step r s s'.
Proof.
  intros Ha Hq s' Hs. destruct Hs as [u l s Hu Hl|u w b l s Hw Hr Hna|u w s Hw Hr Hna].
  - apply Unlock_requests in Hl as (_ & n & req & Hin & Htx & _). destruct (Hq n req Hin) as [w Hw]. congruence.
  - by rewrite (Ha _ _ Hw Hr) in Hna.
  - by rewrite (Ha _ _ Hw Hr) in Hna.
Qed.

(** Two transactions share the record; one asks to write, then the other asks for an
    upgrade, which takes its grant back. *)
Definition forgotten_run : list command :=
  [DoBegin REPEATABLE_READ; DoBegin REPEATABLE_READ; DoCall (CallShared r0) 0; DoCall (CallShared r0) 1;
   DoCall (CallExclusive r0) 0; DoCall (CallUpgrade r0) 1].
Definition forgotten : Sys := run_state forgotten_run.
Definition forgotten_call : Wait := default (mkWait WShared 0 r0 0) (waiting forgotten !! 0).

(** [LockUpgrade] notifies nobody when it takes its grant back: the predicate of the
    other call is true now, but both calls sleep, and neither transaction can unlock. *)
Lemma upgrade_forgets_a_sleeper :
  reachable forgotten ∧ waiting forgotten !! 0 = Some forgotten_call ∧ wait_pred forgotten_call (lm forgotten) = Ok true ∧
  asleep forgotten_call (lm forgotten) = true ∧ ∀ s', ¬ release_step r0 forgotten s'.
Proof.
  split; [apply (sys_run_reachable forgotten_run); vm_compute; reflexivity|]. split_and!; [vm_compute; reflexivity..|].
  assert (waiting forgotten = <[0 := forgotten_call]> {[1 := mkWait WUpgrade 1 r0 1]}) as Ew by (vm_compute; reflexivity).
  assert (∀ u w, waiting forgotten !! u = Some w → asleep w (lm forgotten) = true) as Ha.
  { intros u w. rewrite Ew. intros [[_ <-]|[_ [_ <-]%lookup_singleton_Some]]%lookup_insert_Some; vm_compute; reflexivity. }
  apply all_asleep_stuck; [intros u w Hu _; by apply (Ha u)|]. intros n req Hin.
  assert (requests (lm forgotten) r0 = [(0, mkReq 0 SHARED true); (1, mkReq 1 EXCLUSIVE false); (2, mkReq 0 EXCLUSIVE false)]) as E
    by (vm_compute; reflexivity).
  rewrite E in Hin. rewrite Ew. repeat (apply elem_of_cons in Hin as [[= -> ->]|Hin]; [by eexists|]). destruct (not_elem_of_nil _ Hin).
Qed.

(** A waiting transaction whose state is set to [ABORTED] is not notified either. *)
Lemma abort_wakes_nobody :
  let s := run_state (sharing_run ++ [DoState 2 ABORTED]) in
  reachable s ∧ wait_pred writer (lm s) = Ok true ∧ asleep writer (lm s) = true.
Proof.
  split; [apply (sys_run_reachable (sharing_run ++ [DoState 2 ABORTED]))|split]; vm_compute; reflexivity.
Qed.
