(* ===== verification/PageLogic.v ===== *)
(** * A program logic for the clients of the page interface

    A triple [triple n g c Q] says that the stateful code [c], run in a state
    related to the ghost state [g] with a budget of [n] more page calls, returns a
    value and leaves a ghost state that satisfy [Q]: it neither throws, nor is
    undefined, nor runs out of fuel.  The page calls of [PageIO] get one rule each,
    over the abstract store of pages. *)

From S2P Require Import Prelude PageStore PageIO.

Section Triple.
Context {G S : Type} (R : Z → G → S → Prop).
Context (R_weaken : ∀ k k' g s, k' ≤ k → R k g s → R k' g s).

Definition triple {A} (n : Z) (g : G) (c : ST S A) (Q : A → G → Prop) : Prop :=
  ∀ k s, 0 ≤ k → R (k + n) g s → ∃ x s' g', c s = (Ok x, s') ∧ Q x g' ∧ R k g' s'.

Lemma triple_ret {A} (x : A) n g (Q : A → G → Prop) : 0 ≤ n → Q x g → triple n g (mret x) Q.
Proof.
  intros Hn HQ k s Hk HR. exists x, s, g. split; [done|]. split; [done|].
  apply (R_weaken (k + n)); [lia|done].
Qed.

Lemma triple_mono {A} n n' g (c : ST S A) (Q Q' : A → G → Prop) :
  triple n g c Q → n ≤ n' → (∀ x g', Q x g' → Q' x g') → triple n' g c Q'.
Proof.
  intros Hc Hn HQ k s Hk HR. destruct (Hc k s Hk) as (x & s' & g' & H1 & H2 & H3).
  { apply (R_weaken (k + n')); [lia|done]. }
  exists x, s', g'. auto.
Qed.

Lemma triple_bind {A B} n1 n2 g (c : ST S A) (f : A → ST S B) (Q1 : A → G → Prop) (Q2 : B → G → Prop) :
  0 ≤ n2 → triple n1 g c Q1 → (∀ x g', Q1 x g' → triple n2 g' (f x) Q2) →
  triple (n1 + n2) g (c ≫= f) Q2.
Proof.
  intros Hn Hc Hf k s Hk HR.
  destruct (Hc (k + n2) s) as (x & s1 & g1 & H1 & HQ1 & HR1).
  { lia. }
  { by replace (k + n2 + n1) with (k + (n1 + n2)) by lia. }
  destruct (Hf x g1 HQ1 k s1 Hk HR1) as (y & s2 & g2 & H2 & HQ2 & HR2).
  exists y, s2, g2. split; [|done]. by rewrite (st_bind_ok _ _ _ _ _ H1).
Qed.

(** Code that does not touch the state. *)
Lemma triple_lift {A} n g (r : res A) x (Q : A → G → Prop) :
  r = Ok x → 0 ≤ n → Q x g → triple n g (st_lift r) Q.
Proof. intros -> Hn HQ. by apply (triple_ret x). Qed.

Lemma triple_bind_lift {A B} n g (r : res A) (f : A → ST S B) x (Q : B → G → Prop) :
  r = Ok x → triple n g (f x) Q → triple n g (st_lift r ≫= f) Q.
Proof.
  intros -> Hf k s Hk HR. destruct (Hf k s Hk HR) as (y & s' & g' & H). by exists y, s', g'.
Qed.
End Triple.

(** ** The rules of the page calls *)

Definition distinct_frames (P : gmap Z (Z * Z)) : Prop :=
  ∀ p q f i j, P !! p = Some (i, f) → P !! q = Some (j, f) → p = q.
Definition frames_of (P : gmap Z (Z * Z)) : list Z := (λ x, x.2.2) <$> map_to_list P.

Lemma not_in_frames P f p j : f ∉ frames_of P → P !! p ≠ Some (j, f).
Proof.
  intros Hf Hp. apply Hf. unfold frames_of. apply list_elem_of_fmap. exists (p, (j, f)).
  split; [done|]. by apply elem_of_map_to_list.
Qed.

Lemma distinct_insert P p j f :
  distinct_frames P → f ∉ frames_of P → distinct_frames (<[p := (j, f)]> P).
Proof.
  intros HP Hf a b g i1 i2. rewrite !lookup_insert_Some.
  intros [[-> [= <- <-]]|[Ha H1]] [[-> [= <-]]|[Hb H2]]; [done| | |by eapply HP].
  - by destruct (not_in_frames P f b i2 Hf).
  - subst g. by destruct (not_in_frames P f a i1 Hf).
Qed.
Lemma distinct_delete P p : distinct_frames P → distinct_frames (delete p P).
Proof. intros HP a b g i1 i2 [_ H1]%lookup_delete_Some [_ H2]%lookup_delete_Some. by eapply HP. Qed.
Lemma distinct_empty : distinct_frames ∅.
Proof. intros a b g i1 i2 H. by rewrite lookup_empty in H. Qed.

Section Rules.
Context {D S : Type} `{PIO : !PageIO D S}.
Implicit Types (m : gmap Z D) (P : gmap Z (Z * Z)) (T : gset Z).

Abbreviation page_triple := (triple (S := S) io_rel).
Definition room P : Prop := Z.of_nat (size P) < io_frames.

Lemma full_room m P T nid : room P → ¬ full io_frames (mkStore m P T nid).
Proof. unfold room, full. simpl. lia. Qed.

Lemma new_rule m P T nid : room P →
  page_triple 1 (mkStore m P T nid) io_new (λ o a', ∃ f, o = Some (nid, f) ∧ f ∉ frames_of P ∧ m !! nid = None ∧
    a' = mkStore (<[nid := io_zero]> m) (<[nid := (1, f)]> P) ({[nid]} ∪ T) (nid + 1)).
Proof.
  intros Hroom k s Hk HR. destruct (io_new_law k _ s Hk HR) as (o & s' & a' & H1 & Hst & HR').
  exists o, s', a'. split; [done|]. split; [|done].
  inversion Hst; subst; simpl in *; [by eexists|by destruct (full_room m P T nid Hroom)].
Qed.

Lemma fetch_rule m P T nid p : is_Some (m !! p) → P !! p = None → room P →
  page_triple 1 (mkStore m P T nid) (io_fetch p) (λ o a', ∃ f, o = Some f ∧ f ∉ frames_of P ∧
    a' = mkStore m (<[p := (1, f)]> P) T nid).
Proof.
  intros Hp HPp Hroom k s Hk HR. destruct (io_fetch_law k _ s p Hk HR Hp) as (o & s' & a' & H1 & Hst & HR').
  exists o, s', a'. split; [done|]. split; [|done].
  inversion Hst; subst; simpl in *; [congruence|by eexists|by destruct (full_room m P T nid Hroom)].
Qed.

Lemma fetch_pinned_rule m P T nid p j f : is_Some (m !! p) → P !! p = Some (j, f) →
  page_triple 1 (mkStore m P T nid) (io_fetch p) (λ o a', o = Some f ∧
    a' = mkStore m (<[p := (j + 1, f)]> P) T nid).
Proof.
  intros Hp HPp k s Hk HR. destruct (io_fetch_law k _ s p Hk HR Hp) as (o & s' & a' & H1 & Hst & HR').
  exists o, s', a'. split; [done|]. split; [|done].
  inversion Hst; subst; simpl in *; simplify_map_eq; done.
Qed.

Lemma read_rule m P T nid p j f d : m !! p = Some d → P !! p = Some (j, f) → distinct_frames P →
  page_triple 1 (mkStore m P T nid) (io_read f) (λ x a', x = d ∧ a' = mkStore m P T nid).
Proof.
  intros Hp HPp Hdis k s Hk HR. destruct (io_read_law k _ s f Hk HR) as (x & s' & a' & H1 & Hst & HR').
  { by exists p, j. }
  exists x, s', a'. split; [done|]. split; [|done].
  inversion Hst as [| | | | | | | | | | |f' q i y Hq Hy|]; subst; simpl in *.
  assert (q = p) as -> by by eapply Hdis. split; congruence.
Qed.

Lemma write_rule m P T nid p j f d g : m !! p = Some d → P !! p = Some (j, f) → distinct_frames P →
  page_triple 1 (mkStore m P T nid) (io_write f g)
    (λ _ a', a' = mkStore (<[p := g d]> m) P ({[p]} ∪ T) nid).
Proof.
  intros Hp HPp Hdis k s Hk HR. destruct (io_write_law k _ s f g Hk HR) as (s' & a' & H1 & Hst & HR').
  { by exists p, j. }
  exists tt, s', a'. split; [done|]. split; [|done].
  inversion Hst as [| | | | | | | | | | | |f' q i y g' Hq Hy]; subst; simpl in *.
  assert (q = p) as -> by by eapply Hdis. by simplify_eq.
Qed.

(** The last unpin of a page, marked dirty if the page was modified. *)
Lemma unpin_rule m P T nid p f (b : bool) : P !! p = Some (1, f) → (b = true ∨ p ∉ T) →
  page_triple 1 (mkStore m P T nid) (io_unpin p b)
    (λ r a', r = true ∧ a' = mkStore m (delete p P) (T ∖ {[p]}) nid).
Proof.
  intros HPp Hb k s Hk HR. destruct (io_unpin_law k _ s p b Hk HR) as (r & s' & a' & H1 & Hst & HR').
  { intros g _ ->. simpl. by destruct Hb. }
  exists r, s', a'. split; [done|]. split; [|done].
  inversion Hst; subst; simpl in *; simplify_map_eq. split; [done|]. f_equal.
  destruct b; [done|]. destruct Hb as [?|Hb]; [done|]. apply set_eq. set_solver.
Qed.

Lemma unpin_shared_rule m P T nid p j f (b : bool) : P !! p = Some (j, f) → 1 < j →
  page_triple 1 (mkStore m P T nid) (io_unpin p b)
    (λ r a', r = true ∧ a' = mkStore m (<[p := (j - 1, f)]> P) (if b then T ∖ {[p]} else T) nid).
Proof.
  intros HPp Hj k s Hk HR. destruct (io_unpin_law k _ s p b Hk HR) as (r & s' & a' & H1 & Hst & HR').
  { intros g Hg _. simpl in Hg. simplify_eq. lia. }
  exists r, s', a'. split; [done|]. split; [|done].
  inversion Hst; subst; simpl in *; simplify_map_eq. by rewrite decide_False by lia.
Qed.

Lemma delete_rule m P T nid p : P !! p = None →
  page_triple 1 (mkStore m P T nid) (io_delete p) (λ r a', r = true ∧ a' = mkStore (delete p m) P T nid).
Proof.
  intros HPp k s Hk HR. destruct (io_delete_law k _ s p Hk HR) as (r & s' & a' & H1 & Hst & HR').
  exists r, s', a'. split; [done|]. split; [|done].
  inversion Hst as [| | | | | | | | |p' Hs|p' Hs| |]; subst; simpl in *; [|done].
  rewrite HPp in Hs. by destruct Hs.
Qed.

(** One page call, then the rest with one call less. *)
Lemma step_rule {A B} n a (c : ST S A) (f : A → ST S B) (Q1 : A → Store D → Prop) (Q : B → Store D → Prop) :
  page_triple 1 a c Q1 → 1 ≤ n → (∀ x a', Q1 x a' → page_triple (n - 1) a' (f x) Q) →
  page_triple n a (c ≫= f) Q.
Proof.
  intros Hc Hn Hf. replace n with (1 + (n - 1)) by lia.
  by apply (triple_bind io_rel 1 (n - 1) a c f Q1 Q); [lia| |].
Qed.

Definition bind_rule {A B} := triple_bind (A := A) (B := B) (S := S) io_rel.
Definition ret_rule {A} := triple_ret (A := A) (S := S) io_rel io_weaken.
Definition mono_rule {A} := triple_mono (A := A) (S := S) io_rel io_weaken.

(** A store in which no page is pinned, nor waits to be marked dirty. *)
Definition idle (m : gmap Z D) (nid : Z) : Store D := mkStore m ∅ ∅ nid.

(** Fetch a page, read it, unpin it. *)
Lemma pin_rule m nid p d : m !! p = Some d → 1 ≤ io_frames →
  page_triple 1 (idle m nid) (io_fetch p) (λ o a', ∃ f, o = Some f ∧
    a' = mkStore m {[p := (1, f)]} ∅ nid).
Proof.
  intros Hp Hn. eapply mono_rule; [apply fetch_rule|lia|].
  - by eexists.
  - apply lookup_empty.
  - unfold room. rewrite map_size_empty. lia.
  - intros o a' (f & -> & _ & ->). by exists f.
Qed.

Lemma distinct_singleton p j f : distinct_frames {[p := (j, f)]}.
Proof. intros a b g i1 i2. rewrite !lookup_singleton_Some. naive_solver. Qed.

Lemma read_pinned_rule m nid p f d T : m !! p = Some d →
  page_triple 1 (mkStore m {[p := (1, f)]} T nid) (io_read f)
    (λ x a', x = d ∧ a' = mkStore m {[p := (1, f)]} T nid).
Proof. intros Hp. eapply read_rule; [done|apply lookup_singleton_eq|apply distinct_singleton]. Qed.

Lemma write_pinned_rule m nid p f d g T : m !! p = Some d →
  page_triple 1 (mkStore m {[p := (1, f)]} T nid) (io_write f g)
    (λ _ a', a' = mkStore (<[p := g d]> m) {[p := (1, f)]} ({[p]} ∪ T) nid).
Proof. intros Hp. eapply write_rule; [done|apply lookup_singleton_eq|apply distinct_singleton]. Qed.

Lemma unpin_pinned_rule m nid p f T (b : bool) : T ⊆ {[p]} → (b = true ∨ T = ∅) →
  page_triple 1 (mkStore m {[p := (1, f)]} T nid) (io_unpin p b) (λ r a', r = true ∧ a' = idle m nid).
Proof.
  intros HT Hb. eapply mono_rule; [eapply unpin_rule; [apply lookup_singleton_eq|]|lia|].
  - destruct Hb as [->| ->]; [by left|right; set_solver].
  - intros r a' [-> ->]. split; [done|]. unfold idle. f_equal; [apply delete_singleton_eq|].
    apply set_eq. set_solver.
Qed.
End Rules.

(** [page_step rule] runs the first page call of the goal. *)
Tactic Notation "page_step" uconstr(rule) :=
  eapply step_rule; [eapply rule|lia|cbn beta].
(** [pure_step H] runs a computation without page call, by the equation [H]. *)
Ltac pure_step H := eapply triple_bind_lift; [exact H|cbn beta iota].
