(* ===== verification/SortedAssoc.v ===== *)
(** * Sorted association lists

    Lists of key/value pairs with strictly increasing keys, the position a
    binary search looks for, and the finite map such a list stands for: what the
    pages of the B+ tree and the tree itself share. *)

From S2P Require Import Prelude.

Section Sorted.
Context {V : Type}.
Implicit Types (l : list (Z * V)) (k : Z) (v : V).

Definition sorted_keys l : Prop :=
  ∀ i j x y, (i < j)%nat → l !! i = Some x → l !! j = Some y → x.1 < y.1.

(** [i] is the number of keys of [l] smaller than [k]. *)
Definition is_lb l k (i : nat) : Prop :=
  (i ≤ length l)%nat ∧ (∀ j x, (j < i)%nat → l !! j = Some x → x.1 < k) ∧
  (∀ j x, (i ≤ j)%nat → l !! j = Some x → k ≤ x.1).

Definition assoc_map l : gmap Z V := list_to_map l.

Lemma sorted_nil : sorted_keys [].
Proof. intros i j x y _ H. done. Qed.

Lemma sorted_app l1 l2 :
  sorted_keys (l1 ++ l2) ↔
  sorted_keys l1 ∧ sorted_keys l2 ∧ ∀ x y, x ∈ l1 → y ∈ l2 → x.1 < y.1.
Proof.
  split.
  - intros H. split_and!.
    + intros i j x y Hij Hi Hj. apply (H i j); [done|by apply lookup_app_l_Some..].
    + intros i j x y Hij Hi Hj. apply (H (length l1 + i)%nat (length l1 + j)%nat); [lia|..];
        rewrite lookup_app_r by lia; [rewrite <- Hi|rewrite <- Hj]; f_equal; lia.
    + intros x y [i Hi]%list_elem_of_lookup [j Hj]%list_elem_of_lookup.
      apply (H i (length l1 + j)%nat); [apply lookup_lt_Some in Hi; lia|by apply lookup_app_l_Some|].
      rewrite lookup_app_r by lia. rewrite <- Hj. f_equal. lia.
  - intros (H1 & H2 & H3) i j x y Hij. rewrite !lookup_app_Some.
    intros [Hi|[Hi1 Hi2]] [Hj|[Hj1 Hj2]].
    + by apply (H1 i j).
    + apply H3; by eapply list_elem_of_lookup_2.
    + apply lookup_lt_Some in Hj. lia.
    + apply (H2 (i - length l1)%nat (j - length l1)%nat); [lia|done|done].
Qed.

Lemma sorted_cons x l : sorted_keys (x :: l) ↔ sorted_keys l ∧ ∀ y, y ∈ l → x.1 < y.1.
Proof.
  change (x :: l) with ([x] ++ l). rewrite sorted_app. split.
  - intros (_ & H1 & H2). split; [done|]. intros y. apply H2. set_solver.
  - intros [H1 H2]. split_and!; [|done|].
    + intros [|i] [|j] a b Hij Ha Hb; simpl in *; try lia; done.
    + intros a b ->%list_elem_of_singleton. apply H2.
Qed.

Lemma sorted_take l n : sorted_keys l → sorted_keys (take n l).
Proof. intros H. rewrite <- (take_drop n l) in H. by apply sorted_app in H as [? _]. Qed.
Lemma sorted_drop l n : sorted_keys l → sorted_keys (drop n l).
Proof. intros H. rewrite <- (take_drop n l) in H. by apply sorted_app in H as (_ & ? & _). Qed.

Lemma sorted_NoDup l : sorted_keys l → NoDup l.*1.
Proof.
  intros H. apply NoDup_alt. intros i j x. rewrite !list_lookup_fmap.
  destruct (l !! i) as [a|] eqn:Hi; [|done]. destruct (l !! j) as [b|] eqn:Hj; [|done].
  simpl. intros [= <-] [= E]. destruct (decide (i < j)%nat) as [Hl|]; [specialize (H i j a b Hl Hi Hj); lia|].
  destruct (decide (j < i)%nat) as [Hl|]; [specialize (H j i b a Hl Hj Hi); lia|lia].
Qed.

Lemma assoc_lookup l k v : sorted_keys l → assoc_map l !! k = Some v ↔ (k, v) ∈ l.
Proof.
  intros H. apply sorted_NoDup in H. split.
  - apply elem_of_list_to_map_2.
  - by apply elem_of_list_to_map_1.
Qed.

Lemma assoc_lookup_None l k : assoc_map l !! k = None ↔ ∀ v, (k, v) ∉ l.
Proof.
  unfold assoc_map. rewrite <- not_elem_of_list_to_map. split.
  - intros H v Hin. apply H. apply list_elem_of_fmap. by exists (k, v).
  - intros H ([k' v] & -> & Hin)%list_elem_of_fmap. by apply (H v).
Qed.

Lemma assoc_app l1 l2 : assoc_map (l1 ++ l2) = assoc_map l1 ∪ assoc_map l2.
Proof. apply list_to_map_app. Qed.

(** The position of a key. *)
Lemma lb_lookup l k i :
  sorted_keys l → is_lb l k i →
  assoc_map l !! k = match l !! i with Some x => if decide (x.1 = k) then Some x.2 else None | None => None end.
Proof.
  intros Hs (Hi & Hlt & Hge). destruct (l !! i) as [[k' v]|] eqn:E; simpl.
  - case_decide; subst; [apply assoc_lookup; [done|by eapply list_elem_of_lookup_2]|].
    apply assoc_lookup_None. intros w [j Hj]%list_elem_of_lookup.
    destruct (decide (j < i)%nat) as [Hl|Hl]; [specialize (Hlt j _ Hl Hj); simpl in *; lia|].
    destruct (decide (j = i)) as [->|]; [congruence|].
    specialize (Hs i j _ _ ltac:(lia) E Hj). specialize (Hge i _ ltac:(lia) E). simpl in *. lia.
  - apply assoc_lookup_None. intros w [j Hj]%list_elem_of_lookup.
    apply lookup_ge_None in E. pose proof (lookup_lt_Some _ _ _ Hj).
    specialize (Hlt j _ ltac:(lia) Hj). simpl in *. lia.
Qed.

Lemma lb_split l k i x y :
  is_lb l k i → x ∈ take i l → y ∈ drop i l → x.1 < k ∧ k ≤ y.1.
Proof.
  intros (Hi & Hlt & Hge) [a Ha]%list_elem_of_lookup [b Hb]%list_elem_of_lookup. split.
  - apply lookup_take_Some in Ha as [Ha ?]. by apply (Hlt a).
  - rewrite lookup_drop in Hb. apply (Hge (i + b)%nat); [lia|done].
Qed.

Lemma sorted_insert l k v i :
  sorted_keys l → is_lb l k i → assoc_map l !! k = None →
  sorted_keys (take i l ++ (k, v) :: drop i l) ∧
  assoc_map (take i l ++ (k, v) :: drop i l) = <[k := v]> (assoc_map l).
Proof.
  intros Hs Hlb Hn. pose proof Hs as Hs'. rewrite <- (take_drop i l) in Hs'.
  apply sorted_app in Hs' as (H1 & H2 & H3).
  assert (∀ y, y ∈ drop i l → k < y.1) as Hgt.
  { intros [k' w] Hy. assert (k ≤ k') as Hle.
    { pose proof Hy as [b Hb]%list_elem_of_lookup. rewrite lookup_drop in Hb.
      destruct Hlb as (_ & _ & Hge). apply (Hge (i + b)%nat _ ltac:(lia) Hb). }
    simpl. destruct (decide (k = k')) as [->|]; [|lia]. exfalso.
    apply assoc_lookup_None with (v := w) in Hn. apply Hn. rewrite <- (take_drop i l). set_solver. }
  assert (∀ x, x ∈ take i l → x.1 < k) as Hlt.
  { intros x [a Ha]%list_elem_of_lookup. apply lookup_take_Some in Ha as [Ha ?].
    destruct Hlb as (_ & Hl & _). by apply (Hl a). }
  split.
  - rewrite sorted_app, sorted_cons. split_and!; [done|done|done|].
    intros x y Hx [->|Hy]%elem_of_cons; simpl; [by apply Hlt|by apply H3].
  - rewrite assoc_app. rewrite <- (take_drop i l) at 3. rewrite assoc_app. unfold assoc_map at 2. simpl.
    rewrite <- insert_union_r; [done|]. apply assoc_lookup_None. intros w Hin.
    specialize (Hlt _ Hin). simpl in Hlt. lia.
Qed.

Lemma sorted_delete l k i v :
  sorted_keys l → l !! i = Some (k, v) →
  sorted_keys (take i l ++ drop (S i) l) ∧
  assoc_map (take i l ++ drop (S i) l) = delete k (assoc_map l).
Proof.
  intros Hs Hi. pose proof Hs as Hs'. rewrite <- (take_drop_middle l i _ Hi) in Hs'.
  apply sorted_app in Hs' as (H1 & H2 & H3). apply sorted_cons in H2 as [H2 H4]. split.
  - apply sorted_app. split_and!; [done|done|]. intros x y Hx Hy. apply H3; set_solver.
  - rewrite <- (take_drop_middle l i _ Hi) at 3. rewrite !assoc_app. unfold assoc_map at 4. simpl.
    rewrite <- insert_union_r.
    2:{ apply assoc_lookup_None. intros w Hin. specialize (H3 (k, w) (k, v) Hin ltac:(set_solver)). simpl in H3. lia. }
    rewrite delete_insert_id; [done|]. rewrite lookup_union_None, !assoc_lookup_None. split.
    + intros w Hin. specialize (H3 (k, w) (k, v) Hin ltac:(set_solver)). simpl in H3. lia.
    + intros w Hin. specialize (H4 _ Hin). simpl in H4. lia.
Qed.
End Sorted.
