(* ===== verification/BPlusPage.v ===== *)
(** * B+ tree pages

    [src/src/include/onebase/storage/page/b_plus_tree_page.h],
    [b_plus_tree_leaf_page.h], [b_plus_tree_internal_page.h] and their [.cpp],
    at the only instance of the templates: [int] keys, [RID] values and
    [std::less<int>].

    The flexible array [array_] ends where the 4096 bytes of the page end: a
    leaf page has 20 bytes of header and room for 339 pairs of 12 bytes, an
    internal page 16 bytes of header and room for 510 pairs of 8 bytes.  An access
    beyond is outside the page ([UB]). *)

From S2P Require Import Prelude Common SortedAssoc.

(** ** Data *)

Inductive IndexPageType := INVALID_INDEX_PAGE | LEAF_PAGE | INTERNAL_PAGE.

#[global] Instance IndexPageType_eq_dec : EqDecision IndexPageType.
Proof. solve_decision. Defined.

(** [BPlusTreePage]: the header. *)
Record BPlusTreePage := mkHdr {
  page_type_ : IndexPageType;
  size_ : Z;
  max_size_ : Z;
  parent_page_id_ : Z
}.

Definition IsLeafPage (h : BPlusTreePage) : bool := bool_decide (page_type_ h = LEAF_PAGE).
Definition set_size (n : Z) (h : BPlusTreePage) : BPlusTreePage :=
  mkHdr (page_type_ h) n (max_size_ h) (parent_page_id_ h).
Definition set_parent (p : Z) (h : BPlusTreePage) : BPlusTreePage :=
  mkHdr (page_type_ h) (size_ h) (max_size_ h) p.
Definition GetMinSize (h : BPlusTreePage) : Z :=
  if IsLeafPage h then Z.quot (max_size_ h) 2 else Z.quot (max_size_ h + 1) 2.

Abbreviation leaf_array := (list (Z * RID)).
Abbreviation internal_array := (list (Z * Z)).

Record LeafPage := mkLeaf { l_hdr : BPlusTreePage; next_page_id_ : Z; l_array : leaf_array }.
Record InternalPage := mkInternal { i_hdr : BPlusTreePage; i_array : internal_array }.

(** [PAGE_SIZE], [sizeof(BPlusTreePage)], [sizeof(page_id_t)],
    [sizeof(std::pair<int, RID>)] and [sizeof(std::pair<int, page_id_t>)]. *)
Definition LEAF_SLOTS : Z := (PAGE_SIZE - 16 - 4) / 12.
Definition INTERNAL_SLOTS : Z := (PAGE_SIZE - 16) / 8.

(** ** Loops over arrays *)

(** [for (...; i--) a[i] = a[i - 1];], [n] times. *)
Fixpoint shift_right {A} (n : nat) (i : Z) (a : list A) : res (list A) :=
  match n with
  | O => Ok a
  | S n => x ← arr_get a (i - 1); a ← arr_set a i x; shift_right n (i - 1) a
  end.

(** [for (...; i++) a[i] = a[i + 1];], [n] times. *)
Fixpoint shift_left {A} (n : nat) (i : Z) (a : list A) : res (list A) :=
  match n with
  | O => Ok a
  | S n => x ← arr_get a (i + 1); a ← arr_set a i x; shift_left n (i + 1) a
  end.

(** [dst[j++] = src[i++];], [n] times. *)
Fixpoint copy_range {A} (n : nat) (src : list A) (i : Z) (dst : list A) (j : Z) : res (list A) :=
  match n with
  | O => Ok dst
  | S n => x ← arr_get src i; dst ← arr_set dst j x; copy_range n src (i + 1) dst (j + 1)
  end.

(** ** Leaf pages *)
Module Leaf.

(** [Init] on a page whose array holds [a]. *)
Definition Init (max_size : Z) (a : leaf_array) : LeafPage :=
  mkLeaf (mkHdr LEAF_PAGE 0 max_size INVALID_PAGE_ID) INVALID_PAGE_ID a.

Definition GetSize (p : LeafPage) : Z := size_ (l_hdr p).
Definition SetSize (n : Z) (p : LeafPage) : LeafPage := mkLeaf (set_size n (l_hdr p)) (next_page_id_ p) (l_array p).
Definition SetArray (a : leaf_array) (p : LeafPage) : LeafPage := mkLeaf (l_hdr p) (next_page_id_ p) a.
Definition SetNextPageId (n : Z) (p : LeafPage) : LeafPage := mkLeaf (l_hdr p) n (l_array p).
Definition SetParentPageId (n : Z) (p : LeafPage) : LeafPage :=
  mkLeaf (set_parent n (l_hdr p)) (next_page_id_ p) (l_array p).

Definition KeyAt (p : LeafPage) (index : Z) : res Z := e ← arr_get (l_array p) index; Ok e.1.
Definition ValueAt (p : LeafPage) (index : Z) : res RID := e ← arr_get (l_array p) index; Ok e.2.

(** The binary search of [KeyIndex]. *)
Fixpoint key_index_loop (fuel : nat) (a : leaf_array) (key l r : Z) : res Z :=
  if l <? r then
    match fuel with
    | O => OutOfFuel
    | S fuel =>
        let mid := l + (r - l) / 2 in
        e ← arr_get a mid;
        if e.1 <? key then key_index_loop fuel a key (mid + 1) r else key_index_loop fuel a key l mid
    end
  else Ok l.

Definition KeyIndex (p : LeafPage) (key : Z) : res Z :=
  key_index_loop (Z.to_nat (GetSize p)) (l_array p) key 0 (GetSize p).

(** [Some v] models the answer [true] with [*value = v]. *)
Definition Lookup (p : LeafPage) (key : Z) : res (option RID) :=
  idx ← KeyIndex p key;
  if GetSize p <=? idx then Ok None
  else
    e ← arr_get (l_array p) idx;
    if negb (e.1 <? key) && negb (key <? e.1) then Ok (Some e.2) else Ok None.

(** The new size and the page. *)
Definition Insert (key : Z) (value : RID) (p : LeafPage) : res (Z * LeafPage) :=
  let sz := GetSize p in
  idx ← KeyIndex p key;
  dup ← (if idx <? sz then e ← arr_get (l_array p) idx; Ok (negb (e.1 <? key) && negb (key <? e.1))
         else Ok false);
  if (dup : bool) then Ok (sz, p)
  else
    a ← shift_right (Z.to_nat (sz - idx)) sz (l_array p);
    a ← arr_set a idx (key, value);
    Ok (sz + 1, SetSize (sz + 1) (SetArray a p)).

Definition RemoveAndDeleteRecord (key : Z) (p : LeafPage) : res (Z * LeafPage) :=
  let sz := GetSize p in
  idx ← KeyIndex p key;
  if sz <=? idx then Ok (sz, p)
  else
    e ← arr_get (l_array p) idx;
    if (e.1 <? key) || (key <? e.1) then Ok (sz, p)
    else
      a ← shift_left (Z.to_nat (sz - 1 - idx)) idx (l_array p);
      Ok (sz - 1, SetSize (sz - 1) (SetArray a p)).

(** The moves return the donor and the recipient. *)
Definition MoveHalfTo (p rcp : LeafPage) : res (LeafPage * LeafPage) :=
  let sz := GetSize p in
  let split_idx := Z.quot sz 2 in
  let move_cnt := sz - split_idx in
  a ← copy_range (Z.to_nat move_cnt) (l_array p) split_idx (l_array rcp) 0;
  Ok (SetSize split_idx p, SetSize move_cnt (SetArray a rcp)).

Definition MoveAllTo (p rcp : LeafPage) : res (LeafPage * LeafPage) :=
  let rsz := GetSize rcp in
  let sz := GetSize p in
  a ← copy_range (Z.to_nat sz) (l_array p) 0 (l_array rcp) rsz;
  Ok (SetNextPageId INVALID_PAGE_ID (SetSize 0 p),
      SetNextPageId (next_page_id_ p) (SetSize (rsz + sz) (SetArray a rcp))).

Definition MoveFirstToEndOf (p rcp : LeafPage) : res (LeafPage * LeafPage) :=
  let sz := GetSize p in
  if sz <=? 0 then Throw (RuntimeError "BPlusTreeLeafPage::MoveFirstToEndOf: empty donor")
  else
    let rsz := GetSize rcp in
    e ← arr_get (l_array p) 0;
    ra ← arr_set (l_array rcp) rsz e;
    a ← shift_left (Z.to_nat (sz - 1)) 0 (l_array p);
    Ok (SetSize (sz - 1) (SetArray a p), SetSize (rsz + 1) (SetArray ra rcp)).

Definition MoveLastToFrontOf (p rcp : LeafPage) : res (LeafPage * LeafPage) :=
  let sz := GetSize p in
  if sz <=? 0 then Throw (RuntimeError "BPlusTreeLeafPage::MoveLastToFrontOf: empty donor")
  else
    let rsz := GetSize rcp in
    ra ← shift_right (Z.to_nat rsz) rsz (l_array rcp);
    e ← arr_get (l_array p) (sz - 1);
    ra ← arr_set ra 0 e;
    Ok (SetSize (sz - 1) p, SetSize (rsz + 1) (SetArray ra rcp)).
End Leaf.

(** ** Internal pages *)
Module Internal.

Definition Init (max_size : Z) (a : internal_array) : InternalPage :=
  mkInternal (mkHdr INTERNAL_PAGE 0 max_size INVALID_PAGE_ID) a.

Definition GetSize (p : InternalPage) : Z := size_ (i_hdr p).
Definition SetSize (n : Z) (p : InternalPage) : InternalPage := mkInternal (set_size n (i_hdr p)) (i_array p).
Definition SetArray (a : internal_array) (p : InternalPage) : InternalPage := mkInternal (i_hdr p) a.
Definition SetParentPageId (n : Z) (p : InternalPage) : InternalPage :=
  mkInternal (set_parent n (i_hdr p)) (i_array p).

Definition KeyAt (p : InternalPage) (index : Z) : res Z := e ← arr_get (i_array p) index; Ok e.1.
Definition ValueAt (p : InternalPage) (index : Z) : res Z := e ← arr_get (i_array p) index; Ok e.2.

Definition set_key (a : internal_array) (index key : Z) : res internal_array :=
  e ← arr_get a index; arr_set a index (key, e.2).
Definition set_value (a : internal_array) (index value : Z) : res internal_array :=
  e ← arr_get a index; arr_set a index (e.1, value).
Definition SetKeyAt (index key : Z) (p : InternalPage) : res InternalPage :=
  a ← set_key (i_array p) index key; Ok (SetArray a p).
Definition SetValueAt (index value : Z) (p : InternalPage) : res InternalPage :=
  a ← set_value (i_array p) index value; Ok (SetArray a p).

Fixpoint value_index_loop (n : nat) (a : internal_array) (value i : Z) : res Z :=
  match n with
  | O => Ok (-1)
  | S n => e ← arr_get a i; if e.2 =? value then Ok i else value_index_loop n a value (i + 1)
  end.
Definition ValueIndex (p : InternalPage) (value : Z) : res Z :=
  value_index_loop (Z.to_nat (GetSize p)) (i_array p) value 0.

(** The loop of [Lookup]; [n] entries are left, [result] is the child so far. *)
Fixpoint lookup_loop (n : nat) (a : internal_array) (key i result : Z) : res Z :=
  match n with
  | O => Ok result
  | S n => e ← arr_get a i; if key <? e.1 then Ok result else lookup_loop n a key (i + 1) e.2
  end.
Definition Lookup (p : InternalPage) (key : Z) : res Z :=
  r ← ValueAt p 0;
  lookup_loop (Z.to_nat (GetSize p - 1)) (i_array p) key 1 r.

Definition PopulateNewRoot (old_value key new_value : Z) (p : InternalPage) : res InternalPage :=
  let p := SetSize 2 p in
  p ← SetValueAt 0 old_value p; p ← SetKeyAt 1 key p; SetValueAt 1 new_value p.

Definition InsertNodeAfter (old_value key new_value : Z) (p : InternalPage) : res (Z * InternalPage) :=
  idx ← ValueIndex p old_value;
  if idx <? 0 then Throw (RuntimeError "BPlusTreeInternalPage::InsertNodeAfter: old_value not found")
  else
    let old_size := GetSize p in
    a ← shift_right (Z.to_nat (old_size - idx - 1)) old_size (i_array p);
    a ← arr_set a (idx + 1) (key, new_value);
    Ok (old_size + 1, SetSize (old_size + 1) (SetArray a p)).

Definition Remove (index : Z) (p : InternalPage) : res InternalPage :=
  let sz := GetSize p in
  if (index <? 0) || (sz <=? index) then
    Throw (RuntimeError "BPlusTreeInternalPage::Remove: index out of range")
  else
    a ← shift_left (Z.to_nat (sz - 1 - index)) index (i_array p);
    Ok (SetSize (sz - 1) (SetArray a p)).

Definition RemoveAndReturnOnlyChild (p : InternalPage) : res (Z * InternalPage) :=
  if negb (GetSize p =? 1) then
    Throw (RuntimeError "BPlusTreeInternalPage::RemoveAndReturnOnlyChild: size != 1")
  else only ← ValueAt p 0; Ok (only, SetSize 0 p).

Definition MoveAllTo (middle_key : Z) (p rcp : InternalPage) : res (InternalPage * InternalPage) :=
  let rsz := GetSize rcp in
  let sz := GetSize p in
  if sz =? 0 then Ok (p, rcp)
  else
    v ← ValueAt p 0;
    ra ← arr_set (i_array rcp) rsz (middle_key, v);
    ra ← copy_range (Z.to_nat (sz - 1)) (i_array p) 1 ra (rsz + 1);
    Ok (SetSize 0 p, SetSize (rsz + 1 + Z.max 0 (sz - 1)) (SetArray ra rcp)).

Definition MoveHalfTo (middle_key : Z) (p rcp : InternalPage) : res (InternalPage * InternalPage) :=
  let n := GetSize p in
  if n <=? 1 then Ok (p, SetSize 0 rcp)
  else
    let split_idx := Z.quot n 2 in
    v ← ValueAt p split_idx;
    ra ← arr_set (i_array rcp) 0 (middle_key, v);
    ra ← copy_range (Z.to_nat (n - split_idx - 1)) (i_array p) (split_idx + 1) ra 1;
    Ok (SetSize split_idx p, SetSize (n - split_idx) (SetArray ra rcp)).

Definition MoveFirstToEndOf (middle_key : Z) (p rcp : InternalPage) : res (InternalPage * InternalPage) :=
  let sz := GetSize p in
  if sz <=? 0 then Throw (RuntimeError "BPlusTreeInternalPage::MoveFirstToEndOf: empty donor")
  else
    let rsz := GetSize rcp in
    v ← ValueAt p 0;
    ra ← arr_set (i_array rcp) rsz (middle_key, v);
    let rcp := SetSize (rsz + 1) (SetArray ra rcp) in
    if sz =? 1 then Ok (SetSize 0 p, rcp)
    else
      v1 ← ValueAt p 1;
      a ← set_value (i_array p) 0 v1;
      a ← shift_left (Z.to_nat (sz - 2)) 1 a;
      Ok (SetSize (sz - 1) (SetArray a p), rcp).

Definition MoveLastToFrontOf (middle_key : Z) (p rcp : InternalPage) : res (InternalPage * InternalPage) :=
  let sz := GetSize p in
  if sz <=? 0 then Throw (RuntimeError "BPlusTreeInternalPage::MoveLastToFrontOf: empty donor")
  else
    moved_p0 ← ValueAt p (sz - 1);
    let p := SetSize (sz - 1) p in
    let rsz := GetSize rcp in
    if rsz =? 0 then
      ra ← set_value (i_array rcp) 0 moved_p0;
      Ok (p, SetSize 1 (SetArray ra rcp))
    else
      old_p0 ← ValueAt rcp 0;
      ra ← shift_right (Z.to_nat (rsz + 1)) (rsz + 1) (i_array rcp);
      ra ← set_value ra 0 moved_p0;
      ra ← arr_set ra 1 (middle_key, old_p0);
      Ok (p, SetSize (rsz + 1) (SetArray ra rcp)).
End Internal.

(** ** The loops, position by position *)

Lemma arr_set_at {A} (a : list A) i x :
  0 ≤ i < Z.of_nat (length a) → arr_set a i x = Ok (<[Z.to_nat i := x]> a).
Proof. intros. unfold arr_set. by rewrite decide_True. Qed.

Lemma arr_get_at {A} (a : list A) i :
  0 ≤ i < Z.of_nat (length a) → ∃ x, a !! Z.to_nat i = Some x ∧ arr_get a i = Ok x.
Proof.
  intros Hi. destruct (lookup_lt_is_Some_2 a (Z.to_nat i)) as [x Hx]; [lia|].
  exists x. split; [done|]. apply arr_get_lookup. split; [lia|done].
Qed.

Lemma shift_right_spec {A} n i (a : list A) :
  0 ≤ i - Z.of_nat n → (n ≠ O → i < Z.of_nat (length a)) →
  ∃ a', shift_right n i a = Ok a' ∧ length a' = length a ∧
    ∀ j : nat, a' !! j = if decide (i - Z.of_nat n < Z.of_nat j ≤ i) then a !! pred j else a !! j.
Proof.
  revert i a; induction n as [|n IH]; intros i a H0 H1.
  { exists a. split_and!; [done..|]. intros j. by rewrite decide_False by lia. }
  destruct (arr_get_at a (i - 1)) as (x & Hx & Hget); [lia|]. simpl. rewrite Hget. simpl.
  rewrite arr_set_at by lia. simpl.
  destruct (IH (i - 1) (<[Z.to_nat i := x]> a)) as (a' & -> & Hlen & Ha'); [lia|rewrite length_insert; lia|].
  rewrite length_insert in Hlen. exists a'. split_and!; [done..|]. intros j. rewrite Ha'.
  destruct (decide (j = Z.to_nat i)) as [->|Hj].
  - rewrite decide_False by lia. rewrite decide_True by lia. rewrite list_lookup_insert_eq by lia.
    rewrite <- Hx. f_equal. lia.
  - case_decide.
    + rewrite decide_True by lia. apply list_lookup_insert_ne. lia.
    + rewrite decide_False by lia. by apply list_lookup_insert_ne.
Qed.

Lemma shift_left_spec {A} n i (a : list A) :
  0 ≤ i → (n ≠ O → i + Z.of_nat n < Z.of_nat (length a)) →
  ∃ a', shift_left n i a = Ok a' ∧ length a' = length a ∧
    ∀ j : nat, a' !! j = if decide (i ≤ Z.of_nat j < i + Z.of_nat n) then a !! S j else a !! j.
Proof.
  revert i a; induction n as [|n IH]; intros i a H0 H1.
  { exists a. split_and!; [done..|]. intros j. by rewrite decide_False by lia. }
  destruct (arr_get_at a (i + 1)) as (x & Hx & Hget); [lia|]. simpl. rewrite Hget. simpl.
  rewrite arr_set_at by lia. simpl.
  destruct (IH (i + 1) (<[Z.to_nat i := x]> a)) as (a' & -> & Hlen & Ha'); [lia|rewrite length_insert; lia|].
  rewrite length_insert in Hlen. exists a'. split_and!; [done..|]. intros j. rewrite Ha'.
  destruct (decide (j = Z.to_nat i)) as [->|Hj].
  - rewrite decide_False by lia. rewrite decide_True by lia. rewrite list_lookup_insert_eq by lia.
    rewrite <- Hx. f_equal. lia.
  - case_decide.
    + rewrite decide_True by lia. apply list_lookup_insert_ne. lia.
    + rewrite decide_False by lia. by apply list_lookup_insert_ne.
Qed.

Lemma copy_range_spec {A} n (src : list A) i dst j :
  0 ≤ i → i + Z.of_nat n ≤ Z.of_nat (length src) → 0 ≤ j → j + Z.of_nat n ≤ Z.of_nat (length dst) →
  ∃ d, copy_range n src i dst j = Ok d ∧ length d = length dst ∧
    ∀ k : nat, d !! k = if decide (j ≤ Z.of_nat k < j + Z.of_nat n)
                        then src !! (k - Z.to_nat j + Z.to_nat i)%nat else dst !! k.
Proof.
  revert i j dst; induction n as [|n IH]; intros i j dst H0 H1 H2 H3.
  { exists dst. split_and!; [done..|]. intros k. by rewrite decide_False by lia. }
  destruct (arr_get_at src i) as (x & Hx & Hget); [lia|]. simpl. rewrite Hget. simpl.
  rewrite arr_set_at by lia. simpl.
  destruct (IH (i + 1) (j + 1) (<[Z.to_nat j := x]> dst)) as (d & -> & Hlen & Hd);
    [lia|lia|lia|rewrite length_insert; lia|].
  rewrite length_insert in Hlen. exists d. split_and!; [done..|]. intros k. rewrite Hd.
  destruct (decide (k = Z.to_nat j)) as [->|Hk].
  - rewrite decide_False by lia. rewrite decide_True by lia. rewrite list_lookup_insert_eq by lia.
    rewrite <- Hx. f_equal. lia.
  - case_decide.
    + rewrite decide_True by lia. f_equal. lia.
    + rewrite decide_False by lia. by apply list_lookup_insert_ne.
Qed.

(** ** The used part of an array *)

Lemma take_insert_shifted {A} (a a' : list A) (sz idx : nat) x :
  (idx ≤ sz)%nat → (sz < length a)%nat → length a' = length a →
  (∀ j : nat, a' !! j = if decide (Z.of_nat sz - Z.of_nat (sz - idx) < Z.of_nat j ≤ Z.of_nat sz)
                        then a !! pred j else a !! j) →
  take (S sz) (<[idx := x]> a') = take idx (take sz a) ++ x :: drop idx (take sz a).
Proof.
  intros Hi Hsz Hl Ha. assert (length (take idx (take sz a)) = idx) as Hlen.
  { rewrite length_take, length_take. lia. }
  apply list_eq. intros j. destruct (decide (j < S sz)%nat) as [Hj|Hj].
  2:{ rewrite lookup_take_ge by lia. symmetry. apply lookup_ge_None_2.
      rewrite length_app, Hlen. simpl. rewrite length_drop, length_take. lia. }
  rewrite lookup_take_lt by done. destruct (decide (j < idx)%nat) as [H1|H1].
  { rewrite list_lookup_insert_ne, Ha, decide_False by lia.
    rewrite lookup_app_l by lia. by rewrite !lookup_take_lt by lia. }
  rewrite lookup_app_r, Hlen by lia. destruct (decide (j = idx)) as [->|H2].
  { rewrite list_lookup_insert_eq by lia. by rewrite Nat.sub_diag. }
  rewrite list_lookup_insert_ne, Ha, decide_True by lia.
  replace (j - idx)%nat with (S (j - idx - 1)) by lia. simpl.
  rewrite lookup_drop, lookup_take_lt by lia. f_equal. lia.
Qed.

Lemma take_delete_shifted {A} (a a' : list A) (sz idx : nat) :
  (idx < sz)%nat → (sz ≤ length a)%nat → length a' = length a →
  (∀ j : nat, a' !! j = if decide (Z.of_nat idx ≤ Z.of_nat j < Z.of_nat idx + Z.of_nat (sz - 1 - idx))
                        then a !! S j else a !! j) →
  take (sz - 1) a' = take idx (take sz a) ++ drop (S idx) (take sz a).
Proof.
  intros Hi Hsz Hl Ha. assert (length (take idx (take sz a)) = idx) as Hlen.
  { rewrite length_take, length_take. lia. }
  apply list_eq. intros j. destruct (decide (j < sz - 1)%nat) as [Hj|Hj].
  2:{ rewrite lookup_take_ge by lia. symmetry. apply lookup_ge_None_2.
      rewrite length_app, Hlen, length_drop, length_take. lia. }
  rewrite lookup_take_lt by done. destruct (decide (j < idx)%nat) as [H1|H1].
  { rewrite Ha, decide_False by lia. rewrite lookup_app_l by lia. by rewrite !lookup_take_lt by lia. }
  rewrite lookup_app_r, Hlen, Ha, decide_True by lia.
  rewrite lookup_drop, lookup_take_lt by lia. f_equal. lia.
Qed.

(** Appending a range of another array. *)
Lemma take_copied {A} (src dst d : list A) (i j n : nat) :
  (j ≤ length dst)%nat → (i + n ≤ length src)%nat →
  (∀ k : nat, d !! k = if decide (Z.of_nat j ≤ Z.of_nat k < Z.of_nat j + Z.of_nat n)
                       then src !! (k - j + i)%nat else dst !! k) →
  take (j + n) d = take j dst ++ take n (drop i src).
Proof.
  intros Hj Hi Hd. assert (length (take j dst) = j) as Hlen by (rewrite length_take; lia).
  apply list_eq. intros k. destruct (decide (k < j + n)%nat) as [Hk|Hk].
  2:{ rewrite lookup_take_ge by lia. symmetry. apply lookup_ge_None_2.
      rewrite length_app, Hlen, length_take. lia. }
  rewrite lookup_take_lt, Hd by done. destruct (decide (k < j)%nat) as [H1|H1].
  - rewrite decide_False by lia. rewrite lookup_app_l by lia. by rewrite lookup_take_lt.
  - rewrite decide_True by lia. rewrite lookup_app_r, Hlen, lookup_take_lt, lookup_drop by lia. f_equal. lia.
Qed.

(** ** Leaf pages as sorted association lists *)

Definition leaf_entries (p : LeafPage) : leaf_array := take (Z.to_nat (Leaf.GetSize p)) (l_array p).
Definition leaf_map (p : LeafPage) : gmap Z RID := assoc_map (leaf_entries p).

(** The layout of a leaf page: the array fills the page and [size_] is in it. *)
Record leaf_shape (p : LeafPage) : Prop := {
  ls_type : page_type_ (l_hdr p) = LEAF_PAGE;
  ls_size : 0 ≤ Leaf.GetSize p ≤ LEAF_SLOTS;
  ls_len : Z.of_nat (length (l_array p)) = LEAF_SLOTS
}.

Definition leaf_ok (p : LeafPage) : Prop := leaf_shape p ∧ sorted_keys (leaf_entries p).

Lemma leaf_entries_length p : leaf_shape p → Z.of_nat (length (leaf_entries p)) = Leaf.GetSize p.
Proof. intros [_ ? ?]. unfold leaf_entries. rewrite length_take. lia. Qed.

Lemma leaf_entries_lookup p (i : nat) :
  Z.of_nat i < Leaf.GetSize p → leaf_entries p !! i = l_array p !! i.
Proof. intros. unfold leaf_entries. apply lookup_take_lt. lia. Qed.

(** The binary search, for any bounds of a search in progress. *)
Lemma key_index_loop_ok fuel a key l r n :
  sorted_keys (take n a) → (n ≤ length a)%nat → 0 ≤ l ≤ r → r ≤ Z.of_nat n → r - l ≤ Z.of_nat fuel →
  (∀ j x, Z.of_nat j < l → a !! j = Some x → x.1 < key) →
  (∀ j x, r ≤ Z.of_nat j → take n a !! j = Some x → key ≤ x.1) →
  ∃ idx, Leaf.key_index_loop fuel a key l r = Ok (Z.of_nat idx) ∧ is_lb (take n a) key idx.
Proof.
  intros Hs Hn. revert l r; induction fuel as [|fuel IH]; intros l r Hl Hr Hf Hlt Hge; simpl.
  - destruct (Z.ltb_spec l r); [lia|]. exists (Z.to_nat l). split; [by rewrite Z2Nat.id by lia|].
    split_and!; [rewrite length_take; lia| |].
    + intros j x Hj Hx. apply lookup_take_Some in Hx as [Hx _]. apply (Hlt j); [lia|done].
    + intros j x Hj Hx. apply (Hge j); [lia|done].
  - destruct (Z.ltb_spec l r) as [Hlr|].
    2:{ exists (Z.to_nat l). split; [by rewrite Z2Nat.id by lia|]. split_and!; [rewrite length_take; lia| |].
        + intros j x Hj Hx. apply lookup_take_Some in Hx as [Hx _]. apply (Hlt j); [lia|done].
        + intros j x Hj Hx. apply (Hge j); [lia|done]. }
    set (mid := l + (r - l) / 2). assert (l ≤ mid < r) as Hmid.
    { unfold mid. pose proof (Z.div_pos (r - l) 2). pose proof (Z.div_lt (r - l) 2). lia. }
    destruct (arr_get_at a mid) as (e & He & ->); [lia|]. simpl.
    assert (take n a !! Z.to_nat mid = Some e) as He' by (rewrite lookup_take_lt by lia; done).
    destruct (Z.ltb_spec e.1 key) as [Hk|Hk].
    + apply IH; [lia|lia|lia| |done]. intros j x Hj Hx. destruct (decide (Z.of_nat j < mid)).
      * assert (take n a !! j = Some x) as Hx' by (rewrite lookup_take_lt by lia; done).
        assert (x.1 < e.1); [|lia]. by apply (Hs j (Z.to_nat mid)); [lia| |].
      * assert (j = Z.to_nat mid) as -> by lia. congruence.
    + apply IH; [lia|lia|lia|done|]. intros j x Hj Hx. destruct (decide (j = Z.to_nat mid)) as [->|].
      * congruence.
      * assert (e.1 < x.1); [|lia]. by apply (Hs (Z.to_nat mid) j); [lia| |].
Qed.

Lemma KeyIndex_ok p key :
  leaf_ok p → ∃ idx, Leaf.KeyIndex p key = Ok (Z.of_nat idx) ∧ is_lb (leaf_entries p) key idx.
Proof.
  intros [[_ Hsz Hlen] Hs]. unfold Leaf.KeyIndex.
  apply (key_index_loop_ok _ _ _ _ _ (Z.to_nat (Leaf.GetSize p))); [done|lia|lia|lia|lia|lia|].
  intros j x Hj Hx. apply lookup_take_Some in Hx as [_ ?]. lia.
Qed.

Lemma lb_bound p key idx : leaf_shape p → is_lb (leaf_entries p) key idx → Z.of_nat idx ≤ Leaf.GetSize p.
Proof. intros Hsh [Hi _]. rewrite <- (leaf_entries_length p Hsh). lia. Qed.

Lemma key_eq_test a b : negb (a <? b) && negb (b <? a) = bool_decide (a = b).
Proof.
  destruct (Z.ltb_spec a b), (Z.ltb_spec b a); simpl; case_bool_decide; lia.
Qed.

Lemma leaf_lookup_ok p key : leaf_ok p → Leaf.Lookup p key = Ok (leaf_map p !! key).
Proof.
  intros Hok. destruct (KeyIndex_ok p key Hok) as (idx & Hidx & Hlb). destruct Hok as [Hsh Hs].
  unfold Leaf.Lookup. rewrite Hidx. simpl. unfold leaf_map. rewrite (lb_lookup _ _ _ Hs Hlb).
  pose proof (lb_bound p key idx Hsh Hlb) as Hb. destruct (Z.leb_spec (Leaf.GetSize p) (Z.of_nat idx)) as [Hge|Hlt].
  - rewrite lookup_ge_None_2; [done|]. pose proof (leaf_entries_length p Hsh). lia.
  - rewrite leaf_entries_lookup by done. destruct (arr_get_at (l_array p) (Z.of_nat idx)) as (e & He & ->).
    { destruct Hsh. lia. }
    rewrite Nat2Z.id in He. rewrite He. simpl. rewrite key_eq_test.
    case_bool_decide; [by rewrite decide_True|by rewrite decide_False].
Qed.

(** The rest of the header and the chain. *)
Definition same_links (p q : LeafPage) : Prop :=
  next_page_id_ q = next_page_id_ p ∧ parent_page_id_ (l_hdr q) = parent_page_id_ (l_hdr p) ∧
  max_size_ (l_hdr q) = max_size_ (l_hdr p).

(** A page that has [a] as its array, [n] entries in use and the links of [p]. *)
Lemma leaf_with (p : LeafPage) n a (l : leaf_array) :
  leaf_shape p → 0 ≤ n ≤ LEAF_SLOTS → length a = length (l_array p) → take (Z.to_nat n) a = l →
  let q := Leaf.SetSize n (Leaf.SetArray a p) in
  leaf_shape q ∧ leaf_entries q = l ∧ Leaf.GetSize q = n ∧ same_links p q.
Proof.
  intros [? ? ?] Hn Hl He. cbv zeta. split_and!; [|done|done|by split_and!].
  split; simpl; [done|done|congruence].
Qed.

Lemma insert_fresh_full p key value idx :
  leaf_shape p → Leaf.GetSize p = LEAF_SLOTS → Z.of_nat idx ≤ LEAF_SLOTS →
  (a ← shift_right (Z.to_nat (Leaf.GetSize p - Z.of_nat idx)) (Leaf.GetSize p) (l_array p);
   arr_set a (Z.of_nat idx) (key, value)) = UB.
Proof.
  intros [_ _ Hlen] Hsz Hidx. rewrite Hsz.
  destruct (Z.to_nat (LEAF_SLOTS - Z.of_nat idx)) as [|m] eqn:Hm; simpl.
  - unfold arr_set. rewrite decide_False by lia. done.
  - destruct (arr_get_at (l_array p) (LEAF_SLOTS - 1)) as (x & _ & ->); [lia|]. simpl.
    unfold arr_set. by rewrite decide_False by lia.
Qed.

(** [Insert]: a new key, an old key, and no room. *)
Lemma leaf_insert_ok p key value :
  leaf_ok p →
  match leaf_map p !! key with
  | Some _ => Leaf.Insert key value p = Ok (Leaf.GetSize p, p)
  | None =>
      if decide (Leaf.GetSize p < LEAF_SLOTS) then
        ∃ q, Leaf.Insert key value p = Ok (Leaf.GetSize p + 1, q) ∧ leaf_ok q ∧
          leaf_map q = <[key := value]> (leaf_map p) ∧ Leaf.GetSize q = Leaf.GetSize p + 1 ∧ same_links p q ∧
          (∀ e, e ∈ leaf_entries q ↔ e = (key, value) ∨ e ∈ leaf_entries p)
      else Leaf.Insert key value p = UB
  end.
Proof.
  intros Hok. destruct (KeyIndex_ok p key Hok) as (idx & Hidx & Hlb). destruct Hok as [Hsh Hs].
  pose proof (lb_bound p key idx Hsh Hlb) as Hb. pose proof (lb_lookup _ _ _ Hs Hlb) as Hm.
  unfold leaf_map in *. unfold Leaf.Insert. rewrite Hidx. simpl.
  assert ((if Z.of_nat idx <? Leaf.GetSize p
           then e ← arr_get (l_array p) (Z.of_nat idx); Ok (negb (e.1 <? key) && negb (key <? e.1))
           else Ok false) = Ok (bool_decide (is_Some (assoc_map (leaf_entries p) !! key)))) as ->.
  { rewrite Hm. destruct (Z.ltb_spec (Z.of_nat idx) (Leaf.GetSize p)) as [Hlt|Hge].
    - rewrite leaf_entries_lookup by done.
      destruct (arr_get_at (l_array p) (Z.of_nat idx)) as (e & He & ->); [destruct Hsh; lia|].
      rewrite Nat2Z.id in He. rewrite He. simpl. rewrite key_eq_test.
      case_bool_decide; [rewrite decide_True by done|rewrite decide_False by done]; done.
    - rewrite lookup_ge_None_2; [done|]. pose proof (leaf_entries_length p Hsh). lia. }
  simpl. destruct (assoc_map (leaf_entries p) !! key) as [v|] eqn:Hkey; [done|]. simpl.
  case_decide as Hroom.
  2:{ assert (Leaf.GetSize p = LEAF_SLOTS) as Hfull by (destruct Hsh; lia).
      pose proof (insert_fresh_full p key value idx Hsh Hfull ltac:(lia)) as Hub.
      destruct (shift_right _ _ _) as [a| | |]; simpl in *; [|done..]. by rewrite Hub. }
  destruct (shift_right_spec (Z.to_nat (Leaf.GetSize p - Z.of_nat idx)) (Leaf.GetSize p) (l_array p))
    as (a' & -> & Hlen & Ha'); [lia|destruct Hsh; lia|]. simpl.
  rewrite arr_set_at by (destruct Hsh; lia). simpl. rewrite Nat2Z.id.
  destruct (sorted_insert _ key value idx Hs Hlb Hkey) as [Hs' Hm'].
  destruct (leaf_with p (Leaf.GetSize p + 1) (<[idx := (key, value)]> a')
    (take idx (leaf_entries p) ++ (key, value) :: drop idx (leaf_entries p))) as (Hq & He & Hsz & Hlinks).
  { done. }
  { destruct Hsh; lia. }
  { by rewrite length_insert. }
  { replace (Z.to_nat (Leaf.GetSize p + 1)) with (S (Z.to_nat (Leaf.GetSize p))) by (destruct Hsh; lia).
    apply take_insert_shifted; [lia|destruct Hsh; lia|done|]. intros j. rewrite Ha'.
    destruct Hsh. repeat case_decide; try done; lia. }
  eexists. split_and!; [reflexivity|split; [done|by rewrite He]|by rewrite He|done|done|].
  intros e. rewrite He. rewrite <- (take_drop idx (leaf_entries p)) at 3. set_solver.
Qed.

Lemma leaf_remove_ok p key :
  leaf_ok p →
  match leaf_map p !! key with
  | None => Leaf.RemoveAndDeleteRecord key p = Ok (Leaf.GetSize p, p)
  | Some _ => ∃ q, Leaf.RemoveAndDeleteRecord key p = Ok (Leaf.GetSize p - 1, q) ∧ leaf_ok q ∧
      leaf_map q = delete key (leaf_map p) ∧ Leaf.GetSize q = Leaf.GetSize p - 1 ∧ same_links p q
  end.
Proof.
  intros Hok. destruct (KeyIndex_ok p key Hok) as (idx & Hidx & Hlb). destruct Hok as [Hsh Hs].
  pose proof (lb_bound p key idx Hsh Hlb) as Hb. pose proof (lb_lookup _ _ _ Hs Hlb) as Hm.
  unfold leaf_map in *. unfold Leaf.RemoveAndDeleteRecord. rewrite Hidx. simpl. rewrite Hm.
  destruct (Z.leb_spec (Leaf.GetSize p) (Z.of_nat idx)) as [Hge|Hlt].
  { rewrite lookup_ge_None_2; [done|]. pose proof (leaf_entries_length p Hsh). lia. }
  rewrite leaf_entries_lookup by done.
  destruct (arr_get_at (l_array p) (Z.of_nat idx)) as ([k v] & He & ->); [destruct Hsh; lia|].
  rewrite Nat2Z.id in He. rewrite He. simpl. case_decide as Hk.
  2:{ destruct (Z.ltb_spec k key), (Z.ltb_spec key k); simpl; try done. lia. }
  subst k. rewrite Z.ltb_irrefl. simpl.
  destruct (shift_left_spec (Z.to_nat (Leaf.GetSize p - 1 - Z.of_nat idx)) (Z.of_nat idx) (l_array p))
    as (a' & -> & Hlen & Ha'); [lia|destruct Hsh; lia|]. simpl.
  destruct (sorted_delete (leaf_entries p) key idx v Hs) as [Hs' Hm']; [by rewrite leaf_entries_lookup|].
  destruct (leaf_with p (Leaf.GetSize p - 1) a' (take idx (leaf_entries p) ++ drop (S idx) (leaf_entries p)))
    as (Hq & He' & Hsz & Hlinks).
  { done. }
  { destruct Hsh; lia. }
  { done. }
  { replace (Z.to_nat (Leaf.GetSize p - 1)) with (Z.to_nat (Leaf.GetSize p) - 1)%nat by (destruct Hsh; lia).
    apply take_delete_shifted; [lia|destruct Hsh; lia|done|]. intros j. rewrite Ha'.
    destruct Hsh. repeat case_decide; try done; lia. }
  eexists. split_and!; [reflexivity|split; [done|by rewrite He']|by rewrite He'|done|done].
Qed.

(** The moves, on the entries. *)
Lemma leaf_move_half_ok p r :
  leaf_shape p → leaf_shape r →
  let h := Z.to_nat (Z.quot (Leaf.GetSize p) 2) in
  ∃ p' r', Leaf.MoveHalfTo p r = Ok (p', r') ∧ leaf_shape p' ∧ leaf_shape r' ∧
    leaf_entries p' = take h (leaf_entries p) ∧ leaf_entries r' = drop h (leaf_entries p) ∧
    same_links p p' ∧ same_links r r'.
Proof.
  intros Hp Hr h. unfold Leaf.MoveHalfTo. set (sz := Leaf.GetSize p) in *.
  assert (0 ≤ sz ≤ LEAF_SLOTS) as Hsz by apply (ls_size _ Hp).
  assert (0 ≤ Z.quot sz 2 ≤ sz) as Hq by (Z.to_euclidean_division_equations; lia).
  destruct (copy_range_spec (Z.to_nat (sz - Z.quot sz 2)) (l_array p) (Z.quot sz 2) (l_array r) 0)
    as (d & -> & Hlen & Hd); [lia|destruct Hp; lia|lia|destruct Hr; lia|]. simpl.
  destruct (leaf_with r (sz - Z.quot sz 2) d (drop h (leaf_entries p))) as (Hr' & He & _ & Hl); [done|lia|done| |].
  { pose proof (take_copied (l_array p) (l_array r) d h 0 (Z.to_nat (sz - Z.quot sz 2))) as Ht.
    simpl in Ht. rewrite Ht; [|destruct Hr; lia|destruct Hp; lia|].
    - unfold leaf_entries. fold sz. rewrite skipn_firstn_comm. f_equal. unfold h. lia.
    - intros k. rewrite Hd. replace (k - Z.to_nat 0)%nat with (k - 0)%nat by lia.
      repeat case_decide; try done; lia. }
  destruct (leaf_with p (Z.quot sz 2) (l_array p) (take h (leaf_entries p))) as (Hp' & He' & _ & Hl'); [done|lia|done| |].
  { unfold leaf_entries. fold sz. rewrite take_take. f_equal. unfold h. lia. }
  eexists _, _. split; [reflexivity|]. by split_and!.
Qed.

Lemma leaf_move_all_ok p r :
  leaf_shape p → leaf_shape r → Leaf.GetSize p + Leaf.GetSize r ≤ LEAF_SLOTS →
  ∃ p' r', Leaf.MoveAllTo p r = Ok (p', r') ∧ leaf_shape p' ∧ leaf_shape r' ∧
    leaf_entries p' = [] ∧ leaf_entries r' = leaf_entries r ++ leaf_entries p ∧
    next_page_id_ r' = next_page_id_ p ∧ parent_page_id_ (l_hdr r') = parent_page_id_ (l_hdr r) ∧
    max_size_ (l_hdr r') = max_size_ (l_hdr r).
Proof.
  intros Hp Hr Hroom. unfold Leaf.MoveAllTo. set (sz := Leaf.GetSize p) in *. set (rsz := Leaf.GetSize r) in *.
  assert (0 ≤ sz ≤ LEAF_SLOTS ∧ 0 ≤ rsz ≤ LEAF_SLOTS) as [Hsz Hrsz] by (split; [apply (ls_size _ Hp)|apply (ls_size _ Hr)]).
  destruct (copy_range_spec (Z.to_nat sz) (l_array p) 0 (l_array r) rsz)
    as (d & -> & Hlen & Hd); [lia|destruct Hp; lia|lia|destruct Hr; lia|]. simpl.
  destruct (leaf_with r (rsz + sz) d (leaf_entries r ++ leaf_entries p)) as (Hr' & He & _ & _); [done|lia|done| |].
  { replace (Z.to_nat (rsz + sz)) with (Z.to_nat rsz + Z.to_nat sz)%nat by lia.
    rewrite (take_copied (l_array p) (l_array r) d 0 (Z.to_nat rsz) (Z.to_nat sz));
      [by rewrite drop_0|destruct Hr; lia|destruct Hp; lia|].
    intros k. rewrite Hd. replace (k - Z.to_nat rsz + Z.to_nat 0)%nat with (k - Z.to_nat rsz + 0)%nat by lia.
    repeat case_decide; try done; lia. }
  eexists _, _. split; [reflexivity|]. split_and!; try done.
  - destruct Hp. by split.
  - by destruct Hr'.
Qed.

Lemma leaf_entries_head p e l : leaf_entries p = e :: l → l_array p !! 0%nat = Some e ∧ 0 < Leaf.GetSize p.
Proof.
  intros He. assert (leaf_entries p !! 0%nat = Some e) as H by (by rewrite He).
  unfold leaf_entries in H. apply lookup_take_Some in H as [H ?]. split; [done|lia].
Qed.

Lemma leaf_move_first_ok p r e l :
  leaf_shape p → leaf_shape r → Leaf.GetSize r < LEAF_SLOTS → leaf_entries p = e :: l →
  ∃ p' r', Leaf.MoveFirstToEndOf p r = Ok (p', r') ∧ leaf_shape p' ∧ leaf_shape r' ∧
    leaf_entries p' = l ∧ leaf_entries r' = leaf_entries r ++ [e] ∧ same_links p p' ∧ same_links r r'.
Proof.
  intros Hp Hr Hroom He. destruct (leaf_entries_head _ _ _ He) as [H0 Hpos].
  unfold Leaf.MoveFirstToEndOf. set (sz := Leaf.GetSize p) in *. set (rsz := Leaf.GetSize r) in *.
  assert (0 ≤ sz ≤ LEAF_SLOTS ∧ 0 ≤ rsz ≤ LEAF_SLOTS) as [Hsz Hrsz] by (split; [apply (ls_size _ Hp)|apply (ls_size _ Hr)]).
  rewrite (proj2 (Z.leb_gt _ _)) by lia.
  rewrite (proj2 (arr_get_lookup (l_array p) 0 e)) by (split; [lia|done]). simpl.
  rewrite arr_set_at by (destruct Hr; lia). simpl.
  destruct (shift_left_spec (Z.to_nat (sz - 1)) 0 (l_array p)) as (a' & -> & Hlen & Ha');
    [lia|destruct Hp; lia|]. simpl.
  destruct (leaf_with p (sz - 1) a' l) as (Hp' & He' & _ & Hl); [done|lia|done| |].
  { assert (l = drop 1 (take (Z.to_nat sz) (l_array p))) as ->
      by (change (take (Z.to_nat sz) (l_array p)) with (leaf_entries p); by rewrite He).
    pose proof (take_delete_shifted (l_array p) a' (Z.to_nat sz) 0) as Ht. simpl in Ht.
    rewrite <- Ht; [f_equal; lia|lia|destruct Hp; lia|done|].
    intros j. rewrite Ha'. repeat case_decide; try done; lia. }
  destruct (leaf_with r (rsz + 1) (<[Z.to_nat rsz := e]> (l_array r)) (leaf_entries r ++ [e]))
    as (Hr' & Her' & _ & Hlr); [done|lia|by rewrite length_insert| |].
  { replace (Z.to_nat (rsz + 1)) with (S (Z.to_nat rsz)) by lia.
    rewrite (take_S_r _ _ e) by (apply list_lookup_insert_eq; destruct Hr; lia).
    by rewrite take_insert_ge by lia. }
  eexists _, _. split; [reflexivity|]. by split_and!.
Qed.

Lemma leaf_move_last_ok p r e l :
  leaf_shape p → leaf_shape r → Leaf.GetSize r < LEAF_SLOTS → leaf_entries p = l ++ [e] →
  ∃ p' r', Leaf.MoveLastToFrontOf p r = Ok (p', r') ∧ leaf_shape p' ∧ leaf_shape r' ∧
    leaf_entries p' = l ∧ leaf_entries r' = e :: leaf_entries r ∧ same_links p p' ∧ same_links r r'.
Proof.
  intros Hp Hr Hroom He. pose proof (leaf_entries_length p Hp) as Hlen. rewrite He, length_app in Hlen. simpl in Hlen.
  unfold Leaf.MoveLastToFrontOf. set (sz := Leaf.GetSize p) in *. set (rsz := Leaf.GetSize r) in *.
  assert (0 ≤ sz ≤ LEAF_SLOTS ∧ 0 ≤ rsz ≤ LEAF_SLOTS) as [Hsz Hrsz] by (split; [apply (ls_size _ Hp)|apply (ls_size _ Hr)]).
  rewrite (proj2 (Z.leb_gt _ _)) by lia.
  destruct (shift_right_spec (Z.to_nat rsz) rsz (l_array r)) as (a' & -> & Hla & Ha'); [lia|destruct Hr; lia|]. simpl.
  assert (arr_get (l_array p) (sz - 1) = Ok e) as ->.
  { apply arr_get_lookup. split; [lia|]. replace (Z.to_nat (sz - 1)) with (length l) by lia.
    rewrite <- leaf_entries_lookup by (fold sz; lia). rewrite He. rewrite lookup_app_r, Nat.sub_diag by lia. done. }
  simpl. rewrite arr_set_at by (destruct Hr; lia). simpl. rewrite Z2Nat.inj_0.
  destruct (leaf_with p (sz - 1) (l_array p) l) as (Hp' & He' & _ & Hl); [done|lia|done| |].
  { replace (Z.to_nat (sz - 1)) with (length l) by lia.
    assert (take (length l) (l_array p) = take (length l) (leaf_entries p)) as ->.
    { unfold leaf_entries. fold sz. rewrite take_take. f_equal. lia. }
    by rewrite He, take_app_length. }
  destruct (leaf_with r (rsz + 1) (<[0%nat := e]> a') (e :: leaf_entries r)) as (Hr' & Her' & _ & Hlr);
    [done|lia|by rewrite length_insert| |].
  { replace (Z.to_nat (rsz + 1)) with (S (Z.to_nat rsz)) by lia.
    rewrite (take_insert_shifted (l_array r) a' (Z.to_nat rsz) 0); [done|lia|destruct Hr; lia|done|].
    intros j. rewrite Ha'. repeat case_decide; try done; lia. }
  eexists _, _. split; [reflexivity|]. by split_and!.
Qed.

(** ** Internal pages as lists of children with separators *)

(** The used entries; the key of the first one is not a separator. *)
Definition int_entries (p : InternalPage) : internal_array := take (Z.to_nat (Internal.GetSize p)) (i_array p).

Record int_shape (p : InternalPage) : Prop := {
  is_type : page_type_ (i_hdr p) = INTERNAL_PAGE;
  is_size : 0 ≤ Internal.GetSize p ≤ INTERNAL_SLOTS;
  is_len : Z.of_nat (length (i_array p)) = INTERNAL_SLOTS
}.

Definition same_parent (p q : InternalPage) : Prop :=
  parent_page_id_ (i_hdr q) = parent_page_id_ (i_hdr p) ∧ max_size_ (i_hdr q) = max_size_ (i_hdr p).

(** The child a key is routed to: [d] is the child before the separators [l]. *)
Fixpoint route (key d : Z) (l : internal_array) : Z :=
  match l with
  | [] => d
  | (k, v) :: l => if key <? k then d else route key v l
  end.

Lemma int_entries_length p : int_shape p → Z.of_nat (length (int_entries p)) = Internal.GetSize p.
Proof. intros [_ ? ?]. unfold int_entries. rewrite length_take. lia. Qed.

Lemma int_entries_lookup p (i : nat) :
  Z.of_nat i < Internal.GetSize p → int_entries p !! i = i_array p !! i.
Proof. intros. unfold int_entries. apply lookup_take_lt. lia. Qed.

Lemma int_entries_get p (i : nat) e : int_entries p !! i = Some e → arr_get (i_array p) (Z.of_nat i) = Ok e.
Proof. intros [H _]%lookup_take_Some. by apply arr_get_ok. Qed.

Lemma int_with (p : InternalPage) n a (l : internal_array) :
  int_shape p → 0 ≤ n ≤ INTERNAL_SLOTS → length a = length (i_array p) → take (Z.to_nat n) a = l →
  let q := Internal.SetSize n (Internal.SetArray a p) in
  int_shape q ∧ int_entries q = l ∧ same_parent p q.
Proof.
  intros [? ? ?] Hn Hl He. cbv zeta. split_and!; [|done|by split_and!].
  split; simpl; [done|done|congruence].
Qed.

Lemma lookup_loop_ok a key (l : internal_array) i r :
  (∀ j e, l !! j = Some e → arr_get a (i + Z.of_nat j) = Ok e) →
  Internal.lookup_loop (length l) a key i r = Ok (route key r l).
Proof.
  revert i r; induction l as [|[k v] l IH]; intros i r Ha; [done|]. simpl.
  pose proof (Ha 0%nat _ eq_refl) as H0. rewrite Z.add_0_r in H0. rewrite H0. simpl.
  destruct (key <? k); [done|]. apply IH. intros j e Hj.
  rewrite <- (Ha (S j) e Hj). f_equal. lia.
Qed.

Lemma int_lookup_ok p key k0 v0 l :
  int_shape p → int_entries p = (k0, v0) :: l → Internal.Lookup p key = Ok (route key v0 l).
Proof.
  intros Hp He. unfold Internal.Lookup, Internal.ValueAt.
  assert (∀ j e, ((k0, v0) :: l) !! j = Some e → arr_get (i_array p) (Z.of_nat j) = Ok e) as Hget.
  { intros j e. rewrite <- He. apply int_entries_get. }
  change 0 with (Z.of_nat 0) at 1. rewrite (Hget 0%nat _ eq_refl). simpl.
  pose proof (int_entries_length p Hp) as Hlen. rewrite He in Hlen. simpl in Hlen.
  replace (Z.to_nat (Internal.GetSize p - 1)) with (length l) by lia. apply lookup_loop_ok.
  intros j e Hj. rewrite <- (Hget (S j) e Hj). f_equal. lia.
Qed.

Lemma value_index_loop_ok a value (l : internal_array) i :
  (∀ j e, l !! j = Some e → arr_get a (i + Z.of_nat j) = Ok e) →
  match list_find (λ e, e.2 = value) l with
  | Some (j, _) => Internal.value_index_loop (length l) a value i = Ok (i + Z.of_nat j)
  | None => Internal.value_index_loop (length l) a value i = Ok (-1)
  end.
Proof.
  revert i; induction l as [|[k v] l IH]; intros i Ha; [done|]. simpl.
  pose proof (Ha 0%nat _ eq_refl) as H0. rewrite Z.add_0_r in H0. rewrite H0. simpl.
  destruct (Z.eqb_spec v value) as [->|Hne].
  - rewrite decide_True by done. by rewrite Z.add_0_r.
  - rewrite decide_False by done. specialize (IH (i + 1)).
    destruct (list_find _ l) as [[j e]|] eqn:Hf; simpl.
    + rewrite IH; [f_equal; lia|]. intros j' e' Hj. rewrite <- (Ha (S j') e' Hj). f_equal. lia.
    + rewrite IH; [done|]. intros j' e' Hj. rewrite <- (Ha (S j') e' Hj). f_equal. lia.
Qed.

(** The first position of a child. *)
Lemma int_value_index_ok p value l1 k l2 :
  int_shape p → int_entries p = l1 ++ (k, value) :: l2 → (∀ e, e ∈ l1 → e.2 ≠ value) →
  Internal.ValueIndex p value = Ok (Z.of_nat (length l1)).
Proof.
  intros Hp He Hn. unfold Internal.ValueIndex.
  pose proof (value_index_loop_ok (i_array p) value (int_entries p) 0) as H.
  pose proof (int_entries_length p Hp) as Hlen.
  replace (Z.to_nat (Internal.GetSize p)) with (length (int_entries p)) by lia.
  assert (list_find (λ e, e.2 = value) (int_entries p) = Some (length l1, (k, value))) as Hf.
  { rewrite He. apply list_find_Some. split_and!; [by rewrite lookup_app_r, Nat.sub_diag by lia|done|].
    intros j y Hy Hj. rewrite lookup_app_l in Hy by done. apply Hn. by eapply list_elem_of_lookup_2. }
  rewrite Hf in H. rewrite H; [done|]. intros j e Hj. by apply int_entries_get.
Qed.

Lemma int_insert_after_ok p old key new l1 k l2 :
  int_shape p → Internal.GetSize p < INTERNAL_SLOTS →
  int_entries p = l1 ++ (k, old) :: l2 → (∀ e, e ∈ l1 → e.2 ≠ old) →
  ∃ q, Internal.InsertNodeAfter old key new p = Ok (Internal.GetSize p + 1, q) ∧ int_shape q ∧
    int_entries q = l1 ++ (k, old) :: (key, new) :: l2 ∧ same_parent p q.
Proof.
  intros Hp Hroom He Hn. unfold Internal.InsertNodeAfter.
  rewrite (int_value_index_ok p old l1 k l2) by done. simpl. rewrite (proj2 (Z.ltb_ge _ _)) by lia.
  pose proof (int_entries_length p Hp) as Hlen. rewrite He, length_app in Hlen. simpl in Hlen.
  set (sz := Internal.GetSize p) in *. assert (0 ≤ sz ≤ INTERNAL_SLOTS) as Hsz by apply (is_size _ Hp).
  destruct (shift_right_spec (Z.to_nat (sz - Z.of_nat (length l1) - 1)) sz (i_array p)) as (a' & -> & Hla & Ha');
    [lia|destruct Hp; lia|]. simpl. rewrite arr_set_at by (destruct Hp; lia). simpl.
  destruct (int_with p (sz + 1) (<[Z.to_nat (Z.of_nat (length l1) + 1) := (key, new)]> a')
    (l1 ++ (k, old) :: (key, new) :: l2)) as (Hq & Heq & Hl); [done|lia|by rewrite length_insert| |].
  { replace (Z.to_nat (sz + 1)) with (S (Z.to_nat sz)) by lia.
    rewrite (take_insert_shifted (i_array p) a' (Z.to_nat sz)); [|lia|destruct Hp; lia|done|].
    - change (take (Z.to_nat sz) (i_array p)) with (int_entries p). rewrite He.
      replace (Z.to_nat (Z.of_nat (length l1) + 1)) with (S (length l1)) by lia.
      rewrite (cons_middle (k, old) l1 l2), app_assoc.
      rewrite take_app_length', drop_app_length' by (rewrite length_app; simpl; lia).
      by rewrite <- app_assoc.
    - intros j. rewrite Ha'. repeat case_decide; try done; lia. }
  eexists. split; [reflexivity|]. by split_and!.
Qed.

(** No room for one more child. *)
Lemma int_insert_after_full p old key new l1 k l2 :
  int_shape p → Internal.GetSize p = INTERNAL_SLOTS →
  int_entries p = l1 ++ (k, old) :: l2 → (∀ e, e ∈ l1 → e.2 ≠ old) →
  Internal.InsertNodeAfter old key new p = UB.
Proof.
  intros Hp Hfull He Hn. unfold Internal.InsertNodeAfter.
  rewrite (int_value_index_ok p old l1 k l2) by done. simpl. rewrite (proj2 (Z.ltb_ge _ _)) by lia.
  pose proof (int_entries_length p Hp) as Hlen. rewrite He, length_app in Hlen. simpl in Hlen.
  pose proof (is_len _ Hp) as Hla. rewrite Hfull in *.
  destruct (Z.to_nat (INTERNAL_SLOTS - Z.of_nat (length l1) - 1)) as [|n] eqn:Hm; simpl.
  - unfold arr_set. by rewrite decide_False by lia.
  - destruct (arr_get_at (i_array p) (INTERNAL_SLOTS - 1)) as (x & _ & ->); [lia|]. simpl.
    unfold arr_set. by rewrite decide_False by lia.
Qed.

Lemma int_remove_ok p l1 e l2 :
  int_shape p → int_entries p = l1 ++ e :: l2 →
  ∃ q, Internal.Remove (Z.of_nat (length l1)) p = Ok q ∧ int_shape q ∧ int_entries q = l1 ++ l2 ∧ same_parent p q.
Proof.
  intros Hp He. pose proof (int_entries_length p Hp) as Hlen. rewrite He, length_app in Hlen. simpl in Hlen.
  unfold Internal.Remove. set (sz := Internal.GetSize p) in *.
  assert (0 ≤ sz ≤ INTERNAL_SLOTS) as Hsz by apply (is_size _ Hp).
  rewrite (proj2 (Z.ltb_ge _ _)), (proj2 (Z.leb_gt _ _)) by lia. simpl.
  destruct (shift_left_spec (Z.to_nat (sz - 1 - Z.of_nat (length l1))) (Z.of_nat (length l1)) (i_array p))
    as (a' & -> & Hla & Ha'); [lia|destruct Hp; lia|]. simpl.
  destruct (int_with p (sz - 1) a' (l1 ++ l2)) as (Hq & Heq & Hl); [done|lia|done| |].
  { replace (Z.to_nat (sz - 1)) with (Z.to_nat sz - 1)%nat by lia.
    rewrite (take_delete_shifted (i_array p) a' (Z.to_nat sz) (length l1)); [|lia|destruct Hp; lia|done|].
    - change (take (Z.to_nat sz) (i_array p)) with (int_entries p). rewrite He.
      rewrite take_app_length. rewrite (cons_middle e l1 l2), app_assoc.
      by rewrite drop_app_length' by (rewrite length_app; simpl; lia).
    - intros j. rewrite Ha'. repeat case_decide; try done; lia. }
  eexists. split; [reflexivity|]. by split_and!.
Qed.

(** The moves of the internal pages.  The separator a parent holds between two
    siblings comes down as [mid]. *)
Lemma int_move_all_ok mid p r k0 v0 l :
  int_shape p → int_shape r → Internal.GetSize p + Internal.GetSize r ≤ INTERNAL_SLOTS →
  int_entries p = (k0, v0) :: l →
  ∃ p' r', Internal.MoveAllTo mid p r = Ok (p', r') ∧ int_shape r' ∧
    int_entries p' = [] ∧ int_entries r' = int_entries r ++ (mid, v0) :: l ∧ same_parent r r'.
Proof.
  intros Hp Hr Hroom He. pose proof (int_entries_length p Hp) as Hlen. rewrite He in Hlen. simpl in Hlen.
  unfold Internal.MoveAllTo, Internal.ValueAt. set (sz := Internal.GetSize p) in *. set (rsz := Internal.GetSize r) in *.
  assert (0 ≤ rsz ≤ INTERNAL_SLOTS) as Hrsz by apply (is_size _ Hr).
  rewrite (proj2 (Z.eqb_neq _ _)) by lia.
  rewrite (int_entries_get p 0 (k0, v0) ltac:(by rewrite He) : arr_get (i_array p) 0 = _). simpl.
  rewrite arr_set_at by (destruct Hr; lia). simpl.
  destruct (copy_range_spec (Z.to_nat (sz - 1)) (i_array p) 1 (<[Z.to_nat rsz := (mid, v0)]> (i_array r)) (rsz + 1))
    as (d & -> & Hld & Hd); [lia|destruct Hp; lia|lia|rewrite length_insert; destruct Hr; lia|]. simpl.
  rewrite length_insert in Hld.
  destruct (int_with r (rsz + 1 + Z.max 0 (sz - 1)) d (int_entries r ++ (mid, v0) :: l)) as (Hr' & Her & Hl);
    [done|lia|done| |].
  { replace (Z.to_nat (rsz + 1 + Z.max 0 (sz - 1))) with (S (Z.to_nat rsz) + Z.to_nat (sz - 1))%nat by lia.
    rewrite (take_copied (i_array p) (<[Z.to_nat rsz := (mid, v0)]> (i_array r)) d 1 (S (Z.to_nat rsz)) (Z.to_nat (sz - 1)));
      [|rewrite length_insert; destruct Hr; lia|destruct Hp; lia|].
    - rewrite (take_S_r _ _ (mid, v0)) by (apply list_lookup_insert_eq; destruct Hr; lia).
      rewrite take_insert_ge by lia. change (take (Z.to_nat rsz) (i_array r)) with (int_entries r).
      rewrite <- app_assoc. do 2 f_equal.
      assert (l = drop 1 (take (Z.to_nat sz) (i_array p))) as ->
        by (change (take (Z.to_nat sz) (i_array p)) with (int_entries p); by rewrite He).
      rewrite skipn_firstn_comm. f_equal. lia.
    - intros k. rewrite Hd. replace (k - Z.to_nat (rsz + 1) + Z.to_nat 1)%nat with (k - S (Z.to_nat rsz) + 1)%nat by lia.
      repeat case_decide; try done; lia. }
  eexists _, _. split; [reflexivity|]. by split_and!.
Qed.

Lemma int_move_half_ok mid p r l1 k v l2 :
  int_shape p → int_shape r → 1 < Internal.GetSize p → int_entries p = l1 ++ (k, v) :: l2 →
  Z.of_nat (length l1) = Z.quot (Internal.GetSize p) 2 →
  ∃ p' r', Internal.MoveHalfTo mid p r = Ok (p', r') ∧ int_shape p' ∧ int_shape r' ∧
    int_entries p' = l1 ∧ int_entries r' = (mid, v) :: l2 ∧ same_parent p p' ∧ same_parent r r'.
Proof.
  intros Hp Hr Hpos He Hl1. pose proof (int_entries_length p Hp) as Hlen. rewrite He, length_app in Hlen. simpl in Hlen.
  unfold Internal.MoveHalfTo, Internal.ValueAt. set (sz := Internal.GetSize p) in *.
  assert (0 ≤ sz ≤ INTERNAL_SLOTS) as Hsz by apply (is_size _ Hp).
  rewrite (proj2 (Z.leb_gt _ _)) by lia. rewrite <- Hl1.
  rewrite (int_entries_get p (length l1) (k, v)) by (rewrite He, lookup_app_r, Nat.sub_diag by lia; done). simpl.
  rewrite arr_set_at by (destruct Hr; lia). simpl.
  destruct (copy_range_spec (Z.to_nat (sz - Z.of_nat (length l1) - 1)) (i_array p) (Z.of_nat (length l1) + 1)
    (<[Z.to_nat 0 := (mid, v)]> (i_array r)) 1) as (d & -> & Hld & Hd);
    [lia|destruct Hp; lia|lia|rewrite length_insert; destruct Hr; lia|]. simpl. rewrite length_insert in Hld.
  destruct (int_with r (sz - Z.of_nat (length l1)) d ((mid, v) :: l2)) as (Hr' & Her & Hl); [done|lia|done| |].
  { replace (Z.to_nat (sz - Z.of_nat (length l1))) with (1 + Z.to_nat (sz - Z.of_nat (length l1) - 1))%nat by lia.
    rewrite (take_copied (i_array p) (<[Z.to_nat 0 := (mid, v)]> (i_array r)) d (S (length l1)) 1
               (Z.to_nat (sz - Z.of_nat (length l1) - 1))); [|rewrite length_insert; destruct Hr; lia|destruct Hp; lia|].
    - rewrite (take_S_r _ _ (mid, v)) by (apply list_lookup_insert_eq; destruct Hr; lia). simpl. f_equal.
      assert (l2 = drop (S (length l1)) (take (Z.to_nat sz) (i_array p))) as ->.
      { change (take (Z.to_nat sz) (i_array p)) with (int_entries p). rewrite He, (cons_middle (k, v) l1 l2), app_assoc.
        by rewrite drop_app_length' by (rewrite length_app; simpl; lia). }
      rewrite skipn_firstn_comm. f_equal. lia.
    - intros j. rewrite Hd. replace (j - Z.to_nat 1 + Z.to_nat (Z.of_nat (length l1) + 1))%nat
        with (j - 1 + S (length l1))%nat by lia. repeat case_decide; try done; lia. }
  destruct (int_with p (Z.of_nat (length l1)) (i_array p) l1) as (Hp' & Hep & Hlp); [done|lia|done| |].
  { rewrite Nat2Z.id. assert (take (length l1) (i_array p) = take (length l1) (int_entries p)) as ->.
    { unfold int_entries. fold sz. rewrite take_take. f_equal. lia. }
    by rewrite He, take_app_length. }
  eexists _, _. split; [reflexivity|]. by split_and!.
Qed.

(** The first child of the donor moves; the separator [k1] of the donor's first
    two children disappears from the page. *)
Lemma int_move_first_ok mid p r k0 v0 k1 v1 l :
  int_shape p → int_shape r → Internal.GetSize r < INTERNAL_SLOTS →
  int_entries p = (k0, v0) :: (k1, v1) :: l →
  ∃ p' r', Internal.MoveFirstToEndOf mid p r = Ok (p', r') ∧ int_shape p' ∧ int_shape r' ∧
    int_entries p' = (k0, v1) :: l ∧ int_entries r' = int_entries r ++ [(mid, v0)] ∧
    same_parent p p' ∧ same_parent r r'.
Proof.
  intros Hp Hr Hroom He. pose proof (int_entries_length p Hp) as Hlen. rewrite He in Hlen. simpl in Hlen.
  unfold Internal.MoveFirstToEndOf, Internal.ValueAt, Internal.set_value.
  set (sz := Internal.GetSize p) in *. set (rsz := Internal.GetSize r) in *.
  assert (0 ≤ sz ≤ INTERNAL_SLOTS ∧ 0 ≤ rsz ≤ INTERNAL_SLOTS) as [Hsz Hrsz] by (split; [apply (is_size _ Hp)|apply (is_size _ Hr)]).
  rewrite (proj2 (Z.leb_gt _ _)) by lia.
  rewrite (int_entries_get p 0 (k0, v0) ltac:(by rewrite He) : arr_get (i_array p) 0 = _). simpl.
  rewrite arr_set_at by (destruct Hr; lia). simpl. rewrite (proj2 (Z.eqb_neq _ _)) by lia.
  rewrite (int_entries_get p 1 (k1, v1) ltac:(by rewrite He) : arr_get (i_array p) 1 = _). simpl.
  rewrite arr_set_at by (destruct Hp; lia). simpl.
  destruct (shift_left_spec (Z.to_nat (sz - 2)) 1 (<[Z.to_nat 0 := (k0, v1)]> (i_array p))) as (a' & -> & Hla & Ha');
    [lia|rewrite length_insert; destruct Hp; lia|]. simpl. rewrite length_insert in Hla.
  assert (take (Z.to_nat sz) (<[0%nat := (k0, v1)]> (i_array p)) = (k0, v1) :: (k1, v1) :: l) as Htk.
  { rewrite take_insert_lt by lia. change (take (Z.to_nat sz) (i_array p)) with (int_entries p). by rewrite He. }
  destruct (int_with p (sz - 1) a' ((k0, v1) :: l)) as (Hp' & Hep & Hlp); [done|lia|done| |].
  { replace (Z.to_nat (sz - 1)) with (Z.to_nat sz - 1)%nat by lia.
    rewrite (take_delete_shifted (<[0%nat := (k0, v1)]> (i_array p)) a' (Z.to_nat sz) 1);
      [by rewrite Htk|lia|rewrite length_insert; destruct Hp; lia|by rewrite length_insert|].
    intros j. rewrite Ha'. repeat case_decide; try done; lia. }
  destruct (int_with r (rsz + 1) (<[Z.to_nat rsz := (mid, v0)]> (i_array r)) (int_entries r ++ [(mid, v0)]))
    as (Hr' & Her & Hlr); [done|lia|by rewrite length_insert| |].
  { replace (Z.to_nat (rsz + 1)) with (S (Z.to_nat rsz)) by lia.
    rewrite (take_S_r _ _ (mid, v0)) by (apply list_lookup_insert_eq; destruct Hr; lia).
    by rewrite take_insert_ge by lia. }
  eexists _, _. split; [reflexivity|]. by split_and!.
Qed.

(** The last child of the donor moves to the front; the shift writes one entry
    past the used ones. *)
Lemma int_move_last_ok mid p r l k v k0 v0 t :
  int_shape p → int_shape r → Internal.GetSize r + 1 < INTERNAL_SLOTS →
  int_entries p = l ++ [(k, v)] → int_entries r = (k0, v0) :: t →
  ∃ p' r', Internal.MoveLastToFrontOf mid p r = Ok (p', r') ∧ int_shape p' ∧ int_shape r' ∧
    int_entries p' = l ∧ int_entries r' = (k0, v) :: (mid, v0) :: t ∧ same_parent p p' ∧ same_parent r r'.
Proof.
  intros Hp Hr Hroom He Her0. pose proof (int_entries_length p Hp) as Hlen. rewrite He, length_app in Hlen. simpl in Hlen.
  pose proof (int_entries_length r Hr) as Hlenr. rewrite Her0 in Hlenr. simpl in Hlenr.
  unfold Internal.MoveLastToFrontOf, Internal.ValueAt, Internal.set_value.
  set (sz := Internal.GetSize p) in *. set (rsz := Internal.GetSize r) in *.
  assert (0 ≤ sz ≤ INTERNAL_SLOTS) as Hsz by apply (is_size _ Hp).
  rewrite (proj2 (Z.leb_gt _ _)) by lia. replace (sz - 1) with (Z.of_nat (length l)) by lia.
  rewrite (int_entries_get p (length l) (k, v)) by (rewrite He, lookup_app_r, Nat.sub_diag by lia; done). simpl.
  rewrite (proj2 (Z.eqb_neq _ _)) by lia.
  rewrite (int_entries_get r 0 (k0, v0) ltac:(by rewrite Her0) : arr_get (i_array r) 0 = _). simpl.
  destruct (shift_right_spec (Z.to_nat (rsz + 1)) (rsz + 1) (i_array r)) as (a' & -> & Hla & Ha'); [lia|destruct Hr; lia|].
  simpl. assert (a' !! 0%nat = Some (k0, v0)) as Ha0.
  { rewrite Ha', decide_False by lia. assert (int_entries r !! 0%nat = Some (k0, v0)) as H by (by rewrite Her0).
    rewrite int_entries_lookup in H by (fold rsz; lia). done. }
  rewrite (proj2 (arr_get_lookup a' 0 (k0, v0))) by (split; [lia|done]). simpl.
  rewrite arr_set_at by (destruct Hr; lia). simpl. rewrite arr_set_at by (rewrite length_insert; destruct Hr; lia). simpl.
  destruct (int_with p (Z.of_nat (length l)) (i_array p) l) as (Hp' & Hep & Hlp); [done|lia|done| |].
  { rewrite Nat2Z.id. assert (take (length l) (i_array p) = take (length l) (int_entries p)) as ->.
    { unfold int_entries. fold sz. rewrite take_take. f_equal. lia. }
    by rewrite He, take_app_length. }
  destruct (int_with r (rsz + 1) (<[Z.to_nat 1 := (mid, v0)]> (<[Z.to_nat 0 := (k0, v)]> a')) ((k0, v) :: (mid, v0) :: t))
    as (Hr' & Her & Hlr); [done|destruct Hr; lia|by rewrite !length_insert| |].
  { apply list_eq. intros j. destruct (decide (j < Z.to_nat (rsz + 1))%nat) as [Hj|Hj].
    2:{ rewrite lookup_take_ge by lia. symmetry. apply lookup_ge_None_2. simpl. lia. }
    rewrite lookup_take_lt by done. destruct j as [|[|j]].
    - rewrite list_lookup_insert_ne by lia. by rewrite list_lookup_insert_eq by (destruct Hr; lia).
    - by rewrite list_lookup_insert_eq by (rewrite length_insert; destruct Hr; lia).
    - rewrite !list_lookup_insert_ne by lia. rewrite Ha', decide_True by lia. simpl.
      assert (int_entries r !! S j = t !! j) as <- by (by rewrite Her0).
      by rewrite int_entries_lookup by (fold rsz; lia). }
  eexists _, _. split; [reflexivity|]. by split_and!.
Qed.

(** ** Routing *)

Lemma route_app key d l1 k v l2 :
  sorted_keys (l1 ++ (k, v) :: l2) →
  route key d (l1 ++ (k, v) :: l2) = if key <? k then route key d l1 else route key v l2.
Proof.
  revert d; induction l1 as [|[k1 v1] l1 IH]; intros d Hs; simpl; [done|].
  simpl in Hs. apply sorted_cons in Hs as [Hs Hlt]. rewrite IH by done.
  specialize (Hlt (k, v) ltac:(set_solver)). simpl in Hlt.
  destruct (Z.ltb_spec key k1), (Z.ltb_spec key k); try done; lia.
Qed.

(** The child of a key: the last one whose separator is not above the key. *)
Lemma route_spec key d l :
  sorted_keys l →
  ∃ l1 l2, l = l1 ++ l2 ∧ (∀ e, e ∈ l1 → e.1 ≤ key) ∧ (∀ e, e ∈ l2 → key < e.1) ∧
    route key d l = default d (snd <$> last l1).
Proof.
  revert d; induction l as [|[k v] l IH]; intros d Hs; simpl.
  { exists [], []. split_and!; [done|set_solver|set_solver|done]. }
  apply sorted_cons in Hs as [Hs Hlt]. destruct (Z.ltb_spec key k) as [Hk|Hk].
  - exists [], ((k, v) :: l). split_and!; [done|set_solver| |done].
    intros e [->|He]%elem_of_cons; simpl; [done|]. specialize (Hlt _ He). simpl in Hlt. lia.
  - destruct (IH v Hs) as (l1 & l2 & -> & H1 & H2 & ->). exists ((k, v) :: l1), l2.
    split_and!; [done| |done|].
    + intros e [->|He]%elem_of_cons; simpl; [done|by apply H1].
    + destruct l1 as [|e1 l1]; [done|]. rewrite last_cons_cons. by destruct (last (e1 :: l1)) eqn:E; [|by apply last_None in E].
Qed.

(** ** Properties *)

(** C31: a leaf page implements a finite map.  On a well-formed page [Lookup]
    answers what the map holds, [Insert] adds a new key and leaves the page as it
    is when the key is there, [RemoveAndDeleteRecord] deletes; the page stays
    well formed (sorted, in its 4096 bytes), and the only undefined case is the
    insertion of a new key in a page whose array is full. *)
Theorem leaf_page_is_a_map p key value :
  leaf_ok p →
  Leaf.Lookup p key = Ok (leaf_map p !! key) ∧
  (is_Some (leaf_map p !! key) → Leaf.Insert key value p = Ok (Leaf.GetSize p, p)) ∧
  (leaf_map p !! key = None → Leaf.GetSize p < LEAF_SLOTS →
     ∃ q, Leaf.Insert key value p = Ok (Leaf.GetSize p + 1, q) ∧ leaf_ok q ∧
       leaf_map q = <[key := value]> (leaf_map p) ∧ same_links p q) ∧
  (leaf_map p !! key = None → Leaf.GetSize p = LEAF_SLOTS → Leaf.Insert key value p = UB) ∧
  (is_Some (leaf_map p !! key) →
     ∃ q, Leaf.RemoveAndDeleteRecord key p = Ok (Leaf.GetSize p - 1, q) ∧ leaf_ok q ∧
       leaf_map q = delete key (leaf_map p) ∧ same_links p q) ∧
  (leaf_map p !! key = None → Leaf.RemoveAndDeleteRecord key p = Ok (Leaf.GetSize p, p)).
Proof.
  intros Hok. pose proof (leaf_insert_ok p key value Hok) as Hi. pose proof (leaf_remove_ok p key Hok) as Hr.
  split; [by apply leaf_lookup_ok|]. destruct (leaf_map p !! key) as [v|] eqn:E.
  - split_and!; [done|done|done| |done]. intros _. destruct Hr as (q & ? & ? & ? & _ & ?). by exists q.
  - split_and!; [by intros [? ?]| | |by intros [? ?]|done].
    + intros _ Hroom. rewrite decide_True in Hi by done. destruct Hi as (q & ? & ? & ? & _ & ? & _). by exists q.
    + intros _ Hfull. by rewrite decide_False in Hi by lia.
Qed.

(** Splitting an internal page preserves routing.  When the page is split at
    its middle separator, which goes to the parent, a search that compares with
    that separator first ends at the child where it ended before the split. *)
Theorem internal_split_routes p r k0 v0 l1 k v l2 key :
  int_shape p → int_shape r → int_entries p = (k0, v0) :: l1 ++ (k, v) :: l2 →
  sorted_keys (l1 ++ (k, v) :: l2) → Z.of_nat (S (length l1)) = Z.quot (Internal.GetSize p) 2 →
  ∃ p' r', Internal.KeyAt p (Z.quot (Internal.GetSize p) 2) = Ok k ∧
    Internal.MoveHalfTo k p r = Ok (p', r') ∧ int_shape p' ∧ int_shape r' ∧
    Internal.Lookup p key = if key <? k then Internal.Lookup p' key else Internal.Lookup r' key.
Proof.
  intros Hp Hr He Hs Hl. pose proof (int_entries_length p Hp) as Hlen. rewrite He in Hlen.
  simpl in Hlen. rewrite length_app in Hlen. simpl in Hlen.
  destruct (int_move_half_ok k p r ((k0, v0) :: l1) k v l2) as (p' & r' & Hm & Hp' & Hr' & Hep & Her & _); [done|done|lia|done|done|].
  exists p', r'. split_and!; [|done|done|done|].
  - unfold Internal.KeyAt. rewrite <- Hl. rewrite (int_entries_get p (S (length l1)) (k, v)); [done|].
    rewrite He. simpl. by rewrite lookup_app_r, Nat.sub_diag by lia.
  - rewrite (int_lookup_ok p key k0 v0 _ Hp He), route_app by done.
    destruct (key <? k); symmetry.
    + by apply (int_lookup_ok p' key k0 v0).
    + by apply (int_lookup_ok r' key k v).
Qed.

(** ** Witnesses *)
Definition demo_leaf : LeafPage :=
  mkLeaf (mkHdr LEAF_PAGE 2 3 7) 9
    ([(10, mkRID 1 0); (20, mkRID 1 1)] ++ replicate 337 (0, RID_default)).

Lemma demo_leaf_ok : leaf_ok demo_leaf.
Proof.
  split; [split; [done|vm_compute; split; discriminate|done]|].
  change (leaf_entries demo_leaf) with [(10, mkRID 1 0); (20, mkRID 1 1)].
  apply sorted_cons. split; [apply sorted_cons; split; [apply sorted_nil|set_solver]|].
  intros y ->%list_elem_of_singleton. simpl. lia.
Qed.

Lemma leaf_page_is_a_map_witness :
  Leaf.Lookup demo_leaf 20 = Ok (Some (mkRID 1 1)) ∧
  ∃ q, Leaf.Insert 15 (mkRID 2 0) demo_leaf = Ok (3, q) ∧ leaf_ok q.
Proof.
  destruct (leaf_page_is_a_map demo_leaf 15 (mkRID 2 0) demo_leaf_ok) as (_ & _ & H & _).
  destruct (leaf_page_is_a_map demo_leaf 20 (mkRID 2 0) demo_leaf_ok) as (H20 & _).
  split; [rewrite H20; vm_compute; reflexivity|].
  destruct H as (q & Hq & Hok & _); [vm_compute; reflexivity|vm_compute; reflexivity|].
  exists q. split; [exact Hq|exact Hok].
Defined.

Definition demo_internal : InternalPage :=
  mkInternal (mkHdr INTERNAL_PAGE 4 3 (-1)) ([(0, 1); (10, 2); (20, 3); (30, 4)] ++ replicate 506 (0, 0)).
Definition empty_internal : InternalPage := Internal.Init 3 (replicate 510 (0, 0)).

Lemma internal_split_routes_witness :
  ∃ p' r', Internal.MoveHalfTo 20 demo_internal empty_internal = Ok (p', r') ∧
    Internal.Lookup demo_internal 25 = Internal.Lookup r' 25.
Proof.
  destruct (internal_split_routes demo_internal empty_internal 0 1 [(10, 2)] 20 3 [(30, 4)] 25)
    as (p' & r' & _ & Hm & _ & _ & H).
  - split; [reflexivity|vm_compute; split; discriminate|reflexivity].
  - split; [reflexivity|vm_compute; split; discriminate|reflexivity].
  - reflexivity.
  - simpl. repeat (apply sorted_cons; split; [|intros y Hy; repeat (apply elem_of_cons in Hy as [->|Hy]; [simpl; lia|]); by apply elem_of_nil in Hy]).
    apply sorted_nil.
  - reflexivity.
  - exists p', r'. split; [exact Hm|exact H].
Defined.
