(* ===== verification/BPlusTree.v ===== *)
(** * The B+ tree index and its iterator

    [src/src/storage/index/b_plus_tree.cpp], [b_plus_tree_iterator.cpp] and their
    headers, at [<int, RID, std::less<int>>], over any page store that implements
    [PageIO].  The page contents are the index pages of [BPlusPage]; the casts of
    [GetData()] are [as_leaf] and [as_internal].  The [while (true)] loops take
    fuel. *)

From S2P Require Import Prelude Common SortedAssoc BPlusPage PageStore PageIO.
From S2P Require Disk BufferPool.

(** ** Index pages in the page store *)

(** What the 4096 bytes of a page hold: zeros, a leaf or an internal page. *)
Inductive IndexPage :=
  | PageZero
  | PageLeaf (p : LeafPage)
  | PageInternal (p : InternalPage).

Definition zero_hdr : BPlusTreePage := mkHdr INVALID_INDEX_PAGE 0 0 0.
Definition zero_leaf_array : leaf_array := replicate (Z.to_nat LEAF_SLOTS) (0, mkRID 0 0).
Definition zero_internal_array : internal_array := replicate (Z.to_nat INTERNAL_SLOTS) (0, 0).

(** [reinterpret_cast]: the header of any page; a page of zeros seen as either
    kind.  Seeing a leaf as an internal page, or the converse, is not modelled. *)
Definition as_page (d : IndexPage) : BPlusTreePage :=
  match d with PageZero => zero_hdr | PageLeaf p => l_hdr p | PageInternal p => i_hdr p end.
Definition as_leaf (d : IndexPage) : res LeafPage :=
  match d with
  | PageZero => Ok (mkLeaf zero_hdr 0 zero_leaf_array)
  | PageLeaf p => Ok p
  | PageInternal _ => UB
  end.
Definition as_internal (d : IndexPage) : res InternalPage :=
  match d with
  | PageZero => Ok (mkInternal zero_hdr zero_internal_array)
  | PageInternal p => Ok p
  | PageLeaf _ => UB
  end.

(** [SetParentPageId] through a [BPlusTreePage *]. *)
Definition with_parent (pid : Z) (d : IndexPage) : IndexPage :=
  match d with
  | PageZero => PageZero
  | PageLeaf p => PageLeaf (Leaf.SetParentPageId pid p)
  | PageInternal p => PageInternal (Internal.SetParentPageId pid p)
  end.

Section BPlusTree.
Context {Pool : Type} `{!PageIO IndexPage Pool}.

(** ** State *)
Record BPlusTree := mkTree {
  bpm_ : Pool;
  root_page_id_ : Z;
  leaf_max_size_ : Z;
  internal_max_size_ : Z
}.

#[local] Notation T := (ST BPlusTree).

(** The constructor. *)
Definition BPlusTree_new (bpm : Pool) (leaf_max_size internal_max_size : Z) : BPlusTree :=
  mkTree bpm INVALID_PAGE_ID
    (if leaf_max_size =? 0 then (PAGE_SIZE - 16 - 4) / (4 + 8) else leaf_max_size)
    (if internal_max_size =? 0 then (PAGE_SIZE - 16) / (4 + 4) else internal_max_size).

Definition set_root (pid : Z) (t : BPlusTree) : BPlusTree :=
  mkTree (bpm_ t) pid (leaf_max_size_ t) (internal_max_size_ t).
Definition on_bpm {A} (m : ST Pool A) : T A :=
  st_zoom bpm_ (λ s t, mkTree s (root_page_id_ t) (leaf_max_size_ t) (internal_max_size_ t)) m.

Definition FetchPage (pid : Z) : T (option Z) := on_bpm (io_fetch pid).
Definition UnpinPage (pid : Z) (dirty : bool) : T bool := on_bpm (io_unpin pid dirty).
Definition NewPage : T (option (Z * Z)) := on_bpm io_new.
Definition DeletePage (pid : Z) : T bool := on_bpm (io_delete pid).

(** [FetchPage] with its null check, and without one. *)
Definition fetch_or_throw (msg : string) (pid : Z) : T Z :=
  o ← FetchPage pid;
  match o with Some f => mret f | None => st_throw (RuntimeError msg) end.
Definition fetch_deref (pid : Z) : T Z :=
  o ← FetchPage pid;
  match o with Some f => mret f | None => st_ub end.
Definition new_or_throw (msg : string) : T (Z * Z) :=
  o ← NewPage;
  match o with Some x => mret x | None => st_throw (RuntimeError msg) end.

(** Reads and writes through a pointer into a frame. *)
Definition read_page (f : Z) : T BPlusTreePage := d ← on_bpm (io_read f); mret (as_page d).
Definition read_leaf (f : Z) : T LeafPage := d ← on_bpm (io_read f); st_lift (as_leaf d).
Definition read_internal (f : Z) : T InternalPage := d ← on_bpm (io_read f); st_lift (as_internal d).
Definition write_leaf (f : Z) (p : LeafPage) : T unit := on_bpm (io_write f (λ _, PageLeaf p)).
Definition write_internal (f : Z) (p : InternalPage) : T unit := on_bpm (io_write f (λ _, PageInternal p)).
Definition write_parent (f pid : Z) : T unit := on_bpm (io_write f (with_parent pid)).

Definition IsEmpty (t : BPlusTree) : bool := root_page_id_ t =? INVALID_PAGE_ID.

(** ** Search *)

Fixpoint get_value_loop (fuel : nat) (key cur : Z) : T (option RID) :=
  match fuel with
  | O => st_fuel
  | S fuel =>
      f ← fetch_or_throw "GetValue: FetchPage failed" cur;
      node ← read_page f;
      if IsLeafPage node then
        leaf ← read_leaf f;
        v ← st_lift (Leaf.Lookup leaf key);
        _ ← UnpinPage cur false;
        mret v
      else
        internal ← read_internal f;
        nxt ← st_lift (Internal.Lookup internal key);
        _ ← UnpinPage cur false;
        get_value_loop fuel key nxt
  end.

(** [Some v] models the answer [true] with [v] pushed on the result. *)
Definition GetValue (fuel : nat) (key : Z) : T (option RID) :=
  t ← st_get;
  if IsEmpty t then mret None else get_value_loop fuel key (root_page_id_ t).

(** ** The iterator ([b_plus_tree_iterator.cpp]) *)
Record BPlusTreeIterator := mkIter { it_page_id : Z; it_index : Z }.

Definition End : BPlusTreeIterator := mkIter INVALID_PAGE_ID 0.
Definition IsEnd (it : BPlusTreeIterator) : bool := it_page_id it =? INVALID_PAGE_ID.
Definition iter_eqb (a b : BPlusTreeIterator) : bool :=
  (it_page_id a =? it_page_id b) && (it_index a =? it_index b).

(** [operator*]. *)
Definition Deref (it : BPlusTreeIterator) : T (Z * RID) :=
  if IsEnd it then st_throw (OutOfRange "BPlusTreeIterator::operator*: dereference end iterator")
  else
    f ← fetch_or_throw "BPlusTreeIterator::operator*: FetchPage failed" (it_page_id it);
    leaf ← read_leaf f;
    if (it_index it <? 0) || (Leaf.GetSize leaf <=? it_index it) then
      _ ← UnpinPage (it_page_id it) false;
      st_throw (OutOfRange "BPlusTreeIterator::operator*: index out of range")
    else
      k ← st_lift (Leaf.KeyAt leaf (it_index it));
      v ← st_lift (Leaf.ValueAt leaf (it_index it));
      _ ← UnpinPage (it_page_id it) false;
      mret (k, v).

(** [operator++]. *)
Definition Next (it : BPlusTreeIterator) : T BPlusTreeIterator :=
  if IsEnd it then mret it
  else
    f ← fetch_or_throw "BPlusTreeIterator::operator++: FetchPage failed" (it_page_id it);
    leaf ← read_leaf f;
    let index := it_index it + 1 in
    if Leaf.GetSize leaf <=? index then
      let next := next_page_id_ leaf in
      _ ← UnpinPage (it_page_id it) false;
      mret (if next =? INVALID_PAGE_ID then End else mkIter next 0)
    else
      _ ← UnpinPage (it_page_id it) false;
      mret (mkIter (it_page_id it) index).

Fixpoint begin_loop (fuel : nat) (cur : Z) : T BPlusTreeIterator :=
  match fuel with
  | O => st_fuel
  | S fuel =>
      f ← fetch_or_throw "Begin: FetchPage failed" cur;
      node ← read_page f;
      if IsLeafPage node then
        _ ← UnpinPage cur false;
        mret (mkIter cur 0)
      else
        internal ← read_internal f;
        nxt ← st_lift (Internal.ValueAt internal 0);
        _ ← UnpinPage cur false;
        begin_loop fuel nxt
  end.

Definition Begin (fuel : nat) : T BPlusTreeIterator :=
  t ← st_get;
  if IsEmpty t then mret End else begin_loop fuel (root_page_id_ t).

Fixpoint begin_at_loop (fuel : nat) (key cur : Z) : T BPlusTreeIterator :=
  match fuel with
  | O => st_fuel
  | S fuel =>
      f ← fetch_or_throw "Begin(key): FetchPage failed" cur;
      node ← read_page f;
      if IsLeafPage node then
        leaf ← read_leaf f;
        idx ← st_lift (Leaf.KeyIndex leaf key);
        if Leaf.GetSize leaf <=? idx then
          let nxt := next_page_id_ leaf in
          _ ← UnpinPage cur false;
          mret (if nxt =? INVALID_PAGE_ID then End else mkIter nxt 0)
        else
          _ ← UnpinPage cur false;
          mret (mkIter cur idx)
      else
        internal ← read_internal f;
        nxt ← st_lift (Internal.Lookup internal key);
        _ ← UnpinPage cur false;
        begin_at_loop fuel key nxt
  end.

(** [Begin(key)]. *)
Definition BeginAt (fuel : nat) (key : Z) : T BPlusTreeIterator :=
  t ← st_get;
  if IsEmpty t then mret End else begin_at_loop fuel key (root_page_id_ t).

(** ** Insertion *)

(** The lambda [set_children_parent] of [Insert] and [Remove]: [f] is the frame
    of the internal page, [n] the number of its children left from index [i]. *)
Fixpoint set_children_parent (msg : string) (f in_pid : Z) (n : nat) (i : Z) : T unit :=
  match n with
  | O => mret tt
  | S n =>
      inp ← read_internal f;
      child ← st_lift (Internal.ValueAt inp i);
      cf ← fetch_or_throw msg child;
      _ ← write_parent cf in_pid;
      _ ← UnpinPage child true;
      set_children_parent msg f in_pid n (i + 1)
  end.

(** The empty tree: a root leaf. *)
Definition insert_first (key : Z) (value : RID) : T bool :=
  t ← st_get;
  '(root_pid, f) ← new_or_throw "Insert: NewPage failed";
  leaf ← read_leaf f;
  let leaf := Leaf.SetParentPageId INVALID_PAGE_ID (Leaf.Init (leaf_max_size_ t) (l_array leaf)) in
  _ ← st_modify (set_root root_pid);
  '(after, leaf) ← st_lift (Leaf.Insert key value leaf);
  _ ← write_leaf f leaf;
  _ ← UnpinPage root_pid (0 <? after);
  mret true.

(** A new root above the two halves. *)
Definition new_root (left_pid up_key right_pid : Z) : T bool :=
  t ← st_get;
  '(new_root_pid, rf) ← new_or_throw "Insert: NewPage(new root) failed";
  d ← read_internal rf;
  let root := Internal.SetParentPageId INVALID_PAGE_ID (Internal.Init (internal_max_size_ t) (i_array d)) in
  root ← st_lift (Internal.PopulateNewRoot left_pid up_key right_pid root);
  _ ← write_internal rf root;
  _ ← st_modify (set_root new_root_pid);
  c1 ← fetch_deref left_pid;
  _ ← write_parent c1 new_root_pid;
  _ ← UnpinPage left_pid true;
  c2 ← fetch_deref right_pid;
  _ ← write_parent c2 new_root_pid;
  _ ← UnpinPage right_pid true;
  _ ← UnpinPage new_root_pid true;
  mret true.

(** Splitting an internal page that overflows: the key that moves up and the new
    page. *)
Definition split_internal (parent_pid : Z) : T (Z * Z) :=
  t ← st_get;
  pf ← fetch_or_throw "Insert: FetchPage(parent for split) failed" parent_pid;
  old_in ← read_internal pf;
  promote ← st_lift (Internal.KeyAt old_in (Z.quot (Internal.GetSize old_in) 2));
  '(new_in_pid, nf) ← new_or_throw "Insert: NewPage for internal split failed";
  d ← read_internal nf;
  let new_in := Internal.SetParentPageId (parent_page_id_ (i_hdr old_in))
                  (Internal.Init (internal_max_size_ t) (i_array d)) in
  '(old_in, new_in) ← st_lift (Internal.MoveHalfTo promote old_in new_in);
  _ ← write_internal pf old_in;
  _ ← write_internal nf new_in;
  _ ← set_children_parent "Insert: FetchPage(child) failed" nf new_in_pid
        (Z.to_nat (Internal.GetSize new_in)) 0;
  _ ← UnpinPage parent_pid true;
  _ ← UnpinPage new_in_pid true;
  mret (promote, new_in_pid).

(** The loop that inserts the right half into the parent of the left one. *)
Fixpoint insert_into_parent (fuel : nat) (left_pid up_key right_pid : Z) : T bool :=
  match fuel with
  | O => st_fuel
  | S fuel =>
      lf ← fetch_or_throw "Insert: FetchPage(left) failed" left_pid;
      lnode ← read_page lf;
      let parent_pid := parent_page_id_ lnode in
      _ ← UnpinPage left_pid false;
      if parent_pid =? INVALID_PAGE_ID then new_root left_pid up_key right_pid
      else
        pf ← fetch_or_throw "Insert: FetchPage(parent) failed" parent_pid;
        parent ← read_internal pf;
        '(_, parent) ← st_lift (Internal.InsertNodeAfter left_pid up_key right_pid parent);
        _ ← write_internal pf parent;
        rf ← fetch_or_throw "Insert: FetchPage(right child) failed" right_pid;
        _ ← write_parent rf parent_pid;
        _ ← UnpinPage right_pid true;
        let parent_overflow := max_size_ (i_hdr parent) <? Internal.GetSize parent in
        _ ← UnpinPage parent_pid true;
        if negb parent_overflow then mret true
        else
          '(promote, new_in_pid) ← split_internal parent_pid;
          insert_into_parent fuel parent_pid promote new_in_pid
  end.

(** Splitting a leaf that overflows: the first key of the new leaf and its page. *)
Definition split_leaf (cur : Z) : T (Z * Z) :=
  t ← st_get;
  '(new_leaf_pid, nf) ← new_or_throw "Insert: NewPage for leaf split failed";
  d ← read_leaf nf;
  let new_leaf := Leaf.Init (leaf_max_size_ t) (l_array d) in
  olf ← fetch_or_throw "Insert: FetchPage(old leaf) failed" cur;
  old_leaf ← read_leaf olf;
  let new_leaf := Leaf.SetParentPageId (parent_page_id_ (l_hdr old_leaf)) new_leaf in
  '(old_leaf, new_leaf) ← st_lift (Leaf.MoveHalfTo old_leaf new_leaf);
  let new_leaf := Leaf.SetNextPageId (next_page_id_ old_leaf) new_leaf in
  let old_leaf := Leaf.SetNextPageId new_leaf_pid old_leaf in
  push_up_key ← st_lift (Leaf.KeyAt new_leaf 0);
  _ ← write_leaf olf old_leaf;
  _ ← write_leaf nf new_leaf;
  _ ← UnpinPage cur true;
  _ ← UnpinPage new_leaf_pid true;
  mret (push_up_key, new_leaf_pid).

Fixpoint insert_loop (fuel pfuel : nat) (key : Z) (value : RID) (cur : Z) : T bool :=
  match fuel with
  | O => st_fuel
  | S fuel =>
      f ← fetch_or_throw "Insert: FetchPage failed" cur;
      node ← read_page f;
      if negb (IsLeafPage node) then
        internal ← read_internal f;
        nxt ← st_lift (Internal.Lookup internal key);
        _ ← UnpinPage cur false;
        insert_loop fuel pfuel key value nxt
      else
        leaf ← read_leaf f;
        let before := Leaf.GetSize leaf in
        '(after, leaf) ← st_lift (Leaf.Insert key value leaf);
        let inserted := negb (after =? before) in
        _ ← (if inserted then write_leaf f leaf else mret tt);
        let overflow := max_size_ (l_hdr leaf) <? Leaf.GetSize leaf in
        _ ← UnpinPage cur (inserted || overflow);
        if negb inserted then mret false
        else if negb overflow then mret true
        else
          '(push_up_key, new_leaf_pid) ← split_leaf cur;
          insert_into_parent pfuel cur push_up_key new_leaf_pid
  end.

(** [fuel] bounds the descent, and the loop up the tree. *)
Definition Insert (fuel : nat) (key : Z) (value : RID) : T bool :=
  t ← st_get;
  if IsEmpty t then insert_first key value else insert_loop fuel fuel key value (root_page_id_ t).

(** ** Removal *)

Definition leaf_min_size (leaf_max : Z) : Z := Z.quot leaf_max 2.
Definition internal_min_size (internal_max : Z) : Z := Z.quot (internal_max + 1) 2.

(** What an iteration of the underflow loop leaves to do. *)
Inductive step_result := Finished | GoUp (pid : Z).

(** After a merge: the root that has one child left, or a parent that underflows.
    [pf] is the parent's frame. *)
Definition shrink_root_or_go_up (parent_pid pf : Z) : T step_result :=
  parent ← read_internal pf;
  if parent_page_id_ (i_hdr parent) =? INVALID_PAGE_ID then
    if Internal.GetSize parent =? 1 then
      '(new_root_pid, parent) ← st_lift (Internal.RemoveAndReturnOnlyChild parent);
      _ ← write_internal pf parent;
      _ ← st_modify (set_root new_root_pid);
      cf ← fetch_deref new_root_pid;
      _ ← write_parent cf INVALID_PAGE_ID;
      _ ← UnpinPage new_root_pid true;
      _ ← UnpinPage parent_pid true;
      _ ← DeletePage parent_pid;
      mret Finished
    else
      _ ← UnpinPage parent_pid true;
      mret Finished
  else
    let parent_under := Internal.GetSize parent <? internal_min_size (max_size_ (i_hdr parent)) in
    _ ← UnpinPage parent_pid true;
    mret (if parent_under then GoUp parent_pid else Finished).

(** Borrowing from a sibling leaf: [true] if the underflow is cured. *)
Definition leaf_borrow_left (under_pid uf parent_pid pf index left_sib : Z) : T bool :=
  if left_sib =? INVALID_PAGE_ID then mret false
  else
    lf ← fetch_deref left_sib;
    leaf_l ← read_leaf lf;
    if leaf_min_size (max_size_ (l_hdr leaf_l)) <? Leaf.GetSize leaf_l then
      leaf_u ← read_leaf uf;
      '(leaf_l, leaf_u) ← st_lift (Leaf.MoveLastToFrontOf leaf_l leaf_u);
      _ ← write_leaf lf leaf_l;
      _ ← write_leaf uf leaf_u;
      k ← st_lift (Leaf.KeyAt leaf_u 0);
      parent ← read_internal pf;
      parent ← st_lift (Internal.SetKeyAt index k parent);
      _ ← write_internal pf parent;
      _ ← UnpinPage left_sib true;
      _ ← UnpinPage under_pid true;
      _ ← UnpinPage parent_pid true;
      mret true
    else
      _ ← UnpinPage left_sib false;
      mret false.

Definition leaf_borrow_right (under_pid uf parent_pid pf index right_sib : Z) : T bool :=
  if right_sib =? INVALID_PAGE_ID then mret false
  else
    rf ← fetch_deref right_sib;
    leaf_r ← read_leaf rf;
    if leaf_min_size (max_size_ (l_hdr leaf_r)) <? Leaf.GetSize leaf_r then
      leaf_u ← read_leaf uf;
      '(leaf_r, leaf_u) ← st_lift (Leaf.MoveFirstToEndOf leaf_r leaf_u);
      _ ← write_leaf rf leaf_r;
      _ ← write_leaf uf leaf_u;
      k ← st_lift (Leaf.KeyAt leaf_r 0);
      parent ← read_internal pf;
      parent ← st_lift (Internal.SetKeyAt (index + 1) k parent);
      _ ← write_internal pf parent;
      _ ← UnpinPage right_sib true;
      _ ← UnpinPage under_pid true;
      _ ← UnpinPage parent_pid true;
      mret true
    else
      _ ← UnpinPage right_sib false;
      mret false.

Definition leaf_merge (under_pid uf pf index left_sib right_sib : Z) : T unit :=
  if index =? 0 then
    rf ← fetch_deref right_sib;
    leaf_r ← read_leaf rf;
    leaf_u ← read_leaf uf;
    '(leaf_r, leaf_u) ← st_lift (Leaf.MoveAllTo leaf_r leaf_u);
    _ ← write_leaf rf leaf_r;
    _ ← write_leaf uf leaf_u;
    _ ← UnpinPage right_sib true;
    _ ← DeletePage right_sib;
    parent ← read_internal pf;
    parent ← st_lift (Internal.Remove 1 parent);
    _ ← write_internal pf parent;
    _ ← UnpinPage under_pid true;
    mret tt
  else
    lf ← fetch_deref left_sib;
    leaf_l ← read_leaf lf;
    leaf_u ← read_leaf uf;
    '(leaf_u, leaf_l) ← st_lift (Leaf.MoveAllTo leaf_u leaf_l);
    _ ← write_leaf uf leaf_u;
    _ ← write_leaf lf leaf_l;
    _ ← UnpinPage left_sib true;
    _ ← UnpinPage under_pid true;
    _ ← DeletePage under_pid;
    parent ← read_internal pf;
    parent ← st_lift (Internal.Remove index parent);
    write_internal pf parent.

(** The iteration for a leaf. *)
Definition fix_leaf (under_pid parent_pid pf index left_sib right_sib : Z) : T step_result :=
  uf ← fetch_deref under_pid;
  leaf_u ← read_leaf uf;
  if leaf_min_size (max_size_ (l_hdr leaf_u)) <=? Leaf.GetSize leaf_u then
    _ ← UnpinPage under_pid false;
    _ ← UnpinPage parent_pid false;
    mret Finished
  else
    l ← leaf_borrow_left under_pid uf parent_pid pf index left_sib;
    if (l : bool) then mret Finished
    else
      r ← leaf_borrow_right under_pid uf parent_pid pf index right_sib;
      if (r : bool) then mret Finished
      else
        _ ← leaf_merge under_pid uf pf index left_sib right_sib;
        shrink_root_or_go_up parent_pid pf.

(** Borrowing from a sibling internal page. *)
Definition remove_msg : string := "Remove: FetchPage(child) failed".

Definition int_borrow_left (under_pid uf parent_pid pf index left_sib : Z) : T bool :=
  if left_sib =? INVALID_PAGE_ID then mret false
  else
    lf ← fetch_deref left_sib;
    in_l ← read_internal lf;
    if internal_min_size (max_size_ (i_hdr in_l)) <? Internal.GetSize in_l then
      new_parent_key ← st_lift (Internal.KeyAt in_l (Internal.GetSize in_l - 1));
      parent ← read_internal pf;
      sep ← st_lift (Internal.KeyAt parent index);
      in_u ← read_internal uf;
      '(in_l, in_u) ← st_lift (Internal.MoveLastToFrontOf sep in_l in_u);
      _ ← write_internal lf in_l;
      _ ← write_internal uf in_u;
      _ ← set_children_parent remove_msg uf under_pid (Z.to_nat (Internal.GetSize in_u)) 0;
      parent ← read_internal pf;
      parent ← st_lift (Internal.SetKeyAt index new_parent_key parent);
      _ ← write_internal pf parent;
      _ ← UnpinPage left_sib true;
      _ ← UnpinPage under_pid true;
      _ ← UnpinPage parent_pid true;
      mret true
    else
      _ ← UnpinPage left_sib false;
      mret false.

Definition int_borrow_right (under_pid uf parent_pid pf index right_sib : Z) : T bool :=
  if right_sib =? INVALID_PAGE_ID then mret false
  else
    rf ← fetch_deref right_sib;
    in_r ← read_internal rf;
    if internal_min_size (max_size_ (i_hdr in_r)) <? Internal.GetSize in_r then
      parent ← read_internal pf;
      sep ← st_lift (Internal.KeyAt parent (index + 1));
      in_u ← read_internal uf;
      '(in_r, in_u) ← st_lift (Internal.MoveFirstToEndOf sep in_r in_u);
      _ ← write_internal rf in_r;
      _ ← write_internal uf in_u;
      _ ← set_children_parent remove_msg uf under_pid (Z.to_nat (Internal.GetSize in_u)) 0;
      k ← st_lift (Internal.KeyAt in_r 1);
      parent ← read_internal pf;
      parent ← st_lift (Internal.SetKeyAt (index + 1) k parent);
      _ ← write_internal pf parent;
      _ ← UnpinPage right_sib true;
      _ ← UnpinPage under_pid true;
      _ ← UnpinPage parent_pid true;
      mret true
    else
      _ ← UnpinPage right_sib false;
      mret false.

Definition int_merge (under_pid uf pf index left_sib right_sib : Z) : T unit :=
  if index =? 0 then
    parent ← read_internal pf;
    middle ← st_lift (Internal.KeyAt parent 1);
    rf ← fetch_deref right_sib;
    in_r ← read_internal rf;
    in_u ← read_internal uf;
    '(in_r, in_u) ← st_lift (Internal.MoveAllTo middle in_r in_u);
    _ ← write_internal rf in_r;
    _ ← write_internal uf in_u;
    _ ← set_children_parent remove_msg uf under_pid (Z.to_nat (Internal.GetSize in_u)) 0;
    _ ← UnpinPage right_sib true;
    _ ← DeletePage right_sib;
    parent ← read_internal pf;
    parent ← st_lift (Internal.Remove 1 parent);
    _ ← write_internal pf parent;
    _ ← UnpinPage under_pid true;
    mret tt
  else
    parent ← read_internal pf;
    middle ← st_lift (Internal.KeyAt parent index);
    lf ← fetch_deref left_sib;
    in_l ← read_internal lf;
    in_u ← read_internal uf;
    '(in_u, in_l) ← st_lift (Internal.MoveAllTo middle in_u in_l);
    _ ← write_internal uf in_u;
    _ ← write_internal lf in_l;
    _ ← set_children_parent remove_msg lf left_sib (Z.to_nat (Internal.GetSize in_l)) 0;
    _ ← UnpinPage left_sib true;
    _ ← UnpinPage under_pid true;
    _ ← DeletePage under_pid;
    parent ← read_internal pf;
    parent ← st_lift (Internal.Remove index parent);
    write_internal pf parent.

(** The iteration for an internal page. *)
Definition fix_internal (under_pid parent_pid pf index left_sib right_sib : Z) : T step_result :=
  uf ← fetch_deref under_pid;
  in_u ← read_internal uf;
  if internal_min_size (max_size_ (i_hdr in_u)) <=? Internal.GetSize in_u then
    _ ← UnpinPage under_pid false;
    _ ← UnpinPage parent_pid false;
    mret Finished
  else
    l ← int_borrow_left under_pid uf parent_pid pf index left_sib;
    if (l : bool) then mret Finished
    else
      r ← int_borrow_right under_pid uf parent_pid pf index right_sib;
      if (r : bool) then mret Finished
      else
        _ ← int_merge under_pid uf pf index left_sib right_sib;
        shrink_root_or_go_up parent_pid pf.

(** The loop that cures underflows, from the leaf up. *)
Fixpoint underflow_loop (fuel : nat) (under_pid : Z) : T unit :=
  match fuel with
  | O => st_fuel
  | S fuel =>
      uf ← fetch_or_throw "Remove: FetchPage(under) failed" under_pid;
      under_node ← read_page uf;
      let parent_pid := parent_page_id_ under_node in
      let under_is_leaf := IsLeafPage under_node in
      _ ← UnpinPage under_pid false;
      if parent_pid =? INVALID_PAGE_ID then mret tt
      else
        pf ← fetch_or_throw "Remove: FetchPage(parent) failed" parent_pid;
        parent ← read_internal pf;
        index ← st_lift (Internal.ValueIndex parent under_pid);
        left_sib ← (if 0 <? index then st_lift (Internal.ValueAt parent (index - 1)) else mret INVALID_PAGE_ID);
        right_sib ← (if index + 1 <? Internal.GetSize parent
                     then st_lift (Internal.ValueAt parent (index + 1)) else mret INVALID_PAGE_ID);
        r ← (if under_is_leaf then fix_leaf under_pid parent_pid pf index left_sib right_sib
             else fix_internal under_pid parent_pid pf index left_sib right_sib);
        match r with
        | Finished => mret tt
        | GoUp pid => underflow_loop fuel pid
        end
  end.

(** The descent of [Remove] to the leaf, and the removal. *)
Fixpoint remove_loop (fuel ufuel : nat) (key cur : Z) : T unit :=
  match fuel with
  | O => st_fuel
  | S fuel =>
      f ← fetch_or_throw "Remove: FetchPage failed" cur;
      node ← read_page f;
      if negb (IsLeafPage node) then
        internal ← read_internal f;
        nxt ← st_lift (Internal.Lookup internal key);
        _ ← UnpinPage cur false;
        remove_loop fuel ufuel key nxt
      else
        leaf ← read_leaf f;
        let before := Leaf.GetSize leaf in
        '(after, leaf) ← st_lift (Leaf.RemoveAndDeleteRecord key leaf);
        let changed := negb (after =? before) in
        _ ← (if changed then write_leaf f leaf else mret tt);
        if parent_page_id_ (l_hdr leaf) =? INVALID_PAGE_ID then
          if Leaf.GetSize leaf =? 0 then
            t ← st_get;
            let old_root := root_page_id_ t in
            _ ← st_modify (set_root INVALID_PAGE_ID);
            _ ← UnpinPage old_root true;
            _ ← DeletePage old_root;
            mret tt
          else
            _ ← UnpinPage cur changed;
            mret tt
        else
          _ ← UnpinPage cur changed;
          if negb changed then mret tt else underflow_loop ufuel cur
  end.

Definition Remove (fuel : nat) (key : Z) : T unit :=
  t ← st_get;
  if IsEmpty t then mret tt else remove_loop fuel fuel key (root_page_id_ t).

(** ** What a tree of pages holds *)

(** The separators [l] stand between the entries [left] of the child before them
    and the entries [ess] of their own children. *)
Fixpoint seps_ok (left : leaf_array) (l : internal_array) (ess : list leaf_array) : Prop :=
  match l, ess with
  | [], [] => True
  | (k, _) :: l, es :: ess =>
      (∀ x, x ∈ left → x.1 < k) ∧ (∀ x, x ∈ es ++ concat ess → k ≤ x.1) ∧ seps_ok es l ess
  | _, _ => False
  end.

(** The leaves of a tree: their pages and their entries, from left to right. *)
Abbreviation leaves := (list (Z * leaf_array)).
Definition entries (ls : leaves) : leaf_array := concat ls.*2.

(** [subtree m h pid ls]: in the pages [m], [pid] is the root of a search tree of
    height [h] with the leaves [ls]. *)
Fixpoint subtree (m : gmap Z IndexPage) (h : nat) (pid : Z) (ls : leaves) : Prop :=
  match h with
  | O => ∃ p, m !! pid = Some (PageLeaf p) ∧ leaf_shape p ∧ ls = [(pid, leaf_entries p)]
  | Datatypes.S h =>
      ∃ p k0 c0 l ls0 lss, m !! pid = Some (PageInternal p) ∧ int_shape p ∧
        int_entries p = (k0, c0) :: l ∧ ls = ls0 ++ concat lss ∧
        subtree m h c0 ls0 ∧ Forall2 (λ e ls', subtree m h e.2 ls') l lss ∧
        seps_ok (entries ls0) l (entries <$> lss)
  end.

(** The chain of the leaves through [next_page_id_]; no leaf is empty. *)
Fixpoint chain (m : gmap Z IndexPage) (ls : leaves) : Prop :=
  match ls with
  | [] => True
  | (pid, es) :: ls =>
      (∃ p, m !! pid = Some (PageLeaf p) ∧ leaf_shape p ∧ leaf_entries p = es ∧
        next_page_id_ p = match ls with [] => INVALID_PAGE_ID | (nxt, _) :: _ => nxt end) ∧
      es ≠ [] ∧ pid ≠ INVALID_PAGE_ID ∧ chain m ls
  end.

(** ** Running the code on the page store *)

(** No page is pinned: [k] calls may follow, the live pages are [m]. *)
Definition quiet (k : Z) (m : gmap Z IndexPage) (nid : Z) (t : BPlusTree) : Prop :=
  io_rel k (mkStore m ∅ ∅ nid) (bpm_ t).
(** One page is pinned, and has not been written. *)
Definition held (k : Z) (m : gmap Z IndexPage) (nid p f : Z) (t : BPlusTree) : Prop :=
  io_rel k (mkStore m {[p := (1, f)]} ∅ nid) (bpm_ t).

(** The parts of the tree object that the page calls leave alone. *)
Definition same_tree (t t' : BPlusTree) : Prop :=
  root_page_id_ t' = root_page_id_ t ∧ leaf_max_size_ t' = leaf_max_size_ t ∧
  internal_max_size_ t' = internal_max_size_ t.

Lemma same_tree_trans t1 t2 t3 : same_tree t1 t2 → same_tree t2 t3 → same_tree t1 t3.
Proof. intros (?&?&?) (?&?&?). split_and!; congruence. Qed.

Implicit Types (t : BPlusTree) (m : gmap Z IndexPage).

Lemma fetch_quiet msg k m nid p d t :
  0 ≤ k → quiet (k + 1) m nid t → m !! p = Some d → 1 ≤ io_frames →
  ∃ f t', fetch_or_throw msg p t = (Ok f, t') ∧ held k m nid p f t' ∧ same_tree t t'.
Proof.
  intros Hk Hq Hp Hn. destruct (io_fetch_law k _ _ p Hk Hq) as (o & s' & a' & Hrun & Hst & Hr); [by eexists|].
  inversion Hst; subst; simpl in *; simplify_map_eq.
  - exists f, (mkTree s' (root_page_id_ t) (leaf_max_size_ t) (internal_max_size_ t)). split_and!; [|done|by split_and!].
    unfold fetch_or_throw, FetchPage, on_bpm, st_zoom, mbind, st_bind. by rewrite Hrun.
  - match goal with F : full _ _ |- _ => unfold full in F; simpl in F; rewrite map_size_empty in F; lia end.
Qed.

Lemma read_held k m nid p f d t :
  0 ≤ k → held (k + 1) m nid p f t → m !! p = Some d →
  ∃ t', on_bpm (io_read f) t = (Ok d, t') ∧ held k m nid p f t' ∧ same_tree t t'.
Proof.
  intros Hk Hq Hp. destruct (io_read_law k _ _ f Hk Hq) as (d' & s' & a' & Hrun & Hst & Hr).
  { exists p, 1. apply lookup_singleton_eq. }
  inversion Hst as [| | | | | | | | | | |f' q j d'' Hpin Hd|]; subst; simpl in *.
  apply lookup_singleton_Some in Hpin as [<- _]. assert (d' = d) as -> by congruence.
  exists (mkTree s' (root_page_id_ t) (leaf_max_size_ t) (internal_max_size_ t)). split_and!; [|done|by split_and!].
  unfold on_bpm, st_zoom. by rewrite Hrun.
Qed.

Lemma unpin_held k m nid p f t :
  0 ≤ k → held (k + 1) m nid p f t →
  ∃ t', UnpinPage p false t = (Ok true, t') ∧ quiet k m nid t' ∧ same_tree t t'.
Proof.
  intros Hk Hq. destruct (io_unpin_law k _ _ p false Hk Hq) as (r & s' & a' & Hrun & Hst & Hr).
  { intros g _ _. simpl. set_solver. }
  exists (mkTree s' (root_page_id_ t) (leaf_max_size_ t) (internal_max_size_ t)).
  inversion Hst; subst; simpl in *; simplify_map_eq.
  split_and!; [|by rewrite delete_singleton_eq in Hr|by split_and!].
  unfold UnpinPage, on_bpm, st_zoom. by rewrite Hrun.
Qed.

(** ** Search *)

Lemma entries_app l1 l2 : entries (l1 ++ l2) = entries l1 ++ entries l2.
Proof. unfold entries. by rewrite fmap_app, concat_app. Qed.
Lemma entries_concat (lss : list leaves) : entries (concat lss) = concat (entries <$> lss).
Proof. induction lss as [|ls lss IH]; [done|]. simpl. by rewrite entries_app, IH. Qed.

(** The child a key is routed to: what is left of it is below the key, what is
    right of it is above. *)
Lemma route_child (P : Z → leaves → Prop) key ls0 c0 l lss :
  P c0 ls0 → Forall2 (λ e ls, P e.2 ls) l lss → seps_ok (entries ls0) l (entries <$> lss) →
  ∃ pre ls post, ls0 ++ concat lss = pre ++ ls ++ post ∧ P (route key c0 l) ls ∧
    (∀ x, x ∈ entries pre → x.1 < key) ∧ (∀ x, x ∈ entries post → key < x.1).
Proof.
  revert ls0 c0 lss; induction l as [|[k c] l IH]; intros ls0 c0 lss H0 Hall Hs; inversion Hall as [|? ls ? lss' Hc Hall']; subst; simpl.
  { exists [], ls0, []. split_and!; [done|done|set_solver|set_solver]. }
  destruct Hs as (Hlt & Hge & Hs). destruct (Z.ltb_spec key k) as [Hk|Hk].
  - exists [], ls0, (ls ++ concat lss'). split_and!; [done|done|set_solver|].
    intros x. rewrite entries_app, entries_concat. intros Hx%Hge. lia.
  - destruct (IH ls c lss') as (pre & ls' & post & Heq & HP & Hpre & Hpost); [done..|].
    exists (ls0 ++ pre), ls', post. split_and!; [by rewrite Heq, app_assoc|done| |done].
    intros x. rewrite entries_app. intros [Hx%Hlt|Hx]%elem_of_app; [lia|by apply Hpre].
Qed.

(** Below and above the key there is no answer. *)
Lemma lookup_middle pre ls post key :
  (∀ x, x ∈ entries pre → x.1 < key) → (∀ x, x ∈ entries post → key < x.1) →
  assoc_map (entries (pre ++ ls ++ post)) !! key = assoc_map (entries ls) !! key.
Proof.
  intros Hpre Hpost. rewrite !entries_app, !assoc_app, !lookup_union.
  assert (assoc_map (entries pre) !! key = None) as ->.
  { apply assoc_lookup_None. intros v Hin%Hpre. simpl in Hin. lia. }
  assert (assoc_map (entries post) !! key = None) as ->.
  { apply assoc_lookup_None. intros v Hin%Hpost. simpl in Hin. lia. }
  by destruct (assoc_map (entries ls) !! key).
Qed.

Lemma leaf_type p : leaf_shape p → IsLeafPage (l_hdr p) = true.
Proof. intros Hp. unfold IsLeafPage. by rewrite (ls_type _ Hp). Qed.
Lemma int_type p : int_shape p → IsLeafPage (i_hdr p) = false.
Proof. intros Hp. unfold IsLeafPage. by rewrite (is_type _ Hp). Qed.

(** A visit of a page as the searches make it: fetch, look at the header, read
    the page, unpin. *)
Lemma visit msg k m nid p d t :
  0 ≤ k → quiet (k + 4) m nid t → m !! p = Some d → 1 ≤ io_frames →
  ∃ f t1 t2 t3 t4, fetch_or_throw msg p t = (Ok f, t1) ∧ read_page f t1 = (Ok (as_page d), t2) ∧
    on_bpm (io_read f) t2 = (Ok d, t3) ∧ UnpinPage p false t3 = (Ok true, t4) ∧
    quiet k m nid t4 ∧ same_tree t t4 ∧
    ∃ t5, UnpinPage p false t2 = (Ok true, t5) ∧ quiet k m nid t5 ∧ same_tree t t5.
Proof.
  intros Hk Hq Hd Hn.
  destruct (fetch_quiet msg (k + 3) m nid p d t) as (f & t1 & H1 & Hh1 & S1);
    [lia|by replace (k + 3 + 1) with (k + 4) by lia|done|done|].
  destruct (read_held (k + 2) m nid p f d t1) as (t2 & H2 & Hh2 & S2);
    [lia|by replace (k + 2 + 1) with (k + 3) by lia|done|].
  destruct (read_held (k + 1) m nid p f d t2) as (t3 & H3 & Hh3 & S3);
    [lia|by replace (k + 1 + 1) with (k + 2) by lia|done|].
  destruct (unpin_held k m nid p f t3) as (t4 & H4 & Hq4 & S4); [done|done|].
  destruct (unpin_held k m nid p f t2) as (t5 & H5 & Hq5 & S5);
    [done|unfold held in *; eapply io_weaken; [|exact Hh2]; lia|].
  exists f, t1, t2, t3, t4. split_and!; [done|unfold read_page; by st_step H2|done|done|done| |].
  - eauto using same_tree_trans.
  - exists t5. split_and!; [done|done|]. eauto using same_tree_trans.
Qed.

Lemma read_leaf_of f p t t' :
  on_bpm (io_read f) t = (Ok (PageLeaf p), t') → read_leaf f t = (Ok p, t').
Proof. intros H. unfold read_leaf. by st_step H. Qed.
Lemma read_internal_of f p t t' :
  on_bpm (io_read f) t = (Ok (PageInternal p), t') → read_internal f t = (Ok p, t').
Proof. intros H. unfold read_internal. by st_step H. Qed.
Lemma lift_ok {A} (x : A) (r : res A) t : r = Ok x → st_lift r t = (Ok x, t).
Proof. by intros ->. Qed.

Lemma sorted_middle pre (ls post : leaves) :
  sorted_keys (entries (pre ++ ls ++ post)) → sorted_keys (entries ls).
Proof. rewrite !entries_app. by intros (_ & (? & _)%sorted_app & _)%sorted_app. Qed.

Lemma get_value_loop_ok h : ∀ fuel key cur m nid ls k t,
  (h < fuel)%nat → 0 ≤ k → quiet (k + 4 * (Z.of_nat h + 1)) m nid t → 1 ≤ io_frames →
  subtree m h cur ls → sorted_keys (entries ls) →
  ∃ t', get_value_loop fuel key cur t = (Ok (assoc_map (entries ls) !! key), t') ∧
    quiet k m nid t' ∧ same_tree t t'.
Proof.
  induction h as [|h IH]; intros [|fuel] key cur m nid ls k t Hfuel Hk Hq Hn Hsub Hs; try lia;
    cbn [get_value_loop].
  - destruct Hsub as (p & Hp & Hsh & ->). unfold entries in *. simpl in *. rewrite app_nil_r in *.
    destruct (visit "GetValue: FetchPage failed" k m nid cur _ t Hk Hq Hp Hn)
      as (f & t1 & t2 & t3 & t4 & H1 & H2 & H3 & H4 & Hq4 & S4 & _).
    st_step H1. st_step H2. simpl. rewrite (leaf_type p Hsh). st_step (read_leaf_of _ _ _ _ H3).
    st_step (lift_ok _ _ t3 (leaf_lookup_ok p key (conj Hsh Hs))). st_step H4. by exists t4.
  - destruct Hsub as (p & k0 & c0 & l & ls0 & lss & Hp & Hsh & He & -> & H0 & Hall & Hsep).
    destruct (visit "GetValue: FetchPage failed" (k + 4 * (Z.of_nat h + 1)) m nid cur (PageInternal p) t)
      as (f & t1 & t2 & t3 & t4 & H1 & H2 & H3 & H4 & Hq4 & S4 & _);
      [lia|eapply io_weaken; [|exact Hq]; lia|exact Hp|done|].
    st_step H1. st_step H2. simpl. rewrite (int_type p Hsh). st_step (read_internal_of _ _ _ _ H3).
    st_step (lift_ok _ _ t3 (int_lookup_ok p key k0 c0 l Hsh He)). st_step H4.
    destruct (route_child (subtree m h) key ls0 c0 l lss) as (pre & ls & post & Heq & Hls & Hpre & Hpost); [done..|].
    rewrite Heq in *.
    destruct (IH fuel key (route key c0 l) m nid ls k t4) as (t5 & H5 & Hq5 & S5);
      [lia|lia|done|done|done|by apply (sorted_middle pre ls post)|].
    exists t5. rewrite H5, lookup_middle by done. split_and!; [done|done|]. eauto using same_tree_trans.
Qed.

(** ** Iteration *)

(** The iterator stands before the entries [es]. *)
Definition stands (m : gmap Z IndexPage) (it : BPlusTreeIterator) (es : leaf_array) : Prop :=
  (es = [] ∧ it = End) ∨
  ∃ pid es0 ls i, chain m ((pid, es0) :: ls) ∧ it = mkIter pid (Z.of_nat i) ∧ (i < length es0)%nat ∧
    es = drop i es0 ++ entries ls.

Lemma stands_start m ls :
  chain m ls →
  stands m (match ls with [] => End | (pid, _) :: _ => mkIter pid 0 end) (entries ls).
Proof.
  destruct ls as [|[pid es] ls]; [by left|]. intros Hc. right. exists pid, es, ls, 0%nat.
  split_and!; [done|done| |done]. destruct Hc as (_ & Hne & _). destruct es; [done|simpl; lia].
Qed.

Lemma stands_end m it es : stands m it es → IsEnd it = bool_decide (es = []).
Proof.
  intros [[-> ->]|(pid & es0 & ls & i & (_ & _ & Hpid & _) & -> & Hi & ->)]; [done|].
  unfold IsEnd; simpl. rewrite (proj2 (Z.eqb_neq _ _)) by done. symmetry. apply bool_decide_eq_false.
  intros E. apply (f_equal length) in E. rewrite length_app, length_drop in E. simpl in E. lia.
Qed.

Lemma Deref_ok m it e es k nid t :
  stands m it (e :: es) → 0 ≤ k → quiet (k + 4) m nid t → 1 ≤ io_frames →
  ∃ t', Deref it t = (Ok e, t') ∧ quiet k m nid t' ∧ same_tree t t'.
Proof.
  intros Hst Hk Hq Hn. pose proof (stands_end _ _ _ Hst) as Hend.
  destruct Hst as [[? _]|(pid & es0 & ls & i & Hc & -> & Hi & He)]; [done|].
  destruct Hc as ((p & Hp & Hsh & Hes & _) & _ & _ & _).
  assert (leaf_entries p !! i = Some e) as Hget.
  { rewrite Hes. assert (drop i es0 !! 0%nat = Some e) as H.
    { assert ((e :: es) !! 0%nat = Some e) as H by done. rewrite He in H.
      rewrite lookup_app_l in H; [done|]. rewrite length_drop. lia. }
    rewrite lookup_drop, Nat.add_0_r in H. done. }
  pose proof (leaf_entries_length p Hsh) as Hlen. pose proof (lookup_lt_Some _ _ _ Hget) as Hlt.
  assert (arr_get (l_array p) (Z.of_nat i) = Ok e) as Harr.
  { apply arr_get_ok. by rewrite <- leaf_entries_lookup by lia. }
  unfold Deref. rewrite Hend, bool_decide_eq_false_2 by done. cbn [it_page_id it_index].
  destruct (fetch_quiet "BPlusTreeIterator::operator*: FetchPage failed" (k + 3) m nid pid (PageLeaf p) t) as (f & t1 & H1 & Hh1 & S1);
    [lia|eapply io_weaken; [|exact Hq]; lia|done|done|].
  destruct (read_held (k + 1) m nid pid f (PageLeaf p) t1) as (t2 & H2 & Hh2 & S2);
    [lia|eapply io_weaken; [|exact Hh1]; lia|done|].
  destruct (unpin_held k m nid pid f t2) as (t3 & H3 & Hq3 & S3); [done|done|].
  st_step H1. st_step (read_leaf_of _ _ _ _ H2).
  rewrite (proj2 (Z.ltb_ge _ _)), (proj2 (Z.leb_gt _ _)) by lia. simpl.
  rewrite (st_bind_ok _ _ _ e.1 t2) by (apply lift_ok; unfold Leaf.KeyAt; by rewrite Harr).
  rewrite (st_bind_ok _ _ _ e.2 t2) by (apply lift_ok; unfold Leaf.ValueAt; by rewrite Harr).
  st_step H3. exists t3. split_and!; [by destruct e|done|]. eauto using same_tree_trans.
Qed.

Lemma Next_ok m it e es k nid t :
  stands m it (e :: es) → 0 ≤ k → quiet (k + 4) m nid t → 1 ≤ io_frames →
  ∃ it' t', Next it t = (Ok it', t') ∧ stands m it' es ∧ quiet k m nid t' ∧ same_tree t t'.
Proof.
  intros Hst Hk Hq Hn. pose proof (stands_end _ _ _ Hst) as Hend.
  destruct Hst as [[? _]|(pid & es0 & ls & i & Hc & -> & Hi & He)]; [done|].
  pose proof Hc as ((p & Hp & Hsh & Hes & Hnext) & _ & _ & Hcls).
  pose proof (leaf_entries_length p Hsh) as Hlen. rewrite Hes in Hlen.
  assert (es = drop (Datatypes.S i) es0 ++ entries ls) as ->.
  { destruct (lookup_lt_is_Some_2 es0 i Hi) as [x Hx]. rewrite (drop_S _ x) in He by done.
    by injection He as _ ->. }
  unfold Next. rewrite Hend, bool_decide_eq_false_2 by done. cbn [it_page_id it_index].
  destruct (fetch_quiet "BPlusTreeIterator::operator++: FetchPage failed" (k + 3) m nid pid (PageLeaf p) t) as (f & t1 & H1 & Hh1 & S1);
    [lia|eapply io_weaken; [|exact Hq]; lia|done|done|].
  destruct (read_held (k + 1) m nid pid f (PageLeaf p) t1) as (t2 & H2 & Hh2 & S2);
    [lia|eapply io_weaken; [|exact Hh1]; lia|done|].
  destruct (unpin_held k m nid pid f t2) as (t3 & H3 & Hq3 & S3); [done|done|].
  st_step H1. st_step (read_leaf_of _ _ _ _ H2).
  destruct (Z.leb_spec (Leaf.GetSize p) (Z.of_nat i + 1)) as [Hge|Hlt]; st_step H3.
  - eexists _, t3. split_and!; [done| |done|eauto using same_tree_trans]. rewrite Hnext.
    rewrite drop_ge by lia. simpl. destruct ls as [|[nxt es1] ls]; [by left|].
    destruct Hcls as (H' & Hne & Hnxt & Hc'). rewrite (proj2 (Z.eqb_neq _ _)) by done.
    apply (stands_start m ((nxt, es1) :: ls)). by split_and!.
  - eexists _, t3. split_and!; [done| |done|eauto using same_tree_trans]. right.
    exists pid, es0, ls, (Datatypes.S i). split_and!; [done|f_equal; lia|lia|done].
Qed.

(** The loop of a client: all the entries from an iterator on. *)
Fixpoint scan (fuel : nat) (it : BPlusTreeIterator) : T leaf_array :=
  match fuel with
  | O => st_fuel
  | Datatypes.S fuel =>
      if IsEnd it then mret []
      else e ← Deref it; it' ← Next it; es ← scan fuel it'; mret (e :: es)
  end.

Lemma scan_ok es : ∀ fuel m it k nid t,
  (length es < fuel)%nat → stands m it es → 0 ≤ k → quiet (k + 8 * Z.of_nat (length es)) m nid t → 1 ≤ io_frames →
  ∃ t', scan fuel it t = (Ok es, t') ∧ quiet k m nid t' ∧ same_tree t t'.
Proof.
  induction es as [|e es IH]; intros [|fuel] m it k nid t Hfuel Hst Hk Hq Hn; simpl in Hfuel; try lia; cbn [scan].
  - rewrite (stands_end _ _ _ Hst). simpl. exists t. simpl in Hq. rewrite Z.add_0_r in Hq. by split_and!.
  - rewrite (stands_end _ _ _ Hst). simpl. cbn [length] in Hq. rewrite Nat2Z.inj_succ in Hq.
    destruct (Deref_ok m it e es (k + 8 * Z.of_nat (length es) + 4) nid t) as (t1 & H1 & Hq1 & S1);
      [done|lia|eapply io_weaken; [|exact Hq]; lia|done|].
    destruct (Next_ok m it e es (k + 8 * Z.of_nat (length es)) nid t1) as (it' & t2 & H2 & Hst2 & Hq2 & S2);
      [done|lia|done|done|].
    destruct (IH fuel m it' k nid t2) as (t3 & H3 & Hq3 & S3); [lia|done..|].
    exists t3. split_and!; [by st_step H1; st_step H2; st_step H3|done|]. eauto using same_tree_trans.
Qed.

Lemma chain_app m l1 l2 : chain m (l1 ++ l2) → chain m l2.
Proof.
  induction l1 as [|[pid es] l1 IH]; [done|]. simpl. intros (_ & _ & _ & Hc). by apply IH.
Qed.

Lemma begin_loop_ok h : ∀ fuel cur m nid ls k t,
  (h < fuel)%nat → 0 ≤ k → quiet (k + 4 * (Z.of_nat h + 1)) m nid t → 1 ≤ io_frames → subtree m h cur ls →
  ∃ t' pid es ls', begin_loop fuel cur t = (Ok (mkIter pid 0), t') ∧ ls = (pid, es) :: ls' ∧
    quiet k m nid t' ∧ same_tree t t'.
Proof.
  induction h as [|h IH]; intros [|fuel] cur m nid ls k t Hfuel Hk Hq Hn Hsub; try lia; cbn [begin_loop].
  - destruct Hsub as (p & Hp & Hsh & ->).
    destruct (visit "Begin: FetchPage failed" k m nid cur _ t Hk Hq Hp Hn)
      as (f & t1 & t2 & t3 & t4 & H1 & H2 & _ & _ & _ & _ & t5 & H5 & Hq5 & S5).
    st_step H1. st_step H2. simpl. rewrite (leaf_type p Hsh). st_step H5. by eexists t5, cur, _, [].
  - destruct Hsub as (p & k0 & c0 & l & ls0 & lss & Hp & Hsh & He & -> & H0 & Hall & Hsep).
    destruct (visit "Begin: FetchPage failed" (k + 4 * (Z.of_nat h + 1)) m nid cur (PageInternal p) t)
      as (f & t1 & t2 & t3 & t4 & H1 & H2 & H3 & H4 & Hq4 & S4 & _);
      [lia|eapply io_weaken; [|exact Hq]; lia|exact Hp|done|].
    st_step H1. st_step H2. simpl. rewrite (int_type p Hsh). st_step (read_internal_of _ _ _ _ H3).
    assert (Internal.ValueAt p 0 = Ok c0) as Hv.
    { unfold Internal.ValueAt. by rewrite (int_entries_get p 0 (k0, c0) ltac:(by rewrite He) : arr_get (i_array p) 0 = _). }
    st_step (lift_ok _ _ t3 Hv). st_step H4.
    destruct (IH fuel c0 m nid ls0 k t4) as (t5 & pid & es & ls' & H5 & -> & Hq5 & S5); [lia|lia|done..|].
    exists t5, pid, es, (ls' ++ concat lss). split_and!; [done|done|done|]. eauto using same_tree_trans.
Qed.

(** The entries from a key on. *)
Definition from_key (key : Z) (es : leaf_array) : leaf_array := filter (λ e, key ≤ e.1) es.

Lemma from_key_split key pre es post idx :
  (∀ x, x ∈ pre → x.1 < key) → (∀ x, x ∈ post → key < x.1) → is_lb es key idx →
  from_key key (pre ++ es ++ post) = drop idx es ++ post.
Proof.
  intros Hpre Hpost (_ & Hlt & Hge). unfold from_key. rewrite !filter_app.
  assert (filter (λ e : Z * RID, key ≤ e.1) pre = []) as ->.
  { apply filter_none. intros x Hx%Hpre. lia. }
  assert (filter (λ e : Z * RID, key ≤ e.1) post = post) as ->.
  { apply filter_every. intros x Hx%Hpost. lia. }
  simpl. f_equal. rewrite <- (take_drop idx es) at 1. rewrite filter_app.
  assert (filter (λ e : Z * RID, key ≤ e.1) (take idx es) = []) as ->.
  { apply filter_none. intros x [j Hj]%list_elem_of_lookup.
    apply lookup_take_Some in Hj as [Hj ?]. specialize (Hlt j x ltac:(lia) Hj). lia. }
  simpl. apply filter_every. intros x [j Hj]%list_elem_of_lookup.
  rewrite lookup_drop in Hj. apply (Hge (idx + j)%nat); [lia|done].
Qed.

Lemma begin_at_loop_ok h : ∀ fuel key cur m nid pre ls post k t,
  (h < fuel)%nat → 0 ≤ k → quiet (k + 4 * (Z.of_nat h + 1)) m nid t → 1 ≤ io_frames →
  subtree m h cur ls → chain m (pre ++ ls ++ post) → sorted_keys (entries (pre ++ ls ++ post)) →
  (∀ x, x ∈ entries pre → x.1 < key) → (∀ x, x ∈ entries post → key < x.1) →
  ∃ t' it, begin_at_loop fuel key cur t = (Ok it, t') ∧
    stands m it (from_key key (entries (pre ++ ls ++ post))) ∧ quiet k m nid t' ∧ same_tree t t'.
Proof.
  induction h as [|h IH]; intros [|fuel] key cur m nid pre ls post k t Hfuel Hk Hq Hn Hsub Hc Hs Hpre Hpost; try lia;
    cbn [begin_at_loop].
  - destruct Hsub as (p & Hp & Hsh & ->). apply chain_app in Hc.
    assert (sorted_keys (leaf_entries p)) as Hsp.
    { apply sorted_middle in Hs. unfold entries in Hs. simpl in Hs. by rewrite app_nil_r in Hs. }
    destruct (visit "Begin(key): FetchPage failed" k m nid cur _ t Hk Hq Hp Hn)
      as (f & t1 & t2 & t3 & t4 & H1 & H2 & H3 & H4 & Hq4 & S4 & _).
    st_step H1. st_step H2. simpl. rewrite (leaf_type p Hsh). st_step (read_leaf_of _ _ _ _ H3).
    destruct (KeyIndex_ok p key (conj Hsh Hsp)) as (idx & Hidx & Hlb).
    st_step (lift_ok _ _ t3 Hidx).
    change ((cur, leaf_entries p) :: post) with ([(cur, leaf_entries p)] ++ post).
    assert (entries (pre ++ [(cur, leaf_entries p)] ++ post) = entries pre ++ leaf_entries p ++ entries post) as ->
      by (rewrite !entries_app; unfold entries at 2; simpl; by rewrite app_nil_r).
    rewrite (from_key_split key _ _ _ idx) by done. pose proof (leaf_entries_length p Hsh) as Hlen.
    pose proof Hc as ((p' & Hp' & _ & _ & Hnext) & _ & _ & Hcp). assert (p' = p) as -> by congruence.
    destruct (Z.leb_spec (Leaf.GetSize p) (Z.of_nat idx)) as [Hge|Hlt]; st_step H4.
    + eexists t4, _. split_and!; [done| |done|done]. rewrite drop_ge by lia. simpl. rewrite Hnext.
      destruct post as [|[nxt es1] post]; [by left|]. destruct Hcp as (H' & Hne & Hnxt & Hc').
      rewrite (proj2 (Z.eqb_neq _ _)) by done. apply (stands_start m ((nxt, es1) :: post)). by split_and!.
    + eexists t4, _. split_and!; [done| |done|done]. right.
      exists cur, (leaf_entries p), post, idx. split_and!; [done|done|lia|done].
  - destruct Hsub as (p & k0 & c0 & l & ls0 & lss & Hp & Hsh & He & -> & H0 & Hall & Hsep).
    destruct (visit "Begin(key): FetchPage failed" (k + 4 * (Z.of_nat h + 1)) m nid cur (PageInternal p) t)
      as (f & t1 & t2 & t3 & t4 & H1 & H2 & H3 & H4 & Hq4 & S4 & _);
      [lia|eapply io_weaken; [|exact Hq]; lia|exact Hp|done|].
    st_step H1. st_step H2. simpl. rewrite (int_type p Hsh). st_step (read_internal_of _ _ _ _ H3).
    st_step (lift_ok _ _ t3 (int_lookup_ok p key k0 c0 l Hsh He)). st_step H4.
    destruct (route_child (subtree m h) key ls0 c0 l lss) as (pre' & ls & post' & Heq & Hls & Hpre' & Hpost'); [done..|].
    assert (pre ++ (ls0 ++ concat lss) ++ post = (pre ++ pre') ++ ls ++ (post' ++ post)) as Hre
      by (rewrite Heq, <- !app_assoc; done).
    rewrite Hre in *.
    destruct (IH fuel key (route key c0 l) m nid (pre ++ pre') ls (post' ++ post) k t4) as (t5 & it & H5 & Hst & Hq5 & S5).
    { lia. } { lia. } { done. } { done. } { done. } { done. } { done. }
    { intros x. rewrite entries_app. intros [?|?]%elem_of_app; auto. }
    { intros x. rewrite entries_app. intros [?|?]%elem_of_app; auto. }
    exists t5, it. split_and!; [done|done|done|]. eauto using same_tree_trans.
Qed.

(** A well-formed tree object: empty, or a tree of height [h] over the pages [m]
    whose chained leaves hold sorted entries. *)
Definition tree_ok (m : gmap Z IndexPage) (h : nat) (t : BPlusTree) (ls : leaves) : Prop :=
  if IsEmpty t then ls = []
  else subtree m h (root_page_id_ t) ls ∧ chain m ls ∧ sorted_keys (entries ls).

(** ** Properties *)

Lemma GetValue_ok m h t ls nid key fuel k :
  tree_ok m h t ls → (h < fuel)%nat → 0 ≤ k → quiet (k + 4 * (Z.of_nat h + 1)) m nid t → 1 ≤ io_frames →
  ∃ t', GetValue fuel key t = (Ok (assoc_map (entries ls) !! key), t') ∧ quiet k m nid t' ∧ tree_ok m h t' ls.
Proof.
  unfold tree_ok. intros Ht Hfuel Hk Hq Hn. unfold GetValue. st_run. destruct (IsEmpty t) eqn:He.
  - subst. exists t. split_and!; [done|unfold quiet in *; eapply io_weaken; [|exact Hq]; lia|by rewrite He].
  - destruct Ht as (Hsub & Hc & Hs).
    destruct (get_value_loop_ok h fuel key (root_page_id_ t) m nid ls k t) as (t' & Hrun & Hq' & Hsame & _); [done..|].
    exists t'. unfold IsEmpty in *. rewrite Hsame, He. by split_and!.
Qed.

(** C18: [GetValue] is the lookup of the map the tree stands for, whatever page
    store holds its pages; it terminates within the height of the tree, unpins
    what it fetched and changes nothing. *)
Theorem btree_get_value m h t ls nid key fuel k :
  tree_ok m h t ls → (h < fuel)%nat → 0 ≤ k → quiet (k + 4 * (Z.of_nat h + 1)) m nid t → 1 ≤ io_frames →
  ∃ t', GetValue fuel key t = (Ok (assoc_map (entries ls) !! key), t') ∧ quiet k m nid t' ∧ tree_ok m h t' ls.
Proof. apply GetValue_ok. Qed.

Lemma iteration_ok m h t ls nid key fuel sfuel k :
  tree_ok m h t ls → (h < fuel)%nat → (length (entries ls) < sfuel)%nat → 0 ≤ k →
  quiet (k + 8 * Z.of_nat (length (entries ls)) + 4 * (Z.of_nat h + 1)) m nid t → 1 ≤ io_frames →
  (∃ t', (it ← Begin fuel; scan sfuel it) t = (Ok (entries ls), t') ∧ quiet k m nid t') ∧
  (∃ t', (it ← BeginAt fuel key; scan sfuel it) t = (Ok (from_key key (entries ls)), t') ∧ quiet k m nid t').
Proof.
  unfold tree_ok. intros Ht Hfuel Hsf Hk Hq Hn. unfold Begin, BeginAt. destruct (IsEmpty t) eqn:He.
  - subst ls. destruct (scan_ok [] sfuel m End k nid t) as (t' & Hscan & Hq' & _);
      [done|by left|done|eapply io_weaken; [|exact Hq]; unfold entries; simpl; lia|done|].
    split; exists t'; (split; [|done]); unfold mbind, st_bind, st_get; by rewrite He.
  - destruct Ht as (Hsub & Hc & Hs). set (k' := k + 8 * Z.of_nat (length (entries ls))) in *. split.
    + destruct (begin_loop_ok h fuel (root_page_id_ t) m nid ls k' t) as (t1 & pid & es & ls' & Hrun & Hls & Hq1 & _); [done|lia|done..|].
      destruct (scan_ok (entries ls) sfuel m (mkIter pid 0) k nid t1) as (t2 & Hscan & Hq2 & _);
        [done|pose proof (stands_start m ls Hc) as Hst; by rewrite Hls in *|done..|].
      exists t2. split; [|done]. unfold mbind, st_bind, st_get. by rewrite He, Hrun.
    + destruct (begin_at_loop_ok h fuel key (root_page_id_ t) m nid [] ls [] k' t) as (t1 & it & Hrun & Hst & Hq1 & _);
        rewrite ?app_nil_r; simpl; [done|lia|done|done|done|done|done|set_solver|set_solver|].
      rewrite app_nil_r in Hst. simpl in Hst.
      assert (length (from_key key (entries ls)) ≤ length (entries ls))%nat as Hle
        by (apply length_filter).
      destruct (scan_ok (from_key key (entries ls)) sfuel m it k nid t1) as (t2 & Hscan & Hq2 & _);
        [lia|done|done|unfold quiet in *; eapply io_weaken; [|exact Hq1]; unfold k'; lia|done|].
      exists t2. split; [|done]. unfold mbind, st_bind, st_get. by rewrite He, Hrun.
Qed.

(** C19: iterating from [Begin()] to [End()] visits every entry once, in the order
    of the keys, and iterating from [Begin(key)] visits exactly the entries whose
    key is at least [key]. *)
Theorem btree_iteration m h t ls nid key fuel sfuel k :
  tree_ok m h t ls → (h < fuel)%nat → (length (entries ls) < sfuel)%nat → 0 ≤ k →
  quiet (k + 8 * Z.of_nat (length (entries ls)) + 4 * (Z.of_nat h + 1)) m nid t → 1 ≤ io_frames →
  (∃ t', (it ← Begin fuel; scan sfuel it) t = (Ok (entries ls), t') ∧ quiet k m nid t') ∧
  (∃ t', (it ← BeginAt fuel key; scan sfuel it) t = (Ok (from_key key (entries ls)), t') ∧ quiet k m nid t').
Proof. apply iteration_ok. Qed.
End BPlusTree.

Arguments BPlusTree : clear implicits.

(** ** Witnesses: a tree of two leaves, on the store itself *)

Definition pad_leaf (es : leaf_array) : leaf_array := take 339 (es ++ zero_leaf_array).
Definition pad_internal (es : internal_array) : internal_array := take 510 (es ++ zero_internal_array).

Definition demo_es0 : leaf_array := [(1, mkRID 1 0)].
Definition demo_es1 : leaf_array := [(5, mkRID 5 0); (7, mkRID 7 0)].
Definition demo_p0 : LeafPage := mkLeaf (mkHdr LEAF_PAGE 1 3 2) 1 (pad_leaf demo_es0).
Definition demo_p1 : LeafPage := mkLeaf (mkHdr LEAF_PAGE 2 3 2) (-1) (pad_leaf demo_es1).
Definition demo_p2 : InternalPage := mkInternal (mkHdr INTERNAL_PAGE 2 3 (-1)) (pad_internal [(0, 0); (5, 1)]).
Definition demo_pages : gmap Z IndexPage :=
  {[0 := PageLeaf demo_p0; 1 := PageLeaf demo_p1; 2 := PageInternal demo_p2]}.
Definition demo_leaves : list (Z * leaf_array) := [(0, demo_es0); (1, demo_es1)].
Definition demo_io : PageIO IndexPage (Store IndexPage) := direct_io PageZero 4.
Definition demo_tree : BPlusTree (Store IndexPage) := mkTree (mkStore demo_pages ∅ ∅ 3) 2 3 3.

Ltac small_sorted := repeat (apply sorted_cons; split; [|intros ? Hin;
  repeat (apply elem_of_cons in Hin as [->|Hin]; [simpl; lia|]); by apply elem_of_nil in Hin]); apply sorted_nil.

Lemma demo_shape_p0 : leaf_shape demo_p0.
Proof. split; [reflexivity|vm_compute; split; discriminate|reflexivity]. Qed.
Lemma demo_shape_p1 : leaf_shape demo_p1.
Proof. split; [reflexivity|vm_compute; split; discriminate|reflexivity]. Qed.
Lemma demo_shape_p2 : int_shape demo_p2.
Proof. split; [reflexivity|vm_compute; split; discriminate|reflexivity]. Qed.

Lemma demo_tree_ok : tree_ok demo_pages 1 demo_tree demo_leaves.
Proof.
  split_and!.
  - exists demo_p2, 0, 0, [(5, 1)], [(0, demo_es0)], [[(1, demo_es1)]].
    split_and!; [reflexivity|apply demo_shape_p2|reflexivity|reflexivity| | |].
    + exists demo_p0. split_and!; [reflexivity|apply demo_shape_p0|reflexivity].
    + constructor; [|constructor]. exists demo_p1. split_and!; [reflexivity|apply demo_shape_p1|reflexivity].
    + simpl. split_and!; [|intros x; rewrite ?app_nil_r|done]; unfold entries; simpl; unfold demo_es0, demo_es1; intros;
        set_unfold; naive_solver lia.
  - simpl. split_and!; try done.
    + exists demo_p0. split_and!; [reflexivity|apply demo_shape_p0|reflexivity|reflexivity].
    + exists demo_p1. split_and!; [reflexivity|apply demo_shape_p1|reflexivity|reflexivity].
  - unfold entries, demo_leaves, demo_es0, demo_es1; simpl. small_sorted.
Qed.

Lemma demo_quiet k : quiet (PageIO0 := demo_io) k demo_pages 3 demo_tree.
Proof.
  split_and!; [done| |].
  - intros p Hp. simpl in *. unfold demo_pages in Hp. rewrite !lookup_insert_is_Some' in Hp.
    destruct Hp as [?|[?|Hp]]; [lia|lia|]. rewrite lookup_empty in Hp || apply lookup_singleton_is_Some in Hp; try lia.
  - simpl. intros p Hp. rewrite lookup_empty in Hp. by destruct Hp.
Qed.

Lemma btree_get_value_witness :
  ∃ t', GetValue (PageIO0 := demo_io) 2 7 demo_tree = (Ok (Some (mkRID 7 0)), t').
Proof.
  destruct (btree_get_value (PageIO0 := demo_io) demo_pages 1 demo_tree demo_leaves 3 7 2 0) as (t' & H & _).
  - exact demo_tree_ok.
  - lia.
  - lia.
  - apply demo_quiet.
  - vm_compute. discriminate.
  - exists t'. rewrite H. reflexivity.
Defined.

Lemma btree_iteration_witness :
  ∃ t', (it ← BeginAt (PageIO0 := demo_io) 2 2; scan (PageIO0 := demo_io) 9 it) demo_tree = (Ok demo_es1, t').
Proof.
  destruct (btree_iteration (PageIO0 := demo_io) demo_pages 1 demo_tree demo_leaves 3 2 2 9 0) as (_ & t' & H & _).
  - exact demo_tree_ok.
  - lia.
  - simpl. lia.
  - lia.
  - apply demo_quiet.
  - vm_compute. discriminate.
  - exists t'. rewrite H. reflexivity.
Defined.

(** ** Runs of the code on the buffer pool *)

Definition run_pool : BufferPool.BufferPool IndexPage := BufferPool.BufferPool_new PageZero 32 (Disk.Disk_open []) 2.
Definition run_io : PageIO IndexPage (BufferPool.BufferPool IndexPage) := buffer_pool_io PageZero 32.
Definition insert_key (t : BPlusTree (BufferPool.BufferPool IndexPage)) (k : Z) : BPlusTree (BufferPool.BufferPool IndexPage) :=
  (Insert (PageIO0 := run_io) 10 k (mkRID k 0) t).2.
(** Keys 1 to [n] in a tree with leaves of at most 2 and internal pages of at most
    3 entries. *)
Definition tree_upto (n : Z) : BPlusTree (BufferPool.BufferPool IndexPage) :=
  fold_left insert_key (seqZ 1 n) (BPlusTree_new run_pool 2 3).
Definition found (key : Z) (t : BPlusTree (BufferPool.BufferPool IndexPage)) : res (option RID) :=
  (GetValue (PageIO0 := run_io) 10 key t).1.
Definition removed (key : Z) (t : BPlusTree (BufferPool.BufferPool IndexPage)) : res unit * BPlusTree (BufferPool.BufferPool IndexPage) :=
  Remove (PageIO0 := run_io) 10 key t.

(** Removing one key can lose others.  In the tree of the keys 1 to 11,
    removing key 1 makes an internal page borrow from its right sibling; the
    separator written in the parent is the sibling's second one instead of its
    first, and the keys 7 and 8, still stored, are no longer found. *)
Lemma btree_remove_loses_keys :
  found 7 (tree_upto 11) = Ok (Some (mkRID 7 0)) ∧ found 8 (tree_upto 11) = Ok (Some (mkRID 8 0)) ∧
  (removed 1 (tree_upto 11)).1 = Ok tt ∧
  found 7 (removed 1 (tree_upto 11)).2 = Ok None ∧ found 8 (removed 1 (tree_upto 11)).2 = Ok None ∧
  (it ← Begin (PageIO0 := run_io) 10; scan (PageIO0 := run_io) 20 it) (removed 1 (tree_upto 11)).2
    = (Ok ((λ k, (k, mkRID k 0)) <$> seqZ 2 10),
       ((it ← Begin (PageIO0 := run_io) 10; scan (PageIO0 := run_io) 20 it) (removed 1 (tree_upto 11)).2).2).
Proof. split_and!; vm_compute; reflexivity. Qed.

(** C36: the default page sizes are one entry too large.  A tree built with the
    default sizes lets a leaf, and an internal page, fill its 4096 bytes and
    splits it only after one more entry: that insertion writes outside the page. *)
Theorem btree_default_sizes_overflow {Pool} (bpm : Pool) p key value q old new l1 k l2 :
  (leaf_ok p → Leaf.GetSize p = leaf_max_size_ (BPlusTree_new bpm 0 0) → leaf_map p !! key = None →
   Leaf.Insert key value p = UB) ∧
  (int_shape q → Internal.GetSize q = internal_max_size_ (BPlusTree_new bpm 0 0) →
   int_entries q = l1 ++ (k, old) :: l2 → (∀ e, e ∈ l1 → e.2 ≠ old) →
   Internal.InsertNodeAfter old key new q = UB).
Proof.
  split.
  - intros Hok Hsz Hnew. pose proof (leaf_insert_ok p key value Hok) as Hi. rewrite Hnew in Hi.
    rewrite decide_False in Hi; [done|]. rewrite Hsz. vm_compute. discriminate.
  - intros Hq Hsz He Hold. by apply (int_insert_after_full q old key new l1 k l2).
Qed.

Lemma btree_default_sizes_overflow_witness :
  Internal.InsertNodeAfter 0 7 9 (mkInternal (mkHdr INTERNAL_PAGE 510 510 (-1)) zero_internal_array) = UB.
Proof.
  apply (btree_default_sizes_overflow tt (mkLeaf zero_hdr 0 []) 0 (mkRID 0 0)
           (mkInternal (mkHdr INTERNAL_PAGE 510 510 (-1)) zero_internal_array) 0 9 [] 0 (replicate 509 (0, 0)));
    [split; vm_compute; try done; split; discriminate|reflexivity|vm_compute; reflexivity|intros e H; by apply elem_of_nil in H].
Defined.
