(* ===== verification/TreeLogic.v ===== *)
(** * Rules for the B+ tree code

    The program logic of [PageLogic] for the methods of [BPlusTree]: the ghost state is
    the pages, the list of the pinned ones with their frames (marked when they have been
    written since), the next page id and the root.  One rule for each page call. *)

From S2P Require Import Prelude Common PageStore PageIO PageLogic BPlusPage BPlusTree.

(** The pins, with the frame of each and whether it has been written. *)
Abbreviation pins := (list (Z * (Z * bool))).
Definition pins_of (l : pins) : gmap Z (Z * Z) := list_to_map ((λ x, (x.1, (1, x.2.1))) <$> l).
Definition dirty_of (l : pins) : gset Z := list_to_set (filter (λ x, x.2.2 = true) l).*1.
Definition pins_ok (l : pins) : Prop := NoDup l.*1 ∧ NoDup ((λ x, x.2.1) <$> l).

Section Pins.
Implicit Types (l : pins).

Lemma pins_keys l : ((λ x, (x.1, (1, x.2.1))) <$> l).*1 = l.*1.
Proof. by rewrite <- list_fmap_compose. Qed.

Lemma pins_lookup l p j f : pins_ok l → pins_of l !! p = Some (j, f) ↔ j = 1 ∧ ∃ d, (p, (f, d)) ∈ l.
Proof.
  intros [Hn _]. unfold pins_of. rewrite <- elem_of_list_to_map by (by rewrite pins_keys). rewrite list_elem_of_fmap. split.
  - intros ([q [g d]] & [= -> -> ->] & Hin). eauto.
  - intros [-> [d Hd]]. by exists (p, (f, d)).
Qed.

Lemma pins_none l p : p ∉ l.*1 → pins_of l !! p = None.
Proof. intros Hp. apply not_elem_of_list_to_map. by rewrite pins_keys. Qed.

Lemma pins_size l : pins_ok l → size (pins_of l) = length l.
Proof.
  intros [Hn _]. unfold pins_of. rewrite <- (length_fmap (λ x : Z * (Z * bool), (x.1, (1, x.2.1))) l). revert Hn. rewrite <- pins_keys.
  generalize ((λ x : Z * (Z * bool), (x.1, (1, x.2.1))) <$> l). intros k. induction k as [|[p x] k IH]; [intros; apply map_size_empty|].
  simpl. intros [Hp Hk]%NoDup_cons. rewrite map_size_insert_None by (by apply not_elem_of_list_to_map). by rewrite IH.
Qed.

Lemma pins_distinct l : pins_ok l → distinct_frames (pins_of l).
Proof.
  intros Hok p q f i j Hp Hq. apply pins_lookup in Hp as [_ [d [a Ha]%list_elem_of_lookup]]; [|done].
  apply pins_lookup in Hq as [_ [e [b Hb]%list_elem_of_lookup]]; [|done]. destruct Hok as [_ Hn].
  assert (a = b) as -> by (apply (NoDup_lookup _ a b f Hn); rewrite list_lookup_fmap; [by rewrite Ha|by rewrite Hb]). congruence.
Qed.

Lemma pins_fresh l f : pins_ok l → f ∉ frames_of (pins_of l) → f ∉ (λ x, x.2.1) <$> l.
Proof.
  intros Hok Hf ([p [g d]] & -> & Hin)%list_elem_of_fmap. apply Hf. unfold frames_of. apply list_elem_of_fmap.
  exists (p, (1, g)). split; [done|]. apply elem_of_map_to_list, pins_lookup; eauto.
Qed.

Lemma dirty_in l p : p ∈ dirty_of l ↔ ∃ f, (p, (f, true)) ∈ l.
Proof.
  unfold dirty_of. rewrite elem_of_list_to_set, list_elem_of_fmap. split.
  - intros ([q [f d]] & -> & [Hd Hin]%list_elem_of_filter). simpl in *. subst. eauto.
  - intros [f Hf]. exists (p, (f, true)). split; [done|]. by apply list_elem_of_filter.
Qed.

(** A pin among the others. *)
Lemma pins_at l i x : l !! i = Some x → ∀ y, y ∈ l ↔ y ∈ take i l ∨ y = x ∨ y ∈ drop (S i) l.
Proof.
  intros Hi y. pose proof (take_drop_middle l i x Hi) as E. rewrite <- E at 1. by rewrite elem_of_app, elem_of_cons.
Qed.
Lemma pins_same l i p f d e : l !! i = Some (p, (f, d)) → <[i := (p, (f, e))]> l = take i l ++ (p, (f, e)) :: drop (S i) l.
Proof. intros Hi. apply insert_take_drop. by eapply lookup_lt_Some. Qed.

Lemma pins_write l i p f d : pins_ok l → l !! i = Some (p, (f, d)) →
  pins_ok (<[i := (p, (f, true))]> l) ∧ pins_of (<[i := (p, (f, true))]> l) = pins_of l ∧
  dirty_of (<[i := (p, (f, true))]> l) = {[p]} ∪ dirty_of l.
Proof.
  intros [H1 H2] Hi.
  assert (∀ {B} (h : Z * (Z * bool) → B), h (p, (f, true)) = h (p, (f, d)) → h <$> <[i := (p, (f, true))]> l = h <$> l) as Hf.
  { intros B h Hh. rewrite list_fmap_insert. apply list_insert_id. by rewrite list_lookup_fmap, Hi, Hh. }
  split_and!.
  - split; by rewrite Hf.
  - unfold pins_of. by rewrite Hf.
  - apply set_eq. intros q. rewrite elem_of_union, elem_of_singleton, !dirty_in. rewrite (pins_same _ _ _ _ d) by done.
    setoid_rewrite (pins_at l i _ Hi). setoid_rewrite elem_of_app. setoid_rewrite elem_of_cons. naive_solver.
Qed.

Lemma pins_drop l i p f d : pins_ok l → l !! i = Some (p, (f, d)) →
  pins_ok (delete i l) ∧ pins_of (delete i l) = delete p (pins_of l) ∧ dirty_of (delete i l) = dirty_of l ∖ {[p]} ∧
  (d = false → p ∉ dirty_of l).
Proof.
  intros Hok Hi. assert (pins_ok (delete i l)) as Hok'.
  { destruct Hok as [H1 H2]. split; (eapply sublist_NoDup; [|apply fmap_sublist, sublist_delete]; done). }
  assert (∀ x, x ∈ l → x.1 = p → x = (p, (f, d))) as Huniq.
  { intros x [j Hj]%list_elem_of_lookup Hx. destruct Hok as [H1 _].
    assert (j = i) as -> by (apply (NoDup_lookup _ j i p H1); rewrite list_lookup_fmap; [by rewrite Hj; simpl; f_equal|by rewrite Hi]). congruence. }
  assert (∀ x, x ∈ delete i l ↔ x ∈ l ∧ x.1 ≠ p) as Hin.
  { intros x. rewrite delete_take_drop, (pins_at l i _ Hi), elem_of_app. split.
    - intros Hx. split; [tauto|]. intros Hp. destruct Hok as [H1 _].
      rewrite <- (take_drop_middle l i _ Hi), fmap_app in H1. apply NoDup_app in H1 as (_ & Hd & [Hn _]%NoDup_cons).
      simpl in *. destruct Hx as [Hx|Hx].
      + apply (Hd p); [|by left]. rewrite <- Hp. by apply list_elem_of_fmap_2.
      + apply Hn. rewrite <- Hp. by apply list_elem_of_fmap_2.
    - intros [[Hx|[->|Hx]] Hp]; [by left|done|by right]. }
  split_and!; [done| | |].
  - apply map_eq. intros q. apply option_eq. intros [j g]. rewrite lookup_delete_Some, !pins_lookup by done. setoid_rewrite Hin. naive_solver.
  - apply set_eq. intros q. rewrite elem_of_difference, elem_of_singleton, !dirty_in. setoid_rewrite Hin. naive_solver.
  - intros -> [g Hg]%dirty_in. by apply Huniq in Hg.
Qed.

Lemma pins_push l p f : pins_ok l → p ∉ l.*1 → f ∉ frames_of (pins_of l) →
  ∀ d, pins_ok ((p, (f, d)) :: l) ∧ pins_of ((p, (f, d)) :: l) = <[p := (1, f)]> (pins_of l).
Proof.
  intros Hok Hp Hf d. split; [|done]. pose proof (pins_fresh _ _ Hok Hf). destruct Hok. split; by constructor.
Qed.

Lemma dirty_push l p f (d : bool) : dirty_of ((p, (f, d)) :: l) = if d then {[p]} ∪ dirty_of l else dirty_of l.
Proof. unfold dirty_of. rewrite filter_cons. simpl. destruct d; [by rewrite decide_True|by rewrite decide_False]. Qed.
End Pins.

(** ** The rules *)

Record View := mkView { v_pages : gmap Z IndexPage; v_pins : pins; v_next : Z; v_root : Z }.
Definition store_of (v : View) : Store IndexPage :=
  mkStore (v_pages v) (pins_of (v_pins v)) (dirty_of (v_pins v)) (v_next v).
(** The pins are of live pages, in different frames. *)
Definition view_ok (v : View) : Prop := pins_ok (v_pins v) ∧ ∀ x, x ∈ v_pins v → is_Some (v_pages v !! x.1).

Section Rules.
Context {Pool : Type} `{PIO : !PageIO IndexPage Pool} (lmax imax : Z).
Implicit Types (m : gmap Z IndexPage) (l : pins) (v : View).
Local Abbreviation T := (ST (BPlusTree Pool)).

Definition view_rel (k : Z) (v : View) (t : BPlusTree Pool) : Prop :=
  io_rel k (store_of v) (bpm_ t) ∧ view_ok v ∧ root_page_id_ t = v_root v ∧ leaf_max_size_ t = lmax ∧ internal_max_size_ t = imax.

Lemma view_weaken k k' v t : k' ≤ k → view_rel k v t → view_rel k' v t.
Proof. intros Hk [H1 H2]. split; [by eapply io_weaken|done]. Qed.

Abbreviation tree_triple := (triple (S := BPlusTree Pool) view_rel).

(** A page call on the pool of the tree. *)
Lemma on_bpm_rule {A} n v (c : ST Pool A) (Q : A → Store IndexPage → Prop) (Q' : A → View → Prop) :
  (view_ok v → triple (S := Pool) io_rel n (store_of v) c Q) →
  (∀ x a, view_ok v → Q x a → ∃ v', a = store_of v' ∧ view_ok v' ∧ v_root v' = v_root v ∧ Q' x v') →
  tree_triple n v (on_bpm c) Q'.
Proof.
  intros Hc HQ k t Hk (Hr & Hok & Hroot & Hl & Hi). destruct (Hc Hok k _ Hk Hr) as (x & s & a & Hrun & Hx & Ha).
  destruct (HQ x a Hok Hx) as (v' & -> & Hok' & Hr' & Hv'). exists x, (mkTree s (root_page_id_ t) (leaf_max_size_ t) (internal_max_size_ t)), v'.
  split; [unfold on_bpm, st_zoom; by rewrite Hrun|]. split; [done|]. split; [done|]. split; [done|]. simpl. by rewrite Hr'.
Qed.

Lemma ret_triple {A} (x : A) n v (Q : A → View → Prop) : 0 ≤ n → Q x v → tree_triple n v (mret x) Q.
Proof. apply (triple_ret _ view_weaken). Qed.
Lemma mono_triple {A} n n' v (c : T A) (Q Q' : A → View → Prop) :
  tree_triple n v c Q → n ≤ n' → (∀ x v', Q x v' → Q' x v') → tree_triple n' v c Q'.
Proof. apply (triple_mono _ view_weaken). Qed.
Lemma bind_triple {A B} n1 n2 v (c : T A) (f : A → T B) Q1 (Q2 : B → View → Prop) :
  0 ≤ n2 → tree_triple n1 v c Q1 → (∀ x v', Q1 x v' → tree_triple n2 v' (f x) Q2) → tree_triple (n1 + n2) v (c ≫= f) Q2.
Proof. apply triple_bind. Qed.

(** One call, then the rest. *)
Lemma call_triple {A B} n v (c : T A) (f : A → T B) Q1 (Q2 : B → View → Prop) :
  tree_triple 1 v c Q1 → 1 ≤ n → (∀ x v', Q1 x v' → tree_triple (n - 1) v' (f x) Q2) → tree_triple n v (c ≫= f) Q2.
Proof. intros Hc Hn Hf. replace n with (1 + (n - 1)) by lia. eapply bind_triple; [lia|exact Hc|exact Hf]. Qed.

Lemma seq_triple {A B} k n v (c : T A) (f : A → T B) Q1 (Q2 : B → View → Prop) :
  tree_triple k v c Q1 → k ≤ n → (∀ x v', Q1 x v' → tree_triple (n - k) v' (f x) Q2) → tree_triple n v (c ≫= f) Q2.
Proof. intros Hc Hn Hf. replace n with (k + (n - k)) by lia. eapply bind_triple; [lia|exact Hc|exact Hf]. Qed.

Lemma ret_bind_triple {A B} n v (x : A) (f : A → T B) Q : tree_triple n v (f x) Q → tree_triple n v (mret x ≫= f) Q.
Proof. done. Qed.

(** The tree object is read, or its root set. *)
Lemma get_triple {A} n v (f : BPlusTree Pool → T A) Q :
  (∀ t, root_page_id_ t = v_root v → leaf_max_size_ t = lmax → internal_max_size_ t = imax → tree_triple n v (f t) Q) →
  tree_triple n v (st_get ≫= f) Q.
Proof. intros Hf k t Hk Hr. pose proof Hr as (_ & _ & H1 & H2 & H3). by apply (Hf t H1 H2 H3 k t). Qed.
Lemma root_triple {A} n v pid (f : unit → T A) Q :
  tree_triple n (mkView (v_pages v) (v_pins v) (v_next v) pid) (f tt) Q → tree_triple n v (st_modify (set_root pid) ≫= f) Q.
Proof.
  intros Hf k t Hk (H1 & H2 & _ & H3 & H4). apply (Hf k (set_root pid t)); [done|]. by split_and!.
Qed.

Lemma fetch_rule_v m l nid r p : is_Some (m !! p) → p ∉ l.*1 → Z.of_nat (length l) < io_frames →
  tree_triple 1 (mkView m l nid r) (FetchPage p) (λ o v, ∃ f, o = Some f ∧ v = mkView m ((p, (f, false)) :: l) nid r).
Proof.
  intros Hp Hl Hn. eapply on_bpm_rule; [intros [Hok _]; apply fetch_rule|]; [done|by apply pins_none|unfold room; simpl; by rewrite pins_size|].
  intros o a [Hok Hlive] (f & -> & Hf & ->). simpl in *. destruct (pins_push l p f Hok Hl Hf false) as [Hok' Hpins].
  eexists (mkView m ((p, (f, false)) :: l) nid r). split_and!; [|split|done|eauto].
  - unfold store_of. simpl. by rewrite Hpins, dirty_push.
  - done.
  - intros x [->|Hx]%elem_of_cons; [done|by apply Hlive].
Qed.

Lemma new_rule_v m l nid r : io_zero = PageZero → Z.of_nat (length l) < io_frames →
  tree_triple 1 (mkView m l nid r) NewPage (λ o v, ∃ f, o = Some (nid, f) ∧ m !! nid = None ∧
    v = mkView (<[nid := PageZero]> m) ((nid, (f, true)) :: l) (nid + 1) r).
Proof.
  intros Hz Hn. eapply on_bpm_rule; [intros [Hok _]; apply new_rule; unfold room; simpl; by rewrite pins_size|].
  intros o a [Hok Hlive] (f & -> & Hf & Hfresh & ->). simpl in *.
  assert (nid ∉ l.*1) as Hl by (intros (x & -> & Hx)%list_elem_of_fmap; apply Hlive in Hx as [? Hx]; congruence).
  destruct (pins_push l nid f Hok Hl Hf true) as [Hok' Hpins].
  eexists (mkView (<[nid := PageZero]> m) ((nid, (f, true)) :: l) (nid + 1) r). split_and!; [|split|done|eauto].
  - unfold store_of. simpl. by rewrite Hpins, dirty_push, Hz.
  - done.
  - intros x Hx. simpl. destruct (decide (x.1 = nid)) as [->|]; [rewrite lookup_insert_eq; by eexists|rewrite lookup_insert_ne by done].
    apply elem_of_cons in Hx as [->|Hx]; [done|by apply Hlive].
Qed.

Lemma read_rule_v m l nid r i p f d x : l !! i = Some (p, (f, d)) → m !! p = Some x →
  tree_triple 1 (mkView m l nid r) (on_bpm (io_read f)) (λ y v, y = x ∧ v = mkView m l nid r).
Proof.
  intros Hi Hx. eapply on_bpm_rule; [intros [Hok _]; eapply read_rule|]; [exact Hx| |by apply pins_distinct|].
  - apply pins_lookup; [done|]. split; [done|]. exists d. by eapply list_elem_of_lookup_2.
  - intros y a Hok (-> & ->). eexists (mkView m l nid r). by split_and!.
Qed.

Lemma write_rule_v m l nid r i p f d x g : l !! i = Some (p, (f, d)) → m !! p = Some x →
  tree_triple 1 (mkView m l nid r) (on_bpm (io_write f g))
    (λ _ v, v = mkView (<[p := g x]> m) (<[i := (p, (f, true))]> l) nid r).
Proof.
  intros Hi Hx. eapply on_bpm_rule; [intros [Hok _]; eapply write_rule|]; [exact Hx| |by apply pins_distinct|].
  - apply pins_lookup; [done|]. split; [done|]. exists d. by eapply list_elem_of_lookup_2.
  - intros y a [Hok Hlive] ->. destruct (pins_write _ _ _ _ _ Hok Hi) as (Hok' & Hpins & Hdirty).
    eexists (mkView (<[p := g x]> m) (<[i := (p, (f, true))]> l) nid r). split_and!; [|split|done|done].
    + unfold store_of. simpl in *. by rewrite Hpins, Hdirty.
    + done.
    + simpl in *. intros y' Hy'. destruct (decide (y'.1 = p)) as [->|Hne]; [rewrite lookup_insert_eq; by eexists|rewrite lookup_insert_ne by done].
      apply list_elem_of_lookup in Hy' as [j Hj]. apply Hlive. destruct (decide (i = j)) as [<-|].
      * rewrite list_lookup_insert_eq in Hj by (by eapply lookup_lt_Some). by injection Hj as <-.
      * rewrite list_lookup_insert_ne in Hj by done. by eapply list_elem_of_lookup_2.
Qed.

Lemma unpin_rule_v m l nid r i p f d (b : bool) : l !! i = Some (p, (f, d)) → (b = true ∨ d = false) →
  tree_triple 1 (mkView m l nid r) (UnpinPage p b) (λ x v, x = true ∧ v = mkView m (delete i l) nid r).
Proof.
  intros Hi Hb. eapply on_bpm_rule; [intros [Hok _]; eapply unpin_rule|].
  - apply pins_lookup; [done|]. split; [done|]. exists d. by eapply list_elem_of_lookup_2.
  - destruct (pins_drop _ _ _ _ _ Hok Hi) as (_ & _ & _ & Hd). destruct Hb; [by left|right; by apply Hd].
  - intros x a [Hok Hlive] (-> & ->). destruct (pins_drop _ _ _ _ _ Hok Hi) as (Hok' & Hpins & Hdirty & _).
    eexists (mkView m (delete i l) nid r). split_and!; [|split|done|done|done].
    + unfold store_of. simpl in *. by rewrite Hpins, Hdirty.
    + done.
    + simpl in *. intros y Hy. apply Hlive. eapply elem_of_sublist; [exact Hy|apply sublist_delete].
Qed.

Lemma delete_rule_v m l nid r p : p ∉ l.*1 →
  tree_triple 1 (mkView m l nid r) (DeletePage p) (λ x v, x = true ∧ v = mkView (delete p m) l nid r).
Proof.
  intros Hp. eapply on_bpm_rule; [intros _; apply delete_rule; by apply pins_none|]. intros x a [Hok Hlive] (-> & ->). simpl in *.
  eexists (mkView (delete p m) l nid r). split_and!; [done|split; [done|]|done|done|done]. simpl. intros y Hy.
  rewrite lookup_delete_ne; [by apply Hlive|]. intros ->. apply Hp. by apply list_elem_of_fmap_2.
Qed.

(** *** The calls as the code makes them *)

Lemma fetch_throw_rule msg m l nid r p : is_Some (m !! p) → p ∉ l.*1 → Z.of_nat (length l) < io_frames →
  tree_triple 1 (mkView m l nid r) (fetch_or_throw msg p) (λ f v, v = mkView m ((p, (f, false)) :: l) nid r).
Proof.
  intros. eapply call_triple; [by apply fetch_rule_v|lia|]. intros o v (f & -> & ->). by apply ret_triple.
Qed.
Lemma fetch_deref_rule m l nid r p : is_Some (m !! p) → p ∉ l.*1 → Z.of_nat (length l) < io_frames →
  tree_triple 1 (mkView m l nid r) (fetch_deref p) (λ f v, v = mkView m ((p, (f, false)) :: l) nid r).
Proof.
  intros. eapply call_triple; [by apply fetch_rule_v|lia|]. intros o v (f & -> & ->). by apply ret_triple.
Qed.
Lemma new_throw_rule msg m l nid r : io_zero = PageZero → Z.of_nat (length l) < io_frames →
  tree_triple 1 (mkView m l nid r) (new_or_throw msg) (λ x v, ∃ f, x = (nid, f) ∧ m !! nid = None ∧
    v = mkView (<[nid := PageZero]> m) ((nid, (f, true)) :: l) (nid + 1) r).
Proof.
  intros. eapply call_triple; [by apply new_rule_v|lia|]. intros o v (f & -> & ? & ->). apply ret_triple; [lia|eauto].
Qed.

Lemma read_page_rule m l nid r i p f d x : l !! i = Some (p, (f, d)) → m !! p = Some x →
  tree_triple 1 (mkView m l nid r) (read_page f) (λ y v, y = as_page x ∧ v = mkView m l nid r).
Proof.
  intros Hi Hx. eapply call_triple; [by eapply read_rule_v|lia|]. intros y v (-> & ->). by apply ret_triple.
Qed.
Lemma read_leaf_rule m l nid r i p f d x y : l !! i = Some (p, (f, d)) → m !! p = Some x → as_leaf x = Ok y →
  tree_triple 1 (mkView m l nid r) (read_leaf f) (λ z v, z = y ∧ v = mkView m l nid r).
Proof.
  intros Hi Hx Hy. eapply call_triple; [by eapply read_rule_v|lia|]. intros z v (-> & ->). rewrite Hy. by apply ret_triple.
Qed.
Lemma read_internal_rule m l nid r i p f d x y : l !! i = Some (p, (f, d)) → m !! p = Some x → as_internal x = Ok y →
  tree_triple 1 (mkView m l nid r) (read_internal f) (λ z v, z = y ∧ v = mkView m l nid r).
Proof.
  intros Hi Hx Hy. eapply call_triple; [by eapply read_rule_v|lia|]. intros z v (-> & ->). rewrite Hy. by apply ret_triple.
Qed.
End Rules.

(** [tree_step rule] runs the first page call of the goal. *)
Tactic Notation "tree_step" uconstr(rule) := eapply call_triple; [eapply rule|lia|cbn beta].
