(* ===== verification/BPlusShape.v ===== *)
(** * Well-formed B+ trees

    What [Insert] and [Remove] of [b_plus_tree.cpp] keep: parent pointers, sizes, links between the
    leaves, and a range of keys for each subtree.  The pages above the subtree at hand
    are a path of frames, with the siblings to the left and to the right. *)

From S2P Require Import Prelude Common SortedAssoc PageStore PageIO PageLogic BPlusPage BPlusTree.

(** ** Ranges of keys *)

Inductive bound := MinusInf | Key (k : Z) | PlusInf.
Definition at_least (lo : bound) (k : Z) : Prop := match lo with MinusInf => True | Key a => a ≤ k | PlusInf => False end.
Definition below (hi : bound) (k : Z) : Prop := match hi with MinusInf => False | Key b => k < b | PlusInf => True end.
Definition in_range (lo hi : bound) (k : Z) : Prop := at_least lo k ∧ below hi k.

Lemma range_lt b x y : below b x → at_least b y → x < y.
Proof. destruct b; simpl; [done|lia|done]. Qed.
Lemma at_least_trans b x y : at_least b x → x ≤ y → at_least b y.
Proof. destruct b; simpl; [done|lia|done]. Qed.
Lemma below_trans b x y : below b y → x ≤ y → below b x.
Proof. destruct b; simpl; [done|lia|done]. Qed.

(** A leaf of a tree: its page, its entries, and the page it links to. *)
Record leaf := mkLf { lf_pid : Z; lf_entries : leaf_array; lf_next : Z }.
Definition lents (ls : list leaf) : leaf_array := concat (lf_entries <$> ls).
Lemma lents_app a b : lents (a ++ b) = lents a ++ lents b.
Proof. unfold lents. by rewrite fmap_app, concat_app. Qed.

(** A child of an internal page: its root, its range, its leaves and its pages. *)
Record child := mkChild { c_pid : Z; c_lo : bound; c_hi : bound; c_leaves : list leaf; c_pages : list Z }.
Definition leaves_of (cs : list child) : list leaf := concat (c_leaves <$> cs).
Definition pages_of (cs : list child) : list Z := concat (c_pages <$> cs).
Definition heads (cs : list child) : list (Z * bound) := (λ c, (c_pid c, c_lo c)) <$> cs.

Lemma leaves_of_app a b : leaves_of (a ++ b) = leaves_of a ++ leaves_of b.
Proof. unfold leaves_of. by rewrite fmap_app, concat_app. Qed.
Lemma pages_of_app a b : pages_of (a ++ b) = pages_of a ++ pages_of b.
Proof. unfold pages_of. by rewrite fmap_app, concat_app. Qed.
Lemma heads_app a b : heads (a ++ b) = heads a ++ heads b.
Proof. apply fmap_app. Qed.

(** The ranges of the children follow one another from [lo] to [hi]. *)
Fixpoint linked (lo : bound) (cs : list child) (hi : bound) : Prop :=
  match cs with [] => lo = hi | c :: cs => c_lo c = lo ∧ linked (c_hi c) cs hi end.

Lemma linked_app lo a b hi : linked lo (a ++ b) hi ↔ ∃ mid, linked lo a mid ∧ linked mid b hi.
Proof.
  revert lo. induction a as [|c a IH]; intros lo; simpl; [naive_solver|]. rewrite IH. naive_solver.
Qed.

(** The entries of the page name the children, and their keys are the lower bounds;
    the first key is not used. *)
Definition keyed (l : internal_array) (hs : list (Z * bound)) : Prop :=
  match l, hs with
  | (_, p) :: l, (q, _) :: hs => p = q ∧ Forall2 (λ e h, e.2 = h.1 ∧ h.2 = Key e.1) l hs
  | _, _ => False
  end.

Lemma keyed_pids l hs : keyed l hs → l.*2 = hs.*1.
Proof.
  destruct l as [|[k p] l], hs as [|[q b] hs]; try done. intros [-> H]. simpl. f_equal. induction H as [|[] [] ? ? [? _]]; simpl in *; congruence.
Qed.

(** One more child after the child [p]. *)
Lemma keyed_insert l h1 p b h2 up r : keyed l (h1 ++ (p, b) :: h2) → ∃ l1 k l2, l = l1 ++ (k, p) :: l2 ∧ l1.*2 = h1.*1 ∧
  keyed (l1 ++ (k, p) :: (up, r) :: l2) (h1 ++ (p, b) :: (r, Key up) :: h2).
Proof.
  intros H. destruct h1 as [|[q c] h1]; simpl in H.
  - destruct l as [|[k p'] l]; [done|]. destruct H as [-> H]. exists [], k, l. split_and!; [done|done|]. split; [done|]. by constructor.
  - destruct l as [|[k q'] l]; [done|]. destruct H as [-> H]. apply Forall2_app_inv_r in H as (l1 & l2 & H1 & H2 & ->).
    inversion H2 as [|[k2 p2] h l2' h2' [Hp Hb] H2' E1 E2]; subst. simpl in *. subst.
    exists ((k, q) :: l1), k2, l2'. split_and!; [done| |].
    + simpl. f_equal. clear - H1. induction H1 as [|[] [] ? ? [? _]]; simpl in *; congruence.
    + split; [done|]. apply Forall2_app; [done|]. by repeat constructor.
Qed.

(** The two halves of a page. *)
Lemma keyed_split l1 k p l2 h1 q b h2 : l1 ≠ [] → length l1 = length h1 → keyed (l1 ++ (k, p) :: l2) (h1 ++ (q, b) :: h2) →
  keyed l1 h1 ∧ p = q ∧ b = Key k ∧ ∀ mid, keyed ((mid, p) :: l2) ((q, b) :: h2).
Proof.
  intros Hne Hlen H. destruct l1 as [|[k0 p0] l1]; [done|]. destruct h1 as [|[q0 b0] h1]; [done|]. simpl in *.
  destruct H as [-> H]. apply Forall2_app_inv in H as [H1 H2]; [|congruence].
  inversion H2 as [|? ? ? ? [Hp Hb] H2']; subst. simpl in *. by split_and!.
Qed.

(** ** Well-formed subtrees *)

Section Tree.
Context (lmax imax : Z).
Implicit Types (m : gmap Z IndexPage) (pid par : Z) (lo hi : bound).

Record leaf_page_ok (p : LeafPage) (par : Z) (es : leaf_array) (nxt : Z) : Prop := {
  lp_ok : leaf_ok p;
  lp_max : max_size_ (l_hdr p) = lmax;
  lp_par : parent_page_id_ (l_hdr p) = par;
  lp_entries : leaf_entries p = es;
  lp_next : next_page_id_ p = nxt
}.
Record int_page_ok (p : InternalPage) (par : Z) (hs : list (Z * bound)) : Prop := {
  ip_shape : int_shape p;
  ip_max : max_size_ (i_hdr p) = imax;
  ip_par : parent_page_id_ (i_hdr p) = par;
  ip_keyed : keyed (int_entries p) hs
}.

(** The least number of children.  With room for three children or more every internal
    page has two; a page with room for two is split into one and two. *)
Definition min_children : nat := if 3 <=? imax then 2 else 1.
Lemma min_children_bounds : (1 ≤ min_children ≤ 2)%nat.
Proof. unfold min_children. case_match; lia. Qed.
Lemma enough_children {A} (cs : list A) : (min_children ≤ length cs)%nat → cs ≠ [].
Proof. pose proof min_children_bounds. destruct cs; [simpl; lia|done]. Qed.

(** In the pages [m], [pid] is the root of a tree of height [h] with the keys of the
    range, these leaves and these pages; its parent pointers are right. *)
Fixpoint sub m (h : nat) pid par lo hi (ls : list leaf) (pgs : list Z) : Prop :=
  match h with
  | O => ∃ p es nxt, m !! pid = Some (PageLeaf p) ∧ leaf_page_ok p par es nxt ∧ Z.of_nat (length es) ≤ lmax ∧ es ≠ [] ∧
      (∀ x, x ∈ es → in_range lo hi x.1) ∧ ls = [mkLf pid es nxt] ∧ pgs = [pid]
  | Datatypes.S h => ∃ p cs, m !! pid = Some (PageInternal p) ∧ int_page_ok p par (heads cs) ∧ Z.of_nat (length cs) ≤ imax ∧
      (min_children ≤ length cs)%nat ∧ linked lo cs hi ∧ Forall (λ c, sub m h (c_pid c) pid (c_lo c) (c_hi c) (c_leaves c) (c_pages c)) cs ∧
      ls = leaves_of cs ∧ pgs = pid :: pages_of cs
  end.
Definition kids m h par (cs : list child) : Prop :=
  Forall (λ c, sub m h (c_pid c) par (c_lo c) (c_hi c) (c_leaves c) (c_pages c)) cs.

Lemma sub_root m h pid par lo hi ls pgs : sub m h pid par lo hi ls pgs → pid ∈ pgs.
Proof. destruct h; simpl; intros H; split_hyps; subst; set_solver. Qed.

Lemma in_pages_of q cs : q ∈ pages_of cs ↔ ∃ c, c ∈ cs ∧ q ∈ c_pages c.
Proof.
  unfold pages_of. rewrite list_elem_of_In, in_concat. setoid_rewrite <- list_elem_of_In. split.
  - intros (x & (c & -> & Hc)%list_elem_of_fmap & Hq). eauto.
  - intros (c & Hc & Hq). exists (c_pages c). split; [by apply list_elem_of_fmap_2|done].
Qed.

(** Only the pages of the tree matter. *)
Lemma sub_agree m m' : ∀ h pid par lo hi ls pgs, sub m h pid par lo hi ls pgs → (∀ q, q ∈ pgs → m' !! q = m !! q) →
  sub m' h pid par lo hi ls pgs.
Proof.
  induction h as [|h IH]; intros pid par lo hi ls pgs.
  - intros (p & es & nxt & Hp & H) Hm. exists p, es, nxt. split; [|done]. destruct H as (_ & _ & _ & _ & _ & ->).
    rewrite Hm; [done|set_solver].
  - intros (p & cs & Hp & H1 & H2 & H3 & H4 & H5 & H6 & ->) Hm. exists p, cs. split_and!; try done.
    + rewrite Hm; [done|set_solver].
    + apply Forall_forall. intros c Hc. apply IH; [by eapply Forall_forall in H5|]. intros q Hq. apply Hm. right. apply in_pages_of. eauto.
Qed.
Lemma kids_agree m m' h par cs : kids m h par cs → (∀ q, q ∈ pages_of cs → m' !! q = m !! q) → kids m' h par cs.
Proof.
  intros H Hm. apply Forall_forall. intros c Hc. eapply sub_agree; [by eapply Forall_forall in H|].
  intros q Hq. apply Hm, in_pages_of. eauto.
Qed.

(** The pages of a tree are live. *)
Lemma sub_live m : ∀ h pid par lo hi ls pgs q, sub m h pid par lo hi ls pgs → q ∈ pgs → is_Some (m !! q).
Proof.
  induction h as [|h IH]; intros pid par lo hi ls pgs q; simpl.
  - intros (p & es & nxt & Hp & _ & _ & _ & _ & _ & ->) ->%list_elem_of_singleton. by eexists.
  - intros (p & cs & Hp & _ & _ & _ & _ & H & _ & ->) [->|(c & Hc & Hq)%in_pages_of]%elem_of_cons; [by eexists|].
    rewrite Forall_forall in H. eapply IH; [by apply H|done].
Qed.

(** [SetParentPageId] on the root of a subtree. *)
Lemma sub_parent m h pid par par' lo hi ls pgs : sub m h pid par lo hi ls pgs → NoDup pgs →
  ∃ d, m !! pid = Some d ∧ parent_page_id_ (as_page d) = par ∧ sub (<[pid := with_parent par' d]> m) h pid par' lo hi ls pgs.
Proof.
  intros H Hnd. destruct h as [|h].
  - destruct H as (p & es & nxt & Hp & [[Hok ?] Hmax Hpar He Hn] & H). exists (PageLeaf p). split_and!; [done|done|].
    exists (Leaf.SetParentPageId par' p), es, nxt. rewrite lookup_insert_eq. split; [done|]. split; [|done].
    split; try done. split; [|done]. destruct Hok. by split.
  - destruct H as (p & cs & Hp & [Hok Hmax Hpar Hk] & H2 & H3 & H4 & H5 & H6 & ->). exists (PageInternal p). split_and!; [done|done|].
    exists (Internal.SetParentPageId par' p), cs. rewrite lookup_insert_eq. split_and!; try done.
    + split; try done. destruct Hok. by split.
    + apply NoDup_cons in Hnd as [Hn _]. eapply kids_agree; [exact H5|]. intros q Hq. apply lookup_insert_ne. by intros ->.
Qed.

(** *** The entries of a subtree are sorted, and in its range *)

Definition good_range lo hi (es : leaf_array) : Prop := sorted_keys es ∧ (∀ x, x ∈ es → in_range lo hi x.1) ∧ es ≠ [].

Lemma linked_range cs : ∀ lo hi, linked lo cs hi → cs ≠ [] →
  Forall (λ c, good_range (c_lo c) (c_hi c) (lents (c_leaves c))) cs → good_range lo hi (lents (leaves_of cs)).
Proof.
  induction cs as [|c cs IH]; intros lo hi; [done|]. intros [<- Hl] _ [(Hs0 & Hr0 & Hne0) Hcs]%Forall_cons.
  change (leaves_of (c :: cs)) with (c_leaves c ++ leaves_of cs). rewrite lents_app.
  destruct cs as [|c' cs]; [simpl in Hl; subst; unfold leaves_of, lents at 2; simpl; by rewrite app_nil_r|].
  destruct (IH (c_hi c) hi Hl ltac:(done) Hcs) as (Hs & Hr & Hne).
  assert (∀ x y, x ∈ lents (c_leaves c) → y ∈ lents (leaves_of (c' :: cs)) → x.1 < y.1) as Hlt.
  { intros x y [_ Hx]%Hr0 [Hy _]%Hr. by eapply range_lt. }
  destruct (lents (c_leaves c)) as [|e0 es0]; [done|]. destruct (lents (leaves_of (c' :: cs))) as [|e1 es1]; [done|].
  split_and!; [by apply sorted_app| |done].
  pose proof (Hlt e0 e1 ltac:(by left) ltac:(by left)) as H01.
  intros x [Hx|Hx]%elem_of_app.
  - split; [by apply Hr0|]. eapply below_trans; [apply (Hr e1); by left|]. apply Z.lt_le_incl, Hlt; [done|by left].
  - split; [|by apply Hr]. eapply at_least_trans; [apply (Hr0 e0); by left|]. apply Z.lt_le_incl, Hlt; [by left|done].
Qed.

Lemma sub_range m : ∀ h pid par lo hi ls pgs, sub m h pid par lo hi ls pgs → good_range lo hi (lents ls).
Proof.
  induction h as [|h IH]; intros pid par lo hi ls pgs; simpl.
  - intros (p & es & nxt & _ & [[_ Hs] _ _ He _] & _ & Hne & Hr & -> & _). unfold lents. simpl. rewrite app_nil_r. subst. by split_and!.
  - intros (p & cs & _ & _ & _ & Hne%enough_children & Hl & Hk & -> & _). apply linked_range; [done|done|].
    eapply Forall_impl; [exact Hk|]. intros c. apply IH.
Qed.

(** *** The searches see these trees *)

Definition strip (ls : list leaf) : list (Z * leaf_array) := (λ l, (lf_pid l, lf_entries l)) <$> ls.
Lemma strip_app a b : strip (a ++ b) = strip a ++ strip b.
Proof. apply fmap_app. Qed.
Lemma entries_strip ls : entries (strip ls) = lents ls.
Proof. unfold entries, strip, lents. by rewrite <- list_fmap_compose. Qed.
Lemma strip_leaves_of cs : strip (leaves_of cs) = concat ((λ c, strip (c_leaves c)) <$> cs).
Proof. induction cs as [|c cs IH]; [done|]. change (leaves_of (c :: cs)) with (c_leaves c ++ leaves_of cs). by rewrite strip_app, IH. Qed.
Lemma entries_strips cs : concat (entries <$> ((λ c, strip (c_leaves c)) <$> cs)) = lents (leaves_of cs).
Proof. by rewrite <- entries_concat, <- strip_leaves_of, entries_strip. Qed.

Lemma linked_seps cs : ∀ left lo hi l, linked lo cs hi → Forall2 (λ e h, e.2 = h.1 ∧ h.2 = Key e.1) l (heads cs) →
  (∀ x, x ∈ left → below lo x.1) → Forall (λ c, good_range (c_lo c) (c_hi c) (lents (c_leaves c))) cs →
  seps_ok left l (entries <$> ((λ c, strip (c_leaves c)) <$> cs)).
Proof.
  induction cs as [|c cs IH]; intros left lo hi l Hl Hk Hleft Hg.
  - by inversion Hk.
  - inversion Hk as [|[k q] ? l' ? [Hq Hkey] Hk']; subst. simpl in *. destruct Hl as [<- Hl]. rewrite Hkey in *.
    split_and!; [done| |].
    + intros x Hx. rewrite entries_strips, entries_strip, <- lents_app in Hx.
      destruct (linked_range (c :: cs) (Key k) hi) as (_ & Hr & _); [by split|done|done|]. by apply (Hr x).
    + apply Forall_cons in Hg as [(_ & Hr & _) Hg]. eapply IH; [exact Hl|done| |done].
      intros x Hx. rewrite entries_strip in Hx. by apply Hr.
Qed.

Lemma sub_subtree m : ∀ h pid par lo hi ls pgs, sub m h pid par lo hi ls pgs → subtree m h pid (strip ls).
Proof.
  induction h as [|h IH]; intros pid par lo hi ls pgs.
  - intros (p & es & nxt & Hp & [[Hok _] _ _ He _] & _ & _ & _ & -> & _). exists p. by subst.
  - intros (p & cs & Hp & [Hsh _ _ Hk] & _ & Hne%enough_children & Hl & Hkids & -> & _). destruct cs as [|c cs]; [done|].
    destruct (int_entries p) as [|[k0 c0] l] eqn:He; [done|]. destruct Hk as [-> Hk]. destruct Hl as [<- Hl].
    assert (Forall (λ c, good_range (c_lo c) (c_hi c) (lents (c_leaves c))) (c :: cs)) as Hg
      by (eapply Forall_impl; [exact Hkids|]; intros d; apply sub_range).
    apply Forall_cons in Hkids as [Hc Hcs]. apply Forall_cons in Hg as [(_ & Hr & _) Hg].
    exists p, k0, (c_pid c), l, (strip (c_leaves c)), ((λ c, strip (c_leaves c)) <$> cs).
    split_and!; [done|done|done|by rewrite strip_leaves_of|by eapply IH| |].
    + clear - Hk Hcs IH. revert l Hk. induction Hcs as [|d cs Hd _ IHcs]; intros l Hk; [by inversion Hk|].
      inversion Hk as [|? ? ? ? [Hq _]]; subst. constructor; [|by apply IHcs]. simpl in Hq. rewrite Hq. by eapply IH.
    + eapply linked_seps; [exact Hl|done| |done]. intros x Hx. rewrite entries_strip in Hx. by apply Hr.
Qed.

(** The leaf pages of a subtree. *)
Lemma sub_leaf m : ∀ h pid par lo hi ls pgs l, sub m h pid par lo hi ls pgs → l ∈ ls →
  lf_pid l ∈ pgs ∧ lf_entries l ≠ [] ∧ ∃ p par, m !! lf_pid l = Some (PageLeaf p) ∧ leaf_page_ok p par (lf_entries l) (lf_next l).
Proof.
  induction h as [|h IH]; intros pid par lo hi ls pgs l; simpl.
  - intros (p & es & nxt & Hp & Hok & _ & Hne & _ & -> & ->) ->%list_elem_of_singleton. simpl. split_and!; [by left|done|eauto].
  - intros (p & cs & _ & _ & _ & _ & _ & Hk & -> & ->) Hl. unfold leaves_of in Hl. apply list_elem_of_In, in_concat in Hl as (x & Hx & Hl).
    apply list_elem_of_In, list_elem_of_fmap in Hx as (c & -> & Hc). apply list_elem_of_In in Hl.
    rewrite Forall_forall in Hk. destruct (IH _ _ _ _ _ _ _ (Hk c Hc) Hl) as (Hq & Hne & H).
    split_and!; [|done|done]. right. apply in_pages_of. eauto.
Qed.

(** Each leaf links to the next. *)
Definition first_pid (ls : list leaf) : Z := match ls with [] => INVALID_PAGE_ID | l :: _ => lf_pid l end.
Fixpoint links (ls : list leaf) : Prop := match ls with [] => True | l :: ls => lf_next l = first_pid ls ∧ links ls end.

Lemma links_entries A l es B : links (A ++ l :: B) → links (A ++ mkLf (lf_pid l) es (lf_next l) :: B).
Proof.
  induction A as [|a A IH]; simpl; [done|]. intros [Ha HA]. split; [|by apply IH]. by destruct A.
Qed.
Lemma links_split A l es1 es2 new B : links (A ++ l :: B) →
  links (A ++ mkLf (lf_pid l) es1 new :: mkLf new es2 (lf_next l) :: B).
Proof.
  induction A as [|a A IH]; simpl; [naive_solver|]. intros [Ha HA]. split; [|by apply IH]. by destruct A.
Qed.

Lemma links_chain m ls : links ls → (∀ l, l ∈ ls → 0 ≤ lf_pid l ∧ lf_entries l ≠ [] ∧
  ∃ p par, m !! lf_pid l = Some (PageLeaf p) ∧ leaf_page_ok p par (lf_entries l) (lf_next l)) → chain m (strip ls).
Proof.
  induction ls as [|l ls IH]; [done|]. intros [Hn Hl] Hok. destruct (Hok l ltac:(by left)) as (Hpos & Hne & p & par & Hp & Hpage).
  split_and!; [|done| |apply IH; [done|]; intros; apply Hok; by right].
  - exists p. destruct Hpage as [[? _] _ _ ? Hnext]. split_and!; [done..|]. rewrite Hnext, Hn. by destruct ls.
  - unfold INVALID_PAGE_ID. lia.
Qed.

(** ** What is above a subtree *)

Record frame := mkFrame { f_pid : Z; f_pre : list child; f_post : list child }.
Definition par_of (path : list frame) : Z := match path with [] => INVALID_PAGE_ID | F :: _ => f_pid F end.
Fixpoint root_of (path : list frame) (pid : Z) : Z := match path with [] => pid | F :: path => root_of path (f_pid F) end.
Fixpoint fill (path : list frame) (ls : list leaf) : list leaf :=
  match path with [] => ls | F :: path => fill path (leaves_of (f_pre F) ++ ls ++ leaves_of (f_post F)) end.
Fixpoint above_pages (path : list frame) : list Z :=
  match path with [] => [] | F :: path => f_pid F :: pages_of (f_pre F) ++ pages_of (f_post F) ++ above_pages path end.

(** The subtree [pid] of height [h] with its range hangs below the frames. *)
Fixpoint above m (h : nat) (path : list frame) pid lo hi : Prop :=
  match path with
  | [] => lo = MinusInf ∧ hi = PlusInf
  | F :: path => ∃ p lo' hi', m !! f_pid F = Some (PageInternal p) ∧
      int_page_ok p (par_of path) (heads (f_pre F) ++ (pid, lo) :: heads (f_post F)) ∧
      Z.of_nat (length (f_pre F) + 1 + length (f_post F)) ≤ imax ∧ (min_children ≤ length (f_pre F) + 1 + length (f_post F))%nat ∧
      linked lo' (f_pre F) lo ∧ linked hi (f_post F) hi' ∧
      kids m h (f_pid F) (f_pre F) ∧ kids m h (f_pid F) (f_post F) ∧ above m (Datatypes.S h) path (f_pid F) lo' hi'
  end.

Lemma above_agree m m' path : ∀ h pid lo hi, above m h path pid lo hi → (∀ q, q ∈ above_pages path → m' !! q = m !! q) →
  above m' h path pid lo hi.
Proof.
  induction path as [|F path IH]; intros h pid lo hi; [done|].
  intros (p & lo' & hi' & Hp & Hok & Hn & Hn' & Hl1 & Hl2 & Hk1 & Hk2 & Ha) Hm. exists p, lo', hi'.
  assert (∀ q, q ∈ f_pid F :: pages_of (f_pre F) ++ pages_of (f_post F) ++ above_pages path → m' !! q = m !! q) as Hm' by done.
  split_and!; try done.
  - rewrite Hm'; [done|by left].
  - eapply kids_agree; [exact Hk1|]. intros q Hq. apply Hm'. set_solver.
  - eapply kids_agree; [exact Hk2|]. intros q Hq. apply Hm'. set_solver.
  - eapply IH; [exact Ha|]. intros q Hq. apply Hm'. set_solver.
Qed.

Lemma above_live m path : ∀ h pid lo hi q, above m h path pid lo hi → q ∈ above_pages path → is_Some (m !! q).
Proof.
  assert (∀ h par cs q, kids m h par cs → q ∈ pages_of cs → is_Some (m !! q)) as Hkids.
  { intros h par cs q Hk (c & Hc & Hq)%in_pages_of. eapply sub_live; [by eapply Forall_forall in Hk|done]. }
  induction path as [|F path IH]; intros h pid lo hi q; simpl; [set_solver|].
  intros (p & lo' & hi' & Hp & _ & _ & _ & _ & _ & Hk1 & Hk2 & Ha). rewrite elem_of_cons, !elem_of_app.
  intros [->|[Hq|[Hq|Hq]]]; [by eexists|by apply (Hkids h (f_pid F) (f_pre F))|by apply (Hkids h (f_pid F) (f_post F))|by eapply IH].
Qed.

(** Putting the subtree back. *)
Lemma close_frame m h F path pid lo hi ls pgs : sub m h pid (f_pid F) lo hi ls pgs → above m h (F :: path) pid lo hi →
  ∃ lo' hi' pgs', sub m (Datatypes.S h) (f_pid F) (par_of path) lo' hi' (leaves_of (f_pre F) ++ ls ++ leaves_of (f_post F)) pgs' ∧
    above m (Datatypes.S h) path (f_pid F) lo' hi' ∧ pgs' ≡ₚ f_pid F :: pages_of (f_pre F) ++ pages_of (f_post F) ++ pgs.
Proof.
  intros Hs (p & lo' & hi' & Hp & Hok & Hn & Hn' & Hl1 & Hl2 & Hk1 & Hk2 & Ha).
  set (c := mkChild pid lo hi ls pgs). exists lo', hi', (f_pid F :: pages_of (f_pre F ++ c :: f_post F)). split_and!; [|done|].
  - exists p, (f_pre F ++ c :: f_post F). split_and!; [done|by rewrite heads_app|rewrite length_app; simpl; lia|rewrite length_app; simpl; lia| | | |done].
    + apply linked_app. exists lo. by split.
    + apply Forall_app. split; [done|]. by constructor.
    + rewrite leaves_of_app. done.
  - rewrite pages_of_app. change (pages_of (c :: f_post F)) with (pgs ++ pages_of (f_post F)). by rewrite (Permutation_app_comm pgs).
Qed.

Lemma close_path m path : ∀ h pid lo hi ls pgs, sub m h pid (par_of path) lo hi ls pgs → above m h path pid lo hi →
  ∃ pgs', sub m (h + length path) (root_of path pid) INVALID_PAGE_ID MinusInf PlusInf (fill path ls) pgs' ∧ pgs' ≡ₚ pgs ++ above_pages path.
Proof.
  induction path as [|F path IH]; intros h pid lo hi ls pgs Hs Ha.
  - destruct Ha as [-> ->]. exists pgs. simpl. rewrite Nat.add_0_r, app_nil_r. done.
  - destruct (close_frame _ _ _ _ _ _ _ _ _ Hs Ha) as (lo' & hi' & pgs1 & Hs1 & Ha1 & Hp1).
    destruct (IH _ _ _ _ _ _ Hs1 Ha1) as (pgs' & Hs' & Hp'). exists pgs'. cbn [length fill root_of above_pages]. rewrite <- plus_n_Sm.
    split; [done|]. rewrite Hp', Hp1. solve_Permutation.
Qed.

(** The leaves to the left of the hole are below its range, those to the right above. *)
Lemma fill_range m path : ∀ h pid lo hi, above m h path pid lo hi → ∃ A B, (∀ ls, fill path ls = A ++ ls ++ B) ∧
  ∀ k, in_range lo hi k → (∀ x, x ∈ lents A → x.1 < k) ∧ (∀ x, x ∈ lents B → k < x.1).
Proof.
  assert (∀ h par cs lo hi, kids m h par cs → linked lo cs hi → cs = [] ∧ lo = hi ∨ good_range lo hi (lents (leaves_of cs))) as Hkids.
  { intros h par cs lo hi Hk Hl. destruct cs as [|c cs]; [by left|right]. apply linked_range; [done|done|].
    eapply Forall_impl; [exact Hk|]. intros d. apply sub_range. }
  induction path as [|F path IH]; intros h pid lo hi; simpl.
  - intros [-> ->]. exists [], []. split; [intros; by rewrite app_nil_r|]. intros k _. unfold lents. simpl. set_solver.
  - intros (p & lo' & hi' & _ & _ & _ & _ & Hl1 & Hl2 & Hk1 & Hk2 & Ha). destruct (IH _ _ _ _ Ha) as (A & B & Hf & Hr).
    exists (A ++ leaves_of (f_pre F)), (leaves_of (f_post F) ++ B). split; [intros ls; rewrite Hf; by rewrite <- !app_assoc|].
    intros k Hk. assert (in_range lo' hi' k ∧ (∀ x, x ∈ lents (leaves_of (f_pre F)) → x.1 < k) ∧
      (∀ x, x ∈ lents (leaves_of (f_post F)) → k < x.1)) as (Hk' & Hpre & Hpost).
    { destruct Hk as [Hlo Hhi].
      destruct (Hkids _ _ _ _ _ Hk1 Hl1) as [[-> ->]|(_ & Hr1 & Hne1)], (Hkids _ _ _ _ _ Hk2 Hl2) as [[-> ->]|(_ & Hr2 & Hne2)].
      all: split_and!; try (by intros x Hx; apply not_elem_of_nil in Hx).
      all: try (intros x [_ Hx]%Hr1; by eapply range_lt).
      all: try (intros x [Hx _]%Hr2; by eapply range_lt).
      all: split; try done.
      all: try (destruct (lents (leaves_of (f_pre F))) as [|e es]; [done|]; destruct (Hr1 e) as [Ha1 Hb1]; [by left|];
        eapply at_least_trans; [exact Ha1|]; apply Z.lt_le_incl; by eapply range_lt).
      all: destruct (lents (leaves_of (f_post F))) as [|e es]; [done|]; destruct (Hr2 e) as [Ha2 Hb2]; [by left|];
        eapply below_trans; [exact Hb2|]; apply Z.lt_le_incl; by eapply range_lt. }
    destruct (Hr k Hk') as [HA HB]. rewrite !lents_app. split; intros x [?|?]%elem_of_app; auto.
Qed.
(** ** The descent *)

Lemma route_kids key cs : ∀ c lo hi c0 l, c_pid c = c0 → Forall2 (λ e h, e.2 = h.1 ∧ h.2 = Key e.1) l (heads cs) →
  linked lo (c :: cs) hi → in_range lo hi key →
  ∃ pre d post, c :: cs = pre ++ d :: post ∧ route key c0 l = c_pid d ∧ in_range (c_lo d) (c_hi d) key.
Proof.
  induction cs as [|c' cs IH]; intros c lo hi c0 l Hc Hk [<- Hl] Hr.
  - inversion Hk; simpl in Hl; subst. exists [], c, []. by split_and!.
  - inversion Hk as [|[k v] ? l' ? [Hv Hlo] Hk']; subst. simpl in *. destruct Hl as [Hhi Hl]. rewrite Hlo in Hhi.
    destruct (Z.ltb_spec key k) as [Hlt|Hge].
    + exists [], c, (c' :: cs). split_and!; [done|done|]. split; [apply Hr|]. by rewrite <- Hhi.
    + destruct (IH c' (Key k) hi v l') as (pre & d & post & He & Hd & Hr'); [done|done|by split|split; [simpl; lia|apply Hr]|].
      exists (c :: pre), d, post. split_and!; [by rewrite He|done|done].
Qed.

Lemma descend m h path cur par lo hi cs p key : m !! cur = Some (PageInternal p) → int_page_ok p (par_of path) (heads cs) →
  Z.of_nat (length cs) ≤ imax → linked lo cs hi → kids m h cur cs → above m (Datatypes.S h) path cur lo hi → (min_children ≤ length cs)%nat →
  in_range lo hi key →
  ∃ pre d post, cs = pre ++ d :: post ∧ Internal.Lookup p key = Ok (c_pid d) ∧ in_range (c_lo d) (c_hi d) key ∧
    sub m h (c_pid d) cur (c_lo d) (c_hi d) (c_leaves d) (c_pages d) ∧ above m h (mkFrame cur pre post :: path) (c_pid d) (c_lo d) (c_hi d).
Proof.
  intros Hp Hok Hn Hl Hk Ha Hmin Hr. pose proof (enough_children _ Hmin) as Hne. destruct cs as [|c cs]; [done|]. pose proof Hok as [Hsh _ _ Hkeyed].
  destruct (int_entries p) as [|[k0 c0] l] eqn:He; [done|]. destruct Hkeyed as [Hc0 Hkeyed].
  destruct (route_kids key cs c lo hi c0 l) as (pre & d & post & Heq & Hroute & Hd); [done..|].
  rewrite Heq in *. apply linked_app in Hl as (mid & Hl1 & <- & Hl2). apply Forall_app in Hk as [Hk1 [Hkd Hk2]%Forall_cons].
  exists pre, d, post. split_and!; [done| |done|done|].
  - rewrite (int_lookup_ok p key k0 c0 l Hsh He). by rewrite Hroute.
  - exists p, lo, hi. split_and!; try done; [by rewrite heads_app in Hok|..]; simpl; rewrite length_app in Hn, Hmin; simpl in Hn, Hmin; lia.
Qed.
End Tree.

(** ** Keys between the leaves *)

Lemma map_around A (es B : leaf_array) key : (∀ x, x ∈ A → x.1 < key) → (∀ x, x ∈ B → key < x.1) →
  assoc_map (A ++ es ++ B) !! key = assoc_map es !! key.
Proof.
  intros HA HB. rewrite !assoc_app, !lookup_union.
  assert (assoc_map A !! key = None) as -> by (apply assoc_lookup_None; intros v Hv%HA; simpl in Hv; lia).
  assert (assoc_map B !! key = None) as -> by (apply assoc_lookup_None; intros v Hv%HB; simpl in Hv; lia).
  by destruct (assoc_map es !! key).
Qed.

Lemma map_insert_around A (es es' B : leaf_array) key value : (∀ x, x ∈ A → x.1 < key) →
  assoc_map es' = <[key := value]> (assoc_map es) → assoc_map (A ++ es' ++ B) = <[key := value]> (assoc_map (A ++ es ++ B)).
Proof.
  intros HA He. rewrite !assoc_app, He. rewrite <- (insert_union_l (assoc_map es)), <- (insert_union_r (assoc_map A)); [done|].
  apply assoc_lookup_None. intros v Hv%HA. simpl in Hv. lia.
Qed.
