(* ===== verification/BPlusSplit.v ===== *)
(** * Splits in the B+ tree

    The second half of [Insert] of [b_plus_tree.cpp] on well-formed trees: the split of
    a leaf, and the loop that carries separators up through the parent pointers. *)

From S2P Require Import Prelude Common SortedAssoc PageStore PageIO PageLogic BPlusPage BPlusTree TreeLogic BPlusShape.

(** ** Running the code *)

Section Split.
Context {Pool : Type} `{PIO : !PageIO IndexPage Pool} (lmax imax : Z).
Context (zeroed : io_zero = PageZero) (frames : 3 ≤ io_frames).
Context (leaf_sizes : 1 ≤ lmax < LEAF_SLOTS) (int_sizes : 2 ≤ imax < INTERNAL_SLOTS).
Implicit Types (m : gmap Z IndexPage) (l : pins) (v : View).
Local Abbreviation T := (ST (BPlusTree Pool)).
Local Abbreviation tree_triple := (triple (S := BPlusTree Pool) (view_rel lmax imax)).
Local Abbreviation sub := (BPlusShape.sub lmax imax).
Local Abbreviation kids := (BPlusShape.kids lmax imax).
Local Abbreviation above := (BPlusShape.above lmax imax).
Local Abbreviation min_children := (BPlusShape.min_children imax).

(** *** Parent pointers *)

(** A fetch of a page, with or without a test of the answer. *)
Definition fetches (F : T Z) (c : Z) : Prop := ∀ m l nid r, is_Some (m !! c) → c ∉ l.*1 → Z.of_nat (length l) < io_frames →
  tree_triple 1 (mkView m l nid r) F (λ f v, v = mkView m ((c, (f, false)) :: l) nid r).

Lemma reparent_step {B} F m h c par par' lo hi ls pgs l nid r n (k : T B) Q :
  fetches F c → sub m h c par lo hi ls pgs → NoDup pgs → c ∉ l.*1 → Z.of_nat (length l) < io_frames → 3 ≤ n →
  (∀ m', sub m' h c par' lo hi ls pgs → (∀ q, q ≠ c → m' !! q = m !! q) → is_Some (m' !! c) →
    tree_triple (n - 3) (mkView m' l nid r) k Q) →
  tree_triple n (mkView m l nid r) (cf ← F; _ ← write_parent cf par'; _ ← UnpinPage c true; k) Q.
Proof using Type.
  intros HF Hs Hnd Hc Hl Hn Hk. destruct (sub_parent _ _ _ _ _ _ par' _ _ _ _ Hs Hnd) as (d & Hd & _ & Hs').
  eapply call_triple; [by apply HF; [eexists| |]|lia|]. intros f v ->.
  eapply call_triple; [by apply (write_rule_v lmax imax m _ nid r 0 c f false d)|lia|]. intros _ v ->. cbn [insert list_insert].
  eapply call_triple; [by apply (unpin_rule_v lmax imax _ _ nid r 0 c f true); [|left]|lia|]. intros _ v [_ ->]. cbn [delete list_delete].
  replace (n - 1 - 1 - 1) with (n - 3) by lia. apply Hk; [done| |].
  - intros q Hq. by apply lookup_insert_ne.
  - rewrite lookup_insert_eq. by eexists.
Qed.

Lemma fetches_throw msg c : fetches (fetch_or_throw msg c) c.
Proof using Type. intros m l nid r. apply fetch_throw_rule. Qed.
Lemma fetches_deref c : fetches (fetch_deref c) c.
Proof using Type. intros m l nid r. apply fetch_deref_rule. Qed.

(** Subtrees whose parent pointers may be out of date. *)
Definition orphans m h (cs : list child) : Prop := Forall (λ c, ∃ par, sub m h (c_pid c) par (c_lo c) (c_hi c) (c_leaves c) (c_pages c)) cs.
Lemma kids_orphans m h par cs : kids m h par cs → orphans m h cs.
Proof using Type. intros H. eapply Forall_impl; [exact H|]. intros c Hc. by exists par. Qed.
Lemma orphans_agree m m' h cs : orphans m h cs → (∀ q, q ∈ pages_of cs → m' !! q = m !! q) → orphans m' h cs.
Proof using Type.
  intros H Hm. apply Forall_forall. intros c Hc. destruct (proj1 (Forall_forall _ _) H c Hc) as [par Hs]. exists par.
  eapply sub_agree; [exact Hs|]. intros q Hq. apply Hm, in_pages_of. eauto.
Qed.

(** The loop over the children of a page. *)
Lemma set_children_parent_ok msg todo : ∀ m h in_pid p f d l i j nid r,
  l !! j = Some (in_pid, (f, d)) → Z.of_nat (length l) < io_frames → m !! in_pid = Some (PageInternal p) →
  (drop i (int_entries p)).*2 = c_pid <$> todo → orphans m h todo → NoDup (pages_of todo) →
  in_pid ∉ pages_of todo → (∀ q, q ∈ l.*1 → q ∉ pages_of todo) →
  tree_triple (4 * Z.of_nat (length todo)) (mkView m l nid r) (set_children_parent msg f in_pid (length todo) (Z.of_nat i))
    (λ _ v, ∃ m', v = mkView m' l nid r ∧ kids m' h in_pid todo ∧ ∀ q, q ∉ pages_of todo → m' !! q = m !! q).
Proof using Pool PIO lmax imax.
  clear zeroed frames leaf_sizes int_sizes.
  induction todo as [|c todo IH]; intros m h in_pid p f d l i j nid r Hj Hl Hp He Hk Hnd Hin Hpins; cbn [length set_children_parent].
  { apply ret_triple; [lia|]. exists m. by split_and!; [|constructor|]. }
  change (pages_of (c :: todo)) with (c_pages c ++ pages_of todo) in *. apply Forall_cons in Hk as [[old Hc] Hk].
  apply NoDup_app in Hnd as (Hnd1 & Hdis & Hnd2). pose proof (sub_root _ _ _ _ _ _ _ _ _ _ Hc) as Hroot.
  eapply call_triple; [by eapply read_internal_rule|lia|]. intros y v [-> ->].
  assert (Internal.ValueAt p (Z.of_nat i) = Ok (c_pid c)) as Hv.
  { assert ((drop i (int_entries p)).*2 !! 0%nat = Some (c_pid c)) as H by (by rewrite He).
    rewrite list_lookup_fmap, lookup_drop, Nat.add_0_r in H. destruct (int_entries p !! i) as [[k q]|] eqn:E; [|done].
    injection H as ->. unfold Internal.ValueAt. by rewrite (int_entries_get p i _ E). }
  eapply triple_bind_lift; [exact Hv|].
  eapply (reparent_step _ m h (c_pid c)); [apply fetches_throw|exact Hc|exact Hnd1| |done|lia|].
  { intros H. apply (Hpins _ H). set_solver. }
  intros m1 Hs1 Hm1 _. assert (∀ q, q ∈ pages_of todo → m1 !! q = m !! q) as Hag.
  { intros q Hq. apply Hm1. intros ->. by apply (Hdis (c_pid c)). }
  replace (Z.of_nat i + 1) with (Z.of_nat (S i)) by lia. replace (4 * Z.of_nat (S (length todo)) - 1 - 3) with (4 * Z.of_nat (length todo)) by lia.
  eapply mono_triple; [eapply (IH m1 h in_pid p f d l (S i) j)|lia|].
  - done.
  - done.
  - rewrite Hm1; [done|]. intros ->. apply Hin. set_solver.
  - destruct (int_entries p !! i) as [e|] eqn:E.
    + rewrite (drop_S _ e i E) in He. by injection He.
    + apply lookup_ge_None in E. rewrite drop_ge in He by done. done.
  - by apply (orphans_agree m m1 h todo Hk).
  - done.
  - set_solver.
  - intros q Hq H. apply (Hpins q Hq). set_solver.
  - intros _ v (m' & -> & Hk' & Hm'). exists m'. split_and!; [done| |].
    + constructor; [|done]. eapply sub_agree; [exact Hs1|]. intros q Hq. apply Hm'. intros H. by apply (Hdis q).
    + intros q Hq. rewrite Hm' by set_solver. apply Hm1. intros ->. set_solver.
Qed.

(** *** A new root *)

Definition whole m h root (ls : list leaf) : Prop :=
  ∃ pgs, sub m h root INVALID_PAGE_ID MinusInf PlusInf ls pgs ∧ NoDup pgs ∧ Forall (λ p, 0 ≤ p) pgs.

Lemma populate_ok left up right p : int_shape p → ∃ q k, Internal.PopulateNewRoot left up right p = Ok q ∧ int_shape q ∧
  int_entries q = [(k, left); (up, right)] ∧ same_parent p q.
Proof.
  intros [Ht _ Hl]. unfold INTERNAL_SLOTS, PAGE_SIZE in Hl. change ((4096 - 16) / 8) with 510 in Hl.
  unfold Internal.PopulateNewRoot, Internal.SetValueAt, Internal.SetKeyAt, Internal.set_key, Internal.set_value. simpl.
  destruct (i_array p) as [|[k0 v0] [|[k1 v1] a]] eqn:Ea; [done|done|]. simpl in Hl.
  repeat (rewrite ?(arr_get_ok _ 0 _ eq_refl), ?(arr_get_ok _ 1 _ eq_refl), ?(arr_set_ok _ 0), ?(arr_set_ok _ 1) by (simpl; lia); simpl).
  eexists _, k0. split; [reflexivity|]. split_and!; [split; [done|done|]|done|by split]. simpl. unfold INTERNAL_SLOTS, PAGE_SIZE. change ((4096 - 16) / 8) with 510. lia.
Qed.

Lemma zero_internal_shape n par : int_shape (Internal.SetParentPageId par (Internal.Init n zero_internal_array)).
Proof. split; [done|vm_compute; split; discriminate|vm_compute; reflexivity]. Qed.

Lemma new_root_ok m h left up right rpar lsl lsr pl pr nid r :
  sub m h left INVALID_PAGE_ID MinusInf (Key up) lsl pl → sub m h right rpar (Key up) PlusInf lsr pr →
  NoDup (pl ++ pr) → Forall (λ p, 0 ≤ p) (pl ++ pr) → 0 ≤ nid →
  tree_triple 10 (mkView m [] nid r) (new_root left up right)
    (λ b v, b = true ∧ ∃ m', v = mkView m' [] (nid + 1) nid ∧ whole m' (S h) nid (lsl ++ lsr)).
Proof.
  intros Hl Hr Hnd Hpos Hnid. pose proof Hnd as (Hnd1 & Hdis & Hnd2)%NoDup_app.
  pose proof (sub_root _ _ _ _ _ _ _ _ _ _ Hl) as Hlr. pose proof (sub_root _ _ _ _ _ _ _ _ _ _ Hr) as Hrr.
  apply get_triple. intros t _ _ Hi. eapply call_triple; [by apply new_throw_rule; [|simpl; lia]|lia|].
  intros x v (f & -> & Hfresh & ->). cbn beta iota.
  assert (∀ q, q ∈ pl ++ pr → q ≠ nid) as Hne.
  { intros q [Hq|Hq]%elem_of_app ->; eapply sub_live in Hq as [? Hq]; try done; congruence. }
  eapply call_triple; [by eapply (read_internal_rule _ _ _ _ _ _ 0); [|apply lookup_insert_eq|]|lia|]. intros y v [-> ->].
  rewrite Hi. cbn [i_array]. destruct (populate_ok left up right _ (zero_internal_shape imax INVALID_PAGE_ID)) as (q & k & Hq & Hsh & He & Hpar & Hmax).
  eapply triple_bind_lift; [exact Hq|].
  eapply call_triple; [by eapply (write_rule_v _ _ _ _ _ _ 0); [|apply lookup_insert_eq]|lia|]. intros _ v ->. rewrite insert_insert_eq. cbn [insert list_insert].
  apply root_triple. cbn [v_pages v_pins v_next]. set (m1 := <[nid := _]> m).
  assert (∀ p, p ∈ pl ++ pr → m1 !! p = m !! p) as Hm1 by (intros p Hp; apply lookup_insert_ne; by apply not_eq_sym, Hne).
  eapply (reparent_step _ m1 h left); [apply fetches_deref|eapply sub_agree; [exact Hl|]|done| |simpl; lia|lia|].
  { intros p Hp. apply Hm1. set_solver. }
  { simpl. intros H%list_elem_of_singleton. apply (Hne left); [set_solver|done]. }
  intros m2 Hl2 Hm2 _.
  eapply (reparent_step _ m2 h right); [apply fetches_deref|eapply sub_agree; [exact Hr|]|done| |simpl; lia|lia|].
  { intros p Hp. rewrite Hm2; [apply Hm1; set_solver|]. intros ->. by apply (Hdis left). }
  { simpl. intros H%list_elem_of_singleton. apply (Hne right); [set_solver|done]. }
  intros m3 Hr3 Hm3 _.
  eapply call_triple; [by eapply (unpin_rule_v _ _ _ _ _ _ 0); [|left]|lia|]. intros _ v [_ ->]. cbn [delete list_delete].
  apply ret_triple; [lia|]. split; [done|]. exists m3. split; [done|].
  set (cl := mkChild left MinusInf (Key up) lsl pl). set (cr := mkChild right (Key up) PlusInf lsr pr).
  exists (nid :: pages_of [cl; cr]). assert (pages_of [cl; cr] = pl ++ pr) as Hpg by (unfold pages_of; simpl; by rewrite app_nil_r).
  split_and!.
  - exists q, [cl; cr]. split_and!; [| |simpl; lia|apply (min_children_bounds imax)|done| |by unfold leaves_of; simpl; rewrite app_nil_r|done].
    + rewrite Hm3, Hm2; [apply lookup_insert_eq|..]; intros E; [apply (Hne left)|apply (Hne right)]; set_solver.
    + split; [done|by rewrite Hmax|by rewrite Hpar|]. rewrite He. split; [done|]. by repeat constructor.
    + repeat constructor; [|done]. eapply sub_agree; [exact Hl2|]. intros p Hp. apply Hm3. intros ->. by apply (Hdis right).
  - rewrite Hpg. constructor; [|done]. intros H. by apply (Hne nid H).
  - rewrite Hpg. by constructor.
Qed.

(** *** Splitting an internal page *)

Lemma length_keyed (es : internal_array) hs : keyed es hs → length es = length hs.
Proof. intros H%keyed_pids%(f_equal length). by rewrite !length_fmap in H. Qed.

(** A page with one child too many, and its halves. *)
Lemma halves p par cs lo hi new par' :
  int_page_ok imax p par (heads cs) → Z.of_nat (length cs) = imax + 1 → linked lo cs hi → int_shape new → max_size_ (i_hdr new) = imax →
  parent_page_id_ (i_hdr new) = par' →
  ∃ promote p' new' cs1 cs2, Internal.KeyAt p (Z.quot (Internal.GetSize p) 2) = Ok promote ∧
    Internal.MoveHalfTo promote p new = Ok (p', new') ∧ cs = cs1 ++ cs2 ∧ (min_children ≤ length cs1)%nat ∧ (min_children ≤ length cs2)%nat ∧
    int_page_ok imax p' par (heads cs1) ∧ int_page_ok imax new' par' (heads cs2) ∧ linked lo cs1 (Key promote) ∧ linked (Key promote) cs2 hi ∧
    Internal.GetSize new' = Z.of_nat (length cs2).
Proof.
  intros [Hsh Hmax Hpar Hk] Hlen Hl Hshn Hmaxn Hparn. pose proof (length_keyed _ _ Hk) as Hle. unfold heads in Hle. rewrite length_fmap in Hle.
  pose proof (int_entries_length p Hsh) as Hsz. set (i := Z.to_nat (Z.quot (Internal.GetSize p) 2)).
  assert (0 < Z.of_nat i < Internal.GetSize p ∧ Z.of_nat i = Z.quot (Internal.GetSize p) 2) as [Hi Hiq] by (unfold i; Z.to_euclidean_division_equations; lia).
  destruct (lookup_lt_is_Some_2 (int_entries p) i) as [[k v] Hkv]; [lia|]. destruct (lookup_lt_is_Some_2 cs i) as [c Hc]; [lia|].
  pose proof (take_drop_middle _ _ _ Hkv) as He. pose proof (take_drop_middle _ _ _ Hc) as Hcs.
  assert (length (take i (int_entries p)) = i) as Hl1 by (rewrite length_take; lia).
  destruct (int_move_half_ok k p new (take i (int_entries p)) k v (drop (S i) (int_entries p)) Hsh Hshn) as
    (p' & new' & Hm & Hsh' & Hshn' & Hep & Hen & [Hpp Hpm] & [Hnp Hnm]); [lia|done|lia|].
  rewrite <- He, <- Hcs, heads_app in Hk. change (heads (c :: drop (S i) cs)) with ((c_pid c, c_lo c) :: heads (drop (S i) cs)) in Hk.
  assert (take i (int_entries p) ≠ []) as Hne by (intros H; rewrite H in Hl1; simpl in Hl1; lia).
  assert (length (take i (int_entries p)) = length (heads (take i cs))) as Hlh by (unfold heads; rewrite length_fmap, Hl1, length_take; lia).
  destruct (keyed_split _ _ _ _ _ _ _ _ Hne Hlh Hk) as (Hk1 & Hv & Hlo & Hk2).
  rewrite <- Hcs in Hl. apply linked_app in Hl as (mid & Hla & Hlb). pose proof Hlb as [Hlb1 _]. rewrite Hlo in Hlb1. subst mid.
  assert (min_children ≤ i ∧ min_children + i ≤ length cs)%nat as [Hmin1 Hmin2].
  { unfold BPlusShape.min_children. destruct (Z.leb_spec 3 imax); unfold i; Z.to_euclidean_division_equations; lia. }
  exists k, p', new', (take i cs), (c :: drop (S i) cs). split_and!; [|done|done| | | | |done|done|].
  - unfold Internal.KeyAt. rewrite <- Hiq. by rewrite (int_entries_get p i _ Hkv).
  - rewrite length_take. lia.
  - simpl. rewrite length_drop. lia.
  - split; [done|congruence|congruence|by rewrite Hep].
  - split; [done|congruence|congruence|rewrite Hen; apply Hk2].
  - rewrite <- (int_entries_length new' Hshn'), Hen. simpl. rewrite !length_drop. lia.
Qed.

Lemma split_internal_ok m h p par lo hi cs parent nid r :
  m !! parent = Some (PageInternal p) → int_page_ok imax p par (heads cs) → Z.of_nat (length cs) = imax + 1 → linked lo cs hi →
  kids m h parent cs → NoDup (parent :: pages_of cs) →
  tree_triple 2100 (mkView m [] nid r) (split_internal parent)
    (λ x v, ∃ promote cs1 cs2 m', x = (promote, nid) ∧ v = mkView m' [] (nid + 1) r ∧ cs = cs1 ++ cs2 ∧ m !! nid = None ∧
      sub m' (S h) parent par lo (Key promote) (leaves_of cs1) (parent :: pages_of cs1) ∧
      sub m' (S h) nid par (Key promote) hi (leaves_of cs2) (nid :: pages_of cs2) ∧
      ∀ q, q ∉ parent :: nid :: pages_of cs2 → m' !! q = m !! q).
Proof.
  intros Hp Hok Hlen Hl Hk Hnd. apply NoDup_cons in Hnd as [Hpar Hnd]. pose proof (ip_par _ _ _ _ Hok) as Hpp.
  apply get_triple. intros t _ _ Hi.
  eapply call_triple; [by apply fetch_throw_rule; [eexists|apply not_elem_of_nil|simpl; lia]|lia|]. intros pf v ->.
  eapply call_triple; [by eapply (read_internal_rule _ _ _ _ _ _ 0)|lia|]. intros y v [-> ->].
  destruct (halves p par cs lo hi (Internal.SetParentPageId par (Internal.Init imax zero_internal_array)) par Hok Hlen Hl
    (zero_internal_shape imax par) eq_refl eq_refl) as (promote & p' & new' & cs1 & cs2 & Hkey & Hmove & -> & Hne1 & Hne2 & Hok1 & Hok2 & Hl1 & Hl2 & Hsz).
  eapply triple_bind_lift; [exact Hkey|].
  eapply call_triple; [by apply new_throw_rule; [|simpl; lia]|lia|]. intros x v (nf & -> & Hfresh & ->). cbn beta iota.
  eapply call_triple; [by eapply (read_internal_rule _ _ _ _ _ _ 0); [|apply lookup_insert_eq|]|lia|]. intros y v [-> ->].
  rewrite Hi, Hpp. cbn [i_array]. eapply triple_bind_lift; [exact Hmove|]. cbn beta iota.
  assert (nid ≠ parent) as Hnp by congruence.
  eapply call_triple; [by eapply (write_rule_v _ _ _ _ _ _ 1); [|by rewrite lookup_insert_ne]|lia|]. intros _ v ->. cbn [insert list_insert].
  eapply call_triple; [by eapply (write_rule_v _ _ _ _ _ _ 0); [|rewrite lookup_insert_ne by done; apply lookup_insert_eq]|lia|]. intros _ v ->.
  cbn [insert list_insert]. set (m1 := <[nid := _]> (<[parent := _]> _)).
  assert (∀ q, q ≠ nid → q ≠ parent → m1 !! q = m !! q) as Hm1 by (intros q H1 H2; unfold m1; by rewrite !lookup_insert_ne).
  rewrite pages_of_app in Hpar, Hnd. pose proof Hnd as (Hnd1 & Hdis & Hnd2)%NoDup_app. apply Forall_app in Hk as [Hk1 Hk2].
  assert (∀ q, q ∈ pages_of (cs1 ++ cs2) → q ≠ nid) as Hfr.
  { intros q (c & Hc & Hq)%in_pages_of ->. assert (Forall (λ c, sub m h (c_pid c) parent (c_lo c) (c_hi c) (c_leaves c) (c_pages c)) (cs1 ++ cs2)) as Hall
      by (by apply Forall_app). rewrite Forall_forall in Hall. eapply sub_live in Hq as [? Hq]; [|by apply Hall]. congruence. }
  rewrite pages_of_app in Hfr.
  assert (∀ q, q ∈ pages_of cs1 ++ pages_of cs2 → m1 !! q = m !! q) as Hag by (intros q Hq; apply Hm1; [by apply Hfr|by intros ->]).
  eapply (seq_triple _ _ (4 * Z.of_nat (length cs2))).
  { rewrite Hsz, Nat2Z.id. change 0 with (Z.of_nat 0).
    eapply (set_children_parent_ok _ cs2 m1 h nid new' nf true _ 0 0); [done|simpl; lia|by unfold m1; rewrite lookup_insert_eq| | |done| |].
    - rewrite drop_0, (keyed_pids _ _ (ip_keyed _ _ _ _ Hok2)). unfold heads. by rewrite <- list_fmap_compose.
    - apply (orphans_agree m m1 h cs2); [by eapply kids_orphans|]. intros q Hq. apply Hag. set_solver.
    - intros H. apply (Hfr nid); [set_solver|done].
    - simpl. intros q Hq H. apply elem_of_cons in Hq as [->| ->%list_elem_of_singleton]; [apply (Hfr nid); [set_solver|done]|apply Hpar; set_solver]. }
  { rewrite length_app in Hlen. unfold INTERNAL_SLOTS, PAGE_SIZE in int_sizes. change ((4096 - 16) / 8) with 510 in int_sizes. lia. }
  intros _ v (m2 & -> & Hk2' & Hm2). rewrite length_app in Hlen.
  pose proof (enough_children _ _ Hne1) as Hcs1. pose proof (enough_children _ _ Hne2) as Hcs2.
  assert (4 * Z.of_nat (length cs2) ≤ 2040) as Hcost.
  { unfold INTERNAL_SLOTS, PAGE_SIZE in int_sizes. change ((4096 - 16) / 8) with 510 in int_sizes. destruct cs1; [done|]. simpl in Hlen. lia. }
  eapply call_triple; [by eapply (unpin_rule_v _ _ _ _ _ _ 1); [|left]|lia|]. intros _ v [_ ->]. cbn [delete list_delete].
  eapply call_triple; [by eapply (unpin_rule_v _ _ _ _ _ _ 0); [|left]|lia|]. intros _ v [_ ->]. cbn [delete list_delete].
  apply ret_triple; [lia|]. exists promote, cs1, cs2, m2. split_and!; [done|done|done|done| | |].
  - exists p', cs1. split_and!; [|done|destruct cs2; [done|simpl in *; lia]|done|done| |done|done].
    + rewrite Hm2 by (intros H; apply Hpar; set_solver). unfold m1. by rewrite lookup_insert_ne, lookup_insert_eq.
    + apply (kids_agree lmax imax m m2 h parent cs1 Hk1). intros q Hq. rewrite Hm2 by (by apply Hdis). apply Hag. set_solver.
  - exists new', cs2. split_and!; [|done|destruct cs1; [done|simpl in *; lia]|done|done|done|done|done].
    rewrite Hm2; [unfold m1; by rewrite lookup_insert_eq|]. intros H. by apply (Hfr nid); [set_solver|].
  - intros q Hq. rewrite Hm2 by set_solver. apply Hm1; set_solver.
Qed.

(** *** One more child *)

Definition widened F left right lo up hi lsl lsr pl pr : list child :=
  f_pre F ++ mkChild left lo (Key up) lsl pl :: mkChild right (Key up) hi lsr pr :: f_post F.

Lemma widened_pages F left right lo up hi lsl lsr pl pr :
  pages_of (widened F left right lo up hi lsl lsr pl pr) = pages_of (f_pre F) ++ pl ++ pr ++ pages_of (f_post F).
Proof. unfold widened. rewrite pages_of_app. done. Qed.
Lemma widened_leaves F left right lo up hi lsl lsr pl pr :
  leaves_of (widened F left right lo up hi lsl lsr pl pr) = leaves_of (f_pre F) ++ (lsl ++ lsr) ++ leaves_of (f_post F).
Proof. unfold widened. rewrite leaves_of_app. unfold leaves_of at 2. simpl. by rewrite <- !app_assoc. Qed.

Lemma widen_step {B} m h F path left right rpar lo up hi lsl lsr pl pr nid r n (k : bool → T B) Q :
  sub m h left (f_pid F) lo (Key up) lsl pl → sub m h right rpar (Key up) hi lsr pr → above m h (F :: path) left lo hi →
  NoDup (pl ++ pr ++ above_pages (F :: path)) → 8 ≤ n →
  (∀ m' q lo' hi', let cs := widened F left right lo up hi lsl lsr pl pr in
    m' !! f_pid F = Some (PageInternal q) → int_page_ok imax q (par_of path) (heads cs) → linked lo' cs hi' →
    kids m' h (f_pid F) cs → above m' (S h) path (f_pid F) lo' hi' → Z.of_nat (length cs) ≤ imax + 1 →
    tree_triple (n - 8) (mkView m' [] nid r) (k (imax <? Z.of_nat (length cs))) Q) →
  tree_triple n (mkView m [] nid r)
    (pf ← fetch_or_throw "Insert: FetchPage(parent) failed" (f_pid F);
     parent ← read_internal pf;
     '(_, parent) ← st_lift (Internal.InsertNodeAfter left up right parent);
     _ ← write_internal pf parent;
     rf ← fetch_or_throw "Insert: FetchPage(right child) failed" right;
     _ ← write_parent rf (f_pid F);
     _ ← UnpinPage right true;
     let parent_overflow := max_size_ (i_hdr parent) <? Internal.GetSize parent in
     _ ← UnpinPage (f_pid F) true;
     k parent_overflow) Q.
Proof.
  intros Hl Hr (p & lo' & hi' & Hp & [Hsh Hmax Hpar Hk] & Hn & _ & Hk1 & Hk2 & Hpre & Hpost & Ha) Hnd Hcost Hrest.
  set (cs := widened F left right lo up hi lsl lsr pl pr) in *. cbn [above_pages] in Hnd.
  assert (NoDup (f_pid F :: (pages_of (f_pre F) ++ pages_of (f_post F) ++ above_pages path) ++ pl ++ pr)) as Hnd'
    by (eapply NoDup_Permutation_proper; [|exact Hnd]; solve_Permutation).
  clear Hnd. apply NoDup_cons in Hnd' as [Hf Hnd]. apply NoDup_app in Hnd as (_ & Hd1 & (Hndl & Hdlr & Hndr)%NoDup_app).
  pose proof (sub_root _ _ _ _ _ _ _ _ _ _ Hl) as Hlr. pose proof (sub_root _ _ _ _ _ _ _ _ _ _ Hr) as Hrr.
  eapply call_triple; [by apply fetch_throw_rule; [eexists|apply not_elem_of_nil|simpl; lia]|lia|]. intros pf v ->.
  eapply call_triple; [by eapply (read_internal_rule _ _ _ _ _ _ 0)|lia|]. intros y v [-> ->].
  pose proof (int_entries_length p Hsh) as Hsz. pose proof (length_keyed _ _ Hk) as Hlen.
  destruct (keyed_insert _ _ _ _ _ up right Hk) as (l1 & k1 & l2 & He & Hl1 & Hk').
  destruct (int_insert_after_ok p left up right l1 k1 l2 Hsh) as (q & Hq & Hshq & Heq & Hqp & Hqm); [|exact He| |].
  { rewrite length_app in Hlen. unfold heads in Hlen. simpl in Hlen. rewrite !length_fmap in Hlen. lia. }
  { intros e Hin Hel. apply (list_elem_of_fmap_2 snd) in Hin. rewrite Hl1, Hel in Hin. unfold heads in Hin.
    rewrite <- list_fmap_compose in Hin. apply list_elem_of_fmap in Hin as (c & Hc & Hin). simpl in Hc.
    apply (Hd1 left); [|set_solver]. apply elem_of_app. left. apply in_pages_of. exists c. split; [done|]. rewrite Hc.
    unfold BPlusShape.kids in Hpre. rewrite Forall_forall in Hpre. by eapply sub_root, Hpre. }
  eapply triple_bind_lift; [exact Hq|]. cbn beta iota.
  eapply call_triple; [by eapply (write_rule_v _ _ _ _ _ _ 0)|lia|]. intros _ v ->. cbn [insert list_insert].
  set (m1 := <[f_pid F := _]> m).
  assert (∀ x, x ≠ f_pid F → m1 !! x = m !! x) as Hm1 by (intros x Hx; by apply lookup_insert_ne).
  eapply (reparent_step _ m1 h right); [apply fetches_throw|eapply sub_agree; [exact Hr|]|done| |simpl; lia|lia|].
  { intros x Hx. apply Hm1. intros ->. apply Hf. set_solver. }
  { simpl. intros H%list_elem_of_singleton. apply Hf. rewrite <- H. set_solver. }
  intros m2 Hr2 Hm2 _. assert (∀ x, x ≠ f_pid F → x ≠ right → m2 !! x = m !! x) as Hm2' by (intros x H1 H2; rewrite Hm2 by done; by apply Hm1).
  assert (right ≠ f_pid F) as Hrf by (intros E; apply Hf; rewrite <- E; set_solver).
  eapply call_triple; [by eapply (unpin_rule_v _ _ _ _ _ _ 0); [|left]|lia|]. intros _ v [_ ->]. cbn [delete list_delete].
  assert (Internal.GetSize q = Z.of_nat (length cs) ∧ max_size_ (i_hdr q) = imax) as [-> ->].
  { split; [|congruence]. rewrite <- (int_entries_length q Hshq), Heq, (length_keyed _ _ Hk').
    unfold cs, widened, heads. rewrite !length_app. simpl. by rewrite !length_fmap. }
  replace (n - 1 - 1 - 1 - 3 - 1 - 1) with (n - 8) by lia || idtac.
  eapply mono_triple; [eapply (Hrest m2 q lo' hi')|lia|done].
  - rewrite Hm2 by done. unfold m1. apply lookup_insert_eq.
  - split; [done|congruence|congruence|]. rewrite Heq. unfold cs, widened. by rewrite heads_app.
  - apply linked_app. exists lo. split; [done|]. by split_and!.
  - apply Forall_app. split; [|constructor; [|constructor]].
    + apply (kids_agree lmax imax m m2 h (f_pid F) _ Hpre). intros x Hx. apply Hm2'; [intros ->|intros ->]; [apply Hf|apply (Hd1 right)]; set_solver.
    + eapply sub_agree; [exact Hl|]. intros x Hx. apply Hm2'; [intros ->; apply Hf; set_solver|intros ->; by apply (Hdlr right)].
    + exact Hr2.
    + apply (kids_agree lmax imax m m2 h (f_pid F) _ Hpost). intros x Hx. apply Hm2'; [intros ->|intros ->]; [apply Hf|apply (Hd1 right)]; set_solver.
  - eapply above_agree; [exact Ha|]. intros x Hx. apply Hm2'; [intros ->|intros ->]; [apply Hf|apply (Hd1 right)]; set_solver.
  - unfold cs, widened. rewrite length_app. simpl. lia.
Qed.

(** *** The loop up the tree *)

Definition rebuilt (ls : list leaf) (nid : Z) (n : nat) v : Prop :=
  ∃ m' nid' root h', v = mkView m' [] nid' root ∧ nid ≤ nid' ∧ whole m' h' root ls ∧ (h' ≤ n)%nat.

(** Nothing is left to do: put the subtree back. *)
Lemma close_whole m h path pid lo hi ls pgs : sub m h pid (par_of path) lo hi ls pgs → above m h path pid lo hi →
  NoDup (pgs ++ above_pages path) → Forall (λ p, 0 ≤ p) (pgs ++ above_pages path) →
  whole m (h + length path) (root_of path pid) (fill path ls).
Proof.
  intros Hs Ha Hnd Hpos. destruct (close_path _ _ _ _ _ _ _ _ _ _ Hs Ha) as (pgs' & Hs' & Hp). exists pgs'. split; [done|]. by rewrite Hp.
Qed.

Lemma insert_into_parent_ok path : ∀ fuel m h left right rpar lo up hi lsl lsr pl pr nid,
  (length path < fuel)%nat → 0 ≤ nid →
  sub m h left (par_of path) lo (Key up) lsl pl → sub m h right rpar (Key up) hi lsr pr → above m h path left lo hi →
  NoDup (pl ++ pr ++ above_pages path) → Forall (λ p, 0 ≤ p) (pl ++ pr ++ above_pages path) →
  tree_triple (2200 * (Z.of_nat (length path) + 1)) (mkView m [] nid (root_of path left)) (insert_into_parent fuel left up right)
    (λ b v, b = true ∧ rebuilt (fill path (lsl ++ lsr)) nid (S (h + length path)) v).
Proof.
  induction path as [|F path IH]; intros [|fuel] m h left right rpar lo up hi lsl lsr pl pr nid Hfuel Hnid Hl Hr Ha Hnd Hpos;
    try (simpl in Hfuel; lia); cbn [insert_into_parent].
  all: assert (NoDup pl) as Hndl by (by apply NoDup_app in Hnd as [? _]).
  all: destruct (sub_parent _ _ _ _ _ _ 0 _ _ _ _ Hl Hndl) as (d & Hd & Hpar & _).
  all: eapply call_triple; [by apply fetch_throw_rule; [eexists|apply not_elem_of_nil|simpl; lia]|lia|]; intros lf v ->.
  all: eapply call_triple; [by eapply (read_page_rule _ _ _ _ _ _ 0)|lia|]; intros y v [-> ->]; rewrite Hpar.
  all: eapply call_triple; [by eapply (unpin_rule_v _ _ _ _ _ _ 0); [|right]|lia|]; intros _ v [_ ->]; cbn [delete list_delete].
  - cbn [par_of]. change (INVALID_PAGE_ID =? INVALID_PAGE_ID) with true. cbn iota. cbn [above_pages fill] in *. rewrite app_nil_r in *.
    destruct Ha as [-> ->].
    eapply mono_triple; [by eapply new_root_ok|lia|].
    intros b v (-> & m' & -> & Hw). split; [done|]. exists m', (nid + 1), nid, (S h). split_and!; [done|lia|done|simpl; lia].
  - cbn [par_of] in *. assert (0 ≤ f_pid F) as HF by (rewrite Forall_forall in Hpos; apply Hpos; set_solver).
    rewrite (proj2 (Z.eqb_neq _ _)) by (unfold INVALID_PAGE_ID; lia). cbn iota.
    apply (widen_step m h F path left right rpar lo up hi lsl lsr pl pr nid _ _
      (λ over, if negb over then mret true else '(promote, new) ← split_internal (f_pid F); insert_into_parent fuel (f_pid F) promote new)
      _ Hl Hr Ha Hnd); [lia|].
    intros m' q lo' hi' cs Hq Hok Hlk Hk Ha' Hlen.
    set (keep := above_pages path) in *. assert (pl ++ pr ++ above_pages (F :: path) ≡ₚ (f_pid F :: pages_of cs) ++ keep) as Hperm.
    { unfold cs. rewrite widened_pages. cbn [above_pages]. solve_Permutation. }
    rewrite Hperm in Hnd, Hpos.
    destruct (Z.ltb_spec imax (Z.of_nat (length cs))) as [Hover|Hfits]; cbn [negb].
    + pose proof Hnd as (Hnd1 & Hdis & Hndk)%NoDup_app. eapply (seq_triple _ _ 2100).
      { eapply split_internal_ok; [exact Hq|exact Hok|lia|exact Hlk|exact Hk|exact Hnd1]. }
      { lia. }
      intros [promote new] v (k & cs1 & cs2 & m2 & [= -> ->] & -> & Hcs & Hfresh & Hs1 & Hs2 & Hm2).
      rewrite Hcs, pages_of_app in Hnd, Hpos, Hdis. cbn beta iota.
      assert (∀ x, x ∈ (f_pid F :: pages_of cs1 ++ pages_of cs2) ++ keep → x ≠ nid) as Hfr.
      { intros x Hx ->. assert (is_Some (m' !! nid)) as [? ?]; [|congruence].
        rewrite <- pages_of_app, <- Hcs in Hx. apply elem_of_app in Hx as [[->|Hx]%elem_of_cons|Hx]; [by eexists| |by eapply above_live].
        apply in_pages_of in Hx as (c & Hc & Hx). unfold BPlusShape.kids in Hk. rewrite Forall_forall in Hk. eapply sub_live; [by apply Hk|done]. }
      assert ((f_pid F :: pages_of cs1) ++ (nid :: pages_of cs2) ++ keep ≡ₚ nid :: (f_pid F :: pages_of cs1 ++ pages_of cs2) ++ keep) as Hperm2
        by solve_Permutation.
      eapply mono_triple; [eapply (IH fuel m2 (S h) (f_pid F) nid (par_of path) lo' k hi')|simpl length; lia|].
      * simpl in Hfuel. lia.
      * lia.
      * exact Hs1.
      * exact Hs2.
      * eapply above_agree; [exact Ha'|]. intros x Hx. apply Hm2. intros [->|[->|Hx2]%elem_of_cons]%elem_of_cons.
        -- apply (Hdis (f_pid F)); [by left|done].
        -- by apply (Hfr nid); [apply elem_of_app; right|].
        -- apply (Hdis x); [|done]. right. apply elem_of_app. by right.
      * rewrite Hperm2. constructor; [|done]. intros H. by apply (Hfr nid).
      * rewrite Hperm2. by constructor.
      * intros b v (-> & m3 & nid3 & root3 & h3 & -> & Hle & Hw & Hh). split; [done|]. exists m3, nid3, root3, h3.
        split_and!; [done|lia| |simpl; lia]. cbn [fill].
        rewrite <- (widened_leaves F left right lo up hi lsl lsr pl pr). fold cs. by rewrite Hcs, leaves_of_app.
    + apply ret_triple; [lia|]. split; [done|]. exists m', nid, (root_of path (f_pid F)), (S h + length path)%nat.
      split_and!; [done|lia| |simpl; lia]. cbn [fill]. eapply close_whole; [|exact Ha'|exact Hnd|exact Hpos].
      exists q, cs. split_and!; try done; [unfold cs, widened; rewrite length_app; pose proof (min_children_bounds imax); simpl; lia|by rewrite <- (widened_leaves F left right lo up hi lsl lsr pl pr)].
Qed.

(** *** Splitting a leaf *)

Lemma zero_leaf_shape n par : leaf_shape (Leaf.SetParentPageId par (Leaf.Init n zero_leaf_array)).
Proof. split; [done|vm_compute; split; discriminate|vm_compute; reflexivity]. Qed.

Lemma split_leaf_ok m cur p par es nxt lo hi nid r :
  m !! cur = Some (PageLeaf p) → leaf_page_ok lmax p par es nxt → Z.of_nat (length es) = lmax + 1 → (∀ x, x ∈ es → in_range lo hi x.1) →
  tree_triple 8 (mkView m [] nid r) (split_leaf cur)
    (λ x v, ∃ key es1 es2 m', x = (key, nid) ∧ v = mkView m' [] (nid + 1) r ∧ es = es1 ++ es2 ∧ m !! nid = None ∧
      sub m' 0 cur par lo (Key key) [mkLf cur es1 nid] [cur] ∧ sub m' 0 nid par (Key key) hi [mkLf nid es2 nxt] [nid] ∧
      ∀ q, q ≠ cur → q ≠ nid → m' !! q = m !! q).
Proof.
  intros Hp [[Hsh Hs] Hmax Hpar He Hnext] Hlen Hr.
  pose proof (leaf_entries_length p Hsh) as Hsz. rewrite He, Hlen in Hsz.
  destruct (leaf_move_half_ok p (Leaf.SetParentPageId par (Leaf.Init lmax zero_leaf_array)) Hsh (zero_leaf_shape lmax par)) as
    (p' & q & Hm & Hsh' & Hshq & Hep & Heq & (Hn' & Hp' & Hx') & (Hnq & Hpq & Hxq)).
  set (i := Z.to_nat (Z.quot (Leaf.GetSize p) 2)) in *. rewrite He in *.
  assert (0 < Z.of_nat i ≤ lmax) as Hi by (unfold i; Z.to_euclidean_division_equations; lia).
  destruct (drop i es) as [|[key w] es2] eqn:Hdrop; [apply (f_equal length) in Hdrop; rewrite length_drop in Hdrop; simpl in Hdrop; lia|].
  pose proof (take_drop i es) as Hes. rewrite Hdrop in Hes.
  rewrite <- Hes in Hs. apply sorted_app in Hs as (Hs1 & Hs2 & Hlt).
  apply get_triple. intros t _ Hlm _. rewrite Hlm.
  eapply call_triple; [by apply new_throw_rule; [|simpl; lia]|lia|]. intros x v (nf & -> & Hfresh & ->). cbn beta iota.
  eapply call_triple; [by eapply (read_leaf_rule _ _ _ _ _ _ 0); [|apply lookup_insert_eq|]|lia|]. intros y v [-> ->].
  assert (nid ≠ cur) as Hnc by congruence.
  eapply call_triple; [apply fetch_throw_rule; [by rewrite lookup_insert_ne; [eexists|]| |simpl; lia]|lia|].
  { simpl. by intros H%list_elem_of_singleton. }
  intros f v ->.
  eapply call_triple; [by eapply (read_leaf_rule _ _ _ _ _ _ 0); [|by rewrite lookup_insert_ne|]|lia|]. intros y v [-> ->].
  rewrite Hpar. eapply triple_bind_lift; [exact Hm|]. cbn beta iota zeta.
  assert (Leaf.KeyAt (Leaf.SetNextPageId (next_page_id_ p') q) 0 = Ok key) as Hkey.
  { unfold Leaf.KeyAt. simpl. assert (l_array q !! 0%nat = Some (key, w)) as Hq by (by apply leaf_entries_head in Heq as [? _]).
    by rewrite (arr_get_ok _ 0 _ Hq : arr_get (l_array q) 0 = _). }
  eapply triple_bind_lift; [exact Hkey|].
  eapply call_triple; [by eapply (write_rule_v _ _ _ _ _ _ 0); [|by rewrite lookup_insert_ne]|lia|]. intros _ v ->. cbn [insert list_insert].
  eapply call_triple; [by eapply (write_rule_v _ _ _ _ _ _ 1); [|rewrite lookup_insert_ne by done; apply lookup_insert_eq]|lia|]. intros _ v ->.
  cbn [insert list_insert]. set (m1 := <[nid := _]> (<[cur := _]> _)).
  eapply call_triple; [by eapply (unpin_rule_v _ _ _ _ _ _ 0); [|left]|lia|]. intros _ v [_ ->]. cbn [delete list_delete].
  eapply call_triple; [by eapply (unpin_rule_v _ _ _ _ _ _ 0); [|left]|lia|]. intros _ v [_ ->]. cbn [delete list_delete].
  apply ret_triple; [lia|]. exists key, (take i es), ((key, w) :: es2), m1. split_and!; [done|done|done|done| | |].
  - eexists _, (take i es), nid. split_and!; [unfold m1; by rewrite lookup_insert_ne, lookup_insert_eq| | | | |done|done].
    + split; [|simpl; congruence|simpl; congruence|done|done]. split; [by destruct Hsh'|]. change (sorted_keys (leaf_entries p')). by rewrite Hep.
    + rewrite length_take. lia.
    + intros H. apply (f_equal length) in H. rewrite length_take in H. simpl in H. lia.
    + intros x Hx. split; [apply Hr; rewrite <- Hes; set_solver|]. apply (Hlt x (key, w)); [done|by left].
  - eexists _, ((key, w) :: es2), nxt. split_and!; [unfold m1; by rewrite lookup_insert_eq| | |done| |done|done].
    + simpl in Hpq, Hxq. split; [|simpl; congruence|simpl; congruence|done|simpl; congruence]. split; [by destruct Hshq|].
      change (sorted_keys (leaf_entries q)). by rewrite Heq.
    + rewrite <- Hdrop, length_drop. lia.
    + intros x Hx. split; [|apply Hr; rewrite <- Hes; set_solver]. apply elem_of_cons in Hx as [->|Hx]; [simpl; lia|].
      apply sorted_cons in Hs2 as [_ Hs2]. apply Z.lt_le_incl. by apply (Hs2 x).
  - intros x H1 H2. unfold m1. by rewrite !lookup_insert_ne.
Qed.
End Split.
