(* ===== verification/BPlusInsert.v ===== *)
(** * Insertion into the B+ tree

    [Insert] of [b_plus_tree.cpp] on well-formed trees: the descent to a leaf, the
    insertion there, and the first key of an empty tree. *)

From S2P Require Import Prelude Common SortedAssoc PageStore PageIO PageLogic BPlusPage BPlusTree TreeLogic BPlusShape BPlusSplit.
From S2P Require Disk BufferPool.

Section Insert.
Context {Pool : Type} `{PIO : !PageIO IndexPage Pool} (lmax imax : Z).
Context (zeroed : io_zero = PageZero) (frames : 3 ≤ io_frames).
Context (leaf_sizes : 1 ≤ lmax < LEAF_SLOTS) (int_sizes : 2 ≤ imax < INTERNAL_SLOTS).
Implicit Types (m : gmap Z IndexPage) (l : pins) (v : View).
Local Abbreviation T := (ST (BPlusTree Pool)).
Local Abbreviation tree_triple := (triple (S := BPlusTree Pool) (view_rel lmax imax)).
Local Abbreviation sub := (BPlusShape.sub lmax imax).
Local Abbreviation kids := (BPlusShape.kids lmax imax).
Local Abbreviation above := (BPlusShape.above lmax imax).
Local Abbreviation rebuilt := (BPlusSplit.rebuilt lmax imax).

(** *** The descent *)

(** The answer of an insertion, and the entries after it. *)
Definition inserted (key : Z) (value : RID) (es es' : leaf_array) (b : bool) : Prop :=
  b = bool_decide (assoc_map es !! key = None) ∧ assoc_map es' = if b then <[key := value]> (assoc_map es) else assoc_map es.

Definition inserted_in key value (ls : list leaf) nid n (b : bool) v : Prop :=
  ∃ ls', rebuilt ls' nid n v ∧ links ls' ∧ inserted key value (lents ls) (lents ls') b.

Lemma insert_leaf_ok fuel pfuel m path cur lo hi ls pgs nid key value :
  (length path < pfuel)%nat → 0 ≤ nid → sub m 0 cur (par_of path) lo hi ls pgs → above m 0 path cur lo hi →
  NoDup (pgs ++ above_pages path) → Forall (λ p, 0 ≤ p) (pgs ++ above_pages path) → links (fill path ls) → in_range lo hi key →
  tree_triple (2200 * (Z.of_nat (length path) + 1) + 20) (mkView m [] nid (root_of path cur)) (insert_loop (S fuel) pfuel key value cur)
    (inserted_in key value (fill path ls) nid (S (length path))).
Proof.
  intros Hfuel Hnid (p & es & nxt & Hp & Hpage & Hlen & Hne & Hr & -> & ->) Ha Hnd Hpos Hlinks Hkey.
  pose proof Hpage as [[Hsh Hs] Hmax Hpar He Hnext]. destruct (fill_range _ _ _ _ _ _ _ _ Ha) as (A & B & Hfill & Hout).
  destruct (Hout key Hkey) as [HA HB]. pose proof (leaf_entries_length p Hsh) as Hsz. rewrite He in *.
  assert (∀ es', lents (fill path [mkLf cur es' nxt]) = lents A ++ es' ++ lents B) as Hents
    by (intros es'; rewrite Hfill, !lents_app; unfold lents at 2; simpl; by rewrite app_nil_r).
  cbn [insert_loop].
  eapply call_triple; [by apply fetch_throw_rule; [eexists|apply not_elem_of_nil|simpl; lia]|lia|]. intros f v ->.
  eapply call_triple; [by eapply (read_page_rule _ _ _ _ _ _ 0)|lia|]. intros y v [-> ->]. simpl as_page. rewrite (leaf_type p Hsh). cbn [negb].
  eapply call_triple; [by eapply (read_leaf_rule _ _ _ _ _ _ 0)|lia|]. intros y v [-> ->].
  pose proof (leaf_insert_ok p key value ltac:(split; [done|by rewrite He])) as Hins. unfold leaf_map in Hins. rewrite He in Hins.
  assert (assoc_map (lents (fill path [mkLf cur es nxt])) !! key = assoc_map es !! key) as Hlook by (rewrite Hents; by apply map_around).
  destruct (assoc_map es !! key) as [old|] eqn:Hold.
  - (* the key is there *)
    eapply triple_bind_lift; [exact Hins|]. cbn beta iota zeta. rewrite Z.eqb_refl. cbn [negb]. apply ret_bind_triple.
    rewrite (proj2 (Z.ltb_ge _ _)) by lia. cbn [orb].
    eapply call_triple; [by eapply (unpin_rule_v _ _ _ _ _ _ 0); [|right]|lia|]. intros _ v [_ ->]. cbn [delete list_delete].
    apply ret_triple; [lia|]. exists (fill path [mkLf cur es nxt]). split_and!; [|done|split; [by rewrite Hlook|done]].
    exists m, nid, (root_of path cur), (0 + length path)%nat. split_and!; [done|lia| |lia].
    eapply close_whole; [|exact Ha|exact Hnd|exact Hpos]. by exists p, es, nxt.
  - (* a new key *)
    rewrite decide_True in Hins by lia. destruct Hins as (q & Hq & [Hshq Hsq] & Hmap & Hsize & (Hqn & Hqp & Hqm) & Hin).
    eapply triple_bind_lift; [exact Hq|]. cbn beta iota zeta. rewrite (proj2 (Z.eqb_neq _ _)) by lia. cbn [negb orb].
    eapply call_triple; [by eapply (write_rule_v _ _ _ _ _ _ 0)|lia|]. intros _ v ->. cbn [insert list_insert].
    eapply call_triple; [by eapply (unpin_rule_v _ _ _ _ _ _ 0); [|left]|lia|]. intros _ v [_ ->]. cbn [delete list_delete].
    set (m1 := <[cur := _]> m). set (es' := leaf_entries q) in *.
    assert (leaf_page_ok lmax q (par_of path) es' nxt) as Hpageq by (split; [done|congruence|congruence|done|congruence]).
    assert (m1 !! cur = Some (PageLeaf q)) as Hq1 by apply lookup_insert_eq.
    assert (above m1 0 path cur lo hi) as Ha1.
    { eapply above_agree; [exact Ha|]. intros x Hx. apply lookup_insert_ne. intros <-. apply NoDup_app in Hnd as (_ & Hd & _).
      apply (Hd cur); [by left|done]. }
    assert (∀ x, x ∈ es' → in_range lo hi x.1) as Hr' by (intros x [->|Hx]%Hin; [done|by apply Hr]).
    pose proof (leaf_entries_length q Hshq) as Hsz'. rewrite Hsize, <- Hsz in Hsz'. fold es' in Hsz'.
    rewrite Hfill in Hlinks. apply (links_entries A _ es') in Hlinks. cbn [lf_pid lf_next] in Hlinks.
    rewrite Hqm, Hmax. destruct (Z.ltb_spec lmax (Leaf.GetSize q)) as [Hover|Hfits]; cbn [negb].
    + eapply (seq_triple _ _ 8); [eapply (split_leaf_ok lmax imax zeroed frames leaf_sizes int_sizes m1 cur q _ es' nxt lo hi); [done|done|lia|done]|lia|].
      intros [k new] v (k' & es1 & es2 & m2 & [= -> ->] & -> & Hes & Hfresh & Hs1 & Hs2 & Hm2). cbn beta iota.
      assert (∀ x, x ∈ cur :: above_pages path → x ≠ nid) as Hfr.
      { intros x Hx ->. assert (is_Some (m1 !! nid)) as [? ?]; [|congruence]. apply elem_of_cons in Hx as [->|Hx]; [by eexists|by eapply above_live]. }
      eapply mono_triple; [eapply (insert_into_parent_ok lmax imax zeroed frames leaf_sizes int_sizes path pfuel m2 0 cur nid)|lia|].
      all: try done; try lia.
      * eapply above_agree; [exact Ha1|]. intros x Hx. apply Hm2; [intros ->|apply Hfr; by right].
        apply NoDup_app in Hnd as (_ & Hd & _). apply (Hd cur); [by left|done].
      * apply NoDup_app in Hnd as (_ & Hd & Hnd). simpl. constructor; [|constructor; [|done]].
        -- intros [H|H]%elem_of_cons; [by apply (Hfr cur); [left|]|by apply (Hd cur); [left|]].
        -- intros H. by apply (Hfr nid); [right|].
      * simpl in Hpos |- *. apply Forall_cons in Hpos as [? ?]. by repeat constructor.
      * intros b v (-> & m3 & nid3 & root3 & h3 & -> & Hle & Hw & Hh). simpl app in Hw.
        exists (fill path [mkLf cur es1 nid; mkLf nid es2 nxt]). split_and!.
        -- exists m3, nid3, root3, h3. split_and!; [done|lia|done|simpl in Hh; lia].
        -- rewrite Hfill. by apply (links_split A (mkLf cur es' nxt)).
        -- assert (lents (fill path [mkLf cur es1 nid; mkLf nid es2 nxt]) = lents A ++ es' ++ lents B) as ->
             by (rewrite Hfill, !lents_app, Hes; unfold lents at 2; simpl; by rewrite app_nil_r).
           split; [by rewrite Hlook|]. rewrite Hents. by apply map_insert_around.
    + apply ret_triple; [lia|]. exists (fill path [mkLf cur es' nxt]). split_and!.
      * exists m1, nid, (root_of path cur), (0 + length path)%nat. split_and!; [done|lia| |lia].
        eapply close_whole; [|exact Ha1|exact Hnd|exact Hpos]. exists q, es', nxt. split_and!; try done; [lia|].
        intros H. rewrite H in Hsz'. simpl in Hsz'. lia.
      * by rewrite Hfill.
      * split; [by rewrite Hlook|]. rewrite !Hents. by apply map_insert_around.
Qed.

Lemma insert_loop_ok h : ∀ fuel pfuel m path cur lo hi ls pgs nid key value,
  (h < fuel)%nat → (h + length path < pfuel)%nat → 0 ≤ nid → sub m h cur (par_of path) lo hi ls pgs → above m h path cur lo hi →
  NoDup (pgs ++ above_pages path) → Forall (λ p, 0 ≤ p) (pgs ++ above_pages path) → links (fill path ls) → in_range lo hi key →
  tree_triple (2200 * (Z.of_nat (h + length path) + 1) + 4 * Z.of_nat h + 20) (mkView m [] nid (root_of path cur)) (insert_loop fuel pfuel key value cur)
    (inserted_in key value (fill path ls) nid (S (h + length path))).
Proof.
  induction h as [|h IH]; intros [|fuel] pfuel m path cur lo hi ls pgs nid key value Hf Hpf Hnid Hs Ha Hnd Hpos Hlinks Hkey; try lia.
  - eapply mono_triple; [by eapply insert_leaf_ok|lia|done].
  - destruct Hs as (p & cs & Hp & Hok & Hn & Hne & Hl & Hk & -> & ->).
    destruct (descend _ _ m h path cur (par_of path) lo hi cs p key Hp Hok Hn Hl Hk Ha Hne Hkey) as (pre & d & post & -> & Hroute & Hkd & Hsd & Had).
    cbn [insert_loop]. pose proof (ip_shape _ _ _ _ Hok) as Hsh.
    eapply call_triple; [by apply fetch_throw_rule; [eexists|apply not_elem_of_nil|simpl; lia]|lia|]. intros f v ->.
    eapply call_triple; [by eapply (read_page_rule _ _ _ _ _ _ 0)|lia|]. intros y v [-> ->]. simpl as_page. rewrite (int_type p Hsh). cbn [negb].
    eapply call_triple; [by eapply (read_internal_rule _ _ _ _ _ _ 0)|lia|]. intros y v [-> ->].
    eapply triple_bind_lift; [exact Hroute|].
    eapply call_triple; [by eapply (unpin_rule_v _ _ _ _ _ _ 0); [|right]|lia|]. intros _ v [_ ->]. cbn [delete list_delete].
    rewrite pages_of_app in Hnd, Hpos. change (pages_of (d :: post)) with (c_pages d ++ pages_of post) in *.
    set (path' := mkFrame cur pre post :: path).
    assert ((cur :: pages_of pre ++ c_pages d ++ pages_of post) ++ above_pages path ≡ₚ c_pages d ++ above_pages path') as Hperm
      by (cbn [above_pages path' f_pid f_pre f_post]; solve_Permutation).
    rewrite Hperm in Hnd, Hpos. rewrite leaves_of_app in Hlinks |- *. change (leaves_of (d :: post)) with (c_leaves d ++ leaves_of post) in *.
    eapply mono_triple; [eapply (IH fuel pfuel m path' (c_pid d)); try done|simpl length; lia|].
    + lia.
    + simpl. lia.
    + intros b v (ls' & (m' & nid' & root' & h' & -> & Hle & Hw & Hh) & Hrest). exists ls'. split; [|exact Hrest].
      exists m', nid', root', h'. split_and!; [done|lia|done|simpl in Hh; lia].
Qed.

(** *** The whole operation *)

(** The tree below a root that may be invalid. *)
Definition grown m h root (ls : list leaf) : Prop :=
  if root =? INVALID_PAGE_ID then ls = [] else whole lmax imax m h root ls ∧ links ls.

Lemma whole_root m h root ls : whole lmax imax m h root ls → 0 ≤ root.
Proof. intros (pgs & Hs & _ & Hpos). apply sub_root in Hs. rewrite Forall_forall in Hpos. by apply Hpos. Qed.

Lemma whole_grown m h root ls : whole lmax imax m h root ls → links ls → grown m h root ls.
Proof. intros Hw Hl. unfold grown. rewrite (proj2 (Z.eqb_neq _ _)); [done|]. apply whole_root in Hw. unfold INVALID_PAGE_ID. lia. Qed.

Lemma insert_first_ok m nid r key value : 0 ≤ nid →
  tree_triple 5 (mkView m [] nid r) (insert_first key value)
    (λ b v, b = true ∧ ∃ m', v = mkView m' [] (nid + 1) nid ∧ grown m' 0 nid [mkLf nid [(key, value)] INVALID_PAGE_ID]).
Proof.
  intros Hnid. apply get_triple. intros t _ Hlm _. rewrite Hlm.
  eapply call_triple; [by apply new_throw_rule; [|simpl; lia]|lia|]. intros x v (f & -> & Hfresh & ->). cbn beta iota.
  eapply call_triple; [by eapply (read_leaf_rule _ _ _ _ _ _ 0); [|apply lookup_insert_eq|]|lia|]. intros y v [-> ->].
  cbn beta iota zeta. apply root_triple. cbn [v_pages v_pins v_next l_array].
  set (p := Leaf.SetParentPageId INVALID_PAGE_ID (Leaf.Init lmax zero_leaf_array)).
  pose proof (leaf_insert_ok p key value ltac:(split; [apply zero_leaf_shape|apply sorted_nil])) as Hins.
  change (leaf_map p !! key) with (None : option RID) in Hins. change (Leaf.GetSize p) with 0 in Hins.
  rewrite decide_True in Hins by (vm_compute; reflexivity).
  destruct Hins as (q & Hq & Hokq & Hmap & Hsize & (Hqn & Hqp & Hqm) & Hin). pose proof Hokq as [Hshq _].
  eapply triple_bind_lift; [exact Hq|]. cbn beta iota.
  eapply call_triple; [by eapply (write_rule_v _ _ _ _ _ _ 0); [|apply lookup_insert_eq]|lia|]. intros _ v ->. cbn [insert list_insert].
  eapply call_triple; [by eapply (unpin_rule_v _ _ _ _ _ _ 0); [|left]|lia|]. intros _ v [_ ->]. cbn [delete list_delete].
  apply ret_triple; [lia|]. split; [done|]. eexists. split; [done|].
  assert (leaf_entries q = [(key, value)]) as He.
  { pose proof (leaf_entries_length q Hshq) as Hlen. rewrite Hsize in Hlen. destruct (leaf_entries q) as [|e [|e' es]]; try (simpl in Hlen; lia).
    destruct (Hin e) as [[->|H] _]; [by left|done|by apply not_elem_of_nil in H]. }
  apply whole_grown; [|done]. exists [nid]. split_and!; [|apply NoDup_singleton|by repeat constructor].
  exists q, [(key, value)], INVALID_PAGE_ID. split_and!; [apply lookup_insert_eq|by split|simpl; lia|done|done|done|done].
Qed.

Definition insert_cost (h : nat) : Z := 2204 * (Z.of_nat h + 1) + 20.

Lemma Insert_ok m h nid root ls fuel key value : grown m h root ls → (h < fuel)%nat → 0 ≤ nid →
  tree_triple (insert_cost h) (mkView m [] nid root) (Insert fuel key value)
    (λ b v, ∃ m' nid' root' h' ls', v = mkView m' [] nid' root' ∧ nid ≤ nid' ∧ (h' ≤ S h)%nat ∧ grown m' h' root' ls' ∧
      inserted key value (lents ls) (lents ls') b).
Proof.
  intros Hg Hf Hnid. apply get_triple. intros t Hroot _ _. unfold IsEmpty. rewrite Hroot. unfold grown in Hg. cbn [v_root] in *.
  unfold insert_cost. destruct (root =? INVALID_PAGE_ID).
  - subst ls. eapply mono_triple; [by apply insert_first_ok|lia|].
    intros b v (-> & m' & -> & Hw). exists m', (nid + 1), nid, 0%nat, [mkLf nid [(key, value)] INVALID_PAGE_ID].
    split_and!; [done|lia|lia|exact Hw|]. by split.
  - destruct Hg as [(pgs & Hs & Hnd & Hpos) Hlinks].
    eapply mono_triple; [eapply (insert_loop_ok h fuel fuel m [] root MinusInf PlusInf ls pgs); try done|simpl length; lia|].
    + simpl. lia.
    + simpl. by rewrite app_nil_r.
    + simpl. by rewrite app_nil_r.
    + intros b v (ls' & (m' & nid' & root' & h' & -> & Hle & Hw & Hh) & Hl & Hins).
      exists m', nid', root', h', ls'. split_and!; [done|lia|simpl in Hh; lia|by apply whole_grown|done].
Qed.
End Insert.

(** A well-formed tree object, for [Insert]; the searches accept it too. *)
Definition well_formed {Pool} (m : gmap Z IndexPage) (h : nat) (t : BPlusTree Pool) (ls : list leaf) : Prop :=
  grown (leaf_max_size_ t) (internal_max_size_ t) m h (root_page_id_ t) ls.

Lemma well_formed_tree_ok {Pool} m h (t : BPlusTree Pool) ls : well_formed m h t ls → tree_ok m h t (strip ls).
Proof.
  unfold well_formed, grown, tree_ok, IsEmpty. destruct (root_page_id_ t =? INVALID_PAGE_ID); [by intros ->|].
  intros [(pgs & Hs & _ & Hpos) Hl]. rewrite Forall_forall in Hpos. split_and!.
  - by eapply sub_subtree.
  - apply links_chain with (leaf_max_size_ t); [done|]. intros l Hin. destruct (sub_leaf _ _ _ _ _ _ _ _ _ _ _ Hs Hin) as (Hp & Hne & H).
    split_and!; [by apply Hpos|done|done].
  - rewrite entries_strip. by apply sub_range in Hs as [? _].
Qed.

Section Theorems.
Context {Pool : Type} `{PIO : !PageIO IndexPage Pool}.
Context (zeroed : io_zero = PageZero) (frames : 3 ≤ io_frames).
Implicit Types (t : BPlusTree Pool) (m : gmap Z IndexPage).

(** One insertion, as an equation. *)
Lemma Insert_run m h t ls nid key value fuel k :
  1 ≤ leaf_max_size_ t < LEAF_SLOTS → 2 ≤ internal_max_size_ t < INTERNAL_SLOTS →
  well_formed m h t ls → (h < fuel)%nat → 0 ≤ nid → 0 ≤ k → quiet (k + insert_cost h) m nid t →
  ∃ b t' m' h' ls' nid', Insert fuel key value t = (Ok b, t') ∧ quiet k m' nid' t' ∧ nid ≤ nid' ∧ (h' ≤ S h)%nat ∧
    leaf_max_size_ t' = leaf_max_size_ t ∧ internal_max_size_ t' = internal_max_size_ t ∧
    well_formed m' h' t' ls' ∧ inserted key value (lents ls) (lents ls') b.
Proof.
  intros Hlm Him Hw Hf Hnid Hk Hq.
  destruct (Insert_ok _ _ zeroed frames Hlm Him m h nid (root_page_id_ t) ls fuel key value Hw Hf Hnid k t Hk) as
    (b & t' & v & Hrun & (m' & nid' & root' & h' & ls' & -> & Hle & Hh & Hg & Hins) & (Hr & _ & Hroot & Hl & Hi)).
  { split; [exact Hq|]. split; [|done]. split; [split; constructor|]. intros x Hx. by apply not_elem_of_nil in Hx. }
  exists b, t', m', h', ls', nid'. split_and!; try done. unfold well_formed. by rewrite Hroot, Hl, Hi.
Qed.

(** C15: [Insert] is insertion into the map.  On a well-formed tree, in any pool with three
    frames, with maximum sizes that leave room for one more entry, it terminates, throws
    nothing and stays in its pages; it answers whether the key is new, and leaves a
    well-formed tree, at most one level higher, that stands for the map with the new key,
    or for the same map. *)
Theorem btree_insert m h t ls nid key value fuel k :
  1 ≤ leaf_max_size_ t < LEAF_SLOTS → 2 ≤ internal_max_size_ t < INTERNAL_SLOTS →
  well_formed m h t ls → (h < fuel)%nat → 0 ≤ nid → 0 ≤ k → quiet (k + insert_cost h) m nid t →
  ∃ t' m' h' ls' nid', Insert fuel key value t = (Ok (bool_decide (assoc_map (lents ls) !! key = None)), t') ∧
    quiet k m' nid' t' ∧ (h' ≤ S h)%nat ∧ well_formed m' h' t' ls' ∧ tree_ok m' h' t' (strip ls') ∧
    assoc_map (lents ls') = match assoc_map (lents ls) !! key with
                            | Some _ => assoc_map (lents ls)
                            | None => <[key := value]> (assoc_map (lents ls))
                            end.
Proof.
  intros Hlm Him Hw Hf Hnid Hk Hq.
  destruct (Insert_run m h t ls nid key value fuel k) as (b & t' & m' & h' & ls' & nid' & H1 & Hq' & _ & Hh & _ & _ & Hw' & -> & Hmap); try done.
  exists t', m', h', ls', nid'. split_and!; try done; [by apply well_formed_tree_ok|]. rewrite Hmap. by destruct (assoc_map (lents ls) !! key).
Qed.
End Theorems.

(** ** Witnesses: a tree with leaves of two entries, in the buffer pool *)

Definition empty_tree : BPlusTree (BufferPool.BufferPool IndexPage) := BPlusTree_new run_pool 2 3.

Lemma empty_tree_quiet k : 0 ≤ k ≤ 1000000 → quiet (PageIO0 := run_io) k ∅ 0 empty_tree.
Proof.
  intros Hk. assert (INT32_MAX = 2147483647) as Hmax by (by vm_compute).
  apply (pool_io_start PageZero 32 (Disk.Disk_open []) 2 k); [lia|lia|done|done| |lia].
  change (Disk.next_page_id_ (Disk.Disk_open [])) with 0. lia.
Qed.

Lemma btree_insert_witness : ∃ t', Insert (PageIO0 := run_io) 1 5 (mkRID 5 0) empty_tree = (Ok true, t').
Proof.
  destruct (btree_insert (PIO := run_io) eq_refl ltac:(done) ∅ 0 empty_tree [] 0 5 (mkRID 5 0) 1 0) as (t' & m' & h' & ls' & nid' & H & _).
  - by vm_compute.
  - by vm_compute.
  - reflexivity.
  - lia.
  - lia.
  - lia.
  - apply empty_tree_quiet. vm_compute. split; discriminate.
  - exists t'. exact H.
Defined.
