(* ===== verification/BPlusRefit.v ===== *)
(** * Neighbouring leaves of a B+ tree

    [Remove] of [b_plus_tree.cpp] cures a leaf that has become too small with the help
    of its neighbour: an entry moves over, or the two are merged.  What this does to a
    well-formed tree, as a change of the list of the children of their parent. *)

From S2P Require Import Prelude Common SortedAssoc PageStore PageIO PageLogic BPlusPage BPlusTree BPlusShape.

(** ** The parent's page *)

Lemma int_set_key_ok p l1 k v l2 key : int_shape p → int_entries p = l1 ++ (k, v) :: l2 →
  ∃ q, Internal.SetKeyAt (Z.of_nat (length l1)) key p = Ok q ∧ int_shape q ∧ int_entries q = l1 ++ (key, v) :: l2 ∧ same_parent p q.
Proof.
  intros Hp He. pose proof (int_entries_length p Hp) as Hlen. rewrite He, length_app in Hlen. simpl in Hlen.
  unfold Internal.SetKeyAt, Internal.set_key. rewrite (int_entries_get p (length l1) (k, v)).
  2:{ rewrite He. by rewrite lookup_app_r, Nat.sub_diag by lia. }
  simpl. rewrite arr_set_at by (destruct Hp; lia). simpl. rewrite Nat2Z.id.
  destruct (int_with p (Internal.GetSize p) (<[length l1 := (key, v)]> (i_array p)) (l1 ++ (key, v) :: l2)) as (Hq & Heq & Hl);
    [done|apply (is_size _ Hp)|by rewrite length_insert| |].
  - rewrite take_insert_lt by lia. change (take (Z.to_nat (Internal.GetSize p)) (i_array p)) with (int_entries p). rewrite He.
    by rewrite insert_app_r_alt, Nat.sub_diag by lia.
  - eexists. split; [reflexivity|]. split_and!; [|exact Heq|exact Hl]. destruct Hq. by split.
Qed.

Lemma int_value_at_ok p (i : nat) k v : int_entries p !! i = Some (k, v) → Internal.ValueAt p (Z.of_nat i) = Ok v.
Proof. intros H. unfold Internal.ValueAt. by rewrite (int_entries_get p i _ H). Qed.

Lemma keyed_app l h1 p b h2 : keyed l (h1 ++ (p, b) :: h2) → ∃ l1 k l2, l = l1 ++ (k, p) :: l2 ∧ length l1 = length h1 ∧ l1.*2 = h1.*1.
Proof.
  intros H%keyed_pids. rewrite fmap_app in H. apply fmap_app_inv in H as (l1 & l2 & H1 & H2 & ->).
  destruct l2 as [|[k q] l2]; simplify_eq/=. exists l1, k, l2. split_and!; [done| |done].
  by rewrite <- (length_fmap snd l1), <- (length_fmap fst h1), H1.
Qed.

(** The separator before a child that is not the first, changed or removed. *)
Lemma keyed_set l1 k p l2 h1 b h2 key : keyed (l1 ++ (k, p) :: l2) (h1 ++ (p, b) :: h2) → length l1 = length h1 → h1 ≠ [] →
  keyed (l1 ++ (key, p) :: l2) (h1 ++ (p, Key key) :: h2).
Proof.
  intros H Hlen Hne. destruct h1 as [|[q0 b0] h1], l1 as [|[k0 p0] l1]; try done. simpl in *. destruct H as [-> H].
  split; [done|]. apply Forall2_app_inv in H as [H1 H2]; [|congruence]. inversion H2; subst. apply Forall2_app; [done|]. by constructor.
Qed.
Lemma keyed_remove l1 e l2 h1 x h2 : keyed (l1 ++ e :: l2) (h1 ++ x :: h2) → length l1 = length h1 → h1 ≠ [] →
  keyed (l1 ++ l2) (h1 ++ h2).
Proof.
  intros H Hlen Hne. destruct h1 as [|[q0 b0] h1], l1 as [|[k0 p0] l1]; try done. simpl in *. destruct H as [-> H].
  split; [done|]. apply Forall2_app_inv in H as [H1 H2]; [|congruence]. inversion H2; subst. by apply Forall2_app.
Qed.

(** ** A list of children replaced by another *)

Section Refit.
Context (lmax imax : Z).
Implicit Types (m : gmap Z IndexPage).
Local Abbreviation sub := (BPlusShape.sub lmax imax).
Local Abbreviation kids := (BPlusShape.kids lmax imax).

(** The same entries and no new page; only the pages of the old children and that of the
    parent have changed. *)
Record refitted m h parent par lo hi (cs cs' : list child) m' : Prop := {
  rf_parent : ∃ q, m' !! parent = Some (PageInternal q) ∧ int_page_ok imax q par (heads cs');
  rf_linked : linked lo cs' hi;
  rf_kids : kids m' h parent cs';
  rf_pages : ∃ gone, pages_of cs ≡ₚ pages_of cs' ++ gone;
  rf_entries : lents (leaves_of cs') = lents (leaves_of cs);
  rf_links A B : links (A ++ leaves_of cs ++ B) → links (A ++ leaves_of cs' ++ B);
  rf_same q : q ∉ parent :: pages_of cs → m' !! q = m !! q
}.

(** A leaf as a child. *)
Definition leaf_child pid lo hi es nxt : child := mkChild pid lo hi [mkLf pid es nxt] [pid].
Definition leaf_at m pid par es nxt : Prop := ∃ p, m !! pid = Some (PageLeaf p) ∧ leaf_page_ok lmax p par es nxt.

Lemma leaf_sub m pid par lo hi es nxt : leaf_at m pid par es nxt → Z.of_nat (length es) ≤ lmax → es ≠ [] →
  (∀ x, x ∈ es → in_range lo hi x.1) → sub m 0 pid par lo hi [mkLf pid es nxt] [pid].
Proof. intros (p & Hp & Hok) Hlen Hne Hr. by exists p, es, nxt. Qed.

Lemma sub_leaf_child m par c : sub m 0 (c_pid c) par (c_lo c) (c_hi c) (c_leaves c) (c_pages c) → ∃ es nxt,
  c = leaf_child (c_pid c) (c_lo c) (c_hi c) es nxt ∧ leaf_at m (c_pid c) par es nxt ∧ Z.of_nat (length es) ≤ lmax ∧ es ≠ [] ∧
  ∀ x, x ∈ es → in_range (c_lo c) (c_hi c) x.1.
Proof.
  intros (p & es & nxt & Hp & Hok & Hlen & Hne & Hr & Hls & Hpg). exists es, nxt. destruct c. simpl in *. subst. split_and!; try done. by exists p.
Qed.

Lemma links_merge A l1 l2 B es : links (A ++ l1 :: l2 :: B) → links (A ++ mkLf (lf_pid l1) es (lf_next l2) :: B).
Proof. induction A as [|a A IH]; simpl; [naive_solver|]. intros [Ha HA]. split; [|by apply IH]. by destruct A. Qed.

Lemma links_two A l1 l2 B es1 es2 : links (A ++ l1 :: l2 :: B) →
  links (A ++ mkLf (lf_pid l1) es1 (lf_next l1) :: mkLf (lf_pid l2) es2 (lf_next l2) :: B).
Proof.
  intros H. apply (links_entries A l1 es1) in H. rewrite cons_middle, app_assoc in H. apply (links_entries _ l2 es2) in H.
  by rewrite <- app_assoc in H.
Qed.

Lemma links_around A a l l' b B : (links ((A ++ a) ++ l ++ (b ++ B)) → links ((A ++ a) ++ l' ++ (b ++ B))) →
  links (A ++ (a ++ l ++ b) ++ B) → links (A ++ (a ++ l' ++ b) ++ B).
Proof. by rewrite <- !app_assoc. Qed.

Section Pair.
Context (m m' : gmap Z IndexPage) (parent par : Z) (a b : list child) (x y : Z) (lo mid hi lo' hi' : bound) (esx esy : leaf_array) (nx ny : Z).
Let cs : list child := a ++ leaf_child x lo mid esx nx :: leaf_child y mid hi esy ny :: b.
Context (Hlinked : linked lo' cs hi') (Ha : kids m 0 parent a) (Hb : kids m 0 parent b).
Context (Hsx : sorted_keys esx) (Hsy : sorted_keys esy) (Hrx : ∀ e, e ∈ esx → in_range lo mid e.1) (Hry : ∀ e, e ∈ esy → in_range mid hi e.1).
Context (kx ky : Z) (Hkx : in_range lo mid kx) (Hky : in_range mid hi ky).
Context (Hnd : NoDup (parent :: pages_of cs)) (Hsame : ∀ q, q ≠ parent → q ≠ x → q ≠ y → m' !! q = m !! q).

Lemma pair_pages : pages_of cs = pages_of a ++ x :: y :: pages_of b.
Proof. unfold cs. by rewrite pages_of_app. Qed.
Lemma pair_leaves : leaves_of cs = leaves_of a ++ mkLf x esx nx :: mkLf y esy ny :: leaves_of b.
Proof. unfold cs. by rewrite leaves_of_app. Qed.

Lemma pair_entries e : e ∈ esx ++ esy → in_range lo hi e.1.
Proof.
  destruct Hkx as [Hkx1 Hkx2], Hky as [Hky1 Hky2]. intros [He|He]%elem_of_app.
  - destruct (Hrx e He) as [H1 H2]. split; [done|]. apply (below_trans _ _ ky); [done|]. pose proof (range_lt _ _ _ H2 Hky1). lia.
  - destruct (Hry e He) as [H1 H2]. split; [|done]. apply (at_least_trans _ kx); [done|]. pose proof (range_lt _ _ _ Hkx2 H1). lia.
Qed.
Lemma pair_sorted : sorted_keys (esx ++ esy).
Proof. apply sorted_app. split; [done|]. split; [done|]. intros e1 e2 [_ H1]%Hrx [H2 _]%Hry. by eapply range_lt. Qed.

Lemma pair_others : kids m' 0 parent a ∧ kids m' 0 parent b.
Proof.
  rewrite pair_pages in Hnd. apply NoDup_cons in Hnd as [Hp Hnd']. apply NoDup_app in Hnd' as (_ & Hd & Hxy).
  apply NoDup_cons in Hxy as [Hx [Hy _]%NoDup_cons].
  split; (eapply kids_agree; [done|]; intros q Hq; apply Hsame; [intros ->; set_solver|..]; intros ->; set_solver).
Qed.

Lemma pair_same q : q ∉ parent :: pages_of cs → m' !! q = m !! q.
Proof. rewrite pair_pages. intros Hq. apply Hsame; set_solver. Qed.

(** Entries move between the two. *)
Lemma shift_refitted esx' esy' e es q :
  esx' ++ esy' = esx ++ esy → esx' ≠ [] → esy' = e :: es → Z.of_nat (length esx') ≤ lmax → Z.of_nat (length esy') ≤ lmax →
  leaf_at m' x parent esx' nx → leaf_at m' y parent esy' ny → m' !! parent = Some (PageInternal q) →
  int_page_ok imax q par (heads a ++ (x, lo) :: (y, Key e.1) :: heads b) →
  let cs' := a ++ leaf_child x lo (Key e.1) esx' nx :: leaf_child y (Key e.1) hi esy' ny :: b in
  refitted m 0 parent par lo' hi' cs cs' m' ∧ length cs' = length cs.
Proof.
  intros Hes Hne He Hlx Hly Hx Hy Hq Hok. cbv zeta.
  pose proof pair_sorted as Hsorted. rewrite <- Hes in Hsorted. apply sorted_app in Hsorted as (_ & Hsy' & Hlt).
  assert (∀ z, z ∈ esx' ++ esy' → in_range lo hi z.1) as Hin by (rewrite Hes; apply pair_entries).
  split; [|unfold cs; by rewrite !length_app]. destruct pair_others as [Ha' Hb']. split.
  - exists q. split; [done|]. by rewrite heads_app.
  - unfold cs in Hlinked. apply linked_app in Hlinked as (z & Hla & Hlb). simpl in Hlb. destruct Hlb as (<- & _ & Hlb).
    apply linked_app. exists lo. split; [done|]. by split_and!.
  - apply Forall_app. split; [done|]. constructor; [|constructor; [|done]].
    + apply leaf_sub; [done..|]. intros z Hz. split; [apply (Hin z); set_solver|]. apply (Hlt z e); [done|rewrite He; by left].
    + apply leaf_sub; [done|done|by rewrite He|]. intros z Hz. split; [|apply (Hin z); set_solver].
      rewrite He in Hz, Hsy'. apply sorted_cons in Hsy' as [_ Hsy']. simpl. apply elem_of_cons in Hz as [->|Hz]; [lia|].
      apply Z.lt_le_incl. by apply Hsy'.
  - exists []. rewrite app_nil_r, pair_pages, pages_of_app. done.
  - rewrite leaves_of_app, pair_leaves, !lents_app. f_equal. change (lents (leaves_of (leaf_child x lo (Key e.1) esx' nx :: leaf_child y (Key e.1) hi esy' ny :: b)))
      with (esx' ++ esy' ++ lents (leaves_of b)).
    change (lents (mkLf x esx nx :: mkLf y esy ny :: leaves_of b)) with (esx ++ esy ++ lents (leaves_of b)). by rewrite !app_assoc, Hes.
  - intros A B. rewrite pair_leaves, leaves_of_app. change (leaves_of (_ :: _ :: b)) with (mkLf x esx' nx :: mkLf y esy' ny :: leaves_of b).
    exact (links_around A (leaves_of a) [mkLf x esx nx; mkLf y esy ny] [mkLf x esx' nx; mkLf y esy' ny] (leaves_of b) B
      (links_two _ (mkLf x esx nx) (mkLf y esy ny) _ esx' esy')).
  - apply pair_same.
Qed.

(** The two become one. *)
Lemma merge_refitted q : esx ++ esy ≠ [] → Z.of_nat (length (esx ++ esy)) ≤ lmax → leaf_at m' x parent (esx ++ esy) ny →
  m' !! parent = Some (PageInternal q) → int_page_ok imax q par (heads a ++ (x, lo) :: heads b) →
  let cs' := a ++ leaf_child x lo hi (esx ++ esy) ny :: b in
  refitted m 0 parent par lo' hi' cs cs' m' ∧ Datatypes.S (length cs') = length cs.
Proof.
  intros Hne Hlen Hx Hq Hok. cbv zeta. split; [|unfold cs; rewrite !length_app; simpl; lia]. destruct pair_others as [Ha' Hb']. split.
  - exists q. split; [done|]. by rewrite heads_app.
  - unfold cs in Hlinked. apply linked_app in Hlinked as (z & Hla & Hlb). simpl in Hlb. destruct Hlb as (<- & _ & Hlb).
    apply linked_app. exists lo. split; [done|]. by split_and!.
  - apply Forall_app. split; [done|]. constructor; [|done]. apply leaf_sub; [done..|]. apply pair_entries.
  - exists [y]. rewrite pair_pages, pages_of_app. change (pages_of (leaf_child x lo hi (esx ++ esy) ny :: b)) with (x :: pages_of b). solve_Permutation.
  - rewrite leaves_of_app, pair_leaves, !lents_app. f_equal. change (lents (leaves_of (leaf_child x lo hi (esx ++ esy) ny :: b)))
      with ((esx ++ esy) ++ lents (leaves_of b)). by rewrite <- app_assoc.
  - intros A B. rewrite pair_leaves, leaves_of_app. change (leaves_of (_ :: b)) with (mkLf x (esx ++ esy) ny :: leaves_of b).
    exact (links_around A (leaves_of a) [mkLf x esx nx; mkLf y esy ny] [mkLf x (esx ++ esy) ny] (leaves_of b) B
      (links_merge _ (mkLf x esx nx) (mkLf y esy ny) _ (esx ++ esy))).
  - apply pair_same.
Qed.
End Pair.
(** An internal page as a child. *)
Definition int_child pid lo hi (cs : list child) : child := mkChild pid lo hi (leaves_of cs) (pid :: pages_of cs).
Definition int_at m pid par (cs : list child) : Prop := ∃ p, m !! pid = Some (PageInternal p) ∧ int_page_ok imax p par (heads cs).

Lemma int_sub m h pid par lo hi cs : int_at m pid par cs → Z.of_nat (length cs) ≤ imax → (min_children imax ≤ length cs)%nat →
  linked lo cs hi → kids m h pid cs → sub m (Datatypes.S h) pid par lo hi (leaves_of cs) (pid :: pages_of cs).
Proof. intros (p & Hp & Hok) H1 H2 H3 H4. by exists p, cs. Qed.
Lemma sub_int_child m h par c : sub m (Datatypes.S h) (c_pid c) par (c_lo c) (c_hi c) (c_leaves c) (c_pages c) → ∃ cs,
  c = int_child (c_pid c) (c_lo c) (c_hi c) cs ∧ int_at m (c_pid c) par cs ∧ Z.of_nat (length cs) ≤ imax ∧ (min_children imax ≤ length cs)%nat ∧
  linked (c_lo c) cs (c_hi c) ∧ kids m h (c_pid c) cs.
Proof.
  intros (p & cs & Hp & Hok & H1 & H2 & H3 & H4 & Hl & Hpg). exists cs. destruct c. simpl in *. subst. split_and!; try done. by exists p.
Qed.

Section IntPair.
Context (m m' : gmap Z IndexPage) (h : nat) (parent par : Z) (a b : list child) (x y : Z) (lo mid hi lo' hi' : bound) (csx csy : list child).
Let cs : list child := a ++ int_child x lo mid csx :: int_child y mid hi csy :: b.
Context (Hlinked : linked lo' cs hi') (Ha : kids m (Datatypes.S h) parent a) (Hb : kids m (Datatypes.S h) parent b).
Context (Hlx : linked lo csx mid) (Hly : linked mid csy hi) (Hnd : NoDup (parent :: pages_of cs)).
Context (Hsame : ∀ q, q ∉ parent :: x :: y :: pages_of csx ++ pages_of csy → m' !! q = m !! q).

Lemma int_pair_pages : pages_of cs = pages_of a ++ x :: pages_of csx ++ y :: pages_of csy ++ pages_of b.
Proof. unfold cs. by rewrite pages_of_app. Qed.
Lemma int_pair_leaves : leaves_of cs = leaves_of a ++ leaves_of (csx ++ csy) ++ leaves_of b.
Proof. unfold cs. rewrite !leaves_of_app, <- app_assoc. done. Qed.

Lemma int_pair_others : kids m' (Datatypes.S h) parent a ∧ kids m' (Datatypes.S h) parent b.
Proof.
  rewrite int_pair_pages in Hnd. apply NoDup_cons in Hnd as [Hp Hnd'].
  split; (eapply kids_agree; [done|]; intros q Hq; apply Hsame; intros Hin).
  - apply NoDup_app in Hnd' as (_ & Hd & _). apply elem_of_cons in Hin as [->|Hin]; [set_solver|]. apply (Hd q Hq). set_solver.
  - rewrite (app_comm_cons _ _ y), (app_assoc (pages_of csx)), app_comm_cons, app_assoc in Hnd'.
    apply NoDup_app in Hnd' as (_ & Hd & _). apply elem_of_cons in Hin as [->|Hin]; [set_solver|]. eapply Hd; [|exact Hq]. set_solver.
Qed.
Lemma int_pair_same q : q ∉ parent :: pages_of cs → m' !! q = m !! q.
Proof. rewrite int_pair_pages. intros Hq. apply Hsame. set_solver. Qed.
Lemma int_pair_ends : linked lo' a lo ∧ linked hi b hi'.
Proof. unfold cs in Hlinked. apply linked_app in Hlinked as (v & Hla & Hlb). simpl in Hlb. by destruct Hlb as (<- & _ & Hlb). Qed.

(** Children move between the two. *)
Lemma shift_int_refitted csx' csy' d ds q :
  csx' ++ csy' = csx ++ csy → csy' = d :: ds → (min_children imax ≤ length csx')%nat → (min_children imax ≤ length csy')%nat →
  Z.of_nat (length csx') ≤ imax → Z.of_nat (length csy') ≤ imax →
  int_at m' x parent csx' → int_at m' y parent csy' → kids m' h x csx' → kids m' h y csy' → m' !! parent = Some (PageInternal q) →
  int_page_ok imax q par (heads a ++ (x, lo) :: (y, c_lo d) :: heads b) →
  let cs' := a ++ int_child x lo (c_lo d) csx' :: int_child y (c_lo d) hi csy' :: b in
  refitted m (Datatypes.S h) parent par lo' hi' cs cs' m' ∧ length cs' = length cs.
Proof.
  intros Hcs Hd Hmx Hmy Hix Hiy Hx Hy Hkx Hky Hq Hok. cbv zeta. split; [|unfold cs; by rewrite !length_app].
  destruct int_pair_others as [Ha' Hb']. destruct int_pair_ends as [Hla Hlb].
  assert (linked lo csx' (c_lo d) ∧ linked (c_lo d) csy' hi) as [Hl1 Hl2].
  { assert (linked lo (csx ++ csy) hi) as H by (apply linked_app; by exists mid). rewrite <- Hcs in H.
    apply linked_app in H as (u & H1 & H2). subst csy'. by pose proof H2 as [<- _]. }
  assert (leaves_of (a ++ int_child x lo (c_lo d) csx' :: int_child y (c_lo d) hi csy' :: b) = leaves_of cs) as Hlv.
  { rewrite int_pair_leaves, <- Hcs, !leaves_of_app, <- app_assoc. done. }
  split.
  - exists q. split; [done|]. by rewrite heads_app.
  - apply linked_app. exists lo. split; [done|]. by split_and!.
  - apply Forall_app. split; [done|]. constructor; [by apply int_sub|]. constructor; [by apply int_sub|done].
  - exists []. rewrite app_nil_r, int_pair_pages, pages_of_app.
    change (pages_of (int_child x lo (c_lo d) csx' :: int_child y (c_lo d) hi csy' :: b)) with ((x :: pages_of csx') ++ (y :: pages_of csy') ++ pages_of b).
    assert (pages_of csx ++ pages_of csy = pages_of csx' ++ pages_of csy') as Hpg by (by rewrite <- !pages_of_app, Hcs).
    f_equiv. rewrite <- app_comm_cons. f_equiv. rewrite <- app_comm_cons, !(Permutation_middle _ _ y), !app_assoc. by rewrite Hpg.
  - by rewrite Hlv.
  - intros A B. by rewrite Hlv.
  - apply int_pair_same.
Qed.

(** The two become one. *)
Lemma merge_int_refitted q : (min_children imax ≤ length (csx ++ csy))%nat → Z.of_nat (length (csx ++ csy)) ≤ imax →
  int_at m' x parent (csx ++ csy) → kids m' h x (csx ++ csy) → m' !! parent = Some (PageInternal q) →
  int_page_ok imax q par (heads a ++ (x, lo) :: heads b) →
  let cs' := a ++ int_child x lo hi (csx ++ csy) :: b in
  refitted m (Datatypes.S h) parent par lo' hi' cs cs' m' ∧ Datatypes.S (length cs') = length cs.
Proof.
  intros Hm Hi Hx Hk Hq Hok. cbv zeta. split; [|unfold cs; rewrite !length_app; simpl; lia].
  destruct int_pair_others as [Ha' Hb']. destruct int_pair_ends as [Hla Hlb].
  assert (leaves_of (a ++ int_child x lo hi (csx ++ csy) :: b) = leaves_of cs) as Hlv.
  { rewrite int_pair_leaves, leaves_of_app. done. }
  split.
  - exists q. split; [done|]. by rewrite heads_app.
  - apply linked_app. exists lo. split; [done|]. by split_and!.
  - apply Forall_app. split; [done|]. constructor; [|done]. apply int_sub; try done. apply linked_app. by exists mid.
  - exists [y]. rewrite int_pair_pages, pages_of_app. change (pages_of (int_child x lo hi (csx ++ csy) :: b)) with (x :: pages_of (csx ++ csy) ++ pages_of b).
    rewrite pages_of_app. solve_Permutation.
  - by rewrite Hlv.
  - intros A B. by rewrite Hlv.
  - apply int_pair_same.
Qed.
End IntPair.
End Refit.
