(* ===== verification/BPlusBorrow.v ===== *)
(** * Borrowing and merging leaves

    The steps by which [Remove] of [b_plus_tree.cpp] cures a leaf that has become too
    small: an entry of the neighbour to the left or to the right, or one leaf for two. *)

From S2P Require Import Prelude Common SortedAssoc PageStore PageIO PageLogic BPlusPage BPlusTree TreeLogic BPlusShape BPlusSplit BPlusRefit.

(** The page of a pin, after some writes. *)
Ltac find_page :=
  repeat first [rewrite lookup_insert_eq | rewrite lookup_insert_ne by congruence | rewrite lookup_delete_ne by congruence];
  first [eassumption | reflexivity].
(** The next page call, on the [i]-th pin. *)
Ltac next_call := cbn [insert list_insert delete list_delete].
Ltac reads_leaf i :=
  eapply call_triple; [eapply (read_leaf_rule _ _ _ _ _ _ i); [reflexivity|find_page|reflexivity]|lia|];
  let z := fresh in let v := fresh in intros z v [-> ->].
Ltac reads_internal i :=
  eapply call_triple; [eapply (read_internal_rule _ _ _ _ _ _ i); [reflexivity|find_page|reflexivity]|lia|];
  let z := fresh in let v := fresh in intros z v [-> ->].
Ltac writes i :=
  eapply call_triple; [eapply (write_rule_v _ _ _ _ _ _ i); [reflexivity|find_page]|lia|];
  let v := fresh in intros _ v ->; next_call.
Ltac unpins i :=
  eapply call_triple; [eapply (unpin_rule_v _ _ _ _ _ _ i); [reflexivity|first [by left|by right]]|lia|];
  let v := fresh in intros _ v [_ ->]; next_call.

Section Pairs.
Context {Pool : Type} `{PIO : !PageIO IndexPage Pool} (lmax imax : Z).
Context (frames : 3 ≤ io_frames).
Context (leaf_sizes : 2 ≤ lmax < LEAF_SLOTS) (int_sizes : 3 ≤ imax < INTERNAL_SLOTS).
Implicit Types (m : gmap Z IndexPage) (v : View).
Local Abbreviation T := (ST (BPlusTree Pool)).
Local Abbreviation tree_triple := (triple (S := BPlusTree Pool) (view_rel lmax imax)).
Local Abbreviation sub := (BPlusShape.sub lmax imax).
Local Abbreviation kids := (BPlusShape.kids lmax imax).
Local Abbreviation above := (BPlusShape.above lmax imax).
Local Abbreviation leaf_at := (BPlusRefit.leaf_at lmax).
Local Abbreviation refitted := (BPlusRefit.refitted lmax imax).
Local Abbreviation whole := (BPlusSplit.whole lmax imax).

Lemma leaf_min_bounds : 1 ≤ leaf_min_size lmax ∧ 2 * leaf_min_size lmax ≤ lmax.
Proof. unfold leaf_min_size. Z.to_euclidean_division_equations. lia. Qed.
Lemma internal_min_bounds : 2 ≤ internal_min_size imax ∧ 2 * internal_min_size imax ≤ imax + 1.
Proof. unfold internal_min_size. Z.to_euclidean_division_equations. lia. Qed.

(** ** The page above two neighbours *)

Section Parent.
Context (par : Z) (p : InternalPage) (a b : list child) (x y : Z) (lo mid : bound).
Context (Hok : int_page_ok imax p par (heads a ++ (x, lo) :: (y, mid) :: heads b)).

(** The entry for the right one. *)
Lemma parent_entry : ∃ l1 k l2, int_entries p = l1 ++ (k, y) :: l2 ∧ length l1 = Datatypes.S (length a) ∧ mid = Key k ∧
  keyed (l1 ++ (k, y) :: l2) ((heads a ++ [(x, lo)]) ++ (y, mid) :: heads b).
Proof.
  pose proof (ip_keyed _ _ _ _ Hok) as Hk. rewrite cons_middle, app_assoc in Hk.
  destruct (keyed_app _ _ _ _ _ Hk) as (l1 & k & l2 & He & Hlen & _). exists l1, k, l2. rewrite He in Hk.
  assert (length l1 = Datatypes.S (length a)) as Hl by (rewrite Hlen, length_app; unfold heads; rewrite length_fmap; simpl; lia).
  split_and!; [done|done| |done]. apply (keyed_split l1 k y l2) in Hk as (_ & _ & H & _); [done|by intros ->|done].
Qed.

Lemma parent_key : ∃ k, mid = Key k ∧ Internal.KeyAt p (Z.of_nat (length a) + 1) = Ok k.
Proof.
  destruct parent_entry as (l1 & k & l2 & He & Hlen & Hm & _). exists k. split; [done|]. unfold Internal.KeyAt.
  replace (Z.of_nat (length a) + 1) with (Z.of_nat (length l1)) by lia.
  by rewrite (int_entries_get p (length l1) (k, y)) by (by rewrite He, lookup_app_r, Nat.sub_diag by lia).
Qed.

Lemma parent_set key : ∃ q, Internal.SetKeyAt (Z.of_nat (length a) + 1) key p = Ok q ∧
  int_page_ok imax q par (heads a ++ (x, lo) :: (y, Key key) :: heads b).
Proof.
  destruct parent_entry as (l1 & k & l2 & He & Hlen & _ & Hk). destruct Hok as [Hsh Hmax Hpar _].
  destruct (int_set_key_ok p l1 k y l2 key Hsh He) as (q & Hq & Hshq & Heq & Hqp & Hqm). exists q.
  split; [rewrite <- Hq; f_equal; lia|]. split; [done|congruence|congruence|]. rewrite Heq.
  apply (keyed_set _ _ _ _ _ _ _ key) in Hk; [by rewrite <- app_assoc in Hk| |by destruct (heads a)].
  rewrite Hlen, length_app. unfold heads. rewrite length_fmap. simpl. lia.
Qed.

Lemma parent_remove : ∃ q, Internal.Remove (Z.of_nat (length a) + 1) p = Ok q ∧ int_page_ok imax q par (heads a ++ (x, lo) :: heads b).
Proof.
  destruct parent_entry as (l1 & k & l2 & He & Hlen & _ & Hk). destruct Hok as [Hsh Hmax Hpar _].
  destruct (int_remove_ok p l1 (k, y) l2 Hsh He) as (q & Hq & Hshq & Heq & Hqp & Hqm). exists q.
  split; [rewrite <- Hq; f_equal; lia|]. split; [done|congruence|congruence|]. rewrite Heq.
  apply keyed_remove in Hk; [by rewrite <- app_assoc in Hk| |by destruct (heads a)].
  rewrite Hlen, length_app. unfold heads. rewrite length_fmap. simpl. lia.
Qed.
End Parent.

(** The answer of a borrow, and that of a merge: the page of the right one is gone. *)
Definition borrowed m h parent par lo' hi' cs (nid r : Z) (l : pins) (few : Prop) (moved : bool) v : Prop :=
  if moved then ∃ m' cs', v = mkView m' [] nid r ∧ refitted m h parent par lo' hi' cs cs' m' ∧ length cs' = length cs
  else v = mkView m l nid r ∧ few.
Definition merged m h parent par lo' hi' cs (nid r pf : Z) (_ : unit) v : Prop :=
  ∃ m' cs', v = mkView m' [(parent, (pf, true))] nid r ∧ refitted m h parent par lo' hi' cs cs' m' ∧ Datatypes.S (length cs') = length cs.

Lemma leaf_first_key p e es : leaf_entries p = e :: es → Leaf.KeyAt p 0 = Ok e.1.
Proof. intros [H _]%leaf_entries_head. unfold Leaf.KeyAt. by rewrite (arr_get_ok _ 0 _ H : arr_get (l_array p) 0 = _). Qed.

(** ** A leaf and its neighbour *)

Section Pair.
Context (m : gmap Z IndexPage) (parent par : Z) (p : InternalPage) (a b : list child) (x y : Z) (lo mid hi lo' hi' : bound).
Context (esx esy : leaf_array) (nx ny : Z).
Let cs : list child := a ++ leaf_child x lo mid esx nx :: leaf_child y mid hi esy ny :: b.
Context (Hp : m !! parent = Some (PageInternal p)) (Hok : int_page_ok imax p par (heads a ++ (x, lo) :: (y, mid) :: heads b)).
Context (Hlinked : linked lo' cs hi') (Ha : kids m 0 parent a) (Hb : kids m 0 parent b).
Context (Hlx : leaf_at m x parent esx nx) (Hly : leaf_at m y parent esy ny).
Context (Hrx : ∀ e, e ∈ esx → in_range lo mid e.1) (Hry : ∀ e, e ∈ esy → in_range mid hi e.1).
Context (kx ky : Z) (Hkx : in_range lo mid kx) (Hky : in_range mid hi ky) (Hnd : NoDup (parent :: pages_of cs)).
Context (Hx : x ≠ INVALID_PAGE_ID) (Hy : y ≠ INVALID_PAGE_ID).

Lemma pair_distinct : x ≠ y ∧ x ≠ parent ∧ y ≠ parent.
Proof.
  pose proof Hnd as H. unfold cs in H. rewrite pages_of_app in H. apply NoDup_cons in H as [Hpar H].
  apply NoDup_app in H as (_ & _ & [Hxy _]%NoDup_cons). split_and!; intros E; subst; set_solver.
Qed.

Lemma leaf_borrow_left_ok uf pf nid r : Z.of_nat (length esx) ≤ lmax → Z.of_nat (length esy) < lmax →
  let l := [(y, (uf, false)); (parent, (pf, false))] in
  tree_triple 12 (mkView m l nid r) (leaf_borrow_left y uf parent pf (Z.of_nat (length a) + 1) x)
    (borrowed m 0 parent par lo' hi' cs nid r l (Z.of_nat (length esx) ≤ leaf_min_size lmax)).
Proof.
  intros Hlenx Hleny l. destruct pair_distinct as (Hxy & Hxp & Hyp). pose proof leaf_min_bounds as [Hmin _].
  destruct Hlx as (px & Hpx & [[Hshx Hsx] Hmaxx Hparx Hex Hnx]). destruct Hly as (py & Hpy & [[Hshy Hsy] Hmaxy Hpary Hey Hny]).
  pose proof (leaf_entries_length px Hshx) as Hszx. pose proof (leaf_entries_length py Hshy) as Hszy. rewrite Hex in Hszx, Hsx. rewrite Hey in Hszy, Hsy.
  unfold leaf_borrow_left. rewrite (proj2 (Z.eqb_neq _ _) Hx).
  eapply call_triple; [apply fetch_deref_rule; [by eexists|simpl; set_solver|simpl; lia]|lia|]. intros lf v ->.
  reads_leaf 0%nat. rewrite Hmaxx, <- Hszx. destruct (Z.ltb_spec (leaf_min_size lmax) (Z.of_nat (length esx))) as [Hmany|Hfew].
  2:{ unpins 0%nat. by apply ret_triple; [lia|]. }
  destruct (exists_last (l := esx)) as (es1 & e & Hes); [by intros H; rewrite H in Hmany; simpl in Hmany; lia|].
  reads_leaf 1%nat.
  destruct (leaf_move_last_ok px py e es1 Hshx Hshy) as (px' & py' & Hm & Hshx' & Hshy' & Hex' & Hey' & (Hnx' & Hpx' & Hmx') & (Hny' & Hpy' & Hmy'));
    [lia|by rewrite Hex|].
  eapply triple_bind_lift; [exact Hm|]. cbn beta iota. writes 0%nat. writes 1%nat. rewrite Hey in Hey'.
  eapply triple_bind_lift; [by eapply leaf_first_key|]. reads_internal 2%nat.
  destruct (parent_set _ _ _ _ _ _ _ _ Hok e.1) as (q & Hq & Hokq). eapply triple_bind_lift; [exact Hq|]. writes 2%nat. set (m' := <[parent := _]> _).
  do 3 unpins 0%nat. apply ret_triple; [lia|]. exists m'. eexists. split; [done|].
  eapply (shift_refitted lmax imax m m' parent par a b x y lo mid hi lo' hi' esx esy nx ny) with (esx' := es1) (esy' := e :: esy) (e := e); try done.
  - intros z H1 H2 H3. unfold m'. by rewrite !lookup_insert_ne.
  - rewrite Hes. by rewrite <- app_assoc.
  - intros H. rewrite Hes, H in Hmany. simpl in Hmany. lia.
  - rewrite Hes, length_app in Hlenx. simpl in Hlenx. lia.
  - simpl. lia.
  - exists px'. split; [unfold m'; find_page|]. rewrite Hes in Hsx. apply sorted_app in Hsx as [? _].
    split; [split; [done|by rewrite Hex']|congruence|congruence|done|congruence].
  - exists py'. split; [unfold m'; find_page|]. split; [split; [done|]|congruence|congruence|done|congruence]. rewrite Hey'.
    apply sorted_cons. split; [done|]. intros z [H1 _]%Hry. assert (e ∈ esx) as [_ H2]%Hrx by (rewrite Hes; set_solver). by eapply range_lt.
  - unfold m'. apply lookup_insert_eq.
Qed.

Lemma leaf_borrow_right_ok uf pf nid r : Z.of_nat (length esx) < lmax → Z.of_nat (length esy) ≤ lmax →
  let l := [(x, (uf, false)); (parent, (pf, false))] in
  tree_triple 12 (mkView m l nid r) (leaf_borrow_right x uf parent pf (Z.of_nat (length a)) y)
    (borrowed m 0 parent par lo' hi' cs nid r l (Z.of_nat (length esy) ≤ leaf_min_size lmax)).
Proof.
  intros Hlenx Hleny l. destruct pair_distinct as (Hxy & Hxp & Hyp). pose proof leaf_min_bounds as [Hmin _].
  destruct Hlx as (px & Hpx & [[Hshx Hsx] Hmaxx Hparx Hex Hnx]). destruct Hly as (py & Hpy & [[Hshy Hsy] Hmaxy Hpary Hey Hny]).
  pose proof (leaf_entries_length px Hshx) as Hszx. pose proof (leaf_entries_length py Hshy) as Hszy. rewrite Hex in Hszx, Hsx. rewrite Hey in Hszy, Hsy.
  unfold leaf_borrow_right. rewrite (proj2 (Z.eqb_neq _ _) Hy).
  eapply call_triple; [apply fetch_deref_rule; [by eexists|simpl; set_solver|simpl; lia]|lia|]. intros lf v ->.
  reads_leaf 0%nat. rewrite Hmaxy, <- Hszy. destruct (Z.ltb_spec (leaf_min_size lmax) (Z.of_nat (length esy))) as [Hmany|Hfew].
  2:{ unpins 0%nat. by apply ret_triple; [lia|]. }
  assert (∃ e e1 es1, esy = e :: e1 :: es1) as (e & e1 & es1 & Hes)
    by (clear - Hmany Hmin; destruct esy as [|e [|e1 es1]]; [simpl in Hmany; lia|simpl in Hmany; lia|eauto]).
  reads_leaf 1%nat.
  destruct (leaf_move_first_ok py px e (e1 :: es1) Hshy Hshx) as (py' & px' & Hm & Hshy' & Hshx' & Hey' & Hex' & (Hny' & Hpy' & Hmy') & (Hnx' & Hpx' & Hmx'));
    [lia|by rewrite Hey|].
  eapply triple_bind_lift; [exact Hm|]. cbn beta iota. writes 0%nat. writes 1%nat. rewrite Hex in Hex'.
  eapply triple_bind_lift; [by eapply leaf_first_key|]. reads_internal 2%nat.
  destruct (parent_set _ _ _ _ _ _ _ _ Hok e1.1) as (q & Hq & Hokq). eapply triple_bind_lift; [exact Hq|]. writes 2%nat. set (m' := <[parent := _]> _).
  do 3 unpins 0%nat. apply ret_triple; [lia|]. exists m'. eexists. split; [done|]. pose proof Hsy as Hsy'. rewrite Hes in Hsy'. apply sorted_cons in Hsy' as [Hsy' Hlt].
  eapply (shift_refitted lmax imax m m' parent par a b x y lo mid hi lo' hi' esx esy nx ny) with (esx' := esx ++ [e]) (esy' := e1 :: es1) (e := e1); try done.
  - intros z H1 H2 H3. unfold m'. by rewrite !lookup_insert_ne.
  - rewrite Hes. by rewrite <- app_assoc.
  - by destruct esx.
  - rewrite length_app. simpl. lia.
  - rewrite Hes in Hleny. simpl in *. lia.
  - exists px'. split; [unfold m'; find_page|]. split; [split; [done|]|congruence|congruence|done|congruence]. rewrite Hex'.
    apply sorted_app. split; [done|]. split; [apply sorted_cons; split; [apply sorted_nil|set_solver]|].
    intros z1 z2 Hz1 ->%list_elem_of_singleton. destruct (Hrx z1 Hz1) as [_ H1]. destruct (Hry e ltac:(rewrite Hes; by left)) as [H2 _]. by eapply range_lt.
  - exists py'. split; [unfold m'; find_page|]. split; [split; [done|by rewrite Hey']|congruence|congruence|done|congruence].
  - unfold m'. apply lookup_insert_eq.
Qed.

Lemma leaf_merged px py px' q m' nid r pf : m !! x = Some (PageLeaf px) → leaf_page_ok lmax px parent esx nx →
  m !! y = Some (PageLeaf py) → leaf_page_ok lmax py parent esy ny →
  leaf_shape px' → leaf_entries px' = esx ++ esy → next_page_id_ px' = next_page_id_ py →
  parent_page_id_ (l_hdr px') = parent_page_id_ (l_hdr px) → max_size_ (l_hdr px') = max_size_ (l_hdr px) →
  esx ++ esy ≠ [] → Z.of_nat (length (esx ++ esy)) ≤ lmax → int_page_ok imax q par (heads a ++ (x, lo) :: heads b) →
  m' !! x = Some (PageLeaf px') → m' !! parent = Some (PageInternal q) → (∀ z, z ≠ parent → z ≠ x → z ≠ y → m' !! z = m !! z) →
  merged m 0 parent par lo' hi' cs nid r pf tt (mkView m' [(parent, (pf, true))] nid r).
Proof.
  intros Hpx [[_ Hsx] Hmaxx Hparx Hex Hnx] Hpy [[_ Hsy] Hmaxy Hpary Hey Hny] Hsh He Hn Hpar Hmax Hne Hlen Hokq Hx' Hq' Hsame.
  rewrite Hex in Hsx. rewrite Hey in Hsy. exists m'. eexists. split; [done|].
  eapply (merge_refitted lmax imax m m' parent par a b x y lo mid hi lo' hi' esx esy nx ny); try done.
  exists px'. split; [done|]. split; [split; [done|]|congruence|congruence|done|congruence]. rewrite He.
  apply sorted_app. split; [done|]. split; [done|]. intros e1 e2 [_ H1]%Hrx [H2 _]%Hry. by eapply range_lt.
Qed.

(** The first child takes over its right neighbour; another joins its left one. *)
Lemma leaf_merge_ok (first : bool) uf pf left right nid r : esx ++ esy ≠ [] → Z.of_nat (length (esx ++ esy)) ≤ lmax →
  (if first then a = [] ∧ right = y else left = x) →
  tree_triple 12 (mkView m [(if first then x else y, (uf, false)); (parent, (pf, false))] nid r)
    (leaf_merge (if first then x else y) uf pf (if first then 0 else Z.of_nat (length a) + 1) left right) (merged m 0 parent par lo' hi' cs nid r pf).
Proof.
  intros Hne Hlen Hcase. destruct pair_distinct as (Hxy & Hxp & Hyp).
  destruct Hlx as (px & Hpx & Hokx). destruct Hly as (py & Hpy & Hoky).
  pose proof Hokx as [[Hshx _] _ _ Hex _]. pose proof Hoky as [[Hshy _] _ _ Hey _].
  pose proof (leaf_entries_length px Hshx) as Hszx. pose proof (leaf_entries_length py Hshy) as Hszy. rewrite Hex in Hszx. rewrite Hey in Hszy.
  destruct (leaf_move_all_ok py px Hshy Hshx) as (py' & px' & Hm & _ & Hshx' & _ & Hex' & Hnx' & Hpx' & Hmx'); [rewrite length_app in Hlen; lia|].
  rewrite Hex, Hey in Hex'. destruct (parent_remove _ _ _ _ _ _ _ _ Hok) as (q & Hq & Hokq). unfold leaf_merge. destruct first.
  - destruct Hcase as [Ha0 ->]. rewrite Ha0 in Hq. simpl in Hq.
    eapply call_triple; [apply fetch_deref_rule; [by eexists|simpl; set_solver|simpl; lia]|lia|]. intros lf v ->.
    reads_leaf 0%nat. reads_leaf 1%nat. eapply triple_bind_lift; [exact Hm|]. cbn beta iota. writes 0%nat. writes 1%nat. unpins 0%nat.
    eapply call_triple; [apply delete_rule_v; simpl; set_solver|lia|]. intros _ v [_ ->].
    reads_internal 1%nat. eapply triple_bind_lift; [exact Hq|]. writes 1%nat. unpins 0%nat.
    apply ret_triple; [lia|]. eapply (leaf_merged px py px' q); try done; [find_page..|].
    intros z H1 H2 H3. by rewrite lookup_insert_ne, lookup_delete_ne, !lookup_insert_ne.
  - subst left. rewrite (proj2 (Z.eqb_neq _ _)) by lia.
    eapply call_triple; [apply fetch_deref_rule; [by eexists|simpl; set_solver|simpl; lia]|lia|]. intros lf v ->.
    reads_leaf 0%nat. reads_leaf 1%nat. eapply triple_bind_lift; [exact Hm|]. cbn beta iota. writes 1%nat. writes 0%nat. unpins 0%nat. unpins 0%nat.
    eapply call_triple; [apply delete_rule_v; simpl; set_solver|lia|]. intros _ v [_ ->].
    reads_internal 0%nat. eapply triple_bind_lift; [exact Hq|].
    eapply mono_triple; [eapply (write_rule_v _ _ _ _ _ _ 0); [reflexivity|find_page]|lia|]. intros [] v ->. next_call.
    eapply (leaf_merged px py px' q); try done; [find_page..|].
    intros z H1 H2 H3. by rewrite lookup_insert_ne, lookup_delete_ne, !lookup_insert_ne.
Qed.
End Pair.
End Pairs.
