(* ===== verification/BPlusIntBorrow.v ===== *)
(** * Borrowing and merging internal pages

    The steps by which [Remove] of [b_plus_tree.cpp] cures an internal page that has
    become too small: a child of the neighbour to the left, or one page for two.  A
    child taken from the right loses keys ([BPlusTree.btree_remove_loses_keys]); here is
    only when the code does not try. *)

From S2P Require Import Prelude Common SortedAssoc PageStore PageIO PageLogic BPlusPage BPlusTree TreeLogic BPlusShape BPlusSplit BPlusRefit BPlusBorrow.

(** The first key of a page is free; it becomes the separator when a child comes before,
    or when the page is appended to another. *)
Lemma keyed_push k0 k v0 l v b hs q b0 : keyed ((k0, v0) :: l) ((q, b0) :: hs) → b0 = Key k →
  keyed ((k0, v) :: (k, v0) :: l) ((v, b) :: (q, b0) :: hs).
Proof. intros [-> H] ->. split; [done|]. by constructor. Qed.
Lemma keyed_join l1 h1 k0 k v0 l hs q b0 : keyed l1 h1 → keyed ((k0, v0) :: l) ((q, b0) :: hs) → b0 = Key k →
  keyed (l1 ++ (k, v0) :: l) (h1 ++ (q, b0) :: hs).
Proof.
  destruct l1 as [|[k1 p1] l1], h1 as [|[q1 b1] h1]; try done. intros [-> H1] [-> H] ->. split; [done|].
  apply Forall2_app; [done|]. by constructor.
Qed.

(** Pages that are all different. *)
Lemma fresh_pages (u x y : Z) L D : NoDup (u :: x :: y :: L ++ D) → (x ≠ y ∧ x ≠ u ∧ y ≠ u) ∧ (u ∉ D ∧ x ∉ D ∧ y ∉ D) ∧ NoDup D ∧
  ∀ z, z ∈ L → z ∉ D ∧ z ≠ u ∧ z ≠ x ∧ z ≠ y.
Proof.
  intros [Hu [Hx [Hy Hn]%NoDup_cons]%NoDup_cons]%NoDup_cons. apply NoDup_app in Hn as (_ & Hd & Hn).
  rewrite !elem_of_cons, elem_of_app in Hu. rewrite elem_of_cons, elem_of_app in Hx. rewrite elem_of_app in Hy.
  split_and!; try done; try tauto; [intuition congruence..|]. intros z Hz. split; [by apply Hd|]. split_and!; intros ->; tauto.
Qed.

Section IntPairs.
Context {Pool : Type} `{PIO : !PageIO IndexPage Pool} (lmax imax : Z).
Context (frames : 4 ≤ io_frames) (int_sizes : 3 ≤ imax < INTERNAL_SLOTS).
Implicit Types (m : gmap Z IndexPage) (v : View).
Local Abbreviation tree_triple := (triple (S := BPlusTree Pool) (view_rel lmax imax)).
Local Abbreviation kids := (BPlusShape.kids lmax imax).
Local Abbreviation orphans := (BPlusSplit.orphans lmax imax).
Local Abbreviation int_at := (BPlusRefit.int_at imax).
Local Abbreviation borrowed := (BPlusBorrow.borrowed lmax imax).
Local Abbreviation merged := (BPlusBorrow.merged lmax imax).

Lemma heads_pids (cs : list child) : (heads cs).*1 = c_pid <$> cs.
Proof. unfold heads. by rewrite <- list_fmap_compose. Qed.
Lemma page_size_ok p par cs : int_page_ok imax p par (heads cs) → Internal.GetSize p = Z.of_nat (length cs).
Proof.
  intros [Hsh _ _ Hk]. rewrite <- (int_entries_length p Hsh), (length_keyed _ _ Hk). unfold heads. by rewrite length_fmap.
Qed.

(** A page takes its children over. *)
Lemma adopt_ok m h pid p par cs l j f d nid r :
  m !! pid = Some (PageInternal p) → int_page_ok imax p par (heads cs) → orphans m h cs → NoDup (pid :: pages_of cs) →
  l !! j = Some (pid, (f, d)) → Z.of_nat (length l) < io_frames → (∀ q, q ∈ l.*1 → q ∉ pages_of cs) →
  tree_triple 2040 (mkView m l nid r) (set_children_parent remove_msg f pid (Z.to_nat (Internal.GetSize p)) 0)
    (λ _ v, ∃ m', v = mkView m' l nid r ∧ kids m' h pid cs ∧ ∀ q, q ∉ pages_of cs → m' !! q = m !! q).
Proof.
  intros Hp Hok Hcs [Hpid Hnd]%NoDup_cons Hj Hl Hpins. pose proof (page_size_ok _ _ _ Hok) as Hsz. pose proof (is_size _ (ip_shape _ _ _ _ Hok)) as Hmax.
  unfold INTERNAL_SLOTS, PAGE_SIZE in Hmax. change ((4096 - 16) / 8) with 510 in Hmax. rewrite Hsz, Nat2Z.id. change 0 with (Z.of_nat 0).
  eapply mono_triple; [eapply (set_children_parent_ok lmax imax _ cs m h pid p f d l 0 j)|lia|done]; try done.
  by rewrite drop_0, (keyed_pids _ _ (ip_keyed _ _ _ _ Hok)), heads_pids.
Qed.

Section Pair.
Context (m : gmap Z IndexPage) (h : nat) (parent par : Z) (p : InternalPage) (a b : list child) (x y : Z) (lo mid hi lo' hi' : bound).
Context (csx csy : list child).
Let cs : list child := a ++ int_child x lo mid csx :: int_child y mid hi csy :: b.
Context (Hp : m !! parent = Some (PageInternal p)) (Hok : int_page_ok imax p par (heads a ++ (x, lo) :: (y, mid) :: heads b)).
Context (Hlinked : linked lo' cs hi') (Ha : kids m (Datatypes.S h) parent a) (Hb : kids m (Datatypes.S h) parent b).
Context (Hx : int_at m x parent csx) (Hy : int_at m y parent csy) (Hkx : kids m h x csx) (Hky : kids m h y csy).
Context (Hlx : linked lo csx mid) (Hly : linked mid csy hi) (Hnex : csx ≠ []) (Hney : csy ≠ []).
Context (Hnd : NoDup (parent :: pages_of cs)) (Hxi : x ≠ INVALID_PAGE_ID).

Lemma int_pair_distinct : NoDup (parent :: x :: y :: pages_of (csx ++ csy)).
Proof.
  pose proof Hnd as H. unfold cs in H. rewrite int_pair_pages in H. apply NoDup_cons in H as [Hpar H]. constructor; [rewrite pages_of_app; set_solver|].
  rewrite (app_comm_cons (pages_of csy)), (app_assoc (pages_of csx)), app_comm_cons in H.
  apply NoDup_app in H as (_ & _ & [H _]%NoDup_app). by rewrite pages_of_app, (Permutation_middle _ _ y).
Qed.

Lemma int_pair_orphans m1 : (∀ q, q ≠ parent → q ≠ x → q ≠ y → m1 !! q = m !! q) → orphans m1 h (csx ++ csy).
Proof.
  intros Hm. destruct (fresh_pages _ _ _ [] _ int_pair_distinct) as (_ & (H1 & H2 & H3) & _). simpl in H1, H2, H3.
  eapply (orphans_agree _ _ m); [apply Forall_app; split; by eapply kids_orphans|]. intros q Hq. apply Hm; by intros ->.
Qed.

Lemma int_pair_neq : x ≠ y ∧ x ≠ parent ∧ y ≠ parent.
Proof.
  by destruct (fresh_pages _ _ _ [] _ int_pair_distinct) as (H & _).
Qed.

(** The last child of the left page, and what it looks like at the front of the right one. *)
Lemma last_child px : int_page_ok imax px parent (heads csx) → (2 ≤ length csx)%nat → ∃ cs1 d l1 k,
  csx = cs1 ++ [d] ∧ int_entries px = l1 ++ [(k, c_pid d)] ∧ c_lo d = Key k ∧ keyed l1 (heads cs1) ∧
  Internal.KeyAt px (Z.of_nat (length csx) - 1) = Ok k.
Proof.
  intros [_ _ _ Hk] Hlen. destruct (exists_last Hnex) as (cs1 & d & Hcs). rewrite Hcs, length_app in Hlen. simpl in Hlen.
  rewrite Hcs, heads_app in Hk. change (heads [d]) with [(c_pid d, c_lo d)] in Hk.
  destruct (keyed_app _ _ _ _ _ Hk) as (l1 & k & l2 & Hex & Hl1 & _). rewrite Hex in Hk.
  assert (l2 = []) as ->.
  { apply length_keyed in Hk. rewrite !length_app in Hk. simpl in Hk. destruct l2; [done|simpl in Hk; lia]. }
  assert (length l1 = length cs1) as Hl1' by (rewrite Hl1; unfold heads; by rewrite length_fmap).
  assert (l1 ≠ []) as Hl1n by (intros ->; simpl in Hl1'; lia).
  destruct (keyed_split _ _ _ _ _ _ _ _ Hl1n Hl1 Hk) as (Hk1 & _ & Hlod & _). exists cs1, d, l1, k. split_and!; try done.
  unfold Internal.KeyAt. rewrite Hcs, length_app. replace (Z.of_nat (length cs1 + length [d]) - 1) with (Z.of_nat (length l1)) by (simpl; lia).
  by rewrite (int_entries_get px (length l1) (k, c_pid d)) by (by rewrite Hex, lookup_app_r, Nat.sub_diag by lia).
Qed.

Lemma first_child py sep : int_page_ok imax py parent (heads csy) → mid = Key sep → ∃ d ds k0 q0 t,
  csy = d :: ds ∧ int_entries py = (k0, q0) :: t ∧ keyed ((k0, q0) :: t) ((c_pid d, c_lo d) :: heads ds) ∧ c_lo d = Key sep.
Proof.
  intros [_ _ _ Hk] Hmid. destruct csy as [|d ds]; [done|]. destruct (int_entries py) as [|[k0 q0] t]; [done|].
  exists d, ds, k0, q0, t. split_and!; try done. destruct Hly as [-> _]. done.
Qed.

Lemma int_borrow_left_ok uf pf nid r : Z.of_nat (length csx) ≤ imax → Z.of_nat (length csy) < internal_min_size imax →
  let l := [(y, (uf, false)); (parent, (pf, false))] in
  tree_triple 2060 (mkView m l nid r) (int_borrow_left y uf parent pf (Z.of_nat (length a) + 1) x)
    (borrowed m (Datatypes.S h) parent par lo' hi' cs nid r l (Z.of_nat (length csx) ≤ internal_min_size imax)).
Proof.
  intros Hlenx Hleny l. pose proof (internal_min_bounds imax int_sizes) as [Hmin Hmin2]. pose proof int_pair_distinct as Hdis.
  destruct Hx as (px & Hpx & Hokx). destruct Hy as (py & Hpy & Hoky).
  pose proof (page_size_ok _ _ _ Hokx) as Hszx. pose proof (page_size_ok _ _ _ Hoky) as Hszy.
  pose proof Hokx as [Hshx Hmaxx Hparx Hkeyx]. pose proof Hoky as [Hshy Hmaxy Hpary Hkeyy].
  destruct int_pair_neq as (Hxy & Hxp & Hyp).
  unfold int_borrow_left. rewrite (proj2 (Z.eqb_neq _ _) Hxi).
  eapply call_triple; [apply fetch_deref_rule; [by eexists|simpl; set_solver|simpl; lia]|lia|]. intros lf v ->.
  reads_internal 0%nat. rewrite Hmaxx, Hszx. destruct (Z.ltb_spec (internal_min_size imax) (Z.of_nat (length csx))) as [Hmany|Hfew].
  2:{ unpins 0%nat. by apply ret_triple; [lia|]. }
  destruct (last_child px Hokx) as (cs1 & d & l1 & k & Hcs & Hex & Hlod & Hk1 & Hkey); [lia|].
  eapply triple_bind_lift; [exact Hkey|]. reads_internal 2%nat.
  destruct (parent_key _ _ _ _ _ _ _ _ _ Hok) as (sep & Hmid & Hsep). eapply triple_bind_lift; [exact Hsep|]. reads_internal 1%nat.
  destruct (first_child py sep Hoky Hmid) as (y0 & ds & k0 & v0 & t & Hcsy & Hey & Hk2 & Hloy).
  assert (length csx = Datatypes.S (length cs1)) as Hlen1 by (rewrite Hcs, length_app; simpl; lia).
  destruct (int_move_last_ok sep px py l1 k (c_pid d) k0 v0 t Hshx Hshy) as (px' & py' & Hmove & Hshx' & Hshy' & Hex' & Hey' & [Hpx' Hmx'] & [Hpy' Hmy']);
    [lia|done|done|].
  eapply triple_bind_lift; [exact Hmove|]. cbn beta iota. writes 0%nat. writes 1%nat. set (m1 := <[y := _]> _).
  assert (int_page_ok imax px' parent (heads cs1)) as Hokx' by (split; [done|congruence|congruence|by rewrite Hex']).
  assert (int_page_ok imax py' parent (heads (d :: csy))) as Hoky'.
  { split; [done|congruence|congruence|]. rewrite Hey', Hcsy. by apply keyed_push. }
  assert (∀ q, q ≠ parent → q ≠ x → q ≠ y → m1 !! q = m !! q) as Hm1 by (intros q H1 H2 H3; unfold m1; by rewrite !lookup_insert_ne).
  pose proof (int_pair_orphans m1 Hm1) as Horph. rewrite Hcs, <- app_assoc in Horph, Hdis. simpl in Horph, Hdis. apply Forall_app in Horph as [_ Horph].
  rewrite pages_of_app in Hdis. destruct (fresh_pages _ _ _ _ _ Hdis) as (_ & (Hdp & Hdx & Hdy) & Hndd & Hdd).
  eapply (seq_triple _ _ 2040); [eapply (adopt_ok m1 h y py' parent (d :: csy) _ 1%nat)|lia|].
  { unfold m1. find_page. }
  { exact Hoky'. }
  { exact Horph. }
  { by constructor. }
  { reflexivity. }
  { simpl. lia. }
  { simpl. intros z Hz. rewrite !elem_of_cons, elem_of_nil in Hz. by destruct Hz as [->|[->|[->|]]]. }
  intros _ v (m2 & -> & Hkids & Hm2).
  assert (m2 !! parent = Some (PageInternal p)) as Hp2 by (rewrite Hm2 by done; unfold m1; find_page).
  reads_internal 2%nat. destruct (parent_set _ _ _ _ _ _ _ _ _ Hok k) as (q & Hq & Hokq). eapply triple_bind_lift; [exact Hq|].
  writes 2%nat. set (m' := <[parent := _]> _). do 3 unpins 0%nat. apply ret_triple; [lia|]. exists m'. eexists. split; [done|].
  assert (∀ z, z ≠ parent → z ∉ pages_of (d :: csy) → m' !! z = m1 !! z) as Hm' by (intros z H1 H2; unfold m'; rewrite lookup_insert_ne by done; by apply Hm2).
  eapply (shift_int_refitted lmax imax m m' h parent par a b x y lo mid hi lo' hi' csx csy) with (csx' := cs1) (csy' := d :: csy) (d := d); try done.
  - rewrite <- pages_of_app, Hcs, <- app_assoc, pages_of_app. intros z Hz. rewrite !elem_of_cons, elem_of_app in Hz.
    rewrite Hm'; [apply Hm1|..]; tauto.
  - rewrite Hcs. by rewrite <- app_assoc.
  - pose proof (min_children_bounds imax). lia.
  - pose proof (min_children_bounds imax). rewrite Hcsy. simpl. lia.
  - lia.
  - simpl. lia.
  - exists px'. split; [|done]. rewrite Hm' by done. unfold m1. find_page.
  - exists py'. split; [|done]. rewrite Hm' by done. unfold m1. find_page.
  - eapply kids_agree; [rewrite Hcs in Hkx; by apply Forall_app in Hkx as [Hkx _]|]. intros z (H1 & H2 & H3 & H4)%Hdd. rewrite Hm' by done. by apply Hm1.
  - eapply kids_agree; [exact Hkids|]. intros z Hz. unfold m'. rewrite lookup_insert_ne; [done|]. by intros ->.
  - unfold m'. apply lookup_insert_eq.
  - by rewrite Hlod.
Qed.
(** The first child takes over its right neighbour; another joins its left one. *)
Lemma int_merged px' py' q m1 m2 m' nid r pf : int_page_ok imax px' parent (heads (csx ++ csy)) →
  m1 = <[x := PageInternal px']> (<[y := PageInternal py']> m) ∨ m1 = <[y := PageInternal py']> (<[x := PageInternal px']> m) →
  (min_children imax ≤ length (csx ++ csy))%nat → Z.of_nat (length (csx ++ csy)) ≤ imax →
  kids m2 h x (csx ++ csy) → (∀ z, z ∉ pages_of (csx ++ csy) → m2 !! z = m1 !! z) →
  int_page_ok imax q par (heads a ++ (x, lo) :: heads b) →
  m' = <[parent := PageInternal q]> (delete y m2) →
  merged m (Datatypes.S h) parent par lo' hi' cs nid r pf tt (mkView m' [(parent, (pf, true))] nid r).
Proof.
  intros Hokx Hm1 Hmin Hmax Hk2 Hm2 Hokq ->. eexists _, _. split; [done|].
  destruct (fresh_pages _ _ _ [] _ int_pair_distinct) as ((Hxy & Hxp & Hyp) & (Hdp & Hdx & Hdy) & _). simpl in Hdp, Hdx, Hdy.
  assert (∀ z, z ≠ x → z ≠ y → m1 !! z = m !! z) as Hm1' by (intros z H1 H2; destruct Hm1 as [-> | ->]; by rewrite !lookup_insert_ne).
  assert (m1 !! x = Some (PageInternal px')) as Hx1 by (destruct Hm1 as [-> | ->]; find_page).
  eapply (merge_int_refitted lmax imax m _ h parent par a b x y lo mid hi lo' hi' csx csy); try done.
  - rewrite <- pages_of_app. intros z Hz. rewrite !elem_of_cons in Hz.
    rewrite lookup_insert_ne, lookup_delete_ne by (intros ->; tauto). rewrite Hm2 by tauto. apply Hm1'; intros ->; tauto.
  - exists px'. split; [|done]. rewrite lookup_insert_ne, lookup_delete_ne by done. by rewrite Hm2.
  - eapply kids_agree; [exact Hk2|]. intros z Hz. rewrite lookup_insert_ne, lookup_delete_ne; [done|by intros ->..].
  - apply lookup_insert_eq.
Qed.

Lemma int_merge_ok (first : bool) uf pf left right nid r : (2 ≤ length (csx ++ csy))%nat → Z.of_nat (length (csx ++ csy)) ≤ imax →
  (if first then a = [] ∧ right = y else left = x) →
  tree_triple 2060 (mkView m [(if first then x else y, (uf, false)); (parent, (pf, false))] nid r)
    (int_merge (if first then x else y) uf pf (if first then 0 else Z.of_nat (length a) + 1) left right)
    (merged m (Datatypes.S h) parent par lo' hi' cs nid r pf).
Proof.
  intros Hmin Hlen Hcase. pose proof int_pair_distinct as Hdis.
  destruct (fresh_pages _ _ _ [] _ Hdis) as ((Hxy & Hxp & Hyp) & (Hdp & Hdx & Hdy) & Hndc & _). simpl in Hdp, Hdx, Hdy, Hndc.
  assert (min_children imax ≤ length (csx ++ csy))%nat as Hmin' by (pose proof (min_children_bounds imax); lia).
  destruct Hx as (px & Hpx & Hokx). destruct Hy as (py & Hpy & Hoky).
  pose proof (page_size_ok _ _ _ Hokx) as Hszx. pose proof (page_size_ok _ _ _ Hoky) as Hszy.
  pose proof Hokx as [Hshx Hmaxx Hparx Hkeyx]. pose proof Hoky as [Hshy _ _ _].
  destruct (parent_key _ _ _ _ _ _ _ _ _ Hok) as (sep & Hmid & Hsep).
  destruct (first_child py sep Hoky Hmid) as (y0 & ds & k0 & q0 & t & Hcsy & Hey & Hk2 & Hloy).
  destruct (int_move_all_ok sep py px k0 q0 t Hshy Hshx) as (py' & px' & Hmove & Hshx' & _ & Hex' & [Hpx' Hmx']); [rewrite length_app in Hlen; lia|done|].
  assert (int_page_ok imax px' parent (heads (csx ++ csy))) as Hokx'.
  { split; [done|congruence|congruence|]. rewrite Hex', heads_app, Hcsy. eapply keyed_join; [done|exact Hk2|done]. }
  destruct (parent_remove _ _ _ _ _ _ _ _ _ Hok) as (q & Hq & Hokq). unfold int_merge. destruct first.
  - destruct Hcase as [Ha0 ->]. rewrite Ha0 in Hq, Hsep. simpl in Hq, Hsep.
    reads_internal 1%nat. eapply triple_bind_lift; [exact Hsep|].
    eapply call_triple; [apply fetch_deref_rule; [by eexists|simpl; set_solver|simpl; lia]|lia|]. intros rf v ->.
    reads_internal 0%nat. reads_internal 1%nat. eapply triple_bind_lift; [exact Hmove|]. cbn beta iota. writes 0%nat. writes 1%nat. set (m1 := <[x := _]> _).
    eapply (seq_triple _ _ 2040); [eapply (adopt_ok m1 h x px' parent (csx ++ csy) _ 1%nat); [unfold m1; find_page|exact Hokx'| |by constructor|reflexivity|simpl; lia|]|lia|].
    { apply int_pair_orphans. intros z H1 H2 H3. unfold m1. by rewrite !lookup_insert_ne. }
    { simpl. intros z Hz. rewrite !elem_of_cons, elem_of_nil in Hz. by destruct Hz as [->|[->|[->|]]]. }
    intros _ v (m2 & -> & Hkids & Hm2). assert (m2 !! parent = Some (PageInternal p)) as Hp2 by (rewrite Hm2 by done; unfold m1; find_page).
    unpins 0%nat. eapply call_triple; [apply delete_rule_v; simpl; set_solver|lia|]. intros _ v [_ ->].
    reads_internal 1%nat. eapply triple_bind_lift; [exact Hq|]. writes 1%nat. unpins 0%nat. apply ret_triple; [lia|].
    eapply (int_merged px' py' q m1 m2); try done. by left.
  - subst left. rewrite (proj2 (Z.eqb_neq _ _)) by lia.
    reads_internal 1%nat. eapply triple_bind_lift; [exact Hsep|].
    eapply call_triple; [apply fetch_deref_rule; [by eexists|simpl; set_solver|simpl; lia]|lia|]. intros lf v ->.
    reads_internal 0%nat. reads_internal 1%nat. eapply triple_bind_lift; [exact Hmove|]. cbn beta iota. writes 1%nat. writes 0%nat. set (m1 := <[x := _]> _).
    eapply (seq_triple _ _ 2040); [eapply (adopt_ok m1 h x px' parent (csx ++ csy) _ 0%nat); [unfold m1; find_page|exact Hokx'| |by constructor|reflexivity|simpl; lia|]|lia|].
    { apply int_pair_orphans. intros z H1 H2 H3. unfold m1. by rewrite !lookup_insert_ne. }
    { simpl. intros z Hz. rewrite !elem_of_cons, elem_of_nil in Hz. by destruct Hz as [->|[->|[->|]]]. }
    intros _ v (m2 & -> & Hkids & Hm2). assert (m2 !! parent = Some (PageInternal p)) as Hp2 by (rewrite Hm2 by done; unfold m1; find_page).
    unpins 0%nat. unpins 0%nat. eapply call_triple; [apply delete_rule_v; simpl; set_solver|lia|]. intros _ v [_ ->].
    reads_internal 0%nat. eapply triple_bind_lift; [exact Hq|].
    eapply mono_triple; [eapply (write_rule_v _ _ _ _ _ _ 0); [reflexivity|find_page]|lia|]. intros [] v ->. next_call.
    eapply (int_merged px' py' q m1 m2); try done. by left.
Qed.
End Pair.

(** No child comes from the right: there is no neighbour, or it has none to spare. *)
Lemma int_borrow_right_declines m under uf parent pf index right nid r :
  let l := [(under, (uf, false)); (parent, (pf, false))] in
  (right = INVALID_PAGE_ID ∨ (right ∉ l.*1 ∧ ∃ p, m !! right = Some (PageInternal p) ∧ max_size_ (i_hdr p) = imax ∧
    Internal.GetSize p ≤ internal_min_size imax)) →
  tree_triple 4 (mkView m l nid r) (int_borrow_right under uf parent pf index right) (λ b v, b = false ∧ v = mkView m l nid r).
Proof.
  intros l H. unfold int_borrow_right. destruct (Z.eqb_spec right INVALID_PAGE_ID) as [|Hne]; [by apply ret_triple|].
  destruct H as [?|(Hin & p & Hp & Hmax & Hsz)]; [done|].
  eapply call_triple; [apply fetch_deref_rule; [by eexists|done|simpl; lia]|lia|]. intros rf v ->.
  reads_internal 0%nat. rewrite Hmax, (proj2 (Z.ltb_ge _ _)) by done. unpins 0%nat. by apply ret_triple; [lia|].
Qed.
End IntPairs.
