(* ===== verification/BPlusRemove.v ===== *)
(** * Removal from the B+ tree

    [Remove] of [b_plus_tree.cpp] on well-formed trees: the descent to a leaf, the
    removal there, and the loop that cures the pages that have become too small, from the
    leaf up.  The loop is right as long as no internal page on the way has to take a child
    from its right neighbour; where it has to, keys are lost
    ([BPlusTree.btree_remove_loses_keys]). *)

From S2P Require Import Prelude Common SortedAssoc PageStore PageIO PageLogic BPlusPage BPlusTree TreeLogic.
From S2P Require Import BPlusShape BPlusSplit BPlusInsert BPlusRefit BPlusBorrow BPlusIntBorrow.
From S2P Require Disk BufferPool.

(** ** Pages that do not have to take from the right *)

Definition page_size (m : gmap Z IndexPage) (pid : Z) : Z :=
  match m !! pid with Some (PageInternal p) => Internal.GetSize p | Some (PageLeaf p) => Leaf.GetSize p | _ => 0 end.

(** The page has a child to spare. *)
Definition spares (imax : Z) m pid : bool := internal_min_size imax <? page_size m pid.

(** The child [x] of the page [p] has a child to spare itself, or its left neighbour
    has, or its right neighbour has none. *)
Definition calm_child (imax : Z) m (p : InternalPage) (x : Z) : bool :=
  match Internal.ValueIndex p x with
  | Ok i =>
      spares imax m x
      || ((0 <? i) && match Internal.ValueAt p (i - 1) with Ok y => spares imax m y | _ => false end)
      || negb ((i + 1 <? Internal.GetSize p) && match Internal.ValueAt p (i + 1) with Ok y => spares imax m y | _ => false end)
  | _ => false
  end.

(** This holds of all the internal pages on the way from [cur], of height [h], to [key]. *)
Fixpoint calm (imax : Z) m (h : nat) (cur key : Z) : bool :=
  match h with
  | Datatypes.S (Datatypes.S _ as h) =>
      match m !! cur with
      | Some (PageInternal p) =>
          match Internal.Lookup p key with Ok x => calm_child imax m p x && calm imax m h x key | _ => false end
      | _ => true
      end
  | _ => true
  end.

Section Remove.
Context {Pool : Type} `{PIO : !PageIO IndexPage Pool} (lmax imax : Z).
Context (frames : 4 ≤ io_frames).
Context (leaf_sizes : 2 ≤ lmax < LEAF_SLOTS) (int_sizes : 3 ≤ imax < INTERNAL_SLOTS).
Implicit Types (m : gmap Z IndexPage) (v : View) (G F : frame) (path : list frame) (cs : list child) (es : leaf_array).
Local Abbreviation tree_triple := (triple (S := BPlusTree Pool) (view_rel lmax imax)).
Local Abbreviation sub := (BPlusShape.sub lmax imax).
Local Abbreviation kids := (BPlusShape.kids lmax imax).
Local Abbreviation above := (BPlusShape.above lmax imax).
Local Abbreviation whole := (BPlusSplit.whole lmax imax).
Local Abbreviation leaf_at := (BPlusRefit.leaf_at lmax).
Local Abbreviation int_at := (BPlusRefit.int_at imax).
Local Abbreviation refitted := (BPlusRefit.refitted lmax imax).
Local Abbreviation borrowed := (BPlusBorrow.borrowed lmax imax).
Local Abbreviation merged := (BPlusBorrow.merged lmax imax).
Local Abbreviation min_size := (internal_min_size imax).

Lemma first_or_none {A} (l : list A) : l = [] ∨ ∃ x l', l = x :: l'.
Proof. destruct l; eauto. Qed.
Lemma last_or_none {A} (l : list A) : l = [] ∨ ∃ l' x, l = l' ++ [x].
Proof. destruct l as [|x l _] using rev_ind; eauto. Qed.

Lemma three_frames : 3 ≤ io_frames.
Proof. lia. Qed.

(** ** A page in the tree *)

(** An internal page with these children in its place below [path]. *)
Record place m h path cur lo hi cs : Prop := {
  pl_above : above m (S h) path cur lo hi;
  pl_nodup : NoDup ((cur :: pages_of cs) ++ above_pages path);
  pl_pos : Forall (λ p, 0 ≤ p) ((cur :: pages_of cs) ++ above_pages path);
  pl_links : links (fill path (leaves_of cs))
}.
(** All is well, but it may have too few children. *)
Record node m h path cur lo hi cs : Prop := {
  nd_place : place m h path cur lo hi cs;
  nd_page : int_at m cur (par_of path) cs;
  nd_linked : linked lo cs hi;
  nd_kids : kids m h cur cs;
  nd_some : cs ≠ [];
  nd_max : Z.of_nat (length cs) ≤ imax
}.

Lemma refit_node m m' h path cur lo hi cs cs' : place m h path cur lo hi cs → refitted m h cur (par_of path) lo hi cs cs' m' →
  cs' ≠ [] → Z.of_nat (length cs') ≤ imax →
  node m' h path cur lo hi cs' ∧ lents (fill path (leaves_of cs')) = lents (fill path (leaves_of cs)) ∧ ∀ q, q ∈ above_pages path → m' !! q = m !! q.
Proof.
  intros [Ha Hnd Hpos Hl] [Hpage Hlinked Hkids (gone & Hgone) Hents Hlinks Hsame] Hne Hmax.
  assert (∀ q, q ∈ above_pages path → m' !! q = m !! q) as Hag.
  { intros q Hq. apply Hsame. intros Hin. apply NoDup_app in Hnd as (_ & Hd & _). by apply (Hd q Hin). }
  assert ((cur :: pages_of cs) ++ above_pages path ≡ₚ gone ++ (cur :: pages_of cs') ++ above_pages path) as Hperm by (rewrite Hgone; solve_Permutation).
  destruct (fill_range lmax imax _ _ _ _ _ _ Ha) as (A & B & Hfill & _). rewrite !Hfill in *.
  split_and!; [split; [split| | | | |]|by rewrite !lents_app, Hents|exact Hag]; try done.
  - by eapply above_agree.
  - rewrite Hperm in Hnd. by apply NoDup_app in Hnd as (_ & _ & ?).
  - rewrite Hperm in Hpos. by apply Forall_app in Hpos as [_ ?].
  - rewrite Hfill. by apply Hlinks.
Qed.

(** The work is done. *)
Definition settled (E : leaf_array) nid (n : nat) v : Prop :=
  ∃ m' root h' ls, v = mkView m' [] nid root ∧ whole m' h' root ls ∧ links ls ∧ lents ls = E ∧ (h' ≤ n)%nat.

Lemma node_settled m h path cur lo hi cs nid : node m h path cur lo hi cs → (min_children imax ≤ length cs)%nat →
  settled (lents (fill path (leaves_of cs))) nid (S h + length path) (mkView m [] nid (root_of path cur)).
Proof.
  intros [[Ha Hnd Hpos Hl] Hpage Hlinked Hkids Hne Hmax] Hmin. exists m, (root_of path cur), (S h + length path)%nat, (fill path (leaves_of cs)).
  split_and!; [done| |done|done|lia]. eapply close_whole; [|exact Ha|exact Hnd|exact Hpos]. by apply int_sub.
Qed.

(** After an iteration of the loop: all is done, or the parent has become too small. *)
Definition cured m h path cur lo hi cs nid (n : nat) (res : step_result) v : Prop :=
  let E := lents (fill path (leaves_of cs)) in
  match res with
  | Finished => settled E nid n v
  | GoUp pid => pid = cur ∧ path ≠ [] ∧ ∃ m' cs', v = mkView m' [] nid (root_of path cur) ∧ node m' h path cur lo hi cs' ∧
      lents (fill path (leaves_of cs')) = E ∧ (∀ q, q ∈ above_pages path → m' !! q = m !! q) ∧
      Z.of_nat (length cs') < min_size ∧ S (length cs') = length cs
  end.

Lemma borrowed_cured m h path cur lo hi cs nid l few v : place m h path cur lo hi cs → Z.of_nat (length cs) ≤ imax → (2 ≤ length cs)%nat →
  borrowed m h cur (par_of path) lo hi cs nid (root_of path cur) l few true v → cured m h path cur lo hi cs nid (S h + length path) Finished v.
Proof.
  intros Hpl Hmax Hlen (m' & cs' & -> & Hrf & Heq). pose proof (min_children_bounds imax).
  destruct (refit_node _ _ _ _ _ _ _ _ _ Hpl Hrf) as (Hnd & HE & _); [by intros ->; simpl in *; lia|lia|].
  unfold cured. rewrite <- HE. eapply node_settled; [done|lia].
Qed.
(** The root that has one child left gives way to it. *)
Lemma only_child_ok p par c lo hi : int_page_ok imax p par (heads [c]) → linked lo [c] hi →
  Internal.RemoveAndReturnOnlyChild p = Ok (c_pid c, Internal.SetSize 0 p) ∧ c_lo c = lo ∧ c_hi c = hi.
Proof.
  intros Hok [Hlo Hhi]. split; [|done]. pose proof (page_size_ok _ _ _ _ Hok) as Hsz. destruct Hok as [Hsh _ _ Hk].
  unfold Internal.RemoveAndReturnOnlyChild. rewrite Hsz. cbn [length Z.of_nat Pos.of_succ_nat Z.eqb Pos.eqb negb].
  destruct (int_entries p) as [|[k q] l] eqn:He; [done|]. destruct Hk as [-> _].
  pose proof (int_value_at_ok p 0 k (c_pid c)) as Hv. rewrite He in Hv. by rewrite (Hv eq_refl : Internal.ValueAt p 0 = _).
Qed.

Lemma shrink_ok m h path cur lo hi cs0 cs pf nid m0 : node m h path cur lo hi cs →
  lents (fill path (leaves_of cs)) = lents (fill path (leaves_of cs0)) → (∀ q, q ∈ above_pages path → m !! q = m0 !! q) → S (length cs) = length cs0 →
  tree_triple 10 (mkView m [(cur, (pf, true))] nid (root_of path cur)) (shrink_root_or_go_up cur pf)
    (cured m0 h path cur lo hi cs0 nid (S h + length path)).
Proof.
  intros Hnode HE Hag Hlen. pose proof Hnode as [[Ha Hnd Hpos Hl] (p & Hp & Hok) Hlinked Hkids Hne Hmax].
  pose proof (page_size_ok _ _ _ _ Hok) as Hsz. pose proof (internal_min_bounds imax int_sizes) as [Hmin _]. pose proof (min_children_bounds imax).
  unfold shrink_root_or_go_up. reads_internal 0%nat. rewrite (ip_par _ _ _ _ Hok), Hsz. destruct path as [|F path]; cbn [par_of].
  - rewrite Z.eqb_refl. destruct (Z.eqb_spec (Z.of_nat (length cs)) 1) as [H1|H1].
    + destruct cs as [|c [|c2 cs2]]; [done| |simpl in H1; lia]. destruct (only_child_ok p _ c lo hi Hok Hlinked) as (Hr & Hlo & Hhi).
      eapply triple_bind_lift; [exact Hr|]. cbn beta iota. writes 0%nat. apply root_triple. cbn [v_pages v_pins v_next].
      apply Forall_cons in Hkids as [Hc _]. simpl in Hnd, Hpos. rewrite !app_nil_r in Hnd, Hpos.
      unfold pages_of in Hnd, Hpos. simpl in Hnd, Hpos. rewrite app_nil_r in Hnd, Hpos. apply NoDup_cons in Hnd as [Hcur Hndc]. apply Forall_cons in Hpos as [_ Hposc].
      assert (c_pid c ≠ cur) as Hcc by (intros <-; apply Hcur; by eapply sub_root).
      destruct Ha as [-> ->]. set (m1 := <[cur := _]> m).
      assert (sub m1 h (c_pid c) cur MinusInf PlusInf (c_leaves c) (c_pages c)) as Hc1.
      { rewrite <- Hlo, <- Hhi. eapply sub_agree; [exact Hc|]. intros q Hq. unfold m1. rewrite lookup_insert_ne; [done|]. by intros ->. }
      eapply (reparent_step lmax imax _ m1 h (c_pid c)); [apply fetches_deref|exact Hc1|exact Hndc|simpl; set_solver|simpl; lia|lia|].
      intros m2 Hc2 Hm2 _. unpins 0%nat.
      eapply call_triple; [apply delete_rule_v; simpl; set_solver|lia|]. intros _ v [_ ->]. apply ret_triple; [lia|].
      exists (delete cur m2), (c_pid c), h, (c_leaves c). split_and!; [done| | | |simpl; lia].
      * exists (c_pages c). split_and!; [|done|done]. eapply sub_agree; [exact Hc2|]. intros q Hq. rewrite lookup_delete_ne; [done|]. by intros ->.
      * unfold leaves_of in Hl. simpl in Hl. by rewrite app_nil_r in Hl.
      * rewrite <- HE. unfold leaves_of. simpl. by rewrite app_nil_r.
    + unpins 0%nat. apply ret_triple; [lia|]. unfold cured. rewrite <- HE. eapply node_settled; [done|]. destruct cs as [|? [|]]; [done|done|simpl; lia].
  - assert (f_pid F ≠ INVALID_PAGE_ID) as HF.
    { apply Forall_app in Hpos as [_ Hpos]. simpl in Hpos. apply Forall_cons in Hpos as [HF _]. unfold INVALID_PAGE_ID. lia. }
    rewrite (proj2 (Z.eqb_neq _ _) HF), (ip_max _ _ _ _ Hok). unpins 0%nat. apply ret_triple; [lia|].
    destruct (Z.ltb_spec (Z.of_nat (length cs)) min_size) as [Hlt|Hge].
    + split; [done|]. split; [done|]. by exists m, cs.
    + unfold cured. rewrite <- HE. eapply node_settled; [done|lia].
Qed.

Lemma merged_shrink m h path cur lo hi cs pf nid x v : place m h path cur lo hi cs → Z.of_nat (length cs) ≤ imax → (2 ≤ length cs)%nat →
  merged m h cur (par_of path) lo hi cs nid (root_of path cur) pf x v →
  tree_triple 10 v (shrink_root_or_go_up cur pf) (cured m h path cur lo hi cs nid (S h + length path)).
Proof.
  intros Hpl Hmax Hlen (m' & cs' & -> & Hrf & Heq).
  destruct (refit_node _ _ _ _ _ _ _ _ _ Hpl Hrf) as (Hnd & HE & Hag); [by intros ->; simpl in *; lia|lia|]. by eapply shrink_ok.
Qed.
(** ** An iteration of the loop *)

Definition left_of G : Z := match last (f_pre G) with Some c => c_pid c | None => INVALID_PAGE_ID end.
Definition right_of G : Z := match head (f_post G) with Some c => c_pid c | None => INVALID_PAGE_ID end.

(** The siblings that the parent names. *)
Lemma siblings p par G cur lo : int_page_ok imax p par (heads (f_pre G) ++ (cur, lo) :: heads (f_post G)) → (∀ c, c ∈ f_pre G → c_pid c ≠ cur) →
  let index := Z.of_nat (length (f_pre G)) in
  Internal.ValueIndex p cur = Ok index ∧
  (if 0 <? index then Internal.ValueAt p (index - 1) else Ok INVALID_PAGE_ID) = Ok (left_of G) ∧
  (if index + 1 <? Internal.GetSize p then Internal.ValueAt p (index + 1) else Ok INVALID_PAGE_ID) = Ok (right_of G).
Proof.
  intros [Hsh _ _ Hk] Hne. cbv zeta. set (a := f_pre G) in *. set (b := f_post G) in *.
  pose proof (int_entries_length p Hsh) as Hlen. rewrite (length_keyed _ _ Hk), length_app in Hlen. simpl in Hlen. unfold heads in Hlen. rewrite !length_fmap in Hlen.
  pose proof (keyed_pids _ _ Hk) as Hpids. rewrite fmap_app in Hpids. simpl in Hpids. rewrite !heads_pids in Hpids.
  assert (∀ i c, (c_pid <$> a ++ [mkChild cur lo lo [] []] ++ b) !! i = Some c → Internal.ValueAt p (Z.of_nat i) = Ok c) as Hat.
  { intros i c Hi. rewrite !fmap_app in Hi. simpl in Hi. rewrite <- Hpids, list_lookup_fmap in Hi.
    destruct (int_entries p !! i) as [[k q]|] eqn:E; [|done]. injection Hi as <-. by eapply int_value_at_ok. }
  destruct (keyed_app _ _ _ _ _ Hk) as (l1 & k & l2 & He & Hl1 & Hfst). unfold heads in Hl1. rewrite length_fmap in Hl1. split_and!.
  - rewrite <- Hl1. apply (int_value_index_ok p cur l1 k l2 Hsh He). intros e Hin Heq.
    assert (e.2 ∈ l1.*2) as Hin' by (by apply list_elem_of_fmap_2). rewrite Hfst, heads_pids in Hin'. apply list_elem_of_fmap in Hin' as (c & Hc & Hin').
    apply (Hne c Hin'). congruence.
  - unfold left_of. fold a. destruct a as [|c a] using rev_ind; [done|]. rewrite last_snoc, length_app. simpl length.
    rewrite (proj2 (Z.ltb_lt _ _)) by lia. replace (Z.of_nat (length a + 1) - 1) with (Z.of_nat (length a)) by lia. apply Hat.
    rewrite !fmap_app. rewrite <- app_assoc. rewrite lookup_app_r by (by rewrite length_fmap). by rewrite length_fmap, Nat.sub_diag.
  - unfold right_of. fold b. destruct b as [|c b]; [simpl in Hlen; by rewrite (proj2 (Z.ltb_ge _ _)) by lia|].
    simpl in Hlen. rewrite (proj2 (Z.ltb_lt _ _)) by lia. replace (Z.of_nat (length a) + 1) with (Z.of_nat (S (length a))) by lia. apply Hat.
    rewrite !fmap_app, lookup_app_r by (rewrite length_fmap; lia). rewrite length_fmap. by replace (S (length a) - length a)%nat with 1%nat by lia.
Qed.

Lemma lift_if_triple {A B} n v (b : bool) (r : res A) x y (f : A → ST (BPlusTree Pool) B) (Q : B → View → Prop) :
  (if b then r else Ok x) = Ok y → tree_triple n v (f y) Q → tree_triple n v ((if b then st_lift r else mret x) ≫= f) Q.
Proof. destruct b; intros H Hf; [by eapply triple_bind_lift|]. injection H as ->. by apply ret_bind_triple. Qed.

Lemma underflow_step m h G path cur lo hi d fuel nid r n (Q : unit → View → Prop) :
  above m h (G :: path) cur lo hi → m !! cur = Some d → parent_page_id_ (as_page d) = f_pid G → cur ∉ above_pages (G :: path) →
  Forall (λ p, 0 ≤ p) (above_pages (G :: path)) → 5 ≤ n →
  (∀ pf, tree_triple (n - 5) (mkView m [(f_pid G, (pf, false))] nid r)
     (res ← (if IsLeafPage (as_page d) then fix_leaf cur (f_pid G) pf (Z.of_nat (length (f_pre G))) (left_of G) (right_of G)
             else fix_internal cur (f_pid G) pf (Z.of_nat (length (f_pre G))) (left_of G) (right_of G));
      match res with Finished => mret tt | GoUp pid => underflow_loop fuel pid end) Q) →
  tree_triple n (mkView m [] nid r) (underflow_loop (S fuel) cur) Q.
Proof.
  intros Ha Hd Hpar Hcur Hpos Hn Hk. cbn [underflow_loop]. pose proof Ha as (p & lo' & hi' & Hp & Hok & _ & _ & _ & _ & Hk1 & _).
  assert (f_pid G ≠ INVALID_PAGE_ID) as HG by (simpl in Hpos; apply Forall_cons in Hpos as [HG _]; unfold INVALID_PAGE_ID; lia).
  destruct (siblings p _ G cur lo Hok) as (Hi & Hleft & Hright).
  { intros c Hc <-. apply Hcur. simpl. right. apply elem_of_app. left. apply in_pages_of. exists c. split; [done|].
    eapply sub_root. by eapply (proj1 (Forall_forall _ _)) in Hk1. }
  eapply call_triple; [by apply fetch_throw_rule; [eexists|apply not_elem_of_nil|simpl; lia]|lia|]. intros uf v ->.
  eapply call_triple; [by eapply (read_page_rule _ _ _ _ _ _ 0%nat)|lia|]. intros y v [-> ->]. rewrite Hpar. cbv zeta.
  unpins 0%nat. rewrite (proj2 (Z.eqb_neq _ _) HG).
  eapply call_triple; [by apply fetch_throw_rule; [eexists|apply not_elem_of_nil|simpl; lia]|lia|]. intros pf v ->.
  reads_internal 0%nat. eapply triple_bind_lift; [exact Hi|]. eapply lift_if_triple; [exact Hleft|]. eapply lift_if_triple; [exact Hright|].
  replace (n - 1 - 1 - 1 - 1 - 1) with (n - 5) by lia. apply Hk.
Qed.
(** *** A leaf that has become too small *)

Section Leaf.
Context (m : gmap Z IndexPage) (path : list frame) (G : frame) (cur : Z) (es : leaf_array) (nxt : Z) (lo hi lo' hi' : bound) (p : InternalPage).
Let cs : list child := f_pre G ++ leaf_child cur lo hi es nxt :: f_post G.
Context (Hpl : place m 0 path (f_pid G) lo' hi' cs) (Hp : m !! f_pid G = Some (PageInternal p)).
Context (Hok : int_page_ok imax p (par_of path) (heads (f_pre G) ++ (cur, lo) :: heads (f_post G))).
Context (Hmax : Z.of_nat (length cs) ≤ imax) (Hmin : (2 ≤ length cs)%nat) (Hlinked : linked lo' cs hi').
Context (Hpre : kids m 0 (f_pid G) (f_pre G)) (Hpost : kids m 0 (f_pid G) (f_post G)).
Context (Hleaf : leaf_at m cur (f_pid G) es nxt) (Hr : ∀ e, e ∈ es → in_range lo hi e.1) (kc : Z) (Hkc : in_range lo hi kc) (Hlen : Z.of_nat (length es) < lmax).

Lemma ends_linked : linked lo' (f_pre G) lo ∧ linked hi (f_post G) hi'.
Proof. pose proof Hlinked as H. apply linked_app in H as (z & H1 & <- & H2). done. Qed.

Lemma child_page c : c ∈ cs → c_pid c ∈ c_pages c → c_pid c ≠ INVALID_PAGE_ID.
Proof.
  intros Hc Hin. pose proof (pl_pos _ _ _ _ _ _ _ Hpl) as Hpos. rewrite Forall_forall in Hpos. assert (0 ≤ c_pid c); [|unfold INVALID_PAGE_ID; lia].
  apply Hpos. apply elem_of_app. left. right. apply in_pages_of. eauto.
Qed.

(** What is known of a neighbouring leaf. *)
Definition neighbour (c : child) clo chi ces cn : Prop :=
  c = leaf_child (c_pid c) clo chi ces cn ∧ leaf_at m (c_pid c) (f_pid G) ces cn ∧ Z.of_nat (length ces) ≤ lmax ∧ ces ≠ [] ∧
  (∀ e, e ∈ ces → in_range clo chi e.1) ∧ (∃ k, in_range clo chi k) ∧ c_pid c ≠ INVALID_PAGE_ID.

Lemma neighbour_intro c : c ∈ cs → sub m 0 (c_pid c) (f_pid G) (c_lo c) (c_hi c) (c_leaves c) (c_pages c) → ∃ ces cn, neighbour c (c_lo c) (c_hi c) ces cn.
Proof.
  intros Hc Hs. pose proof (child_page c Hc (sub_root _ _ _ _ _ _ _ _ _ _ Hs)) as Hi.
  destruct (sub_leaf_child _ _ _ _ _ Hs) as (ces & cn & Hce & Hat & Hl & Hne & Hrange). exists ces, cn. split_and!; try done.
  destruct ces as [|e ces]; [done|]. exists e.1. apply Hrange. by left.
Qed.
Lemma next_leaf c b : f_post G = c :: b → ∃ ces cn, neighbour c hi (c_hi c) ces cn.
Proof.
  intros He. destruct ends_linked as [_ Hl]. pose proof Hpost as Hk. rewrite He in Hl, Hk. destruct Hl as [Hlo _]. apply Forall_cons in Hk as [Hc _]. rewrite <- Hlo.
  apply neighbour_intro; [|done]. unfold cs. rewrite He. set_solver.
Qed.
Lemma prev_leaf c a : f_pre G = a ++ [c] → ∃ ces cn, neighbour c (c_lo c) lo ces cn.
Proof.
  intros He. destruct ends_linked as [Hl _]. pose proof Hpre as Hk. rewrite He in Hl, Hk. apply linked_app in Hl as (z & _ & _ & Hhi). rewrite <- Hhi.
  apply Forall_app in Hk as [_ [Hc _]%Forall_cons]. apply neighbour_intro; [|done]. unfold cs. rewrite He. set_solver.
Qed.

Lemma cur_valid : cur ≠ INVALID_PAGE_ID.
Proof. apply (child_page (leaf_child cur lo hi es nxt)); [unfold cs; set_solver|by left]. Qed.
Lemma distinct_pages : NoDup (f_pid G :: pages_of cs).
Proof. pose proof (pl_nodup _ _ _ _ _ _ _ Hpl) as H. by apply NoDup_app in H as [? _]. Qed.

(** The right neighbour has no entry to spare. *)
Definition few_right : Prop := match f_post G with [] => True | c :: _ => Z.of_nat (length (lents (c_leaves c))) ≤ leaf_min_size lmax end.

Lemma leaf_right uf pf nid r : let l := [(cur, (uf, false)); (f_pid G, (pf, false))] in
  tree_triple 12 (mkView m l nid r) (leaf_borrow_right cur uf (f_pid G) pf (Z.of_nat (length (f_pre G))) (right_of G))
    (borrowed m 0 (f_pid G) (par_of path) lo' hi' cs nid r l few_right).
Proof.
  intros l. pose proof cur_valid as Hcur. unfold right_of, few_right. destruct (first_or_none (f_post G)) as [He|(c & b & He)]; rewrite He; [by apply ret_triple|].
  destruct (next_leaf c b He) as (ces & cn & Hc & Hat & Hl & Hne & Hrange & (k & Hk) & Hi). simpl head.
  assert (cs = f_pre G ++ leaf_child cur lo hi es nxt :: leaf_child (c_pid c) hi (c_hi c) ces cn :: b) as Hcs by (unfold cs; by rewrite He, <- Hc).
  assert (lents (c_leaves c) = ces) as -> by (rewrite Hc; unfold lents; simpl; by rewrite app_nil_r).
  pose proof distinct_pages as Hnd. pose proof Hlinked as Hln. pose proof Hok as Hok'. pose proof Hpost as Hpost'. rewrite He in Hok', Hpost'.
  change (heads (c :: b)) with ((c_pid c, c_lo c) :: heads b) in Hok'. assert (c_lo c = hi) as Hlo by (by rewrite Hc). rewrite Hlo in Hok'.
  rewrite Hcs in *. eapply (leaf_borrow_right_ok lmax imax three_frames leaf_sizes int_sizes); try done; by apply Forall_cons in Hpost' as [_ ?].
Qed.
(** The left neighbour has no entry to spare. *)
Definition few_left : Prop := match last (f_pre G) with None => True | Some c => Z.of_nat (length (lents (c_leaves c))) ≤ leaf_min_size lmax end.

Lemma leaf_left uf pf nid r : let l := [(cur, (uf, false)); (f_pid G, (pf, false))] in
  tree_triple 12 (mkView m l nid r) (leaf_borrow_left cur uf (f_pid G) pf (Z.of_nat (length (f_pre G))) (left_of G))
    (borrowed m 0 (f_pid G) (par_of path) lo' hi' cs nid r l few_left).
Proof.
  intros l. pose proof cur_valid as Hcur. unfold left_of, few_left. destruct (last_or_none (f_pre G)) as [He|(a & c & He)]; rewrite He; [by apply ret_triple|].
  destruct (prev_leaf c a He) as (ces & cn & Hc & Hat & Hl & Hne & Hrange & (k & Hk) & Hi). rewrite last_snoc, length_app. simpl length.
  assert (cs = a ++ leaf_child (c_pid c) (c_lo c) lo ces cn :: leaf_child cur lo hi es nxt :: f_post G) as Hcs by (unfold cs; rewrite He, <- app_assoc, <- Hc; done).
  assert (lents (c_leaves c) = ces) as -> by (rewrite Hc; unfold lents; simpl; by rewrite app_nil_r).
  pose proof distinct_pages as Hnd. pose proof Hlinked as Hln. pose proof Hok as Hok'. pose proof Hpre as Hpre'. rewrite He in Hok', Hpre'.
  rewrite heads_app, <- app_assoc in Hok'. change (heads [c] ++ (cur, lo) :: heads (f_post G)) with ((c_pid c, c_lo c) :: (cur, lo) :: heads (f_post G)) in Hok'.
  rewrite Nat2Z.inj_add. rewrite Hcs in *. eapply (leaf_borrow_left_ok lmax imax three_frames leaf_sizes int_sizes); try done. by apply Forall_app in Hpre' as [? _].
Qed.

Lemma leaf_joins uf pf nid r : let l := [(cur, (uf, false)); (f_pid G, (pf, false))] in
  Z.of_nat (length es) < leaf_min_size lmax → few_left → few_right →
  tree_triple 12 (mkView m l nid r) (leaf_merge cur uf pf (Z.of_nat (length (f_pre G))) (left_of G) (right_of G))
    (merged m 0 (f_pid G) (par_of path) lo' hi' cs nid r pf).
Proof.
  intros l Hes Hleft Hright. pose proof cur_valid as Hcur. pose proof distinct_pages as Hnd. pose proof Hlinked as Hln. pose proof Hok as Hok'.
  pose proof (leaf_min_bounds lmax leaf_sizes) as [_ Hmin2]. unfold left_of, right_of, few_left, few_right in *.
  destruct (last_or_none (f_pre G)) as [He|(a & c & He)].
  - destruct (first_or_none (f_post G)) as [Hf|(c & b & Hf)]; [exfalso; unfold cs in Hmin; rewrite He, Hf in Hmin; simpl in Hmin; lia|].
    destruct (next_leaf c b Hf) as (ces & cn & Hc & Hat & Hl & Hne & Hrange & (k & Hk) & Hi).
    assert (cs = [] ++ leaf_child cur lo hi es nxt :: leaf_child (c_pid c) hi (c_hi c) ces cn :: b) as Hcs by (unfold cs; by rewrite He, Hf, <- Hc).
    rewrite Hf in Hright. assert (lents (c_leaves c) = ces) as Hents by (rewrite Hc; unfold lents; simpl; by rewrite app_nil_r). rewrite Hents in Hright.
    assert (c_lo c = hi) as Hlo by (by rewrite Hc). rewrite He, Hf in Hok'. change (heads (c :: b)) with ((c_pid c, c_lo c) :: heads b) in Hok'. rewrite Hlo in Hok'.
    pose proof Hpost as Hk2. rewrite Hf in Hk2. apply Forall_cons in Hk2 as [_ Hk2].
    rewrite He, Hf. rewrite Hcs in *. simpl last. simpl head. change (Z.of_nat (length (@nil child))) with 0.
    eapply (leaf_merge_ok lmax imax three_frames leaf_sizes int_sizes m (f_pid G) (par_of path) p [] b cur (c_pid c) lo hi (c_hi c) lo' hi' es ces nxt cn)
      with (first := true); try done; [by constructor|by intros [_ ?]%app_nil|rewrite length_app; lia].
  - destruct (prev_leaf c a He) as (ces & cn & Hc & Hat & Hl & Hne & Hrange & (k & Hk) & Hi).
    assert (cs = a ++ leaf_child (c_pid c) (c_lo c) lo ces cn :: leaf_child cur lo hi es nxt :: f_post G) as Hcs by (unfold cs; rewrite He, <- app_assoc, <- Hc; done).
    rewrite He, last_snoc in Hleft. assert (lents (c_leaves c) = ces) as Hents by (rewrite Hc; unfold lents; simpl; by rewrite app_nil_r). rewrite Hents in Hleft.
    rewrite He in Hok'. rewrite heads_app, <- app_assoc in Hok'.
    change (heads [c] ++ (cur, lo) :: heads (f_post G)) with ((c_pid c, c_lo c) :: (cur, lo) :: heads (f_post G)) in Hok'.
    pose proof Hpre as Hk1. rewrite He in Hk1. apply Forall_app in Hk1 as [Hk1 _].
    rewrite He, last_snoc, length_app, Nat2Z.inj_add. change (Z.of_nat (length [c])) with 1. rewrite Hcs in *.
    eapply (leaf_merge_ok lmax imax three_frames leaf_sizes int_sizes m (f_pid G) (par_of path) p a (f_post G) (c_pid c) cur (c_lo c) lo hi lo' hi' ces es cn nxt)
      with (first := false); try done; [by intros [? _]%app_nil|rewrite length_app; lia].
Qed.

Lemma fix_leaf_ok pf nid :
  tree_triple 60 (mkView m [(f_pid G, (pf, false))] nid (root_of path (f_pid G)))
    (fix_leaf cur (f_pid G) pf (Z.of_nat (length (f_pre G))) (left_of G) (right_of G))
    (cured m 0 path (f_pid G) lo' hi' cs nid (1 + length path)).
Proof.
  unfold fix_leaf. destruct Hleaf as (pu & Hpu & [[Hshu Hsu] Hmaxu _ Heu _]). pose proof (leaf_entries_length pu Hshu) as Hsz. rewrite Heu in Hsz.
  pose proof (leaf_min_bounds lmax leaf_sizes) as [Hmin1 _].
  eapply call_triple; [apply fetch_deref_rule; [by eexists| |simpl; pose proof three_frames; lia]|lia|].
  { intros Heq%list_elem_of_singleton. simpl in Heq. rewrite Heq, Hp in Hpu. done. }
  intros uf v ->. reads_leaf 0%nat. rewrite Hmaxu, <- Hsz. destruct (Z.leb_spec (leaf_min_size lmax) (Z.of_nat (length es))) as [Hge|Hlt].
  - unpins 0%nat. unpins 0%nat. apply ret_triple; [lia|]. eapply (node_settled _ 0).
    + split; [exact Hpl|exists p; split; [done|by unfold cs; rewrite heads_app]|done| |intros H; rewrite H in Hmin; simpl in Hmin; lia|done].
      unfold cs. apply Forall_app. split; [done|]. constructor; [|done]. apply leaf_sub; [done|lia|intros ->; simpl in *; lia|done].
    + pose proof (min_children_bounds imax). lia.
  - eapply seq_triple; [apply leaf_left|lia|]. intros [] v.
    { intros Hb. apply ret_triple; [lia|]. eapply (borrowed_cured _ 0); [done|done|done|exact Hb]. }
    intros [-> Hleft]. eapply seq_triple; [apply leaf_right|lia|]. intros [] v.
    { intros Hb. apply ret_triple; [lia|]. eapply (borrowed_cured _ 0); [done|done|done|exact Hb]. }
    intros [-> Hright]. eapply seq_triple; [by apply leaf_joins|lia|]. intros x v Hm.
    eapply mono_triple; [by eapply (merged_shrink _ 0)|lia|done].
Qed.
End Leaf.

(** *** An internal page that has become too small *)

(** The left neighbour has a child to spare, or the right one has none. *)
Definition spare_child m (c : option child) : bool := match c with Some c => spares imax m (c_pid c) | None => false end.
Definition patient m G : bool := spare_child m (last (f_pre G)) || negb (spare_child m (head (f_post G))).

Lemma int_at_size m pid par cs : int_at m pid par cs → page_size m pid = Z.of_nat (length cs).
Proof. intros (p & Hp & Hok). unfold page_size. rewrite Hp. by eapply page_size_ok. Qed.

Section Int.
Context (m : gmap Z IndexPage) (h : nat) (path : list frame) (G : frame) (cur : Z) (csu : list child) (lo hi lo' hi' : bound) (p : InternalPage).
Let cs : list child := f_pre G ++ int_child cur lo hi csu :: f_post G.
Context (Hpl : place m (S h) path (f_pid G) lo' hi' cs) (Hp : m !! f_pid G = Some (PageInternal p)).
Context (Hok : int_page_ok imax p (par_of path) (heads (f_pre G) ++ (cur, lo) :: heads (f_post G))).
Context (Hmax : Z.of_nat (length cs) ≤ imax) (Hmin : (2 ≤ length cs)%nat) (Hlinked : linked lo' cs hi').
Context (Hpre : kids m (S h) (f_pid G) (f_pre G)) (Hpost : kids m (S h) (f_pid G) (f_post G)).
Context (Hat : int_at m cur (f_pid G) csu) (Hlu : linked lo csu hi) (Hku : kids m h cur csu) (Hsome : csu ≠ []).
Context (Hfew : Z.of_nat (length csu) < min_size) (Hpatient : patient m G = true).

Lemma int_ends : linked lo' (f_pre G) lo ∧ linked hi (f_post G) hi'.
Proof. pose proof Hlinked as H. apply linked_app in H as (z & H1 & <- & H2). done. Qed.

Definition int_neighbour (c : child) clo chi ccs : Prop :=
  c = int_child (c_pid c) clo chi ccs ∧ int_at m (c_pid c) (f_pid G) ccs ∧ Z.of_nat (length ccs) ≤ imax ∧ ccs ≠ [] ∧
  linked clo ccs chi ∧ kids m h (c_pid c) ccs ∧ c_pid c ≠ INVALID_PAGE_ID ∧ c_pid c ∉ [cur; f_pid G].

Lemma int_distinct : NoDup (f_pid G :: pages_of cs).
Proof. pose proof (pl_nodup _ _ _ _ _ _ _ Hpl) as H. by apply NoDup_app in H as [? _]. Qed.

Lemma int_neighbour_intro c : c ∈ f_pre G ++ f_post G → sub m (S h) (c_pid c) (f_pid G) (c_lo c) (c_hi c) (c_leaves c) (c_pages c) →
  ∃ ccs, int_neighbour c (c_lo c) (c_hi c) ccs.
Proof.
  intros Hc Hs. pose proof (sub_root _ _ _ _ _ _ _ _ _ _ Hs) as Hroot. pose proof int_distinct as Hnd. pose proof (pl_pos _ _ _ _ _ _ _ Hpl) as Hpos.
  assert (c_pid c ∈ pages_of (f_pre G) ++ pages_of (f_post G)) as Hin by (rewrite <- pages_of_app; apply in_pages_of; eauto).
  assert (pages_of cs ≡ₚ cur :: pages_of csu ++ pages_of (f_pre G) ++ pages_of (f_post G)) as Hperm.
  { unfold cs. rewrite pages_of_app. change (pages_of (int_child cur lo hi csu :: f_post G)) with ((cur :: pages_of csu) ++ pages_of (f_post G)). solve_Permutation. }
  rewrite Hperm in Hnd, Hpos. apply NoDup_cons in Hnd as [Hn1 Hnd]. apply NoDup_cons in Hnd as [Hn2 Hnd].
  destruct (sub_int_child _ _ _ _ _ _ Hs) as (ccs & Hce & Hcat & Hl & Hne%enough_children & Hlc & Hk). exists ccs. split_and!; try done.
  - rewrite Forall_forall in Hpos. assert (0 ≤ c_pid c); [|unfold INVALID_PAGE_ID; lia]. apply Hpos.
    apply elem_of_app. left. right. right. apply elem_of_app. by right.
  - rewrite !elem_of_cons, elem_of_nil. intros [E|[E|[]]]; rewrite E in Hin.
    + apply Hn2, elem_of_app. by right.
    + apply Hn1. right. apply elem_of_app. by right.
Qed.
Lemma next_int c b : f_post G = c :: b → ∃ ccs, int_neighbour c hi (c_hi c) ccs.
Proof.
  intros He. destruct int_ends as [_ Hl]. pose proof Hpost as Hk. rewrite He in Hl, Hk. destruct Hl as [Hlo _]. apply Forall_cons in Hk as [Hc _]. rewrite <- Hlo.
  apply int_neighbour_intro; [|done]. rewrite He. apply elem_of_app. right. by left.
Qed.
Lemma prev_int c a : f_pre G = a ++ [c] → ∃ ccs, int_neighbour c (c_lo c) lo ccs.
Proof.
  intros He. destruct int_ends as [Hl _]. pose proof Hpre as Hk. rewrite He in Hl, Hk. apply linked_app in Hl as (z & _ & _ & Hhi). rewrite <- Hhi.
  apply Forall_app in Hk as [_ [Hc _]%Forall_cons]. apply int_neighbour_intro; [|done]. rewrite He. rewrite !elem_of_app. left. right. by left.
Qed.

Lemma int_cur_valid : cur ≠ INVALID_PAGE_ID.
Proof.
  pose proof (pl_pos _ _ _ _ _ _ _ Hpl) as Hpos. rewrite Forall_forall in Hpos. assert (0 ≤ cur); [|unfold INVALID_PAGE_ID; lia].
  apply Hpos, elem_of_app. left. right. apply in_pages_of. exists (int_child cur lo hi csu). split; [|by left]. apply elem_of_app. right. by left.
Qed.

Lemma int_left uf pf nid r : let l := [(cur, (uf, false)); (f_pid G, (pf, false))] in
  tree_triple 2060 (mkView m l nid r) (int_borrow_left cur uf (f_pid G) pf (Z.of_nat (length (f_pre G))) (left_of G))
    (borrowed m (S h) (f_pid G) (par_of path) lo' hi' cs nid r l (spare_child m (last (f_pre G)) = false)).
Proof.
  intros l. unfold left_of. destruct (last_or_none (f_pre G)) as [He|(a & c & He)]; rewrite He; [by apply ret_triple|].
  destruct (prev_int c a He) as (ccs & Hc & Hca & Hl & Hne & Hlc & Hkc & Hi & _). rewrite last_snoc, length_app. simpl length.
  assert (cs = a ++ int_child (c_pid c) (c_lo c) lo ccs :: int_child cur lo hi csu :: f_post G) as Hcs by (unfold cs; rewrite He, <- app_assoc, <- Hc; done).
  pose proof int_distinct as Hnd. pose proof Hlinked as Hln. pose proof Hok as Hok'. pose proof Hpre as Hpre'. rewrite He in Hok', Hpre'.
  rewrite heads_app, <- app_assoc in Hok'. change (heads [c] ++ (cur, lo) :: heads (f_post G)) with ((c_pid c, c_lo c) :: (cur, lo) :: heads (f_post G)) in Hok'.
  rewrite Nat2Z.inj_add. rewrite Hcs in *.
  eapply mono_triple; [eapply (int_borrow_left_ok lmax imax frames int_sizes m h (f_pid G) (par_of path) p a (f_post G) (c_pid c) cur (c_lo c) lo hi lo' hi' ccs csu); try done|lia|].
  - by apply Forall_app in Hpre' as [? _].
  - intros [] v; [done|]. intros [-> H]. split; [done|]. simpl. unfold spares. rewrite (int_at_size _ _ _ _ Hca). by apply Z.ltb_ge.
Qed.

Lemma int_right uf pf index nid r : let l := [(cur, (uf, false)); (f_pid G, (pf, false))] in
  spare_child m (last (f_pre G)) = false →
  tree_triple 4 (mkView m l nid r) (int_borrow_right cur uf (f_pid G) pf index (right_of G)) (λ b v, b = false ∧ v = mkView m l nid r).
Proof.
  intros l Hleft. pose proof Hpatient as Hright. unfold patient in Hright. rewrite Hleft in Hright. simpl in Hright. apply negb_true_iff in Hright.
  apply int_borrow_right_declines; [done|]. unfold right_of. destruct (first_or_none (f_post G)) as [He|(c & b & He)]; rewrite He in Hright |- *; [by left|right].
  destruct (next_int c b He) as (ccs & Hc & Hca & Hl & Hne & Hlc & Hkc & Hi & Hnin). split; [exact Hnin|].
  simpl in Hright. unfold spares in Hright. rewrite (int_at_size _ _ _ _ Hca) in Hright. apply Z.ltb_ge in Hright.
  destruct Hca as (q & Hq & Hqok). exists q. split; [done|]. split; [by apply ip_max in Hqok|]. by rewrite (page_size_ok _ _ _ _ Hqok).
Qed.

Lemma int_joins uf pf nid r : let l := [(cur, (uf, false)); (f_pid G, (pf, false))] in
  spare_child m (last (f_pre G)) = false →
  tree_triple 2060 (mkView m l nid r) (int_merge cur uf pf (Z.of_nat (length (f_pre G))) (left_of G) (right_of G))
    (merged m (S h) (f_pid G) (par_of path) lo' hi' cs nid r pf).
Proof.
  intros l Hleft. pose proof int_distinct as Hnd. pose proof int_cur_valid as Hcur. pose proof Hlinked as Hln. pose proof Hok as Hok'.
  pose proof (internal_min_bounds imax int_sizes) as [_ Hmin2]. pose proof Hpatient as Hright. unfold patient in Hright. rewrite Hleft in Hright.
  simpl in Hright. apply negb_true_iff in Hright. unfold left_of, right_of. assert (1 ≤ length csu)%nat as H1 by (destruct csu; [done|simpl; lia]).
  destruct (last_or_none (f_pre G)) as [He|(a & c & He)].
  - destruct (first_or_none (f_post G)) as [Hf|(c & b & Hf)]; [exfalso; unfold cs in Hmin; rewrite He, Hf in Hmin; simpl in Hmin; lia|].
    destruct (next_int c b Hf) as (ccs & Hc & Hca & Hl & Hne & Hlc & Hkc & Hi & _).
    assert (cs = [] ++ int_child cur lo hi csu :: int_child (c_pid c) hi (c_hi c) ccs :: b) as Hcs by (unfold cs; by rewrite He, Hf, <- Hc).
    rewrite Hf in Hright. simpl in Hright. unfold spares in Hright. rewrite (int_at_size _ _ _ _ Hca) in Hright. apply Z.ltb_ge in Hright.
    assert (c_lo c = hi) as Hlo by (by rewrite Hc). rewrite He, Hf in Hok'. change (heads (c :: b)) with ((c_pid c, c_lo c) :: heads b) in Hok'. rewrite Hlo in Hok'.
    pose proof Hpost as Hk2. rewrite Hf in Hk2. apply Forall_cons in Hk2 as [_ Hk2]. assert (1 ≤ length ccs)%nat as H2 by (destruct ccs; [done|simpl; lia]).
    rewrite He, Hf. rewrite Hcs in *. simpl last. simpl head. change (Z.of_nat (length (@nil child))) with 0.
    eapply (int_merge_ok lmax imax frames int_sizes m h (f_pid G) (par_of path) p [] b cur (c_pid c) lo hi (c_hi c) lo' hi' csu ccs) with (first := true); try done.
    all: rewrite ?length_app; first [lia|by constructor].
  - destruct (prev_int c a He) as (ccs & Hc & Hca & Hl & Hne & Hlc & Hkc & Hi & _).
    assert (cs = a ++ int_child (c_pid c) (c_lo c) lo ccs :: int_child cur lo hi csu :: f_post G) as Hcs by (unfold cs; rewrite He, <- app_assoc, <- Hc; done).
    rewrite He, last_snoc in Hleft. simpl in Hleft. unfold spares in Hleft. rewrite (int_at_size _ _ _ _ Hca) in Hleft. apply Z.ltb_ge in Hleft.
    rewrite He in Hok'. rewrite heads_app, <- app_assoc in Hok'.
    change (heads [c] ++ (cur, lo) :: heads (f_post G)) with ((c_pid c, c_lo c) :: (cur, lo) :: heads (f_post G)) in Hok'.
    pose proof Hpre as Hk1. rewrite He in Hk1. apply Forall_app in Hk1 as [Hk1 _]. assert (1 ≤ length ccs)%nat as H2 by (destruct ccs; [done|simpl; lia]).
    rewrite He, last_snoc, length_app, Nat2Z.inj_add. change (Z.of_nat (length [c])) with 1. rewrite Hcs in *.
    eapply (int_merge_ok lmax imax frames int_sizes m h (f_pid G) (par_of path) p a (f_post G) (c_pid c) cur (c_lo c) lo hi lo' hi' ccs csu) with (first := false); try done.
    all: rewrite ?length_app; lia.
Qed.

Lemma fix_internal_ok pf nid :
  tree_triple 4180 (mkView m [(f_pid G, (pf, false))] nid (root_of path (f_pid G)))
    (fix_internal cur (f_pid G) pf (Z.of_nat (length (f_pre G))) (left_of G) (right_of G))
    (cured m (S h) path (f_pid G) lo' hi' cs nid (S (S h) + length path)).
Proof.
  unfold fix_internal. destruct Hat as (pu & Hpu & Hoku). pose proof (page_size_ok _ _ _ _ Hoku) as Hsz. pose proof int_distinct as Hnd.
  eapply call_triple; [apply fetch_deref_rule; [by eexists| |simpl; pose proof three_frames; lia]|lia|].
  { intros Heq%list_elem_of_singleton. simpl in Heq. apply NoDup_cons in Hnd as [Hn _]. apply Hn.
    apply in_pages_of. exists (int_child cur lo hi csu). split; [apply elem_of_app; right; by left|]. rewrite <- Heq. by left. }
  intros uf v ->. reads_internal 0%nat. rewrite (ip_max _ _ _ _ Hoku), Hsz, (proj2 (Z.leb_gt _ _)) by lia.
  eapply seq_triple; [apply int_left|lia|]. intros [] v.
  { intros Hb. apply ret_triple; [lia|]. eapply (borrowed_cured _ (S h)); [done|done|done|exact Hb]. }
  intros [-> Hleft]. eapply seq_triple; [by apply int_right|lia|]. intros b v [-> ->].
  eapply seq_triple; [by apply int_joins|lia|]. intros x v Hm. eapply mono_triple; [by eapply (merged_shrink _ (S h))|lia|done].
Qed.
End Int.

(** ** The loop *)

(** Should the page [pid] below [path] lose a child, it need not take one from the right. *)
Definition calm_here m path pid : Prop := match path with G :: _ => min_size < page_size m pid ∨ patient m G = true | [] => True end.
Fixpoint calm_path m path : Prop := match path with [] => True | F :: path => calm_here m path (f_pid F) ∧ calm_path m path end.

Lemma page_size_agree m m' pid : m' !! pid = m !! pid → page_size m' pid = page_size m pid.
Proof. unfold page_size. by intros ->. Qed.

Lemma patient_agree m m' h G path cur lo hi : above m h (G :: path) cur lo hi → (∀ q, q ∈ above_pages (G :: path) → m' !! q = m !! q) →
  patient m' G = patient m G.
Proof.
  intros (p & lo' & hi' & _ & _ & _ & _ & _ & _ & Hk1 & Hk2 & _) Hag.
  assert (∀ c, c ∈ f_pre G ++ f_post G → spares imax m' (c_pid c) = spares imax m (c_pid c)) as Hs.
  { intros c Hc. unfold spares. f_equal. apply page_size_agree, Hag. simpl. right. rewrite app_assoc, <- pages_of_app. apply elem_of_app. left.
    apply in_pages_of. exists c. split; [done|]. assert (kids m h (f_pid G) (f_pre G ++ f_post G)) as Hk by (by apply Forall_app). unfold BPlusShape.kids in Hk.
    rewrite Forall_forall in Hk. eapply sub_root. by apply Hk. }
  unfold patient, spare_child. f_equal; [|f_equal].
  - destruct (last_or_none (f_pre G)) as [He|(a & c & He)]; rewrite He in Hs |- *; [done|]. rewrite last_snoc. apply Hs. set_solver.
  - destruct (first_or_none (f_post G)) as [He|(c & b & He)]; rewrite He in Hs |- *; [done|]. apply Hs. set_solver.
Qed.

Lemma calm_path_agree m m' path : ∀ h cur lo hi, above m h path cur lo hi → (∀ q, q ∈ above_pages path → m' !! q = m !! q) →
  calm_path m path → calm_path m' path.
Proof.
  induction path as [|F path IH]; [done|]. intros h cur lo hi Ha Hag [Hh Hc].
  pose proof Ha as (p & lo' & hi' & _ & _ & _ & _ & _ & _ & _ & _ & Ha').
  assert (∀ q, q ∈ above_pages path → m' !! q = m !! q) as Hag' by (intros q Hq; apply Hag; simpl; rewrite elem_of_cons, !elem_of_app; tauto).
  split; [|by eapply IH]. destruct path as [|G path]; [done|]. destruct Hh as [Hh|Hh]; [left|right].
  - rewrite (page_size_agree m m'); [done|]. apply Hag. by left.
  - by erewrite patient_agree.
Qed.

(** A child put back below its parent. *)
Lemma raise_place m h G path c : above m h (G :: path) (c_pid c) (c_lo c) (c_hi c) → NoDup (c_pages c ++ above_pages (G :: path)) →
  Forall (λ p, 0 ≤ p) (c_pages c ++ above_pages (G :: path)) → links (fill (G :: path) (c_leaves c)) →
  let cs := f_pre G ++ c :: f_post G in
  ∃ p lo' hi', m !! f_pid G = Some (PageInternal p) ∧ int_page_ok imax p (par_of path) (heads (f_pre G) ++ (c_pid c, c_lo c) :: heads (f_post G)) ∧
    Z.of_nat (length cs) ≤ imax ∧ (2 ≤ length cs)%nat ∧ linked lo' cs hi' ∧ kids m h (f_pid G) (f_pre G) ∧ kids m h (f_pid G) (f_post G) ∧
    place m h path (f_pid G) lo' hi' cs ∧ fill (G :: path) (c_leaves c) = fill path (leaves_of cs).
Proof.
  intros Ha Hnd Hpos Hl cs. pose proof Ha as (p & lo' & hi' & Hp & Hok & Hn & Hm & Hl1 & Hl2 & Hk1 & Hk2 & Ha'). exists p, lo', hi'.
  assert (length cs = length (f_pre G) + 1 + length (f_post G))%nat as Hlen by (unfold cs; rewrite length_app; simpl; lia).
  assert (fill (G :: path) (c_leaves c) = fill path (leaves_of cs)) as Hfill by (unfold cs; by rewrite leaves_of_app).
  assert (c_pages c ++ above_pages (G :: path) ≡ₚ (f_pid G :: pages_of cs) ++ above_pages path) as Hperm.
  { unfold cs. rewrite pages_of_app. change (pages_of (c :: f_post G)) with (c_pages c ++ pages_of (f_post G)). cbn [above_pages]. solve_Permutation. }
  rewrite Hperm in Hnd, Hpos. split_and!; try done; [lia| | |split; [done|done|done|by rewrite <- Hfill]].
  - unfold min_children in Hm. rewrite (proj2 (Z.leb_le _ _)) in Hm by lia. lia.
  - apply linked_app. exists (c_lo c). by split.
Qed.

Lemma underflow_loop_ok path : ∀ fuel m h G cur lo hi csu nid, (length path < fuel)%nat → node m h (G :: path) cur lo hi csu →
  Z.of_nat (length csu) < min_size → patient m G = true → calm_path m (G :: path) →
  tree_triple (4200 * Z.of_nat (length (G :: path))) (mkView m [] nid (root_of (G :: path) cur)) (underflow_loop (S fuel) cur)
    (λ _, settled (lents (fill (G :: path) (leaves_of csu))) nid (S h + length (G :: path))).
Proof.
  induction path as [|G' path IH]; intros fuel m h G cur lo hi csu nid Hf Hnode Hfew Hpat Hcalm.
  all: pose proof Hnode as [[Ha Hnd Hpos Hl] Hat Hlu Hku Hsome Hmax]; pose proof Hat as (pu & Hpu & Hoku).
  all: destruct (raise_place m (S h) G _ (int_child cur lo hi csu) Ha Hnd Hpos Hl) as (p & lo' & hi' & Hp & Hok & Hn & Hm & Hlk & Hk1 & Hk2 & Hpl & Hfill).
  all: pose proof Hnd as Hnd'; apply NoDup_app in Hnd' as (_ & Hd & _); pose proof Hpos as Hpos'; apply Forall_app in Hpos' as [_ Hpos'].
  all: eapply (underflow_step m (S h) G _ cur lo hi (PageInternal pu)); [exact Ha|done|by apply ip_par in Hoku|apply Hd; by left|done|simpl length; lia|].
  all: intros pf; simpl as_page; rewrite (int_type pu (ip_shape _ _ _ _ Hoku));
    match goal with |- context [root_of (?g :: ?r) ?c] => change (root_of (g :: r) c) with (root_of r (f_pid g)) end.
  all: eapply seq_triple; [by eapply (fix_internal_ok m h)|simpl length; lia|].
  all: cbn [c_leaves int_child] in Hfill; intros [|pid] v Hv; unfold cured in Hv; rewrite <- Hfill in Hv.
  - apply ret_triple; [simpl length; lia|]. destruct Hv as (m' & root & h' & ls & H1 & H2 & H3 & H4 & H5). exists m', root, h', ls. split_and!; try done. simpl in *. lia.
  - by destruct Hv as (_ & Hne & _).
  - apply ret_triple; [simpl length; lia|]. destruct Hv as (m' & root & h' & ls & H1 & H2 & H3 & H4 & H5). exists m', root, h', ls. split_and!; try done. simpl in *. lia.
  - destruct Hv as (-> & _ & m' & cs' & -> & Hnode' & HE & Hag & Hfew' & Hlen).
    pose proof (pl_above _ _ _ _ _ _ _ Hpl) as Ha'. destruct Hcalm as [Hc1 Hc2]. destruct fuel as [|fuel]; [lia|].
    eapply mono_triple; [eapply (IH fuel m' (S h) G' (f_pid G) lo' hi' cs' nid); [simpl in Hf; lia|done|done| |by eapply calm_path_agree]|simpl length; lia|].
    + destruct Hc1 as [Hc1|Hc1]; [|by erewrite patient_agree]. exfalso. rewrite (int_at_size m (f_pid G) (par_of (G' :: path)) (f_pre G ++ int_child cur lo hi csu :: f_post G)) in Hc1; [lia|].
      exists p. split; [done|]. by rewrite heads_app.
    + intros _ v (m2 & root & h' & ls & H1 & H2 & H3 & H4 & H5). exists m2, root, h', ls. split_and!; try done; [congruence|]. simpl in *. lia.
Qed.
(** The first iteration, for the leaf. *)
Lemma leaf_underflow_ok fuel m path G cur lo hi es nxt kc nid : (length path < fuel)%nat → above m 0 (G :: path) cur lo hi →
  leaf_at m cur (f_pid G) es nxt → NoDup (cur :: above_pages (G :: path)) → Forall (λ p, 0 ≤ p) (cur :: above_pages (G :: path)) →
  links (fill (G :: path) [mkLf cur es nxt]) → (∀ e, e ∈ es → in_range lo hi e.1) → in_range lo hi kc → Z.of_nat (length es) < lmax →
  calm_path m (G :: path) →
  tree_triple (4200 * Z.of_nat (length (G :: path))) (mkView m [] nid (root_of (G :: path) cur)) (underflow_loop (S fuel) cur)
    (λ _, settled (lents (fill (G :: path) [mkLf cur es nxt])) nid (length (G :: path))).
Proof.
  intros Hf Ha Hleaf Hnd Hpos Hl Hr Hkc Hlen [Hc1 Hc2]. pose proof Hleaf as (pu & Hpu & [[Hshu _] _ Hparu _ _]).
  destruct (raise_place m 0 G _ (leaf_child cur lo hi es nxt) Ha Hnd Hpos Hl) as (p & lo' & hi' & Hp & Hok & Hn & Hm & Hlk & Hk1 & Hk2 & Hpl & Hfill).
  cbn [c_leaves leaf_child] in Hfill.
  eapply (underflow_step m 0 G _ cur lo hi (PageLeaf pu)); [exact Ha|done|done|by apply NoDup_cons in Hnd as [? _]|by apply Forall_cons in Hpos as [_ ?]|simpl length; lia|].
  intros pf. simpl as_page. rewrite (leaf_type pu Hshu).
  match goal with |- context [root_of (?g :: ?r) ?c] => change (root_of (g :: r) c) with (root_of r (f_pid g)) end.
  eapply seq_triple; [by eapply fix_leaf_ok|simpl length; lia|]. intros [|pid] v Hv; unfold cured in Hv; rewrite <- Hfill in Hv.
  - apply ret_triple; [simpl length; lia|]. destruct Hv as (m' & root & h' & ls & H1 & H2 & H3 & H4 & H5). by exists m', root, h', ls.
  - destruct Hv as (-> & Hne & m' & cs' & -> & Hnode' & HE & Hag & Hfew' & Hlen'). destruct path as [|G' path]; [done|].
    pose proof (pl_above _ _ _ _ _ _ _ Hpl) as Ha'. destruct fuel as [|fuel]; [lia|].
    eapply mono_triple; [eapply (underflow_loop_ok path fuel m' 0 G' (f_pid G) lo' hi' cs' nid); [simpl in Hf; lia|done|done| |by eapply calm_path_agree]|simpl length; lia|].
    + destruct Hc1 as [Hc1|Hc1]; [|by erewrite patient_agree]. exfalso.
      rewrite (int_at_size m (f_pid G) (par_of (G' :: path)) (f_pre G ++ leaf_child cur lo hi es nxt :: f_post G)) in Hc1; [lia|].
      exists p. split; [done|]. by rewrite heads_app.
    + intros _ v (m2 & root & h' & ls & H1 & H2 & H3 & H4 & H5). exists m2, root, h', ls. split_and!; try done. congruence.
Qed.

(** ** The descent *)

Definition removed (key : Z) (ls : list leaf) (nid : Z) (n : nat) (_ : unit) v : Prop :=
  ∃ m' root h' ls', v = mkView m' [] nid root ∧ grown lmax imax m' h' root ls' ∧ assoc_map (lents ls') = delete key (assoc_map (lents ls)) ∧ (h' ≤ n)%nat.

Lemma settled_removed key ls nid n E v : settled E nid n v → assoc_map E = delete key (assoc_map (lents ls)) → removed key ls nid n tt v.
Proof. intros (m' & root & h' & ls' & H1 & H2 & H3 & <- & H5) HE. exists m', root, h', ls'. split_and!; try done. by apply whole_grown. Qed.

Lemma map_delete_around A es es' (B : leaf_array) key : (∀ x, x ∈ A → x.1 < key) → (∀ x, x ∈ B → key < x.1) →
  assoc_map es' = delete key (assoc_map es) → assoc_map (A ++ es' ++ B) = delete key (assoc_map (A ++ es ++ B)).
Proof.
  intros HA HB He. rewrite !assoc_app, He, !delete_union.
  rewrite (delete_id (assoc_map A)) by (apply assoc_lookup_None; intros v Hv%HA; simpl in Hv; lia).
  by rewrite (delete_id (assoc_map B)) by (apply assoc_lookup_None; intros v Hv%HB; simpl in Hv; lia).
Qed.

Lemma remove_leaf_ok fuel ufuel m path cur lo hi ls pgs nid key :
  (length path < ufuel)%nat → sub m 0 cur (par_of path) lo hi ls pgs → above m 0 path cur lo hi →
  NoDup (pgs ++ above_pages path) → Forall (λ p, 0 ≤ p) (pgs ++ above_pages path) → links (fill path ls) → in_range lo hi key → calm_path m path →
  tree_triple (4200 * Z.of_nat (length path) + 10) (mkView m [] nid (root_of path cur)) (remove_loop (S fuel) ufuel key cur)
    (removed key (fill path ls) nid (length path)).
Proof.
  intros Hf (p & es & nxt & Hp & Hpage & Hlen & Hne & Hr & -> & ->) Ha Hnd Hpos Hlinks Hkey Hcalm.
  pose proof Hpage as [[Hsh Hs] Hmax Hpar He Hnext]. destruct (fill_range _ _ _ _ _ _ _ _ Ha) as (A & B & Hfill & Hout).
  destruct (Hout key Hkey) as [HA HB]. pose proof (leaf_entries_length p Hsh) as Hsz. rewrite He in *.
  assert (∀ es', lents (fill path [mkLf cur es' nxt]) = lents A ++ es' ++ lents B) as Hents
    by (intros es'; rewrite Hfill, !lents_app; unfold lents at 2; simpl; by rewrite app_nil_r).
  assert (length es ≠ 0%nat) as Hn0 by (by destruct es).
  cbn [remove_loop].
  eapply call_triple; [by apply fetch_throw_rule; [eexists|apply not_elem_of_nil|simpl; pose proof three_frames; lia]|lia|]. intros f v ->.
  eapply call_triple; [by eapply (read_page_rule _ _ _ _ _ _ 0%nat)|lia|]. intros y v [-> ->]. simpl as_page. rewrite (leaf_type p Hsh). cbn [negb].
  reads_leaf 0%nat. cbv zeta. pose proof (leaf_remove_ok p key ltac:(split; [done|by rewrite He])) as Hrem. unfold leaf_map in Hrem. rewrite He in Hrem.
  assert (Hwhole : ∀ m' es', above m' 0 path cur lo hi → leaf_at m' cur (par_of path) es' nxt → Z.of_nat (length es') ≤ lmax → es' ≠ [] →
    (∀ e, e ∈ es' → in_range lo hi e.1) → links (fill path [mkLf cur es' nxt]) →
    settled (lents (fill path [mkLf cur es' nxt])) nid (length path) (mkView m' [] nid (root_of path cur))).
  { intros m' es' Ha' Hat Hl Hne' Hr' Hlk. exists m', (root_of path cur), (length path), (fill path [mkLf cur es' nxt]). split_and!; try done.
    eapply (close_whole _ _ m' 0); [by apply leaf_sub|done|done|done]. }
  assert (par_of path = INVALID_PAGE_ID ↔ path = []) as Hroot.
  { destruct path as [|F path]; [done|]. split; [|done]. simpl in Hpos |- *. apply Forall_cons in Hpos as [_ [HF _]%Forall_cons]. unfold INVALID_PAGE_ID. lia. }
  destruct (assoc_map es !! key) as [old|] eqn:Hold.
  - (* the key is there *)
    destruct Hrem as (q & Hq & [Hshq Hsq] & Hmap & Hsize & (Hqn & Hqp & Hqm)).
    eapply triple_bind_lift; [exact Hq|]. cbn beta iota. rewrite (proj2 (Z.eqb_neq (Leaf.GetSize p - 1) (Leaf.GetSize p))) by lia. cbn [negb]. rewrite Hqp, Hpar.
    writes 0%nat. set (m1 := <[cur := _]> m). set (es' := leaf_entries q) in *.
    pose proof (leaf_entries_length q Hshq) as Hsz'. fold es' in Hsz'.
    assert (leaf_at m1 cur (par_of path) es' nxt) as Hat.
    { exists q. split; [apply lookup_insert_eq|]. split; [done|congruence|congruence|done|congruence]. }
    assert (cur ∉ above_pages path) as Hcur by (apply NoDup_app in Hnd as (_ & Hd & _); apply Hd; by left).
    assert (∀ x, x ∈ above_pages path → m1 !! x = m !! x) as Hag by (intros x Hx; apply lookup_insert_ne; by intros <-).
    assert (above m1 0 path cur lo hi) as Ha1 by (by eapply above_agree).
    assert (∀ e, e ∈ es' → in_range lo hi e.1) as Hr'.
    { intros [k r] Hin. apply assoc_lookup in Hin; [|done]. rewrite Hmap in Hin. apply lookup_delete_Some in Hin as [_ Hin].
      apply assoc_lookup in Hin; [|done]. by apply (Hr (k, r)). }
    assert (links (fill path [mkLf cur es' nxt])) as Hl' by (rewrite Hfill in Hlinks |- *; by apply (links_entries A _ es') in Hlinks).
    assert (assoc_map (lents (fill path [mkLf cur es' nxt])) = delete key (assoc_map (lents (fill path [mkLf cur es nxt])))) as Hdel
      by (rewrite !Hents; by apply map_delete_around).
    destruct path as [|G path].
    + rewrite (proj2 Hroot eq_refl), Z.eqb_refl. destruct (Z.eqb_spec (Leaf.GetSize q) 0) as [H0|H0].
      * apply get_triple. intros t Ht _ _. cbv zeta. rewrite Ht. apply root_triple. cbn [v_pages v_pins v_next v_root root_of]. unpins 0%nat.
        eapply call_triple; [apply delete_rule_v; simpl; set_solver|lia|]. intros _ v [_ ->]. apply ret_triple; [lia|].
        assert (es' = []) as Hes by (destruct es'; [done|simpl in Hsz'; lia]).
        exists (delete cur m1), INVALID_PAGE_ID, 0%nat, []. split_and!; [done|by unfold grown| |simpl; lia]. rewrite <- Hdel, Hes. done.
      * unpins 0%nat. apply ret_triple; [lia|]. eapply settled_removed; [|exact Hdel]. apply Hwhole; try done; [lia|].
        intros Hes. rewrite Hes in Hsz'. simpl in Hsz'. lia.
    + rewrite (proj2 (Z.eqb_neq _ _)) by (by intros ?%Hroot). unpins 0%nat. destruct ufuel as [|ufuel]; [simpl in Hf; lia|].
      eapply mono_triple; [eapply (leaf_underflow_ok ufuel m1 path G cur lo hi es' nxt key nid); try done|lia|].
      * simpl in Hf. lia.
      * lia.
      * by eapply (calm_path_agree m m1); [exact Ha| |].
      * intros [] v Hv. by eapply settled_removed.
  - (* it is not *)
    eapply triple_bind_lift; [exact Hrem|]. cbn beta iota. rewrite Z.eqb_refl. cbn [negb]. apply ret_bind_triple. rewrite Hpar.
    assert (assoc_map (lents (fill path [mkLf cur es nxt])) = delete key (assoc_map (lents (fill path [mkLf cur es nxt])))) as Hdel.
    { symmetry. apply delete_id. rewrite Hents. by rewrite map_around. }
    assert (settled (lents (fill path [mkLf cur es nxt])) nid (length path) (mkView m [] nid (root_of path cur))) as Hsame.
    { apply Hwhole; try done. by exists p. }
    destruct (par_of path =? INVALID_PAGE_ID); [rewrite (proj2 (Z.eqb_neq _ _)) by lia|]; unpins 0%nat; (apply ret_triple; [lia|]); by eapply settled_removed.
Qed.

(** The test on the page is the one on the frame. *)
Lemma calm_child_here m path cur p G pid lo : int_page_ok imax p (par_of path) (heads (f_pre G) ++ (pid, lo) :: heads (f_post G)) →
  (∀ c, c ∈ f_pre G → c_pid c ≠ pid) → f_pid G = cur → calm_child imax m p pid = true → calm_here m (G :: path) pid.
Proof.
  intros Hok Hne _ Hcalm. destruct (siblings p _ G pid lo Hok Hne) as (Hi & Hleft & Hright). unfold calm_child in Hcalm. rewrite Hi in Hcalm.
  unfold calm_here. rewrite !orb_true_iff, negb_true_iff in Hcalm. destruct Hcalm as [[Hc|Hc]|Hc].
  - left. by apply Z.ltb_lt.
  - right. unfold patient. apply orb_true_iff. left. apply andb_true_iff in Hc as [H0 Hc]. rewrite H0 in Hleft. rewrite Hleft in Hc. unfold left_of in Hc.
    destruct (last_or_none (f_pre G)) as [He|(a & c & He)]; rewrite He in Hc, H0 |- *; [done|]. by rewrite last_snoc in Hc |- *.
  - right. unfold patient. apply orb_true_iff. right. apply negb_true_iff. unfold right_of in Hright.
    destruct (first_or_none (f_post G)) as [He|(c & b & He)]; rewrite He in Hright |- *; [done|]. simpl in Hright |- *.
    destruct (Z.of_nat (length (f_pre G)) + 1 <? Internal.GetSize p) eqn:Hlt; [by rewrite Hright in Hc|].
    exfalso. destruct Hok as [Hsh _ _ Hk]. apply Z.ltb_ge in Hlt. rewrite <- (int_entries_length p Hsh), (length_keyed _ _ Hk), He, length_app in Hlt.
    simpl in Hlt. unfold heads in Hlt. rewrite length_fmap in Hlt. lia.
Qed.

Lemma remove_loop_ok h : ∀ fuel ufuel m path cur lo hi ls pgs nid key,
  (h < fuel)%nat → (h + length path < ufuel)%nat → sub m h cur (par_of path) lo hi ls pgs → above m h path cur lo hi →
  NoDup (pgs ++ above_pages path) → Forall (λ p, 0 ≤ p) (pgs ++ above_pages path) → links (fill path ls) → in_range lo hi key →
  calm imax m h cur key = true → (h ≠ 0%nat → calm_here m path cur) → calm_path m path →
  tree_triple (4200 * Z.of_nat (h + length path) + 4 * Z.of_nat h + 10) (mkView m [] nid (root_of path cur)) (remove_loop fuel ufuel key cur)
    (removed key (fill path ls) nid (h + length path)).
Proof.
  induction h as [|h IH]; intros [|fuel] ufuel m path cur lo hi ls pgs nid key Hf Huf Hs Ha Hnd Hpos Hlinks Hkey Hcalm Hhere Hpath; try lia.
  - eapply mono_triple; [by eapply remove_leaf_ok|lia|done].
  - destruct Hs as (p & cs & Hp & Hok & Hn & Hne & Hl & Hk & -> & ->).
    destruct (descend _ _ m h path cur (par_of path) lo hi cs p key Hp Hok Hn Hl Hk Ha Hne Hkey) as (pre & d & post & -> & Hroute & Hkd & Hsd & Had).
    cbn [remove_loop]. pose proof (ip_shape _ _ _ _ Hok) as Hsh.
    eapply call_triple; [by apply fetch_throw_rule; [eexists|apply not_elem_of_nil|simpl; pose proof three_frames; lia]|lia|]. intros f v ->.
    eapply call_triple; [by eapply (read_page_rule _ _ _ _ _ _ 0%nat)|lia|]. intros y v [-> ->]. simpl as_page. rewrite (int_type p Hsh). cbn [negb].
    reads_internal 0%nat. eapply triple_bind_lift; [exact Hroute|]. unpins 0%nat.
    rewrite pages_of_app in Hnd, Hpos. change (pages_of (d :: post)) with (c_pages d ++ pages_of post) in *.
    set (path' := mkFrame cur pre post :: path).
    assert ((cur :: pages_of pre ++ c_pages d ++ pages_of post) ++ above_pages path ≡ₚ c_pages d ++ above_pages path') as Hperm
      by (cbn [above_pages path' f_pid f_pre f_post]; solve_Permutation).
    rewrite Hperm in Hnd, Hpos. rewrite leaves_of_app in Hlinks |- *. change (leaves_of (d :: post)) with (c_leaves d ++ leaves_of post) in *.
    assert (calm imax m h (c_pid d) key = true ∧ (h ≠ 0%nat → calm_here m path' (c_pid d))) as [Hcalm' Hhere'].
    { destruct h as [|h]; [done|]. cbn [calm] in Hcalm. rewrite Hp, Hroute in Hcalm. apply andb_true_iff in Hcalm as [Hc1 Hc2].
      split; [exact Hc2|]. intros _. eapply (calm_child_here m path cur p (mkFrame cur pre post) (c_pid d) (c_lo d)); [by rewrite heads_app in Hok| |done|exact Hc1].
      intros c Hc Heq. simpl in Hc. apply NoDup_app in Hnd as (_ & Hd & _). apply (Hd (c_pid d)); [by eapply sub_root|].
      simpl. right. apply elem_of_app. left. apply in_pages_of. exists c. split; [done|]. rewrite <- Heq. apply Forall_app in Hk as [Hk _].
      rewrite Forall_forall in Hk. eapply sub_root. by apply Hk. }
    eapply mono_triple; [eapply (IH fuel ufuel m path' (c_pid d)); try done|simpl length; lia|].
    + lia.
    + simpl. lia.
    + split; [by apply Hhere|done].
    + intros b v (m' & root & h' & ls' & H1 & H2 & H3 & H4). exists m', root, h', ls'. split_and!; try done. simpl in H4. lia.
Qed.

Definition remove_cost (h : nat) : Z := 4204 * (Z.of_nat h + 1) + 10.

Lemma Remove_ok m h nid root ls fuel key : grown lmax imax m h root ls → calm imax m h root key = true → (h < fuel)%nat →
  tree_triple (remove_cost h) (mkView m [] nid root) (Remove fuel key) (removed key ls nid h).
Proof.
  intros Hg Hcalm Hf. apply get_triple. intros t Hroot _ _. unfold IsEmpty. rewrite Hroot. cbn [v_root]. unfold remove_cost.
  destruct (root =? INVALID_PAGE_ID) eqn:Hr; unfold grown in Hg; rewrite Hr in Hg.
  - subst ls. apply ret_triple; [lia|]. exists m, root, h, []. split_and!; [done|by unfold grown; rewrite Hr|symmetry; apply delete_empty|done].
  - destruct Hg as [(pgs & Hs & Hnd & Hpos) Hlinks].
    eapply mono_triple; [eapply (remove_loop_ok h fuel fuel m [] root MinusInf PlusInf ls pgs); try done|simpl length; lia|].
    + simpl. lia.
    + simpl. by rewrite app_nil_r.
    + simpl. by rewrite app_nil_r.
    + intros b v. by rewrite Nat.add_0_r.
Qed.
End Remove.

(** One removal, as an equation. *)
Lemma Remove_run {Pool} `{PIO : !PageIO IndexPage Pool} m h (t : BPlusTree Pool) ls nid key fuel k :
  4 ≤ io_frames → 2 ≤ leaf_max_size_ t < LEAF_SLOTS → 3 ≤ internal_max_size_ t < INTERNAL_SLOTS →
  well_formed m h t ls → calm (internal_max_size_ t) m h (root_page_id_ t) key = true → (h < fuel)%nat → 0 ≤ k →
  quiet (k + remove_cost h) m nid t →
  ∃ t' m' h' ls', Remove fuel key t = (Ok tt, t') ∧ quiet k m' nid t' ∧ (h' ≤ h)%nat ∧
    leaf_max_size_ t' = leaf_max_size_ t ∧ internal_max_size_ t' = internal_max_size_ t ∧
    well_formed m' h' t' ls' ∧ assoc_map (lents ls') = delete key (assoc_map (lents ls)).
Proof.
  intros Hframes Hlm Him Hw Hcalm Hf Hk Hq.
  destruct (Remove_ok _ _ Hframes Hlm Him m h nid (root_page_id_ t) ls fuel key Hw Hcalm Hf k t Hk) as
    ([] & t' & v & Hrun & (m' & root' & h' & ls' & -> & Hg & Hmap & Hh) & (Hr & _ & Hroot & Hl & Hi)).
  { split; [exact Hq|]. split; [|done]. split; [split; constructor|]. intros x Hx. by apply not_elem_of_nil in Hx. }
  exists t', m', h', ls'. split_and!; try done. unfold well_formed. by rewrite Hroot, Hl, Hi.
Qed.

(** C16: [Remove] is deletion from the map.  On a well-formed tree, in any pool with four
    frames, with leaves of two entries or more and internal pages of three or more, it
    terminates and throws nothing, leaves a well-formed tree that is not higher and stands
    for the map without the key, takes no new page and keeps no page pinned; provided
    that no internal page on the way to the key would have to take a child from its right
    neighbour, which in trees of two levels none ever does. *)
Theorem btree_remove {Pool} `{PIO : !PageIO IndexPage Pool} m h (t : BPlusTree Pool) ls nid key fuel k :
  4 ≤ io_frames → 2 ≤ leaf_max_size_ t < LEAF_SLOTS → 3 ≤ internal_max_size_ t < INTERNAL_SLOTS →
  well_formed m h t ls → calm (internal_max_size_ t) m h (root_page_id_ t) key = true → (h < fuel)%nat → 0 ≤ k →
  quiet (k + remove_cost h) m nid t →
  ∃ t' m' h' ls', Remove fuel key t = (Ok tt, t') ∧ quiet k m' nid t' ∧ (h' ≤ h)%nat ∧
    leaf_max_size_ t' = leaf_max_size_ t ∧ internal_max_size_ t' = internal_max_size_ t ∧
    well_formed m' h' t' ls' ∧ tree_ok m' h' t' (strip ls') ∧ assoc_map (lents ls') = delete key (assoc_map (lents ls)).
Proof.
  intros Hframes Hlm Him Hw Hcalm Hf Hk Hq.
  destruct (Remove_run m h t ls nid key fuel k) as (t' & m' & h' & ls' & H1 & Hq' & Hh & Hl & Hi & Hw' & Hmap); try done.
  exists t', m', h', ls'. split_and!; try done. by apply well_formed_tree_ok.
Qed.

(** ** Witness: a leaf that takes an entry from its right neighbour *)

Definition demo_lfs : list leaf := [mkLf 0 demo_es0 1; mkLf 1 demo_es1 (-1)].

Lemma demo_well_formed : well_formed demo_pages 1 demo_tree demo_lfs.
Proof.
  split; [|by split_and!]. exists [2; 0; 1]. split_and!; [|repeat constructor; set_solver|repeat constructor; lia].
  exists demo_p2, [leaf_child 0 MinusInf (Key 5) demo_es0 1; leaf_child 1 (Key 5) PlusInf demo_es1 (-1)].
  split_and!; [reflexivity| |done|done|by split_and!| |done|done].
  - split; [apply demo_shape_p2|done|done|]. split; [done|]. by repeat constructor.
  - repeat constructor.
    + exists demo_p0, demo_es0, 1. split_and!; [reflexivity| |done|done| |done|done].
      * split; [split; [apply demo_shape_p0|]|done..]. change (leaf_entries demo_p0) with demo_es0. unfold demo_es0. small_sorted.
      * intros x ->%list_elem_of_singleton. split; [done|simpl; lia].
    + exists demo_p1, demo_es1, (-1). split_and!; [reflexivity| |done|done| |done|done].
      * split; [split; [apply demo_shape_p1|]|done..]. change (leaf_entries demo_p1) with demo_es1. unfold demo_es1. small_sorted.
      * unfold demo_es1. intros x [->| ->%list_elem_of_singleton]%elem_of_cons; (split; [simpl; lia|done]).
Qed.

Lemma btree_remove_witness : ∃ t' m' h' ls', Remove (PageIO0 := demo_io) 2 1 demo_tree = (Ok tt, t') ∧
  assoc_map (lents ls') = delete 1 (assoc_map (demo_es0 ++ demo_es1)) ∧ well_formed m' h' t' ls'.
Proof.
  destruct (btree_remove (PIO := demo_io) demo_pages 1 demo_tree demo_lfs 3 1 2 0) as (t' & m' & h' & ls' & H & _ & _ & _ & _ & Hw & _ & Hmap).
  - by vm_compute.
  - by vm_compute.
  - by vm_compute.
  - exact demo_well_formed.
  - reflexivity.
  - lia.
  - lia.
  - apply demo_quiet.
  - exists t', m', h', ls'. split_and!; [exact H|exact Hmap|exact Hw].
Defined.
