(* ===== verification/BPlusHistory.v ===== *)
(** * Histories of a B+ tree

    Any sequence of insertions and removals, and the map it stands for. *)

From S2P Require Import Prelude Common SortedAssoc PageStore PageIO PageLogic BPlusPage BPlusTree TreeLogic.
From S2P Require Import BPlusShape BPlusSplit BPlusInsert BPlusRemove.

Inductive index_op := Ins (key : Z) (value : RID) | Del (key : Z).

(** What the operations mean: the first value of a key stays. *)
Definition op_map (o : index_op) (mp : gmap Z RID) : gmap Z RID :=
  match o with
  | Ins key value => match mp !! key with Some _ => mp | None => <[key := value]> mp end
  | Del key => delete key mp
  end.
Definition ops_map (ops : list index_op) (mp : gmap Z RID) : gmap Z RID := foldl (λ mp o, op_map o mp) mp ops.

Lemma op_map_size o mp : (size (op_map o mp) ≤ S (size mp))%nat.
Proof.
  destruct o as [key value|key]; simpl.
  - destruct (mp !! key) eqn:E; [lia|]. rewrite map_size_insert_None by done. lia.
  - pose proof (map_subseteq_size _ _ (delete_subseteq mp key)). lia.
Qed.
Lemma ops_map_size ops : ∀ mp, (size (ops_map ops mp) ≤ size mp + length ops)%nat.
Proof.
  induction ops as [|o ops IH]; intros mp; simpl; [lia|]. etrans; [apply IH|]. pose proof (op_map_size o mp). lia.
Qed.

Section History.
Context {Pool : Type} `{PIO : !PageIO IndexPage Pool}.
Implicit Types (t : BPlusTree Pool) (m : gmap Z IndexPage).

Definition run_op (fuel : nat) (o : index_op) : ST (BPlusTree Pool) unit :=
  match o with Ins key value => _ ← Insert fuel key value; mret tt | Del key => Remove fuel key end.
Fixpoint run_ops (fuel : nat) (ops : list index_op) : ST (BPlusTree Pool) unit :=
  match ops with [] => mret tt | o :: ops => _ ← run_op fuel o; run_ops fuel ops end.

(** Removing the key makes no internal page take a child from its right neighbour. *)
Definition calm_tree t (key : Z) : Prop := ∀ m h nid k ls, 0 ≤ k → quiet k m nid t → well_formed m h t ls →
  calm (internal_max_size_ t) m h (root_page_id_ t) key = true.
(** This holds of each removal, when its turn comes. *)
Fixpoint calm_ops (fuel : nat) (ops : list index_op) t : Prop :=
  match ops with
  | [] => True
  | o :: ops => match o with Ins _ _ => True | Del key => calm_tree t key end ∧ calm_ops fuel ops (run_op fuel o t).2
  end.

Context (zeroed : io_zero = PageZero) (frames : 4 ≤ io_frames).

Definition op_cost (h : nat) : Z := 6500 * (Z.of_nat h + 1).

Lemma run_op_ok o m h t ls nid fuel k :
  2 ≤ leaf_max_size_ t < LEAF_SLOTS → 3 ≤ internal_max_size_ t < INTERNAL_SLOTS →
  well_formed m h t ls → match o with Ins _ _ => True | Del key => calm_tree t key end → (h < fuel)%nat → 0 ≤ nid → 0 ≤ k →
  quiet (k + op_cost h) m nid t →
  ∃ t' m' h' ls' nid', run_op fuel o t = (Ok tt, t') ∧ quiet k m' nid' t' ∧ 0 ≤ nid' ∧ (h' ≤ S h)%nat ∧
    leaf_max_size_ t' = leaf_max_size_ t ∧ internal_max_size_ t' = internal_max_size_ t ∧
    well_formed m' h' t' ls' ∧ assoc_map (lents ls') = op_map o (assoc_map (lents ls)).
Proof.
  intros Hlm Him Hw Hcalm Hf Hnid Hk Hq. unfold op_cost in Hq. destruct o as [key value|key]; simpl.
  - destruct (Insert_run zeroed ltac:(lia) m h t ls nid key value fuel k) as (b & t' & m' & h' & ls' & nid' & H1 & Hq' & Hn & Hh & Hl & Hi & Hw' & -> & Hmap);
      [lia|lia|done|done|done|done|eapply io_weaken; [|exact Hq]; unfold insert_cost; lia|].
    exists t', m', h', ls', nid'. split_and!; try done; [by st_step H1|lia|]. rewrite Hmap. by destruct (assoc_map (lents ls) !! key).
  - assert (calm (internal_max_size_ t) m h (root_page_id_ t) key = true) as Hc by (eapply Hcalm; [|exact Hq|done]; lia).
    destruct (Remove_run m h t ls nid key fuel k) as (t' & m' & h' & ls' & H1 & Hq' & Hh & Hl & Hi & Hw' & Hmap);
      [done..|eapply io_weaken; [|exact Hq]; unfold remove_cost; lia|].
    exists t', m', h', ls', nid. split_and!; try done. lia.
Qed.

Lemma run_ops_ok ops : ∀ m h t ls nid fuel k,
  2 ≤ leaf_max_size_ t < LEAF_SLOTS → 3 ≤ internal_max_size_ t < INTERNAL_SLOTS →
  well_formed m h t ls → calm_ops fuel ops t → (h + length ops < fuel)%nat → 0 ≤ nid → 0 ≤ k →
  quiet (k + Z.of_nat (length ops) * op_cost (h + length ops)) m nid t →
  ∃ t' m' h' ls' nid', run_ops fuel ops t = (Ok tt, t') ∧ quiet k m' nid' t' ∧ (h' ≤ h + length ops)%nat ∧
    well_formed m' h' t' ls' ∧ assoc_map (lents ls') = ops_map ops (assoc_map (lents ls)).
Proof.
  induction ops as [|o ops IH]; intros m h t ls nid fuel k Hlm Him Hw Hcalm Hf Hnid Hk Hq; simpl length in *.
  - exists t, m, h, ls, nid. split_and!; try done; [|lia]. by replace (k + Z.of_nat 0 * op_cost (h + 0)) with k in Hq by lia.
  - destruct Hcalm as [Hc Hcalm]. set (c := op_cost (h + S (length ops))) in *. assert (op_cost h ≤ c) as Hle by (unfold c, op_cost; lia).
    assert (0 ≤ op_cost h) by (unfold op_cost; lia).
    destruct (run_op_ok o m h t ls nid fuel (k + Z.of_nat (length ops) * c)) as (t1 & m1 & h1 & ls1 & nid1 & H1 & Hq1 & Hn1 & Hh1 & Hl1 & Hi1 & Hw1 & Hmap1);
      try done; [lia|nia|eapply io_weaken; [|exact Hq]; nia|].
    rewrite H1 in Hcalm. simpl in Hcalm. rewrite <- Hl1 in Hlm. rewrite <- Hi1 in Him.
    assert (op_cost (h1 + length ops) ≤ c) by (unfold c, op_cost; lia).
    destruct (IH m1 h1 t1 ls1 nid1 fuel k Hlm Him Hw1 Hcalm) as (t2 & m2 & h2 & ls2 & nid2 & H2 & Hq2 & Hh2 & Hw2 & Hmap2);
      [lia|done|done|eapply io_weaken; [|exact Hq1]; nia|].
    exists t2, m2, h2, ls2, nid2. split_and!; try done; [|lia|].
    + cbn [run_ops]. by st_step H1.
    + by rewrite Hmap2, Hmap1.
Qed.

(** C17: the index is an ordered map.  Starting from an empty tree, in any pool with four
    frames, after any insertions and removals, in any order, [GetValue] finds what the map
    of that history holds, and iteration visits its entries in the order of the keys, from
    the first one or from any key; provided that no removal makes an internal page take a
    child from its right neighbour. *)
Theorem btree_history ops m t nid key fuel k :
  root_page_id_ t = INVALID_PAGE_ID → 2 ≤ leaf_max_size_ t < LEAF_SLOTS → 3 ≤ internal_max_size_ t < INTERNAL_SLOTS →
  calm_ops fuel ops t → (length ops < fuel)%nat → 0 ≤ nid → 0 ≤ k →
  quiet (k + 12 * (Z.of_nat (length ops) + 1) + Z.of_nat (length ops) * op_cost (length ops)) m nid t →
  ∃ t', run_ops fuel ops t = (Ok tt, t') ∧
    (∃ t2, GetValue fuel key t' = (Ok (ops_map ops ∅ !! key), t2)) ∧
    ∃ es t3 t4, (it ← Begin fuel; scan fuel it) t' = (Ok es, t3) ∧
      (it ← BeginAt fuel key; scan fuel it) t' = (Ok (from_key key es), t4) ∧ sorted_keys es ∧ assoc_map es = ops_map ops ∅.
Proof.
  intros Hroot Hlm Him Hcalm Hf Hnid Hk Hq.
  destruct (run_ops_ok ops m 0 t [] nid fuel (k + 12 * (Z.of_nat (length ops) + 1))) as (t' & m' & h & ls & nid' & Hrun & Hq' & Hh & Hw & Hmap);
    try done; [by unfold well_formed, grown; rewrite Hroot|lia|].
  change (assoc_map (lents [])) with (∅ : gmap Z RID) in Hmap.
  apply well_formed_tree_ok in Hw. set (es := lents ls) in *. assert (entries (strip ls) = es) as He by apply entries_strip.
  assert (sorted_keys es) as Hs.
  { rewrite <- He. unfold tree_ok in Hw. destruct (IsEmpty t'); [rewrite Hw; apply sorted_nil|by destruct Hw as (_ & _ & ?)]. }
  assert (length es ≤ length ops)%nat as Hlen.
  { pose proof (ops_map_size ops ∅) as Hsz. rewrite map_size_empty, <- Hmap in Hsz. unfold assoc_map in Hsz.
    by rewrite map_size_list_to_map in Hsz by (by apply sorted_NoDup). }
  simpl in Hh. exists t'. split; [done|]. split.
  - destruct (GetValue_ok m' h t' (strip ls) nid' key fuel k) as (t2 & H2 & _); [done|lia|done| |lia|].
    { eapply io_weaken; [|exact Hq']. lia. }
    exists t2. by rewrite H2, He, Hmap.
  - destruct (iteration_ok m' h t' (strip ls) nid' key fuel fuel k) as [(t3 & H3 & _) (t4 & H4 & _)]; [done|lia|rewrite He; lia|done| |lia|].
    { rewrite He. eapply io_weaken; [|exact Hq']. lia. }
    rewrite He in H3, H4. by exists es, t3, t4.
Qed.
End History.

(** ** Trees of two levels *)

(** The root is a leaf, or its children are: no internal page has a neighbour. *)
Definition shallow (m : gmap Z IndexPage) (root : Z) : bool :=
  match m !! root with
  | Some (PageInternal p) => forallb (λ e, match m !! e.2 with Some (PageLeaf _) => true | _ => false end) (int_entries p)
  | _ => true
  end.

Lemma shallow_calm {Pool} m h (t : BPlusTree Pool) ls key : well_formed m h t ls → shallow m (root_page_id_ t) = true →
  root_page_id_ t ≠ INVALID_PAGE_ID ∨ m !! INVALID_PAGE_ID = None → calm (internal_max_size_ t) m h (root_page_id_ t) key = true.
Proof.
  intros Hw Hsh Hroot. destruct h as [|[|h]]; [done|done|]. unfold well_formed, grown in Hw.
  destruct (Z.eqb_spec (root_page_id_ t) INVALID_PAGE_ID) as [Heq|_].
  - destruct Hroot as [|Hnone]; [done|]. cbn [calm]. by rewrite Heq, Hnone.
  - destruct Hw as [(pgs & Hs & _) _]. destruct Hs as (p & cs & Hp & [_ _ _ Hk] & _ & Hne%enough_children & _ & Hkids & _).
    exfalso. destruct cs as [|c cs]; [done|]. apply Forall_cons in Hkids as [(q & cs' & Hq & _) _].
    unfold shallow in Hsh. rewrite Hp in Hsh. destruct (int_entries p) as [|[k0 x] l]; [done|]. destruct Hk as [-> _].
    simpl in Hsh. by rewrite Hq in Hsh.
Qed.

(** ** Witness *)

Definition fresh_tree : BPlusTree (Store IndexPage) := mkTree (mkStore ∅ ∅ ∅ 0) INVALID_PAGE_ID 2 4.
Definition ins (key : Z) : index_op := Ins key (mkRID key 0).
(** Three splits, a borrow, three merges, and the root gives way. *)
Definition demo_ops : list index_op := [ins 3; ins 1; ins 2; ins 4; ins 5; Del 1; Del 9; Del 3; Del 4; Del 2; ins 7].

(** The removals of a history find trees of two levels. *)
Fixpoint shallow_ops (fuel : nat) (ops : list index_op) (t : BPlusTree (Store IndexPage)) : bool :=
  match ops with
  | [] => true
  | o :: ops =>
      match o with
      | Ins _ _ => true
      | Del _ => shallow (contents (bpm_ t)) (root_page_id_ t) && match contents (bpm_ t) !! INVALID_PAGE_ID with None => true | Some _ => false end
      end && shallow_ops fuel ops (run_op (PIO := demo_io) fuel o t).2
  end.

Lemma shallow_ops_calm fuel ops : ∀ t, shallow_ops fuel ops t = true → calm_ops (PIO := demo_io) fuel ops t.
Proof.
  induction ops as [|o ops IH]; intros t; [done|]. intros [Ho Hops]%andb_true_iff. split; [|by apply IH]. destruct o as [|key]; [done|].
  apply andb_true_iff in Ho as [Hs Hn]. intros m h nid k ls Hk Hq Hw. destruct Hq as (Heq & _). simpl in Heq. rewrite <- Heq in Hs, Hn. simpl in Hs, Hn.
  eapply shallow_calm; [exact Hw|done|]. right. by destruct (m !! INVALID_PAGE_ID).
Qed.

Lemma btree_history_witness : ∃ t' t2 es t3,
  run_ops (PIO := demo_io) 12 demo_ops fresh_tree = (Ok tt, t') ∧ GetValue (PageIO0 := demo_io) 12 5 t' = (Ok (Some (mkRID 5 0)), t2) ∧
  (it ← Begin (PageIO0 := demo_io) 12; scan (PageIO0 := demo_io) 12 it) t' = (Ok es, t3) ∧ assoc_map es = ops_map demo_ops ∅.
Proof.
  destruct (btree_history (PIO := demo_io) eq_refl ltac:(by vm_compute) demo_ops ∅ fresh_tree 0 5 12 0) as (t' & H1 & (t2 & H2) & es & t3 & t4 & H3 & _ & _ & H4).
  - reflexivity.
  - by vm_compute.
  - by vm_compute.
  - apply shallow_ops_calm. vm_compute. reflexivity.
  - simpl. lia.
  - lia.
  - lia.
  - split; [done|]. split; intros p Hp; simpl in Hp; rewrite lookup_empty in Hp; by destruct Hp.
  - exists t', t2, es, t3. by split_and!.
Defined.
