(* ===== verification/Value.v ===== *)
(** * Values and types

    [src/src/type/value.cpp], [type.cpp] and their headers.  A [Value] is a
    tagged union: [integer_], [float_] and [boolean_] share the four bytes kept
    here as one 32-bit pattern, whatever the tag.  A [float] is its IEEE 754
    binary32 pattern; its arithmetic and comparisons are those of Stdlib's
    [SpecFloat] (a result that is not a number is the quiet NaN, whose sign and
    payload the hardware chooses).  The text of a float is made by the [fmt]
    library and is a parameter. *)

From Stdlib Require Import Floats.SpecFloat.
From stdpp Require Import pretty.
From S2P Require Import Prelude.

Inductive TypeId := INVALID | BOOLEAN | INTEGER | FLOAT | VARCHAR.
#[global] Instance TypeId_eq_dec : EqDecision TypeId.
Proof. solve_decision. Defined.

Definition GetTypeSize (t : TypeId) : res Z :=
  match t with
  | BOOLEAN => Ok 1
  | INTEGER | FLOAT => Ok 4
  | VARCHAR => Ok 0
  | INVALID => Throw (LogicError "Unknown type")
  end.

Definition TypeIdToString (t : TypeId) : string :=
  match t with
  | INVALID => "INVALID"
  | BOOLEAN => "BOOLEAN"
  | INTEGER => "INTEGER"
  | FLOAT => "FLOAT"
  | VARCHAR => "VARCHAR"
  end.

Definition IsCoercableTo (from to : TypeId) : bool :=
  if decide (from = to) then true
  else if decide (from = INTEGER ∧ to = FLOAT) then true
  else false.

(** ** Floats as 32-bit patterns *)

Definition b32_of_bits (z : Z) : spec_float :=
  let s := Z.testbit z 31 in
  let e := z / 2 ^ 23 mod 2 ^ 8 in
  let m := z mod 2 ^ 23 in
  if e =? 255 then (if m =? 0 then S754_infinity s else S754_nan)
  else if e =? 0 then (if m =? 0 then S754_zero s else S754_finite s (Z.to_pos m) (-149))
  else S754_finite s (Z.to_pos (2 ^ 23 + m)) (e - 150).

Definition sign_bit (s : bool) : Z := if s then 2 ^ 31 else 0.
Definition bits_of_b32 (f : spec_float) : Z :=
  match f with
  | S754_zero s => sign_bit s
  | S754_infinity s => sign_bit s + 255 * 2 ^ 23
  | S754_nan => 255 * 2 ^ 23 + 2 ^ 22
  | S754_finite s m e =>
      if Z.pos m <? 2 ^ 23 then sign_bit s + Z.pos m
      else sign_bit s + (e + 150) * 2 ^ 23 + (Z.pos m - 2 ^ 23)
  end.

Definition lift2 (op : spec_float → spec_float → spec_float) (a b : Z) : Z :=
  bits_of_b32 (op (b32_of_bits a) (b32_of_bits b)).
Definition float_add := lift2 (SFadd 24 128).
Definition float_sub := lift2 (SFsub 24 128).
Definition float_mul := lift2 (SFmul 24 128).
Definition float_div := lift2 (SFdiv 24 128).
Definition float_ltb (a b : Z) : bool := SFltb (b32_of_bits a) (b32_of_bits b).
Definition float_leb (a b : Z) : bool := SFleb (b32_of_bits a) (b32_of_bits b).
Definition float_eqb (a b : Z) : bool := SFeqb (b32_of_bits a) (b32_of_bits b).

(** ** Values ([value.h]) *)
Record Value := mkValue { type_id_ : TypeId; union_ : Z; varchar_ : string; is_null_ : bool }.
#[global] Instance Value_eq_dec : EqDecision Value.
Proof. solve_decision. Defined.

(** The members of the union. *)
Definition integer_ (v : Value) : Z := i32 (union_ v).
Definition float_ (v : Value) : Z := union_ v.
Definition boolean_ (v : Value) : bool := negb (u8 (union_ v) =? 0).

(** The constructors. *)
Definition Value_default : Value := mkValue INVALID 0 "" true.
Definition Value_null (t : TypeId) : Value := mkValue t 0 "" true.
Definition Value_int (t : TypeId) (i : Z) : Value := mkValue t (u32 i) "" false.
Definition Value_float (t : TypeId) (f : Z) : Value := mkValue t f "" false.
Definition Value_bool (t : TypeId) (b : bool) : Value := mkValue t (Z.b2z b) "" false.
Definition Value_string (t : TypeId) (s : string) : Value := mkValue t 0 s false.

(** [ONEBASE_ASSERT]. *)
Definition assert (b : bool) (msg : string) : res unit := if b then Ok tt else Throw (LogicError msg).
Definition has_type (t : TypeId) (v : Value) : bool := bool_decide (type_id_ v = t).
Definition same_type (a b : Value) : bool := bool_decide (type_id_ a = type_id_ b).

Definition GetAsInteger (v : Value) : res Z := assert (has_type INTEGER v) "Value is not an integer";; Ok (integer_ v).
Definition GetAsFloat (v : Value) : res Z := assert (has_type FLOAT v) "Value is not a float";; Ok (float_ v).
Definition GetAsBoolean (v : Value) : res bool := assert (has_type BOOLEAN v) "Value is not a boolean";; Ok (boolean_ v).
Definition GetAsString (v : Value) : res string := assert (has_type VARCHAR v) "Value is not a varchar";; Ok (varchar_ v).

(** *** Comparisons.  None of them looks at [is_null_]. *)
Definition mismatch : string := "Type mismatch in comparison".
Definition bad_compare : res Value := Throw (LogicError "Unsupported type for comparison").
Definition bool_value (b : bool) : res Value := Ok (Value_bool BOOLEAN b).

Definition CompareLessThan (a b : Value) : res Value :=
  assert (same_type a b) mismatch;;
  match type_id_ a with
  | INTEGER => bool_value (integer_ a <? integer_ b)
  | FLOAT => bool_value (float_ltb (float_ a) (float_ b))
  | VARCHAR => bool_value (String.ltb (varchar_ a) (varchar_ b))
  | _ => bad_compare
  end.
Definition CompareGreaterThan (a b : Value) : res Value :=
  assert (same_type a b) mismatch;;
  match type_id_ a with
  | INTEGER => bool_value (integer_ a >? integer_ b)
  | FLOAT => bool_value (float_ltb (float_ b) (float_ a))
  | VARCHAR => bool_value (String.ltb (varchar_ b) (varchar_ a))
  | _ => bad_compare
  end.
Definition CompareLessThanOrEqual (a b : Value) : res Value :=
  assert (same_type a b) mismatch;;
  match type_id_ a with
  | INTEGER => bool_value (integer_ a <=? integer_ b)
  | FLOAT => bool_value (float_leb (float_ a) (float_ b))
  | VARCHAR => bool_value (String.leb (varchar_ a) (varchar_ b))
  | _ => bad_compare
  end.
Definition CompareGreaterThanOrEqual (a b : Value) : res Value :=
  assert (same_type a b) mismatch;;
  match type_id_ a with
  | INTEGER => bool_value (integer_ a >=? integer_ b)
  | FLOAT => bool_value (float_leb (float_ b) (float_ a))
  | VARCHAR => bool_value (String.leb (varchar_ b) (varchar_ a))
  | _ => bad_compare
  end.
Definition CompareEquals (a b : Value) : res Value :=
  assert (same_type a b) mismatch;;
  match type_id_ a with
  | INTEGER => bool_value (integer_ a =? integer_ b)
  | FLOAT => bool_value (float_eqb (float_ a) (float_ b))
  | BOOLEAN => bool_value (Bool.eqb (boolean_ a) (boolean_ b))
  | VARCHAR => bool_value (String.eqb (varchar_ a) (varchar_ b))
  | INVALID => bad_compare
  end.
Definition CompareNotEquals (a b : Value) : res Value :=
  assert (same_type a b) mismatch;;
  match type_id_ a with
  | INTEGER => bool_value (negb (integer_ a =? integer_ b))
  | FLOAT => bool_value (negb (float_eqb (float_ a) (float_ b)))
  | BOOLEAN => bool_value (negb (Bool.eqb (boolean_ a) (boolean_ b)))
  | VARCHAR => bool_value (negb (String.eqb (varchar_ a) (varchar_ b)))
  | INVALID => bad_compare
  end.

(** *** Arithmetic: a signed overflow is undefined. *)
Definition arith_mismatch : string := "Type mismatch in arithmetic".
Definition int_value (m : res Z) : res Value := i ← m; Ok (Value_int INTEGER i).

Definition Add (a b : Value) : res Value :=
  assert (same_type a b) arith_mismatch;;
  match type_id_ a with
  | INTEGER => int_value (i32_arith (integer_ a + integer_ b))
  | FLOAT => Ok (Value_float FLOAT (float_add (float_ a) (float_ b)))
  | _ => Throw (LogicError "Unsupported type for addition")
  end.
Definition Subtract (a b : Value) : res Value :=
  assert (same_type a b) arith_mismatch;;
  match type_id_ a with
  | INTEGER => int_value (i32_arith (integer_ a - integer_ b))
  | FLOAT => Ok (Value_float FLOAT (float_sub (float_ a) (float_ b)))
  | _ => Throw (LogicError "Unsupported type for subtraction")
  end.
Definition Multiply (a b : Value) : res Value :=
  assert (same_type a b) arith_mismatch;;
  match type_id_ a with
  | INTEGER => int_value (i32_arith (integer_ a * integer_ b))
  | FLOAT => Ok (Value_float FLOAT (float_mul (float_ a) (float_ b)))
  | _ => Throw (LogicError "Unsupported type for multiplication")
  end.
Definition Divide (a b : Value) : res Value :=
  assert (same_type a b) arith_mismatch;;
  match type_id_ a with
  | INTEGER =>
      assert (negb (integer_ b =? 0)) "Division by zero";;
      int_value (i32_arith (Z.quot (integer_ a) (integer_ b)))
  | FLOAT =>
      assert (negb (float_eqb (float_ b) 0)) "Division by zero";;
      Ok (Value_float FLOAT (float_div (float_ a) (float_ b)))
  | _ => Throw (LogicError "Unsupported type for division")
  end.
(** [%] is undefined when the quotient overflows. *)
Definition Modulo (a b : Value) : res Value :=
  assert (same_type a b) arith_mismatch;;
  match type_id_ a with
  | INTEGER =>
      assert (negb (integer_ b =? 0)) "Modulo by zero";;
      i32_arith (Z.quot (integer_ a) (integer_ b));;
      Ok (Value_int INTEGER (Z.rem (integer_ a) (integer_ b)))
  | _ => Throw (LogicError "Unsupported type for modulo")
  end.

(** *** Logic *)
Definition And (a b : Value) : res Value :=
  assert (has_type BOOLEAN a && has_type BOOLEAN b) "AND requires boolean";;
  bool_value (boolean_ a && boolean_ b).
Definition Or (a b : Value) : res Value :=
  assert (has_type BOOLEAN a && has_type BOOLEAN b) "OR requires boolean";;
  bool_value (boolean_ a || boolean_ b).
Definition Not (a : Value) : res Value :=
  assert (has_type BOOLEAN a) "NOT requires boolean";; bool_value (negb (boolean_ a)).

(** *** Serialization: the bytes written from [storage] on, and the value read
    there.  A [bool] object holding another byte than 0 or 1 is undefined. *)
Definition SerializeTo (v : Value) : res bytes :=
  match type_id_ v with
  | BOOLEAN => Ok (le_encode 1 (Z.b2z (boolean_ v)))
  | INTEGER | FLOAT => Ok (le_encode 4 (union_ v))
  | VARCHAR =>
      let s := String.list_ascii_of_string (varchar_ v) in
      let len := u32 (Z.of_nat (length s)) in
      Ok (le_encode 4 len ++ take (Z.to_nat len) s)
  | INVALID => Throw (LogicError "Unsupported type for serialization")
  end.

Definition DeserializeFrom (data : bytes) (off : Z) (t : TypeId) : res Value :=
  match t with
  | BOOLEAN =>
      bs ← mem_read data off 1;
      if le_decode bs =? 0 then Ok (Value_bool t false)
      else if le_decode bs =? 1 then Ok (Value_bool t true) else UB
  | INTEGER => bs ← mem_read data off 4; Ok (Value_int t (le_decode bs))
  | FLOAT => bs ← mem_read data off 4; Ok (Value_float t (le_decode bs))
  | VARCHAR =>
      len ← mem_read data off 4;
      bs ← mem_read data (off + 4) (le_decode len);
      Ok (Value_string t (String.string_of_list_ascii bs))
  | INVALID => Throw (LogicError "Unsupported type for deserialization")
  end.

Definition GetSerializedSize (v : Value) : res Z :=
  match type_id_ v with
  | BOOLEAN => Ok 1
  | INTEGER | FLOAT => Ok 4
  | VARCHAR => Ok (u32 (4 + u32 (Z.of_nat (String.length (varchar_ v)))))
  | INVALID => Throw (LogicError "Unsupported type for GetSerializedSize")
  end.

(** *** Text; [fmt_2f] is [fmt::format("{:.2f}", f)]. *)
Definition ToString (fmt_2f : Z → string) (v : Value) : string :=
  if is_null_ v then "NULL"
  else match type_id_ v with
  | BOOLEAN => if boolean_ v then "true" else "false"
  | INTEGER => pretty (integer_ v)
  | FLOAT => fmt_2f (float_ v)
  | VARCHAR => varchar_ v
  | INVALID => "<INVALID>"
  end.

(** ** Lemmas on floats *)

Lemma testbit_sign z : 0 ≤ z < 2 ^ 32 → sign_bit (Z.testbit z 31) = z / 2 ^ 31 * 2 ^ 31.
Proof.
  intros Hz. rewrite Z.testbit_odd, Z.shiftr_div_pow2 by lia.
  assert (z / 2 ^ 31 = 0 ∨ z / 2 ^ 31 = 1) as [-> | ->]; [|reflexivity..].
  assert (0 ≤ z / 2 ^ 31 < 2); [|lia]. split; [by apply Z.div_pos; lia|by apply Z.div_lt_upper_bound; lia].
Qed.

(** The three fields of a pattern. *)
Lemma b32_fields z : 0 ≤ z < 2 ^ 32 →
  z = sign_bit (Z.testbit z 31) + z / 2 ^ 23 mod 2 ^ 8 * 2 ^ 23 + z mod 2 ^ 23.
Proof.
  intros Hz. rewrite testbit_sign by done.
  replace (z / 2 ^ 31) with (z / 2 ^ 23 / 2 ^ 8) by (rewrite Z.div_div by lia; reflexivity).
  pose proof (Z.div_mod z (2 ^ 23) ltac:(lia)). pose proof (Z.div_mod (z / 2 ^ 23) (2 ^ 8) ltac:(lia)). lia.
Qed.

(** Decoding and encoding give the pattern back, except for the many NaNs. *)
Lemma b32_roundtrip z : 0 ≤ z < 2 ^ 32 → b32_of_bits z ≠ S754_nan → bits_of_b32 (b32_of_bits z) = z.
Proof.
  intros Hz. pose proof (b32_fields z Hz) as Hf. revert Hf. unfold b32_of_bits.
  pose proof (Z.mod_pos_bound z (2 ^ 23) ltac:(lia)). pose proof (Z.mod_pos_bound (z / 2 ^ 23) (2 ^ 8) ltac:(lia)).
  generalize dependent (z mod 2 ^ 23). generalize dependent (z / 2 ^ 23 mod 2 ^ 8). intros e He m Hm Hf.
  destruct (Z.eqb_spec e 255); [|destruct (Z.eqb_spec e 0)].
  - destruct (Z.eqb_spec m 0); [|done]. intros _. cbn [bits_of_b32]. lia.
  - intros _. destruct (Z.eqb_spec m 0); cbn [bits_of_b32]; [lia|].
    rewrite Z2Pos.id by lia. rewrite (proj2 (Z.ltb_lt _ _)) by lia. lia.
  - intros _. cbn [bits_of_b32]. rewrite Z2Pos.id by lia. rewrite (proj2 (Z.ltb_ge _ _)) by lia. lia.
Qed.

Lemma pos_compare_swap m n : PosDef.Pos.compare n m = CompOpp (PosDef.Pos.compare m n).
Proof. change (Pos.compare n m = CompOpp (Pos.compare m n)). apply Pos.compare_antisym. Qed.

Lemma SFcompare_swap x y : SFcompare y x = CompOpp <$> SFcompare x y.
Proof.
  destruct x as [[]|[]| |[] m e], y as [[]|[]| |[] n f]; try reflexivity; simpl; f_equal;
    rewrite (Z.compare_antisym e f); destruct (e ?= f) eqn:E; simpl; try done; by rewrite pos_compare_swap.
Qed.

Lemma SFcompare_total x y : x ≠ S754_nan → y ≠ S754_nan → is_Some (SFcompare x y).
Proof.
  intros. destruct x as [[]|[]| |[] m e], y as [[]|[]| |[] n f]; simpl; try done; try (by eexists);
    destruct (e ?= f); by eexists.
Qed.

(** ** Comparisons *)

(** The order of two values of one ordered type, none of them a NaN. *)
Definition value_compare (a b : Value) : option comparison :=
  if negb (same_type a b) then None else
  match type_id_ a with
  | INTEGER => Some (integer_ a ?= integer_ b)
  | FLOAT => SFcompare (b32_of_bits (float_ a)) (b32_of_bits (float_ b))
  | VARCHAR => Some (String.compare (varchar_ a) (varchar_ b))
  | _ => None
  end.

Definition is_lt (c : comparison) : bool := match c with Lt => true | _ => false end.
Definition is_gt (c : comparison) : bool := match c with Gt => true | _ => false end.
Definition is_eq (c : comparison) : bool := match c with Eq => true | _ => false end.

Lemma string_eqb_compare s t : String.eqb s t = is_eq (String.compare s t).
Proof.
  destruct (String.eqb_spec s t) as [->|Hne].
  - pose proof (String.compare_antisym t t) as H. by destruct (String.compare t t).
  - destruct (String.compare s t) eqn:E; [|done..]. by apply String.compare_eq_iff in E.
Qed.

(** The six comparisons of two values of one ordered type are the six
    readings of one three-way order, which is reversed when the operands are
    swapped, whether or not the values are NULL. *)
Lemma value_comparisons_agree a b c :
  value_compare a b = Some c →
  CompareLessThan a b = bool_value (is_lt c) ∧ CompareGreaterThan a b = bool_value (is_gt c) ∧
  CompareLessThanOrEqual a b = bool_value (negb (is_gt c)) ∧
  CompareGreaterThanOrEqual a b = bool_value (negb (is_lt c)) ∧
  CompareEquals a b = bool_value (is_eq c) ∧ CompareNotEquals a b = bool_value (negb (is_eq c)) ∧
  value_compare b a = Some (CompOpp c).
Proof.
  unfold value_compare, CompareLessThan, CompareGreaterThan, CompareLessThanOrEqual,
    CompareGreaterThanOrEqual, CompareEquals, CompareNotEquals, same_type, assert.
  destruct (decide (type_id_ a = type_id_ b)) as [He|]; [|by rewrite bool_decide_false].
  rewrite !bool_decide_true by done. rewrite <- He. simpl. destruct (type_id_ a); intros [= Hc]; subst.
  - unfold Z.ltb, Z.leb, Z.gtb, Z.geb. rewrite Z.eqb_compare, (Z.compare_antisym (integer_ a)).
    destruct (integer_ a ?= integer_ b); done.
  - unfold float_ltb, float_leb, float_eqb, SFltb, SFleb, SFeqb.
    rewrite (SFcompare_swap (b32_of_bits (float_ a))), Hc. by destruct c.
  - unfold String.ltb, String.leb. rewrite string_eqb_compare, (String.compare_antisym (varchar_ b)).
    destruct (String.compare (varchar_ a) (varchar_ b)); done.
Qed.

Lemma value_comparisons_agree_witness :
  CompareLessThan (Value_string VARCHAR "ab") (Value_string VARCHAR "b") = bool_value true.
Proof.
  apply (value_comparisons_agree (Value_string VARCHAR "ab") (Value_string VARCHAR "b") Lt). reflexivity.
Defined.

(** ** Arithmetic *)

Lemma i32_small z : in_i32 z = true → i32 z = z.
Proof.
  unfold in_i32, i32, INT32_MIN, INT32_MAX. rewrite andb_true_iff, !Z.leb_le. intros.
  rewrite Z.mod_small by lia. lia.
Qed.
Lemma i32_u32 z : i32 (u32 z) = i32 z.
Proof. unfold i32, u32. by rewrite Zplus_mod_idemp_l. Qed.
Lemma i32_range z : in_i32 (i32 z) = true.
Proof.
  unfold in_i32, i32, INT32_MIN, INT32_MAX. pose proof (Z.mod_pos_bound (z + 2 ^ 31) (2 ^ 32) ltac:(lia)).
  rewrite andb_true_iff, !Z.leb_le. lia.
Qed.
Lemma integer_Value_int t i : in_i32 i = true → integer_ (Value_int t i) = i.
Proof. intros. unfold integer_; simpl. rewrite i32_u32. by apply i32_small. Qed.

(** An exact result, or nothing defined. *)
Definition exact (m : res Value) (z : Z) : Prop :=
  if in_i32 z then ∃ v, m = Ok v ∧ type_id_ v = INTEGER ∧ is_null_ v = false ∧ integer_ v = z else m = UB.

Lemma exact_arith z : exact (int_value (i32_arith z)) z.
Proof.
  unfold exact, i32_arith. destruct (in_i32 z) eqn:E; [|done]. simpl. eexists. split; [reflexivity|].
  split_and!; [done|done|by apply integer_Value_int].
Qed.

Lemma rem_in_i32 a b : in_i32 b = true → b ≠ 0 → in_i32 (Z.rem a b) = true.
Proof.
  unfold in_i32, INT32_MIN, INT32_MAX. rewrite !andb_true_iff, !Z.leb_le. intros.
  pose proof (Z.rem_bound_abs a b ltac:(done)). lia.
Qed.

(** C35: arithmetic on INTEGER values is exact or undefined.  Sum, difference,
    product and quotient are the mathematical ones when they fit 32 bits and
    undefined otherwise; quotient and remainder truncate towards zero, are both
    defined except for [INT32_MIN / -1], and dividing by zero throws. *)
Theorem integer_arithmetic a b :
  type_id_ a = INTEGER → type_id_ b = INTEGER →
  exact (Add a b) (integer_ a + integer_ b) ∧ exact (Subtract a b) (integer_ a - integer_ b) ∧
  exact (Multiply a b) (integer_ a * integer_ b) ∧
  if decide (integer_ b = 0) then
    Divide a b = Throw (LogicError "Division by zero") ∧ Modulo a b = Throw (LogicError "Modulo by zero")
  else if decide (integer_ a = INT32_MIN ∧ integer_ b = -1) then Divide a b = UB ∧ Modulo a b = UB
  else ∃ q r, Divide a b = Ok q ∧ Modulo a b = Ok r ∧ integer_ a = integer_ b * integer_ q + integer_ r ∧
    Z.abs (integer_ r) < Z.abs (integer_ b) ∧ 0 ≤ integer_ r * integer_ a.
Proof.
  intros Ha Hb. unfold Add, Subtract, Multiply, Divide, Modulo, assert, same_type.
  rewrite Ha, Hb, bool_decide_true by done. cbn [mbind res_bind].
  split; [apply exact_arith|]. split; [apply exact_arith|]. split; [apply exact_arith|].
  pose proof (i32_range (union_ a)) as Hra. pose proof (i32_range (union_ b)) as Hrb.
  fold (integer_ a) in Hra. fold (integer_ b) in Hrb. case_decide as Hz; [by rewrite Hz|].
  rewrite (proj2 (Z.eqb_neq _ _) Hz). cbn [negb mbind res_bind].
  assert (in_i32 (Z.quot (integer_ a) (integer_ b)) = true ↔ ¬ (integer_ a = INT32_MIN ∧ integer_ b = -1)) as Hq.
  { clear -Hra Hrb Hz. unfold in_i32, INT32_MIN, INT32_MAX in *. rewrite andb_true_iff, !Z.leb_le in *.
    generalize dependent (integer_ a). generalize dependent (integer_ b). intros y Hy Hy0 x Hx. split.
    - intros Hq [-> ->]. vm_compute in Hq. naive_solver.
    - intros Hn. assert (y = 1 ∨ y = -1 ∨ 2 ≤ Z.abs y) as [->|[->|]] by lia.
      + rewrite Z.quot_1_r. lia.
      + change (-1) with (- (1)) in *. rewrite Z.quot_opp_r, Z.quot_1_r by lia. lia.
      + assert (Z.abs (Z.quot x y) ≤ Z.quot (Z.abs x) 2).
        { rewrite <- Z.quot_abs by done. apply Z.quot_le_compat_l; lia. }
        Z.to_euclidean_division_equations; lia. }
  unfold i32_arith. case_decide as Hmin.
  - destruct (in_i32 (Z.quot (integer_ a) (integer_ b))) eqn:E; [|done].
    exfalso. by apply Hq.
  - rewrite (proj2 Hq Hmin). cbn [int_value mbind res_bind]. eexists _, _. split; [reflexivity|]. split; [reflexivity|].
    rewrite !integer_Value_int by (by apply Hq || by apply rem_in_i32).
    split; [apply Z.quot_rem'|]. split; [by apply Z.rem_bound_abs|].
    pose proof (Z.rem_sign_mul (integer_ a) (integer_ b) Hz). lia.
Qed.

Lemma integer_arithmetic_witness :
  Add (Value_int INTEGER 2147483647) (Value_int INTEGER 1) = UB.
Proof.
  destruct (integer_arithmetic (Value_int INTEGER 2147483647) (Value_int INTEGER 1)) as [H _];
    [reflexivity..|exact H].
Defined.

(** ** Serialization *)

(** What the constructors and the operations build. *)
Definition value_ok (v : Value) : Prop :=
  match type_id_ v with
  | INVALID => False
  | BOOLEAN => (union_ v = 0 ∨ union_ v = 1) ∧ varchar_ v = ""
  | INTEGER | FLOAT => 0 ≤ union_ v < 2 ^ 32 ∧ varchar_ v = ""
  | VARCHAR => union_ v = 0 ∧ Z.of_nat (String.length (varchar_ v)) < 2 ^ 32 - 4
  end.

(** A value that is not marked NULL. *)
Definition not_null (v : Value) : Value := mkValue (type_id_ v) (union_ v) (varchar_ v) false.

Lemma length_list_ascii s : length (String.list_ascii_of_string s) = String.length s.
Proof. induction s as [|c s IH]; simpl; congruence. Qed.

Lemma mem_read_app pre bs post (off len : Z) :
  off = Z.of_nat (length pre) → len = Z.of_nat (length bs) → mem_read (pre ++ bs ++ post) off len = Ok bs.
Proof.
  intros -> ->. rewrite mem_read_ok by (rewrite ?length_app; lia).
  rewrite !Nat2Z.id, drop_app_length, take_app_length. done.
Qed.

Lemma mem_read_le pre n z post off len :
  0 ≤ z < 256 ^ Z.of_nat n → off = Z.of_nat (length pre) → len = Z.of_nat n →
  ∃ bs, mem_read (pre ++ le_encode n z ++ post) off len = Ok bs ∧ le_decode bs = z.
Proof.
  intros Hz -> ->. eexists. split; [apply mem_read_app; rewrite ?length_le_encode; done|].
  rewrite le_decode_encode. by apply Z.mod_small.
Qed.

(** The size announced is the number of bytes written, and reading them back
    anywhere in a buffer gives the value without its NULL mark. *)
Lemma value_serialize_ok v : value_ok v →
  ∃ bs, SerializeTo v = Ok bs ∧ GetSerializedSize v = Ok (Z.of_nat (length bs)) ∧
    ∀ pre post, DeserializeFrom (pre ++ bs ++ post) (Z.of_nat (length pre)) (type_id_ v) = Ok (not_null v).
Proof.
  unfold value_ok, SerializeTo, GetSerializedSize, DeserializeFrom.
  destruct v as [[] u s n]; cbn [type_id_ union_ varchar_ is_null_]; [done|..].
  - intros [Hu ->]. eexists. split; [reflexivity|]. split; [by rewrite length_le_encode|]. intros pre post.
    destruct Hu as [->| ->];
      [destruct (mem_read_le pre 1 0 post (Z.of_nat (length pre)) 1) as (bs & Hr & Hd)
      |destruct (mem_read_le pre 1 1 post (Z.of_nat (length pre)) 1) as (bs & Hr & Hd)];
      try done; unfold boolean_; cbn -[mem_read le_encode] in Hr |- *; by rewrite (res_bind_ok _ _ _ Hr), Hd.
  - intros [Hu ->]. eexists. split; [reflexivity|]. split; [by rewrite length_le_encode|]. intros pre post.
    destruct (mem_read_le pre 4 u post (Z.of_nat (length pre)) 4) as (bs & Hr & Hd); [done..|].
    rewrite (res_bind_ok _ _ _ Hr), Hd. unfold Value_int, not_null, u32; simpl. by rewrite Z.mod_small.
  - intros [Hu ->]. eexists. split; [reflexivity|]. split; [by rewrite length_le_encode|]. intros pre post.
    destruct (mem_read_le pre 4 u post (Z.of_nat (length pre)) 4) as (bs & Hr & Hd); [done..|].
    by rewrite (res_bind_ok _ _ _ Hr), Hd.
  - intros [-> Hs]. rewrite length_list_ascii. set (k := Z.of_nat (String.length s)) in *.
    unfold u32. rewrite (Z.mod_small k) by lia. rewrite (Z.mod_small (4 + k)) by lia.
    rewrite take_ge by (rewrite length_list_ascii; lia). eexists. split; [reflexivity|].
    rewrite length_app, length_le_encode, length_list_ascii. split; [f_equal; lia|]. intros pre post.
    rewrite <- app_assoc. destruct (mem_read_le pre 4 k (String.list_ascii_of_string s ++ post) (Z.of_nat (length pre)) 4)
      as (bs & Hr & Hd); [lia|done..|].
    rewrite (res_bind_ok _ _ _ Hr), Hd.
    assert (mem_read (pre ++ le_encode 4 k ++ String.list_ascii_of_string s ++ post) (Z.of_nat (length pre) + 4) k
            = Ok (String.list_ascii_of_string s)) as Hr2.
    { rewrite app_assoc. apply mem_read_app; rewrite ?length_app, ?length_le_encode, ?length_list_ascii; lia. }
    rewrite (res_bind_ok _ _ _ Hr2), String.string_of_list_ascii_of_string. done.
Qed.

(** Serialization round trip.  Reading a written value back, at any place of
    a buffer, gives the value itself when it is not NULL; a NULL comes back as the
    value zero, false or the empty string that its union and string hold. *)
Lemma value_roundtrip v pre post :
  value_ok v →
  ∃ bs, SerializeTo v = Ok bs ∧ GetSerializedSize v = Ok (Z.of_nat (length bs)) ∧
    DeserializeFrom (pre ++ bs ++ post) (Z.of_nat (length pre)) (type_id_ v)
      = Ok (if is_null_ v then not_null v else v).
Proof.
  intros Hv. destruct (value_serialize_ok v Hv) as (bs & Hs & Hsz & Hd). exists bs. split_and!; [done..|].
  rewrite Hd. by destruct v as [? ? ? []].
Qed.

Lemma value_roundtrip_witness :
  ∃ bs, SerializeTo (Value_string VARCHAR "abc") = Ok bs ∧
    DeserializeFrom ([Ascii.zero] ++ bs ++ [Ascii.one]) 1 VARCHAR = Ok (Value_string VARCHAR "abc").
Proof.
  destruct (value_roundtrip (Value_string VARCHAR "abc") [Ascii.zero] [Ascii.one]) as (bs & H1 & _ & H2);
    [split; [reflexivity|vm_compute; reflexivity]|by exists bs].
Defined.
