(* ===== verification/Tuple.v ===== *)
(** * Columns, schemas and tuples

    [src/src/include/onebase/catalog/column.h], [schema.h] and
    [src/src/storage/table/tuple.cpp].  A tuple made from values keeps them next
    to their bytes; a tuple read from a page has only bytes, in which a column is
    found by the offset its schema gives. *)

From S2P Require Import Prelude Common Value.

(** ** Columns ([column.h]) *)
Record Column := mkColumn {
  col_name : string;
  col_type : TypeId;
  col_length : Z;
  col_fixed_length : Z;
  col_variable_length : Z;
  col_offset : Z
}.

Definition GetFixedLengthFor (t : TypeId) : Z :=
  match t with BOOLEAN => 1 | INTEGER => 4 | FLOAT => 8 | _ => 0 end.

Definition Column_new (name : string) (type : TypeId) (length : Z) : Column :=
  if decide (type = VARCHAR) then
    let length := if length =? 0 then 256 else length in
    mkColumn name type length 4 length 0
  else mkColumn name type length (GetFixedLengthFor type) 0 0.

Definition SetOffset (offset : Z) (c : Column) : Column :=
  mkColumn (col_name c) (col_type c) (col_length c) (col_fixed_length c) (col_variable_length c) offset.
Definition IsInlined (c : Column) : bool := negb (bool_decide (col_type c = VARCHAR)).
Definition Column_ToString (c : Column) : string := col_name c +:+ ":" +:+ TypeIdToString (col_type c).

(** ** Schemas ([schema.h]) *)
Record Schema := mkSchema { columns_ : list Column; tuple_length_ : Z }.

(** The loop of the constructor: columns with their offsets, and the total. *)
Fixpoint assign_offsets (offset : Z) (cols : list Column) : list Column * Z :=
  match cols with
  | [] => ([], offset)
  | c :: cols =>
      let next := if IsInlined c then u32 (offset + col_fixed_length c) else u32 (offset + 4) in
      let '(rest, total) := assign_offsets next cols in (SetOffset offset c :: rest, total)
  end.

Definition Schema_new (cols : list Column) : Schema :=
  let '(cs, total) := assign_offsets 0 cols in mkSchema cs total.

Definition GetColumn (s : Schema) (idx : Z) : res Column := arr_get (columns_ s) idx.
Definition GetColumnCount (s : Schema) : Z := u32 (Z.of_nat (length (columns_ s))).

Fixpoint column_idx_from (i : Z) (name : string) (cs : list Column) : Z :=
  match cs with
  | [] => UINT32_MAX
  | c :: cs => if String.eqb (col_name c) name then i else column_idx_from (i + 1) name cs
  end.
Definition GetColumnIdx (s : Schema) (name : string) : Z := column_idx_from 0 name (columns_ s).

Fixpoint joined (sep : string) (l : list string) : string :=
  match l with
  | [] => ""
  | [s] => s
  | s :: l => s +:+ sep +:+ joined sep l
  end.
Definition Schema_ToString (s : Schema) : string := "(" +:+ joined ", " (Column_ToString <$> columns_ s) +:+ ")".

(** ** Tuples ([tuple.cpp]) *)
Record Tuple := mkTuple { rid_ : RID; data_ : bytes; values_ : list Value }.

Definition Tuple_default : Tuple := mkTuple RID_default [] [].

(** One turn of the constructor's loop: [resize], then [SerializeTo]. *)
Definition append_value (data : bytes) (v : Value) : res bytes :=
  size ← GetSerializedSize v;
  bs ← SerializeTo v;
  mem_write (data ++ replicate (Z.to_nat size) Ascii.zero) (Z.of_nat (length data)) bs.

Fixpoint append_values (data : bytes) (vs : list Value) : res bytes :=
  match vs with
  | [] => Ok data
  | v :: vs => data ← append_value data v; append_values data vs
  end.

Definition Tuple_new (values : list Value) : res Tuple :=
  data ← append_values [] values; Ok (mkTuple RID_default data values).

Definition SetRID (r : RID) (t : Tuple) : Tuple := mkTuple r (data_ t) (values_ t).
Definition GetLength (t : Tuple) : Z := u32 (Z.of_nat (length (data_ t))).

(** The two overloads of [GetValue]; an index is a [uint32_t]. *)
Definition GetValue (t : Tuple) (column_idx : Z) : Value :=
  default Value_default (values_ t !! Z.to_nat column_idx).

Definition GetValueBy (t : Tuple) (schema : Schema) (column_idx : Z) : res Value :=
  match values_ t !! Z.to_nat column_idx with
  | Some v => Ok v
  | None =>
      column ← GetColumn schema column_idx;
      DeserializeFrom (data_ t) (col_offset column) (col_type column)
  end.

Definition Tuple_ToString (fmt_2f : Z → string) (t : Tuple) : string :=
  "(" +:+ joined ", " (ToString fmt_2f <$> values_ t) +:+ ")".

Definition Tuple_SerializeTo (t : Tuple) (dest : bytes) : res bytes := mem_write dest 0 (data_ t).

(** [resize] and [memcpy]; the values, if any, stay. *)
Definition Tuple_DeserializeFrom (src : bytes) (size : Z) (t : Tuple) : res Tuple :=
  bs ← mem_read src 0 size; Ok (mkTuple (rid_ t) bs (values_ t)).

(** ** Lemmas *)

Lemma append_value_ok data v : value_ok v →
  ∃ bs, SerializeTo v = Ok bs ∧ append_value data v = Ok (data ++ bs).
Proof.
  intros Hv. destruct (value_serialize_ok v Hv) as (bs & Hs & Hsz & _). exists bs. split; [done|].
  unfold append_value. rewrite (res_bind_ok _ _ _ Hsz), (res_bind_ok _ _ _ Hs), Nat2Z.id.
  unfold mem_write. rewrite decide_True by (rewrite length_app, length_replicate; lia). f_equal.
  rewrite Nat2Z.id, take_app_length. f_equal.
  rewrite drop_ge by (rewrite length_app, length_replicate; lia). apply app_nil_r.
Qed.

Definition serialized (v : Value) : bytes := match SerializeTo v with Ok bs => bs | _ => [] end.

Lemma append_values_ok vs data : Forall value_ok vs → append_values data vs = Ok (data ++ (vs ≫= serialized)).
Proof.
  intros Hvs. revert data. induction Hvs as [|v vs Hv Hvs IH]; intros data; simpl; [by rewrite app_nil_r|].
  destruct (append_value_ok data v Hv) as (bs & Hs & Ha).
  rewrite (res_bind_ok _ _ _ Ha), IH. unfold serialized at 2. rewrite Hs. by rewrite <- app_assoc.
Qed.

Lemma Tuple_new_ok vs : Forall value_ok vs → Tuple_new vs = Ok (mkTuple RID_default (vs ≫= serialized) vs).
Proof. intros Hvs. unfold Tuple_new. by rewrite (res_bind_ok _ _ _ (append_values_ok vs [] Hvs)). Qed.

Lemma serialized_length v : value_ok v → ∃ n, GetSerializedSize v = Ok (Z.of_nat n) ∧ length (serialized v) = n.
Proof.
  intros Hv. destruct (value_serialize_ok v Hv) as (bs & Hs & Hsz & _). exists (length bs).
  unfold serialized. by rewrite Hs.
Qed.

(** The types whose column takes the bytes its values are written in. *)
Definition compact (t : TypeId) : Prop := t = BOOLEAN ∨ t = INTEGER.

Lemma compact_size c v l n :
  c = Column_new n (type_id_ v) l → value_ok v → compact (type_id_ v) →
  Z.of_nat (length (serialized v)) = col_fixed_length c ∧ IsInlined c = true ∧ 1 ≤ col_fixed_length c ≤ 4.
Proof.
  intros -> Hv Hc. destruct (serialized_length v Hv) as (k & Hk & <-). revert Hk.
  unfold GetSerializedSize, Column_new, IsInlined.
  destruct Hc as [-> | ->]; simpl; intros [= <-]; repeat split; lia.
Qed.

Lemma col_type_new n t l : col_type (Column_new n t l) = t.
Proof. unfold Column_new. by case_decide. Qed.

(** Columns built from names, types and lengths. *)
Definition make_columns (defs : list (string * TypeId * Z)) : list Column :=
  (λ d, Column_new d.1.1 d.1.2 d.2) <$> defs.

Lemma assign_offsets_cons off c cols :
  (assign_offsets off (c :: cols)).1 = SetOffset off c ::
  (assign_offsets (if IsInlined c then u32 (off + col_fixed_length c) else u32 (off + 4)) cols).1.
Proof. simpl. by destruct (assign_offsets _ cols). Qed.

(** The offsets of the columns follow the bytes of the values as long as all
    the columns before are compact. *)
Lemma assign_offsets_lookup defs vs (off : nat) i c v :
  Forall value_ok vs → (λ d, d.1.2) <$> defs = type_id_ <$> vs →
  (∀ j w, (j < i)%nat → vs !! j = Some w → compact (type_id_ w)) →
  Z.of_nat off + 4 * Z.of_nat (length defs) < 2 ^ 32 →
  (assign_offsets (Z.of_nat off) (make_columns defs)).1 !! i = Some c → vs !! i = Some v →
  col_type c = type_id_ v ∧ col_offset c = Z.of_nat off + Z.of_nat (length (take i vs ≫= serialized)).
Proof.
  revert vs off i. induction defs as [|[[n ty] l] defs IH]; intros vs off i Hvs Hty Hc Hlen Hi Hv; [done|].
  destruct vs as [|w vs]; [done|]. injection Hty as Hw Hty. simpl in Hw. inversion Hvs as [|? ? Hwok Hvs']; subst.
  unfold make_columns in Hi. rewrite fmap_cons in Hi. fold (make_columns defs) in Hi.
  rewrite assign_offsets_cons in Hi. simpl fst in Hi. simpl snd in Hi.
  destruct i as [|i].
  - injection Hv as ->. injection Hi as <-. simpl. split; [apply col_type_new|lia].
  - simpl in Hi.
    destruct (compact_size (Column_new n (type_id_ w) l) w l n) as (Hs & Hin & Hb);
      [done|done|apply (Hc 0%nat); [lia|done]|]. rewrite Hin in Hi.
    assert (u32 (Z.of_nat off + col_fixed_length (Column_new n (type_id_ w) l))
            = Z.of_nat (off + length (serialized w))) as Hoff.
    { unfold u32. cbn [length] in Hlen. rewrite Nat2Z.inj_succ in Hlen.
      rewrite Nat2Z.inj_add, Hs. apply Z.mod_small. lia. }
    rewrite Hoff in Hi.
    destruct (IH vs (off + length (serialized w))%nat i Hvs' Hty) as [H1 H2]; try done.
    + intros j x Hj. apply (Hc (S j)). lia.
    + cbn [length] in Hlen. lia.
    + split; [done|]. rewrite H2. cbn [take]. rewrite bind_cons, length_app. lia.
Qed.

Lemma assign_offsets_length off cols : length (assign_offsets off cols).1 = length cols.
Proof.
  revert off. induction cols as [|c cols IH]; intros off; [done|]. simpl.
  destruct (assign_offsets _ cols) as [rest total] eqn:E. simpl. f_equal.
  specialize (IH (if IsInlined c then u32 (off + col_fixed_length c) else u32 (off + 4))). by rewrite E in IH.
Qed.

(** A tuple as it is read from a page. *)
Definition stored (t : Tuple) : Tuple := mkTuple (rid_ t) (data_ t) [].

(** Reading a stored tuple.  When every column but the last is BOOLEAN or
    INTEGER, each column of the bytes a tuple is stored as gives the value the
    tuple was made from (a NULL as the zero of its type). *)
Lemma stored_tuple_columns defs vs i v :
  Forall value_ok vs → (λ d, d.1.2) <$> defs = type_id_ <$> vs →
  (∀ j w, (S j < length vs)%nat → vs !! j = Some w → compact (type_id_ w)) →
  4 * Z.of_nat (length defs) < 2 ^ 32 → vs !! i = Some v →
  ∃ t, Tuple_new vs = Ok t ∧
    GetValueBy (stored t) (Schema_new (make_columns defs)) (Z.of_nat i) = Ok (not_null v).
Proof.
  intros Hvs Hty Hc Hlen Hv. eexists. split; [by apply Tuple_new_ok|].
  unfold GetValueBy, stored, GetColumn, Schema_new. cbn [values_ data_]. rewrite lookup_nil.
  destruct (assign_offsets 0 (make_columns defs)) as [cs total] eqn:E. cbn [columns_].
  pose proof (assign_offsets_length 0 (make_columns defs)) as Hl. rewrite E in Hl. simpl in Hl.
  assert (length defs = length vs) as Hdl by (rewrite <- (length_fmap (λ d, d.1.2) defs), Hty; apply length_fmap).
  unfold make_columns in Hl. rewrite length_fmap in Hl. pose proof (lookup_lt_Some _ _ _ Hv) as Hlt.
  destruct (lookup_lt_is_Some_2 cs i) as [c Hcs]; [lia|].
  rewrite (res_bind_ok _ _ _ (arr_get_ok _ _ _ Hcs)).
  destruct (assign_offsets_lookup defs vs 0 i c v) as [-> ->]; try done; [|by change (Z.of_nat 0) with 0; rewrite E|].
  { intros j w Hj. apply Hc. lia. }
  destruct (value_serialize_ok v) as (bs & Hs & _ & Hd).
  { by eapply (Forall_lookup_1 _ vs). }
  rewrite <- (take_drop_middle vs i v Hv) at 1. rewrite bind_app, bind_cons.
  assert (serialized v = bs) as -> by (unfold serialized; by rewrite Hs). apply Hd.
Qed.

Lemma stored_tuple_columns_witness :
  ∃ t, Tuple_new [Value_int INTEGER 7; Value_string VARCHAR "abc"] = Ok t ∧
    GetValueBy (stored t) (Schema_new (make_columns [("a", INTEGER, 0); ("b", VARCHAR, 0)])) 1
      = Ok (Value_string VARCHAR "abc").
Proof.
  apply (stored_tuple_columns [("a", INTEGER, 0); ("b", VARCHAR, 0)]
           [Value_int INTEGER 7; Value_string VARCHAR "abc"] 1 (Value_string VARCHAR "abc")).
  - repeat constructor; vm_compute; first [reflexivity|discriminate].
  - reflexivity.
  - intros [|j] w Hj; simpl in *; [|lia]. intros [= <-]. right. reflexivity.
  - vm_compute. reflexivity.
  - reflexivity.
Defined.

(** A FLOAT column is four bytes longer in the schema than in the tuple.  In
    a stored tuple of a FLOAT and two INTEGER columns, the second column reads as
    the value of the third, and reading the third reaches past the tuple. *)
Theorem float_column_shifts_the_next f i j :
  0 ≤ f < 2 ^ 32 → in_i32 i = true → in_i32 j = true →
  let s := Schema_new (make_columns [("f", FLOAT, 0); ("i", INTEGER, 0); ("j", INTEGER, 0)]) in
  ∃ t, Tuple_new [Value_float FLOAT f; Value_int INTEGER i; Value_int INTEGER j] = Ok t ∧
    GetValueBy t s 1 = Ok (Value_int INTEGER i) ∧
    GetValueBy (stored t) s 1 = Ok (Value_int INTEGER j) ∧ GetValueBy (stored t) s 2 = UB.
Proof.
  intros Hf Hi Hj s. pose proof (Z.mod_pos_bound i (2 ^ 32) ltac:(lia)). pose proof (Z.mod_pos_bound j (2 ^ 32) ltac:(lia)).
  set (vs := [Value_float FLOAT f; Value_int INTEGER i; Value_int INTEGER j]).
  assert (Forall value_ok vs) as Hvs.
  { unfold vs. rewrite !Forall_cons, Forall_nil. unfold value_ok; simpl; unfold u32. split_and!; done || lia. }
  eexists. split; [by apply Tuple_new_ok|]. split; [done|].
  assert (∃ bf bi bj, vs ≫= serialized = bf ++ bi ++ bj ∧ length bf = 4%nat ∧ length bi = 4%nat ∧ length bj = 4%nat ∧
          SerializeTo (Value_int INTEGER j) = Ok bj) as (bf & bi & bj & Hbs & Hlf & Hli & Hlj & Hsj).
  { exists (le_encode 4 f), (le_encode 4 (u32 i)), (le_encode 4 (u32 j)).
    split; [|rewrite !length_le_encode; done]. reflexivity. }
  unfold stored. cbn [rid_ data_]. rewrite Hbs. unfold GetValueBy; simpl. split.
  - destruct (value_serialize_ok (Value_int INTEGER j)) as (bs & Hs & _ & Hd); [by split|].
    rewrite Hsj in Hs. injection Hs as <-. specialize (Hd (bf ++ bi) []).
    rewrite app_nil_r, <- app_assoc, length_app, Hlf, Hli in Hd. exact Hd.
  - cbn. unfold mem_read. rewrite decide_False; [done|]. rewrite !length_app, Hlf, Hli, Hlj.
    change (u32 (u32 (0 + 8) + 4)) with 12. lia.
Qed.

Lemma float_column_shifts_the_next_witness :
  ∃ t, Tuple_new [Value_float FLOAT 1065353216; Value_int INTEGER 5; Value_int INTEGER 6] = Ok t ∧
    GetValueBy (stored t) (Schema_new (make_columns [("f", FLOAT, 0); ("i", INTEGER, 0); ("j", INTEGER, 0)])) 2 = UB.
Proof.
  destruct (float_column_shifts_the_next 1065353216 5 6) as (t & H1 & _ & _ & H2);
    [split; [vm_compute; discriminate|reflexivity]|reflexivity|reflexivity|by exists t].
Defined.
