(* ===== verification/TablePage.v ===== *)
(** * Table pages

    [src/src/storage/page/table_page.cpp]: the slotted page of a table heap, on
    its 4096 bytes.  Offsets 0, 4 and 8 hold the next page id, the number of
    tuples and the free space pointer; slots of two 16-bit numbers (offset and
    length of a tuple) grow from offset 16, tuples from the end of the page. *)

From S2P Require Import Prelude Common.

(** ** Fields *)
Definition load (n : nat) (data : bytes) (off : Z) : res Z :=
  bs ← mem_read data off (Z.of_nat n); Ok (le_decode bs).
Definition store (n : nat) (off v : Z) (data : bytes) : res bytes := mem_write data off (le_encode n v).

Definition SIZE_TABLE_PAGE_HEADER : Z := 16.
Definition SIZE_TUPLE_SLOT : Z := 4.

Definition GetNextPageId (d : bytes) : res Z := v ← load 4 d 0; Ok (i32 v).
Definition SetNextPageId (p : Z) (d : bytes) : res bytes := store 4 0 p d.
Definition GetNumTuples (d : bytes) : res Z := load 4 d 4.
Definition SetNumTuples (n : Z) (d : bytes) : res bytes := store 4 4 n d.
Definition GetFreeSpacePointer (d : bytes) : res Z := load 4 d 8.
Definition SetFreeSpacePointer (fsp : Z) (d : bytes) : res bytes := store 4 8 fsp d.

(** [Init]: [memset], then the argument in the field of the next page. *)
Definition Init (page_id : Z) (d : bytes) : res bytes :=
  d ← store 4 0 page_id (replicate (length d) Ascii.zero);
  d ← store 4 4 0 d;
  SetFreeSpacePointer PAGE_SIZE d.

(** Slot numbers are [uint16_t]. *)
Definition slot_offset (slot : Z) : Z := SIZE_TABLE_PAGE_HEADER + u16 slot * SIZE_TUPLE_SLOT.
Definition GetTupleOffsetAtSlot (slot : Z) (d : bytes) : res Z := load 2 d (slot_offset slot).
Definition GetTupleLengthAtSlot (slot : Z) (d : bytes) : res Z := load 2 d (slot_offset slot + 2).
Definition SetTupleOffsetAtSlot (slot off : Z) (d : bytes) : res bytes := store 2 (slot_offset slot) off d.
Definition SetTupleLengthAtSlot (slot len : Z) (d : bytes) : res bytes := store 2 (slot_offset slot + 2) len d.

(** In [size_t], returned as [uint32_t]. *)
Definition GetFreeSpaceRemaining (d : bytes) : res Z :=
  n ← GetNumTuples d;
  fsp ← GetFreeSpacePointer d;
  Ok (u32 (fsp - (SIZE_TABLE_PAGE_HEADER + n * SIZE_TUPLE_SLOT))).

Definition InsertTuple (tuple : bytes) (d : bytes) : res (option Z * bytes) :=
  let size := u32 (Z.of_nat (length tuple)) in
  free ← GetFreeSpaceRemaining d;
  if free <? size + SIZE_TUPLE_SLOT then Ok (None, d)
  else
    n ← GetNumTuples d;
    fsp ← GetFreeSpacePointer d;
    let new_fsp := u32 (fsp - size) in
    d ← SetFreeSpacePointer new_fsp d;
    d ← mem_write d new_fsp tuple;
    d ← SetTupleOffsetAtSlot n new_fsp d;
    d ← SetTupleLengthAtSlot n size d;
    d ← SetNumTuples (n + 1) d;
    Ok (Some (u16 n), d).

(** [GetTuple]: the bytes copied, whose number is [*out_size]. *)
Definition GetTuple (slot : Z) (d : bytes) : res bytes :=
  off ← GetTupleOffsetAtSlot slot d;
  len ← GetTupleLengthAtSlot slot d;
  mem_read d off len.

Definition GetTupleSize (slot : Z) (d : bytes) : res Z := GetTupleLengthAtSlot slot d.

Definition DeleteTuple (slot : Z) (d : bytes) : res bytes :=
  d ← SetTupleLengthAtSlot slot 0 d;
  SetTupleOffsetAtSlot slot 0 d.

Definition UpdateTuple (slot : Z) (tuple : bytes) (d : bytes) : res (bool * bytes) :=
  let new_size := u32 (Z.of_nat (length tuple)) in
  old_size ← GetTupleLengthAtSlot slot d;
  free ← GetFreeSpaceRemaining d;
  if (old_size <? new_size) && (free <? new_size - old_size) then Ok (false, d)
  else
    d ← DeleteTuple slot d;
    fsp ← GetFreeSpacePointer d;
    let new_fsp := u32 (fsp - new_size) in
    d ← SetFreeSpacePointer new_fsp d;
    d ← mem_write d new_fsp tuple;
    d ← SetTupleOffsetAtSlot slot new_fsp d;
    d ← SetTupleLengthAtSlot slot new_size d;
    Ok (true, d).

(** ** What a page holds

    [page_view d next ts free]: the page [d] is followed by page [next], its slots
    hold the byte strings [ts] (the empty one for a deleted tuple), and [free] bytes
    are left between the slots and the tuples. *)

Definition slots_end (n : nat) : Z := 16 + 4 * Z.of_nat n.

Record slot_view (d : bytes) (fsp : Z) (i : nat) (t : bytes) : Prop := {
  sv_len : GetTupleLengthAtSlot (Z.of_nat i) d = Ok (Z.of_nat (length t));
  sv_off : ∃ off, GetTupleOffsetAtSlot (Z.of_nat i) d = Ok off ∧
    (t = [] ∧ off = 0 ∨ fsp ≤ off ≤ PAGE_SIZE ∧ mem_read d off (Z.of_nat (length t)) = Ok t)
}.

Record page_view (d : bytes) (next : Z) (ts : list bytes) (free : Z) : Prop := {
  pv_len : Z.of_nat (length d) = PAGE_SIZE;
  pv_next : GetNextPageId d = Ok next;
  pv_num : GetNumTuples d = Ok (Z.of_nat (length ts));
  pv_fsp : GetFreeSpacePointer d = Ok (slots_end (length ts) + free);
  pv_free : 0 ≤ free ∧ slots_end (length ts) + free ≤ PAGE_SIZE;
  pv_slots : ∀ i t, ts !! i = Some t → slot_view d (slots_end (length ts) + free) i t
}.

(** ** Loads and stores *)

Lemma store_ok n off v d : 0 ≤ off → off + Z.of_nat n ≤ Z.of_nat (length d) →
  ∃ d', store n off v d = Ok d' ∧ length d' = length d.
Proof. intros. apply mem_write_ok; [done|]. by rewrite length_le_encode. Qed.

Lemma load_store_same n off v d d' : store n off v d = Ok d' → load n d' off = Ok (v mod 256 ^ Z.of_nat n).
Proof.
  intros Hs. apply mem_read_write_same in Hs. rewrite length_le_encode in Hs.
  unfold load. rewrite (res_bind_ok _ _ _ Hs). by rewrite le_decode_encode.
Qed.

Lemma load_write_other n off bs d d' off' :
  mem_write d off bs = Ok d' → off' + Z.of_nat n ≤ off ∨ off + Z.of_nat (length bs) ≤ off' →
  load n d' off' = load n d off'.
Proof. intros Hs Hd. unfold load. by rewrite (mem_read_write_other _ _ _ _ _ _ Hs Hd). Qed.

Lemma load_store_other n m off v d d' off' :
  store m off v d = Ok d' → off' + Z.of_nat n ≤ off ∨ off + Z.of_nat m ≤ off' → load n d' off' = load n d off'.
Proof. intros Hs Hd. apply (load_write_other n off _ d d' off' Hs). by rewrite length_le_encode. Qed.

Lemma load_range n d off v : load n d off = Ok v → 0 ≤ v < 256 ^ Z.of_nat n.
Proof.
  unfold load, mem_read. case_decide as Hd; [|done]. simpl. intros [= <-].
  pose proof (le_decode_bound (take (Z.to_nat (Z.of_nat n)) (drop (Z.to_nat off) d))) as H.
  rewrite length_take, length_drop in H. by replace (Init.Nat.min _ _) with n in H by lia.
Qed.

(** Undo, on the fields a goal loads, the writes that miss them. *)
Ltac miss H := first [rewrite (load_store_other _ _ _ _ _ _ _ H) by lia | rewrite (load_write_other _ _ _ _ _ _ H) by lia].

Lemma slot_offset_small (i : nat) : slots_end (S i) ≤ PAGE_SIZE → slot_offset (Z.of_nat i) = 16 + 4 * Z.of_nat i.
Proof.
  unfold slot_offset, slots_end, SIZE_TABLE_PAGE_HEADER, SIZE_TUPLE_SLOT, PAGE_SIZE, u16. intros.
  rewrite Z.mod_small by lia. lia.
Qed.

(** A write below the tuples that misses a slot leaves what it holds. *)
Lemma slot_view_write d d' w bs fsp i t :
  mem_write d w bs = Ok d' → slots_end (S i) ≤ PAGE_SIZE →
  w + Z.of_nat (length bs) ≤ 16 + 4 * Z.of_nat i ∨ slots_end (S i) ≤ w →
  w + Z.of_nat (length bs) ≤ fsp → slot_view d fsp i t → slot_view d' fsp i t.
Proof.
  intros Hw Hi Hdis Hfsp [Hl (off & Ho & Ht)].
  unfold GetTupleLengthAtSlot, GetTupleOffsetAtSlot in *. rewrite slot_offset_small in * by done.
  unfold slots_end in Hdis. split; unfold GetTupleLengthAtSlot, GetTupleOffsetAtSlot; rewrite slot_offset_small by done.
  - rewrite (load_write_other _ _ _ _ _ _ Hw) by lia. done.
  - exists off. rewrite (load_write_other _ _ _ _ _ _ Hw) by lia. split; [done|].
    destruct Ht as [?|[? Ht]]; [by left|right]. split; [done|].
    rewrite (mem_read_write_other _ _ _ _ _ _ Hw) by lia. done.
Qed.

Lemma slot_view_mono d fsp fsp' i t : fsp' ≤ fsp → slot_view d fsp i t → slot_view d fsp' i t.
Proof.
  intros Hf [Hl (off & Ho & Ht)]. split; [done|]. exists off. split; [done|].
  destruct Ht as [?|[? ?]]; [by left|right]. split; [lia|done].
Qed.

(** Storing where a tuple is, and how long it is, in its slot. *)
Lemma slot_view_set d d1 d2 fsp (i : nat) off t :
  slots_end (S i) ≤ fsp → fsp ≤ PAGE_SIZE →
  (t = [] ∧ off = 0 ∨ fsp ≤ off ≤ PAGE_SIZE ∧ mem_read d off (Z.of_nat (length t)) = Ok t) →
  Z.of_nat (length t) < 2 ^ 16 →
  (SetTupleOffsetAtSlot (Z.of_nat i) off d = Ok d1 ∧ SetTupleLengthAtSlot (Z.of_nat i) (Z.of_nat (length t)) d1 = Ok d2 ∨
   SetTupleLengthAtSlot (Z.of_nat i) (Z.of_nat (length t)) d = Ok d1 ∧ SetTupleOffsetAtSlot (Z.of_nat i) off d1 = Ok d2) →
  slot_view d2 fsp i t.
Proof.
  intros Hi Hfsp Ht Hlen Hset. unfold SetTupleOffsetAtSlot, SetTupleLengthAtSlot in Hset.
  assert (0 ≤ off < 2 ^ 16) as Hoff.
  { unfold PAGE_SIZE, slots_end in *. destruct Ht as [[_ ->]|[? _]]; lia. }
  pose proof (slot_offset_small i ltac:(lia)) as Hso. rewrite Hso in Hset. unfold slots_end in Hi.
  split; unfold GetTupleLengthAtSlot, GetTupleOffsetAtSlot; rewrite Hso.
  - destruct Hset as [[H1 H2]|[H1 H2]].
    + rewrite (load_store_same _ _ _ _ _ H2). by rewrite Z.mod_small by lia.
    + rewrite (load_store_other _ _ _ _ _ _ _ H2) by lia. rewrite (load_store_same _ _ _ _ _ H1).
      by rewrite Z.mod_small by lia.
  - exists off. split.
    + destruct Hset as [[H1 H2]|[H1 H2]].
      * rewrite (load_store_other _ _ _ _ _ _ _ H2) by lia. rewrite (load_store_same _ _ _ _ _ H1).
        by rewrite Z.mod_small by lia.
      * rewrite (load_store_same _ _ _ _ _ H2). by rewrite Z.mod_small by lia.
    + destruct Ht as [?|[? Ht]]; [by left|right]. split; [done|].
      destruct Hset as [[H1 H2]|[H1 H2]];
        rewrite (mem_read_write_other _ _ _ _ _ _ H2) by (rewrite ?length_le_encode; lia);
        rewrite (mem_read_write_other _ _ _ _ _ _ H1) by (rewrite ?length_le_encode; lia); done.
Qed.

Section Page.
Context (d : bytes) (next : Z) (ts : list bytes) (free : Z) (Hd : page_view d next ts free).
Let fsp := slots_end (length ts) + free.

Lemma free_space_ok : GetFreeSpaceRemaining d = Ok free.
Proof.
  unfold GetFreeSpaceRemaining. rewrite (res_bind_ok _ _ _ (pv_num _ _ _ _ Hd)), (res_bind_ok _ _ _ (pv_fsp _ _ _ _ Hd)).
  destruct (pv_free _ _ _ _ Hd) as [? ?]. unfold slots_end, SIZE_TABLE_PAGE_HEADER, SIZE_TUPLE_SLOT, PAGE_SIZE, u32 in *.
  f_equal. rewrite Z.mod_small; lia.
Qed.

Lemma slot_in_page i t : ts !! i = Some t → slots_end (S i) ≤ slots_end (length ts) ∧ slots_end (S i) ≤ PAGE_SIZE.
Proof.
  intros Hi%lookup_lt_Some. destruct (pv_free _ _ _ _ Hd) as [? ?]. unfold slots_end in *. lia.
Qed.

Lemma GetTuple_ok i t : ts !! i = Some t →
  GetTuple (Z.of_nat i) d = Ok t ∧ GetTupleSize (Z.of_nat i) d = Ok (Z.of_nat (length t)).
Proof.
  intros Hi. destruct (pv_slots _ _ _ _ Hd i t Hi) as [Hl (off & Ho & Ht)]. split; [|done].
  unfold GetTuple. rewrite (res_bind_ok _ _ _ Ho), (res_bind_ok _ _ _ Hl).
  destruct Ht as [[-> ->]|[_ ?]]; [|done]. rewrite mem_read_ok by (simpl; lia). done.
Qed.

(** The next page, the number of tuples and the other slots after the three kinds
    of writes of an update: the free space pointer, the tuple, its slot. *)
Lemma InsertTuple_ok t : Z.of_nat (length t) ≤ PAGE_SIZE →
  InsertTuple t d = Ok (None, d) ∧ free < Z.of_nat (length t) + 4 ∨
  ∃ d', InsertTuple t d = Ok (Some (Z.of_nat (length ts)), d') ∧ Z.of_nat (length t) + 4 ≤ free ∧
    page_view d' next (ts ++ [t]) (free - Z.of_nat (length t) - 4).
Proof.
  intros Hlen. destruct (pv_free _ _ _ _ Hd) as [Hf0 Hf1]. pose proof (pv_len _ _ _ _ Hd) as Hdl.
  unfold InsertTuple. rewrite (res_bind_ok _ _ _ free_space_ok).
  assert (u32 (Z.of_nat (length t)) = Z.of_nat (length t)) as -> by (unfold u32, PAGE_SIZE in *; rewrite Z.mod_small; lia).
  change SIZE_TUPLE_SLOT with 4. destruct (Z.ltb_spec free (Z.of_nat (length t) + 4)); [by left|right].
  rewrite (res_bind_ok _ _ _ (pv_num _ _ _ _ Hd)), (res_bind_ok _ _ _ (pv_fsp _ _ _ _ Hd)). fold fsp.
  set (n := length ts) in *. set (nf := fsp - Z.of_nat (length t)).
  assert (u32 nf = nf) as Hnf by (unfold u32, nf, fsp, slots_end, PAGE_SIZE in *; rewrite Z.mod_small; lia).
  fold nf. rewrite Hnf. assert (slots_end (S n) ≤ nf ≤ PAGE_SIZE) as Hb by (unfold nf, fsp, slots_end in *; lia).
  assert (slot_offset (Z.of_nat n) = 16 + 4 * Z.of_nat n) as Hso by (apply slot_offset_small; lia).
  assert (16 ≤ nf - 4 - 4 * Z.of_nat n) by (unfold slots_end in Hb; lia).
  destruct (store_ok 4 8 nf d) as (d1 & H1 & L1); [lia|unfold PAGE_SIZE in *; lia|].
  destruct (mem_write_ok d1 nf t) as (d2 & H2 & L2); [lia|unfold nf, fsp in *; lia|].
  destruct (store_ok 2 (slot_offset (Z.of_nat n)) nf d2) as (d3 & H3 & L3); [lia|lia|].
  destruct (store_ok 2 (slot_offset (Z.of_nat n) + 2) (Z.of_nat (length t)) d3) as (d4 & H4 & L4); [lia|lia|].
  destruct (store_ok 4 4 (Z.of_nat n + 1) d4) as (d5 & H5 & L5); [lia|unfold PAGE_SIZE in *; lia|].
  exists d5. split; [|split; [done|]].
  { unfold SetFreeSpacePointer. rewrite (res_bind_ok _ _ _ H1), (res_bind_ok _ _ _ H2).
    unfold SetTupleOffsetAtSlot, SetTupleLengthAtSlot, SetNumTuples.
    rewrite (res_bind_ok _ _ _ H3), (res_bind_ok _ _ _ H4), (res_bind_ok _ _ _ H5).
    unfold u16. rewrite Z.mod_small; [done|]. unfold slots_end, PAGE_SIZE in *; lia. }
  assert (slots_end (length (ts ++ [t])) + (free - Z.of_nat (length t) - 4) = nf) as Hnf'.
  { rewrite length_app; simpl. unfold nf, fsp, slots_end. fold n. lia. }
  rewrite Hso in H3, H4. split.
  - congruence.
  - pose proof (pv_next _ _ _ _ Hd) as Hn. unfold GetNextPageId in *. unfold slots_end in Hb. miss H5. miss H4. miss H3. miss H2. by miss H1.
  - unfold GetNumTuples. rewrite (load_store_same _ _ _ _ _ H5), length_app. simpl. fold n.
    unfold slots_end, PAGE_SIZE in Hb. rewrite Z.mod_small by lia. f_equal. lia.
  - unfold GetFreeSpacePointer. rewrite Hnf'. unfold slots_end in Hb. miss H5. miss H4. miss H3. miss H2. rewrite (load_store_same _ _ _ _ _ H1).
    unfold PAGE_SIZE in Hb. by rewrite Z.mod_small by lia.
  - rewrite Hnf'. split; lia.
  - rewrite Hnf'. intros i u [Hi|[Hi Hu]]%lookup_app_Some.
    + pose proof (slot_in_page i u Hi) as [Hi1 Hi2]. fold n in Hi1. pose proof (pv_slots _ _ _ _ Hd i u Hi) as Hv. fold n fsp in Hv.
      apply (slot_view_mono _ fsp); [unfold nf; lia|]. unfold slots_end in Hi1, Hi2.
      assert (∀ k v off a b, store k off v a = Ok b → off + Z.of_nat k ≤ 16 + 4 * Z.of_nat i ∨ slots_end (S i) ≤ off →
        off + Z.of_nat k ≤ fsp → slot_view a fsp i u → slot_view b fsp i u) as Hst.
      { intros k v off a b Hs Hx Hy. apply (slot_view_write a b off (le_encode k v)); rewrite ?length_le_encode; done. }
      unfold nf, slots_end in *.
      eapply Hst; [exact H5|lia|lia|]. eapply Hst; [exact H4|lia|lia|]. eapply Hst; [exact H3|lia|lia|].
      eapply slot_view_write; [exact H2|unfold slots_end; lia|unfold slots_end; lia|lia|].
      eapply Hst; [exact H1|lia|lia|done].
    + destruct (i - length ts)%nat as [|] eqn:E; [|done]. injection Hu as ->. fold n in Hi, E.
      replace i with n by lia.
      eapply (slot_view_write d4 d5); [exact H5|lia|rewrite length_le_encode; lia|rewrite length_le_encode; lia|].
      rewrite <- Hso in H3, H4. apply (slot_view_set d2 d3 d4 nf n nf); [lia|lia| |unfold PAGE_SIZE in *; lia|by left].
      right. split; [lia|]. by apply (mem_read_write_same d1).
Qed.

(** Rewriting a slot [i] and only bytes below the tuples outside the other slots. *)
Lemma slots_after d' nf (i : nat) t :
  nf ≤ fsp → slot_view d' nf i t →
  (∀ j u, j ≠ i → ts !! j = Some u → slot_view d fsp j u → slot_view d' fsp j u) →
  ∀ j u, <[i := t]> ts !! j = Some u → slot_view d' nf j u.
Proof.
  intros Hnf Hi Ho j u. rewrite list_lookup_insert_Some. intros [(-> & -> & _)|[Hne Hj]]; [done|].
  apply (slot_view_mono _ fsp); [done|]. apply Ho; [done|done|]. by apply (pv_slots _ _ _ _ Hd).
Qed.

Lemma DeleteTuple_ok (i : nat) t : ts !! i = Some t →
  ∃ d', DeleteTuple (Z.of_nat i) d = Ok d' ∧ page_view d' next (<[i := []]> ts) free.
Proof.
  intros Hi. destruct (slot_in_page i t Hi) as [Hi1 Hi2]. destruct (pv_free _ _ _ _ Hd) as [Hf0 Hf1].
  pose proof (pv_len _ _ _ _ Hd) as Hdl. pose proof (slot_offset_small i Hi2) as Hso.
  pose proof Hi1 as Hb. unfold slots_end in Hi1, Hi2. 
  destruct (store_ok 2 (slot_offset (Z.of_nat i) + 2) 0 d) as (d1 & H1 & L1); [lia|lia|].
  destruct (store_ok 2 (slot_offset (Z.of_nat i)) 0 d1) as (d2 & H2 & L2); [lia|lia|].
  exists d2. split; [unfold DeleteTuple, SetTupleLengthAtSlot, SetTupleOffsetAtSlot; by rewrite (res_bind_ok _ _ _ H1)|].
  assert (slot_view d2 fsp i []) as Hset.
  { apply (slot_view_set d d1 d2 fsp i 0 []); [unfold fsp; lia|unfold fsp; lia|by left|simpl; lia|by right]. }
  rewrite Hso in H1, H2. split; rewrite ?length_insert.
  - congruence.
  - pose proof (pv_next _ _ _ _ Hd) as Hn. unfold GetNextPageId in *. miss H2. by miss H1.
  - pose proof (pv_num _ _ _ _ Hd) as Hn. unfold GetNumTuples in *. miss H2. by miss H1.
  - pose proof (pv_fsp _ _ _ _ Hd) as Hn. unfold GetFreeSpacePointer in *. miss H2. by miss H1.
  - done.
  - apply slots_after; [done|done|]. intros j u Hne Hj Hv. destruct (slot_in_page j u Hj) as [Hj1 Hj2].
    unfold fsp, slots_end in *.
    eapply (slot_view_write d1 d2); [exact H2|exact Hj2|rewrite length_le_encode; unfold slots_end; lia..|].
    eapply (slot_view_write d d1); [exact H1|exact Hj2|rewrite length_le_encode; unfold slots_end; lia..|done].
Qed.
End Page.

(** The part of an update that follows the deletion. *)
Lemma UpdateTuple_ok d next ts free (i : nat) old t :
  page_view d next ts free → ts !! i = Some old → Z.of_nat (length t) ≤ free →
  ∃ d', UpdateTuple (Z.of_nat i) t d = Ok (true, d') ∧
    page_view d' next (<[i := t]> ts) (free - Z.of_nat (length t)).
Proof.
  intros Hd Hi Hlen. destruct (DeleteTuple_ok _ _ _ _ Hd i old Hi) as (d0 & H0 & Hd0).
  destruct (pv_slots _ _ _ _ Hd i old Hi) as [Hold _]. destruct (pv_free _ _ _ _ Hd) as [Hf0 Hf1].
  unfold UpdateTuple. rewrite (res_bind_ok _ _ _ Hold), (res_bind_ok _ _ _ (free_space_ok _ _ _ _ Hd)).
  assert (u32 (Z.of_nat (length t)) = Z.of_nat (length t)) as ->
    by (unfold u32, slots_end, PAGE_SIZE in *; rewrite Z.mod_small; lia).
  replace (_ && _) with false by (destruct (Z.ltb_spec (Z.of_nat (length old)) (Z.of_nat (length t))), 
    (Z.ltb_spec free (Z.of_nat (length t) - Z.of_nat (length old))); simpl; lia).
  rewrite (res_bind_ok _ _ _ H0), (res_bind_ok _ _ _ (pv_fsp _ _ _ _ Hd0)).
  destruct (slot_in_page _ _ _ _ Hd i old Hi) as [Hi1 Hi2]. pose proof (slot_offset_small i Hi2) as Hso.
  pose proof (pv_len _ _ _ _ Hd0) as Hdl.
  pose proof (slots_after _ _ _ _ Hd0) as Hafter. rewrite length_insert in *. set (n := length ts) in *.
  set (fsp := slots_end n + free) in *. set (nf := fsp - Z.of_nat (length t)) in *.
  assert (slots_end n ≤ nf ≤ PAGE_SIZE) as Hb by (unfold nf, fsp; lia).
  assert (u32 nf = nf) as -> by (unfold u32, slots_end, PAGE_SIZE in *; rewrite Z.mod_small; lia).
  assert (16 + 4 * Z.of_nat i + 4 ≤ nf) as Hbi by (unfold slots_end in *; lia).
  destruct (store_ok 4 8 nf d0) as (d1 & H1 & L1); [lia|unfold PAGE_SIZE in *; lia|].
  destruct (mem_write_ok d1 nf t) as (d2 & H2 & L2); [lia|unfold nf, fsp in *; lia|].
  destruct (store_ok 2 (slot_offset (Z.of_nat i)) nf d2) as (d3 & H3 & L3); [lia|lia|].
  destruct (store_ok 2 (slot_offset (Z.of_nat i) + 2) (Z.of_nat (length t)) d3) as (d4 & H4 & L4); [lia|lia|].
  exists d4. split.
  { unfold SetFreeSpacePointer, SetTupleOffsetAtSlot, SetTupleLengthAtSlot.
    by rewrite (res_bind_ok _ _ _ H1), (res_bind_ok _ _ _ H2), (res_bind_ok _ _ _ H3), (res_bind_ok _ _ _ H4). }
  assert (slot_view d4 nf i t) as Hset.
  { apply (slot_view_set d2 d3 d4 nf i nf); [lia|lia| |unfold slots_end, PAGE_SIZE in *; lia|by left].
    right. split; [lia|]. by apply (mem_read_write_same d1). }
  rewrite Hso in H3, H4. assert (16 ≤ nf) by (unfold slots_end in Hb; lia).
  replace (slots_end n + (free - Z.of_nat (length t))) with nf in * by (unfold nf, fsp; lia).
  split; rewrite ?length_insert; fold n; replace (slots_end n + (free - Z.of_nat (length t))) with nf by (unfold nf, fsp; lia).
  - congruence.
  - pose proof (pv_next _ _ _ _ Hd0) as Hn. unfold GetNextPageId in *. miss H4. miss H3. miss H2. by miss H1.
  - pose proof (pv_num _ _ _ _ Hd0) as Hn. rewrite length_insert in Hn. unfold GetNumTuples in *. miss H4. miss H3. miss H2. by miss H1.
  - unfold GetFreeSpacePointer. miss H4. miss H3. miss H2. rewrite (load_store_same _ _ _ _ _ H1).
    unfold PAGE_SIZE in Hb. by rewrite Z.mod_small by lia.
  - unfold slots_end in *; lia.
  - intros j u Hj. rewrite <- (list_insert_insert_eq ts i t []) in Hj. revert j u Hj. apply Hafter; [lia|done|].
    intros j u Hne Hj Hv. destruct (slot_in_page _ _ _ _ Hd0 j u Hj) as [Hj1 Hj2]. rewrite length_insert in Hj1. fold n in Hj1.
    pose proof Hj1 as Hj3. unfold slots_end in Hj3, Hb.
    eapply (slot_view_write d3 d4); [exact H4|exact Hj2|rewrite length_le_encode; unfold slots_end; lia..|].
    eapply (slot_view_write d2 d3); [exact H3|exact Hj2|rewrite length_le_encode; unfold slots_end; lia..|].
    eapply (slot_view_write d1 d2); [exact H2|exact Hj2|unfold slots_end; lia..|].
    eapply (slot_view_write d0 d1); [exact H1|exact Hj2|rewrite length_le_encode; unfold slots_end; lia..|done].
Qed.

Lemma UpdateTuple_refused d next ts free (i : nat) old t :
  page_view d next ts free → ts !! i = Some old → Z.of_nat (length t) ≤ PAGE_SIZE →
  Z.of_nat (length old) + free < Z.of_nat (length t) → UpdateTuple (Z.of_nat i) t d = Ok (false, d).
Proof.
  intros Hd Hi Hlen Hbig. destruct (pv_slots _ _ _ _ Hd i old Hi) as [Hold _]. destruct (pv_free _ _ _ _ Hd) as [Hf0 Hf1].
  unfold UpdateTuple. rewrite (res_bind_ok _ _ _ Hold), (res_bind_ok _ _ _ (free_space_ok _ _ _ _ Hd)).
  assert (u32 (Z.of_nat (length t)) = Z.of_nat (length t)) as ->
    by (unfold u32, PAGE_SIZE in *; rewrite Z.mod_small; lia).
  rewrite (proj2 (Z.ltb_lt _ _)) by lia. by rewrite (proj2 (Z.ltb_lt _ _)) by lia.
Qed.

Lemma Init_ok p d : Z.of_nat (length d) = PAGE_SIZE → ∃ d', Init p d = Ok d' ∧ page_view d' (i32 p) [] 4080.
Proof.
  intros Hl. unfold PAGE_SIZE in Hl. set (z := replicate (length d) Ascii.zero).
  assert (length z = length d) as Lz by apply length_replicate.
  destruct (store_ok 4 0 p z) as (d1 & H1 & L1); [lia|lia|].
  destruct (store_ok 4 4 0 d1) as (d2 & H2 & L2); [lia|lia|].
  destruct (store_ok 4 8 PAGE_SIZE d2) as (d3 & H3 & L3); [lia|lia|].
  exists d3. split; [unfold Init, SetFreeSpacePointer; fold z; by rewrite (res_bind_ok _ _ _ H1), (res_bind_ok _ _ _ H2)|].
  split; [unfold PAGE_SIZE; lia|..|intros i t Hi; by rewrite lookup_nil in Hi].
  - unfold GetNextPageId. miss H3. miss H2. rewrite (load_store_same _ _ _ _ _ H1).
    unfold i32. simpl. by rewrite Zplus_mod_idemp_l.
  - unfold GetNumTuples. miss H3. by rewrite (load_store_same _ _ _ _ _ H2).
  - unfold GetFreeSpacePointer. by rewrite (load_store_same _ _ _ _ _ H3).
  - split; [lia|]. unfold slots_end, PAGE_SIZE. simpl. lia.
Qed.

Lemma SetNextPageId_ok d next ts free p :
  page_view d next ts free → ∃ d', SetNextPageId p d = Ok d' ∧ page_view d' (i32 p) ts free.
Proof.
  intros Hd. pose proof (pv_len _ _ _ _ Hd) as Hl. unfold PAGE_SIZE in Hl.
  destruct (store_ok 4 0 p d) as (d1 & H1 & L1); [lia|lia|].
  exists d1. split; [done|]. split.
  - unfold PAGE_SIZE. lia.
  - unfold GetNextPageId. rewrite (load_store_same _ _ _ _ _ H1). unfold i32. simpl. by rewrite Zplus_mod_idemp_l.
  - pose proof (pv_num _ _ _ _ Hd) as Hn. unfold GetNumTuples in *. by miss H1.
  - pose proof (pv_fsp _ _ _ _ Hd) as Hn. unfold GetFreeSpacePointer in *. by miss H1.
  - apply Hd.
  - intros i t Hi. destruct (slot_in_page _ _ _ _ Hd i t Hi) as [_ Hi2].
    pose proof (pv_free _ _ _ _ Hd) as Hf. unfold slots_end in *.
    eapply (slot_view_write d d1); [exact H1|exact Hi2|rewrite length_le_encode; unfold slots_end; lia..|].
    by apply (pv_slots _ _ _ _ Hd).
Qed.

(** ** Properties *)

(** C32: a table page holds a list of byte strings, one for each slot.  [GetTuple]
    reads a slot; [InsertTuple] appends exactly when the tuple and its slot fit
    the free space, and otherwise changes nothing; [DeleteTuple] empties a slot
    and no other; [UpdateTuple] replaces a slot and no other when the whole new
    tuple fits the free space, and refuses it when the old and the free space
    together are too small. *)
Theorem table_page_is_a_slot_list d next ts free (i : nat) old t :
  page_view d next ts free → ts !! i = Some old → Z.of_nat (length t) ≤ PAGE_SIZE →
  GetTuple (Z.of_nat i) d = Ok old ∧
  (if decide (Z.of_nat (length t) + 4 ≤ free)
   then ∃ d', InsertTuple t d = Ok (Some (Z.of_nat (length ts)), d') ∧
          page_view d' next (ts ++ [t]) (free - Z.of_nat (length t) - 4)
   else InsertTuple t d = Ok (None, d)) ∧
  (∃ d', DeleteTuple (Z.of_nat i) d = Ok d' ∧ page_view d' next (<[i := []]> ts) free) ∧
  (Z.of_nat (length t) ≤ free →
     ∃ d', UpdateTuple (Z.of_nat i) t d = Ok (true, d') ∧
       page_view d' next (<[i := t]> ts) (free - Z.of_nat (length t))) ∧
  (Z.of_nat (length old) + free < Z.of_nat (length t) → UpdateTuple (Z.of_nat i) t d = Ok (false, d)).
Proof.
  intros Hd Hi Hl. split; [by apply (GetTuple_ok d next ts free Hd)|]. split.
  - destruct (InsertTuple_ok d next ts free Hd t Hl) as [[H1 H2]|(d' & H1 & H2 & H3)].
    + by rewrite decide_False by lia.
    + rewrite decide_True by lia. by exists d'.
  - split; [by eapply DeleteTuple_ok|]. split; [intros; by eapply UpdateTuple_ok|intros; by eapply UpdateTuple_refused].
Qed.

(** Pages made by the operations from an uninitialised one. *)
Definition byte_tuple (n : nat) (z : Z) : bytes := replicate n (ascii_of_N (Z.to_N z)).
Definition blank_page : bytes := replicate 4096 Ascii.zero.
Definition made (m : res bytes) : bytes := match m with Ok d => d | _ => [] end.
Definition two_tuples (n1 n2 : nat) : bytes :=
  made (d ← Init (-1) blank_page; '(_, d) ← InsertTuple (byte_tuple n1 1) d;
        '(_, d) ← InsertTuple (byte_tuple n2 2) d; Ok d).

Lemma two_tuples_view :
  page_view (two_tuples 3 5) (-1) [byte_tuple 3 1; byte_tuple 5 2] 4064.
Proof.
  destruct (Init_ok (-1) blank_page) as (d0 & H0 & V0); [reflexivity|].
  destruct (InsertTuple_ok _ _ _ _ V0 (byte_tuple 3 1)) as [[_ ?]|(d1 & H1 & _ & V1)]; [vm_compute; discriminate|done|].
  destruct (InsertTuple_ok _ _ _ _ V1 (byte_tuple 5 2)) as [[_ ?]|(d2 & H2 & _ & V2)]; [vm_compute; discriminate|done|].
  unfold two_tuples. rewrite (res_bind_ok _ _ _ H0), (res_bind_ok _ _ _ H1). cbn beta iota.
  rewrite (res_bind_ok _ _ _ H2). exact V2.
Qed.

Lemma table_page_is_a_slot_list_witness :
  ∃ d', UpdateTuple 0 (byte_tuple 9 7) (two_tuples 3 5) = Ok (true, d') ∧
    page_view d' (-1) [byte_tuple 9 7; byte_tuple 5 2] 4055.
Proof.
  destruct (table_page_is_a_slot_list (two_tuples 3 5) (-1) [byte_tuple 3 1; byte_tuple 5 2] 4064 0 (byte_tuple 3 1) (byte_tuple 9 7))
    as (_ & _ & _ & H & _); [exact two_tuples_view|reflexivity|vm_compute; discriminate|].
  apply H. vm_compute. discriminate.
Defined.

(** An update can destroy other tuples.  On a page with little free space,
    [UpdateTuple] of a tuple by a much shorter one is accepted although the new
    bytes do not fit; they overwrite the slots, and the tuple of another slot is
    no longer the one it was. *)
Theorem update_overwrites_the_slots :
  GetTuple 0 (two_tuples 2028 2028) = Ok (byte_tuple 2028 1) ∧
  GetFreeSpaceRemaining (two_tuples 2028 2028) = Ok 16 ∧
  ∃ d', UpdateTuple 1 (byte_tuple 24 1) (two_tuples 2028 2028) = Ok (true, d') ∧
    GetTuple 0 d' ≠ Ok (byte_tuple 2028 1) ∧ GetTuple 1 d' ≠ Ok (byte_tuple 24 1).
Proof.
  split; [vm_compute; reflexivity|]. split; [vm_compute; reflexivity|].
  exists (made ('(_, d) ← UpdateTuple 1 (byte_tuple 24 1) (two_tuples 2028 2028); Ok d)).
  split; [vm_compute; reflexivity|]. split; vm_compute; discriminate.
Qed.
