(* ===== verification/TableHeap.v ===== *)
(** * Table heaps

    [src/src/storage/table/table_heap.cpp]: a chain of table pages in the buffer
    pool, its four operations and its iterator, over any implementation of the
    page interface.  Loops over the chain take fuel. *)

From S2P Require Import Prelude Common Value Tuple TablePage PageStore PageIO PageLogic.

Section TableHeap.
Context {S : Type} `{PIO : !PageIO bytes S}.

(** The object is its first page id.  The constructor. *)
Definition TableHeap_new : ST S Z :=
  o ← io_new;
  match o with
  | None => st_throw (RuntimeError "Cannot allocate page for table heap")
  | Some (page_id, f) =>
      d ← io_read f;
      d ← st_lift (Init INVALID_PAGE_ID d);
      io_write f (λ _, d);;
      io_unpin page_id true;;
      mret page_id
  end.

(** A full chain gets a new page. *)
Definition append_page (page_id f : Z) (tuple : bytes) : ST S (option RID) :=
  o ← io_new;
  match o with
  | None => io_unpin page_id false;; mret None
  | Some (new_page_id, nf) =>
      nd ← io_read nf;
      nd ← st_lift (Init INVALID_PAGE_ID nd);
      io_write nf (λ _, nd);;
      d ← io_read f;
      d ← st_lift (SetNextPageId new_page_id d);
      io_write f (λ _, d);;
      io_unpin page_id true;;
      nd ← io_read nf;
      '(new_slot, nd) ← st_lift (TablePage.InsertTuple tuple nd);
      io_write nf (λ _, nd);;
      io_unpin new_page_id true;;
      mret ((λ s, mkRID new_page_id s) <$> new_slot)
  end.

Fixpoint insert_loop (fuel : nat) (tuple : bytes) (page_id : Z) : ST S (option RID) :=
  match fuel with
  | O => st_fuel
  | Datatypes.S fuel =>
      if page_id =? INVALID_PAGE_ID then mret None
      else
        o ← io_fetch page_id;
        match o with
        | None => mret None
        | Some f =>
            d ← io_read f;
            '(slot, d') ← st_lift (TablePage.InsertTuple tuple d);
            match slot with
            | Some s =>
                io_write f (λ _, d');;
                io_unpin page_id true;;
                mret (Some (mkRID page_id s))
            | None =>
                next_page_id ← st_lift (GetNextPageId d);
                if next_page_id =? INVALID_PAGE_ID then append_page page_id f tuple
                else io_unpin page_id false;; insert_loop fuel tuple next_page_id
            end
        end
  end.
Definition InsertTuple (fuel : nat) (first_page_id : Z) (tuple : Tuple) : ST S (option RID) :=
  insert_loop fuel (data_ tuple) first_page_id.

Definition GetTuple (rid : RID) : ST S Tuple :=
  o ← io_fetch (rid_page_id rid);
  match o with
  | None => st_throw (RuntimeError "Cannot fetch page for GetTuple")
  | Some f =>
      d ← io_read f;
      buffer ← st_lift (TablePage.GetTuple (rid_slot_num rid) d);
      io_unpin (rid_page_id rid) false;;
      t ← st_lift (Tuple_DeserializeFrom buffer (Z.of_nat (length buffer)) Tuple_default);
      mret (SetRID rid t)
  end.

Definition UpdateTuple (rid : RID) (new_tuple : Tuple) : ST S bool :=
  o ← io_fetch (rid_page_id rid);
  match o with
  | None => mret false
  | Some f =>
      d ← io_read f;
      '(success, d') ← st_lift (TablePage.UpdateTuple (rid_slot_num rid) (data_ new_tuple) d);
      (if success : bool then io_write f (λ _, d') else mret tt);;
      io_unpin (rid_page_id rid) success;;
      mret success
  end.

Definition DeleteTuple (rid : RID) : ST S unit :=
  o ← io_fetch (rid_page_id rid);
  match o with
  | None => mret tt
  | Some f =>
      d ← io_read f;
      d' ← st_lift (TablePage.DeleteTuple (rid_slot_num rid) d);
      io_write f (λ _, d');;
      io_unpin (rid_page_id rid) true;;
      mret tt
  end.

(** ** The iterator: the [RID] it stands on *)

(** The search for a slot that is not deleted, from [slot] on. *)
Fixpoint find_slot (fuel : nat) (d : bytes) (slot num_tuples : Z) : res (option Z) :=
  match fuel with
  | O => OutOfFuel
  | Datatypes.S fuel =>
      if slot <? num_tuples then
        size ← GetTupleSize slot d;
        if 0 <? size then Ok (Some slot) else find_slot fuel d (u16 (slot + 1)) num_tuples
      else Ok None
  end.

(** The loop of [operator++], and of [Begin] with slot 0. *)
Fixpoint seek (fuel : nat) (page_id slot : Z) : ST S RID :=
  match fuel with
  | O => st_fuel
  | Datatypes.S fuel =>
      if page_id =? INVALID_PAGE_ID then mret (mkRID INVALID_PAGE_ID 0)
      else
        o ← io_fetch page_id;
        match o with
        | None => mret (mkRID INVALID_PAGE_ID 0)
        | Some f =>
            d ← io_read f;
            num_tuples ← st_lift (GetNumTuples d);
            found ← st_lift (find_slot (Datatypes.S (Z.to_nat num_tuples)) d slot num_tuples);
            match found with
            | Some s => io_unpin page_id false;; mret (mkRID page_id s)
            | None =>
                next_page_id ← st_lift (GetNextPageId d);
                io_unpin page_id false;;
                seek fuel next_page_id 0
            end
        end
  end.

Definition Begin (fuel : nat) (first_page_id : Z) : ST S RID := seek fuel first_page_id 0.
Definition End : RID := mkRID INVALID_PAGE_ID 0.
Definition Deref (it : RID) : ST S Tuple := GetTuple it.
Definition Next (fuel : nat) (it : RID) : ST S RID :=
  seek fuel (rid_page_id it) (u16 (rid_slot_num it + 1)).
Definition iter_eqb (a b : RID) : bool := RID_eqb a b.

(** ** What a heap holds

    A heap is the list of its pages: their ids, the byte strings of their slots
    and their free space. *)

Abbreviation page_slots := (list bytes * Z)%type.
Abbreviation heap := (list (Z * page_slots)).

Fixpoint heap_chain (m : gmap Z bytes) (first : Z) (h : heap) : Prop :=
  match h with
  | [] => first = INVALID_PAGE_ID
  | (pid, (ts, free)) :: h =>
      first = pid ∧ pid ≠ INVALID_PAGE_ID ∧
      ∃ d next, m !! pid = Some d ∧ page_view d next ts free ∧ heap_chain m next h
  end.

Definition heap_ok (m : gmap Z bytes) (first : Z) (h : heap) : Prop :=
  heap_chain m first h ∧ NoDup h.*1 ∧ h ≠ [].

(** The byte string at a record id, the empty one after a deletion. *)
Definition heap_at (h : heap) (r : RID) : option bytes :=
  p ← (list_to_map h : gmap Z page_slots) !! rid_page_id r;
  if decide (0 ≤ rid_slot_num r) then p.1 !! Z.to_nat (rid_slot_num r) else None.

(** The tuples that are not deleted, in the order of the pages and the slots. *)
Definition live_slots (pid : Z) (from : nat) (ts : list bytes) : list (RID * bytes) :=
  filter (λ x, x.2 ≠ []) (imap (λ i t, (mkRID pid (Z.of_nat (from + i)), t)) ts).
Definition live (h : heap) : list (RID * bytes) := h ≫= λ p, live_slots p.1 0 p.2.1.

Implicit Types (m : gmap Z bytes) (h : heap) (ts : list bytes).

Lemma chain_agree m m' first h :
  heap_chain m first h → (∀ p, p ∈ h.*1 → m' !! p = m !! p) → heap_chain m' first h.
Proof.
  revert first; induction h as [|[pid [ts free]] h IH]; intros first; [done|].
  intros (-> & Hne & d & next & Hd & Hv & Hc) Hag. split; [done|]. split; [done|]. exists d, next.
  split; [rewrite Hag; [done|set_solver]|]. split; [done|]. apply IH; [done|]. intros p Hp. apply Hag. set_solver.
Qed.

(** A page of the chain, and the chain with another content for that page. *)
Lemma chain_page m first h1 pid ts free h2 :
  heap_chain m first (h1 ++ (pid, (ts, free)) :: h2) → NoDup (h1 ++ (pid, (ts, free)) :: h2).*1 →
  pid ≠ INVALID_PAGE_ID ∧ ∃ d next, m !! pid = Some d ∧ page_view d next ts free ∧
    ∀ d' ts' free', page_view d' next ts' free' →
      heap_chain (<[pid := d']> m) first (h1 ++ (pid, (ts', free')) :: h2).
Proof.
  revert first. induction h1 as [|[p1 [ts1 f1]] h1 IH]; intros first.
  - intros (-> & Hne & d & next & Hd & Hv & Hc) Hnd. split; [done|]. exists d, next. split_and!; [done|done|].
    intros d' ts' free' Hv'. split_and!; [done|done|]. exists d', next. split; [apply lookup_insert_eq|]. split; [done|].
    apply (chain_agree m); [done|]. intros p Hp. apply lookup_insert_ne. intros <-.
    by inversion Hnd.
  - intros (-> & Hne & d & next & Hd & Hv & Hc) Hnd. inversion Hnd as [|? ? Hnin Hnd']; subst.
    destruct (IH next Hc Hnd') as (Hne' & d1 & next1 & Hd1 & Hv1 & Hset). split; [done|].
    exists d1, next1. split_and!; [done|done|]. intros d' ts' free' Hv'.
    split_and!; [done|done|]. exists d, next. split_and!; [|done|by apply Hset].
    rewrite lookup_insert_ne; [done|]. intros ->. apply Hnin. rewrite fmap_app. set_solver.
Qed.

Lemma heap_at_split h r t : heap_at h r = Some t →
  ∃ h1 ts free h2 i, h = h1 ++ (rid_page_id r, (ts, free)) :: h2 ∧ rid_slot_num r = Z.of_nat i ∧ ts !! i = Some t.
Proof.
  unfold heap_at. intros ([ts free] & Hp & Ht)%bind_Some. case_decide; [|done]. simpl in Ht.
  apply elem_of_list_to_map_2, list_elem_of_split in Hp as (h1 & h2 & ->).
  exists h1, ts, free, h2, (Z.to_nat (rid_slot_num r)). split_and!; [done|lia|done].
Qed.

(** Looking up after the slots of one page have changed. *)
Lemma heap_at_set h1 pid ts free ts' free' h2 r :
  NoDup (h1 ++ (pid, (ts, free)) :: h2).*1 →
  heap_at (h1 ++ (pid, (ts', free')) :: h2) r =
  if decide (rid_page_id r = pid)
  then if decide (0 ≤ rid_slot_num r) then ts' !! Z.to_nat (rid_slot_num r) else None
  else heap_at (h1 ++ (pid, (ts, free)) :: h2) r.
Proof.
  intros Hnd. unfold heap_at. rewrite !list_to_map_app, !lookup_union, !list_to_map_cons.
  rewrite fmap_app, NoDup_app in Hnd. destruct Hnd as (_ & Hnin & _).
  destruct (decide (rid_page_id r = pid)) as [Hp|Hp].
  - subst. rewrite lookup_insert_eq. rewrite not_elem_of_list_to_map_1; [done|].
    intros Hin. apply (Hnin (rid_page_id r)); [done|]. set_solver.
  - by rewrite !lookup_insert_ne by done.
Qed.

Lemma heap_at_slot h1 pid ts free h2 i t :
  NoDup (h1 ++ (pid, (ts, free)) :: h2).*1 → ts !! i = Some t →
  heap_at (h1 ++ (pid, (ts, free)) :: h2) (mkRID pid (Z.of_nat i)) = Some t.
Proof.
  intros Hnd Hi. rewrite (heap_at_set h1 pid ts free ts free h2) by done. simpl.
  rewrite decide_True by done. rewrite decide_True by lia. by rewrite Nat2Z.id.
Qed.

(** ** Operations on one record *)

Abbreviation heap_triple := (triple (S := S) io_rel).

(** [h'] is [h] with [t] at [r], in the same pages. *)
Definition replaced (r : RID) (t : bytes) (h h' : heap) : Prop :=
  h'.*1 = h.*1 ∧ ∀ r', heap_at h' r' = if decide (r' = r) then Some t else heap_at h r'.

Lemma replaced_slot h1 pid ts free free' h2 (i : nat) old t :
  NoDup (h1 ++ (pid, (ts, free)) :: h2).*1 → ts !! i = Some old →
  replaced (mkRID pid (Z.of_nat i)) t (h1 ++ (pid, (ts, free)) :: h2) (h1 ++ (pid, (<[i := t]> ts, free')) :: h2).
Proof.
  intros Hnd Hi. split; [by rewrite !fmap_app|]. intros r'.
  rewrite (heap_at_set h1 pid ts free (<[i := t]> ts) free' h2 r' Hnd).
  destruct (decide (rid_page_id r' = pid)) as [Hp|Hp]; [|rewrite decide_False; [done|by intros ->]].
  rewrite (heap_at_set h1 pid ts free ts free h2 r' Hnd), (decide_True _ _ Hp).
  destruct r' as [p s]; simpl in *; subst p. destruct (decide (0 ≤ s)) as [Hs|Hs].
  - destruct (decide (Z.to_nat s = i)) as [Hsi|Hsi].
    + rewrite Hsi, list_lookup_insert_eq by (by eapply lookup_lt_Some).
      rewrite decide_True; [done|]. f_equal. lia.
    + rewrite list_lookup_insert_ne by done. rewrite decide_False; [done|]. intros [= ->]. by rewrite Nat2Z.id in Hsi.
  - rewrite decide_False; [done|]. intros [= ->]. lia.
Qed.

Lemma heap_ok_set m first h1 pid ts free h2 d' next ts' free' :
  heap_ok m first (h1 ++ (pid, (ts, free)) :: h2) →
  heap_chain (<[pid := d']> m) first (h1 ++ (pid, (ts', free')) :: h2) →
  page_view d' next ts' free' → heap_ok (<[pid := d']> m) first (h1 ++ (pid, (ts', free')) :: h2).
Proof.
  intros (_ & Hnd & _) Hc _. split; [done|]. split; [|by destruct h1].
  rewrite fmap_app in *. exact Hnd.
Qed.

Lemma GetTuple_rule m nid first h r t :
  1 ≤ io_frames → heap_ok m first h → heap_at h r = Some t →
  heap_triple 3 (idle m nid) (GetTuple r) (λ x a', x = mkTuple r t [] ∧ a' = idle m nid).
Proof.
  intros Hn (Hc & Hnd & _) Hr. destruct (heap_at_split h r t Hr) as (h1 & ts & free & h2 & i & -> & Hs & Hi).
  destruct (chain_page m first h1 _ ts free h2 Hc Hnd) as (Hne & d & next & Hd & Hv & _).
  unfold GetTuple. rewrite Hs. page_step pin_rule; [done|done|]. intros o a' (f & -> & ->).
  page_step read_pinned_rule; [done|]. intros ? a' [-> ->].
  pure_step (proj1 (GetTuple_ok d next ts free Hv i t Hi)).
  page_step unpin_pinned_rule; [set_solver|by right|]. intros ? a' [_ ->].
  assert (Tuple_DeserializeFrom t (Z.of_nat (length t)) Tuple_default = Ok (mkTuple RID_default t [])) as Hdes.
  { unfold Tuple_DeserializeFrom. rewrite mem_read_ok by lia. simpl. by rewrite Nat2Z.id, drop_0, take_ge by lia. }
  pure_step Hdes. apply ret_rule; [lia|]. done.
Qed.

(** The page after a deletion. *)
Lemma DeleteTuple_step m nid first h1 pid ts free h2 i b :
  1 ≤ io_frames → heap_ok m first (h1 ++ (pid, (ts, free)) :: h2) → ts !! i = Some b →
  ∃ d', heap_ok (<[pid := d']> m) first (h1 ++ (pid, (<[i := []]> ts, free)) :: h2) ∧
    heap_triple 4 (idle m nid) (DeleteTuple (mkRID pid (Z.of_nat i))) (λ _ a', a' = idle (<[pid := d']> m) nid).
Proof.
  intros Hn Hok Hi. pose proof Hok as (Hc & Hnd & _).
  destruct (chain_page m first h1 _ ts free h2 Hc Hnd) as (Hne & d & next & Hd & Hv & Hset).
  destruct (DeleteTuple_ok d next ts free Hv i b Hi) as (d' & Hdel & Hv').
  exists d'. split; [eapply heap_ok_set; [done| |exact Hv']; by apply Hset|].
  unfold DeleteTuple. simpl. page_step pin_rule; [done|done|]. intros o a' (f & -> & ->).
  page_step read_pinned_rule; [done|]. intros ? a' [-> ->]. pure_step Hdel.
  page_step write_pinned_rule; [done|]. intros ? a' ->.
  page_step unpin_pinned_rule; [set_solver|by left|]. intros ? a' [_ ->]. by apply ret_rule; [lia|].
Qed.

Lemma DeleteTuple_rule m nid first h r t :
  1 ≤ io_frames → heap_ok m first h → heap_at h r = Some t →
  heap_triple 4 (idle m nid) (DeleteTuple r) (λ _ a', ∃ m' h', a' = idle m' nid ∧
    heap_ok m' first h' ∧ replaced r [] h h').
Proof.
  intros Hn Hok Hr. pose proof Hok as (_ & Hnd & _).
  destruct (heap_at_split h r t Hr) as (h1 & ts & free & h2 & i & -> & Hs & Hi).
  destruct r as [p s]; simpl in *; subst s.
  destruct (DeleteTuple_step m nid first h1 p ts free h2 i t Hn Hok Hi) as (d' & Hok' & Hrun).
  eapply mono_rule; [exact Hrun|lia|]. intros _ a' ->. eexists _, _. split; [done|]. split; [exact Hok'|]. by eapply replaced_slot.
Qed.

(** [Some free] is the free space of the page of a record. *)
Definition page_free (h : heap) (r : RID) : option Z :=
  snd <$> (list_to_map h : gmap Z page_slots) !! rid_page_id r.

Lemma page_free_split h1 pid ts free h2 s :
  NoDup (h1 ++ (pid, (ts, free)) :: h2).*1 → page_free (h1 ++ (pid, (ts, free)) :: h2) (mkRID pid s) = Some free.
Proof.
  intros Hnd. unfold page_free. simpl. rewrite (elem_of_list_to_map_1 _ pid (ts, free)); [done|done|]. set_solver.
Qed.

Lemma UpdateTuple_rule m nid first h r old free t :
  1 ≤ io_frames → heap_ok m first h → heap_at h r = Some old → page_free h r = Some free →
  Z.of_nat (length (data_ t)) ≤ PAGE_SIZE →
  Z.of_nat (length (data_ t)) ≤ free ∨ Z.of_nat (length old) + free < Z.of_nat (length (data_ t)) →
  heap_triple 4 (idle m nid) (UpdateTuple r t) (λ b a',
    if decide (Z.of_nat (length (data_ t)) ≤ free)
    then b = true ∧ ∃ m' h', a' = idle m' nid ∧ heap_ok m' first h' ∧ replaced r (data_ t) h h'
    else b = false ∧ a' = idle m nid).
Proof.
  intros Hn Hok Hr Hf Hlen Hfit. pose proof Hok as (Hc & Hnd & _).
  destruct (heap_at_split h r old Hr) as (h1 & ts & free0 & h2 & i & -> & Hs & Hi).
  destruct r as [p s]; simpl in *; subst s. rewrite page_free_split in Hf by done. injection Hf as ->.
  destruct (chain_page m first h1 _ ts free h2 Hc Hnd) as (Hne & d & next & Hd & Hv & Hset).
  unfold UpdateTuple. page_step pin_rule; [done|done|]. intros o a' (f & -> & ->).
  page_step read_pinned_rule; [done|]. intros ? a' [-> ->]. simpl. case_decide as Hfits.
  - destruct (UpdateTuple_ok d next ts free i old (data_ t) Hv Hi Hfits) as (d' & Hup & Hv').
    pure_step Hup. page_step write_pinned_rule; [done|]. intros ? a' ->.
    page_step unpin_pinned_rule; [set_solver|by left|]. intros ? a' [_ ->]. apply ret_rule; [lia|].
    split; [done|]. eexists _, _. split; [done|]. split.
    + eapply heap_ok_set; [done| |exact Hv']. by apply Hset.
    + by eapply replaced_slot.
  - pure_step (UpdateTuple_refused d next ts free i old (data_ t) Hv Hi Hlen ltac:(lia)).
    pure_step (eq_refl (Ok tt)). page_step unpin_pinned_rule; [set_solver|by right|]. intros ? a' [_ ->].
    by apply ret_rule; [lia|].
Qed.

(** ** Iteration *)

Lemma live_slots_cons pid i t ts :
  live_slots pid i (t :: ts) =
  (if decide (t = []) then [] else [(mkRID pid (Z.of_nat i), t)]) ++ live_slots pid (Datatypes.S i) ts.
Proof.
  unfold live_slots. simpl. rewrite Nat.add_0_r.
  replace (imap (λ i0 t0, (mkRID pid (Z.of_nat (Datatypes.S (i + i0))), t0)) ts)
    with (imap ((λ i0 t0, (mkRID pid (Z.of_nat (i + i0)), t0)) ∘ Datatypes.S) ts)
    by (apply imap_ext; intros; simpl; by rewrite Nat.add_succ_r).
  rewrite filter_cons. simpl. by repeat case_decide.
Qed.

(** Where the search of an iterator stops. *)
Definition first_of (es : list (RID * bytes)) : RID := match es with [] => End | (r, _) :: _ => r end.

Lemma find_slot_ok d next ts free pid (i : nat) fuel :
  page_view d next ts free → (i ≤ length ts)%nat → (length ts - i < fuel)%nat →
  find_slot fuel d (Z.of_nat i) (Z.of_nat (length ts)) =
  Ok ((λ e, rid_slot_num e.1) <$> head (live_slots pid i (drop i ts))).
Proof.
  intros Hv. pose proof (pv_free _ _ _ _ Hv) as [? ?]. unfold slots_end, PAGE_SIZE in *.
  revert i. induction fuel as [|fuel IH]; intros i Hi Hfuel; [lia|]. cbn [find_slot].
  destruct (Z.ltb_spec (Z.of_nat i) (Z.of_nat (length ts))).
  - destruct (lookup_lt_is_Some_2 ts i) as [t Ht]; [lia|].
    rewrite (res_bind_ok _ _ _ (proj2 (GetTuple_ok d next ts free Hv i t Ht))).
    rewrite (drop_S ts t i Ht), live_slots_cons. destruct t as [|b t].
    + simpl. replace (u16 (Z.of_nat i + 1)) with (Z.of_nat (Datatypes.S i)) by (unfold u16; rewrite Z.mod_small; lia).
      apply IH; lia.
    + simpl. done.
  - rewrite drop_ge by lia. done.
Qed.

Lemma seek_ok m nid h : 1 ≤ io_frames → ∀ fuel pid ts free (i : nat),
  (length h < fuel)%nat → heap_chain m pid ((pid, (ts, free)) :: h) → (i ≤ length ts)%nat →
  heap_triple (3 * (1 + Z.of_nat (length h))) (idle m nid) (seek (Datatypes.S fuel) pid (Z.of_nat i))
    (λ r a', r = first_of (live_slots pid i (drop i ts) ++ live h) ∧ a' = idle m nid).
Proof.
  intros Hn. induction h as [|[pid' [ts' free']] h IH]; intros fuel pid ts free i Hfuel (_ & Hne & d & next & Hd & Hv & Hc) Hi;
    (destruct fuel as [|fuel]; [simpl in Hfuel; lia|]); remember (Datatypes.S fuel) as fuel' eqn:Hfe;
    cbn [seek]; rewrite (proj2 (Z.eqb_neq _ _) Hne);
    (page_step pin_rule; [done|done|]; intros o a' (f & -> & ->));
    (page_step read_pinned_rule; [done|]; intros ? a' [-> ->]);
    pure_step (pv_num _ _ _ _ Hv); rewrite Nat2Z.id;
    pure_step (find_slot_ok d next ts free pid i (Datatypes.S (length ts)) Hv Hi ltac:(lia));
    (destruct (live_slots pid i (drop i ts)) as [|[r t] es] eqn:E; simpl;
     [pure_step (pv_next _ _ _ _ Hv); (page_step unpin_pinned_rule; [set_solver|by right|]; intros ? a' [_ ->])
     |(page_step unpin_pinned_rule; [set_solver|by right|]; intros ? a' [_ ->]); apply ret_rule; [lia|]; split; [|done];
      assert ((r, t) ∈ live_slots pid i (drop i ts)) as Hin by (rewrite E; set_solver);
      apply list_elem_of_filter in Hin as [_ Hin]; apply elem_of_lookup_imap in Hin as (j & u & [= -> ->] & _); done]).
  - simpl in Hc. subst next fuel'. cbn [seek]. by apply ret_rule; [lia|].
  - pose proof Hc as (-> & _). subst fuel'. simpl in Hfuel.
    eapply mono_rule; [apply (IH fuel pid' ts' free' 0%nat); [lia|exact Hc|lia]|lia|].
    intros r a' [-> ->]. by rewrite drop_0.
Qed.

(** The iterator stands before the tuples [es] of [h]. *)
Definition stands (h : heap) (es : list (RID * bytes)) : Prop :=
  es = [] ∨ ∃ h1 pid ts free h2 i t, h = h1 ++ (pid, (ts, free)) :: h2 ∧ ts !! i = Some t ∧ t ≠ [] ∧
    es = (mkRID pid (Z.of_nat i), t) :: live_slots pid (Datatypes.S i) (drop (Datatypes.S i) ts) ++ live h2.

Lemma live_slots_head pid ts i :
  live_slots pid i (drop i ts) = [] ∨ ∃ j t, ts !! j = Some t ∧ t ≠ [] ∧
    live_slots pid i (drop i ts) = (mkRID pid (Z.of_nat j), t) :: live_slots pid (Datatypes.S j) (drop (Datatypes.S j) ts).
Proof.
  remember (length ts - i)%nat as n eqn:Hn. revert i Hn. induction n as [|n IH]; intros i Hn.
  - left. by rewrite drop_ge by lia.
  - destruct (lookup_lt_is_Some_2 ts i) as [t Ht]; [lia|]. rewrite (drop_S ts t i Ht), live_slots_cons.
    case_decide as Ht0; simpl; [apply IH; lia|]. right. exists i, t. done.
Qed.

Lemma stands_at h1 pid ts free h2 i :
  stands (h1 ++ (pid, (ts, free)) :: h2) (live_slots pid i (drop i ts) ++ live h2).
Proof.
  revert h1 pid ts free i. induction h2 as [|[p2 [ts2 f2]] h2 IH]; intros h1 pid ts free i;
    (destruct (live_slots_head pid ts i) as [->|(j & t & Hj & Ht & ->)];
     [|right; simpl; eexists h1, pid, ts, free, _, j, t; done]).
  - by left.
  - simpl. specialize (IH (h1 ++ [(pid, (ts, free))]) p2 ts2 f2 0%nat). rewrite drop_0, <- app_assoc in IH. exact IH.
Qed.

Lemma stands_all h : stands h (live h).
Proof.
  destruct h as [|[pid [ts free]] h]; [by left|]. pose proof (stands_at [] pid ts free h 0) as H.
  by rewrite drop_0 in H.
Qed.

Lemma stands_deref h r t es : NoDup h.*1 → stands h ((r, t) :: es) → heap_at h r = Some t.
Proof.
  intros Hnd [?|(h1 & pid & ts & free & h2 & i & u & -> & Hi & _ & [= -> -> ->])]; [done|]. by apply heap_at_slot.
Qed.

(** Deleting the record an iterator has just left. *)
Lemma live_slots_app pid ts1 ts2 : ∀ i, live_slots pid i (ts1 ++ ts2) = live_slots pid i ts1 ++ live_slots pid (i + length ts1) ts2.
Proof.
  induction ts1 as [|t ts1 IH]; intros i; simpl; [by rewrite Nat.add_0_r|].
  rewrite !live_slots_cons, IH, <- app_assoc. do 3 f_equal. lia.
Qed.

Lemma live_app h1 h2 : live (h1 ++ h2) = live h1 ++ live h2.
Proof. unfold live. by rewrite bind_app. Qed.

Lemma live_page h1 pid ts free h2 i t : ts !! i = Some t →
  live (h1 ++ (pid, (ts, free)) :: h2) = live h1 ++ live_slots pid 0 (take i ts) ++
    (if decide (t = []) then [] else [(mkRID pid (Z.of_nat i), t)]) ++ live_slots pid (Datatypes.S i) (drop (Datatypes.S i) ts) ++ live h2.
Proof.
  intros Hi. rewrite live_app. f_equal. change (live ((pid, (ts, free)) :: h2)) with (live_slots pid 0 ts ++ live h2).
  rewrite <- (take_drop_middle ts i t Hi) at 1. rewrite live_slots_app, live_slots_cons.
  rewrite length_take_le by (apply lookup_lt_Some in Hi; lia). by rewrite <- !app_assoc.
Qed.

Lemma stands_delete m nid first h r t es pre :
  1 ≤ io_frames → heap_ok m first h → stands h ((r, t) :: es) → live h = pre ++ (r, t) :: es →
  ∃ m' h', heap_ok m' first h' ∧ stands h' es ∧ live h' = pre ++ es ∧ length h' = length h ∧
    heap_triple 4 (idle m nid) (DeleteTuple r) (λ _ a', a' = idle m' nid).
Proof.
  intros Hn Hok [?|(h1 & pid & ts & free & h2 & i & u & -> & Hi & Hne & [= -> -> ->])] Hlive; [done|].
  destruct (DeleteTuple_step m nid first h1 pid ts free h2 i u Hn Hok Hi) as (d' & Hok' & Hrun).
  pose proof (lookup_lt_Some _ _ _ Hi) as Hlt.
  assert (drop (Datatypes.S i) (<[i := []]> ts) = drop (Datatypes.S i) ts) as Hdrop by (rewrite drop_insert_lt by lia; done).
  exists (<[pid := d']> m), (h1 ++ (pid, (<[i := []]> ts, free)) :: h2). split_and!; [done| | |by rewrite !length_app|done].
  - pose proof (stands_at h1 pid (<[i := []]> ts) free h2 (Datatypes.S i)) as Hst. by rewrite Hdrop in Hst.
  - rewrite (live_page h1 pid _ free h2 i []) by by apply list_lookup_insert_eq.
    rewrite decide_True, Hdrop, take_insert_ge by done. simpl.
    rewrite (live_page h1 pid ts free h2 i u Hi), decide_False in Hlive by done.
    simpl in Hlive. rewrite (app_assoc (live h1)) in Hlive. apply app_inv_tail in Hlive. rewrite <- Hlive. by rewrite <- !app_assoc.
Qed.

Lemma chain_suffix m first h1 h2 : heap_chain m first (h1 ++ h2) → ∃ first', heap_chain m first' h2.
Proof.
  revert first. induction h1 as [|[pid [ts free]] h1 IH]; intros first Hc; [by eexists|].
  destruct Hc as (_ & _ & d & next & _ & _ & Hc). by eapply IH.
Qed.

Lemma Next_rule m nid first h r t es fuel :
  1 ≤ io_frames → heap_ok m first h → stands h ((r, t) :: es) → (length h < fuel)%nat →
  heap_triple (3 * Z.of_nat (length h)) (idle m nid) (Next fuel r)
    (λ r' a', r' = first_of es ∧ stands h es ∧ a' = idle m nid).
Proof.
  intros Hn (Hc & Hnd & _) [?|(h1 & pid & ts & free & h2 & i & u & -> & Hi & _ & [= -> -> ->])] Hfuel; [done|].
  destruct (chain_suffix m first h1 _ Hc) as (first' & Hc'). pose proof Hc' as (-> & _ & d & next & _ & Hv & _).
  pose proof (pv_free _ _ _ _ Hv) as [? ?]. pose proof (lookup_lt_Some _ _ _ Hi).
  rewrite length_app in Hfuel |- *. simpl in Hfuel |- *.
  unfold Next. simpl. replace (u16 (Z.of_nat i + 1)) with (Z.of_nat (Datatypes.S i))
    by (unfold u16, slots_end, PAGE_SIZE in *; rewrite Z.mod_small; lia).
  destruct fuel as [|fuel]; [lia|].
  eapply mono_rule; [apply (seek_ok m nid h2 Hn fuel pid ts free (Datatypes.S i)); [lia|exact Hc'|lia]|lia|].
  intros r' a' [-> ->]. split; [done|]. split; [apply stands_at|done].
Qed.

Lemma Begin_rule m nid first h fuel :
  1 ≤ io_frames → heap_ok m first h → (length h < fuel)%nat →
  heap_triple (3 * Z.of_nat (length h)) (idle m nid) (Begin fuel first)
    (λ r a', r = first_of (live h) ∧ a' = idle m nid).
Proof.
  intros Hn (Hc & Hnd & Hne) Hfuel. destruct h as [|[pid [ts free]] h]; [done|]. pose proof Hc as (-> & _).
  simpl in Hfuel. unfold Begin. destruct fuel as [|fuel]; [lia|].
  eapply mono_rule; [apply (seek_ok m nid h Hn fuel pid ts free 0%nat); [lia|exact Hc|lia]|simpl; lia|].
  intros r a' [-> ->]. by rewrite drop_0.
Qed.

(** Reading a heap through its iterator, as its clients do. *)
Fixpoint scan (fuel pages : nat) (it : RID) : ST S (list Tuple) :=
  match fuel with
  | O => st_fuel
  | Datatypes.S fuel =>
      if iter_eqb it End then mret []
      else
        t ← Deref it;
        it ← Next pages it;
        rest ← scan fuel pages it;
        mret (t :: rest)
  end.

Lemma scan_rule m nid first h pages es :
  1 ≤ io_frames → heap_ok m first h → (length h < pages)%nat → stands h es → ∀ fuel, (length es < fuel)%nat →
  heap_triple ((3 + 3 * Z.of_nat (length h)) * Z.of_nat (length es)) (idle m nid) (scan fuel pages (first_of es))
    (λ tuples a', tuples = (λ e, mkTuple e.1 e.2 []) <$> es ∧ a' = idle m nid).
Proof.
  intros Hn Hok Hpages. pose proof Hok as (Hc & Hnd & _). induction es as [|[r t] es IH]; intros Hst [|fuel] Hfuel; try (simpl in Hfuel; lia).
  - simpl. by apply ret_rule; [lia|].
  - pose proof (stands_deref h r t es Hnd Hst) as Hr.
    assert (iter_eqb r End = false) as He.
    { destruct (heap_at_split h r t Hr) as (h1 & ts & free & h2 & i & -> & _).
      destruct (chain_page m first h1 _ ts free h2 Hc Hnd) as [Hne _].
      unfold iter_eqb, RID_eqb. simpl. by rewrite (proj2 (Z.eqb_neq _ _) Hne). }
    cbn [scan first_of fmap list_fmap]. rewrite He. cbn [length].
    replace ((3 + 3 * Z.of_nat (length h)) * Z.of_nat (Datatypes.S (length es)))
      with (3 + (3 * Z.of_nat (length h) + ((3 + 3 * Z.of_nat (length h)) * Z.of_nat (length es) + 0))) by lia.
    eapply bind_rule; [lia|by apply (GetTuple_rule m nid first h r t)|]. intros ? a' [-> ->].
    eapply bind_rule; [lia|by apply (Next_rule m nid first h r t es)|]. intros r' a' (-> & Hst' & ->).
    eapply bind_rule; [lia|apply IH; [done|simpl in Hfuel; lia]|]. intros tuples a' [-> ->].
    by apply ret_rule; [lia|].
Qed.

(** C20: a table heap is a finite map from record ids.  [GetTuple] reads a record,
    [DeleteTuple] empties it; [UpdateTuple] replaces it when the new bytes fit the
    free space of its page, and refuses when they exceed it and the old bytes together;
    no other record changes.  New bytes between these two bounds are excluded: there
    [UpdateTuple] overwrites other slots (see [update_overwrites_the_slots]). *)
Theorem heap_records m nid first h r old free t :
  1 ≤ io_frames → heap_ok m first h → heap_at h r = Some old → page_free h r = Some free →
  Z.of_nat (length (data_ t)) ≤ PAGE_SIZE →
  Z.of_nat (length (data_ t)) ≤ free ∨ Z.of_nat (length old) + free < Z.of_nat (length (data_ t)) →
  heap_triple 3 (idle m nid) (GetTuple r) (λ x a', x = mkTuple r old [] ∧ a' = idle m nid) ∧
  heap_triple 4 (idle m nid) (DeleteTuple r) (λ _ a', ∃ m' h', a' = idle m' nid ∧
    heap_ok m' first h' ∧ replaced r [] h h') ∧
  heap_triple 4 (idle m nid) (UpdateTuple r t) (λ b a',
    if decide (Z.of_nat (length (data_ t)) ≤ free)
    then b = true ∧ ∃ m' h', a' = idle m' nid ∧ heap_ok m' first h' ∧ replaced r (data_ t) h h'
    else b = false ∧ a' = idle m nid).
Proof.
  intros. split; [by apply (GetTuple_rule m nid first h)|]. split; [by apply (DeleteTuple_rule m nid first h r old)|]. by eapply UpdateTuple_rule.
Qed.

(** C22: iterating over a table heap terminates and gives every record that is not
    deleted, in the order of pages and slots, and only those. *)
Theorem heap_iteration m nid first h fuel pages :
  1 ≤ io_frames → heap_ok m first h → (length h < pages)%nat → (length (live h) < fuel)%nat →
  heap_triple (3 * Z.of_nat (length h) + (3 + 3 * Z.of_nat (length h)) * Z.of_nat (length (live h))) (idle m nid)
    (it ← Begin pages first; scan fuel pages it)
    (λ tuples a', tuples = (λ e, mkTuple e.1 e.2 []) <$> live h ∧ a' = idle m nid) ∧
  ∀ r t, (r, t) ∈ live h ↔ heap_at h r = Some t ∧ t ≠ [].
Proof.
  intros Hn Hok Hpages Hfuel. split.
  - eapply bind_rule; [lia|by apply (Begin_rule m nid first h)|]. intros r a' [-> ->].
    apply (scan_rule m nid first h pages (live h)); try done. apply stands_all.
  - intros r t. pose proof Hok as (_ & Hnd & _). split.
    + unfold live. intros ([pid [ts free]] & Hin & Hp)%list_elem_of_bind. simpl in Hin.
      apply list_elem_of_filter in Hin as [Ht Hin]. split; [|done].
      apply elem_of_lookup_imap in Hin as (i & u & [= -> ->] & Hi).
      apply list_elem_of_split in Hp as (h1 & h2 & ->). by apply heap_at_slot.
    + intros [Hr Ht]. destruct (heap_at_split h r t Hr) as (h1 & ts & free & h2 & i & -> & Hs & Hi).
      unfold live. apply list_elem_of_bind. exists (rid_page_id r, (ts, free)). split; [|set_solver].
      unfold live_slots. apply list_elem_of_filter. split; [done|]. apply elem_of_lookup_imap.
      exists i, t. split; [|done]. simpl. rewrite <- Hs. by destruct r.
Qed.

(** ** Insertion *)

Context (zero_len : Z.of_nat (length (io_zero : bytes)) = PAGE_SIZE).

(** What the page appended for a tuple [t] holds. *)
Definition fits_new_page (t : bytes) : bool := Z.of_nat (length t) + 4 <=? 4080.
Definition appended (t : bytes) : page_slots :=
  if fits_new_page t then ([t], 4080 - Z.of_nat (length t) - 4) else ([], 4080).
Definition appended_rid (pid : Z) (t : bytes) : option RID :=
  if fits_new_page t then Some (mkRID pid 0) else None.

Lemma i32_id z : in_i32 z = true → i32 z = z.
Proof. apply i32_small. Qed.

Lemma InsertTuple_fresh d t : page_view d INVALID_PAGE_ID [] 4080 → Z.of_nat (length t) ≤ PAGE_SIZE →
  ∃ slot d', TablePage.InsertTuple t d = Ok (slot, d') ∧ (λ s, mkRID 0 s) <$> slot = appended_rid 0 t ∧
    page_view d' INVALID_PAGE_ID (appended t).1 (appended t).2.
Proof.
  intros Hv Hlen. unfold appended_rid, appended, fits_new_page.
  destruct (InsertTuple_ok d _ _ _ Hv t Hlen) as [[H1 H2]|(d' & H1 & H2 & H3)].
  - rewrite (proj2 (Z.leb_gt _ _)) by lia. by exists None, d.
  - rewrite (proj2 (Z.leb_le _ _)) by lia. by exists (Some 0), d'.
Qed.

(** The pages after [append_page] do not depend on the run. *)
Lemma append_rule m nid pid d ts free t :
  2 ≤ io_frames → in_i32 nid = true → nid ≠ INVALID_PAGE_ID → pid ≠ INVALID_PAGE_ID →
  m !! pid = Some d → page_view d INVALID_PAGE_ID ts free → Z.of_nat (length t) ≤ PAGE_SIZE →
  ∃ m', (m !! nid = None → (∀ p, p ≠ pid → p ≠ nid → m' !! p = m !! p) ∧ heap_chain m' pid [(pid, (ts, free)); (nid, appended t)]) ∧
    ∀ f, heap_triple 10 (mkStore m {[pid := (1, f)]} ∅ nid) (append_page pid f t) (λ o a',
      o = appended_rid nid t ∧ a' = idle m' (nid + 1) ∧ m !! nid = None).
Proof.
  intros Hn Hnid Hnid1 Hpid Hd Hv Hlen.
  destruct (Init_ok INVALID_PAGE_ID io_zero zero_len) as (nd & Hinit & Hvn).
  destruct (SetNextPageId_ok d _ ts free nid Hv) as (d' & Hset & Hvp). rewrite (i32_id nid Hnid) in Hvp.
  destruct (InsertTuple_fresh nd t Hvn Hlen) as (slot & nd' & Hins & Hslot & Hvn').
  exists (<[nid := nd']> (<[pid := d']> (<[nid := nd]> m))). split.
  { intros Hfresh. assert (pid ≠ nid) as Hne by (intros ->; congruence). split.
    - intros p Hp1 Hp2. by rewrite !lookup_insert_ne by done.
    - simpl. split; [done|]. split; [done|]. exists d', nid. rewrite (lookup_insert_ne _ nid pid), lookup_insert_eq by done.
      split; [done|]. split; [done|]. destruct (appended t) as [tsn fn]. split; [done|]. split; [done|].
      exists nd', INVALID_PAGE_ID. rewrite lookup_insert_eq. done. }
  intros f. unfold append_page. page_step new_rule. { unfold room. rewrite map_size_singleton. lia. }
  intros o a' (nf & -> & Hnf & Hfresh & ->). assert (pid ≠ nid) as Hne by (intros ->; congruence).
  set (P := <[nid := (1, nf)]> {[pid := (1, f)]} : gmap Z (Z * Z)).
  assert (P !! nid = Some (1, nf)) as HPn by apply lookup_insert_eq.
  assert (P !! pid = Some (1, f)) as HPp by (unfold P; rewrite lookup_insert_ne by done; apply lookup_singleton_eq).
  assert (distinct_frames P) as HP by (apply distinct_insert; [apply distinct_singleton|done]).
  assert (delete pid P = {[nid := (1, nf)]}) as HPd.
  { unfold P. rewrite delete_insert_ne by done. by rewrite delete_singleton_eq. }
  page_step (read_rule _ P _ _ nid 1 nf); [apply lookup_insert_eq|done|done|]. intros ? a' [-> ->].
  pure_step Hinit. page_step (write_rule _ P _ _ nid 1 nf); [apply lookup_insert_eq|done|done|]. intros [] a' ->.
  rewrite insert_insert_eq.
  page_step (read_rule _ P _ _ pid 1 f); [by rewrite lookup_insert_ne|done|done|]. intros ? a' [-> ->].
  pure_step Hset. page_step (write_rule _ P _ _ pid 1 f); [by rewrite lookup_insert_ne|done|done|]. intros [] a' ->.
  page_step (unpin_rule _ P _ _ pid f); [done|by left|]. intros ? a' [_ ->]. rewrite HPd.
  page_step read_pinned_rule; [rewrite lookup_insert_ne by done; apply lookup_insert_eq|]. intros ? a' [-> ->].
  pure_step Hins. page_step write_pinned_rule; [rewrite lookup_insert_ne by done; apply lookup_insert_eq|]. intros [] a' ->.
  page_step unpin_pinned_rule; [set_solver|by left|]. intros ? a' [_ ->]. apply ret_rule; [lia|].
  split_and!; [|done|done]. unfold appended_rid in *. destruct slot, (fits_new_page t); simplify_eq/=; done.
Qed.

(** The heap after an insertion: the first page with room takes the tuple, or a
    page is appended. *)
Inductive inserted (nid : Z) (t : bytes) : heap → heap → option RID → Z → Prop :=
  | Ins_page h1 pid ts free h2 :
      Z.of_nat (length t) + 4 ≤ free →
      inserted nid t (h1 ++ (pid, (ts, free)) :: h2)
        (h1 ++ (pid, (ts ++ [t], free - Z.of_nat (length t) - 4)) :: h2)
        (Some (mkRID pid (Z.of_nat (length ts)))) nid
  | Ins_new h : inserted nid t h (h ++ [(nid, appended t)]) (appended_rid nid t) (nid + 1).

Lemma inserted_cons nid t p h h' o nid' : inserted nid t h h' o nid' → inserted nid t (p :: h) (p :: h') o nid'.
Proof.
  intros [h1 pid ts free h2|h0].
  - by apply (Ins_page nid t (p :: h1)).
  - apply (Ins_new nid t (p :: h0)).
Qed.

(** The same as a function: the first page with room. *)
Fixpoint put (nid : Z) (t : bytes) (h : heap) : option RID * heap * Z :=
  match h with
  | [] => (appended_rid nid t, [(nid, appended t)], nid + 1)
  | (pid, (ts, free)) :: h =>
      if Z.of_nat (length t) + 4 <=? free
      then (Some (mkRID pid (Z.of_nat (length ts))), (pid, (ts ++ [t], free - Z.of_nat (length t) - 4)) :: h, nid)
      else let '(o, h', nid') := put nid t h in (o, (pid, (ts, free)) :: h', nid')
  end.

Lemma put_inserted nid t h o h' nid' : put nid t h = (o, h', nid') → inserted nid t h h' o nid'.
Proof.
  revert o h' nid'. induction h as [|[pid [ts free]] h IH]; intros o h' nid'; cbn [put].
  - intros [= <- <- <-]. apply (Ins_new nid t []).
  - destruct (Z.leb_spec (Z.of_nat (length t) + 4) free).
    + intros [= <- <- <-]. by apply (Ins_page nid t []).
    + destruct (put nid t h) as [[o1 h1] nid1]. intros [= <- <- <-]. by apply inserted_cons, IH.
Qed.

Lemma put_pages nid t h o h' nid' : put nid t h = (o, h', nid') → (h'.*1 = h.*1 ∧ nid' = nid) ∨ (h'.*1 = h.*1 ++ [nid] ∧ nid' = nid + 1).
Proof. intros [h1 pid ts free h2 _|h0]%put_inserted; [left|right]; by rewrite !fmap_app. Qed.

Lemma insert_loop_rule t nid :
  2 ≤ io_frames → in_i32 nid = true → nid ≠ INVALID_PAGE_ID → Z.of_nat (length t) ≤ PAGE_SIZE →
  ∀ h m first fuel, (length h ≤ fuel)%nat → heap_chain m first h → NoDup h.*1 → h ≠ [] →
  ∃ o h' nid' m', put nid t h = (o, h', nid') ∧
    ((nid ≠ nid' → m !! nid = None) → heap_chain m' first h' ∧ ∀ p, p ∉ h'.*1 → m' !! p = m !! p) ∧
    heap_triple (3 * Z.of_nat (length h) + 9) (idle m nid) (insert_loop fuel t first) (λ o' a',
      o' = o ∧ a' = idle m' nid' ∧ (nid ≠ nid' → m !! nid = None)).
Proof.
  intros Hn Hnid Hnid1 Hlen. induction h as [|[pid [ts free]] h IH]; intros m first fuel Hfuel Hc Hnd Hne; [done|].
  destruct fuel as [|fuel]; [simpl in Hfuel; lia|].
  destruct Hc as (-> & Hpid & d & next & Hd & Hv & Hc). cbn [insert_loop length put].
  destruct (InsertTuple_ok d next ts free Hv t Hlen) as [[Hins Hbig]|(d' & Hins & Hfit & Hv')].
  - rewrite (proj2 (Z.leb_gt _ _)) by lia. destruct h as [|[pid2 [ts2 f2]] h].
    + simpl in Hc. subst next. destruct (append_rule m nid pid d ts free t) as (m' & Hm' & Hrun); [done..|].
      exists (appended_rid nid t), [(pid, (ts, free)); (nid, appended t)], (nid + 1), m'. split; [done|]. split.
      { intros Hfresh. destruct Hm' as [Hag Hch]; [apply Hfresh; lia|]. split; [done|].
        intros p Hp. apply Hag; set_solver. }
      rewrite (proj2 (Z.eqb_neq _ _) Hpid). page_step pin_rule; [done|lia|]. intros o a' (f & -> & ->).
      page_step read_pinned_rule; [done|]. intros ? a' [-> ->]. pure_step Hins. pure_step (pv_next _ _ _ _ Hv). simpl.
      eapply mono_rule; [by apply Hrun|lia|]. intros o a' (-> & -> & Hfresh). by split_and!.
    + pose proof Hc as (Heq & Hne2 & _). inversion Hnd as [|? ? Hnin Hnd']; subst.
      destruct (IH m pid2 fuel) as (o & h' & nid' & m' & Hput & Hm' & Hrun); [simpl in *; lia|done|done|done|].
      rewrite Hput. exists o, ((pid, (ts, free)) :: h'), nid', m'. split; [done|]. split.
      { intros Hfresh. destruct (Hm' Hfresh) as [Hch Hag]. split; [|intros p Hp; apply Hag; set_solver].
        split; [done|]. split; [done|]. exists d, pid2. split; [|done]. rewrite Hag; [done|].
        destruct (put_pages _ _ _ _ _ _ Hput) as [[-> _]|[-> Hnext]]; [done|].
        intros [?| ->%list_elem_of_singleton]%elem_of_app; [done|]. rewrite Hfresh in Hd; [done|lia]. }
      rewrite (proj2 (Z.eqb_neq _ _) Hpid). page_step pin_rule; [done|lia|]. intros o' a' (f & -> & ->).
      page_step read_pinned_rule; [done|]. intros ? a' [-> ->]. pure_step Hins. pure_step (pv_next _ _ _ _ Hv).
      rewrite (proj2 (Z.eqb_neq _ _) Hne2). page_step unpin_pinned_rule; [set_solver|by right|]. intros ? a' [_ ->].
      eapply mono_rule; [exact Hrun|simpl; lia|]. done.
  - rewrite (proj2 (Z.leb_le _ _)) by lia. eexists _, _, nid, (<[pid := d']> m). split; [done|]. split.
    { intros _. split; [|intros p Hp; apply lookup_insert_ne; set_solver].
      split; [done|]. split; [done|]. exists d', next. rewrite lookup_insert_eq. split; [done|]. split; [done|].
      apply (chain_agree m); [done|]. intros p Hp. apply lookup_insert_ne. intros <-. by inversion Hnd. }
    rewrite (proj2 (Z.eqb_neq _ _) Hpid). page_step pin_rule; [done|lia|]. intros o a' (f & -> & ->).
    page_step read_pinned_rule; [done|]. intros ? a' [-> ->]. pure_step Hins.
    page_step write_pinned_rule; [done|]. intros [] a' ->.
    page_step unpin_pinned_rule; [set_solver|by left|]. intros ? a' [_ ->]. by apply ret_rule; [lia|].
Qed.

Lemma chain_live m first h p : heap_chain m first h → p ∈ h.*1 → is_Some (m !! p).
Proof using Type.
  clear.
  revert first. induction h as [|[pid [ts free]] h IH]; intros first; [set_solver|].
  intros (-> & _ & d & next & Hd & _ & Hc) [->|Hp]%elem_of_cons; [by eexists|]. by eapply IH.
Qed.

Lemma chain_free m first h1 pid ts free h2 : heap_chain m first (h1 ++ (pid, (ts, free)) :: h2) → free ≤ 4080.
Proof using Type.
  clear.
  intros Hc. destruct (chain_suffix m first h1 _ Hc) as (? & _ & _ & d & next & _ & Hv & _).
  destruct (pv_free _ _ _ _ Hv) as [_ Hf]. unfold slots_end, PAGE_SIZE in Hf. lia.
Qed.

(** What an insertion does to the records. *)
Lemma inserted_heap_at nid t m first h h' o nid' :
  inserted nid t h h' o nid' → heap_chain m first h → NoDup h.*1 → (nid ≠ nid' → m !! nid = None) →
  NoDup h'.*1 ∧ h' ≠ [] ∧
  if fits_new_page t then ∃ r, o = Some r ∧ heap_at h r = None ∧
    ∀ r', heap_at h' r' = if decide (r' = r) then Some t else heap_at h r'
  else o = None ∧ ∀ r', heap_at h' r' = heap_at h r'.
Proof using Type.
  clear.
  intros Hi Hc Hnd Hfresh. destruct Hi as [h1 pid ts free h2 Hfit|h].
  - split; [by rewrite fmap_app in *|]. split; [by destruct h1|].
    pose proof (chain_free _ _ _ _ _ _ _ Hc). unfold fits_new_page. rewrite (proj2 (Z.leb_le _ _)) by lia.
    eexists. split; [done|]. pose proof (heap_at_set h1 pid ts free ts free h2) as Hat. split.
    + rewrite Hat by done. simpl. rewrite decide_True by done. rewrite decide_True by lia.
      rewrite Nat2Z.id. by apply lookup_ge_None.
    + intros [p s]. rewrite (heap_at_set h1 pid ts free _ _ h2), Hat by done. simpl.
      destruct (decide (p = pid)) as [->|Hp]; [|rewrite decide_False; [done|congruence]].
      destruct (decide (0 ≤ s)) as [Hs|Hs]; [|rewrite decide_False; [done|intros [= ->]; lia]].
      destruct (decide (s = Z.of_nat (length ts))) as [->|Hne].
      * rewrite decide_True by done. rewrite Nat2Z.id. by rewrite lookup_app_r, Nat.sub_diag by lia.
      * rewrite decide_False by congruence. destruct (decide (s < Z.of_nat (length ts))).
        -- by rewrite lookup_app_l by lia.
        -- rewrite (proj2 (lookup_ge_None ts _)) by lia. apply lookup_ge_None. rewrite length_app. simpl. lia.
  - assert (nid ∉ h.*1) as Hnin.
    { intros Hin. destruct (chain_live _ _ _ _ Hc Hin) as [x Hx]. rewrite Hfresh in Hx; [done|lia]. }
    assert (∀ r', heap_at (h ++ [(nid, appended t)]) r' = if decide (rid_page_id r' = nid)
      then if decide (0 ≤ rid_slot_num r') then (appended t).1 !! Z.to_nat (rid_slot_num r') else None
      else heap_at h r') as Hat.
    { intros r'. unfold heap_at. rewrite list_to_map_app, lookup_union, list_to_map_cons, list_to_map_nil.
      destruct (decide (rid_page_id r' = nid)) as [<-|Hp].
      - rewrite lookup_insert_eq, not_elem_of_list_to_map_1 by done. done.
      - rewrite lookup_insert_ne, lookup_empty by done. by rewrite right_id_L by apply _. }
    split; [rewrite fmap_app; apply NoDup_app; split_and!; [done|set_solver|apply NoDup_singleton]|].
    split; [by destruct h|]. unfold appended_rid, appended in *. destruct (fits_new_page t).
    + exists (mkRID nid 0). split; [done|]. simpl in Hat. split.
      * unfold heap_at. simpl. by rewrite not_elem_of_list_to_map_1.
      * intros [p s]. rewrite Hat. simpl. destruct (decide (p = nid)) as [->|Hp]; [|rewrite decide_False; [done|congruence]].
        assert (heap_at h (mkRID nid s) = None) as -> by (unfold heap_at; simpl; by rewrite not_elem_of_list_to_map_1).
        destruct (decide (mkRID nid s = mkRID nid 0)) as [[= ->]|Hs]; [done|].
        destruct (decide (0 ≤ s)) as [Hs0|]; [|done]. apply lookup_ge_None. simpl.
        assert (s ≠ 0) by congruence. lia.
    + split; [done|]. intros r'. rewrite Hat. destruct (decide (rid_page_id r' = nid)) as [<-|]; [|done].
      assert (heap_at h r' = None) as -> by (unfold heap_at; by rewrite not_elem_of_list_to_map_1). by case_decide.
Qed.

(** C21: insertion into a table heap.  With two frames, a tuple that fits an empty
    page gets a record id that no record had; the heap then holds the tuple there
    and every other record is what it was.  A larger tuple is refused and no record
    changes. *)
Theorem heap_insert m nid first h t fuel :
  2 ≤ io_frames → in_i32 nid = true → nid ≠ INVALID_PAGE_ID → heap_ok m first h →
  Z.of_nat (length (data_ t)) ≤ PAGE_SIZE → (length h ≤ fuel)%nat →
  heap_triple (3 * Z.of_nat (length h) + 9) (idle m nid) (InsertTuple fuel first t) (λ o a', ∃ m' h' nid',
    a' = idle m' nid' ∧ heap_ok m' first h' ∧
    if fits_new_page (data_ t) then ∃ r, o = Some r ∧ heap_at h r = None ∧
      ∀ r', heap_at h' r' = if decide (r' = r) then Some (data_ t) else heap_at h r'
    else o = None ∧ ∀ r', heap_at h' r' = heap_at h r').
Proof.
  intros Hn Hnid Hnid1 (Hc & Hnd & Hne) Hlen Hfuel.
  destruct (insert_loop_rule (data_ t) nid Hn Hnid Hnid1 Hlen h m first fuel Hfuel Hc Hnd Hne) as (o & h' & nid' & m' & Hput & Hm' & Hrun).
  eapply mono_rule; [exact Hrun|lia|]. intros o' a' (-> & -> & Hfresh). destruct (Hm' Hfresh) as [Hc' _].
  exists m', h', nid'. split; [done|].
  destruct (inserted_heap_at _ _ m first _ _ _ _ (put_inserted _ _ _ _ _ _ Hput) Hc Hnd Hfresh) as (Hnd' & Hne' & Hat). by split.
Qed.

End TableHeap.

(** ** Witnesses: a heap of one page, on the store itself *)

Definition demo_io : PageIO bytes (Store bytes) := direct_io blank_page 4.
Definition demo_pages : gmap Z bytes := {[0 := two_tuples 3 5]}.
Definition demo_heap : list (Z * (list bytes * Z)) := [(0, ([byte_tuple 3 1; byte_tuple 5 2], 4064))].
Definition demo_tuple : Tuple := mkTuple RID_default (byte_tuple 9 7) [].

Lemma demo_heap_ok : heap_ok demo_pages 0 demo_heap.
Proof.
  split; [|split; [apply NoDup_singleton|done]]. simpl. split; [done|]. split; [done|].
  exists (two_tuples 3 5), (-1). split; [apply lookup_singleton_eq|]. split; [exact two_tuples_view|done].
Qed.

Lemma demo_start k : io_rel (PageIO := demo_io) k (idle demo_pages 1) (idle demo_pages 1).
Proof.
  split_and!; [done| |].
  - intros p [d Hp]. unfold demo_pages, idle in Hp. simpl in *. apply lookup_singleton_Some in Hp as [<- _]. lia.
  - simpl. intros p Hp. rewrite lookup_empty in Hp. by destruct Hp.
Qed.

Lemma heap_insert_witness :
  ∃ r s', InsertTuple (PIO := demo_io) 1 0 demo_tuple (idle demo_pages 1) = (Ok (Some r), s') ∧
    heap_at demo_heap r = None.
Proof.
  destruct (heap_insert (PIO := demo_io) eq_refl demo_pages 1 0 demo_heap demo_tuple 1) with (k := 0) (s := idle demo_pages 1)
    as (o & s' & a' & H & (m' & h' & nid' & _ & _ & Ho) & _);
    [vm_compute; discriminate|reflexivity|discriminate|exact demo_heap_ok|vm_compute; discriminate|simpl; lia|lia|apply demo_start|].
  change (fits_new_page (data_ demo_tuple)) with true in Ho. destruct Ho as (r & -> & Hr & _).
  exists r, s'. split; assumption.
Defined.

Lemma heap_records_witness :
  ∃ s', GetTuple (PIO := demo_io) (mkRID 0 1) (idle demo_pages 1) = (Ok (mkTuple (mkRID 0 1) (byte_tuple 5 2) []), s').
Proof.
  destruct (heap_records (PIO := demo_io) demo_pages 1 0 demo_heap (mkRID 0 1) (byte_tuple 5 2) 4064 demo_tuple)
    as (H & _ & _);
    [vm_compute; discriminate|exact demo_heap_ok|reflexivity|reflexivity|vm_compute; discriminate|left; vm_compute; discriminate|].
  destruct (H 0 (idle demo_pages 1)) as (x & s' & a' & Hrun & [-> _] & _); [lia|apply demo_start|]. exists s'. exact Hrun.
Defined.

Lemma heap_iteration_witness :
  ∃ s', (it ← Begin (PIO := demo_io) 2 0; scan (PIO := demo_io) 3 2 it) (idle demo_pages 1)
    = (Ok [mkTuple (mkRID 0 0) (byte_tuple 3 1) []; mkTuple (mkRID 0 1) (byte_tuple 5 2) []], s').
Proof.
  destruct (heap_iteration (PIO := demo_io) demo_pages 1 0 demo_heap 3 2) as [H _];
    [vm_compute; discriminate|exact demo_heap_ok|simpl; lia|simpl; lia|].
  destruct (H 0 (idle demo_pages 1)) as (x & s' & a' & Hrun & [-> _] & _); [lia|apply demo_start|]. exists s'. exact Hrun.
Defined.
