(* ===== verification/TableEdit.v ===== *)
(** * Edits of a table heap

    The effect of a sequence of deletions and updates on a heap, as a function of its
    slots: what [Delete] and [Update] leave of a table, and what its live records are
    then. *)

From S2P Require Import Prelude Common Tuple PageStore PageIO PageLogic TablePage TableHeap.

Abbreviation heap := (list (Z * (list bytes * Z))).
Implicit Types (m : gmap Z bytes) (h : heap) (ts : list bytes) (b : bytes).

(** ** The functions *)

(** [b] at the record id [r]; the bytes take new space on the page. *)
Definition edit_at (r : RID) (b : bytes) (h : heap) : heap :=
  (λ p, if p.1 =? rid_page_id r then (p.1, (<[Z.to_nat (rid_slot_num r) := b]> p.2.1, p.2.2 - Z.of_nat (length b))) else p) <$> h.

(** The page of [r] has room for [b]; an empty tuple takes none. *)
Definition has_room (r : RID) (b : bytes) (h : heap) : bool :=
  bool_decide (b = []) || match page_free h r with Some free => Z.of_nat (length b) <=? free | None => false end.

(** [f] gives the new bytes of a record, if it changes; the records of [es] are edited
    in turn.  No result is specified for a page that runs out of room. *)
Fixpoint edits (f : RID * bytes → res (option bytes)) (es : list (RID * bytes)) (h : heap) : res heap :=
  match es with
  | [] => Ok h
  | e :: es =>
      o ← f e;
      match o with
      | None => edits f es h
      | Some b => if has_room e.1 b h then edits f es (edit_at e.1 b h) else UB
      end
  end.

(** The records after the edits: a record that gets no bytes is gone. *)
Definition edited (f : RID * bytes → res (option bytes)) (e : RID * bytes) : option (RID * bytes) :=
  match f e with Ok (Some []) => None | Ok (Some b) => Some (e.1, b) | _ => Some e end.

(** ** Their laws *)

Lemma edit_at_pages r b h : (edit_at r b h).*1 = h.*1.
Proof. unfold edit_at. rewrite <- list_fmap_compose. apply list_fmap_ext. intros i [pid p] _. simpl. by case_match. Qed.

Lemma edit_at_length r b h : length (edit_at r b h) = length h.
Proof. apply length_fmap. Qed.

Lemma edit_at_other r b h : rid_page_id r ∉ h.*1 → edit_at r b h = h.
Proof.
  intros Hr. unfold edit_at. rewrite <- (list_fmap_id h) at 2. apply list_fmap_ext. intros i [pid p] Hi. simpl.
  rewrite (proj2 (Z.eqb_neq _ _)); [done|]. intros ->. apply Hr. apply list_elem_of_fmap. eexists (_, p). split; [done|].
  by eapply list_elem_of_lookup_2.
Qed.

Lemma edit_at_split h1 pid ts free h2 (i : nat) b : NoDup (h1 ++ (pid, (ts, free)) :: h2).*1 →
  edit_at (mkRID pid (Z.of_nat i)) b (h1 ++ (pid, (ts, free)) :: h2) = h1 ++ (pid, (<[i := b]> ts, free - Z.of_nat (length b))) :: h2.
Proof.
  rewrite fmap_app. intros (_ & Hd & [Hn _]%NoDup_cons)%NoDup_app.
  set (r := mkRID pid (Z.of_nat i)). assert (∀ l l', edit_at r b (l ++ l') = edit_at r b l ++ edit_at r b l') as Happ by (intros; apply fmap_app).
  rewrite Happ, (edit_at_other r b h1) by (intros Hin; apply (Hd pid Hin); by left). f_equal.
  change (edit_at r b ((pid, (ts, free)) :: h2)) with
    ((if pid =? pid then (pid, (<[Z.to_nat (Z.of_nat i) := b]> ts, free - Z.of_nat (length b))) else (pid, (ts, free))) :: edit_at r b h2).
  by rewrite Z.eqb_refl, Nat2Z.id, (edit_at_other r b h2).
Qed.

(** Editing the record an iterator stands at. *)
Lemma stands_next h r t es : stands h ((r, t) :: es) → stands h es.
Proof. intros [?|(h1 & pid & ts & free & h2 & i & u & -> & _ & _ & [= -> -> ->])]; [done|]. apply stands_at. Qed.

Lemma stands_edit h r t es b : NoDup h.*1 → stands h ((r, t) :: es) → stands (edit_at r b h) es.
Proof.
  intros Hnd [?|(h1 & pid & ts & free & h2 & i & u & -> & Hi & _ & [= -> -> ->])]; [done|]. rewrite edit_at_split by done.
  assert (drop (S i) (<[i := b]> ts) = drop (S i) ts) as <- by (apply lookup_lt_Some in Hi; rewrite drop_insert_lt by lia; done).
  apply stands_at.
Qed.

Lemma live_edit h r t es pre b : NoDup h.*1 → stands h ((r, t) :: es) → live h = pre ++ (r, t) :: es →
  live (edit_at r b h) = pre ++ (if decide (b = []) then [] else [(r, b)]) ++ es.
Proof.
  intros Hnd [?|(h1 & pid & ts & free & h2 & i & u & -> & Hi & Hne & [= -> -> ->])] Hlive; [done|].
  rewrite edit_at_split by done. pose proof (lookup_lt_Some _ _ _ Hi) as Hlt.
  rewrite (live_page h1 pid _ _ h2 i b) by by apply list_lookup_insert_eq. rewrite take_insert_ge, drop_insert_lt by lia.
  rewrite (live_page h1 pid ts free h2 i u Hi), decide_False in Hlive by done.
  simpl in Hlive. rewrite (app_assoc (live h1)) in Hlive. apply app_inv_tail in Hlive. rewrite <- Hlive. by rewrite <- !app_assoc.
Qed.

Lemma edits_cons f e es h h' : edits f (e :: es) h = Ok h' →
  ∃ o, f e = Ok o ∧ match o with
    | None => edits f es h = Ok h'
    | Some b => has_room e.1 b h = true ∧ edits f es (edit_at e.1 b h) = Ok h'
    end.
Proof.
  simpl. destruct (f e) as [o| | |]; try done. cbn [mbind res_bind]. intros H. exists o. split; [done|].
  destruct o; [|done]. by destruct (has_room _ _ _).
Qed.

Lemma edits_pages f es : ∀ h h', edits f es h = Ok h' → h'.*1 = h.*1.
Proof.
  induction es as [|e es IH]; intros h h' H; [by injection H as <-|].
  apply edits_cons in H as ([b|] & _ & H); [|by apply IH]. destruct H as [_ H]. rewrite (IH _ _ H). apply edit_at_pages.
Qed.

Lemma edits_length f es h h' : edits f es h = Ok h' → length h' = length h.
Proof. intros H%edits_pages. by rewrite <- (length_fmap fst h'), H, length_fmap. Qed.

Lemma edits_live_from f es : ∀ h h' pre, NoDup h.*1 → stands h es → live h = pre ++ es → edits f es h = Ok h' →
  live h' = pre ++ omap (edited f) es.
Proof.
  induction es as [|[r t] es IH]; intros h h' pre Hnd Hst Hlive H.
  { injection H as <-. done. }
  apply edits_cons in H as (o & Ho & H). cbn [omap list_omap]. unfold edited at 1. rewrite Ho. simpl in H.
  destruct o as [b|].
  - destruct H as [_ H]. pose proof (stands_edit h r t es b Hnd Hst) as Hst'. pose proof (live_edit h r t es pre b Hnd Hst Hlive) as Hl'. rewrite (app_assoc pre) in Hl'.
    rewrite (IH _ _ _ ltac:(by rewrite edit_at_pages) Hst' Hl' H), <- app_assoc. f_equal. by destruct b.
  - rewrite (IH h h' (pre ++ [(r, t)])); [by rewrite <- app_assoc|done|by eapply stands_next|by rewrite <- app_assoc|done].
Qed.

(** What the edits make of the table. *)
Lemma edits_live f h h' : NoDup h.*1 → edits f (live h) h = Ok h' → live h' = omap (edited f) (live h).
Proof. intros Hnd H. by rewrite (edits_live_from f (live h) h h' [] Hnd (stands_all h) eq_refl H). Qed.

(** ** Insertions *)

(** The tuples are put in turn; [n] counts those that found room. *)
Fixpoint puts (tuples : list bytes) (n nid : Z) (h : heap) : res (Z * heap * Z) :=
  match tuples with
  | [] => Ok (n, h, nid)
  | t :: tuples =>
      if bool_decide (Z.of_nat (length t) ≤ PAGE_SIZE ∧ 0 ≤ nid ∧ in_i32 nid = true) then
        let '(o, h, nid) := put nid t h in puts tuples (if o then n + 1 else n) nid h
      else UB
  end.

Definition new_record (o : option RID) (t : bytes) : list (RID * bytes) :=
  match o with Some r => if decide (t = []) then [] else [(r, t)] | None => [] end.

Lemma put_live nid t h o h' nid' : put nid t h = (o, h', nid') → live h' ≡ₚ new_record o t ++ live h.
Proof.
  intros H%put_inserted. destruct H as [h1 pid ts free h2 _|h].
  - rewrite !live_app.
    change (live ((pid, (ts, free)) :: h2)) with (live_slots pid 0 ts ++ live h2).
    change (live ((pid, (ts ++ [t], free - Z.of_nat (length t) - 4)) :: h2)) with (live_slots pid 0 (ts ++ [t]) ++ live h2).
    rewrite live_slots_app, live_slots_cons. simpl. rewrite app_nil_r. case_decide; simpl; [by rewrite app_nil_r|]. solve_Permutation.
  - rewrite live_app. change (live [(nid, appended t)]) with (live_slots nid 0 (appended t).1 ++ []). rewrite app_nil_r.
    unfold appended_rid, appended, new_record. destruct (fits_new_page t); simpl; [rewrite live_slots_cons, app_nil_r|by rewrite app_nil_r].
    apply Permutation_app_comm.
Qed.

Lemma put_length nid t h o h' nid' : put nid t h = (o, h', nid') → (length h ≤ length h')%nat.
Proof.
  intros [[Hp _]|[Hp _]]%put_pages; rewrite <- (length_fmap fst h), <- (length_fmap fst h'), Hp, ?length_app; lia.
Qed.

Lemma puts_cons t tuples n nid h r : puts (t :: tuples) n nid h = Ok r →
  Z.of_nat (length t) ≤ PAGE_SIZE ∧ 0 ≤ nid ∧ in_i32 nid = true ∧
  ∃ o h1 nid1, put nid t h = (o, h1, nid1) ∧ puts tuples (if o then n + 1 else n) nid1 h1 = Ok r.
Proof.
  cbn [puts]. case_bool_decide as H; [|done]. destruct H as (? & ? & ?). destruct (put nid t h) as [[o h1] nid1]. intros Hr.
  split_and!; try done. by exists o, h1, nid1.
Qed.

Lemma puts_length tuples : ∀ n nid h n' h' nid', puts tuples n nid h = Ok (n', h', nid') → (length h ≤ length h')%nat.
Proof.
  induction tuples as [|t tuples IH]; intros n nid h n' h' nid' H; [by injection H as <- <- <-|].
  apply puts_cons in H as (_ & _ & _ & o & h1 & nid1 & Hput & H). apply put_length in Hput. apply IH in H. lia.
Qed.

(** The records after the insertions, up to their order: those that were there, and
    each tuple that found room under a record id. *)
Lemma puts_live tuples : ∀ n nid h n' h' nid', puts tuples n nid h = Ok (n', h', nid') →
  ∃ os, length os = length tuples ∧ live h' ≡ₚ concat (zip_with new_record os tuples) ++ live h ∧
    n' = n + Z.of_nat (length (filter is_Some os)).
Proof.
  induction tuples as [|t tuples IH]; intros n nid h n' h' nid' H.
  { injection H as <- <- <-. exists []. split_and!; [done|done|simpl; lia]. }
  apply puts_cons in H as (_ & _ & _ & o & h1 & nid1 & Hput & H). apply IH in H as (os & Hlen & Hl & ->).
  exists (o :: os). split; [simpl; lia|]. split.
  - rewrite Hl, (put_live _ _ _ _ _ _ Hput). simpl. solve_Permutation.
  - rewrite filter_cons. destruct o; case_decide as Hd; simpl; try lia; [by destruct Hd|by destruct Hd].
Qed.

(** ** The methods make these edits *)

Section Methods.
Context {S : Type} `{PIO : !PageIO bytes S} (frames : 1 ≤ io_frames).

Lemma heap_page_free m first h1 pid ts free h2 : heap_ok m first (h1 ++ (pid, (ts, free)) :: h2) → 0 ≤ free.
Proof.
  intros (Hc & Hnd & _). destruct (chain_page m first h1 pid ts free h2 Hc Hnd) as (_ & d & next & _ & Hv & _).
  by destruct (pv_free _ _ _ _ Hv).
Qed.

Lemma DeleteTuple_edits m nid first h r t : heap_ok m first h → heap_at h r = Some t →
  ∃ d', heap_ok (<[rid_page_id r := d']> m) first (edit_at r [] h) ∧
    triple (S := S) io_rel 4 (idle m nid) (DeleteTuple r) (λ _ a', a' = idle (<[rid_page_id r := d']> m) nid).
Proof.
  intros Hok Hr. pose proof Hok as (_ & Hnd & _).
  destruct (heap_at_split h r t Hr) as (h1 & ts & free & h2 & i & -> & Hs & Hi). destruct r as [p s]; simpl in *; subst s.
  rewrite edit_at_split by done. rewrite Z.sub_0_r. by apply (DeleteTuple_step m nid first h1 p ts free h2 i t).
Qed.

Lemma UpdateTuple_edits m nid first h r old t : heap_ok m first h → heap_at h r = Some old → has_room r (data_ t) h = true →
  ∃ d', heap_ok (<[rid_page_id r := d']> m) first (edit_at r (data_ t) h) ∧
    triple (S := S) io_rel 4 (idle m nid) (UpdateTuple r t) (λ ok a', ok = true ∧ a' = idle (<[rid_page_id r := d']> m) nid).
Proof.
  intros Hok Hr Hroom. pose proof Hok as (Hc & Hnd & _).
  destruct (heap_at_split h r old Hr) as (h1 & ts & free & h2 & i & -> & Hs & Hi). destruct r as [p s]; simpl in *; subst s.
  rewrite edit_at_split by done.
  assert (Z.of_nat (length (data_ t)) ≤ free) as Hfit.
  { pose proof (heap_page_free _ _ _ _ _ _ _ Hok). unfold has_room in Hroom. rewrite page_free_split in Hroom by done.
    apply orb_prop in Hroom as [->%bool_decide_eq_true|?]; simpl; lia. }
  destruct (chain_page m first h1 p ts free h2 Hc Hnd) as (Hne & d & next & Hd & Hv & Hset).
  destruct (UpdateTuple_ok d next ts free i old (data_ t) Hv Hi Hfit) as (d' & Hup & Hv').
  exists d'. split; [eapply heap_ok_set; [done| |exact Hv']; by apply Hset|].
  unfold UpdateTuple. page_step pin_rule; [done|done|]. intros o a' (f & -> & ->).
  page_step read_pinned_rule; [done|]. intros ? a' [-> ->]. pure_step Hup. page_step write_pinned_rule; [done|]. intros ? a' ->.
  page_step unpin_pinned_rule; [set_solver|by left|]. intros ? a' [_ ->]. by apply ret_rule; [lia|].
Qed.
End Methods.
