(* ===== verification/Expression.v ===== *)
(** * Expressions

    [src/src/include/onebase/execution/expressions/*.h]: the expression trees of
    the plans, evaluated on one tuple or on the two tuples of a join.  A tuple
    pointer that may be null is an option. *)

From S2P Require Import Prelude Common Value Tuple.

(** The operators.  [Multiply], [Divide], [Modulo], [And] and [Or] of the source are
    [Times], [Div], [Mod], [LAnd] and [LOr] here: the former are operations of
    [Value]. *)
Inductive ComparisonType := Equal | NotEqual | LessThan | LessThanOrEqual | GreaterThan | GreaterThanOrEqual.
Inductive ArithmeticType := Plus | Minus | Times | Div | Mod.
Inductive LogicType := LAnd | LOr.

(** [NullExpression] is the null pointer, which the binder can put under an operator. *)
Inductive AbstractExpression :=
  | NullExpression
  | ColumnValueExpression (tuple_idx col_idx : Z) (ret_type : TypeId)
  | ConstantValueExpression (val : Value)
  | ComparisonExpression (left right : AbstractExpression) (comp_type : ComparisonType)
  | ArithmeticExpression (left right : AbstractExpression) (arith_type : ArithmeticType)
  | LogicExpression (left right : AbstractExpression) (logic_type : LogicType).

#[global] Instance ComparisonType_eq_dec : EqDecision ComparisonType.
Proof. solve_decision. Defined.

(** The type given to the base class; of a null left operand it is [INTEGER]. *)
Fixpoint GetReturnType (e : AbstractExpression) : TypeId :=
  match e with
  | NullExpression => INTEGER
  | ColumnValueExpression _ _ t => t
  | ConstantValueExpression v => type_id_ v
  | ComparisonExpression _ _ _ | LogicExpression _ _ _ => BOOLEAN
  | ArithmeticExpression l _ _ => GetReturnType l
  end.

Definition PerformComparison (t : ComparisonType) (l r : Value) : res Value :=
  match t with
  | Equal => CompareEquals l r
  | NotEqual => CompareNotEquals l r
  | LessThan => CompareLessThan l r
  | LessThanOrEqual => CompareLessThanOrEqual l r
  | GreaterThan => CompareGreaterThan l r
  | GreaterThanOrEqual => CompareGreaterThanOrEqual l r
  end.

Definition PerformComputation (t : ArithmeticType) (l r : Value) : res Value :=
  match t with
  | Plus => Add l r
  | Minus => Subtract l r
  | Times => Multiply l r
  | Div => Divide l r
  | Mod => Modulo l r
  end.

Definition PerformLogic (t : LogicType) (l r : Value) : res Value :=
  match t with LAnd => And l r | LOr => Or l r end.

(** The nodes have two virtual methods that differ only in how a column is read. *)
Fixpoint eval (column : Z → Z → res Value) (e : AbstractExpression) : res Value :=
  match e with
  | NullExpression => UB
  | ColumnValueExpression tuple_idx col_idx _ => column tuple_idx col_idx
  | ConstantValueExpression v => Ok v
  | ComparisonExpression l r t => l ← eval column l; r ← eval column r; PerformComparison t l r
  | ArithmeticExpression l r t => l ← eval column l; r ← eval column r; PerformComputation t l r
  | LogicExpression l r t => l ← eval column l; r ← eval column r; PerformLogic t l r
  end.

(** [Evaluate]; [None] is a null tuple. *)
Definition Evaluate (e : AbstractExpression) (tuple : option Tuple) (schema : Schema) : res Value :=
  eval (λ _ col_idx, match tuple with Some t => GetValueBy t schema col_idx | None => UB end) e.

Definition EvaluateJoin (e : AbstractExpression) (lt : Tuple) (ls : Schema) (rt : Tuple) (rs : Schema) : res Value :=
  eval (λ tuple_idx col_idx, if tuple_idx =? 0 then GetValueBy lt ls col_idx else GetValueBy rt rs col_idx) e.

(** ** Lemmas *)

(** Two ways to read the columns that agree on those an expression uses. *)
Fixpoint columns_of (e : AbstractExpression) : list (Z * Z) :=
  match e with
  | NullExpression => []
  | ColumnValueExpression t c _ => [(t, c)]
  | ConstantValueExpression _ => []
  | ComparisonExpression l r _ | ArithmeticExpression l r _ | LogicExpression l r _ => columns_of l ++ columns_of r
  end.

Lemma eval_agree f g e : (∀ t c, (t, c) ∈ columns_of e → f t c = g t c) → eval f e = eval g e.
Proof.
  induction e as [|t c ty|v|l IHl r IHr ct|l IHl r IHr ct|l IHl r IHr ct]; simpl; intros Hag;
    [done|apply Hag; set_solver|done|rewrite IHl, IHr by set_solver; done..].
Qed.
