(* ===== verification/Catalog.v ===== *)
(** * The catalog

    [src/src/catalog/catalog.cpp] and [catalog.h]: tables, indexes and their
    names, over the heaps in the buffer pool.  The state of the database is the
    pool and the catalog.  The iteration order of an [unordered_map] is not
    specified: it is given by [hash_order], of which nothing is known but that it
    permutes the entries. *)

From S2P Require Import Prelude Common Value Tuple TablePage PageStore PageIO PageLogic TableHeap.

Record TableInfo := mkTableInfo { t_schema_ : Schema; t_name_ : string; table_ : Z; t_oid_ : Z }.

Record IndexInfo := mkIndexInfo {
  key_schema_ : Schema;
  i_name_ : string;
  table_name_ : string;
  i_oid_ : Z;
  key_attrs_ : list Z;
  supports_point_lookup_ : bool;
  int_rid_map_ : gmap Z (list RID)
}.

Definition IndexInfo_new (key_schema : Schema) (name table_name : string) (oid : Z) (key_attrs : list Z) : IndexInfo :=
  mkIndexInfo key_schema name table_name oid key_attrs false ∅.

Definition SupportsPointLookup (i : IndexInfo) : bool := supports_point_lookup_ i.
(** [front()] of an empty vector is undefined. *)
Definition GetLookupAttr (i : IndexInfo) : res Z := match key_attrs_ i with a :: _ => Ok a | [] => UB end.
Definition LookupInteger (i : IndexInfo) (key : Z) : option (list RID) := int_rid_map_ i !! key.

Definition set_rids (m : gmap Z (list RID)) (i : IndexInfo) : IndexInfo :=
  mkIndexInfo (key_schema_ i) (i_name_ i) (table_name_ i) (i_oid_ i) (key_attrs_ i) (supports_point_lookup_ i) m.
Definition set_point_lookup (i : IndexInfo) : IndexInfo :=
  mkIndexInfo (key_schema_ i) (i_name_ i) (table_name_ i) (i_oid_ i) (key_attrs_ i) true (int_rid_map_ i).

Definition InsertEntry (key : Z) (rid : RID) (i : IndexInfo) : IndexInfo :=
  set_rids (<[key := default [] (int_rid_map_ i !! key) ++ [rid]]> (int_rid_map_ i)) i.

Definition RemoveEntry (key : Z) (rid : RID) (i : IndexInfo) : IndexInfo :=
  match int_rid_map_ i !! key with
  | None => i
  | Some rids =>
      let rids := filter (λ r, r ≠ rid) rids in
      set_rids (match rids with [] => delete key (int_rid_map_ i) | _ => <[key := rids]> (int_rid_map_ i) end) i
  end.

Record Catalog := mkCatalog {
  next_table_oid_ : Z;
  next_index_oid_ : Z;
  tables_ : gmap Z TableInfo;
  table_names_ : gmap string Z;
  indexes_ : gmap Z IndexInfo;
  index_names_ : gmap string (gmap string Z)
}.
Definition Catalog_new : Catalog := mkCatalog 1 1 ∅ ∅ ∅ ∅.

(** [at]. *)
Definition map_at {V} (m : gmap Z V) (k : Z) : res V :=
  match m !! k with Some v => Ok v | None => Throw (OutOfRange "unordered_map::at") end.

(** The lookups; [None] is [nullptr]. *)
Definition GetTable (name : string) (c : Catalog) : res (option TableInfo) :=
  match table_names_ c !! name with
  | None => Ok None
  | Some oid => t ← map_at (tables_ c) oid; Ok (Some t)
  end.
Definition GetTableByOid (oid : Z) (c : Catalog) : option TableInfo := tables_ c !! oid.

Definition GetIndex (index_name table_name : string) (c : Catalog) : res (option IndexInfo) :=
  match index_names_ c !! table_name with
  | None => Ok None
  | Some names =>
      match names !! index_name with
      | None => Ok None
      | Some oid => i ← map_at (indexes_ c) oid; Ok (Some i)
      end
  end.
Definition GetIndexByOid (oid : Z) (c : Catalog) : option IndexInfo := indexes_ c !! oid.

Definition DropIndex (index_name table_name : string) (c : Catalog) : bool * Catalog :=
  match index_names_ c !! table_name with
  | None => (false, c)
  | Some names =>
      match names !! index_name with
      | None => (false, c)
      | Some oid =>
          let names' := delete index_name names in
          (true, mkCatalog (next_table_oid_ c) (next_index_oid_ c) (tables_ c) (table_names_ c)
                   (delete oid (indexes_ c))
                   (if decide (names' = ∅) then delete table_name (index_names_ c)
                    else <[table_name := names']> (index_names_ c)))
      end
  end.

(** The order in which the hash maps are walked. *)
Class HashOrder := {
  hash_order {K V} `{Countable K} : gmap K V → list (K * V);
  hash_order_perm {K V} `{Countable K} (m : gmap K V) : hash_order m ≡ₚ map_to_list m
}.

Section Orders.
Context `{!HashOrder}.
Definition GetAllTables (c : Catalog) : list TableInfo := (hash_order (tables_ c)).*2.
Definition GetAllIndexes (c : Catalog) : list IndexInfo := (hash_order (indexes_ c)).*2.

Fixpoint indexes_at (oids : list Z) (c : Catalog) : res (list IndexInfo) :=
  match oids with
  | [] => Ok []
  | oid :: oids => i ← map_at (indexes_ c) oid; l ← indexes_at oids c; Ok (i :: l)
  end.
Definition GetTableIndexes (table_name : string) (c : Catalog) : res (list IndexInfo) :=
  match index_names_ c !! table_name with
  | None => Ok []
  | Some names => indexes_at (hash_order names).*2 c
  end.
End Orders.

(** ** The operations that touch the heaps *)

Section Catalog.
Context {S : Type} `{PIO : !PageIO bytes S}.

Record DB := mkDB { pool : S; cat : Catalog }.
Abbreviation M A := (ST DB A).

Definition on_pool {A} (m : ST S A) : M A := st_zoom pool (λ p d, mkDB p (cat d)) m.
Definition set_cat (c : Catalog) : M unit := st_modify (λ d, mkDB (pool d) c).

Definition CreateTable (table_name : string) (schema : Schema) : M (option TableInfo) :=
  d ← st_get;
  match table_names_ (cat d) !! table_name with
  | Some _ => mret None
  | None =>
      let oid := next_table_oid_ (cat d) in
      let c := cat d in
      set_cat (mkCatalog (u32 (oid + 1)) (next_index_oid_ c) (tables_ c) (table_names_ c) (indexes_ c) (index_names_ c));;
      heap ← on_pool TableHeap_new;
      let info := mkTableInfo schema table_name heap oid in
      d ← st_get;
      let c := cat d in
      set_cat (mkCatalog (next_table_oid_ c) (next_index_oid_ c) (<[oid := info]> (tables_ c))
                 (<[table_name := oid]> (table_names_ c)) (indexes_ c) (index_names_ c));;
      mret (Some info)
  end.

(** The loop that collects the key columns. *)
Fixpoint key_columns (schema : Schema) (attrs : list Z) : res (option (list Column)) :=
  match attrs with
  | [] => Ok (Some [])
  | attr :: attrs =>
      if GetColumnCount schema <=? attr then Ok None
      else
        col ← GetColumn schema attr;
        rest ← key_columns schema attrs;
        Ok (option_map (cons col) rest)
  end.

(** The loop over the heap: [fuel] turns, [pages] for each step of the iterator. *)
Fixpoint index_rows (fuel pages : nat) (schema : Schema) (attr : Z) (it : RID) (info : IndexInfo) : M IndexInfo :=
  match fuel with
  | O => st_fuel
  | Datatypes.S fuel =>
      if iter_eqb it End then mret info
      else
        tuple ← on_pool (Deref it);
        key ← st_lift (v ← GetValueBy tuple schema attr; GetAsInteger v);
        it' ← on_pool (Next pages it);
        index_rows fuel pages schema attr it' (InsertEntry key it info)
  end.

Definition CreateIndex (fuel pages : nat) (index_name table_name : string) (key_attrs : list Z) : M (option IndexInfo) :=
  d ← st_get;
  table ← st_lift (GetTable table_name (cat d));
  match table with
  | None => mret None
  | Some table_info =>
      if bool_decide (index_name = "" ∨ key_attrs = []) then mret None
      else
        existing ← st_lift (GetIndex index_name table_name (cat d));
        match existing with
        | Some _ => mret None
        | None =>
            cols ← st_lift (key_columns (t_schema_ table_info) key_attrs);
            match cols with
            | None => mret None
            | Some cols =>
                let oid := next_index_oid_ (cat d) in
                let c := cat d in
                set_cat (mkCatalog (next_table_oid_ c) (u32 (oid + 1)) (tables_ c) (table_names_ c) (indexes_ c) (index_names_ c));;
                let info := IndexInfo_new (Schema_new cols) index_name table_name oid key_attrs in
                point ← st_lift (match key_attrs with
                  | [attr] => col ← GetColumn (t_schema_ table_info) attr; Ok (bool_decide (col_type col = INTEGER))
                  | _ => Ok false
                  end);
                info ← (if point : bool then
                          it ← on_pool (Begin pages (table_ table_info));
                          index_rows fuel pages (t_schema_ table_info) (default 0 (head key_attrs)) it (set_point_lookup info)
                        else mret info);
                d ← st_get;
                let c := cat d in
                let names := default ∅ (index_names_ c !! table_name) in
                set_cat (mkCatalog (next_table_oid_ c) (next_index_oid_ c) (tables_ c) (table_names_ c)
                           (<[oid := info]> (indexes_ c))
                           (<[table_name := <[index_name := oid]> names]> (index_names_ c)));;
                mret (Some info)
            end
        end
  end.

(** ** Consistency

    What the two directions of the name maps promise each other. *)

Record catalog_ok (c : Catalog) : Prop := {
  co_table oid t : tables_ c !! oid = Some t → t_oid_ t = oid ∧ oid < next_table_oid_ c ∧ table_names_ c !! t_name_ t = Some oid;
  co_name n oid : table_names_ c !! n = Some oid → ∃ t, tables_ c !! oid = Some t ∧ t_name_ t = n;
  co_index oid i : indexes_ c !! oid = Some i → i_oid_ i = oid ∧ oid < next_index_oid_ c ∧
    ∃ names, index_names_ c !! table_name_ i = Some names ∧ names !! i_name_ i = Some oid;
  co_iname t names n oid : index_names_ c !! t = Some names → names !! n = Some oid →
    ∃ i, indexes_ c !! oid = Some i ∧ i_name_ i = n ∧ table_name_ i = t
}.

Lemma on_pool_cat {A} (m : ST S A) d r d' : on_pool m d = (r, d') → cat d' = cat d.
Proof. unfold on_pool, st_zoom. destruct (m (pool d)) as [x p]. by intros [= <- <-]. Qed.

(** The first step of a computation, whatever its outcome. *)
Lemma st_bind_inv {T A B} (m : ST T A) (f : A → ST T B) s r s' :
  (m ≫= f) s = (r, s') → ∃ r1 s1, m s = (r1, s1) ∧ ((∃ a, r1 = Ok a ∧ f a s1 = (r, s')) ∨ s' = s1 ∧ ∀ b, r ≠ Ok b).
Proof.
  unfold mbind, st_bind. destruct (m s) as [[a|e| |] s1]; intros H; eexists _, s1; (split; [done|]); [left; by exists a|right..];
    by injection H as <- <-.
Qed.

Lemma Catalog_new_ok : catalog_ok Catalog_new.
Proof. split; simpl; intros *; rewrite lookup_empty; done. Qed.

Lemma bump_table_oid c : catalog_ok c → 0 ≤ next_table_oid_ c < UINT32_MAX →
  catalog_ok (mkCatalog (u32 (next_table_oid_ c + 1)) (next_index_oid_ c) (tables_ c) (table_names_ c) (indexes_ c) (index_names_ c)).
Proof.
  intros Hc Hb. unfold UINT32_MAX, u32 in *. split; simpl; [|apply Hc..]. intros oid t Ht.
  destruct (co_table _ Hc oid t Ht) as (? & ? & ?). rewrite Z.mod_small by lia. split_and!; [done|lia|done].
Qed.

Lemma bump_index_oid c : catalog_ok c → 0 ≤ next_index_oid_ c < UINT32_MAX →
  catalog_ok (mkCatalog (next_table_oid_ c) (u32 (next_index_oid_ c + 1)) (tables_ c) (table_names_ c) (indexes_ c) (index_names_ c)).
Proof.
  intros Hc Hb. unfold UINT32_MAX, u32 in *. split; simpl; [apply Hc..| |apply Hc]. intros oid i Hi.
  destruct (co_index _ Hc oid i Hi) as (? & ? & ?). rewrite Z.mod_small by lia. split_and!; [done|lia|done].
Qed.

Lemma add_table_ok c oid info :
  catalog_ok c → tables_ c !! oid = None → oid < next_table_oid_ c → t_oid_ info = oid →
  table_names_ c !! t_name_ info = None →
  catalog_ok (mkCatalog (next_table_oid_ c) (next_index_oid_ c) (<[oid := info]> (tables_ c))
                (<[t_name_ info := oid]> (table_names_ c)) (indexes_ c) (index_names_ c)).
Proof.
  intros Hc Hnew Hlt Hoid Hname. split; simpl; [| |apply Hc..].
  - intros o t. rewrite lookup_insert_Some. intros [[<- <-]|[Hne Ht]].
    + split_and!; [done|done|apply lookup_insert_eq].
    + destruct (co_table _ Hc o t Ht) as (? & ? & Hn). split_and!; [done|done|].
      rewrite lookup_insert_ne; [done|]. intros Heq. congruence.
  - intros n o. rewrite lookup_insert_Some. intros [[<- <-]|[Hne Hn]].
    + exists info. by rewrite lookup_insert_eq.
    + destruct (co_name _ Hc n o Hn) as (t & Ht & Htn). exists t. rewrite lookup_insert_ne; [done|]. intros ->. congruence.
Qed.

Lemma add_index_ok c oid info :
  catalog_ok c → indexes_ c !! oid = None → oid < next_index_oid_ c → i_oid_ info = oid →
  (∀ names, index_names_ c !! table_name_ info = Some names → names !! i_name_ info = None) →
  catalog_ok (mkCatalog (next_table_oid_ c) (next_index_oid_ c) (tables_ c) (table_names_ c) (<[oid := info]> (indexes_ c))
    (<[table_name_ info := <[i_name_ info := oid]> (default ∅ (index_names_ c !! table_name_ info))]> (index_names_ c))).
Proof.
  intros Hc Hnew Hlt Hoid Hname. split; simpl; [apply Hc..| |].
  - intros o i. rewrite lookup_insert_Some. intros [[<- <-]|[Hne Hi]].
    + split_and!; [done|done|]. eexists. split; [apply lookup_insert_eq|apply lookup_insert_eq].
    + destruct (co_index _ Hc o i Hi) as (? & ? & names & Hn & Hnn). split_and!; [done|done|].
      destruct (decide (table_name_ info = table_name_ i)) as [He|He].
      * eexists. rewrite He, lookup_insert_eq. split; [done|]. rewrite Hn. simpl. rewrite lookup_insert_ne; [done|].
        intros Hin. rewrite He, Hn in Hname. specialize (Hname names eq_refl). congruence.
      * exists names. by rewrite lookup_insert_ne.
  - intros t names n o. rewrite lookup_insert_Some. intros [[<- <-]|[Hne Ht]].
    + rewrite lookup_insert_Some. intros [[<- <-]|[Hnn Hn]]; [exists info; by rewrite lookup_insert_eq|].
      destruct (index_names_ c !! table_name_ info) as [names|] eqn:E; [|simpl in Hn; by rewrite lookup_empty in Hn]. simpl in Hn.
      destruct (co_iname _ Hc _ _ _ _ E Hn) as (i & Hi & ?). exists i. rewrite lookup_insert_ne; [done|]. intros ->. congruence.
    + intros Hn. destruct (co_iname _ Hc _ _ _ _ Ht Hn) as (i & Hi & ?). exists i. rewrite lookup_insert_ne; [done|]. intros ->. congruence.
Qed.

Lemma DropIndex_ok index_name table_name c : catalog_ok c → catalog_ok (DropIndex index_name table_name c).2.
Proof.
  intros Hc. unfold DropIndex. destruct (index_names_ c !! table_name) as [names|] eqn:Et; [|done].
  destruct (names !! index_name) as [oid|] eqn:En; [|done].
  destruct (co_iname _ Hc _ _ _ _ Et En) as (i0 & Hi0 & Hn0 & Ht0).
  assert (∀ t, (if decide (delete index_name names = ∅) then delete table_name (index_names_ c)
     else <[table_name := delete index_name names]> (index_names_ c)) !! t =
     if decide (t = table_name) then if decide (delete index_name names = ∅) then None else Some (delete index_name names)
     else index_names_ c !! t) as Hl.
  { intros t. destruct (decide (delete index_name names = ∅)), (decide (t = table_name)) as [->|];
      simplify_map_eq; done. }
  split; cbn [snd tables_ table_names_ indexes_ index_names_ next_table_oid_ next_index_oid_]; [apply Hc..| |].
  - intros o i [Hne Hi]%lookup_delete_Some. destruct (co_index _ Hc o i Hi) as (? & ? & nm & Hnm & Hnn).
    split_and!; [done|done|]. rewrite Hl. destruct (decide (table_name_ i = table_name)) as [He|He]; [|by exists nm].
    rewrite He, Et in Hnm. injection Hnm as ->.
    assert (delete index_name nm !! i_name_ i = Some o) as Hd.
    { rewrite lookup_delete_ne; [done|]. intros Heq. congruence. }
    rewrite decide_False; [by eexists|]. intros Hx. by rewrite Hx, lookup_empty in Hd.
  - intros t nm n o. rewrite Hl. destruct (decide (t = table_name)) as [->|].
    + destruct (decide _); [done|]. intros [= <-] [Hnn Hn]%lookup_delete_Some.
      destruct (co_iname _ Hc _ _ _ _ Et Hn) as (i & Hi & Hin & Hit). exists i. rewrite lookup_delete_ne; [done|].
      intros ->. congruence.
    + intros Ht Hn. destruct (co_iname _ Hc _ _ _ _ Ht Hn) as (i & Hi & Hin & Hit). exists i.
      rewrite lookup_delete_ne; [done|]. intros ->. congruence.
Qed.

(** The lookups of a consistent catalog do not throw. *)
Lemma GetTable_ok name c : catalog_ok c →
  GetTable name c = Ok (table_names_ c !! name ≫= λ oid, tables_ c !! oid).
Proof.
  intros Hc. unfold GetTable. destruct (table_names_ c !! name) as [oid|] eqn:E; [|done]. simpl.
  destruct (co_name _ Hc _ _ E) as (t & Ht & _). unfold map_at. by rewrite Ht.
Qed.

Lemma GetIndex_ok index_name table_name c : catalog_ok c →
  GetIndex index_name table_name c =
  Ok (index_names_ c !! table_name ≫= λ names, names !! index_name ≫= λ oid, indexes_ c !! oid).
Proof.
  intros Hc. unfold GetIndex. destruct (index_names_ c !! table_name) as [names|] eqn:E; [|done]. simpl.
  destruct (names !! index_name) as [oid|] eqn:En; [|done]. simpl.
  destruct (co_iname _ Hc _ _ _ _ E En) as (i & Hi & _). unfold map_at. by rewrite Hi.
Qed.

Lemma CreateTable_keeps_ok name schema d :
  catalog_ok (cat d) → 0 ≤ next_table_oid_ (cat d) < UINT32_MAX → catalog_ok (cat (CreateTable name schema d).2).
Proof.
  intros Hc Hb. destruct (CreateTable name schema d) as [r d'] eqn:E. simpl. revert E. unfold CreateTable.
  rewrite (st_bind_ok _ _ _ _ _ (eq_refl : st_get d = (Ok d, d))).
  destruct (table_names_ (cat d) !! name) as [o|] eqn:Hn; [by intros [= <- <-]|].
  set (c1 := mkCatalog (u32 (next_table_oid_ (cat d) + 1)) (next_index_oid_ (cat d)) (tables_ (cat d)) (table_names_ (cat d))
               (indexes_ (cat d)) (index_names_ (cat d))).
  assert (catalog_ok c1) as Hc1 by by apply bump_table_oid.
  rewrite (st_bind_ok _ _ _ _ _ (eq_refl : set_cat c1 d = (Ok tt, mkDB (pool d) c1))). cbn beta zeta.
  intros E. apply st_bind_inv in E as (r1 & d1 & H1 & Hrest). apply on_pool_cat in H1 as Hcat. simpl in Hcat.
  destruct Hrest as [(h & -> & E)|[-> _]]; [|by rewrite Hcat].
  rewrite (st_bind_ok _ _ _ _ _ (eq_refl : st_get d1 = (Ok d1, d1))) in E. injection E as <- <-. simpl. rewrite Hcat.
  apply (add_table_ok c1 (next_table_oid_ (cat d)) (mkTableInfo schema name h (next_table_oid_ (cat d)))); try done.
  - destruct (tables_ c1 !! next_table_oid_ (cat d)) as [t|] eqn:Et; [|done]. simpl in Et.
    destruct (co_table _ Hc _ _ Et) as (_ & ? & _). lia.
  - unfold c1, UINT32_MAX, u32 in *. simpl. rewrite Z.mod_small by lia. lia.
Qed.

(** What the loop over the heap leaves of an index. *)
Definition same_index (i j : IndexInfo) : Prop :=
  i_name_ i = i_name_ j ∧ table_name_ i = table_name_ j ∧ i_oid_ i = i_oid_ j.

Lemma index_rows_keeps pages schema attr fuel : ∀ it info d r d',
  index_rows fuel pages schema attr it info d = (r, d') → cat d' = cat d ∧ ∀ i, r = Ok i → same_index i info.
Proof.
  induction fuel as [|fuel IH]; intros it info d r d'; cbn [index_rows]; [by intros [= <- <-]|].
  destruct (iter_eqb it End). { intros [= <- <-]. split; [done|]. by intros i [= <-]. }
  intros E. apply st_bind_inv in E as (r1 & d1 & H1%on_pool_cat & [(t & -> & E)|[-> Hr]]);
    [|split; [done|by intros i ?%Hr]].
  apply st_bind_inv in E as (r2 & d2 & [= _ <-] & [(key & _ & E)|[-> Hr]]); [|split; [done|by intros i ?%Hr]].
  apply st_bind_inv in E as (r3 & d3 & H3%on_pool_cat & [(it' & -> & E)|[-> Hr]]);
    [|split; [congruence|by intros i ?%Hr]].
  apply IH in E as [Hcat Hi]. split; [congruence|]. intros i Hr. by destruct (Hi i Hr).
Qed.

Lemma CreateIndex_keeps_ok fuel pages index_name table_name key_attrs d :
  catalog_ok (cat d) → 0 ≤ next_index_oid_ (cat d) < UINT32_MAX →
  catalog_ok (cat (CreateIndex fuel pages index_name table_name key_attrs d).2).
Proof.
  intros Hc Hb. destruct (CreateIndex fuel pages index_name table_name key_attrs d) as [r d'] eqn:E. simpl. revert E.
  unfold CreateIndex. rewrite (st_bind_ok _ _ _ _ _ (eq_refl : st_get d = (Ok d, d))), GetTable_ok by done.
  rewrite (st_bind_ok _ _ _ _ _ (eq_refl : st_lift (Ok _) d = _)).
  destruct (table_names_ (cat d) !! table_name ≫= _) as [t|]; [|by intros [= <- <-]].
  case_bool_decide; [by intros [= <- <-]|]. rewrite GetIndex_ok by done.
  rewrite (st_bind_ok _ _ _ _ _ (eq_refl : st_lift (Ok _) d = _)).
  destruct (index_names_ (cat d) !! table_name ≫= _) as [?|] eqn:Hno; [by intros [= <- <-]|]. intros E.
  apply st_bind_inv in E as (r0 & d0 & [= _ <-] & [(cols & _ & E)|[-> _]]); [|done].
  destruct cols as [cols|]; [|by injection E as _ <-]. cbv zeta in E.
  set (oid := next_index_oid_ (cat d)) in *.
  set (c1 := mkCatalog (next_table_oid_ (cat d)) (u32 (oid + 1)) (tables_ (cat d)) (table_names_ (cat d))
               (indexes_ (cat d)) (index_names_ (cat d))) in *.
  assert (catalog_ok c1) as Hc1 by by apply bump_index_oid.
  rewrite (st_bind_ok _ _ _ _ _ (eq_refl : set_cat c1 d = (Ok tt, mkDB (pool d) c1))) in E.
  apply st_bind_inv in E as (r2 & d2 & [= _ <-] & [(point & _ & E)|[-> _]]); [|done].
  apply st_bind_inv in E as (r3 & d3 & H3 & Hrest).
  assert (cat d3 = c1 ∧ ∀ i, r3 = Ok i → i_name_ i = index_name ∧ table_name_ i = table_name ∧ i_oid_ i = oid) as [Hcat3 Hi3].
  { destruct point; [|injection H3 as <- <-; split; [done|by intros i [= <-]]].
    apply st_bind_inv in H3 as (r4 & d4 & H4%on_pool_cat & [(it & -> & H3)|[-> Hr]]); [|split; [done|by intros i ?%Hr]].
    apply index_rows_keeps in H3 as [Hcat Hi]. split; [by rewrite Hcat, H4|]. by intros i Hr; destruct (Hi i Hr). }
  destruct Hrest as [(info & -> & E')|[-> _]]; [|by rewrite Hcat3]. destruct (Hi3 info eq_refl) as (<- & <- & Hoid).
  rewrite (st_bind_ok _ _ _ _ _ (eq_refl : st_get d3 = (Ok d3, d3))) in E'. injection E' as <- <-. simpl. rewrite Hcat3.
  apply (add_index_ok c1 oid info); [done| | |done|].
  - destruct (indexes_ c1 !! oid) as [i|] eqn:Ei; [|done]. simpl in Ei.
    destruct (co_index _ Hc _ _ Ei) as (_ & ? & _). unfold oid in *. lia.
  - unfold c1, UINT32_MAX, u32 in *. simpl. rewrite Z.mod_small by (unfold oid; lia). lia.
  - simpl. intros names Hn. destruct (names !! i_name_ info) as [o|] eqn:Eo; [|done].
    rewrite Hn in Hno. simpl in Hno. rewrite Eo in Hno. simpl in Hno.
    destruct (co_iname _ Hc _ _ _ _ Hn Eo) as (i & Hi & _). congruence.
Qed.

(** C27: the catalog stays consistent.  Whatever the buffer pool answers, and when
    a call throws too, creating a table or an index and dropping an index keep the
    four maps of the catalog in agreement (until the oids run out), so that no
    lookup by name throws: it answers exactly the table or index of that name. *)
Theorem catalog_stays_consistent (d : DB) name schema fuel pages index_name table_name key_attrs :
  catalog_ok (cat d) → 0 ≤ next_table_oid_ (cat d) < UINT32_MAX → 0 ≤ next_index_oid_ (cat d) < UINT32_MAX →
  catalog_ok (cat (CreateTable name schema d).2) ∧
  catalog_ok (cat (CreateIndex fuel pages index_name table_name key_attrs d).2) ∧
  catalog_ok (DropIndex index_name table_name (cat d)).2 ∧
  (∃ o, GetTable name (cat d) = Ok o ∧ ∀ t, o = Some t ↔ t_name_ t = name ∧ tables_ (cat d) !! t_oid_ t = Some t) ∧
  (∃ o, GetIndex index_name table_name (cat d) = Ok o ∧
     ∀ i, o = Some i ↔ i_name_ i = index_name ∧ table_name_ i = table_name ∧ indexes_ (cat d) !! i_oid_ i = Some i).
Proof.
  intros Hc Ht Hi. split; [by apply CreateTable_keeps_ok|]. split; [by apply CreateIndex_keeps_ok|].
  split; [by apply DropIndex_ok|]. split.
  - eexists. split; [by apply GetTable_ok|]. intros t. split.
    + intros (oid & Hn & Hto)%bind_Some. destruct (co_name _ Hc _ _ Hn) as (t' & Ht' & <-).
      assert (t' = t) as -> by congruence. by destruct (co_table _ Hc _ _ Hto) as (-> & _ & _).
    + intros [<- Hto]. destruct (co_table _ Hc _ _ Hto) as (_ & _ & ->). done.
  - eexists. split; [by apply GetIndex_ok|]. intros i. split.
    + intros (names & Hn & (oid & Hnn & Hio)%bind_Some)%bind_Some.
      destruct (co_iname _ Hc _ _ _ _ Hn Hnn) as (i' & Hi' & <- & <-).
      assert (i' = i) as -> by congruence. by destruct (co_index _ Hc _ _ Hio) as (-> & _ & _).
    + intros (<- & <- & Hio). destruct (co_index _ Hc _ _ Hio) as (_ & _ & names & -> & Hnn). simpl. by rewrite Hnn.
Qed.

(** ** The contents of a new index *)

Definition index_of (rows : list (Z * RID)) : gmap Z (list RID) :=
  fold_left (λ m e, <[e.1 := default [] (m !! e.1) ++ [e.2]]> m) rows ∅.

(** The record ids of the rows with a key, in the order of the rows. *)
Definition rids_of (key : Z) (rows : list (Z * RID)) : list RID := (filter (λ e, e.1 = key) rows).*2.

Lemma index_of_lookup rows key :
  index_of rows !! key = match rids_of key rows with [] => None | l => Some l end.
Proof.
  unfold index_of. rewrite <- (rev_involutive rows). generalize (rev rows). clear rows. intros rows.
  induction rows as [|[k r] rows IH]; [apply lookup_empty|].
  simpl rev. rewrite fold_left_app. simpl. unfold rids_of. rewrite filter_app, fmap_app. fold (rids_of key (rev rows)).
  destruct (decide (k = key)) as [->|Hne].
  - rewrite lookup_insert_eq, IH. rewrite filter_cons_True by done. simpl. by destruct (rids_of key (rev rows)).
  - rewrite lookup_insert_ne by done. rewrite filter_cons_False by done. simpl. by rewrite app_nil_r.
Qed.

(** The relation of the database to a ghost store and a catalog. *)
Definition db_rel (k : Z) (g : Store bytes * Catalog) (d : DB) : Prop := io_rel k g.1 (pool d) ∧ cat d = g.2.

Lemma db_weaken k k' g d : k' ≤ k → db_rel k g d → db_rel k' g d.
Proof. intros Hk [H1 H2]. split; [by eapply io_weaken|done]. Qed.

Abbreviation db_triple := (triple (S := DB) db_rel).

Lemma on_pool_rule {A} n a c (m : ST S A) (Q : A → Store bytes → Prop) :
  triple io_rel n a m Q → db_triple n (a, c) (on_pool m) (λ x g, Q x g.1 ∧ g.2 = c).
Proof.
  intros Hm k d Hk [Hr Hc]. destruct (Hm k (pool d) Hk Hr) as (x & s' & a' & H1 & HQ & Hr').
  exists x, (mkDB s' (cat d)), (a', c). split; [|done]. unfold on_pool, st_zoom. by rewrite H1.
Qed.

(** The key of a stored row. *)
Definition row_key (schema : Schema) (attr : Z) (e : RID * bytes) : res Z :=
  v ← GetValueBy (mkTuple e.1 e.2 []) schema attr; GetAsInteger v.

Lemma index_rows_rule m nid first h pages schema attr c es ks :
  1 ≤ io_frames → heap_ok m first h → (length h < pages)%nat → stands h es →
  Forall2 (λ e k, row_key schema attr e = Ok k) es ks → ∀ fuel info, (length es < fuel)%nat →
  db_triple ((3 + 3 * Z.of_nat (length h)) * Z.of_nat (length es)) (idle m nid, c)
    (index_rows fuel pages schema attr (first_of es) info)
    (λ i g, g = (idle m nid, c) ∧
       i = fold_left (λ i e, InsertEntry e.1 e.2 i) (zip ks es.*1) info).
Proof.
  intros Hn Hok Hpages Hst Hks. revert Hst. pose proof Hok as (Hc & Hnd & _).
  induction Hks as [|[r t] key es ks Hkey Hks IH]; intros Hst [|fuel] info Hfuel; try (simpl in Hfuel; lia).
  - simpl. by apply (triple_ret db_rel db_weaken); [lia|].
  - pose proof (stands_deref h r t es Hnd Hst) as Hr. assert (iter_eqb r End = false) as He.
    { destruct (heap_at_split h r t Hr) as (h1 & ts & free & h2 & i & -> & _).
      destruct (chain_page m first h1 _ ts free h2 Hc Hnd) as [Hne _].
      unfold iter_eqb, RID_eqb. simpl. by rewrite (proj2 (Z.eqb_neq _ _) Hne). }
    cbn [index_rows first_of]. rewrite He. cbn [length].
    replace ((3 + 3 * Z.of_nat (length h)) * Z.of_nat (Datatypes.S (length es)))
      with (3 + (3 * Z.of_nat (length h) + (3 + 3 * Z.of_nat (length h)) * Z.of_nat (length es))) by lia.
    eapply (triple_bind db_rel); [lia|by apply on_pool_rule, (GetTuple_rule m nid first h r t)|].
    intros x [a' c'] [[-> Ha] Hc']. simpl in Ha, Hc'. subst a' c'.
    eapply (triple_bind_lift db_rel); [exact Hkey|].
    eapply (triple_bind db_rel); [lia|by apply on_pool_rule, (Next_rule m nid first h r t es)|].
    intros r' [a' c'] [(-> & Hst' & Ha) Hc']. simpl in Ha, Hc'. subst a' c'.
    apply IH; [done|simpl in Hfuel; lia].
Qed.

Lemma fold_InsertEntry rows info :
  let i := fold_left (λ i e, InsertEntry e.1 e.2 i) rows info in
  int_rid_map_ i = fold_left (λ m e, <[e.1 := default [] (m !! e.1) ++ [e.2]]> m) rows (int_rid_map_ info) ∧
  same_index i info ∧ key_attrs_ i = key_attrs_ info ∧ supports_point_lookup_ i = supports_point_lookup_ info.
Proof.
  revert info. induction rows as [|[k r] rows IH]; intros info; [done|]. simpl.
  destruct (IH (InsertEntry k r info)) as (-> & H2 & -> & ->). split; [done|]. by destruct H2.
Qed.

(** What [CreateIndex] leaves of the catalog. *)
Definition with_index (oid : Z) (i : IndexInfo) (c : Catalog) : Catalog :=
  mkCatalog (next_table_oid_ c) (u32 (oid + 1)) (tables_ c) (table_names_ c) (<[oid := i]> (indexes_ c))
    (<[table_name_ i := <[i_name_ i := oid]> (default ∅ (index_names_ c !! table_name_ i))]> (index_names_ c)).

(** A new index on an INTEGER column is complete and exact.  [CreateIndex]
    terminates and registers an index that supports point lookups and gives, for
    every key, the record ids of the rows of the table with that key, in the order
    of the table, and no others. *)
Lemma create_index_complete m nid h c fuel pages index_name t attr col ks :
  1 ≤ io_frames → catalog_ok c → table_names_ c !! t_name_ t = Some (t_oid_ t) → tables_ c !! t_oid_ t = Some t →
  index_name ≠ "" → GetIndex index_name (t_name_ t) c = Ok None →
  0 ≤ attr < GetColumnCount (t_schema_ t) → GetColumn (t_schema_ t) attr = Ok col → col_type col = INTEGER →
  heap_ok m (table_ t) h → (length h < pages)%nat → (length (live h) < fuel)%nat →
  Forall2 (λ e k, row_key (t_schema_ t) attr e = Ok k) (live h) ks →
  db_triple (3 * Z.of_nat (length h) + (3 + 3 * Z.of_nat (length h)) * Z.of_nat (length (live h)))
    (idle m nid, c) (CreateIndex fuel pages index_name (t_name_ t) [attr])
    (λ o g, ∃ i, o = Some i ∧ g = (idle m nid, with_index (next_index_oid_ c) i c) ∧
       i_name_ i = index_name ∧ table_name_ i = t_name_ t ∧ SupportsPointLookup i = true ∧ GetLookupAttr i = Ok attr ∧
       ∀ key, LookupInteger i key = match rids_of key (zip ks (live h).*1) with [] => None | l => Some l end).
Proof.
  intros Hn Hc Hname Htab Hne Hno Hattr Hcol Hint Hok Hpages Hfuel Hks k d Hk [Hr Hcat]. simpl in Hr, Hcat.
  unfold CreateIndex. rewrite (st_bind_ok _ _ _ _ _ (eq_refl : st_get d = (Ok d, d))), GetTable_ok, Hcat by (by rewrite Hcat).
  assert (table_names_ c !! t_name_ t ≫= (λ oid, tables_ c !! oid) = Some t) as -> by by rewrite Hname.
  rewrite (st_bind_ok _ _ _ _ _ (eq_refl : st_lift (Ok _) d = _)).
  rewrite bool_decide_false by naive_solver. rewrite Hno. rewrite (st_bind_ok _ _ _ _ _ (eq_refl : st_lift (Ok _) d = _)).
  assert (key_columns (t_schema_ t) [attr] = Ok (Some [col])) as Hcols.
  { simpl. rewrite (proj2 (Z.leb_gt _ _)) by lia. by rewrite Hcol. }
  rewrite Hcols. rewrite (st_bind_ok _ _ _ _ _ (eq_refl : st_lift (Ok _) d = _)). cbv zeta beta iota.
  rewrite Hcol. cbn [mbind res_bind]. rewrite bool_decide_true by done.
  set (oid := next_index_oid_ c). set (c1 := mkCatalog _ (u32 (oid + 1)) _ _ _ _).
  rewrite (st_bind_ok _ _ _ _ _ (eq_refl : set_cat c1 d = (Ok tt, mkDB (pool d) c1))).
  rewrite (st_bind_ok _ _ _ _ _ (eq_refl : st_lift (Ok true) (mkDB (pool d) c1) = _)). cbn [default head].
  set (info0 := set_point_lookup (IndexInfo_new (Schema_new [col]) index_name (t_name_ t) oid [attr])).
  assert (db_triple (3 * Z.of_nat (length h) + (3 + 3 * Z.of_nat (length h)) * Z.of_nat (length (live h))) (idle m nid, c1)
    (it ← on_pool (Begin pages (table_ t)); index_rows fuel pages (t_schema_ t) attr it info0)
    (λ i g, g = (idle m nid, c1) ∧ i = fold_left (λ i e, InsertEntry e.1 e.2 i) (zip ks (live h).*1) info0)) as Hrun.
  { eapply (triple_bind db_rel); [lia|by apply on_pool_rule, (Begin_rule m nid (table_ t) h)|].
    intros it [a' c'] [[-> Ha] Hc']. simpl in Ha, Hc'. subst a' c'.
    apply (index_rows_rule m nid (table_ t) h); try done. apply stands_all. }
  destruct (Hrun k (mkDB (pool d) c1) Hk) as (i & d' & g' & H1 & [-> Hi] & [Hr' Hcat']); [by split|].
  rewrite (st_bind_ok _ _ _ _ _ H1), (st_bind_ok _ _ _ _ _ (eq_refl : st_get d' = (Ok d', d'))).
  destruct (fold_InsertEntry (zip ks (live h).*1) info0) as (Hmap & (Hin & Hit & Hio) & Hka & Hsp).
  rewrite <- Hi in *. simpl in Hcat'. eexists _, _, _. split; [reflexivity|]. split.
  - exists i. split; [done|]. split; [reflexivity|]. split; [done|]. split; [done|]. split; [done|].
    split; [by unfold GetLookupAttr; rewrite Hka|]. intros key. unfold LookupInteger. rewrite Hmap. apply index_of_lookup.
  - split; simpl; [done|]. rewrite Hcat'. unfold with_index. by rewrite Hin, Hit.
Qed.

End Catalog.
Arguments DB : clear implicits.

(** ** Witnesses: a table of one INTEGER column and three rows *)

Definition int_row (z : Z) : bytes := le_encode 4 z.
Definition int_page : bytes :=
  made (d ← Init (-1) blank_page; '(_, d) ← TablePage.InsertTuple (int_row 7) d;
        '(_, d) ← TablePage.InsertTuple (int_row 9) d; '(_, d) ← TablePage.InsertTuple (int_row 7) d; Ok d).
Definition int_heap : list (Z * (list bytes * Z)) := [(0, ([int_row 7; int_row 9; int_row 7], 4056))].
Definition int_pages : gmap Z bytes := {[0 := int_page]}.
Definition int_schema : Schema := Schema_new (make_columns [("a", INTEGER, 0)]).
Definition int_table : TableInfo := mkTableInfo int_schema "t" 0 1.
Definition int_catalog : Catalog := mkCatalog 2 1 {[1 := int_table]} {["t" := 1]} ∅ ∅.

Lemma int_page_view : page_view int_page (-1) [int_row 7; int_row 9; int_row 7] 4056.
Proof.
  destruct (Init_ok (-1) blank_page) as (d0 & H0 & V0); [reflexivity|].
  destruct (InsertTuple_ok _ _ _ _ V0 (int_row 7)) as [[_ ?]|(d1 & H1 & _ & V1)]; [vm_compute; discriminate|done|].
  destruct (InsertTuple_ok _ _ _ _ V1 (int_row 9)) as [[_ ?]|(d2 & H2 & _ & V2)]; [vm_compute; discriminate|done|].
  destruct (InsertTuple_ok _ _ _ _ V2 (int_row 7)) as [[_ ?]|(d3 & H3 & _ & V3)]; [vm_compute; discriminate|done|].
  unfold int_page. rewrite (res_bind_ok _ _ _ H0), (res_bind_ok _ _ _ H1). cbn beta iota.
  rewrite (res_bind_ok _ _ _ H2). cbn beta iota. rewrite (res_bind_ok _ _ _ H3). exact V3.
Qed.

Lemma int_heap_ok : heap_ok int_pages 0 int_heap.
Proof.
  split; [|split; [apply NoDup_singleton|done]]. simpl. split; [done|]. split; [done|].
  exists int_page, (-1). split; [apply lookup_singleton_eq|]. split; [exact int_page_view|done].
Qed.

Lemma int_catalog_ok : catalog_ok int_catalog.
Proof.
  split; simpl.
  - intros oid t [<- <-]%lookup_singleton_Some. split_and!; [done|simpl; lia|reflexivity].
  - intros n oid [<- <-]%lookup_singleton_Some. exists int_table. by rewrite lookup_singleton_eq.
  - intros *. by rewrite lookup_empty.
  - intros *. by rewrite lookup_empty.
Qed.

Lemma int_start k : io_rel (PageIO := demo_io) k (idle int_pages 1) (idle int_pages 1).
Proof.
  split_and!; [done| |].
  - intros p [d Hp]. unfold int_pages, idle in Hp. simpl in *. apply lookup_singleton_Some in Hp as [<- _]. lia.
  - simpl. intros p Hp. rewrite lookup_empty in Hp. by destruct Hp.
Qed.

Lemma create_index_complete_witness :
  ∃ i s', CreateIndex (PIO := demo_io) 4 2 "i" "t" [0] (mkDB (idle int_pages 1) int_catalog) = (Ok (Some i), s') ∧
    LookupInteger i 7 = Some [mkRID 0 0; mkRID 0 2].
Proof.
  destruct (create_index_complete (PIO := demo_io) int_pages 1 int_heap int_catalog 4 2 "i" int_table 0
              (SetOffset 0 (Column_new "a" INTEGER 0)) [7; 9; 7]) with (k := 0) (s := mkDB (idle int_pages 1) int_catalog)
    as (o & s' & g & H & (i & -> & _ & _ & _ & _ & _ & Hl) & _).
  - vm_compute. discriminate.
  - exact int_catalog_ok.
  - reflexivity.
  - reflexivity.
  - discriminate.
  - reflexivity.
  - split; [lia|vm_compute; reflexivity].
  - reflexivity.
  - reflexivity.
  - exact int_heap_ok.
  - simpl. lia.
  - simpl. lia.
  - repeat constructor.
  - lia.
  - split; [apply int_start|reflexivity].
  - exists i, s'. split; [exact H|]. rewrite Hl. reflexivity.
Defined.

Lemma catalog_stays_consistent_witness :
  catalog_ok (cat (CreateTable (PIO := demo_io) "u" int_schema (mkDB (idle int_pages 1) int_catalog)).2).
Proof.
  apply (catalog_stays_consistent (PIO := demo_io) (mkDB (idle int_pages 1) int_catalog) "u" int_schema 4 2 "i" "t" [0]);
    [exact int_catalog_ok|split; [vm_compute; discriminate|vm_compute; reflexivity]..].
Defined.
