(* ===== verification/Executor.v ===== *)
(** * The executor interface and the table scans

    [src/src/include/onebase/execution/executors/abstract_executor.h], the
    sequential scan and the index scan.  An executor is a state type with [Init],
    [Next] and [GetOutputSchema]; [Next] gives the tuple and, when the code writes
    it, the record id, or nothing when it returns false.  All callers pass non-null
    pointers.  [fuel] bounds the turns of each loop and [pages] those of a step of
    a heap iterator. *)

From S2P Require Import Prelude Common Value Tuple Expression PageStore PageIO PageLogic TableHeap Catalog.

(** A row as [Next] writes it. *)
Definition Row : Type := Tuple * option RID.

(** ** Loops in the error monad *)

(** Keep what [f] keeps. *)
Fixpoint selectM {A B} (f : A → res (option B)) (l : list A) : res (list B) :=
  match l with
  | [] => Ok []
  | x :: l => o ← f x; rest ← selectM f l; Ok (match o with Some y => y :: rest | None => rest end)
  end.
Fixpoint mapR {A B} (f : A → res B) (l : list A) : res (list B) :=
  match l with
  | [] => Ok []
  | x :: l => y ← f x; rest ← mapR f l; Ok (y :: rest)
  end.

Lemma mapR_Forall2 {A B} (f : A → res B) l ys : mapR f l = Ok ys ↔ Forall2 (λ x y, f x = Ok y) l ys.
Proof.
  split.
  - revert ys. induction l as [|x l IH]; intros ys H; simpl in H; res_inv H; simplify_eq; constructor; [done|]. by apply IH.
  - induction 1 as [|x y l ys Hx Hl IH]; [done|]. simpl. by rewrite Hx, IH.
Qed.

Lemma selectM_cons {A B} (f : A → res (option B)) x l ys :
  selectM f (x :: l) = Ok ys →
  ∃ o rest, f x = Ok o ∧ selectM f l = Ok rest ∧ ys = match o with Some y => y :: rest | None => rest end.
Proof. simpl. intros H. res_inv H; eexists _, _; done. Qed.

(** The columns of a tuple, as every executor copies them. *)
Definition row_values (schema : Schema) (t : Tuple) : res (list Value) :=
  mapR (λ i, GetValueBy t schema (Z.of_nat i)) (seq 0 (Z.to_nat (GetColumnCount schema))).

(** [if (predicate != nullptr) ... GetAsBoolean()]. *)
Definition predicate_holds (predicate : option AbstractExpression) (t : Tuple) (schema : Schema) : res bool :=
  match predicate with
  | None => Ok true
  | Some p => v ← Evaluate p (Some t) schema; GetAsBoolean v
  end.

Section Executor.
Context {S : Type} `{PIO : !PageIO bytes S}.
Abbreviation M A := (ST (DB S) A).
Abbreviation ghost := (Store bytes * Catalog)%type.

Class AbstractExecutor (E : Type) := {
  Init : E → M E;
  Next : E → M (option Row * E);
  GetOutputSchema : E → Schema
}.

Definition on_heap {A} (m : ST S A) : M A := on_pool m.
Definition get_catalog : M Catalog := st_gets cat.

(** ** What it means to produce rows *)

(** [c] gives [v] and leaves the database as [g']. *)
Definition reaches {A} (g : ghost) (c : M A) (v : A) (g' : ghost) : Prop :=
  ∃ n, 0 ≤ n ∧ triple db_rel n g c (λ x g1, x = v ∧ g1 = g').

(** [c] gives [v] and leaves the database as it is. *)
Definition computes {A} (g : ghost) (c : M A) (v : A) : Prop := reaches g c v g.

Lemma reaches_ret {A} g (x : A) : reaches g (mret x) x g.
Proof. exists 0. split; [done|]. by apply (triple_ret db_rel db_weaken). Qed.
Lemma reaches_bind {A B} g g1 g2 (c : M A) (f : A → M B) x y : reaches g c x g1 → reaches g1 (f x) y g2 → reaches g (c ≫= f) y g2.
Proof.
  intros (n1 & H1 & Hc) (n2 & H2 & Hf). exists (n1 + n2). split; [lia|].
  eapply (triple_bind db_rel); [done|exact Hc|]. by intros z g' [-> ->].
Qed.
Lemma reaches_heap {A} n a a' c (m : ST S A) v :
  0 ≤ n → triple io_rel n a m (λ x a1, x = v ∧ a1 = a') → reaches (a, c) (on_heap m) v (a', c).
Proof.
  intros Hn Hm. exists n. split; [done|]. eapply (triple_mono db_rel db_weaken); [by apply on_pool_rule|done|].
  intros x [a1 c1] [[-> Ha] Hc]. simpl in Ha, Hc. by subst.
Qed.

Lemma computes_ret {A} g (x : A) : computes g (mret x) x.
Proof. apply reaches_ret. Qed.
Lemma computes_bind {A B} g (c : M A) (f : A → M B) x y : computes g c x → computes g (f x) y → computes g (c ≫= f) y.
Proof. apply reaches_bind. Qed.
Lemma computes_lift {A} g (r : res A) x : r = Ok x → computes g (st_lift r) x.
Proof. intros ->. apply computes_ret. Qed.
Lemma computes_heap {A} n a c (m : ST S A) v :
  0 ≤ n → triple io_rel n a m (λ x a', x = v ∧ a' = a) → computes (a, c) (on_heap m) v.
Proof. apply reaches_heap. Qed.
Lemma computes_catalog a c : computes (a, c) get_catalog c.
Proof.
  exists 0. split; [done|]. intros k d Hk [Hr Hc]. eexists _, d, (a, c). split; [reflexivity|].
  rewrite Z.add_0_r in Hr. by split.
Qed.

(** [rows] are what the calls of [Next] give from the state [e] on, through states
    that satisfy [I]. *)
Fixpoint yields {E} `{!AbstractExecutor E} (g : ghost) (I : E → Prop) (rows : list Row) (e : E) : Prop :=
  match rows with
  | [] => ∃ e', computes g (Next e) (None, e') ∧ I e'
  | row :: rows => ∃ e', computes g (Next e) (Some row, e') ∧ I e' ∧ yields g I rows e'
  end.

(** [e], and every state it gets into, produces [rows] after [Init]. *)
Definition produces {E} `{!AbstractExecutor E} (g : ghost) (e : E) (rows : list Row) : Prop :=
  ∃ I : E → Prop, I e ∧ ∀ e1, I e1 → GetOutputSchema e1 = GetOutputSchema e ∧
    ∃ e2, computes g (Init e1) e2 ∧ I e2 ∧ yields g I rows e2.

(** ** Executors that store their results ([results_], [cursor_]) *)

Definition next_result (rows : list Row) (cursor : nat) : option Row := rows !! cursor.

(** ** Sequential scan ([seq_scan_executor.cpp]) *)

Context (fuel pages : nat).

Record SeqScanExecutor := mkSeqScan {
  ss_schema : Schema;
  ss_table_oid : Z;
  ss_predicate : option AbstractExpression;
  ss_table_info : option TableInfo;
  ss_iter : RID
}.

Definition SeqScan_Init (e : SeqScanExecutor) : M SeqScanExecutor :=
  c ← get_catalog;
  match GetTableByOid (ss_table_oid e) c with
  | None => st_ub
  | Some t =>
      it ← on_heap (Begin pages (table_ t));
      mret (mkSeqScan (ss_schema e) (ss_table_oid e) (ss_predicate e) (Some t) it)
  end.

Fixpoint seq_scan_loop (n : nat) (t : TableInfo) (predicate : option AbstractExpression) (it : RID) : M (option Row * RID) :=
  match n with
  | O => st_fuel
  | Datatypes.S n =>
      if iter_eqb it End then mret (None, it)
      else
        cur ← on_heap (Deref it);
        it ← on_heap (TableHeap.Next pages it);
        keep ← st_lift (predicate_holds predicate cur (t_schema_ t));
        if keep : bool then
          values ← st_lift (row_values (t_schema_ t) cur);
          tuple ← st_lift (Tuple_new values);
          mret (Some (tuple, Some (rid_ cur)), it)
        else seq_scan_loop n t predicate it
  end.

Definition SeqScan_Next (e : SeqScanExecutor) : M (option Row * SeqScanExecutor) :=
  match ss_table_info e with
  | None => st_ub
  | Some t =>
      '(row, it) ← seq_scan_loop fuel t (ss_predicate e) (ss_iter e);
      mret (row, mkSeqScan (ss_schema e) (ss_table_oid e) (ss_predicate e) (Some t) it)
  end.

#[global] Instance seq_scan_executor : AbstractExecutor SeqScanExecutor := {
  Init := SeqScan_Init;
  Next := SeqScan_Next;
  GetOutputSchema := ss_schema
}.

(** The rows of a scan: what the query asks for. *)
Definition scan_row (schema : Schema) (predicate : option AbstractExpression) (e : RID * bytes) : res (option Row) :=
  let cur := mkTuple e.1 e.2 [] in
  keep ← predicate_holds predicate cur schema;
  if keep : bool then values ← row_values schema cur; t ← Tuple_new values; Ok (Some (t, Some e.1)) else Ok None.

Definition scan_rows (schema : Schema) (predicate : option AbstractExpression) (es : list (RID * bytes)) : res (list Row) :=
  selectM (scan_row schema predicate) es.

(** ** Index scan ([index_scan_executor.cpp]) *)

Record IndexScanExecutor := mkIndexScan {
  is_schema : Schema;
  is_table_oid : Z;
  is_index_oid : Z;
  is_lookup_key : AbstractExpression;
  is_predicate : option AbstractExpression;
  is_table_info : option TableInfo;
  is_index_info : option IndexInfo;
  is_matching_rids : list RID;
  is_cursor : nat
}.

(** The rids that match the lookup key. *)
Definition matching_rids (table : option TableInfo) (index : option IndexInfo) (lookup_key : AbstractExpression) : res (list RID) :=
  match table, index with
  | Some _, Some i =>
      if SupportsPointLookup i then
        key ← Evaluate lookup_key None (mkSchema [] 0);
        if is_null_ key || negb (bool_decide (type_id_ key = INTEGER)) then Ok []
        else k ← GetAsInteger key; Ok (default [] (LookupInteger i k))
      else Ok []
  | _, _ => Ok []
  end.

Definition IndexScan_Init (e : IndexScanExecutor) : M IndexScanExecutor :=
  c ← get_catalog;
  let t := GetTableByOid (is_table_oid e) c in
  let i := GetIndexByOid (is_index_oid e) c in
  rids ← st_lift (matching_rids t i (is_lookup_key e));
  mret (mkIndexScan (is_schema e) (is_table_oid e) (is_index_oid e) (is_lookup_key e) (is_predicate e) t i rids 0).

Fixpoint index_scan_loop (t : TableInfo) (predicate : option AbstractExpression) (rids : list RID) (cursor : nat)
    : M (option Row * nat) :=
  match rids with
  | [] => mret (None, cursor)
  | rid :: rids =>
      cur ← on_heap (GetTuple rid);
      keep ← st_lift (predicate_holds predicate cur (t_schema_ t));
      if keep : bool then
        values ← st_lift (row_values (t_schema_ t) cur);
        tuple ← st_lift (Tuple_new values);
        mret (Some (tuple, Some rid), Datatypes.S cursor)
      else index_scan_loop t predicate rids (Datatypes.S cursor)
  end.

Definition set_cursor (n : nat) (e : IndexScanExecutor) : IndexScanExecutor :=
  mkIndexScan (is_schema e) (is_table_oid e) (is_index_oid e) (is_lookup_key e) (is_predicate e)
    (is_table_info e) (is_index_info e) (is_matching_rids e) n.

(** A null [table_info_] is dereferenced only when there is a rid to fetch, and
    then it is not null. *)
Definition IndexScan_Next (e : IndexScanExecutor) : M (option Row * IndexScanExecutor) :=
  match is_table_info e with
  | None => match drop (is_cursor e) (is_matching_rids e) with [] => mret (None, e) | _ => st_ub end
  | Some t =>
      '(row, n) ← index_scan_loop t (is_predicate e) (drop (is_cursor e) (is_matching_rids e)) (is_cursor e);
      mret (row, set_cursor n e)
  end.

#[global] Instance index_scan_executor : AbstractExecutor IndexScanExecutor := {
  Init := IndexScan_Init;
  Next := IndexScan_Next;
  GetOutputSchema := is_schema
}.

(** ** The scans produce the rows they should *)

Section Scans.
Context (m : gmap Z bytes) (nid : Z) (c : Catalog) (t : TableInfo) (h : list (Z * (list bytes * Z))).
Context (frames : 1 ≤ io_frames) (Hok : heap_ok m (table_ t) h).
Context (Hpages : (length h < pages)%nat).
Let g : ghost := (idle m nid, c).

Lemma deref_computes r b : heap_at h r = Some b → computes g (on_heap (GetTuple r)) (mkTuple r b []).
Proof. intros Hr. eapply computes_heap; [|by apply (GetTuple_rule m nid (table_ t) h)]. lia. Qed.

Lemma next_computes r b es : stands h ((r, b) :: es) →
  computes g (on_heap (TableHeap.Next pages r)) (first_of es) ∧ stands h es.
Proof.
  intros Hst. split.
  - eapply computes_heap; [|eapply (triple_mono io_rel io_weaken); [by apply (Next_rule m nid (table_ t) h r b es)|reflexivity|]].
    + lia.
    + by intros x a' (-> & _ & ->).
  - destruct Hst as [?|(h1 & pid & ts & free & h2 & i & u & -> & _ & _ & [= -> -> ->])]; [done|]. apply stands_at.
Qed.

Lemma stands_not_end r b es : stands h ((r, b) :: es) → iter_eqb r End = false.
Proof.
  pose proof Hok as (Hc & Hnd & _). intros Hst%(stands_deref h r b es Hnd).
  destruct (heap_at_split h r b Hst) as (h1 & ts & free & h2 & i & -> & _).
  destruct (chain_page m _ h1 _ ts free h2 Hc Hnd) as [Hne _].
  unfold iter_eqb, RID_eqb. simpl. by rewrite (proj2 (Z.eqb_neq _ _) Hne).
Qed.

(** The scan skips the entries before the first one it keeps. *)
Lemma seq_scan_loop_ok predicate es : ∀ rows n, stands h es → (length es < n)%nat →
  scan_rows (t_schema_ t) predicate es = Ok rows →
  match rows with
  | [] => computes g (seq_scan_loop n t predicate (first_of es)) (None, End)
  | row :: rest => ∃ skipped e es', es = skipped ++ e :: es' ∧ scan_rows (t_schema_ t) predicate skipped = Ok [] ∧
      scan_row (t_schema_ t) predicate e = Ok (Some row) ∧ stands h (e :: es') ∧ stands h es' ∧
      scan_rows (t_schema_ t) predicate es' = Ok rest ∧
      computes g (seq_scan_loop n t predicate (first_of es)) (Some row, first_of es')
  end.
Proof.
  pose proof Hok as (_ & Hnd & _).
  induction es as [|[r b] es IH]; intros rows [|n] Hst Hn Hrows; try (simpl in Hn; lia).
  { injection Hrows as <-. apply computes_ret. }
  pose proof (stands_not_end r b es Hst) as He. pose proof (stands_deref h r b es Hnd Hst) as Hr.
  destruct (next_computes r b es Hst) as [Hnext Hst']. cbn [seq_scan_loop first_of length] in *. rewrite He.
  apply selectM_cons in Hrows as (o & rest & Ho & Hrest & ->). pose proof Ho as Hrow. unfold scan_row in Ho. simpl in Ho.
  destruct (predicate_holds predicate (mkTuple r b []) (t_schema_ t)) as [keep| | |] eqn:Hk; simplify_eq/=.
  destruct keep.
  - res_inv Ho. exists [], (r, b), es. split_and!; try done.
    eapply computes_bind; [by apply deref_computes|]. eapply computes_bind; [exact Hnext|].
    eapply computes_bind; [by apply computes_lift|]. cbn beta iota.
    eapply computes_bind; [by apply computes_lift|]. eapply computes_bind; [by apply computes_lift|]. apply computes_ret.
  - injection Ho as <-. specialize (IH rest n Hst' ltac:(lia) Hrest).
    assert (∀ v, computes g (seq_scan_loop n t predicate (first_of es)) v →
      computes g (cur ← on_heap (Deref r); it ← on_heap (TableHeap.Next pages r);
                  keep ← st_lift (predicate_holds predicate cur (t_schema_ t));
                  if keep : bool then values ← st_lift (row_values (t_schema_ t) cur); tuple ← st_lift (Tuple_new values);
                    mret (Some (tuple, Some (rid_ cur)), it)
                  else seq_scan_loop n t predicate it) v) as Hstep.
    { intros v Hv. eapply computes_bind; [by apply deref_computes|]. eapply computes_bind; [exact Hnext|].
      eapply computes_bind; [by apply computes_lift|]. exact Hv. }
    destruct rest as [|row rest]; [by apply Hstep|]. destruct IH as (skipped & e & es' & -> & Hsk & ? & ? & ? & ? & ?).
    exists ((r, b) :: skipped), e, es'. split_and!; try done; [|by apply Hstep].
    unfold scan_rows in *. cbn [selectM]. by rewrite Hrow, Hsk.
Qed.

Lemma seq_scan_init schema oid predicate info0 iter0 : tables_ c !! oid = Some t →
  computes g (SeqScan_Init (mkSeqScan schema oid predicate info0 iter0)) (mkSeqScan schema oid predicate (Some t) (first_of (live h))).
Proof.
  intros Ht. unfold SeqScan_Init. eapply computes_bind; [apply computes_catalog|].
  simpl. unfold GetTableByOid. rewrite Ht. eapply computes_bind; [|apply computes_ret].
  eapply computes_heap; [|eapply (triple_mono io_rel io_weaken);
    [by apply (Begin_rule m nid (table_ t) h)|reflexivity|by intros x a' [-> ->]]]. lia.
Qed.

Lemma seq_scan_produces schema oid predicate rows iter0 info0 :
  tables_ c !! oid = Some t → (length (live h) < fuel)%nat →
  scan_rows (t_schema_ t) predicate (live h) = Ok rows →
  produces g (mkSeqScan schema oid predicate info0 iter0) rows.
Proof.
  intros Ht Hfuel Hrows.
  exists (λ e, ss_schema e = schema ∧ ss_table_oid e = oid ∧ ss_predicate e = predicate). split; [done|].
  intros [s o p i it] (<- & <- & <-). split; [done|]. simpl in *.
  exists (mkSeqScan s o p (Some t) (first_of (live h))). split; [|split; [done|]].
  - by apply seq_scan_init.
  - assert (∀ rows es, stands h es → (length es < fuel)%nat → scan_rows (t_schema_ t) p es = Ok rows →
      yields g (λ e, ss_schema e = s ∧ ss_table_oid e = o ∧ ss_predicate e = p) rows
        (mkSeqScan s o p (Some t) (first_of es))) as Hy; [|by apply Hy; [apply stands_all| |]].
    clear -Hok Hpages frames. induction rows as [|row rows IH]; intros es Hst Hn Hsel;
      pose proof (seq_scan_loop_ok p es _ fuel Hst Hn Hsel) as Hl; cbn [yields].
    + exists (mkSeqScan s o p (Some t) End). split; [|done]. simpl. unfold SeqScan_Next. simpl. eapply computes_bind; [exact Hl|]. apply computes_ret.
    + destruct Hl as (skipped & e & es' & -> & _ & _ & _ & Hst' & Hsel' & Hl).
      rewrite length_app in Hn. simpl in Hn. exists (mkSeqScan s o p (Some t) (first_of es')). split.
      { simpl. unfold SeqScan_Next. simpl. eapply computes_bind; [exact Hl|]. apply computes_ret. }
      split; [done|]. apply IH; [done|lia|done].
Qed.

Lemma index_scan_loop_ok predicate es : ∀ rows cursor,
  Forall (λ e, heap_at h e.1 = Some e.2) es → scan_rows (t_schema_ t) predicate es = Ok rows →
  match rows with
  | [] => computes g (index_scan_loop t predicate es.*1 cursor) (None, (cursor + length es)%nat)
  | row :: rest => ∃ k, (0 < k)%nat ∧ scan_rows (t_schema_ t) predicate (drop k es) = Ok rest ∧
      computes g (index_scan_loop t predicate es.*1 cursor) (Some row, (cursor + k)%nat)
  end.
Proof.
  induction es as [|[r b] es IH]; intros rows cursor Hes Hrows.
  { injection Hrows as <-. simpl. rewrite Nat.add_0_r. apply computes_ret. }
  apply Forall_cons in Hes as [Hr Hes]. simpl in Hr. cbn [index_scan_loop fmap list_fmap fst].
  apply selectM_cons in Hrows as (o & rest & Ho & Hrest & ->). unfold scan_row in Ho. simpl in Ho.
  destruct (predicate_holds predicate (mkTuple r b []) (t_schema_ t)) as [keep| | |] eqn:Hk; simplify_eq/=.
  destruct keep.
  - res_inv Ho. exists 1%nat. split; [lia|]. split; [exact Hrest|].
    eapply computes_bind; [by apply deref_computes|]. eapply computes_bind; [by apply computes_lift|]. cbn beta iota.
    eapply computes_bind; [by apply computes_lift|]. eapply computes_bind; [by apply computes_lift|].
    replace (cursor + 1)%nat with (Datatypes.S cursor) by lia. apply computes_ret.
  - injection Ho as <-. specialize (IH rest (Datatypes.S cursor) Hes Hrest).
    assert (∀ v, computes g (index_scan_loop t predicate es.*1 (Datatypes.S cursor)) v →
      computes g (cur ← on_heap (GetTuple r);
                  keep ← st_lift (predicate_holds predicate cur (t_schema_ t));
                  if keep : bool then values ← st_lift (row_values (t_schema_ t) cur); tuple ← st_lift (Tuple_new values);
                    mret (Some (tuple, Some r), Datatypes.S cursor)
                  else index_scan_loop t predicate es.*1 (Datatypes.S cursor)) v) as Hstep.
    { intros v Hv. eapply computes_bind; [by apply deref_computes|].
      eapply computes_bind; [by apply computes_lift|]. exact Hv. }
    destruct rest as [|row rest].
    + apply Hstep. by replace (cursor + Datatypes.S (length es))%nat with (Datatypes.S cursor + length es)%nat by lia.
    + destruct IH as (k & ? & ? & ?). exists (Datatypes.S k). split; [lia|]. split; [done|].
      apply Hstep. by replace (cursor + Datatypes.S k)%nat with (Datatypes.S cursor + k)%nat by lia.
Qed.

(** The fields of an index scan that come from its plan. *)
Definition same_index_plan (e e' : IndexScanExecutor) : Prop :=
  is_schema e = is_schema e' ∧ is_table_oid e = is_table_oid e' ∧ is_index_oid e = is_index_oid e' ∧
  is_lookup_key e = is_lookup_key e' ∧ is_predicate e = is_predicate e'.

Lemma index_scan_produces e0 es rows :
  tables_ c !! is_table_oid e0 = Some t →
  matching_rids (Some t) (GetIndexByOid (is_index_oid e0) c) (is_lookup_key e0) = Ok es.*1 →
  Forall (λ e, heap_at h e.1 = Some e.2) es → scan_rows (t_schema_ t) (is_predicate e0) es = Ok rows →
  produces g e0 rows.
Proof.
  intros Ht Hrids Hes Hrows. exists (λ e, same_index_plan e e0). split; [by split_and!|].
  intros e (H1 & H2 & H3 & H4 & H5). split; [done|].
  set (at_cursor := λ n, mkIndexScan (is_schema e) (is_table_oid e) (is_index_oid e) (is_lookup_key e) (is_predicate e)
         (Some t) (GetIndexByOid (is_index_oid e) c) es.*1 n).
  exists (at_cursor 0%nat). split; [|split; [by split_and!|]].
  - simpl. unfold IndexScan_Init. eapply computes_bind; [apply computes_catalog|].
    unfold GetTableByOid. rewrite H2, Ht. cbv zeta. eapply computes_bind; [apply computes_lift; by rewrite H3, H4|].
    unfold at_cursor. rewrite H2, H3. apply computes_ret.
  - assert (∀ rows n, scan_rows (t_schema_ t) (is_predicate e) (drop n es) = Ok rows →
      yields g (λ e, same_index_plan e e0) rows (at_cursor n)) as Hy; [|apply Hy; by rewrite H5, drop_0].
    clear rows Hrows. induction rows as [|row rows IH]; intros n Hsel;
      (pose proof (index_scan_loop_ok (is_predicate e) (drop n es) _ n (Forall_drop _ n _ Hes) Hsel) as Hl); cbn [yields].
    + exists (at_cursor (n + length (drop n es))%nat). split; [|by split_and!]. simpl. unfold IndexScan_Next. simpl.
      rewrite <- fmap_drop. eapply computes_bind; [exact Hl|]. apply computes_ret.
    + destruct Hl as (k & Hk & Hsel' & Hl). exists (at_cursor (n + k)%nat). split.
      { simpl. unfold IndexScan_Next. simpl. rewrite <- fmap_drop. eapply computes_bind; [exact Hl|]. apply computes_ret. }
      split; [by split_and!|]. apply IH. by rewrite drop_drop in Hsel'.
Qed.
End Scans.
End Executor.
