(* ===== verification/Operators.v ===== *)
(** * Limit, projection and sort

    [src/src/execution/executors/]: the executors with one child, each over any
    implementation of the executor interface.  [std::sort] is known by its
    contract: on a strict weak ordering it returns a sorted permutation. *)

From Stdlib Require Import Sorting.Sorted.
From S2P Require Import Prelude Common Value Tuple Expression PageStore PageIO PageLogic Catalog Executor.

(** ** [std::sort] *)

Record strict_weak {A} (lt : A → A → bool) (l : list A) : Prop := {
  sw_irrefl x : x ∈ l → lt x x = false;
  sw_trans x y z : x ∈ l → y ∈ l → z ∈ l → lt x y = true → lt y z = true → lt x z = true;
  sw_equiv x y z : x ∈ l → y ∈ l → z ∈ l → lt x y = false → lt y x = false →
    lt y z = false → lt z y = false → lt x z = false ∧ lt z x = false
}.

Class StdSort := {
  std_sort {A} : (A → A → res bool) → list A → res (list A);
  std_sort_ok {A} (comp : A → A → res bool) (lt : A → A → bool) (l : list A) :
    (∀ x y, x ∈ l → y ∈ l → comp x y = Ok (lt x y)) → strict_weak lt l →
    ∃ l', std_sort comp l = Ok l' ∧ l' ≡ₚ l ∧ StronglySorted (λ x y, lt y x = false) l'
}.

Section Operators.
Context {S : Type} `{PIO : !PageIO bytes S} (fuel : nat).
Abbreviation M A := (ST (DB S) A).
Implicit Types (g : Store bytes * Catalog).

(** ** [while (child->Next(...)) body] *)

Fixpoint fold_next {E A} `{!AbstractExecutor (S := S) E} (n : nat) (body : A → Row → M A) (e : E) (acc : A) : M (A * E) :=
  match n with
  | O => st_fuel
  | Datatypes.S n =>
      '(row, e) ← Next e;
      match row with
      | None => mret (acc, e)
      | Some r => acc ← body acc r; fold_next n body e acc
      end
  end.

Fixpoint foldR {A B} (f : A → B → res A) (acc : A) (l : list B) : res A :=
  match l with [] => Ok acc | x :: l => acc ← f acc x; foldR f acc l end.

Lemma fold_next_ok {E A} `{!AbstractExecutor (S := S) E} g I (f : A → Row → res A) (rows : list Row) : ∀ n (e : E) acc acc',
  yields g I rows e → (length rows < n)%nat → foldR f acc rows = Ok acc' →
  ∃ e', I e' ∧ computes g (fold_next n (λ a r, st_lift (f a r)) e acc) (acc', e').
Proof.
  induction rows as [|row rows IH]; intros [|n] e acc acc' Hy Hn Hf; try (simpl in Hn; lia).
  - injection Hf as <-. destruct Hy as (e' & Hnext & HI). exists e'. split; [done|].
    cbn [fold_next]. eapply computes_bind; [exact Hnext|]. apply computes_ret.
  - destruct Hy as (e1 & Hnext & HI & Hy). cbn [foldR] in Hf.
    destruct (f acc row) as [acc1| | |] eqn:E1; simplify_eq/=.
    destruct (IH n e1 acc1 acc' Hy ltac:(lia) Hf) as (e' & HI' & Hc). exists e'. split; [done|].
    eapply computes_bind; [exact Hnext|]. cbn beta iota.
    eapply computes_bind; [by apply computes_lift|]. exact Hc.
Qed.

(** Reading a stored list of results. *)
Lemma yields_results {E} `{!AbstractExecutor (S := S) E} g (I : E → Prop) (rows : list Row) (at_cursor : nat → E) :
  (∀ n, I (at_cursor n)) →
  (∀ n row, rows !! n = Some row → computes g (Next (at_cursor n)) (Some row, at_cursor (Datatypes.S n))) →
  (∀ n, (length rows ≤ n)%nat → computes g (Next (at_cursor n)) (None, at_cursor n)) →
  yields g I rows (at_cursor 0%nat).
Proof.
  intros HI Hs Hend. rewrite <- (drop_0 rows). generalize 0%nat. intros n.
  remember (drop n rows) as l eqn:Hl. revert n Hl. induction l as [|row l IH]; intros n Hl; cbn [yields].
  - exists (at_cursor n). split; [|done]. apply Hend. assert (length (drop n rows) = 0%nat) as H by by rewrite <- Hl.
    rewrite length_drop in H. lia.
  - exists (at_cursor (Datatypes.S n)). split; [|split; [done|]].
    + apply Hs. rewrite <- (Nat.add_0_r n), <- lookup_drop, <- Hl. done.
    + apply IH. replace (Datatypes.S n) with (n + 1)%nat by lia. by rewrite <- drop_drop, <- Hl.
Qed.

(** ** Limit ([limit_executor.cpp]) *)

Record LimitExecutor (C : Type) := mkLimit { l_schema : Schema; l_limit : Z; l_child : C; l_count : Z }.
Arguments mkLimit {C}. Arguments l_schema {C}. Arguments l_limit {C}. Arguments l_child {C}. Arguments l_count {C}.

Definition Limit_Init {C} `{!AbstractExecutor (S := S) C} (e : LimitExecutor C) : M (LimitExecutor C) :=
  child ← Init (l_child e); mret (mkLimit (l_schema e) (l_limit e) child 0).

Definition Limit_Next {C} `{!AbstractExecutor (S := S) C} (e : LimitExecutor C) : M (option Row * LimitExecutor C) :=
  if l_limit e <=? l_count e then mret (None, e)
  else
    '(row, child) ← Next (l_child e);
    match row with
    | None => mret (None, mkLimit (l_schema e) (l_limit e) child (l_count e))
    | Some r => mret (Some r, mkLimit (l_schema e) (l_limit e) child (u64 (l_count e + 1)))
    end.

#[global] Instance limit_executor C `{!AbstractExecutor (S := S) C} : AbstractExecutor (S := S) (LimitExecutor C) := {
  Init := Limit_Init; Next := Limit_Next; GetOutputSchema := l_schema
}.

Lemma limit_produces {C} `{!AbstractExecutor (S := S) C} g schema limit (child : C) count rows :
  0 ≤ limit ≤ SIZE_MAX → produces g child rows →
  produces g (mkLimit schema limit child count) (take (Z.to_nat limit) rows).
Proof.
  intros Hlim (I & HI & Hprod).
  exists (λ e, l_schema e = schema ∧ l_limit e = limit ∧ I (l_child e)). split; [done|].
  intros [s l ch n] (H1 & H2 & HIc). simpl in *. subst s l. split; [done|].
  destruct (Hprod ch HIc) as (_ & ch' & Hinit & HI' & Hy).
  exists (mkLimit schema limit ch' 0). split; [eapply computes_bind; [exact Hinit|]; apply computes_ret|]. split; [done|].
  assert (∀ rows e n, I e → yields g I rows e → 0 ≤ n ≤ limit →
    yields g (λ e, l_schema e = schema ∧ l_limit e = limit ∧ I (l_child e)) (take (Z.to_nat (limit - n)) rows)
      (mkLimit schema limit e n)) as H; [|by specialize (H rows ch' 0 HI' Hy ltac:(lia)); rewrite Z.sub_0_r in H].
  clear -Hlim. induction rows as [|row rows IH]; intros e n HIe Hy Hn;
    (destruct (decide (limit = n)) as [->|Hne];
     [rewrite Z.sub_diag; cbn [Z.to_nat take yields]; eexists; split;
      [unfold Next, limit_executor, Limit_Next; simpl; rewrite (proj2 (Z.leb_le _ _)) by lia; apply computes_ret|done]|]).
  - rewrite take_nil. destruct Hy as (e' & Hnext & HI'). exists (mkLimit schema limit e' n). split; [|done].
    unfold Next, limit_executor, Limit_Next. simpl. rewrite (proj2 (Z.leb_gt _ _)) by lia. eapply computes_bind; [exact Hnext|]. apply computes_ret.
  - destruct Hy as (e' & Hnext & HI' & Hy).
    replace (Z.to_nat (limit - n)) with (Datatypes.S (Z.to_nat (limit - (n + 1)))) by lia. cbn [take yields].
    exists (mkLimit schema limit e' (n + 1)). split; [|split; [done|by apply IH; [| |lia]]].
    unfold Next, limit_executor, Limit_Next. simpl. rewrite (proj2 (Z.leb_gt _ _)) by lia. eapply computes_bind; [exact Hnext|]. cbn beta iota.
    replace (u64 (n + 1)) with (n + 1) by (unfold u64, SIZE_MAX in *; rewrite Z.mod_small; lia). apply computes_ret.
Qed.

(** ** Projection ([projection_executor.cpp]) *)

Record ProjectionExecutor (C : Type) := mkProjection { p_schema : Schema; p_exprs : list AbstractExpression; p_child : C }.
Arguments mkProjection {C}. Arguments p_schema {C}. Arguments p_exprs {C}. Arguments p_child {C}.

(** A record id the child does not write is that of a fresh [RID]. *)
Definition project_row (exprs : list AbstractExpression) (schema : Schema) (row : Row) : res Row :=
  values ← mapR (λ e, Evaluate e (Some row.1) schema) exprs;
  t ← Tuple_new values;
  Ok (t, Some (default RID_default row.2)).

Definition Projection_Init {C} `{!AbstractExecutor (S := S) C} (e : ProjectionExecutor C) : M (ProjectionExecutor C) :=
  child ← Init (p_child e); mret (mkProjection (p_schema e) (p_exprs e) child).

Definition Projection_Next {C} `{!AbstractExecutor (S := S) C} (e : ProjectionExecutor C) : M (option Row * ProjectionExecutor C) :=
  '(row, child) ← Next (p_child e);
  let e := mkProjection (p_schema e) (p_exprs e) child in
  match row with
  | None => mret (None, e)
  | Some r => r ← st_lift (project_row (p_exprs e) (GetOutputSchema child) r); mret (Some r, e)
  end.

#[global] Instance projection_executor C `{!AbstractExecutor (S := S) C} : AbstractExecutor (S := S) (ProjectionExecutor C) := {
  Init := Projection_Init; Next := Projection_Next; GetOutputSchema := p_schema
}.

Lemma projection_produces {C} `{!AbstractExecutor (S := S) C} g schema exprs (child : C) rows out :
  produces g child rows → mapR (project_row exprs (GetOutputSchema child)) rows = Ok out →
  produces g (mkProjection schema exprs child) out.
Proof.
  intros (I & HI & Hprod) Hout.
  exists (λ e, p_schema e = schema ∧ p_exprs e = exprs ∧ I (p_child e)). split; [done|].
  intros [s x ch] (H1 & H2 & HIc). simpl in *. subst s x. split; [done|].
  destruct (Hprod ch HIc) as (_ & ch' & Hinit & HI' & Hy).
  exists (mkProjection schema exprs ch'). split; [eapply computes_bind; [exact Hinit|]; apply computes_ret|]. split; [done|].
  assert (∀ e, I e → GetOutputSchema e = GetOutputSchema child) as Hschema by (intros e He; apply (Hprod e He)).
  clear Hprod HI Hinit HIc ch. revert out ch' HI' Hy Hout.
  induction rows as [|row rows IH]; intros out e HIe Hy Hout; simpl in Hout.
  - injection Hout as <-. destruct Hy as (e' & Hnext & HI'). exists (mkProjection schema exprs e'). split; [|done].
    eapply computes_bind; [exact Hnext|]. apply computes_ret.
  - destruct Hy as (e' & Hnext & HI' & Hy). res_inv Hout.
    exists (mkProjection schema exprs e'). split; [|split; [done|by apply IH]].
    eapply computes_bind; [exact Hnext|]. cbn beta iota zeta. rewrite (Hschema e' HI').
    eapply computes_bind; [by apply computes_lift|]. apply computes_ret.
Qed.

(** ** Sort ([sort_executor.cpp]) *)

Section Sort.
Context `{!StdSort}.

Record SortExecutor (C : Type) := mkSort {
  s_schema : Schema;
  s_order_bys : list (bool * AbstractExpression);
  s_child : C;
  sorted_tuples_ : list Tuple;
  s_cursor : nat
}.
Arguments mkSort {C}. Arguments s_schema {C}. Arguments s_order_bys {C}. Arguments s_child {C}.
Arguments sorted_tuples_ {C}. Arguments s_cursor {C}.

(** The comparator given to [std::sort]. *)
Fixpoint sort_less (schema : Schema) (order_bys : list (bool * AbstractExpression)) (a b : Tuple) : res bool :=
  match order_bys with
  | [] => Ok false
  | (is_ascending, expr) :: order_bys =>
      val_a ← Evaluate expr (Some a) schema;
      val_b ← Evaluate expr (Some b) schema;
      eq ← (v ← CompareEquals val_a val_b; GetAsBoolean v);
      if eq : bool then sort_less schema order_bys a b
      else if is_ascending : bool then v ← CompareLessThan val_a val_b; GetAsBoolean v
      else v ← CompareGreaterThan val_a val_b; GetAsBoolean v
  end.

Definition collect (tuples : list Tuple) (row : Row) : res (list Tuple) := Ok (tuples ++ [row.1]).

Definition Sort_Init {C} `{!AbstractExecutor (S := S) C} (e : SortExecutor C) : M (SortExecutor C) :=
  child ← Init (s_child e);
  '(tuples, child) ← fold_next fuel (λ a r, st_lift (collect a r)) child [];
  sorted ← st_lift (std_sort (sort_less (GetOutputSchema child) (s_order_bys e)) tuples);
  mret (mkSort (s_schema e) (s_order_bys e) child sorted 0).

(** [*rid] is not written. *)
Definition Sort_Next {C} `{!AbstractExecutor (S := S) C} (e : SortExecutor C) : M (option Row * SortExecutor C) :=
  match sorted_tuples_ e !! s_cursor e with
  | None => mret (None, e)
  | Some t => mret (Some (t, None), mkSort (s_schema e) (s_order_bys e) (s_child e) (sorted_tuples_ e) (Datatypes.S (s_cursor e)))
  end.

#[global] Instance sort_executor C `{!AbstractExecutor (S := S) C} : AbstractExecutor (S := S) (SortExecutor C) := {
  Init := Sort_Init; Next := Sort_Next; GetOutputSchema := s_schema
}.

Lemma foldR_collect rows acc : foldR collect acc rows = Ok (acc ++ rows.*1).
Proof.
  revert acc. induction rows as [|row rows IH]; intros acc; simpl; [by rewrite app_nil_r|]. by rewrite IH, <- app_assoc.
Qed.

Lemma sort_produces {C} `{!AbstractExecutor (S := S) C} g schema order_bys (child : C) ts0 n0 rows sorted :
  produces g child rows → (length rows < fuel)%nat →
  std_sort (sort_less (GetOutputSchema child) order_bys) rows.*1 = Ok sorted →
  produces g (mkSort schema order_bys child ts0 n0) ((λ t, (t, None)) <$> sorted).
Proof.
  intros (I & HI & Hprod) Hlen Hsort.
  exists (λ e, s_schema e = schema ∧ s_order_bys e = order_bys ∧ I (s_child e)). split; [done|].
  intros [s o ch ts n] (H1 & H2 & HIc). simpl in *. subst s o. split; [done|].
  destruct (Hprod ch HIc) as (_ & ch' & Hinit & HI' & Hy).
  destruct (fold_next_ok g I collect rows fuel ch' [] rows.*1 Hy Hlen (foldR_collect rows [])) as (ch2 & HI2 & Hfold).
  exists (mkSort schema order_bys ch2 sorted 0). split.
  { eapply computes_bind; [exact Hinit|]. eapply computes_bind; [exact Hfold|]. cbn beta iota.
    rewrite (proj1 (Hprod ch2 HI2)). eapply computes_bind; [by apply computes_lift|]. apply computes_ret. }
  split; [done|]. apply (yields_results g _ _ (mkSort schema order_bys ch2 sorted)); [done| |].
  - intros n' row Hn. rewrite list_lookup_fmap_Some in Hn. destruct Hn as (t & -> & Ht). unfold Next, sort_executor, Sort_Next. simpl. rewrite Ht. apply computes_ret.
  - intros n' Hn. rewrite length_fmap in Hn. unfold Next, sort_executor, Sort_Next. simpl. rewrite (proj2 (lookup_ge_None _ _)) by lia. apply computes_ret.
Qed.
End Sort.
End Operators.
