(* ===== verification/Join.v ===== *)
(** * Joins

    [nested_loop_join_executor.cpp] and [hash_join_executor.cpp]
    (src/src/execution/executors/): the two joins, each over any implementation of
    the executor interface for its children. *)

From S2P Require Import Prelude Common Value Tuple Expression PageStore PageIO PageLogic Catalog Executor Operators.

Section Joins.
Context {S : Type} `{PIO : !PageIO bytes S} (fuel : nat).
Abbreviation M A := (ST (DB S) A).
Implicit Types (g : Store bytes * Catalog).

(** ** Nested-loop join ([nested_loop_join_executor.cpp]) *)

Record NestedLoopJoinExecutor (L R : Type) := mkNLJ {
  j_schema : Schema;
  j_predicate : option AbstractExpression;
  j_left : L;
  j_right : R;
  has_left : bool;
  left_tuple : Tuple
}.
Arguments mkNLJ {L R}. Arguments j_schema {L R}. Arguments j_predicate {L R}. Arguments j_left {L R}.
Arguments j_right {L R}. Arguments has_left {L R}. Arguments left_tuple {L R}.

Definition join_matches (predicate : option AbstractExpression) (lt : Tuple) (ls : Schema) (rt : Tuple) (rs : Schema) : res bool :=
  match predicate with None => Ok true | Some p => v ← EvaluateJoin p lt ls rt rs; GetAsBoolean v end.

(** The output tuple: the left columns, then the right ones. *)
Definition joined_tuple (lt : Tuple) (ls : Schema) (rt : Tuple) (rs : Schema) : res Tuple :=
  lv ← row_values ls lt; rv ← row_values rs rt; Tuple_new (lv ++ rv).

Section Nlj.
Context {L R : Type} `{!AbstractExecutor (S := S) L} `{!AbstractExecutor (S := S) R}.

(** The inner loop: the next match on the right for a left tuple. *)
Fixpoint nlj_right (n : nat) (predicate : option AbstractExpression) (ls : Schema) (lt : Tuple) (rchild : R) : M (option Tuple * R) :=
  match n with
  | O => st_fuel
  | Datatypes.S n =>
      '(row, rchild) ← Next rchild;
      match row with
      | None => mret (None, rchild)
      | Some (rt, _) =>
          let rs := GetOutputSchema rchild in
          ok ← st_lift (join_matches predicate lt ls rt rs);
          if ok : bool then t ← st_lift (joined_tuple lt ls rt rs); mret (Some t, rchild)
          else nlj_right n predicate ls lt rchild
      end
  end.

Fixpoint nlj_loop (n : nat) (e : NestedLoopJoinExecutor L R) : M (option Row * NestedLoopJoinExecutor L R) :=
  match n with
  | O => st_fuel
  | Datatypes.S n =>
      if has_left e then
        '(found, rchild) ← nlj_right fuel (j_predicate e) (GetOutputSchema (j_left e)) (left_tuple e) (j_right e);
        match found with
        | Some t => mret (Some (t, Some RID_default), mkNLJ (j_schema e) (j_predicate e) (j_left e) rchild true (left_tuple e))
        | None =>
            '(row, lchild) ← Next (j_left e);
            rchild ← Init rchild;
            nlj_loop n (mkNLJ (j_schema e) (j_predicate e) lchild rchild (bool_decide (is_Some row))
                          (match row with Some r => r.1 | None => left_tuple e end))
        end
      else mret (None, e)
  end.

Definition NLJ_Init (e : NestedLoopJoinExecutor L R) : M (NestedLoopJoinExecutor L R) :=
  lchild ← Init (j_left e);
  rchild ← Init (j_right e);
  '(row, lchild) ← Next lchild;
  mret (mkNLJ (j_schema e) (j_predicate e) lchild rchild (bool_decide (is_Some row))
          (match row with Some r => r.1 | None => left_tuple e end)).

Definition NLJ_Next (e : NestedLoopJoinExecutor L R) : M (option Row * NestedLoopJoinExecutor L R) := nlj_loop fuel e.

#[global] Instance nlj_executor : AbstractExecutor (S := S) (NestedLoopJoinExecutor L R) := {
  Init := NLJ_Init; Next := NLJ_Next; GetOutputSchema := j_schema
}.

(** The rows of the join: for each left row, the right rows that match it. *)
Definition nlj_match (predicate : option AbstractExpression) (ls rs : Schema) (lt : Tuple) (row : Row) : res (option Row) :=
  ok ← join_matches predicate lt ls row.1 rs;
  if ok : bool then t ← joined_tuple lt ls row.1 rs; Ok (Some (t, Some RID_default)) else Ok None.
Definition nlj_rows (predicate : option AbstractExpression) (ls rs : Schema) (lrows rrows : list Row) : res (list Row) :=
  parts ← mapR (λ l : Row, selectM (nlj_match predicate ls rs l.1) rrows) lrows; Ok (concat parts).

Lemma nlj_right_ok g IR predicate ls rs lt : (∀ e, IR e → GetOutputSchema e = rs) → ∀ rrows n (rchild : R) rows,
  yields g IR rrows rchild → (length rrows < n)%nat → selectM (nlj_match predicate ls rs lt) rrows = Ok rows →
  match rows with
  | [] => ∃ rchild', IR rchild' ∧ computes g (nlj_right n predicate ls lt rchild) (None, rchild')
  | row :: rest => ∃ rchild' rrows' t, IR rchild' ∧ yields g IR rrows' rchild' ∧ (length rrows' ≤ length rrows)%nat ∧
      selectM (nlj_match predicate ls rs lt) rrows' = Ok rest ∧ row = (t, Some RID_default) ∧
      computes g (nlj_right n predicate ls lt rchild) (Some t, rchild')
  end.
Proof.
  intros Hrs. induction rrows as [|[rt o] rrows IH]; intros [|n] rchild rows Hy Hn Hsel; try (simpl in Hn; lia).
  - injection Hsel as <-. destruct Hy as (e' & Hnext & HI). exists e'. split; [done|].
    eapply computes_bind; [exact Hnext|]. apply computes_ret.
  - destruct Hy as (e1 & Hnext & HI & Hy). apply selectM_cons in Hsel as (q & rest & Hq & Hsel & ->).
    unfold nlj_match in Hq. simpl in Hq. simpl in Hn.
    destruct (join_matches predicate lt ls rt rs) as [ok| | |] eqn:Hok; simplify_eq/=.
    assert (∀ v, computes g (if ok then t ← st_lift (joined_tuple lt ls rt rs); mret (Some t, e1)
                             else nlj_right n predicate ls lt e1) v →
      computes g (nlj_right (Datatypes.S n) predicate ls lt rchild) v) as Hstep.
    { intros v Hv. cbn [nlj_right]. eapply computes_bind; [exact Hnext|]. cbn beta iota zeta. rewrite (Hrs e1 HI).
      eapply computes_bind; [by apply computes_lift|]. exact Hv. }
    destruct ok.
    + res_inv Hq. exists e1, rrows, a. split_and!; [done|done|lia|done|done|]. apply Hstep.
      eapply computes_bind; [by apply computes_lift|]. apply computes_ret.
    + injection Hq as <-. specialize (IH n e1 rest Hy ltac:(lia) Hsel). destruct rest as [|row rest].
      * destruct IH as (r' & ? & ?). exists r'. split; [done|]. by apply Hstep.
      * destruct IH as (r' & rr' & t & ? & ? & ? & ? & ? & ?). exists r', rr', t. split_and!; [done|done|lia|done|done|by apply Hstep].
Qed.

Lemma nlj_rows_cons predicate ls rs l lrows rrows rows : nlj_rows predicate ls rs (l :: lrows) rrows = Ok rows →
  ∃ r1 r2, selectM (nlj_match predicate ls rs l.1) rrows = Ok r1 ∧ nlj_rows predicate ls rs lrows rrows = Ok r2 ∧ rows = r1 ++ r2.
Proof.
  unfold nlj_rows. cbn [mapR]. destruct (selectM _ rrows) as [r1| | |]; try done. cbn [mbind res_bind].
  destruct (mapR _ lrows) as [parts| | |]; try done. intros [= <-]. by exists r1, (concat parts).
Qed.

Definition nlj_inv (schema : Schema) (predicate : option AbstractExpression) (IL : L → Prop) (IR : R → Prop)
    (e : NestedLoopJoinExecutor L R) : Prop :=
  j_schema e = schema ∧ j_predicate e = predicate ∧ IL (j_left e) ∧ IR (j_right e).

Section NljLoop.
Context (g : Store bytes * Catalog) (IL : L → Prop) (IR : R → Prop) (predicate : option AbstractExpression).
Context (ls rs schema : Schema) (rrows : list Row).
Context (Hls : ∀ e, IL e → GetOutputSchema e = ls) (Hrs : ∀ e, IR e → GetOutputSchema e = rs).
Context (Hinit : ∀ e, IR e → ∃ e', computes g (Init e) e' ∧ IR e' ∧ yields g IR rrows e').
Context (Hfuel : (length rrows < fuel)%nat).

(** The join has [rows] left to give. *)
Definition nlj_left_over (n : nat) (rows : list Row) (e : NestedLoopJoinExecutor L R) : Prop :=
  nlj_inv schema predicate IL IR e ∧
  if has_left e then
    ∃ lrows rrows1 r1 r2, yields g IL lrows (j_left e) ∧ yields g IR rrows1 (j_right e) ∧ (length rrows1 < fuel)%nat ∧
      (Datatypes.S (length lrows) < n)%nat ∧ selectM (nlj_match predicate ls rs (left_tuple e)) rrows1 = Ok r1 ∧
      nlj_rows predicate ls rs lrows rrows = Ok r2 ∧ rows = r1 ++ r2
  else rows = [] ∧ (0 < n)%nat.

Lemma nlj_loop_ok n : ∀ rows e, nlj_left_over n rows e →
  match rows with
  | [] => ∃ e', nlj_inv schema predicate IL IR e' ∧ computes g (nlj_loop n e) (None, e')
  | row :: rest => ∃ e', nlj_left_over n rest e' ∧ computes g (nlj_loop n e) (Some row, e')
  end.
Proof.
  induction n as [|n IH]; intros rows [s p lc rc hl lt] [(H1 & H2 & HL & HR) Hrest]; simpl in *; subst s p;
    (destruct hl; [destruct Hrest as (lrows & rrows1 & r1 & r2 & Hyl & Hyr & Hlen & Hn & Hs1 & Hs2 & ->)|
      destruct Hrest as [-> Hn]]); try lia; cycle 1.
  { eexists. split; [|apply computes_ret]. done. }
  pose proof (nlj_right_ok g IR predicate ls rs lt Hrs rrows1 fuel rc r1 Hyr Hlen Hs1) as Hright. destruct r1 as [|row r1].
  - destruct Hright as (rc' & HR' & Hc). destruct (Hinit rc' HR') as (rc2 & Hi & HR2 & Hy2).
    assert (∃ row lc' lt', nlj_left_over n r2 (mkNLJ schema predicate lc' rc2 (bool_decide (is_Some row)) lt') ∧
      computes g (Next lc) (row, lc') ∧ lt' = match row with Some r => r.1 | None => lt end) as (row & lc' & lt' & Hinv & Hnext & Hlt).
    { destruct lrows as [|[lt1 o] lrows]; destruct Hyl as (lc' & Hnext & HIl).
      - exists None, lc', lt. split_and!; [|done|done]. injection Hs2 as <-. split; [done|]. simpl. split; [done|lia].
      - destruct HIl as [HIl Hyl]. exists (Some (lt1, o)), lc', lt1. split_and!; [|done|done]. split; [done|].
        cbn [has_left j_left j_right left_tuple]. rewrite bool_decide_eq_true_2 by done.
        apply nlj_rows_cons in Hs2 as (q1 & q2 & ? & ? & ->). exists lrows, rrows, q1, q2.
        simpl in Hn. split_and!; try done; lia. }
    specialize (IH r2 _ Hinv). cbn [app].
    assert (∀ v, computes g (nlj_loop n (mkNLJ schema predicate lc' rc2 (bool_decide (is_Some row)) lt')) v →
      computes g (nlj_loop (Datatypes.S n) (mkNLJ schema predicate lc rc true lt)) v) as Hstep.
    { intros v Hv. cbn [nlj_loop has_left j_predicate j_left j_right left_tuple j_schema]. rewrite (Hls lc HL).
      eapply computes_bind; [exact Hc|]. cbn beta iota. eapply computes_bind; [exact Hnext|]. cbn beta iota.
      eapply computes_bind; [exact Hi|]. rewrite Hlt in Hv. exact Hv. }
    destruct r2 as [|row2 rest]; destruct IH as (e' & HI' & Hc'); exists e'; (split; [|by apply Hstep]); [done|].
    destruct HI' as [HI1 HI2]. split; [done|]. destruct (has_left e').
    + destruct HI2 as (l' & rr' & q1 & q2 & ? & ? & ? & ? & ? & ? & ?). exists l', rr', q1, q2. split_and!; try done. lia.
    + destruct HI2. split; [done|lia].
  - destruct Hright as (rc' & rrows' & t & HR' & Hy' & Hlen' & Hs' & -> & Hc).
    exists (mkNLJ schema predicate lc rc' true lt). split.
    + split; [done|]. exists lrows, rrows', r1, r2. simpl. split_and!; try done. lia.
    + cbn [nlj_loop has_left j_predicate j_left j_right left_tuple j_schema]. rewrite (Hls lc HL).
      eapply computes_bind; [exact Hc|]. apply computes_ret.
Qed.
End NljLoop.

Lemma nlj_produces g schema predicate (lchild : L) (rchild : R) hl lt lrows rrows rows :
  produces g lchild lrows → produces g rchild rrows →
  (Datatypes.S (length lrows) < fuel)%nat → (length rrows < fuel)%nat →
  nlj_rows predicate (GetOutputSchema lchild) (GetOutputSchema rchild) lrows rrows = Ok rows →
  produces g (mkNLJ schema predicate lchild rchild hl lt) rows.
Proof.
  intros (IL & HIL & HL) (IR & HIR & HR) Hl Hr Hrows. exists (nlj_inv schema predicate IL IR). split; [done|].
  intros [s p lc rc h0 lt0] (H1 & H2 & HIl & HIr). simpl in *. subst s p. split; [done|].
  destruct (HL lc HIl) as (_ & lc1 & Hil & HIl1 & Hyl). destruct (HR rc HIr) as (_ & rc1 & Hir & HIr1 & Hyr).
  assert (∀ e, IL e → GetOutputSchema e = GetOutputSchema lchild) as Hls by (intros e He; apply (HL e He)).
  assert (∀ e, IR e → GetOutputSchema e = GetOutputSchema rchild) as Hrs by (intros e He; apply (HR e He)).
  assert (∃ row lc', computes g (Next lc1) (row, lc') ∧
    nlj_left_over g IL IR predicate (GetOutputSchema lchild) (GetOutputSchema rchild) schema rrows fuel rows
      (mkNLJ schema predicate lc' rc1 (bool_decide (is_Some row)) (match row with Some r => r.1 | None => lt0 end)))
    as (row & lc' & Hnext & Hinv).
  { destruct lrows as [|[lt1 o] lrows]; destruct Hyl as (lc' & Hnext & HIl').
    - exists None, lc'. split; [done|]. injection Hrows as <-. split; [done|]. simpl. split; [done|lia].
    - destruct HIl' as [HIl' Hyl]. exists (Some (lt1, o)), lc'. split; [done|]. split; [done|].
      cbn [has_left j_left j_right left_tuple]. rewrite bool_decide_eq_true_2 by done.
      apply nlj_rows_cons in Hrows as (q1 & q2 & ? & ? & ->). exists lrows, rrows, q1, q2.
      simpl in Hl. split_and!; try done; lia. }
  eexists. split; [|split; [exact (proj1 Hinv)|]].
  { eapply computes_bind; [exact Hil|]. eapply computes_bind; [exact Hir|]. eapply computes_bind; [exact Hnext|]. apply computes_ret. }
  clear Hnext. remember (mkNLJ _ _ _ _ _ _) as e eqn:He. clear He. revert e Hinv. clear Hrows.
  induction rows as [|r rows IH]; intros e Hinv;
    (pose proof (nlj_loop_ok g IL IR predicate _ _ schema rrows Hls Hrs (λ e He, proj2 (HR e He)) Hr fuel _ e Hinv) as Hstep);
    destruct Hstep as (e' & HI & Hc); exists e'; [done|].
  split; [done|]. split; [exact (proj1 HI)|]. by apply IH.
Qed.
End Nlj.

(** ** Hash join ([hash_join_executor.cpp])

    [fmt_2f] stands for [fmt::format("{:.2f}", x)]. *)

Section HashJoin.
Context (fmt_2f : Z → string).
Context {L R : Type} `{!AbstractExecutor (S := S) L} `{!AbstractExecutor (S := S) R}.

Record HashJoinExecutor := mkHashJoin {
  h_schema : Schema;
  left_key_expr_ : AbstractExpression;
  right_key_expr_ : AbstractExpression;
  h_left : L;
  h_right : R;
  hash_table_ : gmap string (list Tuple);
  result_tuples_ : list Tuple;
  h_cursor : nat
}.

Definition join_key (key : AbstractExpression) (schema : Schema) (t : Tuple) : res string :=
  v ← Evaluate key (Some t) schema; Ok (ToString fmt_2f v).

(** One turn of the loop that builds the table, and of the loop that probes it. *)
Definition build (key : AbstractExpression) (ls : Schema) (table : gmap string (list Tuple)) (row : Row) : res (gmap string (list Tuple)) :=
  k ← join_key key ls row.1; Ok (<[k := default [] (table !! k) ++ [row.1]]> table).

Definition probe (key : AbstractExpression) (ls rs : Schema) (table : gmap string (list Tuple)) (results : list Tuple) (row : Row) : res (list Tuple) :=
  k ← join_key key rs row.1;
  match table !! k with
  | None => Ok results
  | Some lts => ts ← mapR (λ lt, joined_tuple lt ls row.1 rs) lts; Ok (results ++ ts)
  end.

Definition HashJoin_Init (e : HashJoinExecutor) : M HashJoinExecutor :=
  lchild ← Init (h_left e);
  rchild ← Init (h_right e);
  let ls := GetOutputSchema lchild in
  let rs := GetOutputSchema rchild in
  '(table, lchild) ← fold_next fuel (λ m r, st_lift (build (left_key_expr_ e) ls m r)) lchild ∅;
  '(results, rchild) ← fold_next fuel (λ a r, st_lift (probe (right_key_expr_ e) ls rs table a r)) rchild [];
  mret (mkHashJoin (h_schema e) (left_key_expr_ e) (right_key_expr_ e) lchild rchild table results 0).

Definition HashJoin_Next (e : HashJoinExecutor) : M (option Row * HashJoinExecutor) :=
  match result_tuples_ e !! h_cursor e with
  | None => mret (None, e)
  | Some t => mret (Some (t, Some RID_default),
      mkHashJoin (h_schema e) (left_key_expr_ e) (right_key_expr_ e) (h_left e) (h_right e) (hash_table_ e) (result_tuples_ e)
        (Datatypes.S (h_cursor e)))
  end.

#[global] Instance hash_join_executor : AbstractExecutor (S := S) HashJoinExecutor := {
  Init := HashJoin_Init; Next := HashJoin_Next; GetOutputSchema := h_schema
}.

(** The rows of the join: for each right row, the left rows whose key prints alike. *)
Definition keyed (key : AbstractExpression) (schema : Schema) (rows : list Row) : res (list (string * Tuple)) :=
  mapR (λ row : Row, k ← join_key key schema row.1; Ok (k, row.1)) rows.
Definition bucket (k : string) (lkeyed : list (string * Tuple)) : list Tuple := (filter (λ p, p.1 = k) lkeyed).*2.
Definition probed (ls rs : Schema) (lkeyed : list (string * Tuple)) (r : string * Tuple) : res (list Tuple) :=
  mapR (λ lt, joined_tuple lt ls r.2 rs) (bucket r.1 lkeyed).
Definition hash_join_rows (lkey rkey : AbstractExpression) (ls rs : Schema) (lrows rrows : list Row) : res (list Row) :=
  lkeyed ← keyed lkey ls lrows;
  rkeyed ← keyed rkey rs rrows;
  parts ← mapR (probed ls rs lkeyed) rkeyed;
  Ok ((λ t, (t, Some RID_default)) <$> concat parts).

Lemma build_ok key ls rows : ∀ table lkeyed, keyed key ls rows = Ok lkeyed →
  ∃ table', foldR (build key ls) table rows = Ok table' ∧
    ∀ k, default [] (table' !! k) = default [] (table !! k) ++ bucket k lkeyed.
Proof.
  induction rows as [|row rows IH]; intros table lkeyed Hk; unfold keyed in Hk; cbn [mapR] in Hk.
  { injection Hk as <-. exists table. split; [done|]. intros k. by rewrite app_nil_r. }
  destruct (join_key key ls row.1) as [k0| | |] eqn:E0; simplify_eq/=.
  destruct (mapR _ rows) as [rest| | |] eqn:E1; simplify_eq/=.
  assert (build key ls table row = Ok (<[k0 := default [] (table !! k0) ++ [row.1]]> table)) as Hstep by (unfold build; by rewrite E0).
  destruct (IH (<[k0 := default [] (table !! k0) ++ [row.1]]> table) rest E1) as (table' & Hf & Hb).
  exists table'. split; [by rewrite Hstep|]. intros k. rewrite Hb. unfold bucket. rewrite filter_cons. simpl.
  destruct (decide (k0 = k)) as [->|Hne].
  - rewrite lookup_insert_eq. simpl. by rewrite <- app_assoc.
  - by rewrite lookup_insert_ne.
Qed.

Lemma probe_ok key ls rs table lkeyed rows : (∀ k, default [] (table !! k) = bucket k lkeyed) → ∀ rkeyed parts acc,
  keyed key rs rows = Ok rkeyed → mapR (probed ls rs lkeyed) rkeyed = Ok parts →
  foldR (probe key ls rs table) acc rows = Ok (acc ++ concat parts).
Proof.
  intros Htable. induction rows as [|row rows IH]; intros rkeyed parts acc Hk Hp; unfold keyed in Hk; cbn [mapR] in Hk.
  { injection Hk as <-. injection Hp as <-. simpl. by rewrite app_nil_r. }
  destruct (join_key key rs row.1) as [k0| | |] eqn:E0; simplify_eq/=.
  destruct (mapR _ rows) as [rest| | |] eqn:E1; simplify_eq/=.
  destruct (probed ls rs lkeyed (k0, row.1)) as [ts| | |] eqn:Ets; simplify_eq/=.
  destruct (mapR _ rest) as [parts1| | |] eqn:E2; simplify_eq/=.
  assert (probe key ls rs table acc row = Ok (acc ++ ts)) as Hstep.
  { unfold probe. rewrite E0. unfold probed in Ets. simpl in Ets |- *. rewrite <- (Htable k0) in Ets.
    destruct (table !! k0); simpl in Ets; [by rewrite Ets|]. injection Ets as <-. by rewrite app_nil_r. }
  rewrite Hstep. rewrite app_assoc. by apply (IH rest).
Qed.

Lemma hash_join_produces g schema lkey rkey (lchild : L) (rchild : R) tb0 ts0 n0 lrows rrows rows :
  produces g lchild lrows → produces g rchild rrows → (length lrows < fuel)%nat → (length rrows < fuel)%nat →
  hash_join_rows lkey rkey (GetOutputSchema lchild) (GetOutputSchema rchild) lrows rrows = Ok rows →
  produces g (mkHashJoin schema lkey rkey lchild rchild tb0 ts0 n0) rows.
Proof.
  intros (IL & HIL & HL) (IR & HIR & HR) Hl Hr Hrows. unfold hash_join_rows in Hrows.
  destruct (keyed lkey _ lrows) as [lkeyed| | |] eqn:Ek; simplify_eq/=.
  destruct (keyed rkey _ rrows) as [rkeyed| | |] eqn:Er; simplify_eq/=.
  destruct (mapR _ rkeyed) as [parts| | |] eqn:Ep; simplify_eq/=.
  exists (λ e, h_schema e = schema ∧ left_key_expr_ e = lkey ∧ right_key_expr_ e = rkey ∧ IL (h_left e) ∧ IR (h_right e)). split; [done|].
  intros [s lk rk lc rc tb ts n] (H1 & H2 & H3 & HIl & HIr). simpl in *. subst s lk rk. split; [done|].
  destruct (HL lc HIl) as (_ & lc1 & Hil & HIl1 & Hyl). destruct (HR rc HIr) as (_ & rc1 & Hir & HIr1 & Hyr).
  destruct (build_ok lkey _ lrows ∅ lkeyed Ek) as (table & Hbuild & Htable).
  destruct (fold_next_ok g IL _ lrows fuel lc1 ∅ table Hyl Hl Hbuild) as (lc2 & HIl2 & Hcl).
  pose proof (probe_ok rkey (GetOutputSchema lchild) (GetOutputSchema rchild) table lkeyed rrows Htable rkeyed parts [] Er Ep) as Hprobe.
  destruct (fold_next_ok g IR _ rrows fuel rc1 [] (concat parts) Hyr Hr Hprobe) as (rc2 & HIr2 & Hcr).
  exists (mkHashJoin schema lkey rkey lc2 rc2 table (concat parts) 0). split.
  { eapply computes_bind; [exact Hil|]. eapply computes_bind; [exact Hir|]. cbn beta iota zeta.
    rewrite (proj1 (HL lc1 HIl1)), (proj1 (HR rc1 HIr1)).
    eapply computes_bind; [exact Hcl|]. cbn beta iota. eapply computes_bind; [exact Hcr|]. apply computes_ret. }
  split; [done|]. apply (yields_results g _ _ (mkHashJoin schema lkey rkey lc2 rc2 table (concat parts))); [done| |].
  - intros n' row Hn. rewrite list_lookup_fmap_Some in Hn. destruct Hn as (t & -> & Ht). unfold Next, hash_join_executor, HashJoin_Next. simpl. rewrite Ht. apply computes_ret.
  - intros n' Hn. rewrite length_fmap in Hn. unfold Next, hash_join_executor, HashJoin_Next. simpl. rewrite (proj2 (lookup_ge_None _ _)) by lia. apply computes_ret.
Qed.
End HashJoin.
End Joins.
