(* ===== verification/Aggregate.v ===== *)
(** * Aggregation

    [aggregation_executor.cpp] (src/src/execution/executors/): grouping by the text
    of the keys, the aggregate functions, and the output in the order of the hash
    map. *)

From S2P Require Import Prelude Common Value Tuple Expression PageStore PageIO PageLogic Catalog Executor Operators.

(** The constructors [CountStarAggregate], [CountAggregate], ... of the plan. *)
Inductive AggregationType := CountStarAggregate | CountAggregate | SumAggregate | MinAggregate | MaxAggregate.

Record AggState := mkAggState { group_vals : list Value; agg_vals : list Value }.

(** ** The aggregate functions *)

Definition initial_value (t : AggregationType) (type : TypeId) : Value :=
  match t with CountStarAggregate | CountAggregate => Value_int type 0 | _ => Value_null type end.

(** One aggregate on one row; [arg] is the value of its expression. *)
Definition update_agg (t : AggregationType) (arg : res Value) (cur : Value) : res Value :=
  match t with
  | CountStarAggregate => Add cur (Value_int (type_id_ cur) 1)
  | CountAggregate => v ← arg; if is_null_ v then Ok cur else Add cur (Value_int (type_id_ cur) 1)
  | SumAggregate => v ← arg; if is_null_ v then Ok cur else if is_null_ cur then Ok v else Add cur v
  | MinAggregate =>
      v ← arg;
      if is_null_ v then Ok cur
      else if is_null_ cur then Ok v
      else lt ← CompareLessThan v cur; b ← GetAsBoolean lt; Ok (if b : bool then v else cur)
  | MaxAggregate =>
      v ← arg;
      if is_null_ v then Ok cur
      else if is_null_ cur then Ok v
      else lt ← CompareLessThan cur v; b ← GetAsBoolean lt; Ok (if b : bool then v else cur)
  end.

Section Groups.
Context (fmt_2f : Z → string) (out_schema child_schema : Schema).
Context (group_bys aggregates : list AbstractExpression) (agg_types : list AggregationType).

(** The values of the aggregates of a new group, of the types of the output schema. *)
Definition initial_aggs : res (list Value) :=
  mapR (λ p : nat * AggregationType, c ← GetColumn out_schema (u32 (Z.of_nat (length group_bys + p.1))); Ok (initial_value p.2 (col_type c)))
    (zip (seq 0 (length agg_types)) agg_types).

Definition agg_arg (i : nat) (t : Tuple) : res Value :=
  match aggregates !! i with Some e => Evaluate e (Some t) child_schema | None => UB end.

Fixpoint update_aggs (i : nat) (types : list AggregationType) (t : Tuple) (vals : list Value) : res (list Value) :=
  match types, vals with
  | [], _ => Ok vals
  | _ :: _, [] => UB
  | ty :: types, v :: vals =>
      v ← update_agg ty (agg_arg i t) v; rest ← update_aggs (Datatypes.S i) types t vals; Ok (v :: rest)
  end.

Definition group_values (t : Tuple) : res (list Value) := mapR (λ e, Evaluate e (Some t) child_schema) group_bys.
Definition group_key (vals : list Value) : string := joined "|" (ToString fmt_2f <$> vals).

(** One turn of the loop over the child's rows. *)
Definition group_step (groups : gmap string AggState) (row : Row) : res (gmap string AggState) :=
  vals ← group_values row.1;
  let key := group_key vals in
  s ← match groups !! key with
      | Some s => Ok s
      | None => aggs ← initial_aggs; Ok (mkAggState vals aggs)
      end;
  aggs ← update_aggs 0 agg_types row.1 (agg_vals s);
  Ok (<[key := mkAggState (group_vals s) aggs]> groups).

Definition materialize `{!HashOrder} (groups : gmap string AggState) : res (list Tuple) :=
  if bool_decide (groups = ∅) then
    match group_bys with
    | [] => vals ← initial_aggs; t ← Tuple_new vals; Ok [t]
    | _ => Ok []
    end
  else mapR (λ s, Tuple_new (group_vals s ++ agg_vals s)) (hash_order groups).*2.

Definition agg_rows `{!HashOrder} (rows : list Row) : res (list Row) :=
  groups ← foldR group_step ∅ rows; ts ← materialize groups; Ok ((λ t : Tuple, (t, Some RID_default)) <$> (ts : list Tuple)).
(** ** Each group is folded on its own *)

Definition has_key (k : string) (row : Row) : Prop := ∃ vals, group_values row.1 = Ok vals ∧ group_key vals = k.
#[global] Instance has_key_dec k row : Decision (has_key k row).
Proof.
  unfold has_key. destruct (group_values row.1) as [vals| | |]; [|right; intros (v & Hv & _); discriminate Hv..].
  destruct (decide (group_key vals = k)) as [H|H]; [left; by exists vals|right; intros (v & Hv & ?); congruence].
Defined.
Definition group_of (k : string) (rows : list Row) : list Row := filter (has_key k) rows.

Definition fold_group (vals : list Value) (rows : list Row) : res (list Value) :=
  foldR (λ vals row, update_aggs 0 agg_types row.1 vals) vals rows.

(** What the map holds for a key, in terms of the rows of its group. *)
Definition group_state (k : string) (rows : list Row) (s : option AggState) : Prop :=
  match group_of k rows with
  | [] => s = None
  | row :: rest => ∃ vals init aggs, group_values row.1 = Ok vals ∧ initial_aggs = Ok init ∧
      fold_group init (row :: rest) = Ok aggs ∧ s = Some (mkAggState vals aggs)
  end.

Lemma foldR_snoc {A B} (f : A → B → res A) l x : ∀ acc a, foldR f acc l = Ok a → foldR f acc (l ++ [x]) = f a x.
Proof.
  induction l as [|y l IH]; intros acc a; cbn [foldR app].
  - intros [= ->]. by destruct (f a x).
  - destruct (f acc y); try done. apply IH.
Qed.

Lemma foldR_app {A B} (f : A → B → res A) l1 l2 acc a :
  foldR f acc l1 = Ok a → foldR f acc (l1 ++ l2) = foldR f a l2.
Proof.
  revert acc. induction l1 as [|x l1 IH]; intros acc; cbn [foldR app]; [by intros [= ->]|].
  destruct (f acc x); try done. apply IH.
Qed.

Lemma group_step_state rows row groups groups' :
  (∀ k, group_state k rows (groups !! k)) → group_step groups row = Ok groups' →
  ∀ k, group_state k (rows ++ [row]) (groups' !! k).
Proof.
  intros Hg Hstep k. unfold group_step in Hstep. destruct (group_values row.1) as [vals| | |] eqn:Ev; simplify_eq/=.
  assert (has_key k row ↔ group_key vals = k) as Hkey.
  { split; [by intros (v & Hv & <-); rewrite Ev in Hv; injection Hv as ->|]. intros <-. by exists vals. }
  unfold group_state, group_of. rewrite filter_app, filter_cons, filter_nil.
  destruct (decide (group_key vals = k)) as [<-|Hne].
  - specialize (Hg (group_key vals)). unfold group_state, group_of in Hg.
    rewrite decide_True by by apply Hkey.
    destruct (filter _ rows) as [|row0 rest] eqn:Ef; simpl.
    + rewrite Hg in Hstep. simpl in Hstep. destruct initial_aggs as [init| | |] eqn:Ei; try done. simpl in Hstep.
      destruct (update_aggs 0 agg_types row.1 init) as [aggs| | |] eqn:Eu; simplify_eq/=. rewrite lookup_insert_eq.
      exists vals, init, aggs. split_and!; [done|done| |done]. unfold fold_group. cbn [foldR]. by rewrite Eu.
    + destruct Hg as (v0 & init & aggs & Hv0 & Hinit & Hfold & Hs). rewrite Hs in Hstep. simpl in Hstep.
      destruct (update_aggs 0 agg_types row.1 aggs) as [aggs'| | |] eqn:Eu; simplify_eq/=. rewrite lookup_insert_eq.
      exists v0, init, aggs'. split_and!; [done|done| |done]. 
      exact (eq_trans (foldR_snoc _ (row0 :: rest) row init aggs Hfold) Eu).
  - rewrite decide_False by by rewrite Hkey. rewrite app_nil_r. specialize (Hg k). unfold group_state, group_of in Hg.
    assert (groups' !! k = groups !! k) as ->; [|done].
    res_inv Hstep; simplify_eq/=; by rewrite lookup_insert_ne.
Qed.

Lemma group_steps rows1 : ∀ rows groups groups', (∀ k, group_state k rows (groups !! k)) →
  foldR group_step groups rows1 = Ok groups' → ∀ k, group_state k (rows ++ rows1) (groups' !! k).
Proof.
  induction rows1 as [|row rows1 IH]; intros rows groups groups' Hg Hf; cbn [foldR] in Hf.
  { injection Hf as <-. by rewrite app_nil_r. }
  destruct (group_step groups row) as [g1| | |] eqn:E; simplify_eq/=.
  replace (rows ++ row :: rows1) with ((rows ++ [row]) ++ rows1) by by rewrite <- app_assoc.
  eapply IH; [|exact Hf]. by eapply group_step_state.
Qed.

(** ** The values of the aggregates on INTEGER columns *)

Definition ints (vs : list Value) : list Z := integer_ <$> filter (λ v, is_null_ v = false) vs.

(** [v] is the aggregate of a group of [n] rows whose values that are not null are [ns]. *)
Definition aggregate_of (t : AggregationType) (n : nat) (ns : list Z) (v : Value) : Prop :=
  match t with
  | CountStarAggregate => is_null_ v = false ∧ integer_ v = Z.of_nat n
  | CountAggregate => is_null_ v = false ∧ integer_ v = Z.of_nat (length ns)
  | SumAggregate => if decide (ns = []) then is_null_ v = true else is_null_ v = false ∧ integer_ v = foldr Z.add 0 ns
  | MinAggregate => if decide (ns = []) then is_null_ v = true
      else is_null_ v = false ∧ integer_ v ∈ ns ∧ ∀ x, x ∈ ns → integer_ v ≤ x
  | MaxAggregate => if decide (ns = []) then is_null_ v = true
      else is_null_ v = false ∧ integer_ v ∈ ns ∧ ∀ x, x ∈ ns → x ≤ integer_ v
  end.

Lemma add_integer a b v : type_id_ a = INTEGER → type_id_ b = INTEGER → Add a b = Ok v →
  type_id_ v = INTEGER ∧ is_null_ v = false ∧ integer_ v = integer_ a + integer_ b.
Proof.
  intros Ha Hb. unfold Add, same_type. rewrite Ha, Hb. simpl. unfold int_value, i32_arith.
  destruct (in_i32 _) eqn:E; [|done]. intros [= <-]. split_and!; [done|done|]. by apply integer_Value_int.
Qed.

Lemma less_integer a b : type_id_ a = INTEGER → type_id_ b = INTEGER →
  (lt ← CompareLessThan a b; GetAsBoolean lt) = Ok (integer_ a <? integer_ b).
Proof.
  intros Ha Hb. unfold CompareLessThan, same_type. rewrite Ha, Hb. simpl. by destruct (integer_ a <? integer_ b).
Qed.

Lemma less_choice {A} a b (x y : A) : type_id_ a = INTEGER → type_id_ b = INTEGER →
  (lt ← CompareLessThan a b; b ← GetAsBoolean lt; Ok (if b : bool then x else y)) = Ok (if integer_ a <? integer_ b then x else y).
Proof.
  intros Ha Hb. pose proof (less_integer a b Ha Hb) as H. destruct (CompareLessThan a b) as [c| | |]; try done. simpl in *. by rewrite H.
Qed.
Lemma ints_snoc ns w : ns ++ ints [w] = if is_null_ w then ns else ns ++ [integer_ w].
Proof. unfold ints. rewrite filter_cons, filter_nil. destruct (is_null_ w); [by rewrite app_nil_r|done]. Qed.

Lemma foldr_add_snoc ns x : foldr Z.add 0 (ns ++ [x]) = foldr Z.add 0 ns + x.
Proof. induction ns as [|y ns IH]; simpl; [lia|]. rewrite IH. lia. Qed.

Lemma update_agg_ok t arg w n ns v v' : type_id_ v = INTEGER →
  (t ≠ CountStarAggregate → arg = Ok w ∧ type_id_ w = INTEGER) → aggregate_of t n ns v → update_agg t arg v = Ok v' →
  type_id_ v' = INTEGER ∧ aggregate_of t (Datatypes.S n) (ns ++ ints [w]) v'.
Proof.
  intros Hv Harg Hagg Hu. rewrite ints_snoc.
  assert (∀ (P : Prop) m (l : list Z), ns ++ [m] = [] → P) as Hne by (intros P m l H; destruct ns; discriminate H).
  destruct t; simpl in Hu; try (destruct (Harg ltac:(done)) as [-> Hw]; cbn [mbind res_bind] in Hu; destruct (is_null_ w) eqn:Enull;
    [injection Hu as <-; done|]).
  - apply (add_integer v) in Hu as (? & ? & Hi); [|done|by rewrite Hv]. rewrite integer_Value_int in Hi by done.
    destruct Hagg as [_ Hn]. simpl. split_and!; [done|done|lia].
  - apply (add_integer v) in Hu as (? & ? & Hi); [|done|by rewrite Hv]. rewrite integer_Value_int in Hi by done.
    destruct Hagg as [_ Hn]. simpl. rewrite length_app. simpl. split_and!; [done|done|lia].
  - simpl in *. rewrite (decide_False (P := ns ++ _ = [])) by by destruct ns. rewrite foldr_add_snoc.
    destruct (decide (ns = [])) as [->|]; [rewrite Hagg in Hu; injection Hu as <-; split_and!; done|].
    destruct Hagg as [Hnull Hsum]. rewrite Hnull in Hu.
    apply (add_integer v) in Hu as (? & ? & Hi); [|done..]. split_and!; [done|done|lia].
  - simpl in *. rewrite (decide_False (P := ns ++ _ = [])) by by destruct ns.
    destruct (decide (ns = [])) as [->|].
    { rewrite Hagg in Hu. injection Hu as <-. split_and!; [done|done|set_solver|]. intros x. simpl. intros ->%list_elem_of_singleton. lia. }
    destruct Hagg as (Hnull & Hin & Hmin). rewrite Hnull in Hu. rewrite less_choice in Hu by done. injection Hu as <-.
    destruct (Z.ltb_spec (integer_ w) (integer_ v)); (split_and!; [done|done|set_solver|]);
      intros x [Hx| ->%list_elem_of_singleton]%elem_of_app; try specialize (Hmin x Hx); lia.
  - simpl in *. rewrite (decide_False (P := ns ++ _ = [])) by by destruct ns.
    destruct (decide (ns = [])) as [->|].
    { rewrite Hagg in Hu. injection Hu as <-. split_and!; [done|done|set_solver|]. intros x. simpl. intros ->%list_elem_of_singleton. lia. }
    destruct Hagg as (Hnull & Hin & Hmax). rewrite Hnull in Hu. rewrite less_choice in Hu by done. injection Hu as <-.
    destruct (Z.ltb_spec (integer_ v) (integer_ w)); (split_and!; [done|done|set_solver|]);
      intros x [Hx| ->%list_elem_of_singleton]%elem_of_app; try specialize (Hmax x Hx); lia.
Qed.

Lemma update_aggs_lookup types t : ∀ i vals vals' j ty v, update_aggs i types t vals = Ok vals' →
  types !! j = Some ty → vals !! j = Some v → ∃ v', vals' !! j = Some v' ∧ update_agg ty (agg_arg (i + j) t) v = Ok v'.
Proof.
  induction types as [|ty0 types IH]; intros i [|v0 vals] vals' j ty v Hu Ht Hv; try done. cbn [update_aggs] in Hu.
  destruct (update_agg ty0 _ v0) as [v1| | |] eqn:E1; simplify_eq/=.
  destruct (update_aggs _ types t vals) as [rest| | |] eqn:E2; simplify_eq/=. destruct j as [|j]; simpl in *; simplify_eq.
  - exists v1. by rewrite Nat.add_0_r.
  - replace (i + Datatypes.S j)%nat with (Datatypes.S i + j)%nat by lia. by apply (IH _ vals).
Qed.

(** The argument of the aggregate [j] on a row is the INTEGER [w]. *)
Definition integer_arg (j : nat) (ty : AggregationType) (row : Row) (w : Value) : Prop :=
  ty ≠ CountStarAggregate → agg_arg j row.1 = Ok w ∧ type_id_ w = INTEGER.

Lemma fold_group_ok j ty rows vs : agg_types !! j = Some ty → Forall2 (integer_arg j ty) rows vs → ∀ init aggs n ns v0,
  fold_group init rows = Ok aggs → init !! j = Some v0 → type_id_ v0 = INTEGER → aggregate_of ty n ns v0 →
  ∃ v, aggs !! j = Some v ∧ aggregate_of ty (n + length rows) (ns ++ ints vs) v.
Proof.
  intros Hty. induction 1 as [|row w rows vs Hw Hrows IH]; intros init aggs n ns v0 Hf Hj Ht Hagg; unfold fold_group in Hf; cbn [foldR] in Hf.
  { injection Hf as <-. exists v0. split; [done|]. cbn. by rewrite Nat.add_0_r, app_nil_r. }
  destruct (update_aggs 0 agg_types row.1 init) as [a1| | |] eqn:E; simplify_eq/=.
  destruct (update_aggs_lookup _ _ 0 _ _ j ty v0 E Hty Hj) as (v1 & Hv1 & Hu).
  destruct (update_agg_ok ty _ w n ns v0 v1 Ht Hw Hagg Hu) as [Ht1 Hagg1].
  destruct (IH a1 aggs _ _ v1 Hf Hv1 Ht1 Hagg1) as (v & ? & Hres). exists v. split; [done|].
  replace (n + Datatypes.S (length rows))%nat with (Datatypes.S n + length rows)%nat by lia.
  replace (ns ++ ints (w :: vs)) with ((ns ++ ints [w]) ++ ints vs); [done|].
  unfold ints. by rewrite <- app_assoc, <- fmap_app, <- filter_app.
Qed.

Lemma initial_aggs_lookup init j ty c : initial_aggs = Ok init → agg_types !! j = Some ty →
  GetColumn out_schema (u32 (Z.of_nat (length group_bys + j))) = Ok c → init !! j = Some (initial_value ty (col_type c)).
Proof.
  unfold initial_aggs. intros Hi%mapR_Forall2 Ht Hc.
  assert (zip (seq 0 (length agg_types)) agg_types !! j = Some (j, ty)) as Hz.
  { apply lookup_zip_with_Some. exists j, ty. split_and!; [done| |done]. apply lookup_seq. split; [lia|]. by apply lookup_lt_Some in Ht. }
  destruct (Forall2_lookup_l _ _ _ _ _ Hi Hz) as (v & Hv & He). simpl in He. rewrite Hc in He. simpl in He. by injection He as <-.
Qed.

(** Aggregation groups the rows by the text of their keys, and the aggregates
    of a group on INTEGER columns are the count of its rows, and the count, the
    sum, the least and the greatest of its values that are not null (NULL when
    there are none, 0 for the counts). *)
Lemma aggregation_by_groups rows groups k :
  foldR group_step ∅ rows = Ok groups →
  match group_of k rows with
  | [] => groups !! k = None
  | row :: _ => ∃ s, groups !! k = Some s ∧ group_values row.1 = Ok (group_vals s) ∧
      ∀ j ty c vs, agg_types !! j = Some ty →
        GetColumn out_schema (u32 (Z.of_nat (length group_bys + j))) = Ok c → col_type c = INTEGER →
        Forall2 (integer_arg j ty) (group_of k rows) vs →
        ∃ v, agg_vals s !! j = Some v ∧ aggregate_of ty (length (group_of k rows)) (ints vs) v
  end.
Proof.
  intros Hf. pose proof (group_steps rows [] ∅ groups) as Hg. simpl in Hg.
  assert (group_state k rows (groups !! k)) as Hk by (apply Hg; [|done]; intros k0; by rewrite lookup_empty).
  unfold group_state in Hk. destruct (group_of k rows) as [|row rest] eqn:Er; [done|].
  destruct Hk as (vals & init & aggs & Hv & Hi & Hfold & ->). exists (mkAggState vals aggs). split_and!; [done|done|].
  intros j ty c vs Hty Hc Hint Hvs. apply (fold_group_ok j ty _ vs Hty Hvs init aggs 0 [] (initial_value ty INTEGER) Hfold).
  - rewrite <- Hint. by apply initial_aggs_lookup.
  - by destruct ty.
  - by destruct ty.
Qed.
End Groups.

Definition demo_schema : Schema := Schema_new (make_columns [("k", INTEGER, 0); ("v", INTEGER, 0)]).
Definition demo_row (a b : Z) : Row := (mkTuple RID_default [] [Value_int INTEGER a; Value_int INTEGER b], Some RID_default).
Definition demo_rows : list Row := [demo_row 1 10; demo_row 2 5; demo_row 1 7].

Lemma aggregation_by_groups_witness :
  let groups := match foldR (group_step (λ _, "") (Schema_new (make_columns [("g", INTEGER, 0); ("s", INTEGER, 0)])) demo_schema
      [ColumnValueExpression 0 0 INTEGER] [ColumnValueExpression 0 1 INTEGER] [SumAggregate]) ∅ demo_rows with Ok g => g | _ => ∅ end in
  match groups !! "1" with
  | Some s => ∃ v, agg_vals s !! 0%nat = Some v ∧ aggregate_of SumAggregate 2 [10; 7] v
  | None => False
  end.
Proof.
  intros groups.
  pose proof (aggregation_by_groups (λ _, "") (Schema_new (make_columns [("g", INTEGER, 0); ("s", INTEGER, 0)])) demo_schema
    [ColumnValueExpression 0 0 INTEGER] [ColumnValueExpression 0 1 INTEGER] [SumAggregate] demo_rows groups "1") as H.
  assert (∃ c, GetColumn (Schema_new (make_columns [("g", INTEGER, 0); ("s", INTEGER, 0)])) (u32 1) = Ok c ∧ col_type c = INTEGER)
    as (c & Hc & Ht) by (eexists; split; vm_compute; reflexivity).
  destruct H as (s & Hs & _ & Hagg); [vm_compute; reflexivity|]. rewrite Hs.
  destruct (Hagg 0%nat SumAggregate c [Value_int INTEGER 10; Value_int INTEGER 7] eq_refl Hc Ht) as (v & Hv & Hv2).
  - repeat constructor.
  - exists v. split; [exact Hv|exact Hv2].
Defined.

(** ** The executor *)

Section Aggregate.
Context {S : Type} `{PIO : !PageIO bytes S} `{!HashOrder} (fuel : nat) (fmt_2f : Z → string).
Abbreviation M A := (ST (DB S) A).
Implicit Types (g : Store bytes * Catalog).
Context {C : Type} `{!AbstractExecutor (S := S) C}.

Record AggregationExecutor := mkAggregation {
  a_schema : Schema;
  group_bys_ : list AbstractExpression;
  aggregates_ : list AbstractExpression;
  agg_types_ : list AggregationType;
  a_child : C;
  results : list Tuple;
  cursor : nat
}.

Definition Aggregation_Init (e : AggregationExecutor) : M AggregationExecutor :=
  child ← Init (a_child e);
  let step := group_step fmt_2f (a_schema e) (GetOutputSchema child) (group_bys_ e) (aggregates_ e) (agg_types_ e) in
  '(groups, child) ← fold_next fuel (λ m r, st_lift (step m r)) child ∅;
  ts ← st_lift (materialize (a_schema e) (group_bys_ e) (agg_types_ e) groups);
  mret (mkAggregation (a_schema e) (group_bys_ e) (aggregates_ e) (agg_types_ e) child ts 0).

Definition Aggregation_Next (e : AggregationExecutor) : M (option Row * AggregationExecutor) :=
  match results e !! cursor e with
  | None => mret (None, e)
  | Some t => mret (Some (t, Some RID_default),
      mkAggregation (a_schema e) (group_bys_ e) (aggregates_ e) (agg_types_ e) (a_child e) (results e) (Datatypes.S (cursor e)))
  end.

#[global] Instance aggregation_executor : AbstractExecutor (S := S) AggregationExecutor := {
  Init := Aggregation_Init; Next := Aggregation_Next; GetOutputSchema := a_schema
}.

Lemma aggregation_produces g schema group_bys aggs types (child : C) ts0 n0 rows out :
  produces g child rows → (length rows < fuel)%nat →
  agg_rows fmt_2f schema (GetOutputSchema child) group_bys aggs types rows = Ok out →
  produces g (mkAggregation schema group_bys aggs types child ts0 n0) out.
Proof.
  intros (I & HI & Hprod) Hlen Hout. unfold agg_rows in Hout.
  destruct (foldR _ ∅ rows) as [groups| | |] eqn:Ef; simplify_eq/=.
  destruct (materialize schema group_bys types groups) as [ts| | |] eqn:Em; simplify_eq/=.
  exists (λ e, a_schema e = schema ∧ group_bys_ e = group_bys ∧ aggregates_ e = aggs ∧ agg_types_ e = types ∧ I (a_child e)).
  split; [done|]. intros [s gb ag ty ch ts1 n] (H1 & H2 & H3 & H4 & HIc). simpl in *. subst s gb ag ty. split; [done|].
  destruct (Hprod ch HIc) as (_ & ch' & Hinit & HI' & Hy).
  destruct (fold_next_ok g I _ rows fuel ch' ∅ groups Hy Hlen Ef) as (ch2 & HI2 & Hfold).
  exists (mkAggregation schema group_bys aggs types ch2 ts 0). split.
  { eapply computes_bind; [exact Hinit|]. cbv zeta. rewrite (proj1 (Hprod ch' HI')).
    eapply computes_bind; [exact Hfold|]. cbn beta iota. eapply computes_bind; [by apply computes_lift|]. apply computes_ret. }
  split; [done|]. apply (yields_results g _ _ (mkAggregation schema group_bys aggs types ch2 ts)); [done| |].
  - intros n' row Hn. rewrite list_lookup_fmap_Some in Hn. destruct Hn as (t & -> & Ht). unfold Next, aggregation_executor, Aggregation_Next. simpl. rewrite Ht. apply computes_ret.
  - intros n' Hn. rewrite length_fmap in Hn. unfold Next, aggregation_executor, Aggregation_Next. simpl. rewrite (proj2 (lookup_ge_None _ _)) by lia. apply computes_ret.
Qed.
End Aggregate.

(** Different keys with one text: the values a|b, c and a, b|c. *)
Lemma keys_with_bars_collide (fmt_2f : Z → string) :
  group_key fmt_2f (Value_string VARCHAR <$> ["a|b"; "c"]) = group_key fmt_2f (Value_string VARCHAR <$> ["a"; "b|c"]).
Proof. reflexivity. Qed.
