(* ===== verification/Dml.v ===== *)
(** * Insert, delete and update

    [insert_executor.cpp], [delete_executor.cpp] and [update_executor.cpp]
    (src/src/execution/executors/): the executors that change a table, each over
    any implementation of the executor interface for its child.  None of them
    touches an index. *)

From S2P Require Import Prelude Common Value Tuple Expression PageStore PageIO PageLogic TablePage TableHeap Catalog Executor Operators.

Section Dml.
Context {S : Type} `{PIO : !PageIO bytes S} (fuel pages : nat).
Abbreviation M A := (ST (DB S) A).

(** [plan_->GetTableOid()] is looked up in the catalog; a null [table_info] is
    dereferenced at once. *)
Definition table_of (oid : Z) : M TableInfo :=
  c ← get_catalog; match GetTableByOid oid c with Some t => mret t | None => st_ub end.

(** The row that tells how many rows were affected. *)
Definition count_row (count : Z) : res Row := t ← Tuple_new [Value_int INTEGER count]; Ok (t, Some RID_default).

Lemma count_row_ok count : ∃ row, count_row count = Ok row.
Proof.
  unfold count_row. rewrite Tuple_new_ok; [by eexists|].
  repeat constructor; simpl; unfold u32; by apply Z.mod_pos_bound.
Qed.

Section Child.
Context {C : Type} `{!AbstractExecutor (S := S) C}.

(** ** Insert *)

Record InsertExecutor := mkInsert { in_schema : Schema; in_table_oid : Z; in_child : C; has_inserted_ : bool }.

Definition Insert_Init (e : InsertExecutor) : M InsertExecutor :=
  child ← Init (in_child e); mret (mkInsert (in_schema e) (in_table_oid e) child false).

(** [count++] past [INT_MAX] is undefined. *)
Definition insert_row (table : TableInfo) (count : Z) (row : Row) : M Z :=
  new_rid ← on_heap (InsertTuple pages (table_ table) row.1);
  match new_rid with None => mret count | Some _ => st_lift (i32_arith (count + 1)) end.

Definition Insert_Next (e : InsertExecutor) : M (option Row * InsertExecutor) :=
  if has_inserted_ e then mret (None, e)
  else
    table ← table_of (in_table_oid e);
    '(count, child) ← fold_next fuel (insert_row table) (in_child e) 0;
    row ← st_lift (count_row count);
    mret (Some row, mkInsert (in_schema e) (in_table_oid e) child true).

#[global] Instance insert_executor : AbstractExecutor (S := S) InsertExecutor := {
  Init := Insert_Init; Next := Insert_Next; GetOutputSchema := in_schema
}.

(** ** Delete

    [child_rid] lives across the turns of the loop: a child that does not write it
    leaves the record id of the row before. *)

Record DeleteExecutor := mkDelete { de_schema : Schema; de_table_oid : Z; de_child : C; has_deleted_ : bool }.

Definition Delete_Init (e : DeleteExecutor) : M DeleteExecutor :=
  child ← Init (de_child e); mret (mkDelete (de_schema e) (de_table_oid e) child false).

Definition delete_row (acc : Z * RID) (row : Row) : M (Z * RID) :=
  let child_rid := default acc.2 row.2 in
  on_heap (DeleteTuple child_rid);;
  count ← st_lift (i32_arith (acc.1 + 1));
  mret (count, child_rid).

Definition Delete_Next (e : DeleteExecutor) : M (option Row * DeleteExecutor) :=
  if has_deleted_ e then mret (None, e)
  else
    table ← table_of (de_table_oid e);
    '(acc, child) ← fold_next fuel delete_row (de_child e) (0, RID_default);
    row ← st_lift (count_row acc.1);
    mret (Some row, mkDelete (de_schema e) (de_table_oid e) child true).

#[global] Instance delete_executor : AbstractExecutor (S := S) DeleteExecutor := {
  Init := Delete_Init; Next := Delete_Next; GetOutputSchema := de_schema
}.

(** ** Update *)

Record UpdateExecutor := mkUpdate {
  up_schema : Schema; up_table_oid : Z; update_exprs_ : list AbstractExpression; up_child : C; has_updated_ : bool
}.

Definition Update_Init (e : UpdateExecutor) : M UpdateExecutor :=
  child ← Init (up_child e); mret (mkUpdate (up_schema e) (up_table_oid e) (update_exprs_ e) child false).

(** What [UpdateTuple] answers is not looked at. *)
Definition update_row (table : TableInfo) (exprs : list AbstractExpression) (acc : Z * RID) (row : Row) : M (Z * RID) :=
  let old_rid := default acc.2 row.2 in
  new_values ← st_lift (mapR (λ e, Evaluate e (Some row.1) (t_schema_ table)) exprs);
  new_tuple ← st_lift (Tuple_new new_values);
  on_heap (UpdateTuple old_rid new_tuple);;
  count ← st_lift (i32_arith (acc.1 + 1));
  mret (count, old_rid).

Definition Update_Next (e : UpdateExecutor) : M (option Row * UpdateExecutor) :=
  if has_updated_ e then mret (None, e)
  else
    table ← table_of (up_table_oid e);
    '(acc, child) ← fold_next fuel (update_row table (update_exprs_ e)) (up_child e) (0, RID_default);
    row ← st_lift (count_row acc.1);
    mret (Some row, mkUpdate (up_schema e) (up_table_oid e) (update_exprs_ e) child true).

#[global] Instance update_executor : AbstractExecutor (S := S) UpdateExecutor := {
  Init := Update_Init; Next := Update_Next; GetOutputSchema := up_schema
}.
End Child.

(** The rows the predicate selects. *)
Definition selected (schema : Schema) (p : option AbstractExpression) (e : RID * bytes) : bool :=
  match predicate_holds p (mkTuple e.1 e.2 []) schema with Ok b => b | _ => false end.

Lemma scan_row_selected schema p e o : scan_row schema p e = Ok o → selected schema p e = bool_decide (is_Some o).
Proof.
  unfold scan_row, selected. destruct (predicate_holds p _ schema) as [[]| | |]; try done; simpl.
  - intros H. res_inv H. by simplify_eq.
  - by intros [= <-].
Qed.

End Dml.

(** For the demos: column 0 is [z]. *)
Definition int_is (z : Z) : AbstractExpression :=
  ComparisonExpression (ColumnValueExpression 0 0 INTEGER) (ConstantValueExpression (Value_int INTEGER z)) Equal.
