(* ===== verification/OrderBy.v ===== *)
(** * ORDER BY

    The comparator of [sort_executor.cpp] on INTEGER and VARCHAR keys is the
    lexicographic order of the keys, a strict weak ordering, so that [std::sort]
    keeps its contract and the rows come out sorted. *)

From Stdlib Require Import Sorting.Sorted.
From S2P Require Import Prelude Common Value Tuple Expression PageStore PageIO PageLogic TableHeap Catalog Executor Operators.

(** ** Three-way comparisons *)

Record three_way {A} (c : A → A → comparison) : Prop := {
  tw_sym x y : c y x = CompOpp (c x y);
  tw_trans x y z : c x y = Lt → c y z = Lt → c x z = Lt;
  tw_eq x y z : c x y = Eq → c x z = c y z
}.

Lemma tw_refl {A} (c : A → A → comparison) x : three_way c → c x x = Eq.
Proof. intros H. pose proof (tw_sym c H x x) as E. by destruct (c x x). Qed.

Lemma tw_strict_weak {A} (c : A → A → comparison) l : three_way c → strict_weak (λ x y, is_lt (c x y)) l.
Proof.
  intros H. split.
  - intros x _. by rewrite tw_refl.
  - intros x y z _ _ _. destruct (c x y) eqn:E1, (c y z) eqn:E2; try done. intros _ _. by rewrite (tw_trans c H x y z).
  - intros x y z _ _ _. rewrite !(tw_sym c H x y), !(tw_sym c H y z), (tw_sym c H x z).
    destruct (c x y) eqn:E1; try done. rewrite (tw_eq c H x y z E1). by destruct (c y z).
Qed.

(** First by [c1], then by [c2]. *)
Definition then_by {A} (c1 c2 : A → A → comparison) (x y : A) : comparison :=
  match c1 x y with Eq => c2 x y | r => r end.
Definition reversed {A} (c : A → A → comparison) (x y : A) : comparison := CompOpp (c x y).

Lemma tw_then_by {A} (c1 c2 : A → A → comparison) : three_way c1 → three_way c2 → three_way (then_by c1 c2).
Proof.
  intros H1 H2. split; unfold then_by.
  - intros x y. rewrite (tw_sym c1 H1 x y). destruct (c1 x y); [apply H2|done..].
  - intros x y z. destruct (c1 x y) eqn:E1; try done.
    + rewrite (tw_eq c1 H1 x y z E1). destruct (c1 y z); [apply H2|done..].
    + intros _. destruct (c1 y z) eqn:E2; try done; intros _; [|by rewrite (tw_trans c1 H1 x y z)].
      rewrite (tw_sym c1 H1 z x), (tw_eq c1 H1 z y x), (tw_sym c1 H1 x y), E1; [done|]. by rewrite (tw_sym c1 H1 y z), E2.
  - intros x y z. destruct (c1 x y) eqn:E1; try done. intros E2. rewrite (tw_eq c1 H1 x y z E1).
    destruct (c1 y z); [by apply H2|done..].
Qed.

Lemma tw_reversed {A} (c : A → A → comparison) : three_way c → three_way (reversed c).
Proof.
  intros H. unfold reversed. split.
  - intros x y. by rewrite (tw_sym c H x y).
  - intros x y z E1 E2. rewrite (tw_sym c H z x), CompOpp_involutive. apply (tw_trans c H z y x);
      rewrite (tw_sym c H); [by destruct (c y z)|by destruct (c x y)].
  - intros x y z E. rewrite (tw_eq c H x y z); [done|]. by destruct (c x y).
Qed.

Lemma tw_on {A B} (f : A → B) (c : B → B → comparison) : three_way c → three_way (λ x y, c (f x) (f y)).
Proof. intros H. split; intros *; [apply H|by apply H|apply H]. Qed.

Lemma tw_equal {A} : three_way (λ _ _ : A, Eq).
Proof. by split. Qed.

Lemma tw_Z : three_way Z.compare.
Proof.
  split.
  - intros x y. apply Z.compare_antisym.
  - intros x y z. rewrite !Z.compare_lt_iff. lia.
  - by intros x y z ->%Z.compare_eq.
Qed.

Lemma ascii_compare_N a b : Ascii.compare a b = N.compare (Ascii.N_of_ascii a) (Ascii.N_of_ascii b).
Proof. done. Qed.

Lemma tw_string : three_way String.compare.
Proof.
  split.
  - intros x y. apply String.compare_antisym.
  - induction x as [|a x IH]; intros [|b y] [|d z]; simpl; try done.
    rewrite !ascii_compare_N. destruct (N.compare_spec (Ascii.N_of_ascii a) (Ascii.N_of_ascii b)) as [E1|E1|E1]; try done;
      destruct (N.compare_spec (Ascii.N_of_ascii b) (Ascii.N_of_ascii d)) as [E2|E2|E2]; try done; intros H1 H2;
      destruct (N.compare_spec (Ascii.N_of_ascii a) (Ascii.N_of_ascii d)) as [E3|E3|E3]; try done; try lia.
    by apply (IH y).
  - intros x y z H. by apply String.compare_eq_iff in H as ->.
Qed.

(** ** The comparator *)

(** The types a key can have. *)
Definition sortable (t : TypeId) : Prop := t = INTEGER ∨ t = VARCHAR.
Definition compare_as (t : TypeId) (a b : Value) : comparison :=
  match t with INTEGER => integer_ a ?= integer_ b | _ => String.compare (varchar_ a) (varchar_ b) end.

Lemma tw_compare_as t : three_way (compare_as t).
Proof. unfold compare_as. destruct t; first [apply (tw_on integer_), tw_Z|apply (tw_on varchar_), tw_string]. Qed.

Lemma compare_as_ok t a b : sortable t → type_id_ a = t → type_id_ b = t →
  CompareEquals a b = bool_value (is_eq (compare_as t a b)) ∧ CompareLessThan a b = bool_value (is_lt (compare_as t a b)) ∧
  CompareGreaterThan a b = bool_value (is_gt (compare_as t a b)).
Proof.
  intros Ht Ha Hb. unfold CompareEquals, CompareLessThan, CompareGreaterThan, same_type. rewrite Ha, Hb, bool_decide_true by done.
  destruct Ht as [->| ->]; simpl.
  - unfold Z.ltb, Z.gtb. rewrite Z.eqb_compare. by destruct (integer_ a ?= integer_ b).
  - unfold String.ltb. rewrite string_eqb_compare, (String.compare_antisym (varchar_ a)).
    by destruct (String.compare (varchar_ b) (varchar_ a)).
Qed.

(** The value of a key, and the order the keys give. *)
Definition key_of (schema : Schema) (e : AbstractExpression) (t : Tuple) : Value :=
  match Evaluate e (Some t) schema with Ok v => v | _ => Value_default end.

Fixpoint order (schema : Schema) (order_bys : list (bool * AbstractExpression)) (types : list TypeId) : Tuple → Tuple → comparison :=
  match order_bys, types with
  | (is_ascending, e) :: order_bys, t :: types =>
      let c := λ x y, compare_as t (key_of schema e x) (key_of schema e y) in
      then_by (if is_ascending : bool then c else reversed c) (order schema order_bys types)
  | _, _ => λ _ _, Eq
  end.

Lemma tw_order schema order_bys : ∀ types, three_way (order schema order_bys types).
Proof.
  induction order_bys as [|[asc e] obs IH]; intros [|t types]; simpl; try apply tw_equal.
  apply tw_then_by; [|apply IH]. destruct asc; [|apply tw_reversed]; apply (tw_on (key_of schema e)), tw_compare_as.
Qed.

(** Every key of every tuple evaluates to a value of its type. *)
Definition keys_typed (schema : Schema) (order_bys : list (bool * AbstractExpression)) (types : list TypeId) (tuples : list Tuple) : Prop :=
  Forall2 (λ ob t, sortable t ∧ ∀ x, x ∈ tuples → ∃ v, Evaluate ob.2 (Some x) schema = Ok v ∧ type_id_ v = t) order_bys types.

Lemma sort_less_order schema order_bys types tuples : keys_typed schema order_bys types tuples → ∀ x y, x ∈ tuples → y ∈ tuples →
  sort_less schema order_bys x y = Ok (is_lt (order schema order_bys types x y)).
Proof.
  induction 1 as [|[asc e] t obs types [Ht Hk] Hrest IH]; intros x y Hx Hy; [done|]. simpl in Hk.
  destruct (Hk x Hx) as (vx & Ex & Tx), (Hk y Hy) as (vy & Ey & Ty).
  destruct (compare_as_ok t vx vy Ht Tx Ty) as (Heq & Hlt & Hgt).
  cbn [sort_less order]. rewrite Ex, Ey. unfold then_by, reversed.
  destruct asc; cbv beta zeta; unfold key_of at 1 2; rewrite Ex, Ey; simpl; rewrite Heq, ?Hlt, ?Hgt; unfold bool_value; simpl;
    (destruct (compare_as t vx vy); simpl; [by apply IH|done..]).
Qed.

(** The contract of [std::sort], on keys that are typed. *)
Lemma std_sort_sorts `{!StdSort} schema order_bys types tuples : keys_typed schema order_bys types tuples →
  ∃ sorted, std_sort (sort_less schema order_bys) tuples = Ok sorted ∧ sorted ≡ₚ tuples ∧
    StronglySorted (λ x y, order schema order_bys types x y ≠ Gt) sorted.
Proof.
  intros Hkeys. pose proof (tw_order schema order_bys types) as Htw.
  destruct (std_sort_ok (sort_less schema order_bys) (λ x y, is_lt (order schema order_bys types x y)) tuples)
    as (sorted & Hs & Hperm & Hsorted).
  - intros x y Hx Hy. by apply (sort_less_order _ _ types tuples).
  - by apply tw_strict_weak.
  - exists sorted. split; [done|]. split; [done|].
    eapply StronglySorted_ind with (P := StronglySorted _); [constructor|..|exact Hsorted].
    intros x l Hl IH Hx. constructor; [done|]. eapply Forall_impl; [exact Hx|].
    intros y Hy. simpl in Hy. rewrite (tw_sym _ Htw x y) in Hy. by destruct (order _ _ _ x y).
Qed.

Section OrderBy.
Context {S : Type} `{PIO : !PageIO bytes S} (fuel : nat) `{!StdSort}.
Context {C : Type} `{!AbstractExecutor (S := S) C}.

(** C23: ORDER BY sorts.  When the keys are INTEGER or VARCHAR columns, the sort
    executor terminates and produces a permutation of the rows of its child in
    which no row comes before a smaller one, by the first key, then by the second,
    and so on, each in its direction. *)
Theorem order_by_sorts g schema order_bys types (child : C) ts0 n0 rows :
  produces g child rows → (length rows < fuel)%nat →
  keys_typed (GetOutputSchema child) order_bys types rows.*1 →
  ∃ sorted, sorted ≡ₚ rows.*1 ∧
    StronglySorted (λ x y, order (GetOutputSchema child) order_bys types x y ≠ Gt) sorted ∧
    (let _ := sort_executor fuel C in produces g (mkSort C schema order_bys child ts0 n0) ((λ t, (t, None)) <$> sorted)).
Proof.
  intros Hprod Hlen Hkeys. destruct (std_sort_sorts _ _ _ _ Hkeys) as (sorted & Hs & Hperm & Hsorted).
  exists sorted. do 2 (split; [done|]). by apply (sort_produces fuel g schema order_bys child ts0 n0 rows).
Qed.
End OrderBy.

(** ** Insertion sort keeps the contract of [std::sort] *)

Fixpoint insert_sorted {A} (comp : A → A → res bool) (x : A) (l : list A) : res (list A) :=
  match l with
  | [] => Ok [x]
  | y :: l => b ← comp y x; if b : bool then rest ← insert_sorted comp x l; Ok (y :: rest) else Ok (x :: y :: l)
  end.
Fixpoint insertion_sort {A} (comp : A → A → res bool) (l : list A) : res (list A) :=
  match l with [] => Ok [] | x :: l => sorted ← insertion_sort comp l; insert_sorted comp x sorted end.

Section InsertionSort.
Context {A : Type} (comp : A → A → res bool) (lt : A → A → bool) (all : list A).
Context (Hcomp : ∀ x y, x ∈ all → y ∈ all → comp x y = Ok (lt x y)) (Hlt : strict_weak lt all).
Abbreviation not_after := (λ x y, lt y x = false).

Lemma not_after_lt x y z : x ∈ all → y ∈ all → z ∈ all → not_after x y → not_after y z → not_after x z.
Proof.
  intros Hx Hy Hz H1 H2. cbv beta in *. destruct (lt z x) eqn:E; [|done].
  destruct (lt x y) eqn:E1; [by rewrite (sw_trans _ _ Hlt z x y) in H2|].
  destruct (lt y z) eqn:E2; [by rewrite (sw_trans _ _ Hlt y z x) in H1|].
  destruct (sw_equiv _ _ Hlt x y z Hx Hy Hz E1 H1 E2 H2). congruence.
Qed.

Lemma insert_sorted_ok x l : x ∈ all → (∀ y, y ∈ l → y ∈ all) → StronglySorted not_after l →
  ∃ l', insert_sorted comp x l = Ok l' ∧ l' ≡ₚ x :: l ∧ StronglySorted not_after l'.
Proof.
  intros Hx. induction l as [|y l IH]; intros Hl Hs; cbn [insert_sorted].
  { exists [x]. split; [done|]. split; [done|]. repeat constructor. }
  inversion Hs as [|? ? Hs' Hy]; subst. assert (y ∈ all) as Hya by (apply Hl; set_solver).
  rewrite Hcomp by done. simpl. destruct (lt y x) eqn:E.
  - destruct IH as (l' & -> & Hp & Hs2); [set_solver|done|]. exists (y :: l'). split; [done|]. split; [rewrite Hp; constructor|].
    constructor; [done|]. apply Forall_forall. intros z Hz. rewrite Hp in Hz. apply elem_of_cons in Hz as [->|Hz].
    + destruct (lt x y) eqn:E2; [|done]. pose proof (sw_trans _ _ Hlt x y x Hx Hya Hx E2 E). by rewrite (sw_irrefl _ _ Hlt) in H by done.
    + by apply (proj1 (Forall_forall _ _) Hy).
  - exists (x :: y :: l). split; [done|]. split; [done|]. constructor; [done|]. constructor; [done|].
    apply Forall_forall. intros z Hz. apply (not_after_lt x y z); [done|done|set_solver|done|].
    by apply (proj1 (Forall_forall _ _) Hy).
Qed.

Lemma insertion_sort_ok l : (∀ y, y ∈ l → y ∈ all) →
  ∃ l', insertion_sort comp l = Ok l' ∧ l' ≡ₚ l ∧ StronglySorted not_after l'.
Proof.
  induction l as [|x l IH]; intros Hl; [exists []; split; [done|]; split; [done|constructor]|].
  destruct IH as (l1 & H1 & Hp1 & Hs1); [set_solver|]. cbn [insertion_sort]. rewrite H1. simpl.
  destruct (insert_sorted_ok x l1) as (l' & -> & Hp & Hs); [set_solver| |done|].
  - intros y Hy. apply Hl. rewrite Hp1 in Hy. set_solver.
  - exists l'. split; [done|]. split; [|done]. by rewrite Hp, Hp1.
Qed.
End InsertionSort.

Definition insertion_std_sort : StdSort := {|
  std_sort := @insertion_sort;
  std_sort_ok A comp lt l Hcomp Hlt := insertion_sort_ok comp lt l Hcomp Hlt l (λ y Hy, Hy)
|}.

(** ** Witness: the demo table ordered by its column, descending *)

Definition int_scan : SeqScanExecutor := mkSeqScan int_schema 1 None None End.
Definition all_int_rows : list Row := match scan_rows int_schema None (live int_heap) with Ok rows => rows | _ => [] end.
Definition by_column : list (bool * AbstractExpression) := [(false, ColumnValueExpression 0 0 INTEGER)].

Lemma int_scan_produces : produces (PIO := demo_io) (AbstractExecutor0 := seq_scan_executor (PIO := demo_io) 5 2)
  (idle int_pages 1, int_catalog) int_scan all_int_rows.
Proof.
  apply (seq_scan_produces (PIO := demo_io) 5 2 int_pages 1 int_catalog int_table int_heap);
    [vm_compute; discriminate|exact int_heap_ok|simpl; lia|reflexivity|simpl; lia|vm_compute; reflexivity].
Qed.

Lemma int_keys_typed : keys_typed int_schema by_column [INTEGER] all_int_rows.*1.
Proof.
  apply Forall2_cons. split; [|constructor]. split; [by left|]. intros x Hx.
  assert (forallb (λ x, match Evaluate (ColumnValueExpression 0 0 INTEGER) (Some x) int_schema with
    | Ok v => has_type INTEGER v | _ => false end) all_int_rows.*1 = true) as H by (vm_compute; reflexivity).
  rewrite forallb_forall in H. specialize (H x (proj1 (list_elem_of_In _ _) Hx)). 
  destruct (Evaluate _ (Some x) int_schema) as [v| | |]; [|discriminate H..]. exists v. split; [done|]. by apply bool_decide_eq_true in H.
Qed.

Lemma order_by_sorts_witness :
  ∃ sorted, sorted ≡ₚ all_int_rows.*1 ∧
    StronglySorted (λ x y, order int_schema by_column [INTEGER] x y ≠ Gt) sorted ∧ length sorted = 3%nat.
Proof.
  destruct (order_by_sorts (PIO := demo_io) 5 (H := insertion_std_sort) (AbstractExecutor0 := seq_scan_executor (PIO := demo_io) 5 2)
    (idle int_pages 1, int_catalog) int_schema by_column [INTEGER] int_scan [] 0 all_int_rows int_scan_produces) as (sorted & Hp & Hs & _).
  - vm_compute. lia.
  - exact int_keys_typed.
  - exists sorted. split; [exact Hp|]. split; [exact Hs|]. rewrite Hp. vm_compute. reflexivity.
Defined.
