(* ===== verification/Utility.v ===== *)
(** * The utility executor

    [utility_executor.cpp] (src/src/execution/executors/): CREATE INDEX, DROP INDEX,
    SHOW TABLES, SHOW INDEXES and SHOW SCHEMA on the catalog. *)

From Stdlib Require Import Sorting.Sorted.
From S2P Require Import Prelude Common Value Tuple Expression PageStore PageIO PageLogic TablePage TableHeap Catalog Executor Operators OrderBy.

Inductive UtilityType := CREATE_INDEX | DROP_INDEX | SHOW_TABLES | SHOW_INDEXES | SHOW_SCHEMA.

(** [JoinStrings] is [joined] with its arguments swapped. *)
Definition JoinStrings (parts : list string) (separator : string) : string := joined separator parts.

Definition MakeCommandRow (tag : string) : res Tuple := Tuple_new [Value_string VARCHAR tag].
Definition MakeTableRow (values : list string) : res Tuple := Tuple_new (Value_string VARCHAR <$> values).

Section Utility.
Context {S : Type} `{PIO : !PageIO bytes S} {HO : HashOrder} {SS : StdSort} (fuel pages : nat).
Abbreviation M A := (ST (DB S) A).

Record UtilityExecutor := mkUtility {
  ut_schema : Schema;
  utility_type_ : UtilityType;
  ut_table_name : string;
  ut_index_name : string;
  ut_key_attrs : list Z;
  object_names_ : list string;
  missing_ok_ : bool;
  result_rows_ : list Tuple;
  ut_cursor : nat
}.

(** *** DROP INDEX: the table an index name belongs to, empty when there is none. *)
Fixpoint matched_table (index_name : string) (tables : list TableInfo) (matched : string) (c : Catalog) : res string :=
  match tables with
  | [] => Ok matched
  | t :: tables =>
      i ← GetIndex index_name (t_name_ t) c;
      match i with
      | None => matched_table index_name tables matched c
      | Some _ =>
          if bool_decide (matched = "") then matched_table index_name tables (t_name_ t) c
          else Throw (RuntimeError ("Ambiguous index name: " +:+ index_name))
      end
  end.

Fixpoint drop_indexes (names : list string) (missing_ok removed_any : bool) : M bool :=
  match names with
  | [] => mret removed_any
  | index_name :: names =>
      c ← get_catalog;
      matched ← st_lift (matched_table index_name (GetAllTables c) "" c);
      if bool_decide (matched = "") then
        if missing_ok then drop_indexes names missing_ok removed_any
        else st_throw (RuntimeError ("Index not found: " +:+ index_name))
      else
        let '(removed, c) := DropIndex index_name matched c in
        set_cat c;;
        drop_indexes names missing_ok (removed || removed_any)
  end.

(** *** The comparators of the two listings *)
Definition table_less (lhs rhs : TableInfo) : bool := String.ltb (t_name_ lhs) (t_name_ rhs).
Definition index_less (lhs rhs : IndexInfo) : bool :=
  if bool_decide (i_name_ lhs ≠ i_name_ rhs) then String.ltb (i_name_ lhs) (i_name_ rhs)
  else if bool_decide (table_name_ lhs ≠ table_name_ rhs) then String.ltb (table_name_ lhs) (table_name_ rhs)
  else i_oid_ lhs <? i_oid_ rhs.

Definition show_tables (c : Catalog) : res (list Tuple) :=
  tables ← std_sort (λ x y, Ok (table_less x y)) (GetAllTables c);
  mapR (λ t : TableInfo, MakeTableRow [t_name_ t]) tables.

Definition index_row (i : IndexInfo) : res Tuple :=
  MakeTableRow [i_name_ i; table_name_ i; JoinStrings (col_name <$> columns_ (key_schema_ i)) ","].
Definition show_indexes (c : Catalog) : res (list Tuple) :=
  indexes ← std_sort (λ x y, Ok (index_less x y)) (GetAllIndexes c); mapR index_row indexes.

Definition column_row (schema : Schema) (i : nat) : res Tuple :=
  col ← GetColumn schema (Z.of_nat i); MakeTableRow [col_name col; Column_ToString col].
Definition show_schema (table_name : string) (c : Catalog) : res (list Tuple) :=
  t ← GetTable table_name c;
  match t with
  | None => Throw (RuntimeError ("Table not found: " +:+ table_name))
  | Some t => mapR (column_row (t_schema_ t)) (seq 0 (Z.to_nat (GetColumnCount (t_schema_ t))))
  end.

Definition utility_rows (e : UtilityExecutor) : M (list Tuple) :=
  match utility_type_ e with
  | CREATE_INDEX =>
      index_info ← CreateIndex fuel pages (ut_index_name e) (ut_table_name e) (ut_key_attrs e);
      match index_info with
      | None => st_throw (RuntimeError ("Failed to create index: " +:+ ut_index_name e))
      | Some _ => t ← st_lift (MakeCommandRow ("CREATE INDEX " +:+ ut_index_name e)); mret [t]
      end
  | DROP_INDEX =>
      removed_any ← drop_indexes (object_names_ e) (missing_ok_ e) false;
      t ← st_lift (MakeCommandRow (if removed_any : bool then "DROP INDEX" else "DROP INDEX (0 rows)"));
      mret [t]
  | SHOW_TABLES => c ← get_catalog; st_lift (show_tables c)
  | SHOW_INDEXES => c ← get_catalog; st_lift (show_indexes c)
  | SHOW_SCHEMA => c ← get_catalog; st_lift (show_schema (ut_table_name e) c)
  end.

Definition with_rows (rows : list Tuple) (cursor : nat) (e : UtilityExecutor) : UtilityExecutor :=
  mkUtility (ut_schema e) (utility_type_ e) (ut_table_name e) (ut_index_name e) (ut_key_attrs e) (object_names_ e) (missing_ok_ e) rows cursor.

Definition Utility_Init (e : UtilityExecutor) : M UtilityExecutor := rows ← utility_rows e; mret (with_rows rows 0 e).

Definition Utility_Next (e : UtilityExecutor) : M (option Row * UtilityExecutor) :=
  match result_rows_ e !! ut_cursor e with
  | None => mret (None, e)
  | Some t => mret (Some (t, Some RID_default), with_rows (result_rows_ e) (Datatypes.S (ut_cursor e)) e)
  end.

#[global] Instance utility_executor : AbstractExecutor (S := S) UtilityExecutor := {
  Init := Utility_Init; Next := Utility_Next; GetOutputSchema := ut_schema
}.

Implicit Types (g : Store bytes * Catalog).

(** A utility that leaves the database as it is gives its rows. *)
Lemma utility_produces g (e : UtilityExecutor) ts :
  (∀ e', utility_type_ e' = utility_type_ e → ut_table_name e' = ut_table_name e → computes g (utility_rows e') ts) →
  produces g e ((λ t, (t, Some RID_default)) <$> ts).
Proof.
  intros Hrows. exists (λ e', utility_type_ e' = utility_type_ e ∧ ut_table_name e' = ut_table_name e ∧ ut_schema e' = ut_schema e).
  split; [done|]. intros e' (H1 & H2 & H3). split; [done|]. exists (with_rows ts 0 e'). split; [|split; [done|]].
  - eapply computes_bind; [by apply Hrows|]. apply computes_ret.
  - apply (yields_results g _ _ (λ n, with_rows ts n e')); [done| |].
    + intros n row Hn. rewrite list_lookup_fmap_Some in Hn. destruct Hn as (t & -> & Ht).
      unfold Next, utility_executor, Utility_Next. simpl. rewrite Ht. apply computes_ret.
    + intros n Hn. rewrite length_fmap in Hn. unfold Next, utility_executor, Utility_Next. simpl.
      rewrite (proj2 (lookup_ge_None _ _)) by lia. apply computes_ret.
Qed.

Lemma table_less_compare x y : table_less x y = is_lt (String.compare (t_name_ x) (t_name_ y)).
Proof. unfold table_less, String.ltb. by destruct (String.compare _ _). Qed.

Lemma MakeTableRow_ok values : Forall (λ s, Z.of_nat (String.length s) < 2 ^ 32 - 4) values →
  MakeTableRow values = Ok (mkTuple RID_default ((Value_string VARCHAR <$> values) ≫= serialized) (Value_string VARCHAR <$> values)).
Proof. intros Hv. apply Tuple_new_ok. apply Forall_fmap. eapply Forall_impl; [exact Hv|]. intros s Hs. by split. Qed.

(** SHOW TABLES lists every table of the catalog once, in the order of the
    names, and changes nothing. *)
Theorem show_tables_sorted s c (e : UtilityExecutor) :
  utility_type_ e = SHOW_TABLES →
  (∀ oid t, tables_ c !! oid = Some t → Z.of_nat (String.length (t_name_ t)) < 2 ^ 32 - 4) →
  ∃ tables ts, tables ≡ₚ (map_to_list (tables_ c)).*2 ∧
    StronglySorted (λ x y, String.compare (t_name_ x) (t_name_ y) ≠ Gt) tables ∧
    values_ <$> ts = (λ t, [Value_string VARCHAR (t_name_ t)]) <$> tables ∧
    produces (s, c) e ((λ t, (t, Some RID_default)) <$> ts).
Proof.
  intros He Hlen. pose proof (tw_on t_name_ _ tw_string) as Htw.
  destruct (std_sort_ok (λ x y, Ok (table_less x y)) table_less (GetAllTables c)) as (tables & Hs & Hp & Hsorted); [done| |].
  { destruct (tw_strict_weak _ (GetAllTables c) Htw) as [H1 H2 H3]. split; intros *; rewrite !table_less_compare; [apply H1|apply H2|apply H3]. }
  assert (tables ≡ₚ (map_to_list (tables_ c)).*2) as Hperm.
  { rewrite Hp. unfold GetAllTables. by rewrite hash_order_perm. }
  set (row := λ t : TableInfo, mkTuple RID_default ([Value_string VARCHAR (t_name_ t)] ≫= serialized) [Value_string VARCHAR (t_name_ t)]).
  assert (show_tables c = Ok (row <$> tables)) as Hshow.
  { unfold show_tables. rewrite Hs. simpl. apply mapR_Forall2, Forall2_fmap_r, Forall_Forall2_diag, Forall_forall.
    intros t Ht. rewrite Hperm in Ht. apply list_elem_of_fmap in Ht as ([oid t'] & -> & Ht). apply elem_of_map_to_list in Ht.
    apply MakeTableRow_ok. constructor; [|constructor]. by eapply Hlen. }
  exists tables, (row <$> tables). split_and!; [done| |by rewrite <- list_fmap_compose|].
  - eapply StronglySorted_ind with (P := StronglySorted _); [constructor|..|exact Hsorted].
    intros x l Hl IH Hx. constructor; [done|]. eapply Forall_impl; [exact Hx|].
    intros y Hy. simpl in Hy. rewrite table_less_compare, (tw_sym _ Htw x y) in Hy. by destruct (String.compare _ _).
  - apply utility_produces. intros e' He' _. unfold utility_rows. rewrite He', He.
    eapply computes_bind; [apply computes_catalog|]. by apply computes_lift.
Qed.
End Utility.

(** ** Witness: the tables of the demo catalog *)

Definition listed_order : HashOrder := {| hash_order K V _ _ m := map_to_list m; hash_order_perm K V _ _ m := reflexivity _ |}.

Lemma show_tables_sorted_witness :
  ∃ ts, values_ <$> ts = [[Value_string VARCHAR "t"]] ∧
    produces (PIO := demo_io) (AbstractExecutor0 := utility_executor (PIO := demo_io) (HO := listed_order) (SS := insertion_std_sort) 5 2)
      (idle int_pages 1, int_catalog) (mkUtility int_schema SHOW_TABLES "" "" [] [] false [] 0)
      ((λ t, (t, Some RID_default)) <$> ts).
Proof.
  destruct (show_tables_sorted (PIO := demo_io) (HO := listed_order) (SS := insertion_std_sort) 5 2
    (idle int_pages 1) int_catalog (mkUtility int_schema SHOW_TABLES "" "" [] [] false [] 0)) as (tables & ts & Hp & _ & Hts & Hprod).
  - reflexivity.
  - intros oid t Ht. simpl in Ht. apply lookup_singleton_Some in Ht as [_ <-]. vm_compute. reflexivity.
  - exists ts. split; [|exact Hprod]. rewrite Hts.
    change (tables ≡ₚ [int_table]) in Hp. apply Permutation_singleton_r in Hp as ->. reflexivity.
Defined.
