(* ===== verification/Engine.v ===== *)
(** * Plans and the execution engine

    [plan_nodes.h], [executor_factory.cpp] and [execution_engine.cpp]: the plan
    trees, the executor built for a plan and the loop that collects its rows.  The
    rows a plan asks for are given by [query_rows], a function of the catalog and
    of the live records of the tables alone; the engine computes them. *)

From S2P Require Import Prelude Common Value Tuple Expression PageStore PageIO PageLogic TablePage TableHeap Catalog Executor.
From S2P Require Import Operators Join Aggregate Dml OrderBy Utility.

(** ** Plan nodes

    The first argument is [output_schema_]; [NullPlanNode] is the null pointer, which
    the binder can put under an insert. *)
Inductive AbstractPlanNode :=
  | NullPlanNode
  | SeqScanPlanNode (output_schema : Schema) (table_oid : Z) (predicate : option AbstractExpression)
  | IndexScanPlanNode (output_schema : Schema) (table_oid index_oid : Z) (lookup_key : AbstractExpression) (predicate : option AbstractExpression)
  | InsertPlanNode (output_schema : Schema) (child : AbstractPlanNode) (table_oid : Z)
  | DeletePlanNode (output_schema : Schema) (child : AbstractPlanNode) (table_oid : Z)
  | UpdatePlanNode (output_schema : Schema) (child : AbstractPlanNode) (table_oid : Z) (update_exprs : list AbstractExpression)
  | NestedLoopJoinPlanNode (output_schema : Schema) (lplan rplan : AbstractPlanNode) (predicate : option AbstractExpression)
  | HashJoinPlanNode (output_schema : Schema) (lplan rplan : AbstractPlanNode) (left_key right_key : AbstractExpression)
  | AggregationPlanNode (output_schema : Schema) (child : AbstractPlanNode) (group_bys aggregates : list AbstractExpression)
      (agg_types : list AggregationType)
  | SortPlanNode (output_schema : Schema) (child : AbstractPlanNode) (order_bys : list (bool * AbstractExpression))
  | LimitPlanNode (output_schema : Schema) (child : AbstractPlanNode) (limit : Z)
  | ProjectionPlanNode (output_schema : Schema) (child : AbstractPlanNode) (expressions : list AbstractExpression)
  | UtilityPlanNode (output_schema : Schema) (utility_type : UtilityType) (table_name index_name : string) (key_attrs : list Z)
      (object_names : list string) (missing_ok : bool).

(** [GetOutputSchema], of a plan that is not null. *)
Definition plan_schema (plan : AbstractPlanNode) : Schema :=
  match plan with
  | NullPlanNode => mkSchema [] 0
  | SeqScanPlanNode s _ _ | IndexScanPlanNode s _ _ _ _ | InsertPlanNode s _ _ | DeletePlanNode s _ _ | UpdatePlanNode s _ _ _
  | NestedLoopJoinPlanNode s _ _ _ | HashJoinPlanNode s _ _ _ _ | AggregationPlanNode s _ _ _ _ | SortPlanNode s _ _
  | LimitPlanNode s _ _ | ProjectionPlanNode s _ _ | UtilityPlanNode s _ _ _ _ _ _ => s
  end.

Section Engine.
Context {S : Type} `{PIO : !PageIO bytes S} {HO : HashOrder} {SS : StdSort} (fuel pages : nat) (fmt_2f : Z → string).
Abbreviation M A := (ST (DB S) A).

(** ** The factory

    A [unique_ptr<AbstractExecutor>]: a state with the methods of its class. *)
Record AnyExecutor := mkAny { ex_state : Type; ex_impl : AbstractExecutor (S := S) ex_state; ex_now : ex_state }.

Definition any (E : Type) (impl : AbstractExecutor (S := S) E) (e : E) : res AnyExecutor := Ok (mkAny E impl e).

(** The constructor of an executor with one child. *)
Definition on_child (child : res AnyExecutor) (f : AnyExecutor → res AnyExecutor) : res AnyExecutor :=
  match child with Ok c => f c | Throw e => Throw e | UB => UB | OutOfFuel => OutOfFuel end.

Fixpoint CreateExecutor (plan : AbstractPlanNode) : res AnyExecutor :=
  match plan with
  | NullPlanNode => UB
  | SeqScanPlanNode s oid p => any SeqScanExecutor (seq_scan_executor fuel pages) (mkSeqScan s oid p None End)
  | IndexScanPlanNode s oid ioid key p =>
      any IndexScanExecutor index_scan_executor (mkIndexScan s oid ioid key p None None [] 0)
  | InsertPlanNode s child oid => on_child (CreateExecutor child) (λ c, let _ := ex_impl c in
      any _ (insert_executor fuel pages) (mkInsert s oid (ex_now c) false))
  | DeletePlanNode s child oid => on_child (CreateExecutor child) (λ c, let _ := ex_impl c in
      any _ (delete_executor fuel) (mkDelete s oid (ex_now c) false))
  | UpdatePlanNode s child oid exprs => on_child (CreateExecutor child) (λ c, let _ := ex_impl c in
      any _ (update_executor fuel) (mkUpdate s oid exprs (ex_now c) false))
  | NestedLoopJoinPlanNode s l r p => on_child (CreateExecutor l) (λ l, on_child (CreateExecutor r) (λ r,
      let _ := ex_impl l in let _ := ex_impl r in
      any _ (nlj_executor fuel) (mkNLJ _ _ s p (ex_now l) (ex_now r) false Tuple_default)))
  | HashJoinPlanNode s l r lk rk => on_child (CreateExecutor l) (λ l, on_child (CreateExecutor r) (λ r,
      let _ := ex_impl l in let _ := ex_impl r in
      any _ (hash_join_executor fuel fmt_2f) (mkHashJoin s lk rk (ex_now l) (ex_now r) ∅ [] 0)))
  | AggregationPlanNode s child gb aggs types => on_child (CreateExecutor child) (λ c, let _ := ex_impl c in
      any _ (aggregation_executor fuel fmt_2f) (mkAggregation s gb aggs types (ex_now c) [] 0))
  | SortPlanNode s child obs => on_child (CreateExecutor child) (λ c, let _ := ex_impl c in
      any _ (sort_executor fuel _) (mkSort _ s obs (ex_now c) [] 0))
  | LimitPlanNode s child limit => on_child (CreateExecutor child) (λ c, let _ := ex_impl c in
      any _ (limit_executor _) (mkLimit _ s limit (ex_now c) 0))
  | ProjectionPlanNode s child exprs => on_child (CreateExecutor child) (λ c, let _ := ex_impl c in
      any _ (projection_executor _) (mkProjection _ s exprs (ex_now c)))
  | UtilityPlanNode s ut table index attrs names missing_ok =>
      any _ (utility_executor fuel pages) (mkUtility s ut table index attrs names missing_ok [] 0)
  end.

(** ** The engine: the rows are copied column by column *)

Definition result_tuple (schema : Schema) (row : Row) : res Tuple := values ← row_values schema row.1; Tuple_new values.
Definition push_result (schema : Schema) (result_set : list Tuple) (row : Row) : res (list Tuple) :=
  t ← result_tuple schema row; Ok (result_set ++ [t]).

Definition run_executor {E} (impl : AbstractExecutor (S := S) E) (e : E) : M (list Tuple) :=
  e ← Init e;
  let schema := GetOutputSchema e in
  '(result_set, _) ← fold_next fuel (λ acc row, st_lift (push_result schema acc row)) e [];
  mret result_set.

Definition Execute (plan : AbstractPlanNode) : M (list Tuple) :=
  match CreateExecutor plan with
  | Ok ex => run_executor (ex_impl ex) (ex_now ex)
  | Throw e => st_throw e
  | UB => st_ub
  | OutOfFuel => st_fuel
  end.

(** ** What a query asks for *)

Section Reference.
Context (c : Catalog) (records : Z → list (RID * bytes)).

Definition find_record (oid : Z) (r : RID) : res (RID * bytes) :=
  match (list_to_map (records oid) : gmap RID bytes) !! r with Some b => Ok (r, b) | None => UB end.

(** The rows of an index scan: the records its entries point to. *)
Definition index_scan_rows (oid ioid : Z) (key : AbstractExpression) (p : option AbstractExpression) : res (list Row) :=
  match tables_ c !! oid with
  | None => UB
  | Some t =>
      rids ← matching_rids (Some t) (GetIndexByOid ioid c) key;
      es ← mapR (find_record oid) rids;
      scan_rows (t_schema_ t) p es
  end.

Definition table_rows (oid : Z) (p : option AbstractExpression) : res (list Row) :=
  match tables_ c !! oid with None => UB | Some t => scan_rows (t_schema_ t) p (records oid) end.

Definition with_default_rid (ts : list Tuple) : list Row := (λ t, (t, Some RID_default)) <$> ts.

(** Plans that change the database are not queries. *)
Fixpoint query_rows (plan : AbstractPlanNode) : res (list Row) :=
  match plan with
  | SeqScanPlanNode _ oid p => table_rows oid p
  | IndexScanPlanNode _ oid ioid key p => index_scan_rows oid ioid key p
  | NestedLoopJoinPlanNode _ l r p =>
      lrows ← query_rows l; rrows ← query_rows r; nlj_rows p (plan_schema l) (plan_schema r) lrows rrows
  | HashJoinPlanNode _ l r lk rk =>
      lrows ← query_rows l; rrows ← query_rows r; hash_join_rows fmt_2f lk rk (plan_schema l) (plan_schema r) lrows rrows
  | AggregationPlanNode s child gb aggs types =>
      rows ← query_rows child; agg_rows fmt_2f s (plan_schema child) gb aggs types rows
  | SortPlanNode _ child obs =>
      rows ← query_rows child;
      sorted ← std_sort (sort_less (plan_schema child) obs) (rows.*1 : list Tuple);
      Ok ((λ t : Tuple, (t, None)) <$> (sorted : list Tuple))
  | LimitPlanNode _ child limit => rows ← query_rows child; Ok (take (Z.to_nat limit) rows)
  | ProjectionPlanNode _ child exprs => rows ← query_rows child; mapR (project_row exprs (plan_schema child)) rows
  | UtilityPlanNode _ SHOW_TABLES _ _ _ _ _ => ts ← show_tables c; Ok (with_default_rid ts)
  | UtilityPlanNode _ SHOW_INDEXES _ _ _ _ _ => ts ← show_indexes c; Ok (with_default_rid ts)
  | UtilityPlanNode _ SHOW_SCHEMA table _ _ _ _ => ts ← show_schema table c; Ok (with_default_rid ts)
  | _ => UB
  end.

(** [fuel] is enough: it exceeds the number of rows of every node of the plan, and
    of every table that is scanned. *)
Definition small (plan : AbstractPlanNode) : Prop :=
  match query_rows plan with Ok rows => (Datatypes.S (length rows) < fuel)%nat | _ => False end.
Fixpoint enough_fuel (plan : AbstractPlanNode) : Prop :=
  small plan ∧
  match plan with
  | SeqScanPlanNode _ oid _ => (length (records oid) < fuel)%nat
  | NestedLoopJoinPlanNode _ l r _ | HashJoinPlanNode _ l r _ _ => enough_fuel l ∧ enough_fuel r
  | AggregationPlanNode _ child _ _ _ | SortPlanNode _ child _ | ProjectionPlanNode _ child _ => enough_fuel child
  | LimitPlanNode _ child limit => 0 ≤ limit ≤ SIZE_MAX ∧ enough_fuel child
  | _ => True
  end.

(** The tuples the caller gets. *)
Definition query_result (plan : AbstractPlanNode) : res (list Tuple) :=
  rows ← query_rows plan; mapR (result_tuple (plan_schema plan)) rows.
End Reference.

(** ** The executors of a plan produce its rows *)

Section Correct.
Context (frames : 1 ≤ io_frames) (m : gmap Z bytes) (nid : Z) (c : Catalog) (heaps : Z → list (Z * (list bytes * Z))).
Context (Hheaps : ∀ oid t, tables_ c !! oid = Some t → heap_ok m (table_ t) (heaps oid) ∧ (length (heaps oid) < pages)%nat).
Let g : Store bytes * Catalog := (idle m nid, c).
Let records : Z → list (RID * bytes) := λ oid, live (heaps oid).

(** The executor built for [plan] produces [rows]. *)
Definition built (plan : AbstractPlanNode) (rows : list Row) : Prop :=
  ∃ ex, CreateExecutor plan = Ok ex ∧ (let _ := ex_impl ex in GetOutputSchema (ex_now ex) = plan_schema plan ∧ produces g (ex_now ex) rows).

Lemma live_heap_at oid t r b : tables_ c !! oid = Some t →
  (list_to_map (live (heaps oid)) : gmap RID bytes) !! r = Some b → heap_at (heaps oid) r = Some b.
Proof.
  intros Ht Hr. destruct (Hheaps oid t Ht) as [(_ & Hnd & _) _]. apply elem_of_list_to_map_2 in Hr.
  unfold live in Hr. apply list_elem_of_bind in Hr as ([pid [ts free]] & Hin & Hp). simpl in Hin.
  apply list_elem_of_filter in Hin as [Hb Hin]. apply elem_of_lookup_imap in Hin as (i & u & [= -> ->] & Hi).
  apply list_elem_of_split in Hp as (h1 & h2 & He). rewrite He in Hnd |- *. by apply heap_at_slot.
Qed.

Lemma index_scan_built s oid ioid key p rows : index_scan_rows c records oid ioid key p = Ok rows →
  built (IndexScanPlanNode s oid ioid key p) rows.
Proof.
  unfold index_scan_rows. intros Hrows. destruct (tables_ c !! oid) as [t|] eqn:Ht; [|done].
  destruct (matching_rids (Some t) _ key) as [rids| | |] eqn:Em; simplify_eq/=.
  destruct (mapR (find_record records oid) rids) as [es| | |] eqn:Ef; simplify_eq/=.
  destruct (Hheaps oid t Ht) as [Hok Hpages]. eexists. split; [reflexivity|]. split; [done|].
  apply mapR_Forall2 in Ef.
  assert (rids = es.*1 ∧ Forall (λ e, heap_at (heaps oid) e.1 = Some e.2) es) as [-> Hes].
  { clear Em Hrows. induction Ef as [|r e rids es Hre _ [-> IH]]; [done|]. unfold find_record in Hre.
    destruct (list_to_map _ !! r) as [b|] eqn:Er; [|done]. injection Hre as <-. split; [done|]. constructor; [|done].
    by apply (live_heap_at oid t). }
  by apply (index_scan_produces pages m nid c t (heaps oid) frames) with (es := es).
Qed.

(** One induction hypothesis, on a child. *)
Lemma built_small plan : small c records plan → ∃ rows, query_rows c records plan = Ok rows ∧ (Datatypes.S (length rows) < fuel)%nat.
Proof. unfold small. destruct (query_rows c records plan) as [rows| | |]; try done. by exists rows. Qed.

Lemma query_built plan : ∀ rows, query_rows c records plan = Ok rows → enough_fuel c records plan → built plan rows.
Proof.
  induction plan as [|s oid p|s oid ioid key p|s child IH oid|s child IH oid|s child IH oid exprs|s l IHl r IHr p|s l IHl r IHr lk rk
    |s child IH gb aggs types|s child IH obs|s child IH limit|s child IH exprs|s ut table index attrs names missing_ok];
    intros rows Hrows Hfuel; try done; simpl in Hrows; destruct Hfuel as [Hsmall Hfuel].
  - unfold table_rows in Hrows. destruct (tables_ c !! oid) as [t|] eqn:Ht; [|done]. destruct (Hheaps oid t Ht) as [Hok Hpages].
    eexists. split; [reflexivity|]. split; [done|]. by apply (seq_scan_produces fuel pages m nid c t (heaps oid)).
  - by apply index_scan_built.
  - destruct Hfuel as [Hfl Hfr]. destruct (built_small l) as (lrows & Hl & Hll); [by destruct l, Hfl|].
    destruct (built_small r) as (rrows & Hr & Hlr); [by destruct r, Hfr|]. rewrite Hl, Hr in Hrows. simpl in Hrows.
    destruct (IHl lrows Hl Hfl) as (el & Hel & Hsl & Hpl), (IHr rrows Hr Hfr) as (er & Her & Hsr & Hpr).
    eexists. split; [simpl; by rewrite Hel, Her|]. split; [done|]. apply nlj_produces with (lrows := lrows) (rrows := rrows); try done; [lia|].
    by rewrite Hsl, Hsr.
  - destruct Hfuel as [Hfl Hfr]. destruct (built_small l) as (lrows & Hl & Hll); [by destruct l, Hfl|].
    destruct (built_small r) as (rrows & Hr & Hlr); [by destruct r, Hfr|]. rewrite Hl, Hr in Hrows. simpl in Hrows.
    destruct (IHl lrows Hl Hfl) as (el & Hel & Hsl & Hpl), (IHr rrows Hr Hfr) as (er & Her & Hsr & Hpr).
    eexists. split; [simpl; by rewrite Hel, Her|]. split; [done|].
    apply hash_join_produces with (lrows := lrows) (rrows := rrows); try done; [lia|lia|]. by rewrite Hsl, Hsr.
  - destruct (built_small child) as (crows & Hc & Hlen); [by destruct child, Hfuel|]. rewrite Hc in Hrows. simpl in Hrows.
    destruct (IH crows Hc Hfuel) as (ex & Hex & Hs & Hp). eexists. split; [simpl; by rewrite Hex|]. split; [done|].
    apply aggregation_produces with (rows := crows); try done; [lia|]. by rewrite Hs.
  - destruct (built_small child) as (crows & Hc & Hlen); [by destruct child, Hfuel|]. rewrite Hc in Hrows. simpl in Hrows.
    destruct (std_sort _ crows.*1) as [sorted| | |] eqn:Esort; simplify_eq/=.
    destruct (IH crows Hc Hfuel) as (ex & Hex & Hs & Hp). eexists. split; [simpl; by rewrite Hex|]. split; [done|].
    apply sort_produces with (rows := crows); try done; [lia|]. by rewrite Hs.
  - destruct Hfuel as [Hlimit Hfuel].
    destruct (built_small child) as (crows & Hc & Hlen); [by destruct child, Hfuel|]. rewrite Hc in Hrows. simplify_eq/=.
    destruct (IH crows Hc Hfuel) as (ex & Hex & Hs & Hp). eexists. split; [simpl; by rewrite Hex|]. split; [done|].
    by apply limit_produces.
  - destruct (built_small child) as (crows & Hc & Hlen); [by destruct child, Hfuel|]. rewrite Hc in Hrows. simpl in Hrows.
    destruct (IH crows Hc Hfuel) as (ex & Hex & Hs & Hp). eexists. split; [simpl; by rewrite Hex|]. split; [done|].
    apply projection_produces with (rows := crows); [done|]. by rewrite Hs.
  - eexists. split; [reflexivity|]. split; [done|].
    destruct ut; try done; res_inv Hrows; simplify_eq/=; apply utility_produces; intros e' He' Ht'; unfold utility_rows; rewrite He'; simpl in *;
      (eapply computes_bind; [apply computes_catalog|]); rewrite ?Ht'; by apply computes_lift.
Qed.

Lemma Execute_query plan result :
  query_result c records plan = Ok result → enough_fuel c records plan →
  computes g (Execute plan) result.
Proof.
  intros Hres Hfuel. unfold query_result in Hres.
  destruct (query_rows c records plan) as [rows| | |] eqn:Hrows; simplify_eq/=.
  destruct (query_built plan rows Hrows Hfuel) as (ex & Hex & Hs & (I & HI & Hprod)).
  destruct (built_small plan) as (rows' & Hrows' & Hlen); [by destruct plan, Hfuel|]. rewrite Hrows in Hrows'. injection Hrows' as <-.
  destruct (Hprod _ HI) as (_ & e1 & Hinit & HI1 & Hy).
  assert (∀ acc, foldR (push_result (plan_schema plan)) acc rows = Ok (acc ++ result)) as Hfold.
  { clear -Hres. revert result Hres. induction rows as [|row rows IH]; intros result Hres acc; simpl in Hres.
    - injection Hres as <-. by rewrite app_nil_r.
    - destruct (result_tuple _ row) as [t| | |] eqn:Et; simplify_eq/=. destruct (mapR _ rows) as [ts| | |]; simplify_eq/=.
      unfold push_result. rewrite Et. simpl. fold (push_result (plan_schema plan)). rewrite (IH ts eq_refl). by rewrite <- app_assoc. }
  destruct (fold_next_ok (AbstractExecutor0 := ex_impl ex) g I _ rows fuel e1 [] result Hy ltac:(lia) (Hfold [])) as (e2 & _ & Hloop).
  unfold Execute. rewrite Hex. unfold run_executor. eapply computes_bind; [exact Hinit|]. cbv zeta.
  rewrite (proj1 (Hprod e1 HI1)), Hs. eapply computes_bind; [exact Hloop|]. apply computes_ret.
Qed.

(** C7: the engine answers queries.  For every plan that reads the database, over
    any buffer pool with a frame, [Execute] terminates and gives exactly the tuples
    the plan asks for of the tables and indexes, and leaves the database as it was:
    scans, index scans, both joins, aggregation, sorting, limits, projections and
    the SHOW commands, composed in any way. *)
Theorem engine_answers_queries plan result :
  query_result c records plan = Ok result → enough_fuel c records plan →
  computes g (Execute plan) result.
Proof. apply Execute_query. Qed.
End Correct.
End Engine.

(** ** Witness: a join of the demo table with itself, sorted and cut *)

Definition demo_heaps (oid : Z) : list (Z * (list bytes * Z)) := if oid =? 1 then int_heap else [].
Definition demo_records (oid : Z) : list (RID * bytes) := live (demo_heaps oid).
Definition pair_schema : Schema := Schema_new (make_columns [("a", INTEGER, 0); ("b", INTEGER, 0)]).
Definition same_column : AbstractExpression :=
  ComparisonExpression (ColumnValueExpression 0 0 INTEGER) (ColumnValueExpression 1 0 INTEGER) Equal.
Definition scan_plan : AbstractPlanNode := SeqScanPlanNode int_schema 1 None.
Definition join_plan : AbstractPlanNode := NestedLoopJoinPlanNode pair_schema scan_plan scan_plan (Some same_column).
Definition demo_plan : AbstractPlanNode :=
  LimitPlanNode pair_schema (SortPlanNode pair_schema join_plan [(false, ColumnValueExpression 0 1 INTEGER)]) 2.

Lemma demo_heaps_ok oid t : tables_ int_catalog !! oid = Some t → heap_ok int_pages (table_ t) (demo_heaps oid) ∧ (length (demo_heaps oid) < 2)%nat.
Proof. intros Ht. change (({[1 := int_table]} : gmap Z TableInfo) !! oid = Some t) in Ht. apply lookup_singleton_Some in Ht as [<- <-]. split; [exact int_heap_ok|simpl; lia]. Qed.

Lemma engine_answers_queries_witness :
  let result := match query_result (HO := listed_order) (SS := insertion_std_sort) (λ _, "") int_catalog demo_records demo_plan with
    | Ok ts => ts | _ => [] end in
  values_ <$> result = [[Value_int INTEGER 9; Value_int INTEGER 9]; [Value_int INTEGER 7; Value_int INTEGER 7]] ∧
  computes (PIO := demo_io) (idle int_pages 1, int_catalog)
    (Execute (PIO := demo_io) (HO := listed_order) (SS := insertion_std_sort) 9 2 (λ _, "") demo_plan) result.
Proof.
  intros result. split; [vm_compute; reflexivity|].
  apply (engine_answers_queries (PIO := demo_io) (HO := listed_order) (SS := insertion_std_sort) 9 2 (λ _, "")
           ltac:(vm_compute; discriminate) int_pages 1 int_catalog demo_heaps demo_heaps_ok demo_plan result).
  - vm_compute. reflexivity.
  - cbn [enough_fuel demo_plan join_plan scan_plan]. unfold small.
    repeat match goal with |- _ ∧ _ => split end;
      match goal with
      | |- match ?q with _ => _ end => let v := eval vm_compute in q in change q with v; cbv beta iota; cbn [length]; lia
      | |- (_ < _)%nat => vm_compute; lia
      | |- True => exact I
      | |- _ => vm_compute; try discriminate
      end.
Defined.
