(* ===== verification/Effects.v ===== *)
(** * The effect of a plan on the tables

    An abstract database is a heap for each table and the next page id.  [plan_effect]
    gives the rows a plan answers and the database it leaves, as a function; the
    execution engine computes it.  This extends [Engine.query_rows] to the plans that
    change tables. *)

From S2P Require Import Prelude Common Value Tuple Expression PageStore PageIO PageLogic TablePage TableHeap TableEdit Catalog Executor.
From S2P Require Import Operators Join Aggregate Dml OrderBy Utility Engine.

(** ** The abstract database *)

Record Tables := mkTables { t_heaps : gmap Z heap; t_next : Z }.
Definition heap_of (T : Tables) (oid : Z) : heap := default [] (t_heaps T !! oid).
Definition records_of (T : Tables) (oid : Z) : list (RID * bytes) := live (heap_of T oid).
Definition set_heap (oid : Z) (h : heap) (nid : Z) (T : Tables) : Tables := mkTables (<[oid := h]> (t_heaps T)) nid.

Lemma heap_of_set oid h nid T oid' : heap_of (set_heap oid h nid T) oid' = if decide (oid' = oid) then h else heap_of T oid'.
Proof.
  unfold heap_of, set_heap. simpl. destruct (decide (oid' = oid)) as [->|]; [by rewrite lookup_insert_eq|by rewrite lookup_insert_ne].
Qed.

(** The pages [m] hold the tables of [c], each in pages of its own, and the page ids
    from the next one on are free. *)
Record tables_ok (c : Catalog) (m : gmap Z bytes) (T : Tables) : Prop := {
  to_heap oid t : tables_ c !! oid = Some t → heap_ok m (table_ t) (heap_of T oid);
  to_apart oid t oid' t' : tables_ c !! oid = Some t → tables_ c !! oid' = Some t' → oid ≠ oid' →
    (heap_of T oid).*1 ## (heap_of T oid').*1;
  to_free p : t_next T ≤ p → m !! p = None
}.

(** What a change of one heap does to the pages. *)
Record heap_step (m : gmap Z bytes) (nid : Z) (h : heap) (m' : gmap Z bytes) (nid' : Z) (h' : heap) : Prop := {
  hs_same p : p ∉ h'.*1 → m' !! p = m !! p;
  hs_old p : p ∈ h.*1 → p ∈ h'.*1;
  hs_new p : p ∈ h'.*1 → p ∈ h.*1 ∨ (m !! p = None ∧ nid ≤ p < nid');
  hs_next : nid ≤ nid'
}.

Lemma heap_step_refl m nid h : heap_step m nid h m nid h.
Proof. split; [done|done|by left|done]. Qed.

Lemma heap_step_trans m nid h m1 nid1 h1 m2 nid2 h2 :
  heap_step m nid h m1 nid1 h1 → heap_step m1 nid1 h1 m2 nid2 h2 → heap_step m nid h m2 nid2 h2.
Proof.
  intros [Hs1 Ho1 Hn1 Hle1] [Hs2 Ho2 Hn2 Hle2]. split; [|by intros p ?%Ho1%Ho2| |lia].
  - intros p Hp. rewrite Hs2 by done. apply Hs1. by intros ?%Ho2.
  - intros p [Hp|[Hno Hlt]]%Hn2; [destruct (Hn1 p Hp) as [|[? ?]]; [by left|right; split; [done|lia]]|].
    destruct (decide (p ∈ h1.*1)) as [Hp|Hp]; [destruct (Hn1 p Hp) as [|[? ?]]; [by left|right; split; [done|lia]]|].
    right. rewrite <- (Hs1 p Hp). split; [done|lia].
Qed.

Lemma heap_step_edit m nid d' h r b t : heap_at h r = Some t → heap_step m nid h (<[rid_page_id r := d']> m) nid (edit_at r b h).
Proof.
  intros (h1 & ts & free & h2 & i & -> & _)%heap_at_split. split; [|by intros p; rewrite edit_at_pages|intros p; rewrite edit_at_pages; by left|done].
  intros p Hp. rewrite edit_at_pages in Hp. apply lookup_insert_ne. intros <-. apply Hp. rewrite fmap_app. set_solver.
Qed.

Lemma heap_ok_live m first h p : heap_ok m first h → p ∈ h.*1 → is_Some (m !! p).
Proof. intros (Hc & _ & _) Hp. by eapply chain_live. Qed.

Lemma heap_ok_frame m nid h m' nid' h' first h2 : heap_step m nid h m' nid' h' → heap_ok m first h2 → h2.*1 ## h.*1 →
  heap_ok m' first h2 ∧ h2.*1 ## h'.*1.
Proof.
  intros [Hs _ Hn _] Hok Hd. assert (h2.*1 ## h'.*1) as Hd'.
  { intros p Hp [Hp'|[Hno _]]%Hn; [by apply (Hd p)|]. destruct (heap_ok_live _ _ _ _ Hok Hp) as [d Hd']. congruence. }
  split; [|done]. destruct Hok as (Hc & Hnd & Hne). split; [|by split]. eapply chain_agree; [exact Hc|]. intros p Hp.
  apply Hs. intros ?. by apply (Hd' p).
Qed.

Lemma heap_step_free m nid h m' nid' h' first : heap_step m nid h m' nid' h' → heap_ok m first h →
  (∀ p, nid ≤ p → m !! p = None) → ∀ p, nid' ≤ p → m' !! p = None.
Proof.
  intros [Hs _ Hn Hle] Hok Hfree p Hp. destruct (decide (p ∈ h'.*1)) as [[Hin|[_ ?]]%Hn|Hout]; [|lia|].
  - destruct (heap_ok_live _ _ _ p Hok Hin) as [d Hd]. rewrite Hfree in Hd; [done|lia].
  - rewrite Hs by done. apply Hfree. lia.
Qed.

Lemma tables_ok_step c m m' T oid t h' nid : tables_ok c m T → tables_ c !! oid = Some t →
  heap_step m (t_next T) (heap_of T oid) m' nid h' → heap_ok m' (table_ t) h' → tables_ok c m' (set_heap oid h' nid T).
Proof.
  intros HT Ht Hstep Hok.
  assert (∀ o2 t2, tables_ c !! o2 = Some t2 → o2 ≠ oid → heap_ok m' (table_ t2) (heap_of T o2) ∧ (heap_of T o2).*1 ## h'.*1) as Hother.
  { intros o2 t2 Ht2 Hne. eapply heap_ok_frame; [done|by apply (to_heap _ _ _ HT)|]. by eapply (to_apart _ _ _ HT). }
  split.
  - intros o1 t1 Ht1. rewrite heap_of_set. destruct (decide (o1 = oid)) as [->|]; [|by apply Hother]. by replace t1 with t by congruence.
  - intros o1 t1 o2 t2 Ht1 Ht2 Hne. rewrite !heap_of_set. destruct (decide (o1 = oid)) as [->|Hne1].
    + rewrite decide_False by done. intros p Hp Hp2. by apply (proj2 (Hother o2 t2 Ht2 ltac:(done)) p).
    + destruct (decide (o2 = oid)) as [->|]; [by apply (Hother o1 t1)|by eapply (to_apart _ _ _ HT)].
  - eapply heap_step_free; [exact Hstep|by apply (to_heap _ _ _ HT)|apply (to_free _ _ _ HT)].
Qed.

(** ** The function *)

Section Effects.
Context {S : Type} `{PIO : !PageIO bytes S} {HO : HashOrder} {SS : StdSort} (fuel pages : nat) (fmt_2f : Z → string).
Abbreviation M A := (ST (DB S) A).

(** The rows that a predicate selects get new bytes. *)
Definition row_edit (schema : Schema) (p : option AbstractExpression) (new : Row → res bytes) (e : RID * bytes) : res (option bytes) :=
  o ← scan_row schema p e;
  match o with None => Ok None | Some row => b ← new row; Ok (Some b) end.

Definition delete_new (_ : Row) : res bytes := Ok [].
Definition update_new (schema : Schema) (exprs : list AbstractExpression) (row : Row) : res bytes :=
  new_values ← mapR (λ e, Evaluate e (Some row.1) schema) exprs; t ← Tuple_new new_values; Ok (data_ t).

Definition edit_effect (c : Catalog) (T : Tables) (oid : Z) (p : option AbstractExpression) (new : TableInfo → Row → res bytes) : res (list Row * Tables) :=
  match tables_ c !! oid with
  | None => UB
  | Some t =>
      rows ← scan_rows (t_schema_ t) p (records_of T oid);
      h ← edits (row_edit (t_schema_ t) p (new t)) (records_of T oid) (heap_of T oid);
      let n := Z.of_nat (length rows) in
      if n <=? INT32_MAX then row ← count_row n; Ok ([row], set_heap oid h (t_next T) T) else UB
  end.

Definition insert_effect (c : Catalog) (T : Tables) (src dst : Z) (p : option AbstractExpression) : res (list Row * Tables) :=
  match tables_ c !! src, tables_ c !! dst with
  | Some s, Some t =>
      rows ← scan_rows (t_schema_ s) p (records_of T src);
      '(n, h, nid) ← puts ((λ row, data_ row.1) <$> rows) 0 (t_next T) (heap_of T dst);
      if Z.of_nat (length rows) <=? INT32_MAX then row ← count_row n; Ok ([row], set_heap dst h nid T) else UB
  | _, _ => UB
  end.

(** Statements that change a table read it, or another one, by a scan.  An insertion
    of a table into itself has no effect: it does not end. *)
Definition plan_effect (c : Catalog) (T : Tables) (plan : AbstractPlanNode) : res (list Row * Tables) :=
  match plan with
  | DeletePlanNode _ (SeqScanPlanNode _ src p) oid => if src =? oid then edit_effect c T oid p (λ _, delete_new) else UB
  | UpdatePlanNode _ (SeqScanPlanNode _ src p) oid exprs =>
      if src =? oid then edit_effect c T oid p (λ t, update_new (t_schema_ t) exprs) else UB
  | InsertPlanNode _ (SeqScanPlanNode _ src p) oid => if src =? oid then UB else insert_effect c T src oid p
  | _ => rows ← query_rows fmt_2f c (records_of T) plan; Ok (rows, T)
  end.

Definition effect_result (c : Catalog) (T : Tables) (plan : AbstractPlanNode) : res (list Tuple * Tables) :=
  '(rows, T) ← plan_effect c T plan; ts ← mapR (result_tuple (plan_schema plan)) rows; Ok (ts, T).

(** The fuel that is enough, and the pages of each table. *)
Definition effect_fuel (c : Catalog) (T : Tables) (plan : AbstractPlanNode) : Prop :=
  match plan with
  | DeletePlanNode _ (SeqScanPlanNode _ src _) _ | UpdatePlanNode _ (SeqScanPlanNode _ src _) _ _
  | InsertPlanNode _ (SeqScanPlanNode _ src _) _ => (1 < fuel)%nat ∧ (length (records_of T src) < fuel)%nat
  | _ => enough_fuel fuel fmt_2f c (records_of T) plan
  end.
Definition small_heaps (c : Catalog) (T : Tables) : Prop := ∀ oid t, tables_ c !! oid = Some t → (length (heap_of T oid) < pages)%nat.

(** ** The loops of the executors *)

#[local] Opaque count_row.

Context (frames : 2 ≤ io_frames).
Lemma one_frame : 1 ≤ io_frames.
Proof. lia. Qed.
Abbreviation the_scan s oid p t it := (mkSeqScan s oid p (Some t) it).

Lemma scan_rows_length schema p es rows : scan_rows schema p es = Ok rows → (length rows ≤ length es)%nat.
Proof.
  revert rows. induction es as [|e es IH]; intros rows H; [by injection H as <-|].
  apply selectM_cons in H as (o & rest & _ & Hr & ->). specialize (IH rest Hr). destruct o; simpl; lia.
Qed.

Lemma edits_skipped schema p new skipped es h : scan_rows schema p skipped = Ok [] →
  edits (row_edit schema p new) (skipped ++ es) h = edits (row_edit schema p new) es h.
Proof.
  induction skipped as [|e skipped IH]; intros H; [done|]. apply selectM_cons in H as (o & rest & Ho & Hr & Heq).
  destruct o; [done|]. subst rest. assert (row_edit schema p new e = Ok None) as He by (unfold row_edit; by rewrite Ho).
  cbn [app edits]. rewrite He. by apply IH.
Qed.

Lemma scan_row_rid schema p e row : scan_row schema p e = Ok (Some row) → row.2 = Some e.1.
Proof.
  unfold scan_row. destruct (predicate_holds _ _ _) as [[]| | |]; try done. simpl. intros H. res_inv H. by simplify_eq.
Qed.

(** One turn: the next row of the scan. *)
Lemma scan_turn m nid c t h s oid p es rows : heap_ok m (table_ t) h → (length h < pages)%nat → stands h es → (length es < fuel)%nat →
  scan_rows (t_schema_ t) p es = Ok rows →
  match rows with
  | [] => computes (idle m nid, c) (SeqScan_Next fuel pages (the_scan s oid p t (first_of es))) (None, the_scan s oid p t End)
  | row :: rest => ∃ skipped e es', es = skipped ++ e :: es' ∧ scan_rows (t_schema_ t) p skipped = Ok [] ∧
      scan_row (t_schema_ t) p e = Ok (Some row) ∧ stands h (e :: es') ∧ scan_rows (t_schema_ t) p es' = Ok rest ∧
      computes (idle m nid, c) (SeqScan_Next fuel pages (the_scan s oid p t (first_of es))) (Some row, the_scan s oid p t (first_of es'))
  end.
Proof.
  intros Hok Hpages Hst Hes Hrows. pose proof (seq_scan_loop_ok pages m nid c t h one_frame Hok Hpages p es rows fuel Hst Hes Hrows) as H.
  destruct rows as [|row rest].
  - unfold SeqScan_Next. simpl. eapply computes_bind; [exact H|apply computes_ret].
  - destruct H as (skipped & e & es' & ? & ? & ? & ? & _ & ? & H). exists skipped, e, es'. split_and!; try done.
    unfold SeqScan_Next. simpl. eapply computes_bind; [exact H|apply computes_ret].
Qed.

Section EditLoop.
Context (c : Catalog) (t : TableInfo) (nid : Z) (s : Schema) (oid : Z) (p : option AbstractExpression) (new : Row → res bytes).
Context (act : Z * RID → Row → M (Z * RID)).
Abbreviation edit := (row_edit (t_schema_ t) p new).

(** One turn of the body makes the edit of its row. *)
Context (act_edits : ∀ m h r old row b count rid, heap_ok m (table_ t) h → heap_at h r = Some old → row.2 = Some r →
  new row = Ok b → has_room r b h = true → in_i32 (count + 1) = true →
  ∃ d', heap_ok (<[rid_page_id r := d']> m) (table_ t) (edit_at r b h) ∧
    reaches (idle m nid, c) (act (count, rid) row) (count + 1, r) (idle (<[rid_page_id r := d']> m) nid, c)).

Lemma edit_loop_ok rows : ∀ n m h es count rid h',
  heap_ok m (table_ t) h → (length h < pages)%nat → stands h es → (length es < fuel)%nat → (length rows < n)%nat →
  scan_rows (t_schema_ t) p es = Ok rows → edits edit es h = Ok h' → 0 ≤ count → count + Z.of_nat (length rows) ≤ INT32_MAX →
  ∃ m' rid', heap_ok m' (table_ t) h' ∧ heap_step m nid h m' nid h' ∧
    reaches (idle m nid, c) (fold_next (AbstractExecutor0 := seq_scan_executor fuel pages) n act (the_scan s oid p t (first_of es)) (count, rid))
      ((count + Z.of_nat (length rows), rid'), the_scan s oid p t End) (idle m' nid, c).
Proof.
  induction rows as [|row rows IH]; intros [|n] m h es count rid h' Hok Hpages Hst Hes Hn Hrows Hed Hc0 Hmax; try (simpl in Hn; lia);
    pose proof (scan_turn m nid c t h s oid p es _ Hok Hpages Hst Hes Hrows) as Hscan; cbn [fold_next].
  - rewrite <- (app_nil_r es), edits_skipped in Hed by done. injection Hed as <-.
    exists m, rid. split; [done|]. split; [apply heap_step_refl|]. rewrite Z.add_0_r. eapply reaches_bind; [exact Hscan|apply reaches_ret].
  - destruct Hscan as (skipped & [r old] & es' & -> & Hsk & Hrow & Hst1 & Hrest & Hscan). pose proof Hok as (_ & Hnd & _).
    pose proof (stands_deref h r old es' Hnd Hst1) as Hr.
    rewrite edits_skipped in Hed by done. apply edits_cons in Hed as (o & Ho & Hed). unfold row_edit in Ho. rewrite Hrow in Ho. simpl in Ho.
    destruct (new row) as [b| | |] eqn:Hb; simplify_eq/=. destruct Hed as [Hroom Hed]. rewrite length_app in Hes. simpl in Hes, Hn, Hmax.
    destruct (act_edits m h r old row b count rid) as (d' & Hok1 & Hrun); try done;
      [by apply (scan_row_rid _ _ _ _ Hrow)|unfold in_i32, INT32_MIN, INT32_MAX in *; lia|].
    destruct (IH n _ (edit_at r b h) es' (count + 1) r h' Hok1) as (m' & rid' & Hok' & Hstep & Hloop);
      try done; [by rewrite edit_at_length|by apply (stands_edit h r old)|lia|lia|lia|lia|].
    exists m', rid'. split; [done|]. split; [eapply heap_step_trans; [by eapply heap_step_edit|exact Hstep]|].
    eapply reaches_bind; [exact Hscan|]. cbn beta iota. eapply reaches_bind; [exact Hrun|].
    cbn [length].
    replace (count + Z.of_nat (Datatypes.S (length rows))) with (count + 1 + Z.of_nat (length rows)) by lia. exact Hloop.
Qed.
End EditLoop.

Context (zero_len : Z.of_nat (length (io_zero : bytes)) = PAGE_SIZE).

(** [InsertTuple] puts a tuple. *)
Lemma InsertTuple_puts m nid c first h tuple o h' nid' : heap_ok m first h → (length h ≤ pages)%nat → in_i32 nid = true → 0 ≤ nid →
  m !! nid = None → Z.of_nat (length (data_ tuple)) ≤ PAGE_SIZE → put nid (data_ tuple) h = (o, h', nid') →
  ∃ m', heap_ok m' first h' ∧ heap_step m nid h m' nid' h' ∧ reaches (idle m nid, c) (on_heap (InsertTuple pages first tuple)) o (idle m' nid', c).
Proof using PIO frames zero_len.
  clear fuel fmt_2f.
  intros Hok Hpages Hnid Hpos Hno Hlen Hput. pose proof Hok as (Hc & Hnd & Hne).
  destruct (insert_loop_rule zero_len (data_ tuple) nid frames Hnid ltac:(unfold INVALID_PAGE_ID; lia) Hlen h m first pages Hpages Hc Hnd Hne)
    as (o1 & h1 & nid1 & m' & Hput1 & Hm' & Hrun). rewrite Hput in Hput1. injection Hput1 as <- <- <-.
  destruct (Hm' (λ _, Hno)) as [Hc' Hsame]. exists m'. split; [|split].
  - destruct (inserted_heap_at _ _ m first _ _ _ _ (put_inserted _ _ _ _ _ _ Hput) Hc Hnd (λ _, Hno)) as (Hnd' & Hne' & _). by split.
  - destruct (put_pages _ _ _ _ _ _ Hput) as [[Hp ->]|[Hp ->]].
    + split; [done|by rewrite Hp|rewrite Hp; by left|done].
    + split; [done|rewrite Hp; set_solver| |lia]. rewrite Hp. intros p [?| ->%list_elem_of_singleton]%elem_of_app; [by left|].
      right. split; [done|lia].
  - eapply (reaches_heap (3 * Z.of_nat (length h) + 9)); [lia|]. eapply (triple_mono io_rel io_weaken); [exact Hrun|done|]. by intros x a' (-> & -> & _).
Qed.

Section InsertLoop.
Context (c : Catalog) (src dst : TableInfo) (hs : heap) (s : Schema) (oid : Z) (p : option AbstractExpression).

Lemma insert_select_ok rows : ∀ n m nid h es count n' h' nid',
  heap_ok m (table_ src) hs → heap_ok m (table_ dst) h → hs.*1 ## h.*1 → (∀ q, nid ≤ q → m !! q = None) →
  (length hs < pages)%nat → (length h' ≤ pages)%nat → stands hs es → (length es < fuel)%nat → (length rows < n)%nat →
  scan_rows (t_schema_ src) p es = Ok rows → puts ((λ row, data_ row.1) <$> rows) count nid h = Ok (n', h', nid') →
  0 ≤ count → count + Z.of_nat (length rows) ≤ INT32_MAX →
  ∃ m', heap_ok m' (table_ dst) h' ∧ heap_step m nid h m' nid' h' ∧
    reaches (idle m nid, c) (fold_next (AbstractExecutor0 := seq_scan_executor fuel pages) n (insert_row pages dst) (the_scan s oid p src (first_of es)) count)
      (n', the_scan s oid p src End) (idle m' nid', c).
Proof.
  induction rows as [|row rows IH]; intros [|n] m nid h es count n' h' nid' Hsrc Hdst Hd Hfree Hps Hpd Hst Hes Hn Hrows Hput Hc0 Hmax;
    try (simpl in Hn; lia); pose proof (scan_turn m nid c src hs s oid p es _ Hsrc Hps Hst Hes Hrows) as Hscan; cbn [fold_next].
  - injection Hput as <- <- <-. exists m. split; [done|]. split; [apply heap_step_refl|]. eapply reaches_bind; [exact Hscan|apply reaches_ret].
  - destruct Hscan as (skipped & [r old] & es' & -> & Hsk & Hrow & Hst1 & Hrest & Hscan). rewrite length_app in Hes. simpl in Hes, Hn, Hmax.
    cbn [fmap list_fmap] in Hput. apply puts_cons in Hput as (Hlen & Hpos & Hnid & o & h1 & nid1 & Hput1 & Hput).
    pose proof (put_length _ _ _ _ _ _ Hput1). pose proof (puts_length _ _ _ _ _ _ _ Hput).
    destruct (InsertTuple_puts m nid c _ h row.1 o h1 nid1 Hdst) as (m1 & Hok1 & Hstep1 & Hrun1); try done; [lia|by apply Hfree|].
    destruct (heap_ok_frame _ _ _ _ _ _ _ _ Hstep1 Hsrc Hd) as [Hsrc1 Hd1].
    destruct (IH n m1 nid1 h1 es' (if o then count + 1 else count) n' h' nid') as (m' & Hok' & Hstep & Hloop); try done; try (destruct o; lia).
    { by eapply heap_step_free. }
    { by apply (stands_next hs r old). }
    exists m'. split; [done|]. split; [by eapply heap_step_trans|].
    eapply reaches_bind; [exact Hscan|]. cbn beta iota. eapply reaches_bind; [|exact Hloop].
    unfold insert_row. eapply reaches_bind; [exact Hrun1|]. destruct o; [|apply reaches_ret].
    unfold i32_arith. replace (in_i32 (count + 1)) with true; [apply reaches_ret|]. unfold in_i32, INT32_MIN, INT32_MAX in *. lia.
Qed.
End InsertLoop.

(** ** The engine *)

(** An executor that answers one row. *)
Lemma run_one_shot {E} (impl : AbstractExecutor (S := S) E) g g1 g' (e e1 e2 : E) row ts :
  reaches g (Init e) e1 g1 → reaches g1 (Next e1) (Some row, e2) g' → computes g' (Next e2) (None, e2) → (1 < fuel)%nat →
  mapR (result_tuple (GetOutputSchema e1)) [row] = Ok ts → reaches g (run_executor fuel impl e) ts g'.
Proof.
  intros Hinit Hnext Hend Hfuel Hts. simpl in Hts. destruct (result_tuple (GetOutputSchema e1) row) as [t| | |] eqn:Et; simplify_eq/=.
  assert (reaches g' (st_lift (push_result (GetOutputSchema e1) [] row)) [t] g') as Hpush
    by (apply computes_lift; unfold push_result; by rewrite Et).
  unfold run_executor. eapply reaches_bind; [exact Hinit|]. cbv zeta. destruct fuel as [|[|n]]; try lia. cbn [fold_next].
  eapply (reaches_bind _ _ _ _ _ ([t], e2)); [|apply reaches_ret]. eapply reaches_bind; [exact Hnext|]. cbn beta iota.
  eapply reaches_bind; [exact Hpush|]. eapply reaches_bind; [exact Hend|]. apply reaches_ret.
Qed.

Lemma table_of_computes a c oid t : tables_ c !! oid = Some t → computes (a, c) (table_of oid) t.
Proof.
  intros Ht. unfold table_of. eapply computes_bind; [apply computes_catalog|]. unfold GetTableByOid. rewrite Ht. apply computes_ret.
Qed.

Section Statement.
Context (c : Catalog) (m : gmap Z bytes) (T : Tables) (HT : tables_ok c m T) (Hsmall : small_heaps c T).

(** What the two editing executors share. *)
Lemma edit_effect_ok oid p new rows T' act s t : tables_ c !! oid = Some t →
  edit_effect c T oid p new = Ok (rows, T') → (length (records_of T oid) < fuel)%nat →
  (∀ m h r old row b count rid, heap_ok m (table_ t) h → heap_at h r = Some old → row.2 = Some r →
    new t row = Ok b → has_room r b h = true → in_i32 (count + 1) = true →
    ∃ d', heap_ok (<[rid_page_id r := d']> m) (table_ t) (edit_at r b h) ∧
      reaches (idle m (t_next T), c) (act (count, rid) row) (count + 1, r) (idle (<[rid_page_id r := d']> m) (t_next T), c)) →
  ∃ m' count rid row, tables_ok c m' T' ∧ t_next T' = t_next T ∧ rows = [row] ∧ count_row count = Ok row ∧
    reaches (idle m (t_next T), c) (fold_next (AbstractExecutor0 := seq_scan_executor fuel pages) fuel act
      (the_scan s oid p t (first_of (live (heap_of T oid)))) (0, RID_default)) ((count, rid), the_scan s oid p t End) (idle m' (t_next T), c).
Proof.
  intros Ht He Hfuel Hact. unfold edit_effect in He. rewrite Ht in He.
  destruct (scan_rows (t_schema_ t) p (records_of T oid)) as [srows| | |] eqn:Hrows; simplify_eq/=.
  destruct (edits _ (records_of T oid) (heap_of T oid)) as [h| | |] eqn:Hed; simplify_eq/=.
  destruct (Z.leb_spec (Z.of_nat (length srows)) INT32_MAX); [|done].
  destruct (count_row (Z.of_nat (length srows))) as [row| | |] eqn:Hcount; simplify_eq/=. pose proof (scan_rows_length _ _ _ _ Hrows).
  destruct (edit_loop_ok c t (t_next T) s oid p (new t) act Hact srows fuel m (heap_of T oid) (live (heap_of T oid)) 0 RID_default h)
    as (m' & rid & Hok & Hstep & Hrun); try done; [by apply (to_heap _ _ _ HT)|by eapply Hsmall|apply stands_all|unfold records_of in *; lia|].
  exists m', (Z.of_nat (length srows)), rid, row. split; [by eapply tables_ok_step|].
  split_and!; [done|done|done|exact Hrun].
Qed.

Lemma scan_init s oid p t : tables_ c !! oid = Some t →
  computes (idle m (t_next T), c) (SeqScan_Init pages (mkSeqScan s oid p None End)) (the_scan s oid p t (first_of (live (heap_of T oid)))).
Proof. intros Ht. apply seq_scan_init; try done; [lia|by apply (to_heap _ _ _ HT)|by eapply Hsmall]. Qed.

Lemma delete_runs s s1 oid p ts T' : effect_result c T (DeletePlanNode s (SeqScanPlanNode s1 oid p) oid) = Ok (ts, T') →
  effect_fuel c T (DeletePlanNode s (SeqScanPlanNode s1 oid p) oid) →
  ∃ m', tables_ok c m' T' ∧
    reaches (idle m (t_next T), c) (Execute fuel pages fmt_2f (DeletePlanNode s (SeqScanPlanNode s1 oid p) oid)) ts (idle m' (t_next T'), c).
Proof.
  intros He [Hf1 Hf2]. unfold effect_result in He. cbn [plan_effect] in He. rewrite Z.eqb_refl in He.
  destruct (edit_effect c T oid p (λ _, delete_new)) as [[rows T1]| | |] eqn:Hed; simplify_eq/=.
  destruct (mapR (result_tuple s) rows) as [ts1| | |] eqn:Hts; simplify_eq/=.
  destruct (tables_ c !! oid) as [t|] eqn:Ht; [|by unfold edit_effect in Hed; rewrite Ht in Hed].
  destruct (edit_effect_ok oid p (λ _, delete_new) rows T' delete_row s1 t Ht Hed Hf2) as (m' & count & rid & row & HT' & Hnext & -> & Hcount & Hloop).
  { intros m0 h r old row b count rid Hok Hr Hrid [= <-] _ Hin. destruct (DeleteTuple_edits one_frame m0 (t_next T) _ h r old Hok Hr) as (d' & Hok' & Hrun).
    exists d'. split; [done|]. unfold delete_row. rewrite Hrid. simpl.
    eapply reaches_bind; [eapply (reaches_heap 4) with (v := tt); [lia|]|].
    { eapply (triple_mono io_rel io_weaken); [exact Hrun|done|]. by intros [] a' ->. }
    eapply reaches_bind; [|apply reaches_ret]. unfold i32_arith. rewrite Hin. apply reaches_ret. }
  exists m'. split; [done|]. rewrite Hnext.
  eapply (run_one_shot _ _ _ _ _ (mkDelete s oid (the_scan s1 oid p t (first_of (live (heap_of T oid)))) false) (mkDelete s oid (the_scan s1 oid p t End) true));
    [| | |done|exact Hts]; simpl.
  - eapply computes_bind; [by apply scan_init|apply computes_ret].
  - unfold Delete_Next. simpl. eapply reaches_bind; [by apply table_of_computes|]. eapply reaches_bind; [exact Hloop|]. cbn beta iota.
    eapply reaches_bind; [exact (computes_lift _ _ _ Hcount)|]. apply reaches_ret.
  - apply computes_ret.
Qed.

Lemma update_runs s s1 oid p exprs ts T' : effect_result c T (UpdatePlanNode s (SeqScanPlanNode s1 oid p) oid exprs) = Ok (ts, T') →
  effect_fuel c T (UpdatePlanNode s (SeqScanPlanNode s1 oid p) oid exprs) →
  ∃ m', tables_ok c m' T' ∧
    reaches (idle m (t_next T), c) (Execute fuel pages fmt_2f (UpdatePlanNode s (SeqScanPlanNode s1 oid p) oid exprs)) ts (idle m' (t_next T'), c).
Proof.
  intros He [Hf1 Hf2]. unfold effect_result in He. cbn [plan_effect] in He. rewrite Z.eqb_refl in He.
  destruct (edit_effect c T oid p (λ t, update_new (t_schema_ t) exprs)) as [[rows T1]| | |] eqn:Hed; simplify_eq/=.
  destruct (mapR (result_tuple s) rows) as [ts1| | |] eqn:Hts; simplify_eq/=.
  destruct (tables_ c !! oid) as [t|] eqn:Ht; [|by unfold edit_effect in Hed; rewrite Ht in Hed].
  destruct (edit_effect_ok oid p (λ t, update_new (t_schema_ t) exprs) rows T' (update_row t exprs) s1 t Ht Hed Hf2)
    as (m' & count & rid & row & HT' & Hnext & -> & Hcount & Hloop).
  { intros m0 h r old row b count rid Hok Hr Hrid Hnew Hroom Hin. unfold update_new in Hnew.
    destruct (mapR _ exprs) as [vs| | |] eqn:Hvs; simplify_eq/=. destruct (Tuple_new vs) as [tuple| | |] eqn:Htuple; simplify_eq/=.
    destruct (UpdateTuple_edits one_frame m0 (t_next T) _ h r old tuple Hok Hr Hroom) as (d' & Hok' & Hrun).
    exists d'. split; [done|]. unfold update_row. rewrite Hrid. simpl.
    eapply reaches_bind; [exact (computes_lift _ _ _ Hvs)|]. eapply reaches_bind; [exact (computes_lift _ _ _ Htuple)|].
    eapply reaches_bind; [by eapply (reaches_heap 4) with (v := true); [lia|]|].
    eapply reaches_bind; [|apply reaches_ret]. unfold i32_arith. rewrite Hin. apply reaches_ret. }
  exists m'. split; [done|]. rewrite Hnext.
  eapply (run_one_shot _ _ _ _ _ (mkUpdate s oid exprs (the_scan s1 oid p t (first_of (live (heap_of T oid)))) false)
    (mkUpdate s oid exprs (the_scan s1 oid p t End) true)); [| | |done|exact Hts]; simpl.
  - eapply computes_bind; [by apply scan_init|apply computes_ret].
  - unfold Update_Next. simpl. eapply reaches_bind; [by apply table_of_computes|]. eapply reaches_bind; [exact Hloop|]. cbn beta iota.
    eapply reaches_bind; [exact (computes_lift _ _ _ Hcount)|]. apply reaches_ret.
  - apply computes_ret.
Qed.

Lemma insert_runs s s1 src oid p ts T' : src ≠ oid → effect_result c T (InsertPlanNode s (SeqScanPlanNode s1 src p) oid) = Ok (ts, T') →
  effect_fuel c T (InsertPlanNode s (SeqScanPlanNode s1 src p) oid) → small_heaps c T' →
  ∃ m', tables_ok c m' T' ∧
    reaches (idle m (t_next T), c) (Execute fuel pages fmt_2f (InsertPlanNode s (SeqScanPlanNode s1 src p) oid)) ts (idle m' (t_next T'), c).
Proof.
  intros Hne He [Hf1 Hf2] Hsmall'. unfold effect_result in He. cbn [plan_effect] in He. rewrite (proj2 (Z.eqb_neq _ _) Hne) in He.
  unfold insert_effect in He. destruct (tables_ c !! src) as [st|] eqn:Hst; [|done]. destruct (tables_ c !! oid) as [t|] eqn:Ht; [|done].
  destruct (scan_rows (t_schema_ st) p (records_of T src)) as [srows| | |] eqn:Hrows; simplify_eq/=. pose proof (scan_rows_length _ _ _ _ Hrows).
  destruct (puts _ 0 (t_next T) (heap_of T oid)) as [[[n h] nid]| | |] eqn:Hput; simplify_eq/=.
  match type of He with context [?n <=? INT32_MAX] => destruct (Z.leb_spec n INT32_MAX) as [Hmax|] end; [|done].
  destruct (count_row n) as [row| | |] eqn:Hcount; simplify_eq/=.
  destruct (result_tuple s row) as [rt| | |] eqn:Hts; simplify_eq/=.
  destruct (insert_select_ok c st t (heap_of T src) s1 src p srows fuel m (t_next T) (heap_of T oid) (live (heap_of T src)) 0 n h nid)
    as (m' & Hok & Hstep & Hrun); try done.
  { by apply (to_heap _ _ _ HT). } { by apply (to_heap _ _ _ HT). } { by eapply (to_apart _ _ _ HT). } { apply (to_free _ _ _ HT). }
  { by eapply Hsmall. } { specialize (Hsmall' oid t Ht). rewrite heap_of_set, decide_True in Hsmall' by done. lia. }
  { apply stands_all. } { unfold records_of in *. lia. }
  exists m'. split; [by eapply tables_ok_step|]. simpl.
  eapply (run_one_shot _ _ _ _ _ (mkInsert s oid (the_scan s1 src p st (first_of (live (heap_of T src)))) false) (mkInsert s oid (the_scan s1 src p st End) true));
    [| | |done|simpl; by rewrite Hts]; simpl.
  - eapply computes_bind; [by apply scan_init|apply computes_ret].
  - unfold Insert_Next. simpl. eapply reaches_bind; [by apply table_of_computes|]. eapply reaches_bind; [exact Hrun|]. cbn beta iota.
    eapply reaches_bind; [exact (computes_lift _ _ _ Hcount)|]. apply reaches_ret.
  - apply computes_ret.
Qed.

(** A plan that is not one of the three is a query. *)
Lemma query_runs plan ts : query_result fmt_2f c (records_of T) plan = Ok ts → enough_fuel fuel fmt_2f c (records_of T) plan →
  computes (idle m (t_next T), c) (Execute fuel pages fmt_2f plan) ts.
Proof.
  intros Hq Hf. apply (Execute_query fuel pages fmt_2f one_frame m (t_next T) c (heap_of T)); [|done|done].
  intros oid t Ht. split; [by apply (to_heap _ _ _ HT)|by eapply Hsmall].
Qed.

Lemma Execute_runs plan ts T' : effect_result c T plan = Ok (ts, T') → effect_fuel c T plan → small_heaps c T' →
  ∃ m', tables_ok c m' T' ∧ reaches (idle m (t_next T), c) (Execute fuel pages fmt_2f plan) ts (idle m' (t_next T'), c).
Proof.
  intros He Hf Hsmall'.
  assert (plan_effect c T plan = (rows ← query_rows fmt_2f c (records_of T) plan; Ok (rows, T)) →
    enough_fuel fuel fmt_2f c (records_of T) plan →
    ∃ m', tables_ok c m' T' ∧ reaches (idle m (t_next T), c) (Execute fuel pages fmt_2f plan) ts (idle m' (t_next T'), c)) as Hquery.
  { intros Heq Hfq. unfold effect_result in He. rewrite Heq in He.
    assert (query_result fmt_2f c (records_of T) plan = Ok ts ∧ T' = T) as [Hq ->].
    { unfold query_result. destruct (query_rows _ _ _ plan) as [rows| | |]; simplify_eq/=. by destruct (mapR _ rows); simplify_eq/=. }
    exists m. split; [done|]. by apply query_runs. }
  destruct plan as [|s oid p|s oid ioid key p|s child oid|s child oid|s child oid exprs|s l r p|s l r lk rk
    |s child gb aggs types|s child obs|s child limit|s child exprs|s ut table index attrs names missing_ok];
    try (by apply Hquery); destruct child as [|s1 src p| | | | | | | | | | |]; try (by apply Hquery).
  - destruct (Z.eqb_spec src oid) as [->|Hne]; [|by apply (insert_runs s s1 src oid p)].
    unfold effect_result in He. cbn [plan_effect] in He. by rewrite Z.eqb_refl in He.
  - destruct (Z.eqb_spec src oid) as [->|Hne]; [by apply (delete_runs s s1 oid p)|].
    unfold effect_result in He. cbn [plan_effect] in He. by rewrite (proj2 (Z.eqb_neq _ _) Hne) in He.
  - destruct (Z.eqb_spec src oid) as [->|Hne]; [by apply (update_runs s s1 oid p exprs)|].
    unfold effect_result in He. cbn [plan_effect] in He. by rewrite (proj2 (Z.eqb_neq _ _) Hne) in He.
Qed.
End Statement.

(** ** What the effects are, in records *)

Lemma heap_nodup c m T oid t : tables_ok c m T → tables_ c !! oid = Some t → NoDup (heap_of T oid).*1.
Proof. intros HT Ht. by destruct (to_heap _ _ _ HT oid t Ht) as (_ & ? & _). Qed.

(** The answer: one row with the number of records. *)
Definition counts (n : nat) (rows : list Row) : Prop := ∃ row, count_row (Z.of_nat n) = Ok row ∧ rows = [row].
Definition others_same (oid : Z) (T T' : Tables) : Prop := ∀ oid', oid' ≠ oid → heap_of T' oid' = heap_of T oid'.

Lemma edit_effect_records c m T oid p new rows T' : tables_ok c m T → edit_effect c T oid p new = Ok (rows, T') →
  ∃ t srows, tables_ c !! oid = Some t ∧ scan_rows (t_schema_ t) p (records_of T oid) = Ok srows ∧ counts (length srows) rows ∧
    records_of T' oid = omap (edited (row_edit (t_schema_ t) p (new t))) (records_of T oid) ∧ others_same oid T T'.
Proof.
  intros HT He. unfold edit_effect in He. destruct (tables_ c !! oid) as [t|] eqn:Ht; [|done].
  destruct (scan_rows (t_schema_ t) p (records_of T oid)) as [srows| | |] eqn:Hrows; simplify_eq/=.
  destruct (edits _ (records_of T oid) (heap_of T oid)) as [h| | |] eqn:Hed; simplify_eq/=.
  match type of He with context [?n <=? INT32_MAX] => destruct (Z.leb_spec n INT32_MAX) as [_|] end; [|done].
  destruct (count_row (Z.of_nat (length srows))) as [row| | |] eqn:Hcount; simplify_eq/=.
  exists t, srows. split; [done|]. split; [done|]. split; [by exists row|]. split.
  - unfold records_of at 1. rewrite heap_of_set, decide_True by done. apply edits_live; [|done]. by eapply heap_nodup.
  - intros oid' Hne. by rewrite heap_of_set, decide_False.
Qed.

Lemma insert_effect_records c T src oid p rows T' : insert_effect c T src oid p = Ok (rows, T') →
  ∃ st srows os, tables_ c !! src = Some st ∧ scan_rows (t_schema_ st) p (records_of T src) = Ok srows ∧ length os = length srows ∧
    counts (length (filter is_Some os)) rows ∧
    records_of T' oid ≡ₚ concat (zip_with new_record os ((λ row, data_ row.1) <$> srows)) ++ records_of T oid ∧ others_same oid T T'.
Proof.
  unfold insert_effect. destruct (tables_ c !! src) as [st|], (tables_ c !! oid) as [t|]; try done. intros He.
  destruct (scan_rows (t_schema_ st) p (records_of T src)) as [srows| | |] eqn:Hrows; simplify_eq/=.
  destruct (puts _ 0 (t_next T) (heap_of T oid)) as [[[n h] nid]| | |] eqn:Hput; simplify_eq/=.
  match type of He with context [?n <=? INT32_MAX] => destruct (Z.leb_spec n INT32_MAX) as [_|] end; [|done].
  destruct (count_row n) as [row| | |] eqn:Hcount; simplify_eq/=.
  apply puts_live in Hput as (os & Hlen & Hlive & ->). rewrite length_fmap in Hlen.
  exists st, srows, os. split; [done|]. split; [done|]. split; [done|]. split; [by exists row|]. split.
  - unfold records_of at 1. by rewrite heap_of_set, decide_True.
  - intros oid' Hne. by rewrite heap_of_set, decide_False.
Qed.

Lemma deleted_records schema p es rows : scan_rows schema p es = Ok rows →
  omap (edited (row_edit schema p delete_new)) es = filter (λ e, selected schema p e = false) es.
Proof.
  revert rows. induction es as [|e es IH]; intros rows H; [done|]. apply selectM_cons in H as (o & rest & Ho & Hr & _).
  rewrite filter_cons, (scan_row_selected _ _ _ _ Ho), <- (IH rest Hr). cbn [omap list_omap].
  unfold edited at 1, row_edit at 1. rewrite Ho. by destruct o.
Qed.

(** What a plan does to the records of the tables. *)
Definition changes_records (c : Catalog) (T : Tables) (plan : AbstractPlanNode) (rows : list Row) (T' : Tables) : Prop :=
  match plan with
  | DeletePlanNode _ (SeqScanPlanNode _ oid p) _ => ∃ t srows,
      tables_ c !! oid = Some t ∧ scan_rows (t_schema_ t) p (records_of T oid) = Ok srows ∧ counts (length srows) rows ∧
      records_of T' oid = filter (λ e, selected (t_schema_ t) p e = false) (records_of T oid) ∧ others_same oid T T'
  | UpdatePlanNode _ (SeqScanPlanNode _ oid p) _ exprs => ∃ t srows,
      tables_ c !! oid = Some t ∧ scan_rows (t_schema_ t) p (records_of T oid) = Ok srows ∧ counts (length srows) rows ∧
      records_of T' oid = omap (edited (row_edit (t_schema_ t) p (update_new (t_schema_ t) exprs))) (records_of T oid) ∧ others_same oid T T'
  | InsertPlanNode _ (SeqScanPlanNode _ src p) oid => ∃ st srows os,
      tables_ c !! src = Some st ∧ scan_rows (t_schema_ st) p (records_of T src) = Ok srows ∧ length os = length srows ∧
      counts (length (filter is_Some os)) rows ∧
      records_of T' oid ≡ₚ concat (zip_with new_record os ((λ row, data_ row.1) <$> srows)) ++ records_of T oid ∧ others_same oid T T'
  | _ => T' = T
  end.

Lemma plan_effect_records c m T plan rows T' : tables_ok c m T → plan_effect c T plan = Ok (rows, T') → changes_records c T plan rows T'.
Proof.
  assert ((rows ← query_rows fmt_2f c (records_of T) plan; Ok (rows, T)) = Ok (rows, T') → T' = T) as Hquery.
  { destruct (query_rows _ _ _ plan); intros; by simplify_eq/=. }
  intros HT He. destruct plan as [| | |s child oid|s child oid|s child oid exprs| | | | | | |]; try (by apply Hquery);
    destruct child as [|s1 src p| | | | | | | | | | |]; try (by apply Hquery); clear Hquery; cbn [plan_effect] in He; case_match; try done.
  - by apply insert_effect_records.
  - destruct (edit_effect_records c m T oid p _ rows T' HT He) as (t & srows & Ht & Hrows & Hcount & Hrec & Hother).
    replace src with oid by lia. exists t, srows. do 3 (split; [done|]). split; [|done]. rewrite Hrec. by eapply deleted_records.
  - replace src with oid by lia. by apply (edit_effect_records c m T oid p (λ t, update_new (t_schema_ t) exprs)).
Qed.

End Effects.

(** ** Witnesses: INSERT INTO u SELECT * FROM t WHERE a = 7, on a demo database of two tables *)

Definition empty_page : bytes := made (TablePage.Init (-1) blank_page).
Definition u_table : TableInfo := mkTableInfo int_schema "u" 1 2.
Definition two_catalog : Catalog := mkCatalog 3 1 {[1 := int_table; 2 := u_table]} {["t" := 1; "u" := 2]} ∅ ∅.
Definition two_pages : gmap Z bytes := {[0 := int_page; 1 := empty_page]}.
Definition two_tables : Tables := mkTables {[1 := int_heap; 2 := [(1, ([], 4080))]]} 2.
Definition copy_plan : AbstractPlanNode := InsertPlanNode int_schema (SeqScanPlanNode int_schema 1 (Some (int_is 7))) 2.

Lemma two_tables_cases oid t : tables_ two_catalog !! oid = Some t → (oid = 1 ∧ t = int_table) ∨ (oid = 2 ∧ t = u_table).
Proof.
  intros H. change (({[1 := int_table; 2 := u_table]} : gmap Z TableInfo) !! oid = Some t) in H.
  apply lookup_insert_Some in H as [[<- <-]|[_ H]]; [by left|]. apply lookup_singleton_Some in H as [<- <-]. by right.
Qed.

Lemma two_tables_ok : tables_ok two_catalog two_pages two_tables.
Proof.
  split.
  - intros oid t [[-> ->]|[-> ->]]%two_tables_cases; (split; [|split; [apply NoDup_singleton|done]]); simpl.
    + split; [done|]. split; [done|]. exists int_page, (-1). split; [reflexivity|]. split; [exact int_page_view|done].
    + split; [done|]. split; [done|]. destruct (Init_ok (-1) blank_page) as (d & Hd & Hv); [reflexivity|].
      exists d, (-1). split; [|done]. unfold two_pages. rewrite lookup_insert_ne, lookup_singleton_eq by done. f_equal.
      unfold empty_page. by rewrite Hd.
  - intros oid t oid' t' [[-> ->]|[-> ->]]%two_tables_cases [[-> ->]|[-> ->]]%two_tables_cases Hne; try done;
      intros p Hp Hp'; vm_compute in Hp, Hp'; apply list_elem_of_singleton in Hp, Hp'; congruence.
  - simpl. intros p Hp. unfold two_pages. rewrite lookup_insert_ne, lookup_singleton_ne by lia. done.
Qed.

Lemma two_tables_small : small_heaps 5 two_catalog two_tables.
Proof. intros oid t [[-> ->]|[-> ->]]%two_tables_cases; vm_compute; lia. Qed.

Section Demo.
#[local] Existing Instance demo_io.
#[local] Existing Instance listed_order.
#[local] Existing Instance insertion_std_sort.

Definition copied : list Tuple * Tables :=
  match effect_result (λ _, "") two_catalog two_tables copy_plan with Ok r => r | _ => ([], two_tables) end.

Lemma copied_small : small_heaps 5 two_catalog copied.2.
Proof. intros oid t [[-> ->]|[-> ->]]%two_tables_cases; vm_compute; lia. Qed.

End Demo.
