(* ===== verification/SelfInsert.v ===== *)
(** * INSERT INTO t SELECT * FROM t

    The scan of [seq_scan_executor.cpp] reads the table while [insert_executor.cpp]
    writes it: copies that land ahead of the scan are read in their turn.  Where all do,
    the statement does not end. *)

From S2P Require Import Prelude Common Value Tuple Expression PageStore PageIO PageLogic TablePage TableHeap TableEdit Catalog Executor.
From S2P Require Import Operators Join Aggregate Dml OrderBy Utility Engine Effects.

(** ** Insertion at the end of a heap *)

(** Only the last page may have room for a tuple of [L] bytes. *)
Definition filled (L : Z) (h : heap) : Prop := ∀ h0 p, h = h0 ++ [p] → Forall (λ q, q.2.2 < L + 4) h0.

Lemma put_past nid b h0 h2 : Forall (λ q, q.2.2 < Z.of_nat (length b) + 4) h0 →
  put nid b (h0 ++ h2) = let '(o, h', nid') := put nid b h2 in (o, h0 ++ h', nid').
Proof.
  induction 1 as [|[pid [ts free]] h0 Hp _ IH]; [cbn [app]; destruct (put nid b h2) as [[? ?] ?]; done|]. simpl in Hp. cbn [app put].
  rewrite (proj2 (Z.leb_gt _ _)) by lia. rewrite IH. by destruct (put nid b h2) as [[? ?] ?].
Qed.

(** An iterator that stands somewhere also sees the tuple appended. *)
Lemma stands_append h0 pid ts free p' tail r b es :
  stands (h0 ++ [(pid, (ts, free))]) es → es ≠ [] →
  (∀ i, (i ≤ length ts)%nat → live_slots pid i (drop i p'.1) ++ live tail = live_slots pid i (drop i ts) ++ [(r, b)]) →
  (∀ i t, ts !! i = Some t → p'.1 !! i = Some t) →
  stands (h0 ++ (pid, p') :: tail) (es ++ [(r, b)]).
Proof.
  intros [->|(h1 & pid1 & ts1 & free1 & h2 & i & t & Heq & Hi & Hne & ->)] Hes Htail Hkeep; [done|]. clear Hes. right.
  destruct (decide (h2 = [])) as [->|Hh2].
  - apply app_inj_tail in Heq as [-> [= -> -> ->]]. destruct p' as [ts' free'].
    eexists h1, pid1, ts', free', tail, i, t. split_and!; [done|by apply Hkeep|done|]. cbn [app]. f_equal.
    change (live []) with (@nil (RID * bytes)). rewrite app_nil_r. symmetry. apply Htail. apply lookup_lt_Some in Hi. lia.
  - destruct (exists_last Hh2) as (h3 & q & ->). rewrite app_comm_cons, app_assoc in Heq. apply app_inj_tail in Heq as [-> <-].
    eexists h1, pid1, ts1, free1, (h3 ++ (pid, p') :: tail), i, t. split_and!; [by rewrite <- app_assoc|done|done|].
    cbn [app]. f_equal. rewrite <- app_assoc. f_equal. rewrite !live_app, <- app_assoc. f_equal.
    specialize (Htail 0%nat ltac:(lia)). rewrite !drop_0 in Htail. symmetry.
    change (live ((pid, p') :: tail)) with (live_slots pid 0 p'.1 ++ live tail). rewrite Htail.
    change (live [(pid, (ts, free))]) with (live_slots pid 0 ts ++ []). by rewrite app_nil_r.
Qed.

Lemma put_at_end L nid b h : Z.of_nat (length b) = L → 0 < L → L + 4 ≤ 4080 → h ≠ [] → filled L h →
  ∃ r h' nid', put nid b h = (Some r, h', nid') ∧ filled L h' ∧ nid' ≤ nid + 1 ∧ (length h' ≤ S (length h))%nat ∧
    ∀ es, stands h es → es ≠ [] → stands h' (es ++ [(r, b)]).
Proof.
  intros HL Hpos Hfit Hne Hfull. destruct (exists_last Hne) as (h0 & [pid [ts free]] & ->).
  assert (b ≠ []) as Hb by (intros ->; simpl in HL; lia).
  pose proof (Hfull h0 _ eq_refl) as Hall. rewrite put_past by (by rewrite HL). cbn [put].
  destruct (Z.leb_spec (Z.of_nat (length b) + 4) free) as [Hroom|Hno].
  - eexists _, _, nid. split; [done|]. split_and!; [|lia|rewrite !length_app; simpl; lia|].
    { by intros h1 q [<- _]%app_inj_tail. }
    intros es Hes Hes0. apply (stands_append h0 pid ts free); [done|done| |].
    + intros i Hi. simpl. rewrite drop_app_le, live_slots_app, live_slots_cons, decide_False by done.
      change (live []) with (@nil (RID * bytes)). change (live_slots pid ?n []) with (@nil (RID * bytes)).
      rewrite !app_nil_r. rewrite length_drop. by replace (i + (length ts - i))%nat with (length ts) by lia.
    + intros i t Hi. simpl. by apply lookup_app_l_Some.
  - assert (fits_new_page b = true) as Hf by (unfold fits_new_page; apply Z.leb_le; lia).
    unfold appended_rid, appended. rewrite Hf. eexists _, _, (nid + 1). split; [done|].
    split_and!; [|lia|rewrite !length_app; simpl; lia|].
    { intros h1 q H. assert ((h0 ++ [(pid, (ts, free))]) ++ [(nid, ([b], 4080 - Z.of_nat (length b) - 4))] = h1 ++ [q]) as H'
        by (rewrite <- app_assoc; exact H).
      apply app_inj_tail in H' as [<- _]. apply Forall_app. split; [done|]. constructor; [simpl; lia|done]. }
    intros es Hes Hes0. apply (stands_append h0 pid ts free _ [(nid, ([b], 4080 - Z.of_nat (length b) - 4))]); [done|done| |done].
    intros i Hi. f_equal. simpl. unfold live. simpl. by rewrite live_slots_cons, decide_False.
Qed.

(** ** Running out of fuel *)

Section SelfInsert.
Context {S : Type} `{PIO : !PageIO bytes S} {HO : HashOrder} {SS : StdSort} (fuel pages : nat) (fmt_2f : Z → string).
Abbreviation M A := (ST (DB S) A).

(** From [g] on, [c] uses up its fuel. *)
Definition runs_out {A} (g : Store bytes * Catalog) (c : M A) : Prop :=
  ∃ n, 0 ≤ n ∧ ∀ k d, 0 ≤ k → db_rel (k + n) g d → ∃ d', c d = (OutOfFuel, d').

Lemma runs_out_fuel {A} g : runs_out g (st_fuel : M A).
Proof. exists 0. split; [done|]. intros k d _ _. by exists d. Qed.

Lemma runs_out_first {A B} g (c : M A) (f : A → M B) : runs_out g c → runs_out g (c ≫= f).
Proof.
  intros (n & Hn & Hc). exists n. split; [done|]. intros k d Hk Hd. destruct (Hc k d Hk Hd) as (d' & H). exists d'.
  unfold mbind, st_bind. by rewrite H.
Qed.

Lemma runs_out_then {A B} g g1 (c : M A) (f : A → M B) x : reaches g c x g1 → runs_out g1 (f x) → runs_out g (c ≫= f).
Proof.
  intros (n1 & Hn1 & Hc) (n2 & Hn2 & Hf). exists (n2 + n1). split; [lia|]. intros k d Hk Hd.
  destruct (Hc (k + n2) d) as (y & d1 & g' & H1 & [-> ->] & Hd1); [lia|by replace (k + n2 + n1) with (k + (n2 + n1)) by lia|].
  destruct (Hf k d1 Hk Hd1) as (d' & H2). exists d'. by rewrite (st_bind_ok _ _ _ _ _ H1).
Qed.

(** ** The statement *)

Context (frames : 2 ≤ io_frames) (zero_len : Z.of_nat (length (io_zero : bytes)) = PAGE_SIZE).

(** Every record of the table is selected, and its copy is such a record, of [L] bytes. *)
Definition copies (schema : Schema) (p : option AbstractExpression) (L : Z) (B : bytes → Prop) : Prop :=
  ∀ r b, B b → ∃ row, scan_row schema p (r, b) = Ok (Some row) ∧ B (data_ row.1) ∧ Z.of_nat (length (data_ row.1)) = L.

Section Loop.
Context (c : Catalog) (t : TableInfo) (s : Schema) (oid : Z) (p : option AbstractExpression) (L : Z) (B : bytes → Prop).
Context (HB : copies (t_schema_ t) p L B) (HL : 0 < L ∧ L + 4 ≤ 4080).
Abbreviation the_scan it := (mkSeqScan s oid p (Some t) it).

(** The scan reads a record and moves on. *)
Lemma scan_reads m nid h r b es row : heap_ok m (table_ t) h → (length h < pages)%nat → (0 < fuel)%nat → stands h ((r, b) :: es) →
  scan_row (t_schema_ t) p (r, b) = Ok (Some row) →
  computes (idle m nid, c) (SeqScan_Next fuel pages (the_scan (first_of ((r, b) :: es)))) (Some row, the_scan (first_of es)).
Proof.
  intros Hok Hpages Hfuel Hst Hrow. destruct fuel as [|f]; [lia|]. pose proof Hok as (_ & Hnd & _).
  destruct (next_computes pages m nid c t h (one_frame frames) Hok Hpages r b es Hst) as [Hnext _].
  unfold scan_row in Hrow. simpl in Hrow. destruct (predicate_holds p (mkTuple r b []) (t_schema_ t)) as [keep| | |] eqn:Hk; simplify_eq/=.
  destruct keep; [|done]. res_inv Hrow. unfold SeqScan_Next. simpl.
  eapply (computes_bind _ _ _ (_, _)); [|apply computes_ret]. rewrite (stands_not_end pages m t h Hok Hpages r b es Hst).
  eapply computes_bind; [apply (deref_computes pages m nid c t h (one_frame frames) Hok Hpages); by eapply stands_deref|].
  eapply computes_bind; [exact Hnext|]. eapply computes_bind; [by apply computes_lift|]. cbn beta iota.
  eapply computes_bind; [by apply computes_lift|]. eapply computes_bind; [by apply computes_lift|]. apply computes_ret.
Qed.

Lemma self_insert_loop n : ∀ m nid h e es count,
  heap_ok m (table_ t) h → (∀ q, nid ≤ q → m !! q = None) → 0 ≤ nid → nid + Z.of_nat n ≤ INT32_MAX → (length h + n < pages)%nat → (0 < fuel)%nat →
  filled L h → stands h (e :: es) → es ≠ [] → Forall (λ e, B e.2) (e :: es) → 0 ≤ count → count + Z.of_nat n ≤ INT32_MAX →
  runs_out (idle m nid, c) (fold_next (AbstractExecutor0 := seq_scan_executor fuel pages) n (insert_row pages t) (the_scan (first_of (e :: es))) count).
Proof.
  induction n as [|n IH]; intros m nid h [r b] es count Hok Hfree Hpos Hnid Hpages Hfuel Hfull Hst Hes HBs Hc0 Hmax; [apply runs_out_fuel|].
  inversion HBs as [|? ? HBb HBes]; subst. destruct (HB r b HBb) as (row & Hrow & HBrow & HLrow). cbn [fold_next].
  eapply runs_out_then; [apply (scan_reads m nid h r b es row); [exact Hok|lia|exact Hfuel|exact Hst|exact Hrow]|]. cbn beta iota.
  destruct (put_at_end L nid (data_ row.1) h HLrow) as (r' & h' & nid' & Hput & Hfull' & Hle & Hlen & Hst'); [lia|lia|by destruct Hok as (_ & _ & ?)|done|].
  destruct (InsertTuple_puts pages frames zero_len m nid c (table_ t) h row.1 (Some r') h' nid') as (m' & Hok' & Hstep & Hrun);
    [done|lia|unfold in_i32, INT32_MIN, INT32_MAX in *; lia|done|by apply Hfree|unfold PAGE_SIZE; lia|done|].
  destruct es as [|e es]; [done|]. pose proof (hs_next _ _ _ _ _ _ Hstep).
  eapply runs_out_then.
  { unfold insert_row. eapply reaches_bind; [exact Hrun|]. cbn beta iota. unfold i32_arith.
    replace (in_i32 (count + 1)) with true by (unfold in_i32, INT32_MIN, INT32_MAX in *; lia). apply reaches_ret. }
  change (first_of (e :: es)) with (first_of (e :: es ++ [(r', data_ row.1)])).
  apply (IH m' nid' h'); try done; [by eapply heap_step_free|lia|lia|lia| | | |lia|lia].
  - apply (Hst' (e :: es)); [by eapply stands_next|done].
  - by destruct es.
  - rewrite app_comm_cons. apply Forall_app. split; [done|]. by constructor.
Qed.
End Loop.

(** C26: INSERT INTO t SELECT ... FROM t never ends where every copy lands ahead of the scan.
    On a table with at least two rows, all of them selected and copied to the same
    number [L] of bytes, whose pages but the last have no room for [L] bytes more (as
    insertions of such rows leave them), the statement uses up any amount of fuel,
    as long as page ids last: the scan meets every copy that the insertion makes.
    (Where an earlier page has room, a copy may go there, past which the scan is, and the
    statement may end.)  *)
Theorem insert_into_itself_never_ends c m nid t h s s1 oid p L B :
  tables_ c !! oid = Some t → heap_ok m (table_ t) h → (∀ q, nid ≤ q → m !! q = None) → 0 ≤ nid →
  copies (t_schema_ t) p L B → 0 < L ∧ L + 4 ≤ 4080 → filled L h → Forall (λ e, B e.2) (live h) → (2 ≤ length (live h))%nat →
  nid + Z.of_nat fuel ≤ INT32_MAX → (length h + fuel < pages)%nat →
  runs_out (idle m nid, c) (Execute fuel pages fmt_2f (InsertPlanNode s (SeqScanPlanNode s1 oid p) oid)).
Proof.
  intros Ht Hok Hfree Hpos HB HL Hfull HBs Hrows Hnid Hpages.
  destruct (live h) as [|e [|e2 es]] eqn:Hlive; try (simpl in Hrows; lia).
  unfold Execute. simpl. unfold run_executor. eapply runs_out_then.
  { assert (length h < pages)%nat as Hone by lia. simpl. unfold Insert_Init. simpl. eapply computes_bind; [|apply computes_ret].
    by apply (seq_scan_init pages m nid c t h (one_frame frames) Hok Hone s1 oid p None End). }
  cbv zeta. apply runs_out_first. destruct fuel as [|f] eqn:Hf; [apply runs_out_fuel|]. cbn [fold_next]. apply runs_out_first.
  change (runs_out (idle m nid, c) (Insert_Next (AbstractExecutor0 := seq_scan_executor (Datatypes.S f) pages) (Datatypes.S f) pages
    (mkInsert s oid (mkSeqScan s1 oid p (Some t) (first_of (live h))) false))).
  unfold Insert_Next. cbn [has_inserted_ in_table_oid in_child in_schema]. eapply runs_out_then; [by apply table_of_computes|]. apply runs_out_first. rewrite Hlive.
  rewrite <- Hf in *. apply (self_insert_loop c t s1 oid p L B HB HL fuel m nid h e (e2 :: es) 0); try done; try lia.
  rewrite <- Hlive. apply stands_all.
Qed.
End SelfInsert.

(** ** Witness: the demo table of three rows *)

Definition int_bytes (b : bytes) : Prop := b = int_row 7 ∨ b = int_row 9.

Lemma int_copies : copies int_schema None 4 int_bytes.
Proof.
  intros r b [->| ->]; [exists (mkTuple RID_default (int_row 7) [Value_int INTEGER 7], Some r)|exists (mkTuple RID_default (int_row 9) [Value_int INTEGER 9], Some r)];
    (split; [vm_compute; reflexivity|split; [|vm_compute; reflexivity]]); [by left|by right].
Qed.

Lemma int_start_db k : db_rel (PIO := demo_io) k (idle int_pages 1, int_catalog) (mkDB (idle int_pages 1) int_catalog).
Proof. split; [apply int_start|done]. Qed.

Lemma insert_into_itself_never_ends_witness :
  ∃ d', Execute (PIO := demo_io) (HO := listed_order) (SS := insertion_std_sort) 9 20 (λ _, "")
    (InsertPlanNode int_schema (SeqScanPlanNode int_schema 1 None) 1) (mkDB (idle int_pages 1) int_catalog) = (OutOfFuel, d').
Proof.
  destruct (insert_into_itself_never_ends (PIO := demo_io) (HO := listed_order) (SS := insertion_std_sort) 9 20 (λ _, "")
    ltac:(vm_compute; discriminate) ltac:(vm_compute; reflexivity) int_catalog int_pages 1 int_table int_heap int_schema int_schema 1 None 4 int_bytes)
    as (n & Hn & H).
  - reflexivity.
  - exact int_heap_ok.
  - intros q Hq. unfold int_pages. rewrite lookup_singleton_ne by lia. done.
  - lia.
  - exact int_copies.
  - lia.
  - intros h0 p Heq. destruct h0 as [|x [|y h0]]; [constructor|discriminate Heq|discriminate Heq].
  - repeat constructor; first [by left|by right].
  - vm_compute. lia.
  - vm_compute. discriminate.
  - vm_compute. lia.
  - exact (H 0 _ ltac:(lia) (int_start_db (0 + n))).
Defined.
