(* ===== verification/Optimizer.v ===== *)
(** * The optimizer

    [optimizer.cpp] (src/src/optimizer/): children first, then a sequential scan on
    an equality with a constant becomes an index scan, and a nested-loop join on an
    equality of two columns becomes a hash join.  What the rewritten plan gives is
    compared with what the plan asked for. *)

From stdpp Require Import pretty.
From S2P Require Import Prelude Common Value Tuple Expression PageStore PageIO PageLogic TablePage TableHeap Catalog Executor.
From S2P Require Import Operators Join Aggregate Dml OrderBy Utility Engine.

(** ** The rewrites *)

Section Optimizer.
Context {HO : HashOrder}.

(** The column and the constant of [column = constant] or [constant = column]. *)
Definition lookup_columns (predicate : option AbstractExpression) : option (Z * AbstractExpression) :=
  match predicate with
  | Some (ComparisonExpression l r Equal) =>
      match l, r with
      | ColumnValueExpression _ col _, ConstantValueExpression _ => Some (col, r)
      | ConstantValueExpression _, ColumnValueExpression _ col _ => Some (col, l)
      | _, _ => None
      end
  | _ => None
  end.

(** The loop over the indexes of the table. *)
Fixpoint find_index (col : Z) (indexes : list IndexInfo) : res (option IndexInfo) :=
  match indexes with
  | [] => Ok None
  | i :: indexes =>
      if SupportsPointLookup i then
        attr ← GetLookupAttr i;
        if attr =? col then Ok (Some i) else find_index col indexes
      else find_index col indexes
  end.

Definition OptimizeSeqScanToIndexScan (catalog_ : option Catalog) (plan : AbstractPlanNode) : res AbstractPlanNode :=
  match catalog_, plan with
  | Some c, SeqScanPlanNode schema oid predicate =>
      match lookup_columns predicate with
      | None => Ok plan
      | Some (indexed_col, lookup_key) =>
          match GetTableByOid oid c with
          | None => Ok plan
          | Some table_info =>
              indexes ← GetTableIndexes (t_name_ table_info) c;
              found ← find_index indexed_col indexes;
              Ok (match found with
                  | None => plan
                  | Some i => IndexScanPlanNode schema oid (i_oid_ i) lookup_key predicate
                  end)
          end
      end
  | _, _ => Ok plan
  end.

(** The two columns of an equality between the left and the right tuple. *)
Definition join_columns (predicate : option AbstractExpression) : option (AbstractExpression * AbstractExpression) :=
  match predicate with
  | Some (ComparisonExpression (ColumnValueExpression t1 c1 ty1) (ColumnValueExpression t2 c2 ty2) Equal) =>
      if (t1 =? 0) && (t2 =? 1) then Some (ColumnValueExpression 0 c1 ty1, ColumnValueExpression 0 c2 ty2)
      else if (t1 =? 1) && (t2 =? 0) then Some (ColumnValueExpression 0 c2 ty2, ColumnValueExpression 0 c1 ty1)
      else None
  | _ => None
  end.

Definition OptimizeNLJToHashJoin (plan : AbstractPlanNode) : AbstractPlanNode :=
  match plan with
  | NestedLoopJoinPlanNode schema l r predicate =>
      match join_columns predicate with
      | Some (left_key, right_key) => HashJoinPlanNode schema l r left_key right_key
      | None => plan
      end
  | _ => plan
  end.

Definition apply_rules (catalog_ : option Catalog) (plan : AbstractPlanNode) : res AbstractPlanNode :=
  plan ← OptimizeSeqScanToIndexScan catalog_ plan; Ok (OptimizeNLJToHashJoin plan).

(** A null plan is dereferenced. *)
Fixpoint Optimize (catalog_ : option Catalog) (plan : AbstractPlanNode) : res AbstractPlanNode :=
  match plan with
  | NullPlanNode => UB
  | SeqScanPlanNode _ _ _ | IndexScanPlanNode _ _ _ _ _ | UtilityPlanNode _ _ _ _ _ _ _ => apply_rules catalog_ plan
  | InsertPlanNode s child oid => child ← Optimize catalog_ child; apply_rules catalog_ (InsertPlanNode s child oid)
  | DeletePlanNode s child oid => child ← Optimize catalog_ child; apply_rules catalog_ (DeletePlanNode s child oid)
  | UpdatePlanNode s child oid exprs => child ← Optimize catalog_ child; apply_rules catalog_ (UpdatePlanNode s child oid exprs)
  | NestedLoopJoinPlanNode s l r p =>
      l ← Optimize catalog_ l; r ← Optimize catalog_ r; apply_rules catalog_ (NestedLoopJoinPlanNode s l r p)
  | HashJoinPlanNode s l r lk rk =>
      l ← Optimize catalog_ l; r ← Optimize catalog_ r; apply_rules catalog_ (HashJoinPlanNode s l r lk rk)
  | AggregationPlanNode s child gb aggs types =>
      child ← Optimize catalog_ child; apply_rules catalog_ (AggregationPlanNode s child gb aggs types)
  | SortPlanNode s child obs => child ← Optimize catalog_ child; apply_rules catalog_ (SortPlanNode s child obs)
  | LimitPlanNode s child limit => child ← Optimize catalog_ child; apply_rules catalog_ (LimitPlanNode s child limit)
  | ProjectionPlanNode s child exprs => child ← Optimize catalog_ child; apply_rules catalog_ (ProjectionPlanNode s child exprs)
  end.
End Optimizer.

(** ** Rows up to their order *)

Lemma selectM_perm {A B} (f : A → res (option B)) l l' ys : l' ≡ₚ l → selectM f l = Ok ys → ∃ ys', selectM f l' = Ok ys' ∧ ys' ≡ₚ ys.
Proof.
  intros Hp. revert ys. induction Hp as [|x l' l Hp IH|x y l|l1 l2 l3 _ IH1 _ IH2]; intros ys H.
  - by exists ys.
  - apply selectM_cons in H as (o & rest & Ho & Hrest & ->). destruct (IH rest Hrest) as (rest' & Hr' & Hp').
    cbn [selectM]. rewrite Ho, Hr'. simpl. eexists. split; [done|]. destruct o; [by rewrite Hp'|done].
  - apply selectM_cons in H as (o1 & r1 & Ho1 & Hr1 & ->). apply selectM_cons in Hr1 as (o2 & r2 & Ho2 & Hr2 & ->).
    cbn [selectM]. rewrite Ho2, Ho1, Hr2. simpl. eexists. split; [done|]. destruct o1, o2; try done. apply Permutation_swap.
  - destruct (IH2 ys H) as (y2 & H2 & P2). destruct (IH1 y2 H2) as (y1 & H1 & P1). exists y1. split; [done|]. by rewrite P1, P2.
Qed.

Lemma mapR_selectM {A B} (f : A → res B) l : mapR f l = selectM (λ x, y ← f x; Ok (Some y)) l.
Proof. induction l as [|x l IH]; [done|]. simpl. rewrite IH. by destruct (f x). Qed.

Lemma mapR_perm {A B} (f : A → res B) l l' ys : l' ≡ₚ l → mapR f l = Ok ys → ∃ ys', mapR f l' = Ok ys' ∧ ys' ≡ₚ ys.
Proof. rewrite !mapR_selectM. apply selectM_perm. Qed.

(** A selection as a filter. *)
Definition kept_by {A B} (f : A → res (option B)) (x : A) : list B := match f x with Ok (Some y) => [y] | _ => [] end.
Lemma kept_by_ok {A B} (f : A → res (option B)) x o : f x = Ok o → kept_by f x = match o with Some y => [y] | None => [] end.
Proof. unfold kept_by. by intros ->. Qed.
Lemma selectM_bind {A B} (f : A → res (option B)) l ys :
  selectM f l = Ok ys ↔ (∀ x, x ∈ l → ∃ o, f x = Ok o) ∧ ys = l ≫= kept_by f.
Proof.
  revert ys. induction l as [|x l IH]; intros ys.
  - split; [intros [= <-]; split; [intros x Hx; by apply elem_of_nil in Hx|done]|by intros [_ ->]].
  - assert ((x :: l) ≫= kept_by f = kept_by f x ++ (l ≫= kept_by f)) as Hb by done. split.
    + intros (o & rest & Ho & Hrest & ->)%selectM_cons. destruct (proj1 (IH rest) Hrest) as [Hall ->]. split.
      * intros y [->|Hy]%elem_of_cons; [by exists o|by apply Hall].
      * rewrite Hb, (kept_by_ok f x o Ho). by destruct o.
    + intros [Hall ->]. destruct (Hall x) as [o Ho]; [set_solver|]. rewrite Hb, (kept_by_ok f x o Ho). cbn [selectM]. rewrite Ho.
      rewrite (proj2 (IH (l ≫= kept_by f))) by (split; [intros; apply Hall; set_solver|done]). by destruct o.
Qed.

(** Two nested loops, exchanged. *)
Lemma bind_app_perm {A B} (f g : A → list B) l : l ≫= (λ x, f x ++ g x) ≡ₚ (l ≫= f) ++ (l ≫= g).
Proof.
  induction l as [|x l IH]; simpl; [done|]. rewrite IH. rewrite <- !app_assoc. apply Permutation_app_head.
  rewrite !app_assoc. apply Permutation_app_tail, Permutation_app_comm.
Qed.
Lemma bind_swap {A B D} (f : A → B → list D) l r : l ≫= (λ a, r ≫= f a) ≡ₚ r ≫= (λ b, l ≫= λ a, f a b).
Proof.
  induction l as [|a l IH]; simpl; [by induction r|]. rewrite IH, bind_app_perm. done.
Qed.
Lemma bind_perm {A B} (f : A → list B) l l' : l' ≡ₚ l → l' ≫= f ≡ₚ l ≫= f.
Proof. intros H. by rewrite H. Qed.
Lemma bind_ext {A B} (f g : A → list B) l : (∀ x, x ∈ l → f x = g x) → l ≫= f = l ≫= g.
Proof.
  induction l as [|x l IH]; intros H; [done|]. change ((x :: l) ≫= f) with (f x ++ (l ≫= f)).
  change ((x :: l) ≫= g) with (g x ++ (l ≫= g)). rewrite H, IH by set_solver. done.
Qed.

(** A loop that appends. *)
Definition or_nil {A} (r : res (list A)) : list A := match r with Ok l => l | _ => [] end.
Lemma mapR_concat {A B} (f : A → res (list B)) l ys :
  (∃ parts, mapR f l = Ok parts ∧ ys = concat parts) ↔ (∀ x, x ∈ l → ∃ y, f x = Ok y) ∧ ys = l ≫= λ x, or_nil (f x).
Proof.
  revert ys. induction l as [|x l IH]; intros ys.
  - split; [intros (p & [= <-] & ->); split; [intros x Hx; by apply elem_of_nil in Hx|done]|]. intros [_ ->]. by exists [].
  - change ((x :: l) ≫= λ x, or_nil (f x)) with (or_nil (f x) ++ (l ≫= λ x, or_nil (f x))). split.
    + intros (parts & H & ->). simpl in H. destruct (f x) as [y| | |] eqn:E; try done. simpl in H.
      destruct (mapR f l) as [rest| | |]; try done. injection H as <-.
      destruct (proj1 (IH (concat rest)) (ex_intro _ rest (conj eq_refl eq_refl))) as [Hall Hc]. split.
      * intros z [->|Hz]%elem_of_cons; [by exists y|by apply Hall].
      * simpl. by rewrite Hc.
    + intros [Hall ->]. destruct (Hall x) as [y Hy]; [set_solver|].
      destruct (proj2 (IH (l ≫= λ x, or_nil (f x)))) as (rest & Hr & Hc); [split; [intros; apply Hall; set_solver|done]|].
      exists (y :: rest). cbn [mapR]. rewrite Hy, Hr. simpl. split; [done|]. by rewrite Hc.
Qed.

(** The rows of the nested loops, as nested loops. *)
Lemma nlj_rows_bind p ls rs lrows rrows rows : nlj_rows p ls rs lrows rrows = Ok rows ↔
  (∀ l, l ∈ lrows → ∀ r, r ∈ rrows → ∃ o, nlj_match p ls rs l.1 r = Ok o) ∧
  rows = lrows ≫= λ l, rrows ≫= kept_by (nlj_match p ls rs l.1).
Proof.
  transitivity ((∀ l, l ∈ lrows → ∃ y, selectM (nlj_match p ls rs l.1) rrows = Ok y) ∧
    rows = lrows ≫= λ l, or_nil (selectM (nlj_match p ls rs l.1) rrows)).
  - rewrite <- mapR_concat. unfold nlj_rows. split.
    + destruct (mapR _ lrows) as [parts| | |] eqn:E; try done. intros [= <-]. exists parts. by split; [exact E|].
    + intros (parts & Hparts & ->). by rewrite (res_bind_ok _ _ _ Hparts).
  - split; intros [Hall ->].
    + split; [intros l Hl; destruct (Hall l Hl) as [y Hy]; exact (proj1 (proj1 (selectM_bind _ _ _) Hy))|].
      apply bind_ext. intros l Hl. destruct (Hall l Hl) as [y Hy]. rewrite Hy. exact (proj2 (proj1 (selectM_bind _ _ _) Hy)).
    + assert (∀ l, l ∈ lrows → selectM (nlj_match p ls rs l.1) rrows = Ok (rrows ≫= kept_by (nlj_match p ls rs l.1))) as Hs
        by (intros l Hl; apply selectM_bind; split; [by apply Hall|done]).
      split; [intros l Hl; eexists; by apply Hs|]. apply bind_ext. intros l Hl. by rewrite Hs.
Qed.

Lemma nlj_rows_perm p ls rs lrows lrows' rrows rrows' rows : lrows' ≡ₚ lrows → rrows' ≡ₚ rrows →
  nlj_rows p ls rs lrows rrows = Ok rows → ∃ rows', nlj_rows p ls rs lrows' rrows' = Ok rows' ∧ rows' ≡ₚ rows.
Proof.
  intros Hl Hr [Hall ->]%nlj_rows_bind. eexists. split.
  - apply nlj_rows_bind. split; [|reflexivity]. intros l Hin r Hin'. apply Hall; [by rewrite <- Hl|by rewrite <- Hr].
  - rewrite (bind_perm _ lrows lrows' Hl). clear Hall Hl. induction lrows as [|l lrows IH]; [done|].
    change ((l :: lrows) ≫= λ l, ?f l) with (f l ++ (lrows ≫= λ l, f l)).
    cbn [mbind list_bind]. apply Permutation_app; [by rewrite Hr|exact IH].
Qed.

(** ** A hash join gives the rows of the nested loops, in another order *)

Section JoinRewrite.
Context (fmt_2f : Z → string).

(** The types whose values print alike only when they are equal. *)
Definition printable (t : TypeId) : Prop := t = BOOLEAN ∨ t = INTEGER ∨ t = VARCHAR.

(** The key is a value of type [t], not NULL, on every row. *)
Definition key_typed (t : TypeId) (schema : Schema) (key : AbstractExpression) (rows : list Row) : Prop :=
  ∀ row, row ∈ rows → ∃ v, Evaluate key (Some row.1) schema = Ok v ∧ type_id_ v = t ∧ is_null_ v = false.

Lemma equal_prints t v w : printable t → type_id_ v = t → type_id_ w = t → is_null_ v = false → is_null_ w = false →
  CompareEquals v w = bool_value (bool_decide (ToString fmt_2f v = ToString fmt_2f w)).
Proof.
  intros Ht Hv Hw Nv Nw. unfold CompareEquals, same_type, ToString. rewrite Nv, Nw, Hv, Hw, bool_decide_true by done.
  destruct Ht as [->|[->| ->]]; cbn [mbind res_bind assert]; f_equal.
  - by destruct (boolean_ v), (boolean_ w).
  - destruct (Z.eqb_spec (integer_ v) (integer_ w)) as [->|Hne]; [by rewrite bool_decide_true|].
    rewrite bool_decide_false; [done|]. intros H. apply Hne. by apply (inj pretty).
  - destruct (String.eqb_spec (varchar_ v) (varchar_ w)); [by rewrite bool_decide_true|by rewrite bool_decide_false].
Qed.

Definition key_text (key : AbstractExpression) (schema : Schema) (row : Row) : string :=
  match join_key fmt_2f key schema row.1 with Ok k => k | _ => "" end.

Lemma key_typed_keyed t schema key rows : key_typed t schema key rows →
  keyed fmt_2f key schema rows = Ok ((λ row : Row, (key_text key schema row, row.1)) <$> rows).
Proof.
  intros H. apply mapR_Forall2, Forall2_fmap_r, Forall_Forall2_diag, Forall_forall. intros row Hrow.
  destruct (H row Hrow) as (v & Hv & _). unfold compose, key_text, join_key. rewrite Hv. reflexivity.
Qed.

Lemma bool_decide_sym {A} `{EqDecision A} (x y : A) : bool_decide (x = y) = bool_decide (y = x).
Proof. apply bool_decide_ext. split; congruence. Qed.

Lemma matches_by_key p lk rk t ls rs lrows rrows l r :
  join_columns p = Some (lk, rk) → printable t → key_typed t ls lk lrows → key_typed t rs rk rrows → l ∈ lrows → r ∈ rrows →
  join_matches p l.1 ls r.1 rs = Ok (bool_decide (key_text lk ls l = key_text rk rs r)).
Proof.
  intros Hp Ht Hl Hr Hin Hin'. destruct (Hl l Hin) as (v & Hv & Tv & Nv), (Hr r Hin') as (w & Hw & Tw & Nw).
  unfold key_text, join_key. rewrite Hv, Hw. cbn [mbind res_bind].
  destruct p as [[| | |[|t1 c1 ty1| | | |] [|t2 c2 ty2| | | |] []| |]|]; try discriminate Hp. simpl in Hp.
  destruct (Z.eqb_spec t1 0) as [->|]; simpl in Hp.
  - destruct (Z.eqb_spec t2 1) as [->|]; simpl in Hp; [|discriminate Hp]. injection Hp as <- <-.
    unfold join_matches, EvaluateJoin. simpl. unfold Evaluate in Hv, Hw. simpl in Hv, Hw. rewrite Hv, Hw. simpl.
    rewrite (equal_prints t) by done. by destruct (bool_decide _).
  - destruct (Z.eqb_spec t1 1) as [->|]; simpl in Hp; [|discriminate Hp].
    destruct (Z.eqb_spec t2 0) as [->|]; simpl in Hp; [|discriminate Hp]. injection Hp as <- <-.
    unfold join_matches, EvaluateJoin. simpl. unfold Evaluate in Hv, Hw. simpl in Hv, Hw. rewrite Hv, Hw. simpl.
    rewrite (equal_prints t), bool_decide_sym by done. by destruct (bool_decide _).
Qed.

Lemma probed_matches p ls rs kl k (r : Row) lrows :
  (∀ l, l ∈ lrows → join_matches p l.1 ls r.1 rs = Ok (bool_decide (kl l = k))) →
  (∀ l, l ∈ lrows → ∃ o, nlj_match p ls rs l.1 r = Ok o) →
  ∃ ts, probed ls rs ((λ l : Row, (kl l, l.1)) <$> lrows) (k, r.1) = Ok ts ∧
    with_default_rid ts = lrows ≫= λ l, kept_by (nlj_match p ls rs l.1) r.
Proof.
  unfold probed, bucket. cbn [fst snd]. induction lrows as [|l lrows IH]; intros Hm Ho; [by exists []|].
  destruct IH as (ts & Hts & Hrows); [intros; apply Hm; set_solver|intros; apply Ho; set_solver|].
  change ((l :: lrows) ≫= λ l, kept_by (nlj_match p ls rs l.1) r)
    with (kept_by (nlj_match p ls rs l.1) r ++ (lrows ≫= λ l, kept_by (nlj_match p ls rs l.1) r)).
  rewrite <- Hrows, fmap_cons, filter_cons. cbn [fst].
  destruct (Ho l) as [o Hl]; [set_solver|]. rewrite (kept_by_ok _ _ o Hl). unfold nlj_match in Hl. rewrite Hm in Hl by set_solver.
  cbn [mbind res_bind] in Hl. destruct (decide (kl l = k)) as [Hk|Hk].
  - rewrite bool_decide_true in Hl by done. destruct (joined_tuple l.1 ls r.1 rs) as [t| | |] eqn:Ej; simplify_eq/=.
    rewrite Ej. simpl. setoid_rewrite Hts. simpl. by exists (t :: ts).
  - rewrite bool_decide_false in Hl by done. injection Hl as <-. by exists ts.
Qed.

Lemma hash_join_same_rows p lk rk t ls rs lrows rrows rows :
  join_columns p = Some (lk, rk) → printable t → key_typed t ls lk lrows → key_typed t rs rk rrows →
  nlj_rows p ls rs lrows rrows = Ok rows →
  ∃ rows', hash_join_rows fmt_2f lk rk ls rs lrows rrows = Ok rows' ∧ rows' ≡ₚ rows.
Proof.
  intros Hp Ht Hl Hr [Hrow ->]%nlj_rows_bind.
  unfold hash_join_rows. rewrite (key_typed_keyed t ls lk lrows Hl), (key_typed_keyed t rs rk rrows Hr). cbn [mbind res_bind].
  set (lkeyed := (λ row : Row, (key_text lk ls row, row.1)) <$> lrows).
  assert (∀ r, r ∈ rrows → ∃ ts, probed ls rs lkeyed (key_text rk rs r, r.1) = Ok ts ∧
    with_default_rid ts = lrows ≫= λ l, kept_by (nlj_match p ls rs l.1) r) as Hprobed.
  { intros r Hin. apply probed_matches.
    - intros l Hin'. by apply (matches_by_key p lk rk t ls rs lrows rrows).
    - intros l Hin'. by apply Hrow. }
  assert (∃ hparts, mapR (probed ls rs lkeyed) ((λ row : Row, (key_text rk rs row, row.1)) <$> rrows) = Ok hparts ∧
    with_default_rid (concat hparts) = rrows ≫= λ r, lrows ≫= λ l, kept_by (nlj_match p ls rs l.1) r) as (hparts & -> & Hh).
  { clear -Hprobed. induction rrows as [|r rrows IH]; [by exists []|].
    destruct IH as (hp & Hm & Hc); [intros; apply Hprobed; set_solver|]. destruct (Hprobed r) as (ts & Hts & Hrow); [set_solver|].
    rewrite fmap_cons. cbn [mapR]. rewrite Hts, Hm. exists (ts :: hp). split; [done|].
    change ((r :: rrows) ≫= λ r, lrows ≫= λ l, kept_by (nlj_match p ls rs l.1) r)
      with ((lrows ≫= λ l, kept_by (nlj_match p ls rs l.1) r) ++ (rrows ≫= λ r, lrows ≫= λ l, kept_by (nlj_match p ls rs l.1) r)).
    rewrite <- Hrow, <- Hc. unfold with_default_rid. simpl. by rewrite fmap_app. }
  eexists. split; [reflexivity|]. fold (with_default_rid (concat hparts)). rewrite Hh. symmetry. apply bind_swap.
Qed.
End JoinRewrite.

(** ** An index scan on a current index gives the rows of the sequential scan *)

(** The index has one entry for each record, under its key, in table order: what
    [CreateIndex] builds. *)
Definition index_current (t : TableInfo) (es : list (RID * bytes)) (i : IndexInfo) : Prop :=
  ∃ attr ks, GetLookupAttr i = Ok attr ∧ Forall2 (λ e k, row_key (t_schema_ t) attr e = Ok k) es ks ∧
    ∀ key, LookupInteger i key = match rids_of key (zip ks es.*1) with [] => None | l => Some l end.

Lemma predicate_by_key p attr key schema e k : lookup_columns p = Some (attr, key) → row_key schema attr e = Ok k →
  ∃ v, key = ConstantValueExpression v ∧
    predicate_holds p (mkTuple e.1 e.2 []) schema =
      if has_type INTEGER v then Ok (k =? integer_ v) else Throw (LogicError mismatch).
Proof.
  intros Hp Hk. unfold row_key in Hk. destruct (GetValueBy _ schema attr) as [cv| | |] eqn:Ecv; try done. cbn [mbind res_bind] in Hk.
  assert (type_id_ cv = INTEGER ∧ integer_ cv = k) as [Tcv <-].
  { unfold GetAsInteger, has_type in Hk. destruct (decide (type_id_ cv = INTEGER)) as [Ht|]; [|by rewrite bool_decide_false in Hk].
    rewrite bool_decide_true in Hk by done. by injection Hk as <-. }
  destruct p as [[| | |l r []| |]|]; try discriminate Hp. destruct l as [|tl cl tyl|vl| | |], r as [|tr cr tyr|vr| | |]; try discriminate Hp;
    injection Hp as -> <-; [exists vr|exists vl]; (split; [done|]); unfold predicate_holds, Evaluate; cbn [eval mbind res_bind];
    rewrite Ecv; cbn [mbind res_bind PerformComparison]; unfold CompareEquals, same_type, has_type, assert.
  - rewrite Tcv. destruct (decide (type_id_ vr = INTEGER)) as [->|Hne].
    + rewrite !bool_decide_true by done. simpl. by destruct (_ =? _).
    + rewrite !bool_decide_false by done. done.
  - rewrite Tcv. destruct (decide (type_id_ vl = INTEGER)) as [->|Hne].
    + rewrite !bool_decide_true by done. simpl. rewrite Z.eqb_sym. by destruct (_ =? _).
    + rewrite !bool_decide_false by done. done.
Qed.

(** The records with a key. *)
Definition records_of (k : Z) (ks : list Z) (es : list (RID * bytes)) : list (RID * bytes) :=
  (filter (λ p : Z * (RID * bytes), p.1 = k) (zip ks es)).*2.

Lemma rids_of_records k ks es : rids_of k (zip ks es.*1) = (records_of k ks es).*1.
Proof.
  unfold rids_of, records_of. revert ks. induction es as [|e es IH]; intros [|k1 ks]; [done..|].
  cbn [fmap list_fmap zip zip_with]. rewrite !filter_cons. cbn [fst]. case_decide; cbn [fmap list_fmap]; [|apply IH].
  simpl. f_equal. apply IH.
Qed.

Lemma records_of_sublist k ks es e : e ∈ records_of k ks es → e ∈ es.
Proof.
  unfold records_of. intros ([k1 e1] & -> & H)%list_elem_of_fmap. apply list_elem_of_filter in H as [_ H]. by apply elem_of_zip_r in H.
Qed.

Lemma find_records (records : Z → list (RID * bytes)) oid es : NoDup (records oid).*1 → (∀ e, e ∈ es → e ∈ records oid) →
  mapR (find_record records oid) es.*1 = Ok es.
Proof.
  intros Hnd Hes. apply mapR_Forall2, Forall2_fmap_l, Forall_Forall2_diag, Forall_forall. intros [r b] Hin.
  unfold find_record. simpl. by rewrite (elem_of_list_to_map_1 (records oid) r b Hnd (Hes _ Hin)).
Qed.

Lemma scan_by_key p attr v schema es ks : lookup_columns p = Some (attr, ConstantValueExpression v) → type_id_ v = INTEGER →
  Forall2 (λ e k, row_key schema attr e = Ok k) es ks → scan_rows schema p es = scan_rows schema p (records_of (integer_ v) ks es).
Proof.
  intros Hp Hv. unfold records_of. induction 1 as [|e k es ks Hk _ IH]; [done|].
  cbn [zip zip_with]. rewrite filter_cons. cbn [fst].
  destruct (predicate_by_key p attr _ schema e k Hp Hk) as (w & [= <-] & Hpred). unfold has_type in Hpred. rewrite bool_decide_true in Hpred by done.
  case_decide as Hkv; cbn [fmap list_fmap snd]; unfold scan_rows in *; cbn [selectM]; [by rewrite IH|].
  assert (scan_row schema p e = Ok None) as -> by (unfold scan_row; cbv zeta; by rewrite Hpred, (proj2 (Z.eqb_neq _ _) Hkv)).
  cbn [mbind res_bind]. etransitivity; [|exact IH]. by destruct (selectM (scan_row schema p) es).
Qed.

Lemma index_scan_same_rows c records oid ioid t i p attr v rows :
  tables_ c !! oid = Some t → indexes_ c !! ioid = Some i → SupportsPointLookup i = true →
  index_current t (records oid) i → GetLookupAttr i = Ok attr → lookup_columns p = Some (attr, ConstantValueExpression v) →
  is_null_ v = false → NoDup (records oid).*1 → scan_rows (t_schema_ t) p (records oid) = Ok rows →
  index_scan_rows c records oid ioid (ConstantValueExpression v) p = Ok rows.
Proof.
  intros Ht Hi Hpoint (attr' & ks & Hattr & Hks & Hl) Hattr' Hp Hnull Hnd Hrows.
  rewrite Hattr in Hattr'. injection Hattr' as ->. unfold index_scan_rows, matching_rids, GetIndexByOid. rewrite Ht, Hi, Hpoint.
  cbn [Evaluate eval mbind res_bind]. rewrite Hnull. cbn [orb]. destruct (decide (type_id_ v = INTEGER)) as [Tv|Tv].
  - rewrite bool_decide_true by done. cbn [negb]. unfold GetAsInteger, has_type. rewrite bool_decide_true by done.
    cbn [mbind res_bind assert]. rewrite Hl. rewrite rids_of_records.
    assert (default [] (match (records_of (integer_ v) ks (records oid)).*1 with [] => None | l => Some l end)
      = (records_of (integer_ v) ks (records oid)).*1) as -> by (by destruct (records_of (integer_ v) ks (records oid))).
    rewrite find_records by (try done; intros e; apply records_of_sublist). cbn [mbind res_bind].
    by rewrite <- (scan_by_key p attr v (t_schema_ t) (records oid) ks Hp Tv Hks).
  - rewrite bool_decide_false by done. simpl. rewrite <- Hrows.
    destruct Hks as [|e k es ks Hk _]; [done|]. exfalso.
    destruct (predicate_by_key p attr _ (t_schema_ t) e k Hp Hk) as (w & [= <-] & Hpred). unfold has_type in Hpred.
    rewrite bool_decide_false in Hpred by done. unfold scan_rows in Hrows. cbn [selectM] in Hrows. unfold scan_row in Hrows. cbv zeta in Hrows.
    by rewrite Hpred in Hrows.
Qed.

(** ** The optimized plan *)

(** The indexes of the table [t]. *)
Lemma GetTableIndexes_ok `{!HashOrder} c name : catalog_ok c →
  ∃ l, GetTableIndexes name c = Ok l ∧ ∀ i, i ∈ l → indexes_ c !! i_oid_ i = Some i ∧ table_name_ i = name.
Proof.
  intros Hc. unfold GetTableIndexes. destruct (index_names_ c !! name) as [names|] eqn:En; [|exists []; split; [done|set_solver]].
  assert (∀ oid, oid ∈ (hash_order names).*2 → ∃ n, names !! n = Some oid) as Hin.
  { intros oid Hin. rewrite hash_order_perm in Hin. apply list_elem_of_fmap in Hin as ([n o] & -> & Ho).
    apply elem_of_map_to_list in Ho. by exists n. }
  induction (hash_order names).*2 as [|oid oids IH]; [exists []; split; [done|set_solver]|].
  destruct IH as (l & Hl & Hall); [intros o Ho; apply Hin; set_solver|]. destruct (Hin oid) as [n Hn]; [set_solver|].
  destruct (co_iname _ Hc _ _ _ _ En Hn) as (i & Hi & _ & Ht). cbn [indexes_at]. unfold map_at. rewrite Hi, Hl.
  exists (i :: l). split; [done|]. intros j [->|Hj]%elem_of_cons; [|by apply Hall].
  split; [|done]. by destruct (co_index _ Hc oid i Hi) as (-> & _).
Qed.

Lemma find_index_ok col l : (∀ i, i ∈ l → SupportsPointLookup i = true → ∃ a, GetLookupAttr i = Ok a) →
  ∃ o, find_index col l = Ok o ∧ ∀ i, o = Some i → i ∈ l ∧ SupportsPointLookup i = true ∧ GetLookupAttr i = Ok col.
Proof.
  induction l as [|i l IH]; intros Ha; [by exists None|]. cbn [find_index].
  destruct IH as (o & Ho & Hfound); [intros; apply Ha; set_solver|].
  assert (∃ o, find_index col l = Ok o ∧ ∀ j, o = Some j → j ∈ i :: l ∧ SupportsPointLookup j = true ∧ GetLookupAttr j = Ok col) as Hrest.
  { exists o. split; [done|]. intros j Hj. destruct (Hfound j Hj) as (? & ? & ?). split_and!; [set_solver|done|done]. }
  destruct (SupportsPointLookup i) eqn:Hp; [|done]. destruct (Ha i) as [a Hattr]; [set_solver|done|]. rewrite Hattr. simpl.
  destruct (Z.eqb_spec a col) as [->|]; [|done]. exists (Some i). split; [done|]. intros j [= <-]. split_and!; [set_solver|done|done].
Qed.

Section Equivalence.
Context {HO : HashOrder} {SS : StdSort} (fmt_2f : Z → string) (c : Catalog) (records : Z → list (RID * bytes)).
Abbreviation query := (query_rows fmt_2f c records).

(** The catalog is consistent and its indexes are current. *)
Record db_current : Prop := {
  dc_catalog : catalog_ok c;
  dc_records oid t : tables_ c !! oid = Some t → NoDup (records oid).*1;
  dc_index oid t ioid i : tables_ c !! oid = Some t → indexes_ c !! ioid = Some i → table_name_ i = t_name_ t →
    SupportsPointLookup i = true → index_current t (records oid) i
}.

(** Some join of the plan becomes a hash join. *)
Fixpoint rewritten_join (plan : AbstractPlanNode) : bool :=
  match plan with
  | NestedLoopJoinPlanNode _ l r p => bool_decide (is_Some (join_columns p)) || rewritten_join l || rewritten_join r
  | HashJoinPlanNode _ l r _ _ => rewritten_join l || rewritten_join r
  | AggregationPlanNode _ child _ _ _ | SortPlanNode _ child _ | LimitPlanNode _ child _ | ProjectionPlanNode _ child _ =>
      rewritten_join child
  | _ => false
  end.

(** Where the rewrites preserve the rows: constants compared with a column are not
    NULL, the columns of a rewritten join are of one type whose values print
    alike only when they are equal and hold no NULL, and nothing that depends on the
    order of the rows is above a rewritten join. *)
Fixpoint fits (plan : AbstractPlanNode) : Prop :=
  match plan with
  | SeqScanPlanNode _ _ p => match lookup_columns p with Some (_, ConstantValueExpression v) => is_null_ v = false | _ => True end
  | NestedLoopJoinPlanNode _ l r p => fits l ∧ fits r ∧
      match join_columns p with
      | Some (lk, rk) => ∃ t, printable t ∧ ∀ lrows rrows, query l = Ok lrows → query r = Ok rrows →
          key_typed t (plan_schema l) lk lrows ∧ key_typed t (plan_schema r) rk rrows
      | None => True
      end
  | HashJoinPlanNode _ l r _ _ => (fits l ∧ fits r) ∧ rewritten_join l = false ∧ rewritten_join r = false
  | AggregationPlanNode _ child _ _ _ | LimitPlanNode _ child _ => fits child ∧ rewritten_join child = false
  | SortPlanNode _ child obs => fits child ∧
      ∃ types, ∀ rows, query child = Ok rows → keys_typed (plan_schema child) obs types rows.*1
  | ProjectionPlanNode _ child _ => fits child
  | _ => True
  end.

(** What the optimizer, with a catalog or without, promises for a plan. *)
Definition same_query (oc : option Catalog) (plan : AbstractPlanNode) (rows : list Row) : Prop :=
  ∃ plan' rows', Optimize oc plan = Ok plan' ∧ plan_schema plan' = plan_schema plan ∧ query plan' = Ok rows' ∧
    rows' ≡ₚ rows ∧ (rewritten_join plan = false → rows' = rows).

Lemma unchanged oc plan rows : Optimize oc plan = Ok plan → query plan = Ok rows → same_query oc plan rows.
Proof. intros Ho Hq. exists plan, rows. by split_and!. Qed.

(** A scan stays what it is, or uses an index on the column of its predicate. *)
Lemma optimize_scan_cases s oid p t : db_current → tables_ c !! oid = Some t →
  Optimize (Some c) (SeqScanPlanNode s oid p) = Ok (SeqScanPlanNode s oid p) ∨
  ∃ i col v, lookup_columns p = Some (col, ConstantValueExpression v) ∧ indexes_ c !! i_oid_ i = Some i ∧ table_name_ i = t_name_ t ∧
    SupportsPointLookup i = true ∧ GetLookupAttr i = Ok col ∧
    Optimize (Some c) (SeqScanPlanNode s oid p) = Ok (IndexScanPlanNode s oid (i_oid_ i) (ConstantValueExpression v) p).
Proof.
  intros Hdb Ht. cbn [Optimize]. unfold apply_rules, OptimizeSeqScanToIndexScan.
  destruct (lookup_columns p) as [[col key]|] eqn:Ek; [|by left]. unfold GetTableByOid. rewrite Ht.
  destruct (GetTableIndexes_ok c (t_name_ t) (dc_catalog Hdb)) as (l & Hl & Hall). rewrite Hl. cbn [mbind res_bind].
  destruct (find_index_ok col l) as (o & Ho & Hfound).
  { intros i Hi Hp. destruct (Hall i Hi) as [Hoid Hname]. destruct (dc_index Hdb oid t _ i Ht Hoid Hname Hp) as (a & _ & Ha & _). by exists a. }
  rewrite Ho. cbn [mbind res_bind]. destruct o as [i|]; [|by left]. right.
  destruct (Hfound i eq_refl) as (Hi & Hp & Ha). destruct (Hall i Hi) as [Hoid Hname].
  assert (∃ v, key = ConstantValueExpression v) as [v ->].
  { unfold lookup_columns in Ek. destruct p as [[| | |[] [] []| |]|]; try discriminate Ek; injection Ek as _ <-; by eexists. }
  by exists i, col, v.
Qed.

Lemma optimize_scan s oid p rows : db_current → fits (SeqScanPlanNode s oid p) → query (SeqScanPlanNode s oid p) = Ok rows →
  same_query (Some c) (SeqScanPlanNode s oid p) rows.
Proof.
  intros Hdb Hfit Hq. pose proof Hq as Hrows. cbn [query_rows] in Hrows. unfold table_rows in Hrows.
  destruct (tables_ c !! oid) as [t|] eqn:Ht; [|done].
  destruct (optimize_scan_cases s oid p t Hdb Ht) as [Hopt|(i & col & v & Ek & Hoid & Hname & Hp & Ha & Hopt)]; [by apply unchanged|].
  cbn [fits] in Hfit. rewrite Ek in Hfit. eexists _, rows. split; [exact Hopt|]. split; [done|]. split; [|done]. cbn [query_rows].
  apply (index_scan_same_rows c records oid (i_oid_ i) t i p col v); try done; [by apply (dc_index Hdb _ _ (i_oid_ i))|by apply (dc_records Hdb oid t)].
Qed.

Section Rewrites.
(** The optimizer of the server has the catalog, that of the shell has none. *)
Context (oc : option Catalog) (known : oc = None ∨ oc = Some c ∧ db_current).

Lemma optimize_join s l r p rows lrows rrows : same_query oc l lrows → same_query oc r rrows → fits (NestedLoopJoinPlanNode s l r p) →
  query l = Ok lrows → query r = Ok rrows → nlj_rows p (plan_schema l) (plan_schema r) lrows rrows = Ok rows →
  same_query oc (NestedLoopJoinPlanNode s l r p) rows.
Proof.
  intros (l' & lrows' & Hl & Hsl & Hql & Hpl & Hel) (r' & rrows' & Hr & Hsr & Hqr & Hpr & Her) (_ & _ & Hkeys) Hq1 Hq2 Hrows.
  destruct (nlj_rows_perm _ _ _ lrows lrows' rrows rrows' rows Hpl Hpr Hrows) as (rows1 & Hrows1 & Hperm).
  unfold same_query. assert (Optimize oc (NestedLoopJoinPlanNode s l r p) = Ok (OptimizeNLJToHashJoin (NestedLoopJoinPlanNode s l' r' p))) as ->.
  { cbn [Optimize]. rewrite Hl, Hr. by destruct oc. }
  cbn [OptimizeNLJToHashJoin rewritten_join].
  destruct (join_columns p) as [[lk rk]|] eqn:Ej.
  - destruct Hkeys as (t & Ht & Hkeys). destruct (Hkeys lrows rrows Hq1 Hq2) as [Hk1 Hk2].
    destruct (hash_join_same_rows fmt_2f p lk rk t (plan_schema l) (plan_schema r) lrows' rrows' rows1) as (rows' & Hh & Hph); try done.
    { intros row Hin. apply Hk1. by rewrite <- Hpl. }
    { intros row Hin. apply Hk2. by rewrite <- Hpr. }
    eexists _, rows'. split; [reflexivity|]. split; [done|]. split; [|split; [by rewrite Hph, Hperm|done]].
    cbn [query_rows]. rewrite Hql, Hqr, Hsl, Hsr. exact Hh.
  - eexists _, rows1. split; [reflexivity|]. split; [done|]. split; [cbn [query_rows]; by rewrite Hql, Hqr, Hsl, Hsr|].
    split; [done|]. simpl. intros [H1 H2]%orb_false_iff. rewrite (Hel H1), (Her H2), Hrows in Hrows1. by injection Hrows1.
Qed.

Lemma sort_perm schema obs types (rows rows' : list Row) (sorted : list Tuple) : keys_typed schema obs types rows.*1 → rows' ≡ₚ rows →
  std_sort (sort_less schema obs) rows.*1 = Ok sorted →
  ∃ sorted', std_sort (sort_less schema obs) rows'.*1 = Ok sorted' ∧ sorted' ≡ₚ sorted.
Proof.
  intros Hk Hp Hs. assert (rows'.*1 ≡ₚ rows.*1) as Hp1 by by rewrite Hp.
  pose proof (tw_order schema obs types) as Htw.
  destruct (std_sort_ok (sort_less schema obs) (λ x y, is_lt (order schema obs types x y)) rows.*1) as (s1 & Hs1 & P1 & _);
    [intros x y Hx Hy; by apply (sort_less_order _ _ types rows.*1)|by apply tw_strict_weak|].
  destruct (std_sort_ok (sort_less schema obs) (λ x y, is_lt (order schema obs types x y)) rows'.*1) as (s2 & Hs2 & P2 & _);
    [intros x y; rewrite Hp1; intros Hx Hy; by apply (sort_less_order _ _ types rows.*1)|by apply tw_strict_weak|].
  rewrite Hs in Hs1. injection Hs1 as <-. exists s2. split; [done|]. by rewrite P2, P1, Hp1.
Qed.

(** A plan over one child. *)
Lemma optimize_child child crows plan rows (f : AbstractPlanNode → AbstractPlanNode) :
  same_query oc child crows → plan = f child →
  (∀ child', Optimize oc child = Ok child' → Optimize oc plan = Ok (f child')) →
  (∀ child', plan_schema (f child') = plan_schema plan) → rewritten_join plan = rewritten_join child →
  (∀ child' crows', plan_schema child' = plan_schema child → query child' = Ok crows' → crows' ≡ₚ crows →
    (rewritten_join child = false → crows' = crows) →
    ∃ rows', query (f child') = Ok rows' ∧ rows' ≡ₚ rows ∧ (rewritten_join child = false → rows' = rows)) →
  same_query oc plan rows.
Proof.
  intros (child' & crows' & Ho & Hs & Hq & Hp & He) -> Hopt Hsch Hj Hrows.
  destruct (Hrows child' crows' Hs Hq Hp He) as (rows' & Hq' & Hp' & He'). exists (f child'), rows'.
  split_and!; [by apply Hopt|by rewrite Hsch|done|done|by rewrite Hj].
Qed.

Lemma rewrite_rows plan : ∀ rows, fits plan → query plan = Ok rows → same_query oc plan rows.
Proof.
  induction plan as [|s oid p|s oid ioid key p|s child IH oid|s child IH oid|s child IH oid exprs|s l IHl r IHr p|s l IHl r IHr lk rk
    |s child IH gb aggs types|s child IH obs|s child IH limit|s child IH exprs|s ut table index attrs names missing_ok];
    intros rows Hfit Hq; try done.
  - destruct known as [->|[-> Hdb]]; [by apply unchanged|by apply optimize_scan].
  - apply unchanged; [by destruct oc|done].
  - pose proof Hfit as (Hfl & Hfr & _). cbn [query_rows] in Hq.
    assert (∃ lrows rrows, query l = Ok lrows ∧ query r = Ok rrows ∧
      nlj_rows p (plan_schema l) (plan_schema r) lrows rrows = Ok rows) as (lrows & rrows & El & Er & Hrows).
    { clear -Hq. destruct (query l) as [lrows| | |]; try done. destruct (query r) as [rrows| | |]; try done. by exists lrows, rrows. }
    apply (optimize_join s l r p rows lrows rrows); [by apply IHl|by apply IHr|done..].
  - destruct Hfit as ((Hfl & Hfr) & Jl & Jr). cbn [query_rows] in Hq.
    destruct (query l) as [lrows| | |] eqn:El; simplify_eq/=. destruct (query r) as [rrows| | |] eqn:Er; simplify_eq/=.
    destruct (IHl lrows Hfl eq_refl) as (l' & lrows' & Hl & Hsl & Hql & _ & Hel), (IHr rrows Hfr eq_refl) as (r' & rrows' & Hr & Hsr & Hqr & _ & Her).
    rewrite (Hel Jl) in Hql. rewrite (Her Jr) in Hqr. exists (HashJoinPlanNode s l' r' lk rk), rows. split; [cbn [Optimize]; rewrite Hl, Hr; by destruct oc|].
    split; [done|]. split; [cbn [query_rows]; by rewrite Hql, Hqr, Hsl, Hsr|done].
  - destruct Hfit as [Hf J]. cbn [query_rows] in Hq. destruct (query child) as [crows| | |] eqn:Ec; simplify_eq/=.
    apply (optimize_child child crows _ _ (λ ch, AggregationPlanNode s ch gb aggs types) (IH crows Hf eq_refl)); try done.
    { intros ch Ho. cbn [Optimize]. rewrite Ho. by destruct oc. }
    intros ch crows' Hs Hc _ He. rewrite (He J) in Hc. exists rows. split; [cbn [query_rows]; rewrite Hc, Hs; exact Hq|done].
  - destruct Hfit as [Hf (types & Hk)]. cbn [query_rows] in Hq. destruct (query child) as [crows| | |] eqn:Ec; simplify_eq/=.
    destruct (std_sort _ crows.*1) as [sorted| | |] eqn:Es; simplify_eq/=.
    apply (optimize_child child crows _ _ (λ ch, SortPlanNode s ch obs) (IH crows Hf eq_refl)); try done.
    { intros ch Ho. cbn [Optimize]. rewrite Ho. by destruct oc. }
    intros ch crows' Hs Hc Hp He.
    destruct (sort_perm _ obs types crows crows' sorted (Hk crows eq_refl) Hp Es) as (sorted' & Hs' & Hp').
    eexists. split; [cbn [query_rows]; rewrite Hc, Hs; cbn [mbind res_bind]; rewrite Hs'; reflexivity|]. split; [by rewrite Hp'|].
    intros J. rewrite (He J), Es in Hs'. by injection Hs' as <-.
  - destruct Hfit as [Hf J]. cbn [query_rows] in Hq. destruct (query child) as [crows| | |] eqn:Ec; simplify_eq/=.
    apply (optimize_child child crows _ _ (λ ch, LimitPlanNode s ch limit) (IH crows Hf eq_refl)); try done.
    { intros ch Ho. cbn [Optimize]. rewrite Ho. by destruct oc. }
    intros ch crows' Hs Hc _ He. rewrite (He J) in Hc. eexists. split; [cbn [query_rows]; by rewrite Hc|done].
  - cbn [fits] in Hfit. cbn [query_rows] in Hq. destruct (query child) as [crows| | |] eqn:Ec; simplify_eq/=.
    apply (optimize_child child crows _ _ (λ ch, ProjectionPlanNode s ch exprs) (IH crows Hfit eq_refl)); try done.
    { intros ch Ho. cbn [Optimize]. rewrite Ho. by destruct oc. }
    intros ch crows' Hs Hc Hp He. destruct (mapR_perm _ _ crows' _ Hp Hq) as (rows' & Hr' & Hp').
    exists rows'. split; [cbn [query_rows]; by rewrite Hc, Hs|]. split; [done|]. intros J. rewrite (He J), Hq in Hr'. by injection Hr'.
  - apply unchanged; [by destruct oc|done].
Qed.
End Rewrites.

Lemma optimize_rows plan rows : db_current → fits plan → query plan = Ok rows → same_query (Some c) plan rows.
Proof. intros Hdb. apply rewrite_rows. by right. Qed.

(** C13: the optimizer preserves queries.  With current indexes, the optimized plan
    of a query gives the rows of the query up to their order, and in the same order
    when no join is rewritten: an index scan gives the rows of the sequential scan,
    a hash join those of the nested loops.  This holds of the queries that meet the side
    conditions of [fits]: constants compared with a column are not NULL; the keys of a
    join that is rewritten are of one type and hold no FLOAT and no NULL (values that
    print alike only when they are equal); no LIMIT and no aggregation is above a
    rewritten join; the keys of ORDER BY are typed.  Without them it is false: see
    [hash_join_joins_what_prints_alike] below, and [stale_index_misses_rows] for indexes
    that are not current. *)
Theorem optimizer_preserves_queries plan rows :
  db_current → fits plan → query plan = Ok rows →
  ∃ plan' rows', Optimize (Some c) plan = Ok plan' ∧ plan_schema plan' = plan_schema plan ∧
    query plan' = Ok rows' ∧ rows' ≡ₚ rows ∧ (rewritten_join plan = false → rows' = rows).
Proof. intros Hdb Hfit Hq. exact (optimize_rows plan rows Hdb Hfit Hq). Qed.
End Equivalence.

(** ** Witness: a filtered join of the demo table, with an index on its column *)

Definition int_index : IndexInfo :=
  mkIndexInfo int_schema "i" "t" 1 [0] true {[7 := [mkRID 0 0; mkRID 0 2]; 9 := [mkRID 0 1]]}.
Definition indexed_catalog : Catalog :=
  mkCatalog 2 2 {[1 := int_table]} {["t" := 1]} {[1 := int_index]} {["t" := {["i" := 1]}]}.
Definition filtered_scan (z : Z) : AbstractPlanNode := SeqScanPlanNode int_schema 1 (Some (int_is z)).
Definition filtered_join : AbstractPlanNode := NestedLoopJoinPlanNode pair_schema (filtered_scan 7) scan_plan (Some same_column).

Lemma indexed_catalog_ok : catalog_ok indexed_catalog.
Proof.
  split; simpl.
  - intros oid t [<- <-]%lookup_singleton_Some. split_and!; [done|simpl; lia|reflexivity].
  - intros n oid [<- <-]%lookup_singleton_Some. exists int_table. by rewrite lookup_singleton_eq.
  - intros oid i [<- <-]%lookup_singleton_Some. split_and!; [done|simpl; lia|]. eexists. split; reflexivity.
  - intros t names n oid [<- <-]%lookup_singleton_Some [<- <-]%lookup_singleton_Some. exists int_index. by rewrite lookup_singleton_eq.
Qed.

Lemma indexed_db_current : db_current indexed_catalog demo_records.
Proof.
  split; [exact indexed_catalog_ok| |].
  - intros oid t Ht. change (({[1 := int_table]} : gmap Z TableInfo) !! oid = Some t) in Ht. apply lookup_singleton_Some in Ht as [<- <-].
    apply (bool_decide_unpack _). vm_compute. exact I.
  - intros oid t ioid i Ht Hi _ _. change (({[1 := int_table]} : gmap Z TableInfo) !! oid = Some t) in Ht.
    apply lookup_singleton_Some in Ht as [<- <-].
    change (({[1 := int_index]} : gmap Z IndexInfo) !! ioid = Some i) in Hi. apply lookup_singleton_Some in Hi as [<- <-].
    exists 0, [7; 9; 7]. split; [reflexivity|]. split; [repeat constructor|]. intros key.
    change (zip [7; 9; 7] (demo_records 1).*1) with [(7, mkRID 0 0); (9, mkRID 0 1); (7, mkRID 0 2)].
    unfold LookupInteger, int_index. cbn [int_rid_map_]. unfold rids_of. rewrite !filter_cons, filter_nil. cbn [fst].
    destruct (decide (7 = key)) as [<-|H7]; [reflexivity|]. rewrite lookup_insert_ne by done.
    destruct (decide (9 = key)) as [<-|H9]; [reflexivity|]. by rewrite lookup_singleton_ne.
Qed.

Definition typed_as_int (schema : Schema) (col : Z) (row : Row) : bool :=
  match Evaluate (ColumnValueExpression 0 col INTEGER) (Some row.1) schema with Ok v => has_type INTEGER v && negb (is_null_ v) | _ => false end.
Lemma key_typed_check schema col rows : forallb (typed_as_int schema col) rows = true →
  key_typed INTEGER schema (ColumnValueExpression 0 col INTEGER) rows.
Proof.
  intros H row Hrow. rewrite forallb_forall in H. specialize (H row (proj1 (list_elem_of_In _ _) Hrow)). unfold typed_as_int in H.
  destruct (Evaluate _ _ schema) as [v| | |]; [|discriminate H..]. exists v. apply andb_true_iff in H as [H1 H2].
  split; [done|]. split; [by apply bool_decide_eq_true in H1|by destruct (is_null_ v)].
Qed.

Lemma optimizer_preserves_queries_witness :
  let query := query_rows (HO := listed_order) (SS := insertion_std_sort) (λ _, "") indexed_catalog demo_records in
  let rows := match query filtered_join with Ok rows => rows | _ => [] end in
  length rows = 4%nat ∧
  ∃ plan' rows', Optimize (HO := listed_order) (Some indexed_catalog) filtered_join = Ok plan' ∧ query plan' = Ok rows' ∧ rows' ≡ₚ rows.
Proof.
  intros query rows. split; [vm_compute; reflexivity|].
  destruct (optimizer_preserves_queries (HO := listed_order) (SS := insertion_std_sort) (λ _, "") indexed_catalog demo_records filtered_join rows)
    as (plan' & rows' & Ho & _ & Hq & Hp & _).
  - exact indexed_db_current.
  - split; [reflexivity|]. split; [exact I|]. exists INTEGER. split; [right; left; reflexivity|].
    intros lrows rrows Hl Hr. vm_compute in Hl, Hr. injection Hl as <-. injection Hr as <-.
    split; apply key_typed_check; vm_compute; reflexivity.
  - vm_compute. reflexivity.
  - exists plan', rows'. split; [exact Ho|]. split; [exact Hq|exact Hp].
Defined.

(** ** Where the optimizer changes the answer *)

Section Runs.
#[local] Existing Instance demo_io.
#[local] Existing Instance listed_order.
#[local] Existing Instance insertion_std_sort.

Abbreviation demo_execute plan := (Execute 9 3 (λ _, "") plan).

(** CREATE INDEX i ON t (a); CREATE TABLE u (a INTEGER); a row 7 into u;
    INSERT INTO t SELECT * FROM u; then SELECT * FROM t WHERE a = 7 as it is bound
    and as it is optimized: the numbers of rows. *)
Definition stale_index_run : ST (DB (Store bytes)) (nat * nat) :=
  CreateIndex 9 3 "i" "t" [0];;
  u ← CreateTable "u" int_schema;
  match u with
  | None => st_ub
  | Some u =>
      on_heap (InsertTuple 3 (table_ u) (mkTuple RID_default (int_row 7) []));;
      demo_execute (InsertPlanNode int_schema (SeqScanPlanNode int_schema (t_oid_ u) None) 1);;
      plain ← demo_execute (filtered_scan 7);
      c ← get_catalog;
      plan ← st_lift (Optimize (Some c) (filtered_scan 7));
      optimized ← demo_execute plan;
      mret (length plain, length optimized)
  end.

(** An index does not see later insertions.  No executor maintains the indexes,
    and the optimizer uses them all the same: after an INSERT the optimized query
    misses the new row that the query as bound finds. *)
Lemma stale_index_misses_rows :
  fst (stale_index_run (mkDB (idle int_pages 1) int_catalog)) = Ok (3%nat, 2%nat).
Proof. vm_compute. reflexivity. Qed.
End Runs.

(** A hash join on FLOAT columns compares the printed keys.  Two keys that are
    different but print alike are joined by the hash join and not by the
    nested loops it replaces. *)
Theorem hash_join_joins_what_prints_alike fmt_2f x y schema tx ty t :
  float_eqb x y = false → fmt_2f x = fmt_2f y →
  let key := ColumnValueExpression 0 0 FLOAT in
  let predicate := Some (ComparisonExpression (ColumnValueExpression 0 0 FLOAT) (ColumnValueExpression 1 0 FLOAT) Equal) in
  GetValueBy tx schema 0 = Ok (Value_float FLOAT x) → GetValueBy ty schema 0 = Ok (Value_float FLOAT y) →
  joined_tuple tx schema ty schema = Ok t →
  join_columns predicate = Some (key, key) ∧
  nlj_rows predicate schema schema [(tx, None)] [(ty, None)] = Ok [] ∧
  hash_join_rows fmt_2f key key schema schema [(tx, None)] [(ty, None)] = Ok [(t, Some RID_default)].
Proof.
  intros Hne Hfmt key predicate Hx Hy Ht. split; [done|]. split.
  - unfold nlj_rows. cbn [mapR selectM fst]. unfold nlj_match, join_matches, predicate, EvaluateJoin. cbn [fst eval Z.eqb].
    rewrite Hx, Hy. cbn [mbind res_bind PerformComparison].
    assert (CompareEquals (Value_float FLOAT x) (Value_float FLOAT y) = bool_value false) as ->; [|done].
    change (bool_value (float_eqb x y) = bool_value false). by rewrite Hne.
  - unfold hash_join_rows, keyed, join_key, key, Evaluate. cbn [mapR fst eval]. rewrite Hx, Hy. cbn [mbind res_bind mapR].
    unfold probed, bucket. rewrite filter_cons. cbn [fst snd]. rewrite decide_True by (unfold ToString; simpl; by rewrite Hfmt).
    cbn [filter list_filter fmap list_fmap snd mapR]. rewrite Ht. done.
Qed.

(** 1.0 and the next float, in a format that keeps two decimals. *)
Lemma hash_join_joins_what_prints_alike_witness :
  let schema := Schema_new (make_columns [("f", FLOAT, 0)]) in
  let row x := mkTuple RID_default [] [Value_float FLOAT x] in
  ∃ t, hash_join_rows (λ _, "1.00") (ColumnValueExpression 0 0 FLOAT) (ColumnValueExpression 0 0 FLOAT) schema schema
    [(row 1065353216, None)] [(row 1065353217, None)] = Ok [(t, Some RID_default)].
Proof.
  intros schema row.
  assert (∃ t, joined_tuple (row 1065353216) schema (row 1065353217) schema = Ok t) as [t Ht] by (eexists; vm_compute; reflexivity).
  exists t. apply (hash_join_joins_what_prints_alike (λ _, "1.00") 1065353216 1065353217 schema (row 1065353216) (row 1065353217) t).
  - vm_compute. reflexivity.
  - reflexivity.
  - reflexivity.
  - reflexivity.
  - exact Ht.
Defined.
