(* ===== verification/Statements.v ===== *)
(** * The effect of a statement on the database

    [Effects] gives the effect of a plan on the tables; here CREATE INDEX and DROP INDEX
    change the catalog too.  Indexes are current when they are created; a statement
    that changes a table makes those of the table stale, and keeps the others. *)

From S2P Require Import Prelude Common Value Tuple Expression PageStore PageIO PageLogic TablePage TableHeap TableEdit Catalog Executor.
From S2P Require Import Operators Join Aggregate Dml OrderBy Utility Engine Effects Optimizer.

Local Abbreviation records_of := Effects.records_of.

Section Statements.
Context {S : Type} `{PIO : !PageIO bytes S} {HO : HashOrder} {SS : StdSort} (fuel pages : nat) (fmt_2f : Z → string).
Abbreviation M A := (ST (DB S) A).

(** ** CREATE INDEX *)

(** The entries of an index on an INTEGER column: one for each record. *)
Definition filled_index (t : TableInfo) (attr : Z) (es : list (RID * bytes)) (info : IndexInfo) : res IndexInfo :=
  ks ← mapR (row_key (t_schema_ t) attr) es;
  Ok (fold_left (λ i e, InsertEntry e.1 e.2 i) (zip ks es.*1) (set_point_lookup info)).

(** A statement that fails has no effect here. *)
Definition create_index_effect (c : Catalog) (T : Tables) (index_name table_name : string) (key_attrs : list Z) : res (IndexInfo * Catalog) :=
  table ← GetTable table_name c;
  match table with
  | None => UB
  | Some t =>
      if bool_decide (index_name = "" ∨ key_attrs = []) then UB
      else
        existing ← GetIndex index_name table_name c;
        cols ← key_columns (t_schema_ t) key_attrs;
        match existing, cols with
        | None, Some cols =>
            let oid := next_index_oid_ c in
            let info := IndexInfo_new (Schema_new cols) index_name table_name oid key_attrs in
            point ← (match key_attrs with
              | [attr] => col ← GetColumn (t_schema_ t) attr; Ok (bool_decide (col_type col = INTEGER))
              | _ => Ok false
              end);
            info ← (if point : bool then filled_index t (default 0 (head key_attrs)) (records_of T (t_oid_ t)) info else Ok info);
            Ok (info, with_index oid info c)
        | _, _ => UB
        end
  end.

(** ** DROP INDEX *)

Fixpoint drop_indexes_effect (names : list string) (missing_ok removed_any : bool) (c : Catalog) : res (bool * Catalog) :=
  match names with
  | [] => Ok (removed_any, c)
  | index_name :: names =>
      matched ← matched_table index_name (GetAllTables c) "" c;
      if bool_decide (matched = "") then
        if missing_ok then drop_indexes_effect names missing_ok removed_any c
        else Throw (RuntimeError ("Index not found: " +:+ index_name))
      else
        let '(removed, c) := DropIndex index_name matched c in
        drop_indexes_effect names missing_ok (removed || removed_any) c
  end.

(** ** Statements *)

Definition command_result (s : Schema) (tag : string) : res (list Tuple) :=
  t ← MakeCommandRow tag; mapR (result_tuple s) [(t, Some RID_default)].

Definition statement_effect (c : Catalog) (T : Tables) (plan : AbstractPlanNode) : res (list Tuple * (Catalog * Tables)) :=
  match plan with
  | UtilityPlanNode s CREATE_INDEX table index attrs _ _ =>
      '(_, c) ← create_index_effect c T index table attrs; ts ← command_result s ("CREATE INDEX " +:+ index); Ok (ts, (c, T))
  | UtilityPlanNode s DROP_INDEX _ _ _ names missing_ok =>
      '(removed, c) ← drop_indexes_effect names missing_ok false c;
      ts ← command_result s (if removed : bool then "DROP INDEX" else "DROP INDEX (0 rows)"); Ok (ts, (c, T))
  | _ => '(ts, T) ← effect_result fmt_2f c T plan; Ok (ts, (c, T))
  end.

Definition statement_fuel (c : Catalog) (T : Tables) (plan : AbstractPlanNode) : Prop :=
  match plan with
  | UtilityPlanNode _ CREATE_INDEX table _ _ _ _ =>
      (1 < fuel)%nat ∧ ∀ t, GetTable table c = Ok (Some t) → (length (records_of T (t_oid_ t)) < fuel)%nat
  | UtilityPlanNode _ DROP_INDEX _ _ _ _ _ => (1 < fuel)%nat
  | _ => effect_fuel fuel fmt_2f c T plan
  end.

(** ** The engine makes these changes *)

Context (frames : 2 ≤ io_frames) (zero_len : Z.of_nat (length (io_zero : bytes)) = PAGE_SIZE).


Lemma reaches_set_cat a c c' : reaches (S := S) (a, c) (set_cat c') tt (a, c').
Proof.
  exists 0. split; [done|]. intros k d Hk [Hr Hc]. exists tt, (mkDB (pool d) c'), (a, c'). split; [done|]. split; [done|].
  split; [by rewrite Z.add_0_r in Hr|done].
Qed.

(** The code reads the catalog, and only that, through the state. *)
Lemma reaches_get {A} a c (f : DB S → M A) F y g' : (∀ p, f (mkDB p c) = F) → reaches (a, c) F y g' → reaches (a, c) (d ← st_get; f d) y g'.
Proof.
  intros Hf (n & Hn & H). exists n. split; [done|]. intros k [p c0] Hk Hd. pose proof Hd as [_ Hc]. simpl in Hc. subst c0.
  destruct (H k _ Hk Hd) as (x & s' & g1 & Hrun & Hrest). exists x, s', g1. split; [|done].
  rewrite (st_bind_ok _ _ _ _ _ (eq_refl : st_get (mkDB p c) = (Ok (mkDB p c), mkDB p c))). by rewrite Hf.
Qed.

(** The entries that [index_rows] makes. *)
Lemma index_rows_fills a_m nid c t h attr info info' : heap_ok a_m (table_ t) h → (length h < pages)%nat → (length (live h) < fuel)%nat →
  filled_index t attr (live h) info = Ok info' →
  computes (idle a_m nid, c) (it ← on_pool (Begin pages (table_ t)); index_rows fuel pages (t_schema_ t) attr it (set_point_lookup info)) info'.
Proof.
  intros Hok Hpages Hfuel Hfill. unfold filled_index in Hfill.
  destruct (mapR _ (live h)) as [ks| | |] eqn:Hks; simplify_eq/=. apply mapR_Forall2 in Hks.
  eapply computes_bind.
  { eapply (computes_heap (3 * Z.of_nat (length h))); [lia|]. by apply (Begin_rule a_m nid (table_ t) h); [lia|..]. }
  eexists. split; [|eapply (triple_mono db_rel db_weaken);
    [by apply (index_rows_rule a_m nid (table_ t) h pages (t_schema_ t) attr c (live h) ks); [lia|done|done|apply stands_all|..]|reflexivity|]].
  - lia.
  - by intros x g' [-> ->].
Qed.

(** What a CREATE INDEX that succeeds has found and made. *)
Lemma create_index_inv c T index_name table_name key_attrs info c' : catalog_ok c →
  create_index_effect c T index_name table_name key_attrs = Ok (info, c') →
  ∃ t cols point, let info0 := IndexInfo_new (Schema_new cols) index_name table_name (next_index_oid_ c) key_attrs in
    GetTable table_name c = Ok (Some t) ∧ tables_ c !! t_oid_ t = Some t ∧ t_name_ t = table_name ∧
    ¬ (index_name = "" ∨ key_attrs = []) ∧ GetIndex index_name table_name c = Ok None ∧ key_columns (t_schema_ t) key_attrs = Ok (Some cols) ∧
    (match key_attrs with
     | [attr] => col ← GetColumn (t_schema_ t) attr; Ok (bool_decide (col_type col = INTEGER))
     | _ => Ok false
     end) = Ok point ∧
    (if point : bool then filled_index t (default 0 (head key_attrs)) (records_of T (t_oid_ t)) info0 else Ok info0) = Ok info ∧
    c' = with_index (next_index_oid_ c) info c ∧ same_index info info0 ∧ key_attrs_ info = key_attrs ∧ supports_point_lookup_ info = point.
Proof.
  intros Hc He. unfold create_index_effect in He. destruct (GetTable table_name c) as [[t|]| | |] eqn:Ht; simplify_eq/=.
  assert (tables_ c !! t_oid_ t = Some t ∧ t_name_ t = table_name) as [Htab Hname].
  { rewrite GetTable_ok in Ht by done. injection Ht as Ht. apply bind_Some in Ht as (oid & Hn & Hoid).
    destruct (co_table _ Hc oid t Hoid) as (<- & _). split; [done|]. destruct (co_name _ Hc _ _ Hn) as (t' & Ht' & ?). congruence. }
  case_bool_decide as Hempty; [done|]. destruct (GetIndex index_name table_name c) as [existing| | |] eqn:Hex; simplify_eq/=.
  destruct (key_columns (t_schema_ t) key_attrs) as [cols| | |] eqn:Hcols; simplify_eq/=.
  destruct existing; [done|]. destruct cols as [cols|]; [|done].
  destruct (match key_attrs with [attr] => _ | _ => _ end) as [point| | |] eqn:Hpoint; simplify_eq/=.
  match type of He with context [if point then ?x else ?y] => destruct (if point then x else y) as [info1| | |] eqn:Hinfo end; simplify_eq/=.
  exists t, cols, point. cbv zeta. do 9 (split; [done|]). destruct point; [|by injection Hinfo as <-].
  unfold filled_index in Hinfo. destruct (mapR _ (records_of T (t_oid_ t))) as [ks| | |]; simplify_eq/=.
  by destruct (fold_InsertEntry (zip ks (records_of T (t_oid_ t)).*1)
    (set_point_lookup (IndexInfo_new (Schema_new cols) index_name (t_name_ t) (next_index_oid_ c) key_attrs))) as (_ & ? & ? & ?).
Qed.

Lemma CreateIndex_runs c m T index_name table_name key_attrs info c' : catalog_ok c → tables_ok c m T → small_heaps pages c T →
  create_index_effect c T index_name table_name key_attrs = Ok (info, c') →
  (∀ t, GetTable table_name c = Ok (Some t) → (length (records_of T (t_oid_ t)) < fuel)%nat) →
  reaches (idle m (t_next T), c) (CreateIndex fuel pages index_name table_name key_attrs) (Some info) (idle m (t_next T), c').
Proof.
  intros Hc HT Hsmall He Hfuel.
  destruct (create_index_inv _ _ _ _ _ _ _ Hc He) as (t & cols & point & Ht & Htab & _ & Hempty & Hex & Hcols & Hpoint & Hinfo & -> & (Hin & Hit & _) & _).
  specialize (Hfuel t Ht). unfold CreateIndex. eapply reaches_get; [intros p; cbn [cat]; reflexivity|].
  eapply reaches_bind; [by apply computes_lift|]. cbn beta iota. rewrite bool_decide_false by done.
  eapply reaches_bind; [by apply computes_lift|]. cbn beta iota.
  eapply reaches_bind; [by apply computes_lift|]. cbn beta iota zeta.
  set (oid := next_index_oid_ c) in *. set (c1 := mkCatalog _ (u32 (oid + 1)) _ _ _ _).
  eapply reaches_bind; [apply (reaches_set_cat _ c c1)|]. eapply reaches_bind; [exact (computes_lift _ _ _ Hpoint)|].
  eapply (reaches_bind _ (idle m (t_next T), c1) _ _ _ info).
  - destruct point; [|injection Hinfo as <-; apply reaches_ret].
    apply (index_rows_fills m (t_next T) c1 t (heap_of T (t_oid_ t))); [by apply (to_heap _ _ _ HT)|by eapply Hsmall|done|done].
  - eapply reaches_get; [intros p; cbn [cat]; reflexivity|]. cbv zeta. eapply reaches_bind; [apply reaches_set_cat|].
    simpl in Hin, Hit. unfold with_index. rewrite Hin, Hit. apply reaches_ret.
Qed.

Lemma drop_indexes_runs a names missing_ok : ∀ removed c r c', drop_indexes_effect names missing_ok removed c = Ok (r, c') →
  reaches (a, c) (drop_indexes (S := S) names missing_ok removed) r (a, c').
Proof.
  induction names as [|index_name names IH]; intros removed c r c' H; cbn [drop_indexes_effect drop_indexes] in *.
  { injection H as <- <-. apply reaches_ret. }
  eapply reaches_bind; [apply computes_catalog|].
  destruct (matched_table index_name (GetAllTables c) "" c) as [matched| | |] eqn:Hm; simplify_eq/=.
  eapply reaches_bind; [by apply computes_lift|]. cbn beta iota. case_bool_decide as Hempty.
  - destruct missing_ok; [by apply IH|done].
  - destruct (DropIndex index_name matched c) as [removed1 c1]. eapply reaches_bind; [apply (reaches_set_cat a c c1)|]. by apply IH.
Qed.

(** ** The catalog afterwards *)

Lemma with_index_ok c T index_name table_name key_attrs info c' : catalog_ok c → 0 ≤ next_index_oid_ c < UINT32_MAX →
  create_index_effect c T index_name table_name key_attrs = Ok (info, c') → catalog_ok c'.
Proof.
  intros Hc Hoid He. destruct (create_index_inv _ _ _ _ _ _ _ Hc He) as (t & cols & point & _ & _ & _ & _ & Hex & _ & _ & _ & -> & (Hin & Hit & Hio) & _).
  simpl in Hin, Hit, Hio. pose proof (bump_index_oid c Hc Hoid) as Hb. apply (add_index_ok _ (next_index_oid_ c) info) in Hb; simpl in *; [exact Hb| | |done|].
  - destruct (indexes_ c !! next_index_oid_ c) as [i|] eqn:E; [|done]. destruct (co_index _ Hc _ _ E) as (_ & ? & _). lia.
  - unfold u32, UINT32_MAX in *. rewrite Z.mod_small; lia.
  - intros names Hnames. rewrite Hin. rewrite Hit in Hnames. rewrite GetIndex_ok, Hnames in Hex by done. simpl in Hex.
    destruct (names !! index_name) as [oid|] eqn:E; [|done]. simpl in Hex. destruct (co_iname _ Hc _ _ _ _ Hnames E) as (i & Hi & _). by rewrite Hi in Hex.
Qed.

Lemma drop_indexes_ok names missing_ok : ∀ removed c r c', catalog_ok c → drop_indexes_effect names missing_ok removed c = Ok (r, c') →
  catalog_ok c' ∧ tables_ c' = tables_ c ∧ indexes_ c' ⊆ indexes_ c.
Proof.
  induction names as [|index_name names IH]; intros removed c r c' Hc H; cbn [drop_indexes_effect] in H; [by injection H as <- <-|].
  destruct (matched_table index_name (GetAllTables c) "" c) as [matched| | |]; simplify_eq/=. case_bool_decide.
  - destruct missing_ok; [by eapply IH|done].
  - pose proof (DropIndex_ok index_name matched c Hc) as Hc1.
    assert (tables_ (DropIndex index_name matched c).2 = tables_ c ∧ indexes_ (DropIndex index_name matched c).2 ⊆ indexes_ c) as [Ht Hi].
    { unfold DropIndex. repeat case_match; simpl; (split; [done|]); first [reflexivity|apply delete_subseteq]. }
    destruct (DropIndex index_name matched c) as [removed1 c1]. destruct (IH _ _ _ _ Hc1 H) as (? & Ht' & Hi'). simpl in *.
    split_and!; [done|congruence|by etransitivity].
Qed.

Lemma tables_ok_same c c' m T : tables_ c' = tables_ c → tables_ok c m T → tables_ok c' m T.
Proof. intros He [H1 H2 H3]. split; [rewrite He; apply H1|rewrite He; apply H2|done]. Qed.

Lemma small_heaps_same c c' T : tables_ c' = tables_ c → small_heaps pages c T → small_heaps pages c' T.
Proof. intros He H. unfold small_heaps. by rewrite He. Qed.

(** ** The engine *)

(** A command that changes the catalog. *)
Lemma command_runs g g' e ts tag : utility_type_ e = CREATE_INDEX ∨ utility_type_ e = DROP_INDEX → ut_cursor e = 0%nat → (1 < fuel)%nat →
  command_result (ut_schema e) tag = Ok ts → (∀ t, MakeCommandRow tag = Ok t → reaches g (utility_rows fuel pages e) [t] g') →
  reaches g (run_executor fuel (utility_executor fuel pages) e) ts g'.
Proof.
  intros _ _ Hfuel Hts Hrows. unfold command_result in Hts. destruct (MakeCommandRow tag) as [t| | |] eqn:Ht; simplify_eq/=.
  specialize (Hrows t eq_refl).
  eapply (run_one_shot fuel _ g g' g' e (with_rows [t] 0 e) (with_rows [t] 1 e) (t, Some RID_default) ts); [| | |done|exact Hts].
  - simpl. unfold Utility_Init. eapply reaches_bind; [exact Hrows|apply reaches_ret].
  - apply computes_ret.
  - apply computes_ret.
Qed.

#[local] Opaque command_result count_row.

Lemma statement_runs c m T plan ts c' T' : catalog_ok c → tables_ok c m T → small_heaps pages c T → 0 ≤ next_index_oid_ c < UINT32_MAX →
  statement_effect c T plan = Ok (ts, (c', T')) → statement_fuel c T plan → small_heaps pages c' T' →
  ∃ m', catalog_ok c' ∧ tables_ok c' m' T' ∧ reaches (idle m (t_next T), c) (Execute fuel pages fmt_2f plan) ts (idle m' (t_next T'), c').
Proof.
  intros Hc HT Hsmall Hoid He Hf Hsmall'.
  assert (effect_fuel fuel fmt_2f c T plan → statement_effect c T plan = ('(ts, T) ← effect_result fmt_2f c T plan; Ok (ts, (c, T))) →
    ∃ m', catalog_ok c' ∧ tables_ok c' m' T' ∧ reaches (idle m (t_next T), c) (Execute fuel pages fmt_2f plan) ts (idle m' (t_next T'), c')) as Hplan.
  { intros Hfuel Heq. rewrite Heq in He. destruct (effect_result fmt_2f c T plan) as [[ts1 T1]| | |] eqn:Hr; simplify_eq/=.
    destruct (Execute_runs fuel pages fmt_2f frames zero_len c' m T HT Hsmall plan ts T' Hr Hfuel Hsmall') as (m' & ? & ?). by exists m'. }
  destruct plan as [| | | | | | | | | | | |s ut table index attrs names missing_ok]; try (by apply Hplan).
  destruct ut; try (by apply Hplan); clear Hplan; cbn [statement_effect statement_fuel] in *.
  - destruct Hf as [Hf1 Hf2]. destruct (create_index_effect c T index table attrs) as [[info c1]| | |] eqn:Hi; simplify_eq/=.
    destruct (command_result s _) as [ts1| | |] eqn:Hts; simplify_eq/=. exists m.
    assert (tables_ c' = tables_ c) as Ht.
    { by destruct (create_index_inv _ _ _ _ _ _ _ Hc Hi) as (? & ? & ? & _ & _ & _ & _ & _ & _ & _ & _ & -> & _). }
    split; [by eapply with_index_ok|]. split; [by eapply tables_ok_same|].
    unfold Execute. simpl. eapply command_runs; [by left|done|done|exact Hts|]. intros t Htag. unfold utility_rows. simpl.
    eapply reaches_bind; [by eapply CreateIndex_runs|]. cbn beta iota. eapply reaches_bind; [by apply computes_lift|]. apply reaches_ret.
  - destruct (drop_indexes_effect names missing_ok false c) as [[removed c1]| | |] eqn:Hi; simplify_eq/=.
    destruct (command_result s _) as [ts1| | |] eqn:Hts; simplify_eq/=. exists m.
    destruct (drop_indexes_ok _ _ _ _ _ _ Hc Hi) as (Hc' & Ht & _). split; [done|]. split; [by eapply tables_ok_same|].
    unfold Execute. simpl. eapply command_runs; [by right|done|done|exact Hts|]. intros t Htag. unfold utility_rows. simpl.
    eapply reaches_bind; [by apply drop_indexes_runs|]. cbn beta iota. eapply reaches_bind; [by apply computes_lift|]. apply reaches_ret.
Qed.

(** ** Indexes stay current *)

(** No index of the table answers point lookups. *)
Definition unindexed (c : Catalog) (oid : Z) : Prop := ∀ t ioid i,
  tables_ c !! oid = Some t → indexes_ c !! ioid = Some i → table_name_ i = t_name_ t → SupportsPointLookup i = false.

(** Statements that change a table must find it without such an index; queries must
    meet the side conditions of the optimizer ([fits]). *)
Definition good_statement (c : Catalog) (T : Tables) (plan : AbstractPlanNode) : Prop :=
  match plan with
  | InsertPlanNode _ (SeqScanPlanNode _ src _) oid => unindexed c src ∧ unindexed c oid
  | DeletePlanNode _ _ oid | UpdatePlanNode _ _ oid _ => unindexed c oid
  | UtilityPlanNode _ _ _ _ _ _ _ => True
  | _ => fits fmt_2f c (records_of T) plan
  end.

Lemma live_NoDup h : NoDup h.*1 → NoDup (live h).*1.
Proof.
  induction h as [|[pid [ts free]] h IH]; [constructor|]. intros [Hpid Hnd]%NoDup_cons.
  change (live ((pid, (ts, free)) :: h)) with (live_slots pid 0 ts ++ live h). rewrite fmap_app. apply NoDup_app. split_and!; [| |by apply IH].
  - clear. generalize 0%nat. induction ts as [|t ts IH]; intros i; [constructor|]. rewrite live_slots_cons. case_decide; [apply IH|].
    simpl. constructor; [|apply IH]. intros ([r b] & Heq & Hin)%list_elem_of_fmap. simpl in Heq. subst r.
    unfold live_slots in Hin. apply list_elem_of_filter in Hin as [_ Hin]. apply elem_of_lookup_imap in Hin as (j & u & [= Hj] & _). lia.
  - intros r ([r1 b1] & Hr1 & H1)%list_elem_of_fmap ([r2 b2] & Hr2 & H2)%list_elem_of_fmap. simpl in Hr1, Hr2. subst r1 r2.
    unfold live_slots in H1. apply list_elem_of_filter in H1 as [_ H1]. apply elem_of_lookup_imap in H1 as (j & u & [= -> ->] & _).
    unfold live in H2. apply list_elem_of_bind in H2 as ([pid2 [ts2 f2]] & Hin & Hp). simpl in Hin.
    apply list_elem_of_filter in Hin as [_ Hin]. apply elem_of_lookup_imap in Hin as (j2 & u2 & [= <- _] & _).
    apply Hpid. by apply (list_elem_of_fmap_2 fst) in Hp.
Qed.

Lemma records_nodup c m T oid t : tables_ok c m T → tables_ c !! oid = Some t → NoDup (records_of T oid).*1.
Proof. intros HT Ht. apply live_NoDup. by eapply heap_nodup. Qed.

Lemma create_index_current c m T index_name table_name key_attrs info c' : db_current c (records_of T) → tables_ok c m T →
  0 ≤ next_index_oid_ c < UINT32_MAX →
  create_index_effect c T index_name table_name key_attrs = Ok (info, c') → db_current c' (records_of T).
Proof.
  intros Hdb HT Hoid He. pose proof (dc_catalog _ _ Hdb) as Hc.
  destruct (create_index_inv _ _ _ _ _ _ _ Hc He) as (t & cols & point & _ & Htab & Hname & _ & _ & _ & Hpoint & Hinfo & Hc' & (Hin & Hit & _) & Hka & Hsp).
  pose proof (with_index_ok _ _ _ _ _ _ _ Hc Hoid He) as Hok'. subst c'. simpl in Hin, Hit. split; [done|by apply (dc_records _ _ Hdb)|].
  intros oid1 t1 ioid i Ht1 Hi Hti Hpi. simpl in Ht1, Hi. apply lookup_insert_Some in Hi as [[<- <-]|[_ Hi]]; [|by eapply (dc_index _ _ Hdb)].
  assert (oid1 = t_oid_ t) as ->.
  { destruct (co_table _ Hc _ _ Ht1) as (_ & _ & H1). destruct (co_table _ Hc _ _ Htab) as (_ & _ & H2). rewrite <- Hti, Hit, <- Hname in H1. congruence. }
  replace t1 with t in * by congruence. unfold SupportsPointLookup in Hpi. subst point. rewrite Hpi in Hpoint, Hinfo.
  destruct key_attrs as [|attr [|a2 ks2]]; simplify_eq/=. simpl in Hinfo. unfold filled_index in Hinfo.
  destruct (mapR (row_key (t_schema_ t) attr) (records_of T (t_oid_ t))) as [ks| | |] eqn:Hks; simplify_eq/=.
  exists attr, ks. split; [unfold GetLookupAttr; by rewrite Hka|]. split; [by apply mapR_Forall2|]. intros key. unfold LookupInteger.
  rewrite <- Hinfo. match goal with |- context [fold_left _ ?l ?i] => destruct (fold_InsertEntry l i) as (-> & _) end. apply index_of_lookup.
Qed.

Lemma drop_indexes_current c T names missing_ok removed r c' : db_current c (records_of T) →
  drop_indexes_effect names missing_ok removed c = Ok (r, c') → db_current c' (records_of T).
Proof.
  intros Hdb He. destruct (drop_indexes_ok _ _ _ _ _ _ (dc_catalog _ _ Hdb) He) as (Hc' & Ht & Hi).
  split; [done|rewrite Ht; apply (dc_records _ _ Hdb)|]. rewrite Ht. intros oid t ioid i Hoid Hioid. eapply (dc_index _ _ Hdb oid t ioid i Hoid).
  by eapply lookup_weaken.
Qed.

(** A change of an unindexed table. *)
Lemma change_current c m' T oid h nid : db_current c (records_of T) → unindexed c oid → tables_ok c m' (set_heap oid h nid T) →
  db_current c (records_of (set_heap oid h nid T)).
Proof.
  intros Hdb Hun HT'. split; [apply (dc_catalog _ _ Hdb)|intros o t Ht; by eapply records_nodup|].
  intros o t ioid i Ht Hi Hti Hp. destruct (decide (o = oid)) as [->|Hne].
  - specialize (Hun t ioid i Ht Hi Hti). congruence.
  - unfold Effects.records_of. rewrite heap_of_set, decide_False by done. by eapply (dc_index _ _ Hdb).
Qed.

(** The table a plan changes. *)
Definition changed (plan : AbstractPlanNode) : option Z :=
  match plan with InsertPlanNode _ _ oid | DeletePlanNode _ _ oid | UpdatePlanNode _ _ oid _ => Some oid | _ => None end.

Lemma effect_changes c T plan rows T' : plan_effect fmt_2f c T plan = Ok (rows, T') →
  T' = T ∨ ∃ oid h nid, changed plan = Some oid ∧ T' = set_heap oid h nid T.
Proof.
  assert (∀ oid p new, edit_effect c T oid p new = Ok (rows, T') → ∃ h nid, T' = set_heap oid h nid T) as Hedit.
  { intros oid p new He. unfold edit_effect in He. destruct (tables_ c !! oid); [|done].
    destruct (scan_rows _ p _) as [srows| | |]; simplify_eq/=. destruct (edits _ _ _) as [h| | |]; simplify_eq/=.
    match type of He with context [?n <=? INT32_MAX] => destruct (Z.leb_spec n INT32_MAX) as [_|] end; [|done].
    destruct (count_row _) as [row| | |]; simplify_eq/=. by eexists _, _. }
  assert ((rows ← query_rows fmt_2f c (records_of T) plan; Ok (rows, T)) = Ok (rows, T') → T' = T) as Hquery.
  { destruct (query_rows _ _ _ plan); intros; by simplify_eq/=. }
  intros He. destruct plan as [| | |s child oid|s child oid|s child oid exprs| | | | | | |]; try (by left; apply Hquery);
    destruct child; try (by left; apply Hquery); cbn [plan_effect] in He; case_match; try done.
  - right. unfold insert_effect in He. destruct (tables_ c !! table_oid), (tables_ c !! oid); try done.
    destruct (scan_rows _ _ _) as [srows| | |]; simplify_eq/=. destruct (puts _ _ _ _) as [[[n h] nid]| | |]; simplify_eq/=.
    match type of He with context [?n <=? INT32_MAX] => destruct (Z.leb_spec n INT32_MAX) as [_|] end; [|done].
    destruct (count_row _) as [row| | |]; simplify_eq/=. by exists oid, h, nid.
  - right. apply Hedit in He as (h & nid & ->). by exists oid, h, nid.
  - right. apply Hedit in He as (h & nid & ->). by exists oid, h, nid.
Qed.

Lemma unindexed_scan c s oid p t : catalog_ok c → tables_ c !! oid = Some t → unindexed c oid →
  Optimize (Some c) (SeqScanPlanNode s oid p) = Ok (SeqScanPlanNode s oid p).
Proof.
  intros Hc Ht Hun.
  cbn [Optimize]. unfold apply_rules, OptimizeSeqScanToIndexScan.
  destruct (lookup_columns p) as [[col key]|]; [|done]. unfold GetTableByOid. rewrite Ht.
  destruct (GetTableIndexes_ok c (t_name_ t) Hc) as (l & Hl & Hall). rewrite Hl. cbn [mbind res_bind].
  assert (∀ l', l' ⊆ l → find_index col l' = Ok None) as Hnone.
  { induction l' as [|i l' IH]; intros Hsub; [done|]. cbn [find_index]. destruct (Hall i) as [Hoid Hname]; [set_solver|].
    rewrite (Hun t _ i Ht Hoid Hname). apply IH. set_solver. }
  rewrite (Hnone l) by done. done.
Qed.

Lemma statement_current c m m' T plan ts c' T' : db_current c (records_of T) → tables_ok c m T → 0 ≤ next_index_oid_ c < UINT32_MAX →
  good_statement c T plan → statement_effect c T plan = Ok (ts, (c', T')) → tables_ok c' m' T' → db_current c' (records_of T').
Proof.
  intros Hdb HT Hoid Hgood He HT'.
  assert (statement_effect c T plan = ('(ts, T) ← effect_result fmt_2f c T plan; Ok (ts, (c, T))) →
    (∀ oid, changed plan = Some oid → unindexed c oid) → db_current c' (records_of T')) as Hplan.
  { intros Heq Hun. rewrite Heq in He. destruct (effect_result fmt_2f c T plan) as [[ts1 T1]| | |] eqn:Hr; simplify_eq/=.
    unfold effect_result in Hr. destruct (plan_effect fmt_2f c' T plan) as [[rows T1]| | |] eqn:Hp; simplify_eq/=.
    destruct (mapR _ rows) as [ts1| | |]; simplify_eq/=. apply effect_changes in Hp as [->|(oid & h & nid & Hch & ->)]; [done|].
    by apply (change_current c' m'); [|apply Hun|]. }
  destruct plan as [| | |s child oid|s child oid|s child oid exprs| | | | | | |s ut table index attrs names missing_ok];
    try (apply Hplan; [done|by intros ? [= <-]]).
  - destruct child; try done. apply Hplan; [done|]. intros ? [= <-]. by destruct Hgood.
  - destruct ut; try (by apply Hplan); clear Hplan; cbn [statement_effect] in He.
    + destruct (create_index_effect c T index table attrs) as [[info c1]| | |] eqn:Hi; simplify_eq/=.
      destruct (command_result s _) as [ts1| | |]; simplify_eq/=. by eapply create_index_current.
    + destruct (drop_indexes_effect names missing_ok false c) as [[removed c1]| | |] eqn:Hi; simplify_eq/=.
      destruct (command_result s _) as [ts1| | |]; simplify_eq/=. by eapply drop_indexes_current.
Qed.

Lemma query_statement c T plan rows : query_rows fmt_2f c (records_of T) plan = Ok rows →
  statement_effect c T plan = (ts ← mapR (result_tuple (plan_schema plan)) rows; Ok (ts, (c, T))).
Proof.
  intros Hq. assert (plan_effect fmt_2f c T plan = Ok (rows, T) → statement_effect c T plan =
    ('(ts, T) ← effect_result fmt_2f c T plan; Ok (ts, (c, T))) →
    statement_effect c T plan = (ts ← mapR (result_tuple (plan_schema plan)) rows; Ok (ts, (c, T)))) as H.
  { intros Hp ->. unfold effect_result. rewrite Hp. simpl. by destruct (mapR _ rows). }
  destruct plan as [| | | | | | | | | | | |s ut table index attrs names missing_ok]; try done;
    try (apply H; [cbn [plan_effect]; by rewrite Hq|done]).
  destruct ut; try done; (apply H; [cbn [plan_effect]; by rewrite Hq|done]).
Qed.

(** The optimizer keeps the effect of a statement, up to the order of the rows where a
    join is rewritten. *)
Definition same_answer (plan : AbstractPlanNode) (ts' ts : list Tuple) : Prop :=
  ts' ≡ₚ ts ∧ (rewritten_join plan = false → ts' = ts).

Definition optimized_effect (oc : option Catalog) c T plan ts r : Prop := ∃ plan' ts', Optimize oc plan = Ok plan' ∧
  plan_schema plan' = plan_schema plan ∧ statement_effect c T plan' = Ok (ts', r) ∧ same_answer plan ts' ts.

Lemma query_optimized oc c T plan ts r : oc = None ∨ oc = Some c ∧ db_current c (records_of T) →
  plan_effect fmt_2f c T plan = (rows ← query_rows fmt_2f c (records_of T) plan; Ok (rows, T)) →
  statement_effect c T plan = ('(ts, T) ← effect_result fmt_2f c T plan; Ok (ts, (c, T))) →
  fits fmt_2f c (records_of T) plan → statement_effect c T plan = Ok (ts, r) → optimized_effect oc c T plan ts r.
Proof.
  intros Hoc Hp Heq Hfit He. rewrite Heq in He. unfold effect_result in He. rewrite Hp in He.
  destruct (query_rows fmt_2f c (records_of T) plan) as [rows| | |] eqn:Hq; simplify_eq/=.
  destruct (rewrite_rows fmt_2f c (records_of T) oc Hoc plan rows Hfit Hq) as (plan' & rows' & Ho & Hs & Hq' & Hperm & Hrows).
  destruct (mapR _ rows) as [ts1| | |] eqn:Hts; simplify_eq/=. destruct (mapR_perm _ _ rows' _ Hperm Hts) as (ts' & Hts' & Hp').
  exists plan', ts'. split; [done|]. split; [done|]. rewrite (query_statement _ _ _ _ Hq'), Hs, Hts'. split; [done|]. split; [done|].
  intros J. rewrite (Hrows J), Hts in Hts'. by injection Hts'.
Qed.

Lemma statement_optimized c T plan ts r : db_current c (records_of T) → good_statement c T plan → statement_effect c T plan = Ok (ts, r) →
  optimized_effect (Some c) c T plan ts r.
Proof.
  intros Hdb Hgood He. pose proof (dc_catalog _ _ Hdb) as Hc.
  assert (Optimize (Some c) plan = Ok plan → optimized_effect (Some c) c T plan ts r) as Hsame by (intros; by exists plan, ts).
  pose proof (query_optimized (Some c) c T plan ts r (or_intror (conj eq_refl Hdb))) as Hquery.
  assert (∀ src s p, (∃ t, tables_ c !! src = Some t) → unindexed c src → Optimize (Some c) (SeqScanPlanNode s src p) = Ok (SeqScanPlanNode s src p)) as Hscan.
  { intros src s p [t Ht] Hun. by eapply unindexed_scan. }
  assert (∀ oid p new rt, edit_effect c T oid p new = Ok rt → ∃ t, tables_ c !! oid = Some t) as Hedit.
  { intros oid p new rt H. unfold edit_effect in H. destruct (tables_ c !! oid) as [t|]; [by exists t|done]. }
  destruct plan as [| | |s child oid|s child oid|s child oid exprs| | | | | | |s ut table index attrs names missing_ok]; try (by apply Hquery).
  - destruct child as [|s1 src p| | | | | | | | | | |]; try done. destruct Hgood as [Hun1 Hun2]. apply Hsame. cbn [Optimize].
    cbn [statement_effect] in He. unfold effect_result in He. cbn [plan_effect] in He. destruct (src =? oid); [done|].
    unfold insert_effect in He. destruct (tables_ c !! src) as [t|] eqn:Ht; [|done].
    pose proof (unindexed_scan c s1 src p t Hc Ht Hun1) as H. cbn [Optimize] in H. by rewrite H.
  - destruct child as [|s1 src p| | | | | | | | | | |]; try done. apply Hsame.
    cbn [statement_effect] in He. unfold effect_result in He. cbn [plan_effect] in He. destruct (Z.eqb_spec src oid) as [->|]; [|done].
    destruct (edit_effect c T oid p (λ _, delete_new)) as [rt| | |] eqn:Hed; try done. cbn [Optimize].
    pose proof (Hscan oid s1 p (Hedit _ _ _ _ Hed) Hgood) as H. cbn [Optimize] in H. by rewrite H.
  - destruct child as [|s1 src p| | | | | | | | | | |]; try done. apply Hsame.
    cbn [statement_effect] in He. unfold effect_result in He. cbn [plan_effect] in He. destruct (Z.eqb_spec src oid) as [->|]; [|done].
    destruct (edit_effect c T oid p _) as [rt| | |] eqn:Hed; try done. cbn [Optimize].
    pose proof (Hscan oid s1 p (Hedit _ _ _ _ Hed) Hgood) as H. cbn [Optimize] in H. by rewrite H.
  - by apply Hsame.
Qed.

(** Without a catalog the optimizer only rewrites joins: statements that change a table may
    find indexes on it. *)
Definition good_without_catalog (c : Catalog) (T : Tables) (plan : AbstractPlanNode) : Prop :=
  match plan with
  | InsertPlanNode _ _ _ | DeletePlanNode _ _ _ | UpdatePlanNode _ _ _ _ | UtilityPlanNode _ _ _ _ _ _ _ => True
  | _ => fits fmt_2f c (records_of T) plan
  end.

Lemma statement_without_catalog c T plan ts r : good_without_catalog c T plan → statement_effect c T plan = Ok (ts, r) →
  optimized_effect None c T plan ts r.
Proof.
  intros Hgood He. assert (Optimize None plan = Ok plan → optimized_effect None c T plan ts r) as Hsame by (intros; by exists plan, ts).
  pose proof (query_optimized None c T plan ts r (or_introl eq_refl)) as Hquery.
  destruct plan as [| | |s child oid|s child oid|s child oid exprs| | | | | | |s ut table index attrs names missing_ok]; try (by apply Hquery);
    [by destruct child; try done; apply Hsame..|by apply Hsame].
Qed.

(** A statement, optimized and executed. *)
Lemma optimized_runs c m T plan ts c' T' :
  db_current c (records_of T) → tables_ok c m T → small_heaps pages c T → 0 ≤ next_index_oid_ c < UINT32_MAX →
  good_statement c T plan → statement_effect c T plan = Ok (ts, (c', T')) →
  ∃ plan' ts', Optimize (Some c) plan = Ok plan' ∧ plan_schema plan' = plan_schema plan ∧
    statement_effect c T plan' = Ok (ts', (c', T')) ∧ same_answer plan ts' ts ∧
    (statement_fuel c T plan' → small_heaps pages c' T' →
    ∃ m', tables_ok c' m' T' ∧ db_current c' (records_of T') ∧
      reaches (idle m (t_next T), c) (Execute fuel pages fmt_2f plan') ts' (idle m' (t_next T'), c')).
Proof.
  intros Hdb HT Hsmall Hoid Hgood He. destruct (statement_optimized c T plan ts _ Hdb Hgood He) as (plan' & ts' & Ho & Hs & He' & Hsame).
  exists plan', ts'. do 4 (split; [done|]). intros Hf Hsmall'.
  destruct (statement_runs c m T plan' ts' c' T' (dc_catalog _ _ Hdb) HT Hsmall Hoid He' Hf Hsmall') as (m' & _ & HT' & Hrun).
  exists m'. split; [done|]. split; [|done]. by eapply statement_current.
Qed.

(** C5: statements are executed as specified.  On current indexes, tables in pages of
    their own and enough fuel, the optimized plan of a statement runs to the end, gives the
    rows of its effect (up to their order when a join of the query becomes a hash join) and
    leaves the database its effect says, with current indexes and tables in pages of
    their own.  The statements are those of [good_statement]: queries that meet the side
    conditions of the optimizer ([fits]: constants compared with a column are not NULL,
    the keys of a join that becomes a hash join are of one type and hold no FLOAT and no
    NULL, no LIMIT or aggregation is above such a join, the keys of ORDER BY are typed);
    DELETE, UPDATE and INSERT ... SELECT on tables without an index; CREATE INDEX and
    DROP INDEX. *)
Theorem statements_run c m T plan ts c' T' :
  db_current c (records_of T) → tables_ok c m T → small_heaps pages c T → 0 ≤ next_index_oid_ c < UINT32_MAX →
  good_statement c T plan → statement_effect c T plan = Ok (ts, (c', T')) →
  ∃ plan' ts', Optimize (Some c) plan = Ok plan' ∧ plan_schema plan' = plan_schema plan ∧
    ts' ≡ₚ ts ∧ (rewritten_join plan = false → ts' = ts) ∧ (statement_fuel c T plan' → small_heaps pages c' T' →
    ∃ m', tables_ok c' m' T' ∧ db_current c' (records_of T') ∧
      reaches (idle m (t_next T), c) (Execute fuel pages fmt_2f plan') ts' (idle m' (t_next T'), c')).
Proof.
  intros Hdb HT Hsmall Hoid Hgood He.
  destruct (optimized_runs c m T plan ts c' T' Hdb HT Hsmall Hoid Hgood He) as (plan' & ts' & ? & ? & _ & [? ?] & ?). by exists plan', ts'.
Qed.
End Statements.

(** ** Witness: CREATE INDEX i ON t (a) *)

Lemma two_catalog_ok : catalog_ok two_catalog.
Proof.
  split.
  - intros oid t [[-> ->]|[-> ->]]%two_tables_cases; (split; [done|split; [simpl; lia|reflexivity]]).
  - intros n oid H. change (({["t" := 1; "u" := 2]} : gmap string Z) !! n = Some oid) in H.
    apply lookup_insert_Some in H as [[<- <-]|[_ H]]; [by exists int_table|]. apply lookup_singleton_Some in H as [<- <-]. by exists u_table.
  - intros oid i H. change ((∅ : gmap Z IndexInfo) !! oid = Some i) in H. by rewrite lookup_empty in H.
  - intros t names n oid H. change ((∅ : gmap string (gmap string Z)) !! t = Some names) in H. by rewrite lookup_empty in H.
Qed.

Lemma two_db_current : db_current two_catalog (Effects.records_of two_tables).
Proof.
  split; [exact two_catalog_ok| |].
  - intros oid t Ht. by eapply records_nodup, Ht; apply two_tables_ok.
  - intros oid t ioid i _ H. change ((∅ : gmap Z IndexInfo) !! ioid = Some i) in H. by rewrite lookup_empty in H.
Qed.

Section Demo.
#[local] Existing Instance demo_io.
#[local] Existing Instance listed_order.
#[local] Existing Instance insertion_std_sort.

Definition index_plan : AbstractPlanNode :=
  UtilityPlanNode (Schema_new (make_columns [("result", VARCHAR, 64)])) CREATE_INDEX "t" "i" [0] [] false.
Definition indexed : list Tuple * (Catalog * Tables) :=
  match statement_effect (λ _, "") two_catalog two_tables index_plan with Ok r => r | _ => ([], (two_catalog, two_tables)) end.

Lemma statements_run_witness : indexes_ indexed.2.1 !! 1 ≫= (λ i, LookupInteger i 7) = Some [mkRID 0 0; mkRID 0 2] ∧
  ∃ plan' m', db_current indexed.2.1 (Effects.records_of two_tables) ∧
    reaches (idle two_pages 2, two_catalog) (Execute 9 5 (λ _, "") plan') indexed.1 (idle m' 2, indexed.2.1).
Proof.
  split; [vm_compute; reflexivity|].
  destruct (statements_run (PIO := demo_io) 9 5 (λ _, "") ltac:(vm_compute; discriminate) ltac:(vm_compute; reflexivity)
    two_catalog two_pages two_tables index_plan indexed.1 indexed.2.1 two_tables) as (plan' & ts' & Ho & _ & _ & Hts & H).
  - exact two_db_current.
  - exact two_tables_ok.
  - exact two_tables_small.
  - simpl. unfold UINT32_MAX. lia.
  - exact I.
  - vm_compute. reflexivity.
  - change (Ok index_plan = Ok plan') in Ho. injection Ho as <-. destruct H as (m' & _ & Hdb & Hrun).
    + split; [lia|]. intros t Ht. change (Ok (Some int_table) = Ok (Some t)) in Ht. injection Ht as <-. vm_compute. lia.
    + intros oid t [[-> ->]|[-> ->]]%two_tables_cases; vm_compute; lia.
    + exists index_plan, m'. split; [exact Hdb|]. rewrite (Hts eq_refl) in Hrun. exact Hrun.
Defined.
End Demo.
