(* ===== verification/Refusals.v ===== *)
(** * Statements that fail

    What the database is after a statement whose execution throws: a CREATE INDEX that
    is refused, a DROP INDEX that names an index that is not there, SHOW SCHEMA of no
    table.  DROP INDEX is not undone: the indexes named before the missing one are gone. *)

From S2P Require Import Prelude Common Value Tuple Expression PageStore PageIO PageLogic TablePage TableHeap TableEdit Catalog Executor.
From S2P Require Import Operators Join Aggregate Dml OrderBy Utility Engine Effects Optimizer Statements.

Section Refusals.
Context {S : Type} `{PIO : !PageIO bytes S} {HO : HashOrder} {SS : StdSort} (fuel pages : nat) (fmt_2f : Z → string).
Abbreviation M A := (ST (DB S) A).

(** [cmd] throws [e] and takes the database from [g] to [g']. *)
Definition refuses {A} (g : Store bytes * Catalog) (cmd : M A) (e : exn) (g' : Store bytes * Catalog) : Prop :=
  ∃ n, 0 ≤ n ∧ ∀ k d, 0 ≤ k → db_rel (k + n) g d → ∃ d', cmd d = (Throw e, d') ∧ db_rel k g' d'.

Lemma refuses_throw {A} g e : refuses (A := A) g (st_throw e) e g.
Proof. exists 0. split; [done|]. intros k d Hk Hd. rewrite Z.add_0_r in Hd. by exists d. Qed.

Lemma refuses_lift {A} g (r : res A) e : r = Throw e → refuses g (st_lift r) e g.
Proof. intros ->. apply refuses_throw. Qed.

Lemma refuses_first {A B} g (cmd : M A) (f : A → M B) e g' : refuses g cmd e g' → refuses g (cmd ≫= f) e g'.
Proof.
  intros (n & Hn & H). exists n. split; [done|]. intros k d Hk Hd. destruct (H k d Hk Hd) as (d' & Hrun & Hd').
  exists d'. split; [|done]. unfold mbind, st_bind. by rewrite Hrun.
Qed.

Lemma refuses_next {A B} g g1 (cmd : M A) (f : A → M B) x e g' : reaches g cmd x g1 → refuses g1 (f x) e g' → refuses g (cmd ≫= f) e g'.
Proof.
  intros (n1 & H1 & Hc) (n2 & H2 & Hf). exists (n1 + n2). split; [lia|]. intros k d Hk Hd.
  destruct (Hc (k + n2) d) as (y & d1 & g2 & Hrun & [-> ->] & Hd1); [lia|by replace (k + n2 + n1) with (k + (n1 + n2)) by lia|].
  destruct (Hf k d1 Hk Hd1) as (d' & Hrun2 & Hd'). exists d'. split; [|done]. by rewrite (st_bind_ok _ _ _ _ _ Hrun).
Qed.

Lemma refuses_get {A} a c (f : DB S → M A) F e g' : (∀ p, f (mkDB p c) = F) → refuses (a, c) F e g' → refuses (a, c) (d ← st_get; f d) e g'.
Proof.
  intros Hf (n & Hn & H). exists n. split; [done|]. intros k [p c0] Hk Hd. pose proof Hd as [_ Hc]. simpl in Hc. subst c0.
  destruct (H k _ Hk Hd) as (d' & Hrun & Hd'). exists d'. split; [|done].
  rewrite (st_bind_ok _ _ _ _ _ (eq_refl : st_get (mkDB p c) = (Ok (mkDB p c), mkDB p c))). by rewrite Hf.
Qed.

(** ** What fails, and what it leaves *)

(** CREATE INDEX finds no table, no name, no column, or an index of the name. *)
Definition create_index_refused (c : Catalog) (index_name table_name : string) (key_attrs : list Z) : res bool :=
  table ← GetTable table_name c;
  match table with
  | None => Ok true
  | Some t =>
      if bool_decide (index_name = "" ∨ key_attrs = []) then Ok true
      else
        existing ← GetIndex index_name table_name c;
        match existing with
        | Some _ => Ok true
        | None => cols ← key_columns (t_schema_ t) key_attrs; Ok (bool_decide (cols = None))
        end
  end.

Fixpoint drop_indexes_failure (names : list string) (missing_ok : bool) (c : Catalog) : option (exn * Catalog) :=
  match names with
  | [] => None
  | index_name :: names =>
      match matched_table index_name (GetAllTables c) "" c with
      | Ok matched =>
          if bool_decide (matched = "") then
            if missing_ok then drop_indexes_failure names missing_ok c
            else Some (RuntimeError ("Index not found: " +:+ index_name), c)
          else drop_indexes_failure names missing_ok (DropIndex index_name matched c).2
      | Throw e => Some (e, c)
      | _ => None
      end
  end.

(** The exception of a statement and the catalog it leaves. *)
Definition statement_failure (c : Catalog) (plan : AbstractPlanNode) : option (exn * Catalog) :=
  match plan with
  | UtilityPlanNode _ CREATE_INDEX table index attrs _ _ =>
      match create_index_refused c index table attrs with
      | Ok true => Some (RuntimeError ("Failed to create index: " +:+ index), c)
      | _ => None
      end
  | UtilityPlanNode _ DROP_INDEX _ _ _ names missing_ok => drop_indexes_failure names missing_ok c
  | UtilityPlanNode _ SHOW_SCHEMA table _ _ _ _ =>
      match GetTable table c with
      | Ok None => Some (RuntimeError ("Table not found: " +:+ table), c)
      | _ => None
      end
  | _ => None
  end.

(** ** The engine fails that way *)

Lemma CreateIndex_refuses a c index_name table_name key_attrs : create_index_refused c index_name table_name key_attrs = Ok true →
  reaches (a, c) (CreateIndex (S := S) fuel pages index_name table_name key_attrs) None (a, c).
Proof.
  intros He. unfold create_index_refused in He. unfold CreateIndex. eapply reaches_get; [intros p; cbn [cat]; reflexivity|].
  destruct (GetTable table_name c) as [[t|]| | |] eqn:Ht; simplify_eq/=;
    (eapply reaches_bind; [by apply computes_lift|]); cbn beta iota; [|apply reaches_ret].
  case_bool_decide; [apply reaches_ret|].
  destruct (GetIndex index_name table_name c) as [existing| | |] eqn:Hex; simplify_eq/=.
  eapply reaches_bind; [by apply computes_lift|]. cbn beta iota. destruct existing; [apply reaches_ret|].
  destruct (key_columns (t_schema_ t) key_attrs) as [cols| | |] eqn:Hcols; simplify_eq/=. case_bool_decide; simplify_eq.
  eapply reaches_bind; [by apply computes_lift|]. cbn beta iota. apply reaches_ret.
Qed.

Lemma drop_indexes_refuses a names missing_ok e : ∀ removed c c', drop_indexes_failure names missing_ok c = Some (e, c') →
  refuses (a, c) (drop_indexes (S := S) names missing_ok removed) e (a, c').
Proof.
  induction names as [|index_name names IH]; intros removed c c' He; cbn [drop_indexes_failure] in He; [done|]. cbn [drop_indexes].
  eapply refuses_next; [apply computes_catalog|].
  destruct (matched_table index_name (GetAllTables c) "" c) as [matched| | |] eqn:Hm; simplify_eq/=.
  - eapply refuses_next; [by apply computes_lift|]. cbn beta iota. case_bool_decide.
    + destruct missing_ok; [by apply IH|]. injection He as <- <-. apply refuses_throw.
    + destruct (DropIndex index_name matched c) as [b c1]. simpl in He. eapply refuses_next; [apply reaches_set_cat|]. by apply IH.
  - apply refuses_first. by apply refuses_lift.
Qed.

Lemma utility_refuses g e (u : UtilityExecutor) g' : refuses g (utility_rows (S := S) fuel pages u) e g' →
  refuses g (run_executor fuel (utility_executor fuel pages) u) e g'.
Proof. intros H. unfold run_executor. apply refuses_first. unfold Init, utility_executor, Utility_Init. by apply refuses_first. Qed.

Lemma statement_refuses c a plan e c' : statement_failure c plan = Some (e, c') →
  refuses (a, c) (Execute (S := S) fuel pages fmt_2f plan) e (a, c').
Proof.
  intros He. destruct plan as [| | | | | | | | | | | |s ut table index attrs names missing_ok]; try done.
  destruct ut; try done; cbn [statement_failure] in He; unfold Execute; simpl; apply utility_refuses; unfold utility_rows; simpl.
  - destruct (create_index_refused c index table attrs) as [[]| | |] eqn:Hr; simplify_eq.
    eapply refuses_next; [by apply CreateIndex_refuses|]. apply refuses_throw.
  - apply refuses_first. by apply drop_indexes_refuses.
  - destruct (GetTable table c) as [[t|]| | |] eqn:Ht; simplify_eq. eapply refuses_next; [apply computes_catalog|].
    apply refuses_lift. unfold show_schema. by rewrite Ht.
Qed.

(** A DROP INDEX that fails is one that succeeds on the names before. *)
Lemma drop_indexes_partial names missing_ok e : ∀ removed c c', drop_indexes_failure names missing_ok c = Some (e, c') →
  ∃ done r, done `prefix_of` names ∧ drop_indexes_effect done missing_ok removed c = Ok (r, c').
Proof.
  induction names as [|index_name names IH]; intros removed c c' He; cbn [drop_indexes_failure] in He; [done|].
  destruct (matched_table index_name (GetAllTables c) "" c) as [matched| | |] eqn:Hm; simplify_eq/=;
    [|exists [], removed; by split; [apply prefix_nil|]].
  case_bool_decide as Hn.
  - destruct missing_ok; [|injection He as <- <-; exists [], removed; by split; [apply prefix_nil|]].
    destruct (IH removed c c' He) as (l & r & Hp & Hd). exists (index_name :: l), r. split; [by apply prefix_cons|].
    cbn [drop_indexes_effect]. rewrite Hm. simpl. by rewrite bool_decide_true.
  - destruct (IH ((DropIndex index_name matched c).1 || removed) _ c' He) as (l & r & Hp & Hd). exists (index_name :: l), r.
    split; [by apply prefix_cons|]. cbn [drop_indexes_effect]. rewrite Hm. simpl. rewrite bool_decide_false by done.
    by destruct (DropIndex index_name matched c).
Qed.

(** Only DROP INDEX leaves another catalog. *)
Lemma failure_cases c plan e c' : statement_failure c plan = Some (e, c') →
  match plan with
  | UtilityPlanNode _ DROP_INDEX _ _ _ names missing_ok =>
      ∃ done r, done `prefix_of` names ∧ drop_indexes_effect done missing_ok false c = Ok (r, c')
  | _ => c' = c
  end.
Proof.
  intros He. destruct plan as [| | | | | | | | | | | |s ut table index attrs names missing_ok]; try done.
  destruct ut; try done; cbn [statement_failure] in He; repeat case_match; simplify_eq; try done.
  by eapply drop_indexes_partial.
Qed.

(** It leaves the tables and a consistent catalog. *)
Lemma failure_catalog c plan e c' : catalog_ok c → statement_failure c plan = Some (e, c') → catalog_ok c' ∧ tables_ c' = tables_ c.
Proof.
  intros Hc He. pose proof (failure_cases _ _ _ _ He) as H. destruct plan as [| | | | | | | | | | | |s ut table index attrs names missing_ok]; try done.
  destruct ut; try (by subst). destruct H as (l & r & _ & Hd). by destruct (drop_indexes_ok _ _ _ _ _ _ Hc Hd) as (? & ? & _).
Qed.

(** It leaves indexes that are current. *)
Lemma failure_current c m T plan e c' : db_current c (Effects.records_of T) → tables_ok c m T → statement_failure c plan = Some (e, c') →
  db_current c' (Effects.records_of T) ∧ tables_ok c' m T ∧ tables_ c' = tables_ c.
Proof.
  intros Hdb HT He. pose proof (failure_cases _ _ _ _ He) as Hc. destruct plan as [| | | | | | | | | | | |s ut table index attrs names missing_ok]; try done.
  destruct ut; try (by subst); destruct Hc as (l & r & _ & Hd). destruct (drop_indexes_ok _ _ _ _ _ _ (dc_catalog _ _ Hdb) Hd) as (_ & Ht & _).
  split; [by eapply drop_indexes_current|]. split; [by eapply tables_ok_same|done].
Qed.

(** C25: statements that fail.  When CREATE INDEX is refused, when DROP INDEX names an
    index that is not there (or is on two tables), and when SHOW SCHEMA names no table,
    the engine throws the exception with the message specified, leaks no pin, and
    changes no table; DROP INDEX has removed the indexes it names before, as if it
    had been given only those, and the indexes that are left are current. *)
Theorem failed_statements c m T plan e c' :
  db_current c (Effects.records_of T) → tables_ok c m T → statement_failure c plan = Some (e, c') →
  refuses (idle m (t_next T), c) (Execute (S := S) fuel pages fmt_2f plan) e (idle m (t_next T), c') ∧
  db_current c' (Effects.records_of T) ∧ tables_ok c' m T ∧
  match plan with
  | UtilityPlanNode _ DROP_INDEX _ _ _ names missing_ok =>
      ∃ done r, done `prefix_of` names ∧ drop_indexes_effect done missing_ok false c = Ok (r, c')
  | _ => c' = c
  end.
Proof.
  intros Hdb HT He. destruct (failure_current c m T plan e c' Hdb HT He) as (? & ? & _).
  split; [by apply statement_refuses|]. split; [done|]. split; [done|]. by eapply failure_cases.
Qed.
End Refusals.

(** ** Witness: DROP INDEX i, j without an index j *)

Section Demo.
#[local] Existing Instance demo_io.
#[local] Existing Instance listed_order.
#[local] Existing Instance insertion_std_sort.

Lemma indexed_current : db_current indexed.2.1 (Effects.records_of two_tables).
Proof.
  eapply (create_index_current two_catalog two_pages two_tables "i" "t" [0]);
    [exact two_db_current|exact two_tables_ok|by split; [|unfold UINT32_MAX]|].
  instantiate (1 := default (IndexInfo_new int_schema "" "" 0 []) (indexes_ indexed.2.1 !! 1)). vm_compute. reflexivity.
Qed.

Definition drop_plan : AbstractPlanNode := UtilityPlanNode int_schema DROP_INDEX "" "" [] ["i"; "j"] false.

Lemma failed_statements_witness :
  ∃ c', indexes_ c' = ∅ ∧ refuses (idle two_pages 2, indexed.2.1) (Execute 9 5 (λ _, "") drop_plan) (RuntimeError "Index not found: j") (idle two_pages 2, c').
Proof.
  exists (match statement_failure indexed.2.1 drop_plan with Some (_, c') => c' | None => two_catalog end). split; [vm_compute; reflexivity|].
  apply (failed_statements (PIO := demo_io) 9 5 (λ _, "") indexed.2.1 two_pages two_tables drop_plan).
  - exact indexed_current.
  - apply (tables_ok_same two_catalog); [vm_compute; reflexivity|exact two_tables_ok].
  - vm_compute. reflexivity.
Defined.
End Demo.
