(* ===== verification/PageGuard.v ===== *)
(** * Page guards

    [src/src/buffer/page_guard.cpp], its header, and the latch of [rwlatch.h] and
    [page.h].  A guard owns one pin of a page, and for the last two classes the
    latch of its frame; moving a guard moves the ownership.  The pool is any
    implementation of [PageIO].  A [Page *] is a frame together with the page it
    holds, which does not change while the page is pinned. *)

From S2P Require Import Prelude Common PageStore PageIO PageLogic.

(** ** [ReaderWriterLatch]: readers, and whether a writer holds it *)

Record Latch := mkLatch { readers : nat; writer : bool }.
Definition Latch_new : Latch := mkLatch 0 false.

(** [None]: the caller waits. *)
Definition RLock (l : Latch) : option Latch := if writer l then None else Some (mkLatch (S (readers l)) false).
Definition WLock (l : Latch) : option Latch :=
  match l with mkLatch 0 false => Some (mkLatch 0 true) | _ => None end.
(** Releasing a latch that is not held is undefined. *)
Definition RUnlock (l : Latch) : res Latch :=
  match readers l with O => UB | S n => Ok (mkLatch n (writer l)) end.
Definition WUnlock (l : Latch) : res Latch := if writer l then Ok (mkLatch (readers l) false) else UB.

Record PagePtr := mkPtr { ptr_frame : Z; ptr_id : Z }.
#[global] Instance PagePtr_eq_dec : EqDecision PagePtr.
Proof. solve_decision. Defined.

Section Guards.
Context {D S : Type} `{PIO : !PageIO D S}.

(** The pool and the latches of its frames. *)
Abbreviation GS := (S * gmap Z Latch)%type.
Abbreviation G := (ST GS).

Definition latch_of (ls : gmap Z Latch) (f : Z) : Latch := default Latch_new (ls !! f).
Definition in_pool {A} (m : ST S A) : G A := st_zoom fst (λ s g, (s, g.2)) m.
Definition try_latch (lock : Latch → option Latch) (p : PagePtr) : G bool := λ g,
  match lock (latch_of g.2 (ptr_frame p)) with
  | Some l => (Ok true, (g.1, <[ptr_frame p := l]> g.2))
  | None => (Ok false, g)
  end.
Definition unlatch (unlock : Latch → res Latch) (p : PagePtr) : G unit :=
  g ← st_get; l ← st_lift (unlock (latch_of g.2 (ptr_frame p)));
  st_put (g.1, <[ptr_frame p := l]> g.2).

(** The methods of [Page]; an acquisition answers whether it got the latch. *)
Definition RLatch : PagePtr → G bool := try_latch RLock.
Definition WLatch : PagePtr → G bool := try_latch WLock.
Definition RUnlatch : PagePtr → G unit := unlatch RUnlock.
Definition WUnlatch : PagePtr → G unit := unlatch WUnlock.

(** ** [BasicPageGuard].  [bpm_] is the pool or null. *)

Record BasicPageGuard := mkBasic { b_bpm : bool; b_page : option PagePtr; b_dirty : bool }.

Definition Basic_new (page : option PagePtr) : BasicPageGuard := mkBasic true page false.
(** The move constructor: the new guard, and what is left of the old one. *)
Definition Basic_move (that : BasicPageGuard) : BasicPageGuard * BasicPageGuard :=
  (mkBasic (b_bpm that) (b_page that) (b_dirty that), mkBasic false None (b_dirty that)).
Definition Basic_Drop (g : BasicPageGuard) : G BasicPageGuard :=
  _ ← (match b_page g with
       | Some p => if b_bpm g then in_pool (io_unpin (ptr_id p) (b_dirty g)) else mret false
       | None => mret false
       end);
  mret (mkBasic false None false).
(** [operator=] of two different guards. *)
Definition Basic_assign (this that : BasicPageGuard) : G (BasicPageGuard * BasicPageGuard) :=
  _ ← Basic_Drop this; mret (Basic_move that).
Definition Basic_GetPageId (g : BasicPageGuard) : Z := match b_page g with Some p => ptr_id p | None => INVALID_PAGE_ID end.
(** [GetData] and [GetDataMut]: the frame, or the null pointer. *)
Definition Basic_GetData (g : BasicPageGuard) : option Z := ptr_frame <$> b_page g.
Definition Basic_GetDataMut (g : BasicPageGuard) : option Z * BasicPageGuard :=
  (ptr_frame <$> b_page g, mkBasic (b_bpm g) (b_page g) true).

(** ** [ReadPageGuard] *)

Record ReadPageGuard := mkRead { r_bpm : bool; r_page : option PagePtr }.

(** [None]: the constructor waits for the latch. *)
Definition Read_new (page : option PagePtr) : G (option ReadPageGuard) :=
  ok ← (match page with Some p => RLatch p | None => mret true end);
  mret (if ok : bool then Some (mkRead true page) else None).
Definition Read_move (that : ReadPageGuard) : ReadPageGuard * ReadPageGuard :=
  (mkRead (r_bpm that) (r_page that), mkRead false None).
Definition Read_Drop (g : ReadPageGuard) : G ReadPageGuard :=
  _ ← (match r_page g with
       | Some p => if r_bpm g then _ ← RUnlatch p; in_pool (io_unpin (ptr_id p) false) else mret false
       | None => mret false
       end);
  mret (mkRead false None).
Definition Read_assign (this that : ReadPageGuard) : G (ReadPageGuard * ReadPageGuard) :=
  _ ← Read_Drop this; mret (Read_move that).
Definition Read_GetPageId (g : ReadPageGuard) : Z := match r_page g with Some p => ptr_id p | None => INVALID_PAGE_ID end.
Definition Read_GetData (g : ReadPageGuard) : option Z := ptr_frame <$> r_page g.

(** ** [WritePageGuard] *)

Record WritePageGuard := mkWrite { w_bpm : bool; w_page : option PagePtr }.

Definition Write_new (page : option PagePtr) : G (option WritePageGuard) :=
  ok ← (match page with Some p => WLatch p | None => mret true end);
  mret (if ok : bool then Some (mkWrite true page) else None).
Definition Write_move (that : WritePageGuard) : WritePageGuard * WritePageGuard :=
  (mkWrite (w_bpm that) (w_page that), mkWrite false None).
Definition Write_Drop (g : WritePageGuard) : G WritePageGuard :=
  _ ← (match w_page g with
       | Some p => if w_bpm g then _ ← WUnlatch p; in_pool (io_unpin (ptr_id p) true) else mret false
       | None => mret false
       end);
  mret (mkWrite false None).
Definition Write_assign (this that : WritePageGuard) : G (WritePageGuard * WritePageGuard) :=
  _ ← Write_Drop this; mret (Write_move that).
Definition Write_GetPageId (g : WritePageGuard) : Z := match w_page g with Some p => ptr_id p | None => INVALID_PAGE_ID end.
Definition Write_GetData (g : WritePageGuard) : option Z := ptr_frame <$> w_page g.
Definition Write_GetDataMut (g : WritePageGuard) : option Z := ptr_frame <$> w_page g.

(** ** Programs that use guards

    The variables of the program, of all threads.  [Raw] is a pointer that
    [FetchPage] answered and that no guard owns yet. *)
Inductive Guard :=
  | Raw (page : option PagePtr)
  | GBasic (g : BasicPageGuard)
  | GRead (g : ReadPageGuard)
  | GWrite (g : WritePageGuard).

Inductive GuardClass := ClassBasic | ClassRead | ClassWrite.

Record World := mkWorld { machine : GS; vars : gmap nat Guard }.

Inductive GuardCmd :=
  | CmdFetch (x : nat) (p : Z)               (** [Page *x = bpm->FetchPage(p)] *)
  | CmdGuard (x : nat) (c : GuardClass)      (** a guard made of the pointer [x] *)
  | CmdMove (x y : nat)                      (** [T x(std::move(y))] *)
  | CmdAssign (x y : nat)                    (** [x = std::move(y)] *)
  | CmdDrop (x : nat)                        (** [x.Drop()] *)
  | CmdDestroy (x : nat)                     (** the destructor *)
  | CmdWrite (x : nat) (g : D → D).          (** a change through [GetDataMut()] *)

Definition guard_new (c : GuardClass) (page : option PagePtr) : G (option Guard) :=
  match c with
  | ClassBasic => mret (Some (GBasic (Basic_new page)))
  | ClassRead => o ← Read_new page; mret (GRead <$> o)
  | ClassWrite => o ← Write_new page; mret (GWrite <$> o)
  end.
Definition guard_move (that : Guard) : res (Guard * Guard) :=
  match that with
  | Raw _ => UB
  | GBasic g => let '(a, b) := Basic_move g in Ok (GBasic a, GBasic b)
  | GRead g => let '(a, b) := Read_move g in Ok (GRead a, GRead b)
  | GWrite g => let '(a, b) := Write_move g in Ok (GWrite a, GWrite b)
  end.
Definition guard_drop (g : Guard) : G Guard :=
  match g with
  | Raw _ => st_ub
  | GBasic g => g ← Basic_Drop g; mret (GBasic g)
  | GRead g => g ← Read_Drop g; mret (GRead g)
  | GWrite g => g ← Write_Drop g; mret (GWrite g)
  end.
Definition guard_assign (this that : Guard) : G (Guard * Guard) :=
  match this, that with
  | GBasic a, GBasic b => '(a, b) ← Basic_assign a b; mret (GBasic a, GBasic b)
  | GRead a, GRead b => '(a, b) ← Read_assign a b; mret (GRead a, GRead b)
  | GWrite a, GWrite b => '(a, b) ← Write_assign a b; mret (GWrite a, GWrite b)
  | _, _ => st_ub
  end.
(** The pointer to write through, and the guard after the call. *)
Definition guard_data (g : Guard) : res (Z * Guard) :=
  match g with
  | GBasic g => match Basic_GetDataMut g with (Some f, g) => Ok (f, GBasic g) | _ => UB end
  | GWrite g => match Write_GetDataMut g with Some f => Ok (f, GWrite g) | None => UB end
  | _ => UB
  end.

Definition var (x : nat) (w : World) : res Guard := match vars w !! x with Some g => Ok g | None => UB end.
(** Run the code of a guard; [None] waits and changes nothing. *)
Definition guarded {A} (m : G (option A)) (w : World) (k : A → gmap nat Guard) : res (option World) :=
  match m (machine w) with
  | (Ok (Some a), s) => Ok (Some (mkWorld s (k a)))
  | (Ok None, _) => Ok None
  | (Throw e, _) => Throw e
  | (UB, _) => UB
  | (OutOfFuel, _) => OutOfFuel
  end.

Definition gexec (c : GuardCmd) (w : World) : res (option World) :=
  match c with
  | CmdFetch x p =>
      guarded (o ← in_pool (io_fetch p); mret (Some ((λ f, mkPtr f p) <$> o))) w (λ o, <[x := Raw o]> (vars w))
  | CmdGuard x c =>
      g ← var x w;
      match g with Raw page => guarded (guard_new c page) w (λ g, <[x := g]> (vars w)) | _ => UB end
  | CmdMove x y =>
      that ← var y w;
      '(a, b) ← guard_move that;
      Ok (Some (mkWorld (machine w) (<[x := a]> (<[y := b]> (vars w)))))
  | CmdAssign x y =>
      this ← var x w;
      that ← var y w;
      if decide (x = y) then Ok (Some w)
      else guarded (p ← guard_assign this that; mret (Some p)) w (λ p, <[x := p.1]> (<[y := p.2]> (vars w)))
  | CmdDrop x => g ← var x w; guarded (g ← guard_drop g; mret (Some g)) w (λ g, <[x := g]> (vars w))
  | CmdDestroy x => g ← var x w; guarded (g ← guard_drop g; mret (Some g)) w (λ _, delete x (vars w))
  | CmdWrite x f =>
      g ← var x w;
      '(fr, g) ← guard_data g;
      guarded (_ ← in_pool (io_write fr f); mret (Some ())) w (λ _, <[x := g]> (vars w))
  end.

(** ** What a variable owns *)

Definition holding (g : Guard) : option PagePtr :=
  match g with Raw o => o | GBasic g => b_page g | GRead g => r_page g | GWrite g => w_page g end.
(** A guard without pool has no page. *)
Definition guard_wf (g : Guard) : Prop :=
  match g with
  | Raw _ => True
  | GBasic g => b_bpm g = false → b_page g = None
  | GRead g => r_bpm g = false → r_page g = None
  | GWrite g => w_bpm g = false → w_page g = None
  end.
(** The argument of [UnpinPage] when the guard is dropped. *)
Definition reports (g : Guard) : bool :=
  match g with GBasic g => b_dirty g | GWrite _ => true | _ => false end.
Definition is_guard (g : Guard) : bool := match g with Raw _ => false | _ => true end.
Definition same_class (g h : Guard) : bool :=
  match g, h with GBasic _, GBasic _ | GRead _, GRead _ | GWrite _, GWrite _ => true | _, _ => false end.

Definition owns (p : Z) (g : Guard) : bool := bool_decide (ptr_id <$> holding g = Some p).
Definition in_frame (f : Z) (g : Guard) : bool := bool_decide (ptr_frame <$> holding g = Some f).
Definition reads (f : Z) (g : Guard) : bool := match g with GRead _ => in_frame f g | _ => false end.
Definition writes (f : Z) (g : Guard) : bool := match g with GWrite _ => in_frame f g | _ => false end.

Fixpoint count (P : Guard → bool) (l : list Guard) : nat :=
  match l with [] => 0 | g :: l => Nat.b2n (P g) + count P l end.
(** The guards among the variables. *)
Definition listed (vs : gmap nat Guard) : list Guard := (map_to_list vs).*2.

(** The rules of C++ on the variables of a program; [live] are the pages it uses. *)
Definition usable (live : gset Z) (c : GuardCmd) (w : World) : Prop :=
  match c with
  | CmdFetch x p => vars w !! x = None ∧ p ∈ live
  | CmdGuard x _ => ∃ o, vars w !! x = Some (Raw o)
  | CmdMove x y => vars w !! x = None ∧ ∃ g, vars w !! y = Some g ∧ is_guard g = true
  | CmdAssign x y => ∃ g h, vars w !! x = Some g ∧ vars w !! y = Some h ∧ same_class g h = true
  | CmdDrop x | CmdDestroy x => ∃ g, vars w !! x = Some g ∧ is_guard g = true
  | CmdWrite x _ => ∃ g, vars w !! x = Some g ∧ (same_class g (GBasic (mkBasic true None true)) = true ∨ same_class g (GWrite (mkWrite true None)) = true) ∧ is_Some (holding g)
  end.

(** [n] commands, none of which was left waiting, lead from [w] to [w']. *)
Inductive reach (live : gset Z) (w : World) : nat → World → Prop :=
  | reach_start : reach live w 0 w
  | reach_step n c w1 w2 :
      reach live w n w1 → usable live c w1 → gexec c w1 = Ok (Some w2) → reach live w (Datatypes.S n) w2.

(** ** The invariant *)

Record guards_inv (live : gset Z) (a : Store D) (ls : gmap Z Latch) (l : list Guard) : Prop := {
  gi_live : ∀ p, p ∈ live → is_Some (contents a !! p);
  gi_pins : ∀ p, Z.of_nat (count (owns p) l) = match pinned a !! p with Some (n, _) => n | None => 0 end;
  gi_pos : ∀ p n f, pinned a !! p = Some (n, f) → 0 < n;
  gi_frame : ∀ g q, g ∈ l → holding g = Some q → ∃ n, pinned a !! ptr_id q = Some (n, ptr_frame q);
  gi_frames : distinct_frames (pinned a);
  gi_tainted : ∀ p, p ∈ tainted a → ∃ g, g ∈ l ∧ owns p g = true ∧ reports g = true;
  gi_latch : ∀ f, latch_of ls f = mkLatch (count (reads f) l) (0 <? count (writes f) l)%nat;
  gi_excl : ∀ f, (count (writes f) l ≤ 1)%nat ∧ ((0 < count (writes f) l)%nat → count (reads f) l = 0%nat);
  gi_wf : ∀ g, g ∈ l → guard_wf g
}.

Lemma count_perm P l l' : l ≡ₚ l' → count P l = count P l'.
Proof. induction 1; simpl; lia. Qed.

Lemma count_pos P l : (0 < count P l)%nat ↔ ∃ g, g ∈ l ∧ P g = true.
Proof.
  induction l as [|g l IH]; simpl.
  - split; [lia|]. intros (g & Hg & _). set_solver.
  - destruct (P g) eqn:E; simpl.
    + split; [|lia]. intros _. exists g. split; [left|done].
    + rewrite IH. split; intros (h & Hh & HP); exists h; [by split; [right|]|].
      apply elem_of_cons in Hh as [->|Hh]; [congruence|done].
Qed.

Lemma guards_inv_perm live a ls l l' : l ≡ₚ l' → guards_inv live a ls l → guards_inv live a ls l'.
Proof.
  intros Hp [H1 H2 H3 H4 H5 H6 H7 H8 H9].
  assert (∀ P, count P l' = count P l) as Hc by (intros; symmetry; by apply count_perm).
  assert (∀ g, g ∈ l' → g ∈ l) as Hin by (intros g; by rewrite Hp).
  split; try done.
  - intros p. by rewrite Hc.
  - eauto.
  - intros p Hpt. destruct (H6 p Hpt) as (g & Hg & ?). exists g. by rewrite <- Hp.
  - intros f. by rewrite !Hc.
  - intros f. by rewrite !Hc.
  - eauto.
Qed.

(** A variable that owns nothing does not count. *)
Lemma empty_counts g : holding g = None → (∀ p, owns p g = false) ∧ (∀ f, reads f g = false) ∧ (∀ f, writes f g = false).
Proof. intros E. unfold owns, reads, writes, in_frame. rewrite E. by destruct g. Qed.

Lemma guards_inv_empty live a ls g l : holding g = None → guard_wf g →
  guards_inv live a ls (g :: l) ↔ guards_inv live a ls l.
Proof.
  intros E Hwf. destruct (empty_counts g E) as (Ho & Hr & Hw). split; intros [H1 H2 H3 H4 H5 H6 H7 H8 H9]; split; try done.
  - intros p. specialize (H2 p). simpl in H2. by rewrite Ho in H2.
  - intros h q Hh. apply H4. by right.
  - intros p Hp. destruct (H6 p Hp) as (h & [->|Hh]%elem_of_cons & Hown & Hrep); [by rewrite Ho in Hown|eauto].
  - intros f. specialize (H7 f). simpl in H7. by rewrite Hr, Hw in H7.
  - intros f. specialize (H8 f). simpl in H8. by rewrite Hr, Hw in H8.
  - intros h Hh. apply H9. by right.
  - intros p. simpl. rewrite Ho. apply H2.
  - intros h q [->|Hh]%elem_of_cons; [by rewrite E|eauto].
  - intros p Hp. destruct (H6 p Hp) as (h & Hh & ?). exists h. by split; [right|].
  - intros f. simpl. rewrite Hr, Hw. apply H7.
  - intros f. simpl. rewrite Hr, Hw. apply H8.
  - intros h [->|Hh]%elem_of_cons; eauto.
Qed.

Definition empty_of (g : Guard) : Guard :=
  match g with
  | Raw _ => Raw None
  | GBasic _ => GBasic (mkBasic false None false)
  | GRead _ => GRead (mkRead false None)
  | GWrite _ => GWrite (mkWrite false None)
  end.
Lemma empty_of_holding g : holding (empty_of g) = None.
Proof. by destruct g. Qed.
Lemma empty_of_wf g : guard_wf (empty_of g).
Proof. by destruct g. Qed.

(** *** Dropping *)

Definition guard_unlatch (g : Guard) (q : PagePtr) : G unit :=
  match g with GRead _ => RUnlatch q | GWrite _ => WUnlatch q | _ => mret tt end.

Lemma latch_insert ls f l f' : latch_of (<[f := l]> ls) f' = if decide (f' = f) then l else latch_of ls f'.
Proof. unfold latch_of. case_decide; simplify_map_eq; done. Qed.

Lemma in_frame_holding g q f : holding g = Some q → in_frame f g = bool_decide (ptr_frame q = f).
Proof.
  intros E. unfold in_frame. rewrite E. apply bool_decide_ext. simpl. split; [by intros [= ->]|by intros ->].
Qed.
Lemma owns_holding g q p : holding g = Some q → owns p g = bool_decide (ptr_id q = p).
Proof. intros E. unfold owns. rewrite E. apply bool_decide_ext. simpl. split; [by intros [= ->]|by intros ->]. Qed.
Lemma owns_page p g : owns p g = true → ∃ q, holding g = Some q ∧ ptr_id q = p.
Proof. unfold owns. rewrite bool_decide_eq_true. destruct (holding g) as [q|]; [|done]. intros [= <-]. by exists q. Qed.

Lemma unlatch_ok live a s ls g l q : guards_inv live a ls (g :: l) → holding g = Some q →
  ∃ ls', guard_unlatch g q (s, ls) = (Ok tt, (s, ls')) ∧
    ∀ f, latch_of ls' f = mkLatch (count (reads f) l) (0 <? count (writes f) l)%nat.
Proof.
  intros Hinv E. pose proof (λ f, in_frame_holding g q f E) as Hf.
  assert (∀ f, latch_of ls f = mkLatch (count (reads f) (g :: l)) (0 <? count (writes f) (g :: l))%nat) as Hl
    by apply Hinv.
  destruct g as [o|b|r|w]; simpl in Hl; [by exists ls..| |]; cbn [guard_unlatch].
  - unfold RUnlatch, unlatch. st_run. cbn [snd]. rewrite Hl, Hf, bool_decide_true by done.
    unfold RUnlock; simpl. st_run. eexists; split; [reflexivity|]. intros f. rewrite latch_insert, Hl, Hf.
    case_decide; [by subst|]. by rewrite bool_decide_false.
  - destruct (gi_excl _ _ _ _ Hinv (ptr_frame q)) as [Hle _]. simpl in Hle. rewrite Hf, bool_decide_true in Hle by done.
    simpl in Hle. unfold WUnlatch, unlatch. st_run. cbn [snd]. rewrite Hl, Hf, bool_decide_true by done.
    unfold WUnlock. cbn [writer Nat.b2n plus]. rewrite (proj2 (Nat.ltb_lt 0 _)) by lia. st_run.
    eexists; split; [reflexivity|]. intros f. rewrite latch_insert, Hl, Hf. case_decide.
    + subst. f_equal. symmetry. apply Nat.ltb_ge. lia.
    + by rewrite bool_decide_false.
Qed.

Lemma guard_drop_run g q s ls ls' r s' : guard_wf g → is_guard g = true → holding g = Some q →
  guard_unlatch g q (s, ls) = (Ok tt, (s, ls')) → io_unpin (ptr_id q) (reports g) s = (Ok r, s') →
  guard_drop g (s, ls) = (Ok (empty_of g), (s', ls')).
Proof.
  intros Hwf Hg E Hu Hpin. destruct g as [o|[bpm pg d]|[bpm pg]|[bpm pg]]; [done|..]; simpl in *; subst pg;
    (destruct bpm; [|by specialize (Hwf eq_refl)]); cbn [guard_drop].
  - injection Hu as <-. unfold Basic_Drop, in_pool, st_zoom, mbind, st_bind; simpl. by rewrite Hpin.
  - unfold Read_Drop, in_pool, st_zoom, mbind, st_bind; simpl. rewrite Hu. simpl. by rewrite Hpin.
  - unfold Write_Drop, in_pool, st_zoom, mbind, st_bind; simpl. rewrite Hu. simpl. by rewrite Hpin.
Qed.

Lemma guard_drop_empty g s : is_guard g = true → holding g = None → guard_drop g s = (Ok (empty_of g), s).
Proof. destruct g as [o|[? pg ?]|[? pg]|[? pg]]; [done|..]; intros _; simpl; by intros ->. Qed.

(** A page that only one variable owns. *)
Lemma count_none P l g : count P l = 0%nat → g ∈ l → P g = false.
Proof. intros H Hg. destruct (P g) eqn:E; [|done]. assert (0 < count P l)%nat by (apply count_pos; eauto). lia. Qed.

Lemma drop_allowed live a ls g l q : guards_inv live a ls (g :: l) → holding g = Some q →
  allowed a (CUnpin (ptr_id q) (reports g)).
Proof.
  intros Hinv E f Hp Hrep Htn. pose proof (gi_pins _ _ _ _ Hinv (ptr_id q)) as Hc. rewrite Hp in Hc. simpl in Hc.
  rewrite (owns_holding _ _ _ E), bool_decide_true in Hc by done. simpl in Hc.
  destruct (gi_tainted _ _ _ _ Hinv _ Htn) as (h & [->|Hh]%elem_of_cons & Ho & Hr); [congruence|].
  rewrite (count_none (owns (ptr_id q)) l h) in Ho; [done|lia|done].
Qed.

Lemma unpinned_inv live a ls ls' g l q n r a' : guards_inv live a ls (g :: l) → holding g = Some q →
  (∀ f, latch_of ls' f = mkLatch (count (reads f) l) (0 <? count (writes f) l)%nat) →
  store_step io_zero n a (CUnpin (ptr_id q) (reports g)) (RBool r) a' → guards_inv live a' ls' l.
Proof.
  intros Hinv E Hls Hst. destruct (gi_frame _ _ _ _ Hinv g q (list_elem_of_here _ _) E) as (j & Hj).
  inversion Hst as [| | | | |p b k f Hp| | | | | | |]; subst; [|congruence]. rewrite Hj in Hp. injection Hp as <- <-.
  pose proof (gi_pins _ _ _ _ Hinv) as Hc. simpl in Hc.
  assert (Z.of_nat (count (owns (ptr_id q)) l) = j - 1) as Hq.
  { specialize (Hc (ptr_id q)). rewrite Hj, (owns_holding _ _ _ E), bool_decide_true in Hc by done. simpl in Hc. lia. }
  pose proof (gi_pos _ _ _ _ Hinv _ _ _ Hj) as Hpos.
  set (P := if decide (j = 1) then delete (ptr_id q) (pinned a) else <[ptr_id q := (j - 1, ptr_frame q)]> (pinned a)).
  assert (∀ p, p ≠ ptr_id q → P !! p = pinned a !! p) as Hother by (intros; unfold P; case_decide; by simplify_map_eq).
  assert (j = 1 ∧ P !! ptr_id q = None ∨ 1 < j ∧ P !! ptr_id q = Some (j - 1, ptr_frame q)) as HP.
  { unfold P. case_decide; [left|right; split; [lia|]]; by simplify_map_eq. }
  split; cbn [pinned tainted contents]; fold P.
  - apply Hinv.
  - intros p. destruct (decide (p = ptr_id q)) as [->|Hne].
    + destruct HP as [[? ->]|[? ->]]; lia.
    + rewrite Hother, <- Hc by done. by rewrite (owns_holding _ _ _ E), bool_decide_false.
  - intros p m f. destruct (decide (p = ptr_id q)) as [->|Hne].
    + destruct HP as [[? ->]|[? ->]]; [done|]. intros [= <- _]. lia.
    + rewrite Hother by done. apply Hinv.
  - intros h q' Hh E'. destruct (gi_frame _ _ _ _ Hinv h q' (list_elem_of_further _ _ _ Hh) E') as (m & Hm).
    destruct (decide (ptr_id q' = ptr_id q)) as [Heq|Hne]; [|rewrite Hother by done; eauto].
    assert (0 < count (owns (ptr_id q)) l)%nat.
    { apply count_pos. exists h. split; [done|]. by rewrite (owns_holding _ _ _ E'), bool_decide_true. }
    rewrite Heq in *. destruct HP as [[? _]|[_ ->]]; [lia|]. exists (j - 1). congruence.
  - unfold P. case_decide; [by apply distinct_delete, Hinv|].
    intros p1 p2 f i1 i2. rewrite !lookup_insert_Some. pose proof (gi_frames _ _ _ _ Hinv) as Hd.
    intros [[<- [= <- <-]]|[? H1]] [[<- [= <-]]|[? H2]]; [done| | |by eapply Hd].
    + by eapply Hd.
    + subst. by eapply Hd.
  - intros p Hp. destruct (gi_tainted _ _ _ _ Hinv p) as (h & [->|Hh]%elem_of_cons & Ho & Hr);
      [destruct (reports g); set_solver| |by exists h].
    apply owns_page in Ho as (q' & Eq & <-). rewrite E in Eq. injection Eq as <-. rewrite Hr in Hp. set_solver.
  - done.
  - intros f. destruct (gi_excl _ _ _ _ Hinv f) as [H1 H2]. simpl in H1, H2. split; [lia|]. intros H. specialize (H2 ltac:(lia)). lia.
  - intros h Hh. apply Hinv. by right.
Qed.

Lemma drop_ok live k a s ls g l : 0 ≤ k → io_rel (k + 1) a s → guards_inv live a ls (g :: l) → is_guard g = true →
  ∃ s' ls' a', guard_drop g (s, ls) = (Ok (empty_of g), (s', ls')) ∧ io_rel k a' s' ∧ guards_inv live a' ls' l.
Proof.
  intros Hk Hrel Hinv Hg. pose proof (gi_wf _ _ _ _ Hinv g (list_elem_of_here _ _)) as Hwf.
  destruct (holding g) as [q|] eqn:E.
  - destruct (unlatch_ok live a s ls g l q Hinv E) as (ls' & Hu & Hls).
    destruct (io_unpin_law k a s (ptr_id q) (reports g) Hk Hrel) as (r & s' & a' & Hpin & Hst & Hrel').
    { by eapply drop_allowed. }
    exists s', ls', a'. split; [by eapply guard_drop_run|]. split; [done|]. by eapply unpinned_inv.
  - exists s, ls, a. split; [by apply guard_drop_empty|]. split; [apply (io_weaken (k + 1)); [lia|done]|].
    by apply (guards_inv_empty _ _ _ g).
Qed.

(** *** Moving *)

Lemma guard_move_ok g : is_guard g = true → ∃ e, guard_move g = Ok (g, e) ∧ holding e = None ∧ guard_wf e ∧ same_class g e = true.
Proof. destruct g as [|[]|[]|[]]; [done|..]; intros _; eexists; repeat split. Qed.

Lemma move_inv live a ls g e l : holding e = None → guard_wf e →
  guards_inv live a ls (g :: l) → guards_inv live a ls (g :: e :: l).
Proof.
  intros He Hwf H. eapply guards_inv_perm; [apply perm_swap|]. by apply (guards_inv_empty _ _ _ e).
Qed.

Lemma guard_assign_eq g h s ls s' ls' : same_class g h = true → guard_drop g (s, ls) = (Ok (empty_of g), (s', ls')) →
  ∃ e, guard_assign g h (s, ls) = (Ok (h, e), (s', ls')) ∧ holding e = None ∧ guard_wf e.
Proof.
  destruct g, h; try done; intros _; cbn [guard_drop guard_assign empty_of];
    unfold Basic_assign, Read_assign, Write_assign, mbind, st_bind; intros H.
  - destruct (Basic_Drop _ _) as [[?| | |] ?]; simplify_eq/=. injection H as -> ->. destruct g0. eexists; split; [reflexivity|]. done.
  - destruct (Read_Drop _ _) as [[?| | |] ?]; simplify_eq/=. injection H as -> ->. destruct g0. eexists; split; [reflexivity|]. done.
  - destruct (Write_Drop _ _) as [[?| | |] ?]; simplify_eq/=. injection H as -> ->. destruct g0. eexists; split; [reflexivity|]. done.
Qed.

(** *** Fetching *)

Lemma frames_same (a : Store D) f : f ∉ pinned_frames a → f ∉ frames_of (pinned a).
Proof. done. Qed.

Lemma fetched_inv live a ls l p n o a' : guards_inv live a ls l →
  store_step io_zero n a (CFetch p) (RFrame o) a' →
  guards_inv live a' ls (Raw ((λ f, mkPtr f p) <$> o) :: l) .
Proof.
  intros Hinv Hst. assert (∀ j f, (match pinned a !! p with Some (i, g) => j = i + 1 ∧ f = g | None => j = 1 ∧ f ∉ pinned_frames a end) →
    guards_inv live (mkStore (contents a) (<[p := (j, f)]> (pinned a)) (tainted a) (next_id a)) ls (Raw (Some (mkPtr f p)) :: l)) as Hgen.
  { intros j f Hj. split; cbn [pinned tainted contents].
    - apply Hinv.
    - intros q. cbn [count]. rewrite (owns_holding _ (mkPtr f p)) by done. cbn [ptr_id]. pose proof (gi_pins _ _ _ _ Hinv q) as Hc.
      case_bool_decide as E; [subst q; rewrite lookup_insert_eq|by rewrite lookup_insert_ne].
      destruct (pinned a !! p) as [[i g]|]; destruct Hj as [-> _]; simpl; lia.
    - intros q m g. rewrite lookup_insert_Some. intros [[<- [= <- <-]]|[_ H]]; [|by apply Hinv in H].
      destruct (pinned a !! p) as [[i g]|] eqn:E; destruct Hj as [-> _]; [apply Hinv in E|]; lia.
    - intros g q [->|Hg]%elem_of_cons Hq.
      + injection Hq as <-. exists j. simpl. by rewrite lookup_insert_eq.
      + destruct (gi_frame _ _ _ _ Hinv g q Hg Hq) as [m Hm]. destruct (decide (ptr_id q = p)) as [E|E].
        * rewrite E in *. rewrite Hm in Hj. destruct Hj as [_ ->]. exists j. by rewrite lookup_insert_eq.
        * exists m. by rewrite lookup_insert_ne.
    - destruct (pinned a !! p) as [[i g]|] eqn:E; destruct Hj as [_ Hf]; [subst f|by apply distinct_insert; [apply Hinv|apply frames_same]].
      pose proof (gi_frames _ _ _ _ Hinv) as Hd.
      intros p1 p2 h i1 i2. rewrite !lookup_insert_Some. intros [[<- [= <- <-]]|[? H1]] [[<- [= <-]]|[? H2]];
        [done|by eapply Hd|subst; by eapply Hd|by eapply Hd].
    - intros q Hq. destruct (gi_tainted _ _ _ _ Hinv q Hq) as (g & Hg & ?). exists g. by split; [right|].
    - intros f'. apply Hinv.
    - intros f'. apply Hinv.
    - intros g [->|Hg]%elem_of_cons; [done|by apply Hinv]. }
  inversion Hst as [| |p' k f Hp|p' f Hp Hf Hfull|p' Hp Hfull| | | | | | | |]; subst; cbn [fmap option_fmap option_map].
  - apply Hgen. by rewrite Hp.
  - apply Hgen. by rewrite Hp.
  - by apply guards_inv_empty.
Qed.

(** *** Latching *)

Lemma latched_inv live a ls ls' q g l : guards_inv live a ls (Raw (Some q) :: l) →
  holding g = Some q → guard_wf g → is_guard g = true →
  (∀ f, latch_of ls' f = mkLatch (count (reads f) (g :: l)) (0 <? count (writes f) (g :: l))%nat) →
  (∀ f, (count (writes f) (g :: l) ≤ 1)%nat ∧ ((0 < count (writes f) (g :: l))%nat → count (reads f) (g :: l) = 0%nat)) →
  guards_inv live a ls' (g :: l).
Proof.
  intros Hinv E Hwf Hg Hl Hx. split; try done.
  - apply Hinv.
  - intros p. rewrite <- (gi_pins _ _ _ _ Hinv). simpl. by rewrite !(owns_holding _ q).
  - apply Hinv.
  - intros h q' [->|Hh]%elem_of_cons; [|by apply Hinv; right]. rewrite E. intros [= <-].
    by apply (gi_frame _ _ _ _ Hinv (Raw (Some q))); [left|].
  - apply Hinv.
  - intros p Hp. destruct (gi_tainted _ _ _ _ Hinv p Hp) as (h & [->|Hh]%elem_of_cons & Ho & Hr); [done|].
    exists h. by split; [right|].
  - intros h [->|Hh]%elem_of_cons; [done|]. apply Hinv. by right.
Qed.

Lemma guard_new_ok live a s ls o c l : guards_inv live a ls (Raw o :: l) →
  (∃ s', guard_new c o (s, ls) = (Ok None, s')) ∨
  (∃ g ls', guard_new c o (s, ls) = (Ok (Some g), (s, ls')) ∧ guards_inv live a ls' (g :: l)).
Proof.
  intros Hinv. destruct o as [q|].
  2:{ right. pose proof (proj1 (guards_inv_empty live a ls (Raw None) l eq_refl I) Hinv) as Hinv'.
      destruct c; eexists _, _; (split; [reflexivity|]); by apply guards_inv_empty. }
  pose proof (gi_latch _ _ _ _ Hinv) as Hl. pose proof (gi_excl _ _ _ _ Hinv) as Hx. simpl in Hl, Hx.
  destruct c; cbn [guard_new].
  - right. eexists _, _. split; [reflexivity|]. by apply (latched_inv live a ls _ q).
  - unfold Read_new, RLatch, try_latch, mbind, st_bind. cbn [snd]. rewrite Hl. unfold RLock. cbn [writer readers].
    destruct (Nat.ltb_spec 0 (count (writes (ptr_frame q)) l)) as [Hw|Hw]; [left; by eexists|right].
    eexists _, _. split; [reflexivity|]. apply (latched_inv live a ls _ q); [done..| |]; intros f; cbn [count reads writes];
      rewrite (in_frame_holding _ q) by done.
    + rewrite latch_insert, Hl. case_decide as E.
      * subst. rewrite bool_decide_true by done. simpl. f_equal. symmetry. apply Nat.ltb_ge. lia.
      * by rewrite bool_decide_false.
    + case_bool_decide as E; simpl; [subst; split; lia|apply Hx].
  - unfold Write_new, WLatch, try_latch, mbind, st_bind. cbn [snd]. rewrite Hl. unfold WLock.
    destruct (count (reads (ptr_frame q)) l) as [|?] eqn:Er; [|left; by eexists].
    destruct (Nat.ltb_spec 0 (count (writes (ptr_frame q)) l)) as [Hw|Hw]; [left; by eexists|right].
    eexists _, _. split; [reflexivity|]. apply (latched_inv live a ls _ q); [done..| |]; intros f; cbn [count reads writes];
      rewrite (in_frame_holding _ q) by done.
    + rewrite latch_insert, Hl. case_decide as E.
      * subst. rewrite bool_decide_true by done. simpl. by rewrite Er.
      * by rewrite bool_decide_false.
    + case_bool_decide as E; simpl; [subst; split; lia|apply Hx].
Qed.

(** *** Writing *)

Lemma guard_data_ok g q : guard_wf g → holding g = Some q →
  same_class g (GBasic (mkBasic true None true)) = true ∨ same_class g (GWrite (mkWrite true None)) = true →
  ∃ h, guard_data g = Ok (ptr_frame q, h) ∧ holding h = Some q ∧ guard_wf h ∧ reports h = true ∧
    (∀ f, reads f h = reads f g) ∧ (∀ f, writes f h = writes f g).
Proof.
  destruct g as [o|[? pg ?]|[? pg]|[? pg]]; simpl; intros Hwf -> Hc; try (by destruct Hc); eexists; repeat split; done.
Qed.

Lemma written_inv live a ls g h l q n f a' : guards_inv live a ls (g :: l) → holding g = Some q →
  holding h = Some q → guard_wf h → reports h = true → (∀ f, reads f h = reads f g) → (∀ f, writes f h = writes f g) →
  store_step io_zero n a (CWrite (ptr_frame q) f) RUnit a' → guards_inv live a' ls (h :: l).
Proof.
  intros Hinv E Eh Hwf Hrep Hr Hw Hst.
  destruct (gi_frame _ _ _ _ Hinv g q (list_elem_of_here _ _) E) as (j & Hj).
  inversion Hst as [| | | | | | | | | | | |f' p k d g' Hp Hd]; subst.
  assert (p = ptr_id q) as -> by (by eapply (gi_frames _ _ _ _ Hinv)).
  split; cbn [pinned contents tainted count].
  - intros p Hp'. rewrite lookup_insert_is_Some. destruct (decide (ptr_id q = p)); [by left|right]. split; [done|by apply Hinv].
  - intros p. rewrite <- (gi_pins _ _ _ _ Hinv p). simpl. by rewrite !(owns_holding _ q).
  - apply Hinv.
  - intros h' q' [->|Hh]%elem_of_cons E'; [|by apply (gi_frame _ _ _ _ Hinv h' q'); [right|]].
    rewrite Eh in E'. injection E' as <-. by exists j.
  - apply Hinv.
  - intros p [->%elem_of_singleton|Hp']%elem_of_union.
    + exists h. split_and!; [left| |done]. by rewrite (owns_holding _ q), bool_decide_true.
    + destruct (gi_tainted _ _ _ _ Hinv p Hp') as (h' & [->|Hh]%elem_of_cons & Ho & Hr').
      * exists h. split_and!; [left| |done]. rewrite (owns_holding g q) in Ho by done. by rewrite (owns_holding h q).
      * exists h'. by split; [right|].
  - intros f'. rewrite Hr, Hw. apply (gi_latch _ _ _ _ Hinv).
  - intros f'. rewrite Hr, Hw. apply (gi_excl _ _ _ _ Hinv).
  - intros h' [->|Hh]%elem_of_cons; [done|]. apply Hinv. by right.
Qed.

(** ** Every command keeps the invariant *)

Lemma listed_insert vs x g : vs !! x = None → listed (<[x := g]> vs) ≡ₚ g :: listed vs.
Proof. intros. unfold listed. by rewrite map_to_list_insert. Qed.
Lemma listed_at vs x g : vs !! x = Some g → listed vs ≡ₚ g :: listed (delete x vs).
Proof.
  intros. rewrite <- (insert_delete_id vs x g) at 1 by done. by rewrite listed_insert by apply lookup_delete_eq.
Qed.
Lemma listed_update vs x g : listed (<[x := g]> vs) ≡ₚ g :: listed (delete x vs).
Proof. rewrite <- insert_delete_eq. by rewrite listed_insert by apply lookup_delete_eq. Qed.

Definition world_ok (live : gset Z) (k : Z) (w : World) : Prop :=
  ∃ a, io_rel k a (machine w).1 ∧ guards_inv live a (machine w).2 (listed (vars w)).

Lemma world_ok_intro live k a s ls vs l : io_rel k a s → guards_inv live a ls l → l ≡ₚ listed vs →
  world_ok live k (mkWorld (s, ls) vs).
Proof. intros ? Hinv Hp. exists a. split; [done|]. by eapply guards_inv_perm. Qed.

Lemma drop_at live k w x g : 0 ≤ k → world_ok live (k + 1) w → vars w !! x = Some g → is_guard g = true →
  ∃ s' ls' a', guard_drop g (machine w) = (Ok (empty_of g), (s', ls')) ∧ io_rel k a' s' ∧
    guards_inv live a' ls' (listed (delete x (vars w))).
Proof.
  intros Hk (a & Hrel & Hinv) Hx Hg. destruct w as [[s ls] vs]; simpl in *.
  apply (guards_inv_perm _ _ _ _ _ (listed_at vs x g Hx)) in Hinv. by apply (drop_ok live k a s ls g).
Qed.

Lemma step_ok live k c w : 0 ≤ k → world_ok live (k + 1) w → usable live c w →
  gexec c w = Ok None ∨ ∃ w', gexec c w = Ok (Some w') ∧ world_ok live k w'.
Proof.
  intros Hk Hok. pose proof Hok as (a & Hrel & Hinv). destruct w as [[s ls] vs]; cbn [machine vars fst snd] in *.
  assert (io_rel k a s) as Hrel' by (apply (io_weaken (k + 1)); [lia|done]).
  destruct c as [x p|x c|x y|x y|x|x|x f]; cbn [usable gexec vars]; unfold var; cbn [vars].
  - intros [Hx Hp]. right. destruct (io_fetch_law k a s p Hk Hrel) as (o & s' & a' & Hf & Hst & Hr'); [by apply Hinv|].
    unfold guarded, in_pool, st_zoom, mbind, st_bind. cbn [machine fst snd]. rewrite Hf. cbn. eexists. split; [reflexivity|].
    eapply world_ok_intro; [exact Hr'|by eapply fetched_inv|]. by rewrite listed_insert.
  - intros [o Hx]. rewrite Hx. cbn [mbind res_bind].
    apply (guards_inv_perm _ _ _ _ _ (listed_at vs x _ Hx)) in Hinv. unfold guarded. cbn [machine].
    destruct (guard_new_ok live a s ls o c _ Hinv) as [[s' Hn]|(g & ls' & Hn & Hinv')]; rewrite Hn; [by left|right].
    eexists. split; [reflexivity|]. eapply world_ok_intro; [exact Hrel'|exact Hinv'|]. by rewrite listed_update.
  - intros (Hx & g & Hy & Hg). rewrite Hy. cbn [mbind res_bind]. right.
    destruct (guard_move_ok g Hg) as (e & Hm & He & Hwf & _). rewrite Hm. eexists. split; [reflexivity|].
    apply (guards_inv_perm _ _ _ _ _ (listed_at vs y _ Hy)) in Hinv.
    eapply world_ok_intro; [exact Hrel'|by apply (move_inv _ _ _ g e)|].
    rewrite listed_insert by (rewrite lookup_insert_ne; [done|congruence]). by rewrite listed_update.
  - intros (g & h & Hx & Hy & Hc). rewrite Hx, Hy. cbn [mbind res_bind]. right. case_decide as E.
    { exists (mkWorld (s, ls) vs). split; [done|]. by apply (world_ok_intro live k a s ls vs (listed vs)). }
    destruct (drop_at live k _ x g Hk Hok Hx) as (s' & ls' & a' & Hd & Hr' & Hinv'); [by destruct g, h|].
    destruct (guard_assign_eq g h s ls s' ls' Hc Hd) as (e & Ha & He & Hwf).
    unfold guarded, mbind, st_bind. cbn [machine vars]. rewrite Ha. eexists. split; [reflexivity|].
    assert (delete x vs !! y = Some h) as Hy' by (by rewrite lookup_delete_ne).
    apply (guards_inv_perm _ _ _ _ _ (listed_at _ y _ Hy')) in Hinv'.
    eapply world_ok_intro; [exact Hr'|by apply (move_inv _ _ _ h e)|]. cbn [fst snd].
    rewrite listed_update, delete_insert_ne by congruence. rewrite listed_update. by rewrite delete_delete.
  - intros (g & Hx & Hg). rewrite Hx. cbn [mbind res_bind]. right.
    destruct (drop_at live k _ x g Hk Hok Hx Hg) as (s' & ls' & a' & Hd & Hr' & Hinv').
    unfold guarded, mbind, st_bind. cbn [machine vars]. cbn [machine] in Hd. rewrite Hd. eexists. split; [reflexivity|].
    eapply world_ok_intro; [exact Hr'|by apply (guards_inv_empty _ _ _ (empty_of g)); [apply empty_of_holding|apply empty_of_wf|exact Hinv']|].
    by rewrite listed_update.
  - intros (g & Hx & Hg). rewrite Hx. cbn [mbind res_bind]. right.
    destruct (drop_at live k _ x g Hk Hok Hx Hg) as (s' & ls' & a' & Hd & Hr' & Hinv').
    unfold guarded, mbind, st_bind. cbn [machine vars]. cbn [machine] in Hd. rewrite Hd. eexists. split; [reflexivity|].
    by eapply world_ok_intro.
  - intros (g & Hx & Hc & [q Hq]). rewrite Hx. cbn [mbind res_bind]. right.
    apply (guards_inv_perm _ _ _ _ _ (listed_at vs x _ Hx)) in Hinv.
    destruct (guard_data_ok g q) as (h & Hd & Hh & Hwf & Hrep & Hr & Hw); [by apply Hinv; left|done..|]. rewrite Hd. cbn [mbind res_bind].
    destruct (gi_frame _ _ _ _ Hinv g q (list_elem_of_here _ _) Hq) as (j & Hj).
    destruct (io_write_law k a s (ptr_frame q) f Hk Hrel) as (s' & a' & Hf & Hst & Hr'); [by exists (ptr_id q), j|].
    unfold guarded, in_pool, st_zoom, mbind, st_bind. cbn [machine fst snd vars]. rewrite Hf. cbn. eexists. split; [reflexivity|].
    eapply world_ok_intro; [exact Hr'|by eapply (written_inv live a ls g h)|]. by rewrite listed_update.
Qed.

Lemma reach_ok live n : ∀ k w w', 0 ≤ k → world_ok live (k + Z.of_nat n) w → reach live w n w' → world_ok live k w'.
Proof.
  induction n as [|n IH]; intros k w w' Hk Hok Hr; inversion Hr as [|n' c w1 w2 Hr1 Hu He]; subst.
  - by rewrite Z.add_0_r in Hok.
  - assert (world_ok live (k + 1) w1) as Hok1.
    { apply (IH (k + 1) w); [lia| |done]. by replace (k + 1 + Z.of_nat n) with (k + Z.of_nat (Datatypes.S n)) by lia. }
    destruct (step_ok live k c w1 Hk Hok1 Hu) as [E|(w2 & E & Hok2)]; congruence.
Qed.

Lemma start_ok live k a s : io_rel k a s → pinned a = ∅ → tainted a = ∅ → (∀ p, p ∈ live → is_Some (contents a !! p)) →
  world_ok live k (mkWorld (s, ∅) ∅).
Proof.
  intros Hrel Hp Ht Hl. exists a. split; [done|]. unfold listed. cbn [vars machine fst snd]. rewrite map_to_list_empty.
  split; cbn [count fmap list_fmap]; rewrite ?Hp, ?Ht; try done; try (intros *; set_solver).
Qed.

(** A latched page has one frame, whoever holds it. *)
Lemma writer_excludes live a ls g h p l : guards_inv live a ls (GWrite g :: h :: l) →
  owns p (GWrite g) = true → owns p h = true → match h with GRead _ | GWrite _ => False | _ => True end.
Proof.
  intros Hinv (q & Hq & <-)%owns_page (q' & Hq' & Eq)%owns_page.
  destruct (gi_frame _ _ _ _ Hinv (GWrite g) q ltac:(left) Hq) as [i Hi].
  destruct (gi_frame _ _ _ _ Hinv h q' ltac:(right; left) Hq') as [j Hj]. rewrite Eq, Hi in Hj. injection Hj as _ Ef.
  destruct (gi_excl _ _ _ _ Hinv (ptr_frame q)) as [H1 H2]. simpl in H1, H2.
  rewrite (in_frame_holding _ q), bool_decide_true in H1, H2 by done. simpl in H1, H2. specialize (H2 ltac:(lia)).
  destruct h as [|?|r|w]; [done..| |]; cbn [reads writes] in *;
    rewrite (in_frame_holding _ q'), bool_decide_true in * by done; simpl in *; lia.
Qed.

(** C33: in every run of a program that uses guards by the rules of C++, whatever the
    interleaving of its threads: a page is pinned exactly once for each variable that
    owns it; a write guard of a page excludes every other latching guard of that page;
    when the last variable is gone no page is pinned, every change has been reported
    to the pool and every latch is free; and no command is undefined (it may wait). *)
Theorem guards_balance live n k s a w :
  0 ≤ k → io_rel (k + Z.of_nat n) a s → pinned a = ∅ → tainted a = ∅ → (∀ p, p ∈ live → is_Some (contents a !! p)) →
  reach live (mkWorld (s, ∅) ∅) n w →
  ∃ b, io_rel k b (machine w).1 ∧
    (∀ p, match pinned b !! p with Some (m, _) => m | None => 0 end = Z.of_nat (count (owns p) (listed (vars w)))) ∧
    (∀ x y g h p, x ≠ y → vars w !! x = Some (GWrite g) → vars w !! y = Some h →
       owns p (GWrite g) = true → owns p h = true → match h with GRead _ | GWrite _ => False | _ => True end) ∧
    (vars w = ∅ → pinned b = ∅ ∧ tainted b = ∅ ∧ ∀ f, latch_of (machine w).2 f = Latch_new) ∧
    (∀ c, 0 < k → usable live c w → ∃ o, gexec c w = Ok o).
Proof.
  intros Hk Hrel Hp Ht Hl Hr. pose proof (reach_ok live n k _ w Hk (start_ok live _ a s Hrel Hp Ht Hl) Hr) as Hok.
  pose proof Hok as (b & Hb & Hinv). exists b. split_and!; [done| | | |].
  - intros p. symmetry. apply Hinv.
  - intros x y g h p Hne Hx Hy. apply (writer_excludes live b (machine w).2 g h p (listed (delete y (delete x (vars w))))).
    eapply guards_inv_perm; [|exact Hinv]. rewrite (listed_at _ x _ Hx). by rewrite <- (listed_at _ y h) by (by rewrite lookup_delete_ne).
  - intros Hv. rewrite Hv in Hinv. unfold listed in Hinv. rewrite map_to_list_empty in Hinv. split_and!.
    + apply map_eq. intros p. rewrite lookup_empty. destruct (pinned b !! p) as [[m f]|] eqn:E; [|done].
      pose proof (gi_pins _ _ _ _ Hinv p) as Hc. rewrite E in Hc. simpl in Hc. apply Hinv in E. lia.
    + apply set_eq. intros p. split; [|set_solver]. intros Hpt. destruct (gi_tainted _ _ _ _ Hinv p Hpt) as (g & Hg & _). set_solver.
    + intros f. apply (gi_latch _ _ _ _ Hinv).
  - intros c Hk1 Hu. destruct (step_ok live (k - 1) c w) as [E|(w' & E & _)]; [lia| |done|eauto..].
    by replace (k - 1 + 1) with k by lia.
Qed.

End Guards.

(** ** A run *)

Definition demo_store : Store Z := mkStore {[7 := 0]} ∅ ∅ 8.
#[local] Instance demo_io : PageIO Z (Store Z) := direct_io 0 2.
Definition demo_start : World (S := Store Z) := mkWorld (demo_store, ∅) ∅.

Fixpoint grun (cs : list (GuardCmd (D := Z))) (w : World (S := Store Z)) : res (option (World (S := Store Z))) :=
  match cs with
  | [] => Ok (Some w)
  | c :: cs => o ← gexec c w; match o with Some w => grun cs w | None => Ok None end
  end.
Definition guard_demo : list (GuardCmd (D := Z)) :=
  [CmdFetch 0 7; CmdGuard 0 ClassWrite; CmdWrite 0 (λ _, 42); CmdMove 1 0; CmdDestroy 0; CmdDestroy 1].
(** The world after the first [n] commands. *)
Definition demo_at (n : nat) : World (S := Store Z) :=
  match grun (take n guard_demo) demo_start with Ok (Some w) => w | _ => demo_start end.

Lemma guards_balance_witness :
  reach (S := Store Z) {[7]} demo_start 6 (demo_at 6) ∧
  ∃ b, io_rel (PageIO := demo_io) 0 b (machine (demo_at 6)).1 ∧ pinned b = ∅ ∧ tainted b = ∅.
Proof.
  assert (reach (S := Store Z) {[7]} demo_start 6 (demo_at 6)) as Hr.
  { apply (reach_step _ _ 5 (CmdDestroy 1) (demo_at 5)); [|eexists; split; reflexivity|reflexivity].
    apply (reach_step _ _ 4 (CmdDestroy 0) (demo_at 4)); [|eexists; split; reflexivity|reflexivity].
    apply (reach_step _ _ 3 (CmdMove 1 0) (demo_at 3)); [|split; [reflexivity|eexists; split; reflexivity]|reflexivity].
    apply (reach_step _ _ 2 (CmdWrite 0 (λ _, 42)) (demo_at 2)); [|eexists; split; [reflexivity|]; split; [by right|by eexists]|reflexivity].
    apply (reach_step _ _ 1 (CmdGuard 0 ClassWrite) (demo_at 1)); [|by eexists|reflexivity].
    apply (reach_step _ _ 0 (CmdFetch 0 7) demo_start); [apply reach_start|split; [reflexivity|set_solver]|reflexivity]. }
  split; [exact Hr|].
  destruct (guards_balance (S := Store Z) {[7]} 6 0 demo_store demo_store (demo_at 6)) as (b & Hb & _ & _ & Hend & _).
  - lia.
  - split; [done|]. split; [|intros p [x Hx]; change ((∅ : gmap Z (Z * Z)) !! p = Some x) in Hx; by rewrite lookup_empty in Hx].
    intros p [d Hd]. simpl in Hd. apply lookup_singleton_Some in Hd as [<- _]. simpl. lia.
  - done.
  - done.
  - intros p ->%elem_of_singleton. by eexists.
  - exact Hr.
  - exists b. destruct (Hend eq_refl) as (H1 & H2 & _). done.
Defined.
