(* ===== verification/Protocol.v ===== *)
(** * The wire protocol

    [src/src/include/onebase/server/protocol.h]: framed messages over a stream
    socket, and the lines of a result set.  [read(2)] and [write(2)] are the operations
    of a class: they may transfer fewer bytes than asked.  What the code relies on
    of a connection is the class [Stream]. *)

From stdpp Require Import pretty.
From S2P Require Import Prelude.

Definition DEFAULT_SERVER_PORT : Z := 23101.

(** An enumeration over [uint8_t]: every byte is a value of it. *)
Definition MessageType : Type := ascii.
Definition QUERY : MessageType := "Q"%char.
Definition RESULT : MessageType := "R"%char.
Definition ERROR : MessageType := "E"%char.
Definition COMMAND_COMPLETE : MessageType := "C"%char.
Definition TERMINATE : MessageType := "X"%char.

(** ** System calls

    [sys_read fd n] gives the bytes it stored, none for an end of file or an error;
    [sys_write fd bs] the number of bytes it took, zero for an error. *)
Class Socket (W : Type) := {
  sys_read : Z → nat → W → bytes * W;
  sys_write : Z → bytes → W → nat * W
}.

(** A working connection: what one end writes, the other reads, in order and
    whole, in pieces of any size. *)
Class Stream (W : Type) `{!Socket W} := {
  peer : Z → Z;
  wire : Z → W → bytes;
  healthy : W → Prop;
  peer_peer fd : peer (peer fd) = fd;
  sys_read_some fd n w : healthy w → (0 < n)%nat → wire fd w ≠ [] →
    ∃ k w', (0 < k ≤ n)%nat ∧ (k ≤ length (wire fd w))%nat ∧ sys_read fd n w = (take k (wire fd w), w') ∧
      healthy w' ∧ ∀ fd', wire fd' w' = if decide (fd' = fd) then drop k (wire fd w) else wire fd' w;
  sys_write_some fd bs w : healthy w → bs ≠ [] →
    ∃ k w', (0 < k ≤ length bs)%nat ∧ sys_write fd bs w = (k, w') ∧
      healthy w' ∧ ∀ fd', wire fd' w' = if decide (fd' = peer fd) then wire fd' w ++ take k bs else wire fd' w
}.

Section Messages.
Context {W : Type} `{SW : !Socket W}.

(** ** Exact transfers: every round of the loops moves at least one byte *)

Fixpoint read_loop (n : nat) (fd : Z) (remaining : nat) (buf : bytes) : ST W (option bytes) :=
  match n with
  | O => st_fuel
  | S n =>
      if decide (remaining = 0)%nat then mret (Some buf)
      else λ w, let '(bs, w) := sys_read fd remaining w in
        match bs with
        | [] => (Ok None, w)
        | _ => read_loop n fd (remaining - length bs) (buf ++ bs) w
        end
  end.
Definition ReadExact (fd : Z) (len : nat) : ST W (option bytes) := read_loop (S len) fd len [].

Fixpoint write_loop (n : nat) (fd : Z) (rest : bytes) : ST W bool :=
  match n with
  | O => st_fuel
  | S n =>
      if decide (rest = []) then mret true
      else λ w, let '(k, w) := sys_write fd rest w in
        if decide (k = 0)%nat then (Ok false, w) else write_loop n fd (drop k rest) w
  end.
Definition WriteExact (fd : Z) (buf : bytes) : ST W bool := write_loop (S (length buf)) fd buf.

(** ** Framing *)

(** The bytes in memory of [htonl(z)]. *)
Definition htonl (z : Z) : bytes := rev (le_encode 4 z).
Definition ntohl (bs : bytes) : Z := le_decode (rev bs).

Definition SendMessage (fd : Z) (type : MessageType) (data : string) : ST W bool :=
  let body := String.list_ascii_of_string data in
  let payload_len := u32 (Z.of_nat (length body) + 1) in
  ok ← WriteExact fd (htonl payload_len);
  if negb ok then mret false else
  ok ← WriteExact fd [type];
  if negb ok then mret false else
  match body with [] => mret true | _ => WriteExact fd body end.

(** The two out-parameters, [None] when the answer is false. *)
Definition RecvMessage (fd : Z) : ST W (option (MessageType * string)) :=
  o ← ReadExact fd 4;
  match o with
  | None => mret None
  | Some net_len =>
      let payload_len := ntohl net_len in
      if payload_len =? 0 then mret None else
      o ← ReadExact fd 1;
      match o with
      | Some [type] =>
          let data_len := Z.to_nat (payload_len - 1) in
          if decide (data_len = 0)%nat then mret (Some (type, ""))
          else
            o ← ReadExact fd data_len;
            mret ((λ data, (type, String.string_of_list_ascii data)) <$> o)
      | _ => mret None
      end
  end.

(** A client or a server that sends, or receives, several messages. *)
Fixpoint send_all (fd : Z) (ms : list (MessageType * string)) : ST W bool :=
  match ms with
  | [] => mret true
  | (t, d) :: ms => ok ← SendMessage fd t d; if negb ok then mret false else send_all fd ms
  end.
Fixpoint recv_all (fd : Z) (n : nat) : ST W (option (list (MessageType * string))) :=
  match n with
  | O => mret (Some [])
  | S n =>
      o ← RecvMessage fd;
      match o with
      | None => mret None
      | Some m => o ← recv_all fd n; mret ((λ ms, m :: ms) <$> o)
      end
  end.

(** ** Lemmas *)

Lemma ntohl_htonl z : 0 ≤ z < 2 ^ 32 → ntohl (htonl z) = z.
Proof. intros. unfold ntohl, htonl. rewrite rev_involutive, le_decode_encode. by apply Z.mod_small. Qed.

Lemma length_htonl z : length (htonl z) = 4%nat.
Proof. unfold htonl. by rewrite length_rev, length_le_encode. Qed.

Context `{ST0 : !Stream W}.
Implicit Types w : W.

(** The bytes [bs] have been taken from the wire of [fd]. *)
Definition taken (fd : Z) (bs : bytes) w w' : Prop :=
  healthy w' ∧ wire fd w = bs ++ wire fd w' ∧ ∀ fd', fd' ≠ fd → wire fd' w' = wire fd' w.
(** The bytes [bs] have been sent to the wire of [fd]. *)
Definition sent (fd : Z) (bs : bytes) w w' : Prop :=
  healthy w' ∧ wire fd w' = wire fd w ++ bs ∧ ∀ fd', fd' ≠ fd → wire fd' w' = wire fd' w.

Lemma taken_trans fd a b w w1 w2 : taken fd a w w1 → taken fd b w1 w2 → taken fd (a ++ b) w w2.
Proof.
  intros (? & H1 & H2) (? & H3 & H4). split_and!; [done| |].
  - by rewrite H1, H3, <- app_assoc.
  - intros fd' Hne. by rewrite H4, H2.
Qed.
Lemma sent_trans fd a b w w1 w2 : sent fd a w w1 → sent fd b w1 w2 → sent fd (a ++ b) w w2.
Proof.
  intros (? & H1 & H2) (? & H3 & H4). split_and!; [done| |].
  - by rewrite H3, H1, <- app_assoc.
  - intros fd' Hne. by rewrite H4, H2.
Qed.

Lemma read_loop_ok fd n : ∀ remaining buf w bs rest, healthy w → (remaining < n)%nat →
  wire fd w = bs ++ rest → length bs = remaining →
  ∃ w', read_loop n fd remaining buf w = (Ok (Some (buf ++ bs)), w') ∧ taken fd bs w w'.
Proof.
  induction n as [|n IH]; intros remaining buf w bs rest Hh Hn Hw Hl; [lia|]. cbn [read_loop].
  case_decide as E.
  { exists w. destruct bs; [|simpl in Hl; lia]. rewrite app_nil_r. by split. }
  destruct (sys_read_some fd remaining w Hh ltac:(lia)) as (k & w1 & Hk & Hkl & Hr & Hh1 & Hw1).
  { rewrite Hw. destruct bs; [simpl in Hl; lia|done]. }
  rewrite Hr. cbn beta iota. rewrite Hw, take_app_le in * by lia.
  destruct (take k bs) as [|b l] eqn:Et.
  { apply (f_equal length) in Et. rewrite length_take in Et. simpl in Et. lia. }
  rewrite <- Et. destruct (IH (remaining - length (take k bs))%nat (buf ++ take k bs) w1 (drop k bs) rest)
    as (w' & Hl' & Ht); [done|rewrite length_take; lia| |rewrite length_drop, length_take; lia|].
  { rewrite Hw1, decide_True by done. by rewrite drop_app_le by lia. }
  rewrite <- app_assoc, take_drop in Hl'. exists w'. split; [done|].
  rewrite <- (take_drop k bs). eapply taken_trans; [|exact Ht]. split_and!; [done| |].
  - rewrite Hw1, decide_True by done. rewrite drop_app_le by lia. by rewrite app_assoc, take_drop.
  - intros fd' Hne. by rewrite Hw1, decide_False.
Qed.

Lemma ReadExact_ok fd len w bs rest : healthy w → wire fd w = bs ++ rest → length bs = len →
  ∃ w', ReadExact fd len w = (Ok (Some bs), w') ∧ taken fd bs w w'.
Proof. intros. by apply (read_loop_ok fd (S len) len [] w bs rest); auto with lia. Qed.

Lemma write_loop_ok fd n : ∀ bs w, healthy w → (length bs < n)%nat →
  ∃ w', write_loop n fd bs w = (Ok true, w') ∧ sent (peer fd) bs w w'.
Proof.
  induction n as [|n IH]; intros bs w Hh Hn; [lia|]. cbn [write_loop]. case_decide as E.
  { subst. exists w. split; [done|]. split_and!; [done|by rewrite app_nil_r|done]. }
  destruct (sys_write_some fd bs w Hh E) as (k & w1 & Hk & Hr & Hh1 & Hw1). rewrite Hr. cbn beta iota.
  rewrite decide_False by lia. destruct (IH (drop k bs) w1 Hh1) as (w' & Hl' & Hs); [rewrite length_drop; lia|].
  exists w'. split; [done|]. rewrite <- (take_drop k bs). eapply sent_trans; [|exact Hs]. split_and!; [done| |].
  - by rewrite Hw1, decide_True.
  - intros fd' Hne. by rewrite Hw1, decide_False.
Qed.

Lemma WriteExact_ok fd bs w : healthy w → ∃ w', WriteExact fd bs w = (Ok true, w') ∧ sent (peer fd) bs w w'.
Proof. intros. apply write_loop_ok; [done|lia]. Qed.

(** What a message looks like on the wire. *)
Definition frame_of (m : MessageType * string) : bytes :=
  let body := String.list_ascii_of_string m.2 in htonl (Z.of_nat (length body) + 1) ++ [m.1] ++ body.
(** The length field has 32 bits and counts the type. *)
Definition fits (m : MessageType * string) : Prop :=
  Z.of_nat (length (String.list_ascii_of_string m.2)) + 1 < 2 ^ 32.

Lemma SendMessage_ok fd t d w : healthy w → fits (t, d) →
  ∃ w', SendMessage fd t d w = (Ok true, w') ∧ sent (peer fd) (frame_of (t, d)) w w'.
Proof.
  intros Hh Hf. unfold fits, frame_of, SendMessage in *. cbn [fst snd] in *.
  set (body := String.list_ascii_of_string d) in *. unfold u32. rewrite Z.mod_small by lia.
  destruct (WriteExact_ok fd (htonl (Z.of_nat (length body) + 1)) w Hh) as (w1 & H1 & Hs1). st_step H1.
  destruct (WriteExact_ok fd [t] w1 (proj1 Hs1)) as (w2 & H2 & Hs2). cbn [negb]. st_step H2. cbn [negb].
  pose proof (sent_trans _ _ _ _ _ _ Hs1 Hs2) as Hs. destruct body as [|b body'].
  - exists w2. split; [done|]. by rewrite app_nil_r.
  - destruct (WriteExact_ok fd (b :: body') w2 (proj1 Hs2)) as (w3 & H3 & Hs3). exists w3. split; [done|].
    rewrite app_assoc. by apply (sent_trans _ _ _ _ _ _ Hs).
Qed.

Lemma RecvMessage_ok fd m w rest : healthy w → fits m → wire fd w = frame_of m ++ rest →
  ∃ w', RecvMessage fd w = (Ok (Some m), w') ∧ taken fd (frame_of m) w w'.
Proof.
  destruct m as [t d]. unfold fits, frame_of, RecvMessage. cbv zeta. cbn [fst snd]. intros Hh Hf Hw.
  pose proof (String.string_of_list_ascii_of_string d) as Hd.
  set (body := String.list_ascii_of_string d) in *. rewrite <- !app_assoc in Hw.
  destruct (ReadExact_ok fd 4 w _ _ Hh Hw (length_htonl _)) as (w1 & H1 & Ht1). st_step H1.
  rewrite ntohl_htonl by lia. rewrite (proj2 (Z.eqb_neq _ _)) by lia.
  pose proof Ht1 as (Hh1 & Hw1 & _). rewrite Hw in Hw1. apply app_inv_head in Hw1.
  destruct (ReadExact_ok fd 1 w1 [t] (body ++ rest) Hh1 (eq_sym Hw1) eq_refl) as (w2 & H2 & Ht2). st_step H2.
  pose proof Ht2 as (Hh2 & Hw2 & _). rewrite <- Hw1 in Hw2. apply app_inv_head in Hw2.
  replace (Z.to_nat (Z.of_nat (length body) + 1 - 1)) with (length body) by lia.
  pose proof (taken_trans _ _ _ _ _ _ Ht1 Ht2) as Ht. case_decide as E.
  - exists w2. destruct body; [|done]. simpl in Hd. rewrite <- Hd. split; [done|]. by rewrite app_nil_r.
  - destruct (ReadExact_ok fd (length body) w2 body rest Hh2 (eq_sym Hw2) eq_refl) as (w3 & H3 & Ht3). st_step H3.
    exists w3. split; [simpl; by rewrite Hd|]. rewrite app_assoc. by apply (taken_trans _ _ _ _ _ _ Ht).
Qed.

Lemma send_all_ok fd ms : ∀ w, healthy w → Forall fits ms →
  ∃ w', send_all fd ms w = (Ok true, w') ∧ sent (peer fd) (concat (frame_of <$> ms)) w w'.
Proof.
  induction ms as [|[t d] ms IH]; intros w Hh Hf; cbn [send_all].
  { exists w. split; [done|]. split_and!; [done|by rewrite app_nil_r|done]. }
  apply Forall_cons in Hf as [Hm Hf]. destruct (SendMessage_ok fd t d w Hh Hm) as (w1 & H1 & Hs1). st_step H1.
  cbn [negb]. destruct (IH w1 (proj1 Hs1) Hf) as (w' & H2 & Hs2). exists w'. split; [done|].
  by apply (sent_trans _ _ _ _ _ _ Hs1).
Qed.

Lemma recv_all_ok fd ms : ∀ w rest, healthy w → Forall fits ms → wire fd w = concat (frame_of <$> ms) ++ rest →
  ∃ w', recv_all fd (length ms) w = (Ok (Some ms), w') ∧ healthy w' ∧ wire fd w' = rest.
Proof.
  induction ms as [|m ms IH]; intros w rest Hh Hf Hw; cbn [length recv_all]; [by exists w|].
  apply Forall_cons in Hf as [Hm Hf]. cbn [fmap list_fmap concat] in Hw. rewrite <- app_assoc in Hw.
  destruct (RecvMessage_ok fd m w _ Hh Hm Hw) as (w1 & H1 & Hh1 & Hw1 & _). st_step H1.
  rewrite Hw in Hw1. apply app_inv_head in Hw1.
  destruct (IH w1 rest Hh1 Hf (eq_sym Hw1)) as (w' & H2 & Hh2 & Hw2). exists w'. by st_step H2.
Qed.

(** C34: over a working connection, whatever the sizes of the pieces in which [read]
    and [write] move the bytes, messages shorter than 2^32 - 1 bytes arrive as they
    were sent, in their order, and nothing is left on the wire. *)
Theorem messages_arrive fd ms w :
  healthy w → wire (peer fd) w = [] → Forall fits ms →
  ∃ w1 w2, send_all fd ms w = (Ok true, w1) ∧
    recv_all (peer fd) (length ms) w1 = (Ok (Some ms), w2) ∧ healthy w2 ∧ wire (peer fd) w2 = [].
Proof.
  intros Hh Hw Hf. destruct (send_all_ok fd ms w Hh Hf) as (w1 & H1 & Hh1 & Hw1 & _). rewrite Hw in Hw1.
  destruct (recv_all_ok (peer fd) ms w1 [] Hh1 Hf) as (w2 & H2 & Hh2 & Hw2); [by rewrite app_nil_r|].
  by exists w1, w2.
Qed.
End Messages.

(** ** Result sets as text *)

Fixpoint format_from (first : bool) (values : list string) (row : string) : string :=
  match values with
  | [] => row
  | v :: values => format_from false values ((if first then row else row +:+ "|") +:+ v)
  end.
Definition FormatResultHeader (col_names : list string) : string := format_from true col_names "".
Definition FormatResultRow (values : list string) : string := format_from true values "".

(** Cutting at every occurrence of a character: the loop of [ParsePipeSeparated]. *)
Fixpoint split_loop (sep : ascii) (line : list ascii) (parts : list string) (current : list ascii) : list string :=
  match line with
  | [] => parts ++ [String.string_of_list_ascii current]
  | c :: line =>
      if ascii_dec c sep then split_loop sep line (parts ++ [String.string_of_list_ascii current]) []
      else split_loop sep line parts (current ++ [c])
  end.
Definition ParsePipeSeparated (line : string) : list string :=
  split_loop "|"%char (String.list_ascii_of_string line) [] [].

Definition has_char (c : ascii) (s : string) : bool := bool_decide (c ∈ String.list_ascii_of_string s).

Lemma list_ascii_app s t : String.list_ascii_of_string (s +:+ t) = String.list_ascii_of_string s ++ String.list_ascii_of_string t.
Proof. induction s as [|c s IH]; simpl; [done|]. by rewrite IH. Qed.

Lemma string_app_assoc (s t u : string) : s +:+ (t +:+ u) = (s +:+ t) +:+ u.
Proof. induction s as [|c s IH]; [done|]. exact (f_equal (String c) IH). Qed.

Lemma string_app_nil (s : string) : s +:+ "" = s.
Proof. induction s as [|c s IH]; [done|]. exact (f_equal (String c) IH). Qed.

(** Cutting a text that holds no separator, then one. *)
Lemma split_loop_word sep w : ∀ rest parts current, sep ∉ w →
  split_loop sep (w ++ rest) parts current = split_loop sep rest parts (current ++ w).
Proof.
  induction w as [|c w IH]; intros rest parts current Hw; simpl; [by rewrite app_nil_r|].
  destruct (ascii_dec c sep) as [->|]; [set_solver|]. rewrite IH by set_solver. by rewrite <- app_assoc.
Qed.

Lemma split_loop_parts sep l : ∀ parts current, split_loop sep l parts current = parts ++ split_loop sep l [] current.
Proof.
  induction l as [|c l IH]; intros parts current; simpl; [done|].
  destruct (ascii_dec c sep); [|by rewrite IH]. by rewrite IH, (IH [_]), <- app_assoc.
Qed.

(** What follows the first value of a row. *)
Fixpoint row_tail (vs : list string) : string :=
  match vs with [] => "" | v :: vs => String "|" (v +:+ row_tail vs) end.

Lemma format_from_tail vs : ∀ row, format_from false vs row = row +:+ row_tail vs.
Proof.
  induction vs as [|v vs IH]; intros row; cbn [format_from row_tail]; [by rewrite string_app_nil|].
  rewrite IH, <- !string_app_assoc. done.
Qed.

Lemma FormatResultRow_cons v vs : FormatResultRow (v :: vs) = v +:+ row_tail vs.
Proof. unfold FormatResultRow. cbn [format_from]. by rewrite format_from_tail. Qed.

Lemma has_char_false c s : has_char c s = false → c ∉ String.list_ascii_of_string s.
Proof. apply bool_decide_eq_false. Qed.

Lemma has_char_app c s t : has_char c (s +:+ t) = has_char c s || has_char c t.
Proof.
  unfold has_char. rewrite list_ascii_app. rewrite <- bool_decide_or. apply bool_decide_ext. by rewrite elem_of_app.
Qed.

(** The text of a number has digits and a minus sign. *)
Lemma pretty_N_go_chars (P : ascii → Prop) : (∀ d, (d < 10)%N → P (pretty_N_char d)) →
  ∀ x s, Forall P (String.list_ascii_of_string s) → Forall P (String.list_ascii_of_string (pretty_N_go x s)).
Proof.
  intros HP x. induction (N.lt_wf_0 x) as [x _ IH]. intros s Hs. destruct (decide (x = 0)%N) as [->|Hx].
  - by rewrite pretty_N_go_0.
  - rewrite pretty_N_go_step by lia. apply IH; [apply N.div_lt; lia|]. constructor; [|done].
    apply HP. apply N.mod_lt. done.
Qed.
Lemma pretty_N_no c (n : N) : has_char c "0123456789" = false → has_char c (pretty n) = false.
Proof.
  intros Hc%bool_decide_eq_false. apply bool_decide_eq_false. unfold pretty, pretty_N. intros Hin.
  case_decide; [simpl in Hin; simpl in Hc; set_solver|].
  assert (Forall (λ a, a ≠ c) (String.list_ascii_of_string (pretty_N_go n ""))) as Hall.
  { apply pretty_N_go_chars; [|constructor]. intros d Hd <-. apply Hc.
    assert (d = 0 ∨ d = 1 ∨ d = 2 ∨ d = 3 ∨ d = 4 ∨ d = 5 ∨ d = 6 ∨ d = 7 ∨ d = 8 ∨ d = 9)%N as Hd' by lia.
    by repeat (destruct Hd' as [->|Hd']; [apply (bool_decide_unpack _); vm_compute|]); subst; apply (bool_decide_unpack _); vm_compute. }
  rewrite Forall_forall in Hall. by apply (Hall _ Hin).
Qed.
Lemma pretty_Z_no c (z : Z) : has_char c "-0123456789" = false → has_char c (pretty z) = false.
Proof.
  intros Hc. assert (has_char c "0123456789" = false) as Hd by (apply bool_decide_eq_false in Hc; apply bool_decide_eq_false; simpl in *; set_solver).
  destruct z as [|p|p]; [|exact (pretty_N_no c (N.pos p) Hd)|].
  - apply bool_decide_eq_false in Hd. apply bool_decide_eq_false. simpl in *. set_solver.
  - change (pretty (Z.neg p)) with ("-" +:+ pretty (N.pos p)). rewrite has_char_app, (pretty_N_no c (N.pos p) Hd), orb_false_r.
    apply bool_decide_eq_false in Hc. apply bool_decide_eq_false. simpl in *. set_solver.
Qed.

(** A row of values without the separator is read back as it was. *)
Lemma parse_row v vs : Forall (λ v, has_char "|" v = false) (v :: vs) →
  ParsePipeSeparated (FormatResultRow (v :: vs)) = v :: vs.
Proof.
  rewrite FormatResultRow_cons. revert v. unfold ParsePipeSeparated.
  induction vs as [|v' vs IH]; intros v Hf; apply Forall_cons in Hf as [Hv%has_char_false Hf];
    rewrite list_ascii_app, split_loop_word by done; simpl; rewrite String.string_of_list_ascii_of_string; [done|].
  rewrite split_loop_parts. simpl. f_equal. by apply IH.
Qed.

(** ** A connection that moves at most three bytes a call *)

Definition Pipe : Type := Z → bytes.
Definition pipe_set (fd : Z) (bs : bytes) (w : Pipe) : Pipe := λ fd', if decide (fd' = fd) then bs else w fd'.

#[global] Instance pipe_socket : Socket Pipe := {
  sys_read fd n w := let k := Nat.min n 3 in (take k (w fd), pipe_set fd (drop k (w fd)) w);
  sys_write fd bs w := let k := Nat.min (length bs) 3 in (k, pipe_set (1 - fd) (w (1 - fd) ++ take k bs) w)
}.

#[global] Instance pipe_stream : Stream Pipe.
Proof.
  refine {| peer fd := 1 - fd; wire fd w := w fd; healthy _ := True |}.
  - intros fd. lia.
  - intros fd n w _ Hn Hw. exists (Nat.min (length (w fd)) (Nat.min n 3)).
    exists (pipe_set fd (drop (Nat.min n 3) (w fd)) w).
    assert (0 < length (w fd))%nat by (destruct (w fd); [done|simpl; lia]).
    split_and!; [lia|lia|lia| |done|].
    + simpl. f_equal. rewrite <- (firstn_all (w fd)) at 1. by rewrite take_take, Nat.min_comm.
    + intros fd'. unfold pipe_set. case_decide; [|done].
      destruct (decide (length (w fd) ≤ Nat.min n 3)%nat).
      * by rewrite (Nat.min_l (length _)), !drop_ge by lia.
      * by rewrite (Nat.min_r (length _)) by lia.
  - intros fd bs w _ Hb. exists (Nat.min (length bs) 3), (pipe_set (1 - fd) (w (1 - fd) ++ take (Nat.min (length bs) 3) bs) w).
    assert (0 < length bs)%nat by (destruct bs; [done|simpl; lia]).
    split_and!; [lia|lia|done|done|]. intros fd'. unfold pipe_set. by case_decide as E; [rewrite E|].
Defined.

Definition no_bytes : Pipe := λ _, [].
Definition two_messages : list (MessageType * string) := [(QUERY, "SELECT * FROM t"); (TERMINATE, "")].

Lemma messages_arrive_witness :
  ∃ w1 w2, send_all 1 two_messages no_bytes = (Ok true, w1) ∧
    recv_all 0 2 w1 = (Ok (Some two_messages), w2) ∧ w2 0 = [].
Proof.
  destruct (messages_arrive (W := Pipe) 1 two_messages no_bytes) as (w1 & w2 & H1 & H2 & _ & H3).
  { exact I. }
  { reflexivity. }
  { repeat constructor; unfold fits; simpl; lia. }
  exists w1, w2. split; [exact H1|]. split; [exact H2|exact H3].
Defined.
