(* ===== verification/Binder.v ===== *)
(** * The binder

    [src/src/binder/binder.cpp]: from the parse tree of a statement to a plan.  The
    parser is the vendored [libpg_query]; a parse tree is a value of [PGNode] or [PGStmt],
    the structures of its [nodes/*.hpp] with the fields the binder reads.  A null
    [PGNode *] is [PGNull], and a list without elements is [NIL], the null pointer, as
    [pg_list.hpp] requires.  A cast to a structure the node is not, and a
    null pointer that is dereferenced, are undefined. *)

From stdpp Require Import pretty.
From S2P Require Import Prelude Common Value Tuple Expression PageStore PageIO PageLogic TablePage TableHeap Catalog Executor.
From S2P Require Import Operators Join Aggregate Dml OrderBy Utility Engine.

(** ** Parse trees *)

Inductive PGBoolExprType := PG_AND_EXPR | PG_OR_EXPR | PG_NOT_EXPR.

(** [alias]: [alias->aliasname]. *)
Record PGRangeVar := mkRangeVar { relname : option string; alias : option string }.

(** A [PGAConst] holds a node of one of the first four forms. *)
Inductive PGNode :=
  | PGNull
  | PGString (str : string)
  | PGInteger (ival : Z)
  | PGFloat (str : string)
  | PGAStar
  | PGList (elements : list PGNode)
  | PGRange (rv : PGRangeVar)
  | PGColumnRef (fields : list PGNode)
  | PGAConst (val : PGNode)
  | PGAExpr (name : list PGNode) (lexpr rexpr : PGNode)
  | PGBoolExpr (boolop : PGBoolExprType) (args : list PGNode)
  | PGFuncCall (funcname args : list PGNode) (agg_star : bool)
  | PGJoinExpr (larg rarg quals : PGNode)
  | PGResTarget (name : option string) (val : PGNode)
  | PGSortBy (node : PGNode) (descending : bool)
  | PGIndexElem (name : option string) (expr : PGNode)
  | PGOther (tag : Z).

(** [node->type], as in [nodes.hpp]. *)
Definition node_type (node : PGNode) : res Z :=
  match node with
  | PGNull => UB
  | PGString _ => Ok 220 | PGInteger _ => Ok 218 | PGFloat _ => Ok 219 | PGAStar => Ok 360
  | PGList _ => Ok 223 | PGRange _ => Ok 96 | PGColumnRef _ => Ok 356 | PGAConst _ => Ok 358
  | PGAExpr _ _ _ => Ok 355 | PGBoolExpr _ _ => Ok 112 | PGFuncCall _ _ _ => Ok 359
  | PGJoinExpr _ _ _ => Ok 143 | PGResTarget _ _ => Ok 364 | PGSortBy _ _ => Ok 368
  | PGIndexElem _ _ => Ok 377 | PGOther tag => Ok tag
  end.

Record PGSelect := mkSelect {
  targetList : list PGNode;
  fromClause : list PGNode;
  whereClause : PGNode;
  groupClause : list PGNode;
  sortClause : list PGNode;
  limitCount : PGNode;
  valuesLists : list PGNode
}.

Inductive PGStmt :=
  | PGIndexStmt (relation : option PGRangeVar) (idxname : option string) (indexParams : list PGNode)
  | PGDropStmt (removes_index : bool) (objects : list PGNode) (missing_ok : bool)
  | PGVariableShowStmt (set : option string) (relation : option PGRangeVar)
  | PGSelectStmt (select : PGSelect)
  | PGInsertStmt (relation : PGRangeVar) (selectStmt : option PGSelect)
  | PGDeleteStmt (relation : PGRangeVar) (where_clause : PGNode)
  | PGUpdateStmt (relation : PGRangeVar) (targets : list PGNode) (where_clause : PGNode)
  | PGOtherStmt (tag : Z).

Definition stmt_type (stmt : PGStmt) : Z :=
  match stmt with
  | PGIndexStmt _ _ _ => 254 | PGDropStmt _ _ _ => 248 | PGVariableShowStmt _ _ => 276 | PGSelectStmt _ => 234
  | PGInsertStmt _ _ => 230 | PGDeleteStmt _ _ => 231 | PGUpdateStmt _ _ _ => 232 | PGOtherStmt tag => tag
  end.

(** What [PostgresParser::Parse] leaves. *)
Inductive PGParseResult := ParseError (error_message : string) | ParseTree (stmts : list PGStmt).

(** [strVal]: the string member of a [PGValue]. *)
Definition strVal (node : PGNode) : res string :=
  match node with PGString s | PGFloat s => Ok s | _ => UB end.
(** [std::string(p)] of a [char *]. *)
Definition c_str (p : option string) : res string := match p with Some s => Ok s | None => UB end.
(** [lfirst(list_head(l))] and [lfirst(list_tail(l))]. *)
Definition linitial (l : list PGNode) : res PGNode := match l with n :: _ => Ok n | [] => UB end.
Definition llast (l : list PGNode) : res PGNode := match last l with Some n => Ok n | None => UB end.
(** [reinterpret_cast<PGRangeVar *>(node)], dereferenced. *)
Definition as_range_var (node : PGNode) : res PGRangeVar := match node with PGRange rv => Ok rv | _ => UB end.

(** ** Helpers *)

Record TableScope := mkScope { sc_alias : string; sc_info : TableInfo; sc_tuple_idx : Z }.
Record AggCall := mkAggCall { agg_type : AggregationType; agg_call_arg : AbstractExpression }.

(** [std::tolower] of the C locale. *)
Definition tolower (c : ascii) : ascii :=
  let n := N_of_ascii c in if (65 <=? n)%N && (n <=? 90)%N then ascii_of_N (n + 32) else c.
Definition LowerCopy (text : string) : string :=
  String.string_of_list_ascii (tolower <$> String.list_ascii_of_string text).

Fixpoint NodeToQualifiedName (node : PGNode) : res string :=
  match node with
  | PGString s => Ok s
  | PGList l =>
      parts ← (fix names (l : list PGNode) : res (list string) :=
        match l with [] => Ok [] | n :: l => s ← NodeToQualifiedName n; rest ← names l; Ok (s :: rest) end) l;
      Ok (JoinStrings parts ".")
  | PGRange rv => Ok (default "" (relname rv))
  | _ => Ok ""
  end.

(** The loop over the columns of one scope. *)
Fixpoint find_column (i : Z) (col_name : string) (cols : list Column) : option (Z * TypeId) :=
  match cols with
  | [] => None
  | c :: cols => if bool_decide (Tuple.col_name c = col_name) then Some (i, col_type c) else find_column (i + 1) col_name cols
  end.

Fixpoint ResolveColumn (col_name table_qualifier : string) (scopes : list TableScope) : res (Z * Z * TypeId) :=
  match scopes with
  | [] => Throw (RuntimeError ("Column not found: " +:+
            (if bool_decide (table_qualifier = "") then col_name else table_qualifier +:+ "." +:+ col_name)))
  | scope :: scopes =>
      if bool_decide (table_qualifier ≠ "" ∧ table_qualifier ≠ sc_alias scope) then ResolveColumn col_name table_qualifier scopes
      else match find_column 0 col_name (columns_ (t_schema_ (sc_info scope))) with
           | Some (i, type) => Ok (sc_tuple_idx scope, i, type)
           | None => ResolveColumn col_name table_qualifier scopes
           end
  end.

(** The last two lines of [BindColumnRef]. *)
Definition column_value (col_name table_qualifier : string) (scopes : list TableScope) : res AbstractExpression :=
  '(tuple_idx, col_idx, type) ← ResolveColumn col_name table_qualifier scopes;
  Ok (ColumnValueExpression tuple_idx col_idx type).

Definition BindColumnRef (fields : list PGNode) (scopes : list TableScope) : res AbstractExpression :=
  match fields with
  | [PGNull] => UB
  | [PGString s] => column_value s "" scopes
  | [PGAStar] => Ok NullExpression
  | [first; second] =>
      qualifier ← strVal first;
      match second with
      | PGNull => UB
      | PGAStar => Ok NullExpression
      | _ => s ← strVal second; column_value s qualifier scopes
      end
  | _ => column_value "" "" scopes
  end.

Section Binder.
(** [std::stof]. *)
Context (stof : string → res Z).

Definition BindConstant (val : PGNode) : res AbstractExpression :=
  match val with
  | PGInteger ival => Ok (ConstantValueExpression (Value_int INTEGER (i32 ival)))
  | PGFloat s => f ← stof s; Ok (ConstantValueExpression (Value_float FLOAT f))
  | PGString s => Ok (ConstantValueExpression (Value_string VARCHAR s))
  | _ => Throw (RuntimeError "Unsupported constant type")
  end.

(** The operator of a [PGAExpr], once its operands are bound. *)
Definition bind_operator (op_name : string) (l r : AbstractExpression) : res AbstractExpression :=
  if bool_decide (op_name = "=") then Ok (ComparisonExpression l r Equal)
  else if bool_decide (op_name = "<>" ∨ op_name = "!=") then Ok (ComparisonExpression l r NotEqual)
  else if bool_decide (op_name = "<") then Ok (ComparisonExpression l r LessThan)
  else if bool_decide (op_name = "<=") then Ok (ComparisonExpression l r LessThanOrEqual)
  else if bool_decide (op_name = ">") then Ok (ComparisonExpression l r GreaterThan)
  else if bool_decide (op_name = ">=") then Ok (ComparisonExpression l r GreaterThanOrEqual)
  else if bool_decide (op_name = "+") then Ok (ArithmeticExpression l r Plus)
  else if bool_decide (op_name = "-") then Ok (ArithmeticExpression l r Minus)
  else if bool_decide (op_name = "*") then Ok (ArithmeticExpression l r Times)
  else if bool_decide (op_name = "/") then Ok (ArithmeticExpression l r Div)
  else if bool_decide (op_name = "%") then Ok (ArithmeticExpression l r Mod)
  else Throw (RuntimeError ("Unsupported operator: " +:+ op_name)).

(** AND and OR fold their arguments to the left. *)
Definition bind_args (bind : PGNode → res AbstractExpression) (t : LogicType) : AbstractExpression → list PGNode → res AbstractExpression :=
  fix bind_args (result : AbstractExpression) (args : list PGNode) :=
    match args with
    | [] => Ok result
    | a :: args => right ← bind a; bind_args (LogicExpression result right t) args
    end.
Definition bind_chain (bind : PGNode → res AbstractExpression) (t : LogicType) (args : list PGNode) : res AbstractExpression :=
  match args with [] => UB | a :: args => result ← bind a; bind_args bind t result args end.

Fixpoint BindExpression (scopes : list TableScope) (node : PGNode) : res AbstractExpression :=
  match node with
  | PGNull => Ok NullExpression
  | PGColumnRef fields => BindColumnRef fields scopes
  | PGAConst val => BindConstant val
  | PGAExpr name lexpr rexpr =>
      left ← BindExpression scopes lexpr;
      right ← BindExpression scopes rexpr;
      op ← linitial name;
      op_name ← strVal op;
      bind_operator op_name left right
  | PGBoolExpr PG_AND_EXPR args => bind_chain (BindExpression scopes) LAnd args
  | PGBoolExpr PG_OR_EXPR args => bind_chain (BindExpression scopes) LOr args
  | PGBoolExpr PG_NOT_EXPR _ => Throw (RuntimeError "Unsupported BoolExpr type")
  | _ => type ← node_type node; Throw (RuntimeError ("Unsupported expression node type: " +:+ pretty type))
  end.

Definition GetFuncName (funcname : list PGNode) : res string := n ← llast funcname; s ← strVal n; Ok (LowerCopy s).

(** A [Column] of the two-argument constructor. *)
Definition column (name : string) (type : TypeId) : Column := Column_new name type 0.
Definition CountSchema : Schema := Schema_new [column "count" INTEGER].
Definition CommandSchema : Schema := Schema_new [column "command_tag" VARCHAR].
Definition ShowTablesSchema : Schema := Schema_new [column "table_name" VARCHAR].
Definition ShowIndexesSchema : Schema :=
  Schema_new [column "index_name" VARCHAR; column "table_name" VARCHAR; column "columns" VARCHAR].
Definition ShowSchemaSchema : Schema := Schema_new [column "column_name" VARCHAR; column "column_type" VARCHAR].

Definition CollectAllColumns (scopes : list TableScope) : Schema :=
  Schema_new (concat ((λ s, columns_ (t_schema_ (sc_info s))) <$> scopes)).
(** ** Statements *)

Section Statements.
Context (c : Catalog).

Definition table_named (name : string) : res TableInfo :=
  info ← GetTable name c;
  match info with Some t => Ok t | None => Throw (RuntimeError ("Table not found: " +:+ name)) end.
(** A [shared_ptr] handed to a plan as its predicate. *)
Definition as_predicate (e : AbstractExpression) : option AbstractExpression :=
  match e with NullExpression => None | _ => Some e end.
Definition scan_of (t : TableInfo) (predicate : option AbstractExpression) : AbstractPlanNode :=
  SeqScanPlanNode (t_schema_ t) (t_oid_ t) predicate.

(** *** CREATE INDEX, DROP INDEX, SHOW *)

Definition index_attr (t : TableInfo) (param : PGNode) : res Z :=
  match param with
  | PGIndexElem (Some name) PGNull =>
      let column_idx := GetColumnIdx (t_schema_ t) name in
      if column_idx =? UINT32_MAX then Throw (RuntimeError ("Column not found: " +:+ name)) else Ok column_idx
  | PGIndexElem _ _ => Throw (RuntimeError "Only column-based CREATE INDEX is supported")
  | _ => UB
  end.

Definition BindIndex (relation : option PGRangeVar) (idxname : option string) (indexParams : list PGNode) : res AbstractPlanNode :=
  match relation, idxname with
  | Some rv, Some idx =>
      name ← c_str (relname rv);
      t ← table_named name;
      key_attrs ← mapR (index_attr t) indexParams;
      Ok (UtilityPlanNode CommandSchema CREATE_INDEX name idx key_attrs [] false)
  | _, _ => Throw (RuntimeError "Invalid CREATE INDEX statement")
  end.

Definition BindDrop (objects : list PGNode) (missing_ok : bool) : res AbstractPlanNode :=
  names ← mapR NodeToQualifiedName objects;
  Ok (UtilityPlanNode CommandSchema DROP_INDEX "" "" [] (filter (λ name, name ≠ "") names) missing_ok).

Definition show_plan (schema : Schema) (type : UtilityType) (table_name : string) : AbstractPlanNode :=
  UtilityPlanNode schema type table_name "" [] [] false.

(** [None]: no branch returns. *)
Definition BindShow (set : option string) (relation : option PGRangeVar) : res (option AbstractPlanNode) :=
  let tables := show_plan ShowTablesSchema SHOW_TABLES "" in
  let set_name := LowerCopy (default "" set) in
  if bool_decide (set_name = "__show_tables_expanded" ∨ set_name = "__show_tables_from_database") then Ok (Some tables)
  else match relation with
  | None => Ok None
  | Some rv =>
      relation_name ← c_str (relname rv);
      let normalized := LowerCopy relation_name in
      if bool_decide (normalized = "tables") then Ok (Some tables)
      else if bool_decide (normalized = "index" ∨ normalized = "indexes") then
        Ok (Some (show_plan ShowIndexesSchema SHOW_INDEXES ""))
      else
        info ← GetTable relation_name c;
        Ok (match info with Some _ => Some (show_plan ShowSchemaSchema SHOW_SCHEMA relation_name) | None => None end)
  end.

(** *** SELECT: FROM *)

Record FromState := mkFrom { fr_scopes : list TableScope; fr_plans : list AbstractPlanNode; fr_base : AbstractPlanNode }.

Definition scope_of (rv : PGRangeVar) (tuple_idx : Z) : res TableScope :=
  name ← c_str (relname rv);
  t ← table_named name;
  Ok (mkScope (default name (alias rv)) t tuple_idx).

Definition bind_from (s : FromState) (node : PGNode) : res FromState :=
  match node with
  | PGNull => UB
  | PGRange rv =>
      scope ← scope_of rv (u32 (Z.of_nat (length (fr_scopes s))));
      Ok (mkFrom (fr_scopes s ++ [scope]) (fr_plans s ++ [scan_of (sc_info scope) None]) (fr_base s))
  | PGJoinExpr larg rarg quals =>
      left_rv ← as_range_var larg;
      left ← scope_of left_rv 0;
      right_rv ← as_range_var rarg;
      right ← scope_of right_rv 1;
      let scopes := fr_scopes s ++ [left; right] in
      join_predicate ← BindExpression scopes quals;
      Ok (mkFrom scopes [] (NestedLoopJoinPlanNode (CollectAllColumns scopes)
            (scan_of (sc_info left) None) (scan_of (sc_info right) None) (as_predicate join_predicate)))
  | _ => Ok s
  end.

Definition select_from (clause : list PGNode) : res (list TableScope * AbstractPlanNode) :=
  match clause with
  | [] => Throw (RuntimeError "SELECT without FROM not supported")
  | _ =>
      s ← foldR bind_from (mkFrom [] [] NullPlanNode) clause;
      Ok (fr_scopes s, match fr_plans s with plan :: _ => plan | [] => fr_base s end)
  end.

(** *** SELECT: WHERE *)

Definition select_where (scopes : list TableScope) (clause : PGNode) (base_plan : AbstractPlanNode) : res AbstractPlanNode :=
  match clause with
  | PGNull => Ok base_plan
  | _ =>
      predicate ← BindExpression scopes clause;
      match base_plan with
      | NullPlanNode => UB
      | SeqScanPlanNode _ _ _ =>
          match scopes with scope :: _ => Ok (scan_of (sc_info scope) (as_predicate predicate)) | [] => UB end
      | NestedLoopJoinPlanNode schema l r q =>
          let combined := match q with Some q => LogicExpression q predicate LAnd | None => predicate end in
          Ok (NestedLoopJoinPlanNode schema l r (as_predicate combined))
      | _ => Ok base_plan
      end
  end.

(** *** SELECT: the target list *)

Record Targets := mkTargets {
  agg_calls : list AggCall;      (** [has_aggregates]: there is one *)
  output_exprs : list AbstractExpression;
  output_names : list string;
  is_star : bool
}.
Definition has_aggregates (t : Targets) : bool := negb (bool_decide (length (agg_calls t) = 0%nat)).
Definition set_star (t : Targets) : Targets := mkTargets (agg_calls t) (output_exprs t) (output_names t) true.

Definition aggregation_of (fname : string) : option AggregationType :=
  if bool_decide (fname = "count") then Some CountAggregate
  else if bool_decide (fname = "sum") then Some SumAggregate
  else if bool_decide (fname = "min") then Some MinAggregate
  else if bool_decide (fname = "max") then Some MaxAggregate
  else None.

Definition bind_aggregate (scopes : list TableScope) (type : AggregationType) (args : list PGNode) (agg_star : bool) : res AggCall :=
  let is_count := match type with CountAggregate => true | _ => false end in
  is_count_star ← (if agg_star then Ok true
                   else if is_count then match args with
                     | PGNull :: _ => UB
                     | PGAStar :: _ => Ok true
                     | _ => Ok false
                     end
                   else Ok false);
  if is_count && is_count_star then Ok (mkAggCall CountStarAggregate (ColumnValueExpression 0 0 INTEGER))
  else
    arg_node ← linitial args;
    arg ← BindExpression scopes arg_node;
    Ok (mkAggCall type arg).

Definition output_name (name : option string) (val : PGNode) (n : nat) : res string :=
  match name, val with
  | Some s, _ => Ok s
  | None, PGColumnRef fields => tail ← llast fields; NodeToQualifiedName tail
  | None, _ => Ok ("col_" +:+ pretty n)
  end.

Definition bind_output (scopes : list TableScope) (t : Targets) (name : option string) (val : PGNode) : res Targets :=
  e ← BindExpression scopes val;
  s ← output_name name val (length (output_names t));
  Ok (mkTargets (agg_calls t) (output_exprs t ++ [e]) (output_names t ++ [s]) (is_star t)).

Definition bind_target (scopes : list TableScope) (t : Targets) (target : PGNode) : res Targets :=
  match target with
  | PGResTarget name val =>
      match val with
      | PGNull => Ok t
      | PGAStar => Ok (set_star t)
      | PGColumnRef fields =>
          first ← linitial fields;
          match first with
          | PGNull => UB
          | PGAStar => Ok (set_star t)
          | _ => bind_output scopes t name val
          end
      | PGFuncCall funcname args agg_star =>
          fname ← GetFuncName funcname;
          match aggregation_of fname with
          | Some type =>
              agg ← bind_aggregate scopes type args agg_star;
              Ok (mkTargets (agg_calls t ++ [agg]) (output_exprs t) (output_names t) (is_star t))
          | None => bind_output scopes t name val
          end
      | _ => bind_output scopes t name val
      end
  | _ => UB
  end.

(** *** SELECT: aggregation, ORDER BY, LIMIT, projection *)

(** [base_plan->...] *)
Definition not_null (plan : AbstractPlanNode) : res AbstractPlanNode :=
  match plan with NullPlanNode => UB | _ => Ok plan end.

Definition numbered (prefix : string) (n : nat) : list Column :=
  (λ i : nat, column (prefix +:+ pretty i) INTEGER) <$> seq 0 n.

Definition select_aggregates (scopes : list TableScope) (group : list PGNode) (t : Targets) (base_plan : AbstractPlanNode) : res AbstractPlanNode :=
  if has_aggregates t then
    group_bys ← mapR (BindExpression scopes) group;
    let schema := Schema_new (numbered "group_" (length group_bys) ++ numbered "agg_" (length (agg_calls t))) in
    Ok (AggregationPlanNode schema base_plan group_bys (agg_call_arg <$> agg_calls t) (agg_type <$> agg_calls t))
  else Ok base_plan.

Definition order_by (scopes : list TableScope) (node : PGNode) : res (bool * AbstractExpression) :=
  match node with
  | PGSortBy node descending => e ← BindExpression scopes node; Ok (negb descending, e)
  | _ => UB
  end.

Definition select_order (scopes : list TableScope) (sort : list PGNode) (base_plan : AbstractPlanNode) : res AbstractPlanNode :=
  match sort with
  | [] => Ok base_plan
  | _ =>
      order_bys ← mapR (order_by scopes) sort;
      plan ← not_null base_plan;
      Ok (SortPlanNode (plan_schema plan) plan order_bys)
  end.

Definition select_limit (limitCount : PGNode) (base_plan : AbstractPlanNode) : res AbstractPlanNode :=
  match limitCount with
  | PGNull => Ok base_plan
  | PGAConst (PGInteger ival) => plan ← not_null base_plan; Ok (LimitPlanNode (plan_schema plan) plan (u64 ival))
  | _ => UB
  end.

Definition output_column (name : string) (e : AbstractExpression) : res Column :=
  match e with NullExpression => UB | _ => Ok (column name (GetReturnType e)) end.

Definition select_projection (t : Targets) (base_plan : AbstractPlanNode) : res AbstractPlanNode :=
  if negb (is_star t) && negb (has_aggregates t) && negb (bool_decide (length (output_exprs t) = 0%nat)) then
    cols ← mapR (λ '(name, e), output_column name e) (zip (output_names t) (output_exprs t));
    Ok (ProjectionPlanNode (Schema_new cols) base_plan (output_exprs t))
  else Ok base_plan.

Definition BindSelect (select : PGSelect) : res AbstractPlanNode :=
  '(scopes, base_plan) ← select_from (fromClause select);
  base_plan ← select_where scopes (whereClause select) base_plan;
  targets ← foldR (bind_target scopes) (mkTargets [] [] [] false) (targetList select);
  base_plan ← select_aggregates scopes (groupClause select) targets base_plan;
  base_plan ← select_order scopes (sortClause select) base_plan;
  base_plan ← select_limit (limitCount select) base_plan;
  select_projection targets base_plan.

(** *** INSERT, DELETE, UPDATE *)

(** A [whereClause] that may be null. *)
Definition bind_where (scopes : list TableScope) (clause : PGNode) : res (option AbstractExpression) :=
  predicate ← BindExpression scopes clause; Ok (as_predicate predicate).

Definition insert_from (where_clause : PGNode) (s : list TableScope * AbstractPlanNode) (node : PGNode) : res (list TableScope * AbstractPlanNode) :=
  match node with
  | PGNull => UB
  | PGRange rv =>
      src_name ← c_str (relname rv);
      src ← table_named src_name;
      let scopes := s.1 ++ [mkScope src_name src 0] in
      predicate ← bind_where scopes where_clause;
      Ok (scopes, scan_of src predicate)
  | _ => Ok s
  end.

Definition BindInsert (relation : PGRangeVar) (selectStmt : option PGSelect) : res AbstractPlanNode :=
  table_name ← c_str (relname relation);
  info ← table_named table_name;
  match selectStmt with
  | None => UB
  | Some sub_select =>
      '(_, sub_plan) ← (match fromClause sub_select, valuesLists sub_select with
        | [], _ :: _ => Throw (RuntimeError "INSERT ... VALUES not supported yet")
        | from, _ => foldR (insert_from (whereClause sub_select)) ([], NullPlanNode) from
        end);
      Ok (InsertPlanNode CountSchema sub_plan (t_oid_ info))
  end.

Definition BindDelete (relation : PGRangeVar) (where_clause : PGNode) : res AbstractPlanNode :=
  table_name ← c_str (relname relation);
  info ← table_named table_name;
  predicate ← bind_where [mkScope table_name info 0] where_clause;
  Ok (DeletePlanNode CountSchema (scan_of info predicate) (t_oid_ info)).

(** The SET clause: a later assignment to a column replaces an earlier one. *)
Definition bind_set (scopes : list TableScope) (set_exprs : gmap string AbstractExpression) (target : PGNode) : res (gmap string AbstractExpression) :=
  match target with
  | PGResTarget name val => col_name ← c_str name; e ← BindExpression scopes val; Ok (<[col_name := e]> set_exprs)
  | _ => UB
  end.

Definition update_expr (set_exprs : gmap string AbstractExpression) (i : nat) (col : Column) : AbstractExpression :=
  match set_exprs !! Tuple.col_name col with Some e => e | None => ColumnValueExpression 0 (Z.of_nat i) (col_type col) end.

Definition BindUpdate (relation : PGRangeVar) (targets : list PGNode) (where_clause : PGNode) : res AbstractPlanNode :=
  table_name ← c_str (relname relation);
  info ← table_named table_name;
  let scopes := [mkScope table_name info 0] in
  set_exprs ← foldR (bind_set scopes) ∅ targets;
  let update_exprs := imap (update_expr set_exprs) (columns_ (t_schema_ info)) in
  predicate ← bind_where scopes where_clause;
  Ok (UpdatePlanNode CountSchema (scan_of info predicate) (t_oid_ info) update_exprs).

Definition unsupported (stmt : PGStmt) : res AbstractPlanNode :=
  Throw (RuntimeError ("Unsupported statement type: " +:+ pretty (stmt_type stmt))).

Definition BindStatement (stmt : PGStmt) : res AbstractPlanNode :=
  match stmt with
  | PGIndexStmt relation idxname indexParams => BindIndex relation idxname indexParams
  | PGDropStmt removes_index objects missing_ok =>
      if removes_index then BindDrop objects missing_ok else unsupported stmt
  | PGVariableShowStmt set relation =>
      o ← BindShow set relation; match o with Some plan => Ok plan | None => unsupported stmt end
  | PGSelectStmt select => BindSelect select
  | PGInsertStmt relation selectStmt => BindInsert relation selectStmt
  | PGDeleteStmt relation where_clause => BindDelete relation where_clause
  | PGUpdateStmt relation targets where_clause => BindUpdate relation targets where_clause
  | PGOtherStmt _ => unsupported stmt
  end.

(** Only the first statement of the text is looked at. *)
Definition BindQuery (Parse : string → PGParseResult) (sql : string) : res AbstractPlanNode :=
  match Parse sql with
  | ParseError error_message => Throw (RuntimeError ("Parse error: " +:+ error_message))
  | ParseTree [] => Throw (RuntimeError "Empty parse tree")
  | ParseTree (stmt :: _) => BindStatement stmt
  end.
End Statements.
End Binder.

(** ** Bound expressions refer to columns of their scopes *)

Lemma PGNode_rec_args (P : PGNode → Prop) :
  (∀ name l r, P l → P r → P (PGAExpr name l r)) →
  (∀ op args, Forall P args → P (PGBoolExpr op args)) →
  (∀ n, (match n with PGAExpr _ _ _ | PGBoolExpr _ _ => False | _ => True end) → P n) → ∀ n, P n.
Proof.
  intros HA HB HO. fix IH 1. intros n. destruct n as [| | | | | | | | |name l r|op args| | | | | |]; try (apply HO; exact I).
  - apply HA; apply IH.
  - apply HB. induction args as [|a args IHargs]; constructor; [apply IH|exact IHargs].
Qed.

Definition in_scope (scopes : list TableScope) (tuple_idx col_idx : Z) (type : TypeId) : Prop :=
  ∃ scope col, scope ∈ scopes ∧ sc_tuple_idx scope = tuple_idx ∧ 0 ≤ col_idx ∧
    columns_ (t_schema_ (sc_info scope)) !! Z.to_nat col_idx = Some col ∧ col_type col = type.

Fixpoint bound_in (scopes : list TableScope) (e : AbstractExpression) : Prop :=
  match e with
  | NullExpression | ConstantValueExpression _ => True
  | ColumnValueExpression t c ty => in_scope scopes t c ty
  | ComparisonExpression l r _ | ArithmeticExpression l r _ | LogicExpression l r _ => bound_in scopes l ∧ bound_in scopes r
  end.

Lemma find_column_ok name cols : ∀ i j ty, 0 ≤ i → find_column i name cols = Some (j, ty) →
  i ≤ j ∧ ∃ col, cols !! Z.to_nat (j - i) = Some col ∧ col_type col = ty ∧ Tuple.col_name col = name.
Proof.
  induction cols as [|col cols IH]; intros i j ty Hi; simpl; [done|]. case_bool_decide as E.
  - intros [= <- <-]. split; [lia|]. exists col. by rewrite Z.sub_diag.
  - intros H. apply IH in H as (Hle & col' & Hc & ?); [|lia]. split; [lia|]. exists col'. split; [|done].
    replace (Z.to_nat (j - i)) with (S (Z.to_nat (j - (i + 1)))) by lia. done.
Qed.

Lemma ResolveColumn_ok name q scopes t c ty : ResolveColumn name q scopes = Ok (t, c, ty) → in_scope scopes t c ty.
Proof.
  induction scopes as [|scope scopes IH]; simpl; [done|]. intros H.
  assert (in_scope scopes t c ty → in_scope (scope :: scopes) t c ty) as Hlater.
  { intros (s & col & Hs & ?). exists s, col. by split; [right|]. }
  case_bool_decide; [by apply Hlater, IH|].
  destruct (find_column 0 name _) as [[i ty']|] eqn:E; [|by apply Hlater, IH].
  injection H as <- <- <-. apply find_column_ok in E as (Hle & col & Hc & Hty & _); [|done].
  exists scope, col. rewrite Z.sub_0_r in Hc. by split_and!; [left|..].
Qed.

Lemma column_value_bound name q scopes e : column_value name q scopes = Ok e → bound_in scopes e.
Proof.
  unfold column_value. destruct (ResolveColumn name q scopes) as [[[t c] ty]| | |] eqn:E; intros [= <-].
  by eapply ResolveColumn_ok.
Qed.

Lemma BindColumnRef_bound fields scopes e : BindColumnRef fields scopes = Ok e → bound_in scopes e.
Proof.
  intros H. unfold BindColumnRef in H.
  repeat match type of H with
  | context [match ?x with _ => _ end] => destruct x eqn:?; try discriminate H
  | _ = Ok _ => progress (unfold mbind, res_bind in H)
  end; try (injection H as <-; exact I); by eapply column_value_bound.
Qed.

Lemma bind_operator_bound scopes op l r e : bind_operator op l r = Ok e → bound_in scopes l → bound_in scopes r → bound_in scopes e.
Proof.
  unfold bind_operator. intros H Hl Hr.
  repeat match type of H with (if ?b then _ else _) = _ => destruct b; [injection H as <-; by split|] end.
  discriminate H.
Qed.

Lemma bind_args_bound stof scopes t args :
  Forall (λ n, ∀ e, BindExpression stof scopes n = Ok e → bound_in scopes e) args →
  ∀ acc e, bound_in scopes acc → bind_args (BindExpression stof scopes) t acc args = Ok e → bound_in scopes e.
Proof.
  induction 1 as [|a args Ha _ IH]; intros acc e Hacc; simpl; [by intros [= <-]|].
  intros H. destruct (BindExpression stof scopes a) as [r| | |] eqn:E; simplify_eq/=. eapply IH; [|exact H]. split; eauto.
Qed.

Lemma BindExpression_bound stof scopes : ∀ n e, BindExpression stof scopes n = Ok e → bound_in scopes e.
Proof.
  induction n as [name l r IHl IHr|op args IH|n Hn] using PGNode_rec_args; intros e.
  - cbn [BindExpression]. intros H. res_inv H. by eapply bind_operator_bound; eauto.
  - assert (∀ t, bind_chain (BindExpression stof scopes) t args = Ok e → bound_in scopes e) as Hc.
    { intros t. destruct IH as [|a args Ha IH]; simpl; [done|]. intros H.
      destruct (BindExpression stof scopes a) as [r| | |] eqn:E; simplify_eq/=. by eapply bind_args_bound; eauto. }
    by destruct op; simpl; [apply Hc..|].
  - destruct n as [| | | | | | | fields|[]| | | | | | | |]; try done; try (by intros [= <-]);
      cbn [BindExpression BindConstant]; intros H; try (by eapply BindColumnRef_bound); res_inv H; by simplify_eq/=.
Qed.

(** ** Types: evaluation respects the type the binder computed *)

Lemma compare_boolean t l r v : PerformComparison t l r = Ok v → type_id_ v = BOOLEAN.
Proof.
  destruct t; simpl; unfold CompareEquals, CompareNotEquals, CompareLessThan, CompareLessThanOrEqual, CompareGreaterThan,
    CompareGreaterThanOrEqual, assert, bad_compare, bool_value; destruct (same_type l r); try done; simpl;
    destruct (type_id_ l); try done; by intros [= <-].
Qed.

Lemma compute_type t l r v : PerformComputation t l r = Ok v → type_id_ v = type_id_ l.
Proof.
  destruct t; simpl; unfold Add, Subtract, Multiply, Divide, Modulo, assert, int_value; destruct (same_type l r); try done; simpl;
    destruct (type_id_ l); try done; intros H; res_inv H; by simplify_eq/=.
Qed.

Lemma logic_boolean t l r v : PerformLogic t l r = Ok v → type_id_ v = BOOLEAN.
Proof.
  destruct t; simpl; unfold And, Or, assert, bool_value; destruct (has_type BOOLEAN l && has_type BOOLEAN r); try done; intros H; res_inv H; by simplify_eq/=.
Qed.

(** A way to read columns gives values of the types the scopes declare. *)
Definition reads_typed (scopes : list TableScope) (column : Z → Z → res Value) : Prop :=
  ∀ t c ty v, in_scope scopes t c ty → column t c = Ok v → type_id_ v = ty.

Lemma eval_typed scopes column e v : reads_typed scopes column → bound_in scopes e → eval column e = Ok v → type_id_ v = GetReturnType e.
Proof.
  intros Hread. revert v. induction e as [|t c ty|w|l IHl r IHr ct|l IHl r IHr ct|l IHl r IHr ct]; intros v; simpl.
  - done.
  - intros Hb. by apply Hread.
  - intros _ H. by injection H as ->.
  - intros _ H. res_inv H. by eapply compare_boolean.
  - intros [Hl Hr] H. destruct (eval column l) as [lv| | |] eqn:El; try done. destruct (eval column r) as [rv| | |]; try done.
    simpl in H. rewrite (compute_type _ _ _ _ H). by apply IHl.
  - intros _ H. res_inv H. by eapply logic_boolean.
Qed.

(** The columns a schema declares are what a tuple gives. *)
Definition typed (schema : Schema) (t : Tuple) : Prop :=
  ∀ i col v, columns_ schema !! i = Some col → GetValueBy t schema (Z.of_nat i) = Ok v → type_id_ v = col_type col.

Lemma deserialized_type data off t v : DeserializeFrom data off t = Ok v → type_id_ v = t.
Proof. destruct t; simpl; intros H; res_inv H; by simplify_eq/=. Qed.

Lemma stored_typed schema r b : typed schema (mkTuple r b []).
Proof.
  intros i col v Hc. unfold GetValueBy, GetColumn. simpl. rewrite (arr_get_ok _ i col) by done. simpl. apply deserialized_type.
Qed.

(** The values at hand have the types of the columns; the others are read as declared. *)
Lemma valued_typed schema t :
  (∀ i v col, values_ t !! i = Some v → columns_ schema !! i = Some col → type_id_ v = col_type col) → typed schema t.
Proof.
  intros Hv i col v Hc. unfold GetValueBy. rewrite Nat2Z.id. destruct (values_ t !! i) as [w|] eqn:E.
  - intros [= <-]. by eapply Hv.
  - unfold GetColumn. rewrite (arr_get_ok _ i col) by done. simpl. apply deserialized_type.
Qed.

Lemma mapR_lookup {A B} (f : A → res B) l ys i y : mapR f l = Ok ys → ys !! i = Some y → ∃ x, l !! i = Some x ∧ f x = Ok y.
Proof. intros H%mapR_Forall2 Hy. destruct (Forall2_lookup_r _ _ _ _ _ H Hy) as (x & ? & ?). eauto. Qed.

Lemma row_values_typed schema t vs i v col : typed schema t → row_values schema t = Ok vs →
  vs !! i = Some v → columns_ schema !! i = Some col → type_id_ v = col_type col.
Proof.
  intros Ht Hvs Hv Hc. unfold row_values in Hvs. destruct (mapR_lookup _ _ _ _ _ Hvs Hv) as (j & Hj & Hval).
  apply lookup_seq in Hj as [-> _]. by eapply Ht.
Qed.

Lemma Tuple_new_values vs t : Tuple_new vs = Ok t → values_ t = vs.
Proof. unfold Tuple_new. intros H. res_inv H. by simplify_eq. Qed.

Lemma copied_typed schema t vs t' : typed schema t → row_values schema t = Ok vs → Tuple_new vs = Ok t' → typed schema t'.
Proof.
  intros Ht Hvs Hn. apply valued_typed. intros i v col. rewrite (Tuple_new_values _ _ Hn). by eapply row_values_typed.
Qed.

Definition all_typed (schema : Schema) (rows : list Row) : Prop := Forall (λ row : Row, typed schema row.1) rows.

Lemma scan_rows_typed schema p es : ∀ rows, scan_rows schema p es = Ok rows → all_typed schema rows.
Proof.
  induction es as [|e es IH]; intros rows H; [by injection H as <-; constructor|].
  apply selectM_cons in H as (o & rest & Ho & Hrest & ->). specialize (IH rest Hrest). unfold scan_row in Ho. res_inv Ho; simplify_eq; [|done].
  constructor; [|done]. by eapply copied_typed; [apply stored_typed|done..].
Qed.

(** *** The query a single-table SELECT is *)

(** The target is a call of COUNT, SUM, MIN or MAX. *)
Definition calls_aggregate (target : PGNode) : bool :=
  match target with
  | PGResTarget _ (PGFuncCall funcname _ _) =>
      match GetFuncName funcname with Ok f => bool_decide (is_Some (aggregation_of f)) | _ => false end
  | _ => false
  end.

Definition plain (scopes : list TableScope) (t : Targets) : Prop := agg_calls t = [] ∧ Forall (bound_in scopes) (output_exprs t).

Lemma bind_output_plain stof scopes t name val t' : bind_output stof scopes t name val = Ok t' → plain scopes t → plain scopes t'.
Proof.
  unfold bind_output. intros H [Ha He]. destruct (BindExpression stof scopes val) as [e| | |] eqn:E; try done. simpl in H.
  destruct (output_name _ _ _); simplify_eq/=. split; [done|]. apply Forall_app_2; [done|]. constructor; [|done].
  by eapply BindExpression_bound.
Qed.

Lemma bind_target_plain stof scopes t target t' :
  bind_target stof scopes t target = Ok t' → calls_aggregate target = false → plain scopes t → plain scopes t'.
Proof.
  destruct target as [| | | | | | | | | | | | |name val| | |]; try done.
  destruct val; cbn [bind_target calls_aggregate]; try (by intros [= <-]); try (intros H _; by eapply bind_output_plain).
  - intros H _. destruct (linitial fields) as [[]| | |]; simplify_eq/=; try done; by eapply bind_output_plain.
  - destruct (GetFuncName funcname) as [f| | |]; try done. simpl. rewrite bool_decide_eq_false. destruct (aggregation_of f).
    + intros _ []. by eexists.
    + intros H _. by eapply bind_output_plain.
Qed.

Lemma bind_targets_plain stof scopes targets : Forall (λ n, calls_aggregate n = false) targets →
  ∀ t t', foldR (bind_target stof scopes) t targets = Ok t' → plain scopes t → plain scopes t'.
Proof.
  induction 1 as [|n targets Hn _ IH]; intros t t'; simpl; [by intros [= <-]|].
  intros H Hp. destruct (bind_target stof scopes t n) as [t1| | |] eqn:E; try done. eapply IH; [exact H|].
  by eapply bind_target_plain.
Qed.

Lemma Schema_new_types cols : col_type <$> columns_ (Schema_new cols) = col_type <$> cols.
Proof.
  assert (∀ off, col_type <$> (assign_offsets off cols).1 = col_type <$> cols) as H.
  { induction cols as [|c cols IH]; intros off; [done|]. rewrite assign_offsets_cons. cbn [fmap list_fmap]. by rewrite IH. }
  unfold Schema_new. destruct (assign_offsets 0 cols) as [cs total] eqn:E. simpl. specialize (H 0). by rewrite E in H.
Qed.

Lemma column_type name type : col_type (column name type) = type.
Proof. unfold column, Column_new. by destruct (decide _). Qed.

Lemma Evaluate_typed alias t idx e tup v : typed (t_schema_ t) tup → bound_in [mkScope alias t idx] e →
  Evaluate e (Some tup) (t_schema_ t) = Ok v → type_id_ v = GetReturnType e.
Proof.
  intros Ht. apply eval_typed. intros ti c ty w (scope & col & ->%list_elem_of_singleton & _ & Hc & Hcol & <-) Hw.
  apply (Ht (Z.to_nat c) col); [exact Hcol|]. by rewrite Z2Nat.id.
Qed.

Section SelectTypes.
Context {HO : HashOrder} {SS : StdSort} (fmt_2f : Z → string) (stof : string → res Z).
Context (std_sort_permutes : ∀ comp (l l' : list Tuple), std_sort comp l = Ok l' → l' ≡ₚ l).
Context (c : Catalog) (records : Z → list (RID * bytes)) (consistent : catalog_ok c).
Abbreviation query := (query_rows fmt_2f c records).

(** A plan whose rows have the types of the table's columns. *)
Definition rows_of_type (schema : Schema) (plan : AbstractPlanNode) : Prop :=
  plan_schema plan = schema ∧ ∀ rows, query plan = Ok rows → all_typed schema rows.

Lemma GetTable_tables name t : GetTable name c = Ok (Some t) → tables_ c !! t_oid_ t = Some t.
Proof.
  unfold GetTable. intros H. destruct (table_names_ c !! name) as [oid|]; [|done]. unfold map_at in H.
  destruct (tables_ c !! oid) as [t'|] eqn:E; simplify_eq/=. by destruct (co_table _ consistent _ _ E) as (-> & _).
Qed.

Lemma table_named_tables name t : table_named c name = Ok t → tables_ c !! t_oid_ t = Some t.
Proof.
  unfold table_named. intros H. destruct (GetTable name c) as [[t'|]| | |] eqn:E; simplify_eq/=. by eapply GetTable_tables.
Qed.

Lemma scan_of_typed t p : tables_ c !! t_oid_ t = Some t → rows_of_type (t_schema_ t) (scan_of t p).
Proof.
  intros Ht. split; [done|]. intros rows. simpl. unfold table_rows. rewrite Ht. apply scan_rows_typed.
Qed.

Lemma select_from_single rv r : select_from stof c [PGRange rv] = Ok r →
  ∃ a t, r = ([mkScope a t 0], scan_of t None) ∧ tables_ c !! t_oid_ t = Some t.
Proof.
  unfold select_from. cbn [foldR bind_from fr_scopes fr_plans fr_base]. unfold scope_of. intros H.
  destruct (c_str (relname rv)) as [name| | |]; simplify_eq/=. destruct (table_named c name) as [t| | |] eqn:E; simplify_eq/=.
  eexists _, t. split; [done|]. by eapply table_named_tables.
Qed.

Lemma select_where_single a t clause plan : tables_ c !! t_oid_ t = Some t →
  select_where stof [mkScope a t 0] clause (scan_of t None) = Ok plan → rows_of_type (t_schema_ t) plan ∧ plan ≠ NullPlanNode.
Proof.
  intros Ht H. assert (∃ p, plan = scan_of t p) as [p ->]; [|by split; [apply scan_of_typed|]].
  unfold select_where in H. destruct clause; [by injection H as <-; eexists|..]; res_inv H; simplify_eq; by eexists.
Qed.

Lemma select_order_typed scopes sort schema base plan :
  rows_of_type schema base → select_order stof scopes sort base = Ok plan → rows_of_type schema plan.
Proof.
  intros Hb H. unfold select_order in H. destruct sort as [|n sort]; [by injection H as <-|].
  destruct (mapR _ _) as [obs| | |]; simplify_eq/=. destruct (not_null base) as [base'| | |] eqn:E; simplify_eq/=.
  assert (base' = base) as -> by (by destruct base; simplify_eq/=). destruct Hb as [Hs Hb].
  split; [done|]. intros rows Hq. simpl in Hq. destruct (query base) as [brows| | |]; simplify_eq/=.
  destruct (std_sort _ brows.*1) as [sorted| | |] eqn:Es; simplify_eq/=. apply std_sort_permutes in Es.
  specialize (Hb _ eq_refl). apply Forall_fmap. rewrite Es. by apply Forall_fmap.
Qed.

Lemma select_limit_typed limit schema base plan :
  rows_of_type schema base → select_limit limit base = Ok plan → rows_of_type schema plan.
Proof.
  intros Hb H. assert (plan = base ∨ ∃ n, plan = LimitPlanNode (plan_schema base) base n) as [->|[n ->]]; [|done|].
  { unfold select_limit in H. destruct limit as [| | | | | | | |[]| | | | | | | |]; try done; [left; by injection H|].
    destruct (not_null base) as [b| | |] eqn:E; simplify_eq/=. right. eexists. by destruct base; simplify_eq/=. }
  destruct Hb as [Hs Hb]. split; [done|]. intros rows Hq. simpl in Hq. destruct (query base) as [brows| | |]; simplify_eq/=.
  apply Forall_take. by apply Hb.
Qed.

Lemma project_typed a t exprs names rows out cols : all_typed (t_schema_ t) rows → Forall (bound_in [mkScope a t 0]) exprs →
  mapR (λ '(name, e), output_column name e) (zip names exprs) = Ok cols →
  mapR (project_row exprs (t_schema_ t)) rows = Ok out → all_typed (Schema_new cols) out.
Proof.
  intros Hrows Hb Hcols Hout. apply mapR_Forall2 in Hout. apply Forall_forall. intros row Hin.
  apply list_elem_of_lookup in Hin as [k Hk]. destruct (Forall2_lookup_r _ _ _ _ _ Hout Hk) as (src & Hsrc & Hp).
  pose proof (Forall_lookup_1 _ _ _ _ Hrows Hsrc) as Ht. unfold project_row in Hp.
  destruct (mapR _ exprs) as [vs| | |] eqn:Ev; simplify_eq/=. destruct (Tuple_new vs) as [tup| | |] eqn:En; simplify_eq/=.
  apply valued_typed. intros i v col. rewrite (Tuple_new_values _ _ En). intros Hv Hcol.
  destruct (mapR_lookup _ _ _ _ _ Ev Hv) as (e & He & Heval).
  assert (col_type <$> columns_ (Schema_new cols) !! i = col_type <$> cols !! i) as Hty
    by (by rewrite <- !list_lookup_fmap, Schema_new_types).
  rewrite Hcol in Hty. destruct (cols !! i) as [col'|] eqn:Ec; [|done]. injection Hty as ->.
  destruct (mapR_lookup _ _ _ _ _ Hcols Ec) as ([name e'] & Hz & Hoc).
  apply lookup_zip_Some in Hz as [_ He']. rewrite He in He'. injection He' as <-.
  assert (col_type col' = GetReturnType e) as ->.
  { unfold output_column in Hoc. destruct e; [done|injection Hoc as <-; apply column_type..]. }
  eapply Evaluate_typed; [exact Ht| |exact Heval]. by eapply Forall_lookup_1.
Qed.

(** C24: types are respected from the text to the answer.  A SELECT from one table
    without aggregates, however it filters, sorts, limits and projects, answers
    tuples whose values have exactly the types of the plan's output schema, whatever
    the bytes of the table hold.  ([std::sort] permutes: the only hypothesis on it.) *)
Theorem select_answers_typed select rv plan result :
  fromClause select = [PGRange rv] → Forall (λ n, calls_aggregate n = false) (targetList select) →
  BindSelect stof c select = Ok plan → Z.of_nat (length (columns_ (plan_schema plan))) < 2 ^ 32 →
  query_result fmt_2f c records plan = Ok result →
  Forall (λ t, type_id_ <$> values_ t = col_type <$> columns_ (plan_schema plan)) result.
Proof.
  intros Hfrom Hagg Hbind Hcount Hres.
  assert (∃ rows, query plan = Ok rows ∧ all_typed (plan_schema plan) rows) as (rows & Hrows & Htyped).
  { unfold query_result in Hres. destruct (query plan) as [rows| | |] eqn:Hq; simplify_eq/=. exists rows. split; [done|].
    unfold BindSelect in Hbind. rewrite Hfrom in Hbind. destruct (select_from _ _ _) as [r| | |] eqn:E1; simplify_eq/=.
    destruct (select_from_single _ _ E1) as (a & t & -> & Ht).
    destruct (select_where _ _ _ _) as [p2| | |] eqn:E2; simplify_eq/=. destruct (select_where_single _ _ _ _ Ht E2) as [H2 _].
    destruct (foldR _ _ _) as [targets| | |] eqn:E3; simplify_eq/=.
    destruct (bind_targets_plain stof _ _ Hagg _ _ E3) as [Hno Hexprs]; [by split|].
    assert (has_aggregates targets = false) as Hha by (unfold has_aggregates; by rewrite Hno).
    unfold select_aggregates in Hbind. rewrite Hha in Hbind. simpl in Hbind.
    destruct (select_order _ _ _ p2) as [p4| | |] eqn:E4; simplify_eq/=. pose proof (select_order_typed _ _ _ _ _ H2 E4) as H4.
    destruct (select_limit _ p4) as [p5| | |] eqn:E5; simplify_eq/=. destruct (select_limit_typed _ _ _ _ H4 E5) as [Hs5 H5].
    unfold select_projection in Hbind. destruct (_ && _ && _) eqn:Ep; [|simplify_eq; rewrite Hs5; by apply H5].
    destruct (mapR _ _) as [cols| | |] eqn:E6; simplify_eq/=. destruct (query p5) as [brows| | |]; simplify_eq/=.
    rewrite Hs5 in Hq. by eapply project_typed; eauto. }
  unfold query_result in Hres. rewrite Hrows in Hres. simpl in Hres. apply mapR_Forall2 in Hres.
  apply Forall_forall. intros tup Hin. apply list_elem_of_lookup in Hin as [k Hk].
  destruct (Forall2_lookup_r _ _ _ _ _ Hres Hk) as (row & Hrow & Hr).
  pose proof (Forall_lookup_1 _ _ _ _ Htyped Hrow) as Ht. unfold result_tuple in Hr.
  destruct (row_values _ _) as [vs| | |] eqn:Ev; simplify_eq/=. rewrite (Tuple_new_values _ _ Hr).
  assert (length vs = length (columns_ (plan_schema plan))) as Hlen.
  { pose proof (Forall2_length _ _ _ (proj1 (mapR_Forall2 _ _ _) Ev)) as Hl. rewrite length_seq in Hl. rewrite <- Hl.
    unfold GetColumnCount, u32. rewrite Z.mod_small by lia. lia. }
  apply list_eq. intros i. rewrite !list_lookup_fmap. destruct (vs !! i) as [v|] eqn:Hv.
  - destruct (lookup_lt_is_Some_2 (columns_ (plan_schema plan)) i) as [col Hcol].
    { rewrite <- Hlen. by eapply lookup_lt_Some. }
    rewrite Hcol. simpl. f_equal. by eapply row_values_typed.
  - rewrite lookup_ge_None_2; [done|]. rewrite <- Hlen. by apply lookup_ge_None_1.
Qed.
End SelectTypes.

(** ** Witnesses *)

(** [insertion_sort] permutes, whatever the comparison. *)
Lemma insertion_sort_permutes {A} (comp : A → A → res bool) l : ∀ l', insertion_sort comp l = Ok l' → l' ≡ₚ l.
Proof.
  assert (∀ (x : A) l l', insert_sorted comp x l = Ok l' → l' ≡ₚ x :: l) as Hins.
  { intros x l1. induction l1 as [|y l1 IH]; intros l'; simpl; [by intros [= <-]|]. intros H.
    destruct (comp y x) as [[]| | |]; simplify_eq/=; [|done].
    destruct (insert_sorted comp x l1) as [l2| | |]; simplify_eq/=. rewrite (IH l2 eq_refl). constructor. }
  induction l as [|x l IH]; intros l'; simpl; [by intros [= <-]|]. intros H.
  destruct (insertion_sort comp l) as [l1| | |]; simplify_eq/=. rewrite (Hins _ _ _ H). by rewrite (IH l1 eq_refl).
Qed.

Definition no_floats (text : string) : res Z := Ok 0.
Definition col_ref (name : string) : PGNode := PGColumnRef [PGString name].
Definition int_const (z : Z) : PGNode := PGAConst (PGInteger z).
Definition op_expr (op : string) (l r : PGNode) : PGNode := PGAExpr [PGString op] l r.
Definition from_table (name : string) : PGNode := PGRange (mkRangeVar (Some name) None).

(** SELECT a + 1 AS w FROM t WHERE a > 3 ORDER BY a DESC LIMIT 2 *)
Definition demo_select : PGSelect :=
  mkSelect [PGResTarget (Some "w") (op_expr "+" (col_ref "a") (int_const 1))] [from_table "t"]
    (op_expr ">" (col_ref "a") (int_const 3)) [] [PGSortBy (col_ref "a") true] (int_const 2) [].
Definition demo_select_plan : AbstractPlanNode :=
  match BindSelect no_floats int_catalog demo_select with Ok plan => plan | _ => NullPlanNode end.

Lemma select_answers_typed_witness :
  let result := match query_result (HO := listed_order) (SS := insertion_std_sort) (λ _, "") int_catalog demo_records demo_select_plan with
    | Ok ts => ts | _ => [] end in
  values_ <$> result = [[Value_int INTEGER 10]; [Value_int INTEGER 8]] ∧
  Forall (λ t, type_id_ <$> values_ t = col_type <$> columns_ (plan_schema demo_select_plan)) result.
Proof.
  intros result. split; [vm_compute; reflexivity|].
  apply (select_answers_typed (HO := listed_order) (SS := insertion_std_sort) (λ _, "") no_floats
    (λ comp l l', insertion_sort_permutes comp l l') int_catalog demo_records int_catalog_ok demo_select (mkRangeVar (Some "t") None)).
  - reflexivity.
  - repeat constructor.
  - reflexivity.
  - vm_compute. reflexivity.
  - vm_compute. reflexivity.
Defined.

(** ** A projection over a join reads the left table *)

Definition two_schema : Schema := Schema_new [column "w" INTEGER; column "k" INTEGER].
Definition two_tables : Catalog :=
  mkCatalog 3 1 {[1 := int_table; 2 := mkTableInfo two_schema "b" 4 2]} {["t" := 1; "b" := 2]} ∅ ∅.
Definition stored (r : RID) (vs : list Z) : RID * bytes :=
  (r, match Tuple_new (Value_int INTEGER <$> vs) with Ok t => Tuple.data_ t | _ => [] end).
Definition two_records (oid : Z) : list (RID * bytes) :=
  if oid =? 1 then [stored (mkRID 0 0) [1]; stored (mkRID 0 1) [2]]
  else [stored (mkRID 4 0) [10; 1]; stored (mkRID 4 1) [20; 2]].
(** SELECT b.w FROM t JOIN b ON t.a = b.k, and SELECT * from the same join. *)
Definition join_select (targets : list PGNode) : PGSelect :=
  mkSelect targets
    [PGJoinExpr (from_table "t") (from_table "b")
       (op_expr "=" (PGColumnRef [PGString "t"; PGString "a"]) (PGColumnRef [PGString "b"; PGString "k"]))]
    PGNull [] [] PGNull [].
Definition answer (select : PGSelect) : res (list string * list (list Value)) :=
  plan ← BindSelect no_floats two_tables select;
  ts ← query_result (HO := listed_order) (SS := insertion_std_sort) (λ _, "") two_tables two_records plan;
  Ok (Tuple.col_name <$> columns_ (plan_schema plan), values_ <$> (ts : list Tuple)).

(** A column of the right table of a join is bound to its index in that table, and
    a projection reads that index of the joined row: SELECT b.w FROM t JOIN b ON
    t.a = b.k answers the column [a] of [t] (1 and 2) under the name [w], although the
    joined rows hold 10 and 20. *)
Theorem projection_over_join_reads_left :
  answer (join_select [PGResTarget None PGAStar]) =
    Ok (["a"; "w"; "k"], (λ '(a, w, k), [Value_int INTEGER a; Value_int INTEGER w; Value_int INTEGER k]) <$> [(1, 10, 1); (2, 20, 2)]) ∧
  answer (join_select [PGResTarget None (PGColumnRef [PGString "b"; PGString "w"])]) =
    Ok (["w"], [[Value_int INTEGER 1]; [Value_int INTEGER 2]]).
Proof. split; vm_compute; reflexivity. Qed.

(** DELETE FROM t AS x WHERE x.a = 1: the alias is not in scope. *)
Lemma delete_ignores_alias :
  BindDelete no_floats two_tables (mkRangeVar (Some "t") (Some "x")) (op_expr "=" (PGColumnRef [PGString "x"; PGString "a"]) (int_const 1)) =
    Throw (RuntimeError "Column not found: x.a").
Proof. vm_compute. reflexivity. Qed.

(** UPDATE t SET missing = 1: the assignment is ignored, not refused. *)
Lemma update_ignores_missing_column :
  BindUpdate no_floats two_tables (mkRangeVar (Some "t") None) [PGResTarget (Some "missing") (int_const 1)] PGNull =
    BindUpdate no_floats two_tables (mkRangeVar (Some "t") None) [] PGNull.
Proof. vm_compute. reflexivity. Qed.
