(* ===== verification/Meaning.v ===== *)
(** * What expressions mean

    A reference semantics of the expressions the binder accepts, on rows with named
    columns and without plans, column indices or tuples, and the proof that what the
    binder makes of a parse tree evaluates to its meaning. *)

From Stdlib Require Import Floats.SpecFloat.
From S2P Require Import Prelude Common Value Tuple Expression PageStore PageIO PageLogic TablePage TableHeap Catalog Executor.
From S2P Require Import Operators Binder.

(** ** Data *)

(** A value without its representation; a float is its bit pattern. *)
Inductive datum := DBool (b : bool) | DInt (z : Z) | DFloat (bits : Z) | DString (s : string).

Definition datum_of (v : Value) : option datum :=
  match type_id_ v with
  | BOOLEAN => Some (DBool (boolean_ v))
  | INTEGER => Some (DInt (integer_ v))
  | FLOAT => Some (DFloat (float_ v))
  | VARCHAR => Some (DString (varchar_ v))
  | INVALID => None
  end.
Definition outcome (r : res Value) : option datum := match r with Ok v => datum_of v | _ => None end.

(** Two floats compare to nothing when one is not a number. *)
Definition compare_data (a b : datum) : option (option comparison) :=
  match a, b with
  | DInt x, DInt y => Some (Some (x ?= y))
  | DFloat x, DFloat y => Some (SFcompare (b32_of_bits x) (b32_of_bits y))
  | DString x, DString y => Some (Some (String.compare x y))
  | _, _ => None
  end.
Definition ordered (test : comparison → bool) (a b : datum) : option datum :=
  c ← compare_data a b; Some (DBool (from_option test false c)).
Definition same_data (a b : datum) : option bool :=
  match a, b with
  | DBool x, DBool y => Some (Bool.eqb x y)
  | _, _ => from_option is_eq false <$> compare_data a b
  end.

Definition int_datum (z : Z) : option datum := if in_i32 z then Some (DInt z) else None.
Definition int_operator (op : string) (x y : Z) : option datum :=
  if bool_decide (op = "+") then int_datum (x + y)
  else if bool_decide (op = "-") then int_datum (x - y)
  else if bool_decide (op = "*") then int_datum (x * y)
  else if y =? 0 then None
  else if bool_decide (op = "/") then int_datum (Z.quot x y)
  else if bool_decide (op = "%") then (if in_i32 (Z.quot x y) then Some (DInt (Z.rem x y)) else None)
  else None.
Definition float_operator (op : string) (x y : Z) : option datum :=
  if bool_decide (op = "+") then Some (DFloat (float_add x y))
  else if bool_decide (op = "-") then Some (DFloat (float_sub x y))
  else if bool_decide (op = "*") then Some (DFloat (float_mul x y))
  else if bool_decide (op = "/") then (if float_eqb y 0 then None else Some (DFloat (float_div x y)))
  else None.

Definition number_operator (op : string) (a b : datum) : option datum :=
  match a, b with
  | DInt x, DInt y => int_operator op x y
  | DFloat x, DFloat y => float_operator op x y
  | _, _ => None
  end.

Definition apply_operator (op : string) (a b : datum) : option datum :=
  if bool_decide (op = "=") then DBool <$> same_data a b
  else if bool_decide (op = "<>" ∨ op = "!=") then DBool ∘ negb <$> same_data a b
  else if bool_decide (op = "<") then ordered is_lt a b
  else if bool_decide (op = "<=") then ordered (negb ∘ is_gt) a b
  else if bool_decide (op = ">") then ordered is_gt a b
  else if bool_decide (op = ">=") then ordered (negb ∘ is_lt) a b
  else number_operator op a b.

Definition as_bool (d : datum) : option bool := match d with DBool b => Some b | _ => None end.
(** AND and OR of several arguments. *)
Definition chain (conjunction : bool) (ds : list datum) : option datum :=
  match ds with
  | [] => None
  | [d] => Some d
  | _ => bs ← mapM as_bool ds; Some (DBool (if conjunction then forallb id bs else existsb id bs))
  end.

(** ** Rows with named columns *)

(** A row of one table in the FROM clause; a column may not be readable. *)
Record source := mkSource { src_name : string; src_columns : list (string * option datum) }.
Abbreviation env := (list source).

Fixpoint named (name : string) (columns : list (string * option datum)) : option (option datum) :=
  match columns with
  | [] => None
  | (n, d) :: columns => if bool_decide (n = name) then Some d else named name columns
  end.
(** The first column of that name, in the tables the qualifier allows. *)
Fixpoint column_in (ρ : env) (qualifier name : string) : option (option datum) :=
  match ρ with
  | [] => None
  | s :: ρ =>
      if bool_decide (qualifier = "" ∨ qualifier = src_name s) then
        match named name (src_columns s) with Some d => Some d | None => column_in ρ qualifier name end
      else column_in ρ qualifier name
  end.

(** The qualifier and the name of a column reference; that of a star is nothing.  A
    reference the parser does not make asks for the column whose name is empty. *)
Definition column_name (fields : list PGNode) : option (string * string) :=
  match fields with
  | [PGNull] => None
  | [PGString s] => Some ("", s)
  | [PGAStar] => None
  | [PGString q; second] | [PGFloat q; second] =>
      match second with PGString s | PGFloat s => Some (q, s) | _ => None end
  | [_; _] => None
  | _ => Some ("", "")
  end.

Definition operator_name (name : list PGNode) : option string :=
  match name with PGString s :: _ | PGFloat s :: _ => Some s | _ => None end.

(** ** Expressions *)

Section Meaning.
Context (stof : string → res Z).

Definition constant (val : PGNode) : option datum :=
  match val with
  | PGInteger ival => Some (DInt (i32 ival))
  | PGFloat s => match stof s with Ok f => Some (DFloat f) | _ => None end
  | PGString s => Some (DString s)
  | _ => None
  end.

Fixpoint meaning (ρ : env) (node : PGNode) : option datum :=
  match node with
  | PGColumnRef fields => '(q, name) ← column_name fields; d ← column_in ρ q name; d
  | PGAConst val => constant val
  | PGAExpr name l r => a ← meaning ρ l; b ← meaning ρ r; op ← operator_name name; apply_operator op a b
  | PGBoolExpr op args =>
      ds ← (fix all (args : list PGNode) : option (list datum) :=
        match args with [] => Some [] | a :: args => d ← meaning ρ a; ds ← all args; Some (d :: ds) end) args;
      match op with PG_AND_EXPR => chain true ds | PG_OR_EXPR => chain false ds | PG_NOT_EXPR => None end
  | _ => None
  end.

(** A condition that is true or false. *)
Definition truth (ρ : env) (node : PGNode) : option bool := d ← meaning ρ node; as_bool d.

End Meaning.

(** ** What the binder makes of an expression computes its meaning *)

(** The rows of the tables in scope, as a reader of columns gives them. *)
Fixpoint columns_from (read : Z → res Value) (i : Z) (cols : list Column) : list (string * option datum) :=
  match cols with [] => [] | col :: cols => (Tuple.col_name col, outcome (read i)) :: columns_from read (i + 1) cols end.
Definition source_of (alias : string) (read : Z → res Value) (schema : Schema) : source :=
  mkSource alias (columns_from read 0 (columns_ schema)).
Definition env_of (scopes : list TableScope) (read : Z → Z → res Value) : env :=
  (λ s, source_of (sc_alias s) (read (sc_tuple_idx s)) (t_schema_ (sc_info s))) <$> scopes.

Lemma named_find name read cols : ∀ i, named name (columns_from read i cols) =
  match find_column i name cols with Some (j, _) => Some (outcome (read j)) | None => None end.
Proof. induction cols as [|col cols IH]; intros i; simpl; [done|]. case_bool_decide; [done|apply IH]. Qed.

Lemma ResolveColumn_meaning name q read scopes : column_in (env_of scopes read) q name =
  match ResolveColumn name q scopes with Ok (t, c, _) => Some (outcome (read t c)) | _ => None end.
Proof.
  induction scopes as [|s scopes IH]; simpl; [done|]. rewrite named_find, IH.
  destruct (bool_decide (q ≠ "" ∧ q ≠ sc_alias s)) eqn:E.
  - apply bool_decide_eq_true in E as [? ?]. rewrite bool_decide_false by naive_solver. done.
  - apply bool_decide_eq_false in E. rewrite bool_decide_true by (destruct (decide (q = "")); [by left|right; by destruct (decide (q = sc_alias s)); [|naive_solver]]).
    by destruct (find_column 0 name _) as [[j ty]|].
Qed.

(** A computation of two operands and the operation on data. *)
Definition operation (f : Value → Value → res Value) (F : datum → datum → option datum) : Prop :=
  ∀ v w, outcome (f v w) = (a ← datum_of v; b ← datum_of w; F a b).

Lemma operation_outcome f F x y : operation f F →
  outcome (l ← x; r ← y; f l r) = (a ← outcome x; b ← outcome y; F a b).
Proof.
  intros H. destruct x as [v| | |]; try done. destruct y as [w| | |]; simpl; [apply H|by destruct (datum_of v)..].
Qed.

Lemma outcome_bool b : outcome (bool_value b) = Some (DBool b).
Proof. by destruct b. Qed.
Lemma outcome_int m : outcome (int_value (i32_arith m)) = int_datum m.
Proof.
  unfold i32_arith, int_datum. destruct (in_i32 m) eqn:E; [|done]. unfold outcome, datum_of. cbn. by rewrite integer_Value_int.
Qed.

(** The tests of a type as readings of its three-way comparison. *)
Definition reads_order {A} (c : A → A → option comparison) (eqb ltb leb gtb geb : A → A → bool) : Prop :=
  ∀ x y, eqb x y = from_option is_eq false (c x y) ∧ ltb x y = from_option is_lt false (c x y) ∧
    leb x y = from_option (negb ∘ is_gt) false (c x y) ∧ gtb x y = from_option is_gt false (c x y) ∧
    geb x y = from_option (negb ∘ is_lt) false (c x y).

Lemma int_order : reads_order (λ x y, Some (x ?= y)) Z.eqb Z.ltb Z.leb Z.gtb Z.geb.
Proof. intros x y. rewrite Z.eqb_compare. unfold Z.ltb, Z.leb, Z.gtb, Z.geb. by destruct (x ?= y). Qed.
Lemma float_order : reads_order (λ x y, SFcompare (b32_of_bits x) (b32_of_bits y)) float_eqb float_ltb float_leb
  (λ x y, float_ltb y x) (λ x y, float_leb y x).
Proof.
  intros x y. unfold float_eqb, float_ltb, float_leb, SFeqb, SFltb, SFleb. rewrite (SFcompare_swap (b32_of_bits x)).
  by destruct (SFcompare (b32_of_bits x) (b32_of_bits y)) as [[]|].
Qed.
Lemma string_order : reads_order (λ x y, Some (String.compare x y)) String.eqb String.ltb String.leb
  (λ x y, String.ltb y x) (λ x y, String.leb y x).
Proof.
  intros x y. rewrite string_eqb_compare. unfold String.ltb, String.leb. rewrite (String.compare_antisym y).
  by destruct (String.compare x y).
Qed.

(** Both operands of one type, and the operation on data of that type. *)
Ltac by_types v w :=
  unfold assert, same_type, has_type, datum_of; destruct (type_id_ v), (type_id_ w); cbn -[Z.eqb Z.ltb Z.leb Z.gtb Z.geb Z.compare]; try reflexivity;
  rewrite ?bool_decide_true by done; cbn [mbind res_bind]; rewrite ?outcome_bool; try reflexivity.
Ltac by_order v w :=
  destruct (int_order (integer_ v) (integer_ w)) as (I1 & I2 & I3 & I4 & I5),
    (float_order (float_ v) (float_ w)) as (F1 & F2 & F3 & F4 & F5), (string_order (varchar_ v) (varchar_ w)) as (S1 & S2 & S3 & S4 & S5);
  by_types v w; rewrite ?I1, ?I2, ?I3, ?I4, ?I5, ?F1, ?F2, ?F3, ?F4, ?F5, ?S1, ?S2, ?S3, ?S4, ?S5; reflexivity.

Lemma equal_operation : operation CompareEquals (λ a b, DBool <$> same_data a b).
Proof. intros v w. unfold CompareEquals. by_order v w. Qed.
Lemma differ_operation : operation CompareNotEquals (λ a b, DBool ∘ negb <$> same_data a b).
Proof. intros v w. unfold CompareNotEquals. by_order v w. Qed.
Lemma less_operation : operation CompareLessThan (ordered is_lt).
Proof. intros v w. unfold CompareLessThan. by_order v w. Qed.
Lemma at_most_operation : operation CompareLessThanOrEqual (ordered (negb ∘ is_gt)).
Proof. intros v w. unfold CompareLessThanOrEqual. by_order v w. Qed.
Lemma greater_operation : operation CompareGreaterThan (ordered is_gt).
Proof. intros v w. unfold CompareGreaterThan. by_order v w. Qed.
Lemma at_least_operation : operation CompareGreaterThanOrEqual (ordered (negb ∘ is_lt)).
Proof. intros v w. unfold CompareGreaterThanOrEqual. by_order v w. Qed.

Lemma add_operation : operation Add (number_operator "+").
Proof. intros v w. unfold Add. by_types v w. apply outcome_int. Qed.
Lemma subtract_operation : operation Subtract (number_operator "-").
Proof. intros v w. unfold Subtract. by_types v w. apply outcome_int. Qed.
Lemma multiply_operation : operation Multiply (number_operator "*").
Proof. intros v w. unfold Multiply. by_types v w. apply outcome_int. Qed.
Lemma divide_operation : operation Divide (number_operator "/").
Proof.
  intros v w. unfold Divide. by_types v w.
  - unfold int_operator. simpl. destruct (integer_ w =? 0); [done|]. apply outcome_int.
  - unfold float_operator. simpl. by destruct (float_eqb _ _).
Qed.
Lemma modulo_operation : operation Modulo (number_operator "%").
Proof.
  intros v w. unfold Modulo. by_types v w. unfold int_operator. simpl.
  destruct (Z.eqb_spec (integer_ w) 0); [done|]. cbn [negb mbind res_bind]. unfold i32_arith.
  destruct (in_i32 _); [|done]. unfold outcome, datum_of. cbn. rewrite integer_Value_int; [done|].
  apply rem_in_i32; [apply i32_range|done].
Qed.

Lemma operator_meaning read op l r e : bind_operator op l r = Ok e →
  outcome (eval read e) = (a ← outcome (eval read l); b ← outcome (eval read r); apply_operator op a b).
Proof.
  unfold bind_operator, apply_operator. intros H.
  repeat match type of H with (if ?b then _ else _) = _ => let E := fresh "E" in destruct b eqn:E end; try discriminate H;
    injection H as <-; cbn [eval PerformComparison PerformComputation]; apply operation_outcome;
    try match goal with E : bool_decide _ = true |- _ => apply bool_decide_eq_true in E as -> end;
    auto using equal_operation, differ_operation, less_operation, at_most_operation, greater_operation, at_least_operation,
      add_operation, subtract_operation, multiply_operation, divide_operation, modulo_operation.
Qed.
Lemma operator_bound op l r a b d : apply_operator op a b = Some d → ∃ e, bind_operator op l r = Ok e.
Proof.
  unfold bind_operator, apply_operator. intros H. repeat (case_bool_decide; [by eexists|]).
  destruct a, b; try discriminate H; simpl in H; unfold int_operator, float_operator in H;
    repeat (rewrite bool_decide_false in H by done); [destruct (_ =? 0)|]; discriminate H.
Qed.

Lemma logic_operation (t : LogicType) : operation (PerformLogic t)
  (λ a b, x ← as_bool a; y ← as_bool b; Some (DBool (match t with LAnd => x && y | LOr => x || y end))).
Proof. intros v w. destruct t; cbn [PerformLogic]; [unfold And|unfold Or]; by_types v w; cbn [andb mbind res_bind]; apply outcome_bool. Qed.

Lemma mapM_bind {A B C} (f : A → option B) (g : B → option C) l : (ds ← mapM f l; mapM g ds) = mapM (λ a, f a ≫= g) l.
Proof.
  induction l as [|a l IH]; [done|]. simpl. rewrite <- IH. destruct (f a) as [b|]; [|done]. simpl.
  destruct (mapM f l) as [ds|]; [done|]. simpl. by destruct (g b).
Qed.

Section ExpressionMeaning.
Context (stof : string → res Z) (scopes : list TableScope) (read : Z → Z → res Value).
Let ρ : env := env_of scopes read.

Lemma meaning_bool op args : meaning stof ρ (PGBoolExpr op args) =
  (ds ← mapM (meaning stof ρ) args; match op with PG_AND_EXPR => chain true ds | PG_OR_EXPR => chain false ds | PG_NOT_EXPR => None end).
Proof. done. Qed.

Definition all_of (t : LogicType) (bs : list bool) : bool := match t with LAnd => forallb id bs | LOr => existsb id bs end.

Definition computes_meaning (node : PGNode) : Prop :=
  ∀ e, BindExpression stof scopes node = Ok e → outcome (eval read e) = meaning stof ρ node.

Lemma bind_args_meaning t args : Forall computes_meaning args → ∀ acc e, bind_args (BindExpression stof scopes) t acc args = Ok e →
  outcome (eval read e) = match args with
    | [] => outcome (eval read acc)
    | _ => x ← outcome (eval read acc) ≫= as_bool; ys ← mapM (truth stof ρ) args; Some (DBool (all_of t (x :: ys)))
    end.
Proof.
  induction 1 as [|a args Ha _ IH]; intros acc e; [by intros [= <-]|]. cbn [bind_args].
  destruct (BindExpression stof scopes a) as [ea| | |] eqn:Ea; try done. cbn [mbind res_bind]. intros H. rewrite (IH _ _ H). clear IH H.
  assert (outcome (eval read (LogicExpression acc ea t)) = (x ← outcome (eval read acc) ≫= as_bool; y ← truth stof ρ a; Some (DBool (all_of t [x; y])))) as Hp.
  { cbn [eval]. rewrite (operation_outcome _ _ _ _ (logic_operation t)). unfold truth. rewrite (Ha ea Ea).
    destruct (outcome (eval read acc)) as [d|]; [|done]. destruct (meaning stof ρ a) as [d'|]; simpl; destruct (as_bool d); try done. simpl.
    destruct (as_bool d'); [|done]. simpl. destruct t; simpl; by rewrite ?andb_true_r, ?orb_false_r. }
  rewrite Hp. cbn [mapM]. destruct (outcome (eval read acc) ≫= as_bool) as [x|]; [|by destruct args]. cbn [mbind option_bind].
  destruct (truth stof ρ a) as [y|]; [|by destruct args]. cbn [mbind option_bind].
  destruct args as [|b args]; [by destruct t; simpl; rewrite ?andb_true_r, ?orb_false_r|]. cbn [as_bool].
  destruct (mapM (truth stof ρ) (b :: args)) as [ys|]; [|done]. cbn [mbind option_bind mret option_ret]. do 2 f_equal.
  destruct t; simpl; by rewrite ?andb_true_r, ?orb_false_r, ?andb_assoc, ?orb_assoc.
Qed.

Lemma bind_chain_meaning (conjunction : bool) args e : Forall computes_meaning args →
  bind_chain (BindExpression stof scopes) (if conjunction then LAnd else LOr) args = Ok e →
  outcome (eval read e) = (ds ← mapM (meaning stof ρ) args; chain conjunction ds).
Proof.
  intros H. destruct H as [|a args Ha Hargs]; [done|]. cbn [bind_chain].
  destruct (BindExpression stof scopes a) as [ea| | |] eqn:Ea; try done. cbn [mbind res_bind]. intros He.
  rewrite (bind_args_meaning _ args Hargs ea e He), (Ha ea Ea). destruct args as [|b args]; [simpl; by destruct (meaning stof ρ a)|].
  unfold truth. rewrite <- mapM_bind.
  change (mapM (meaning stof ρ) (a :: b :: args)) with (d ← meaning stof ρ a; ds ← mapM (meaning stof ρ) (b :: args); Some (d :: ds)).
  destruct (meaning stof ρ a) as [d|]; [|done]. cbn [mbind option_bind].
  destruct (mapM (meaning stof ρ) (b :: args)) as [ds|] eqn:Em; [|simpl; by destruct (as_bool d)]. cbn [mbind option_bind].
  destruct ds as [|d' ds]; [simpl in Em; destruct (meaning stof ρ b); [|done]; simpl in Em; by destruct (mapM _ args)|].
  unfold chain. change (mapM as_bool (d :: d' :: ds)) with (x ← as_bool d; xs ← mapM as_bool (d' :: ds); Some (x :: xs)).
  destruct (as_bool d); [|done]. cbn [mbind option_bind]. destruct (mapM as_bool (d' :: ds)); [|done]. by destruct conjunction.
Qed.

Lemma column_meaning q name e : column_value name q scopes = Ok e → Some (outcome (eval read e)) = column_in ρ q name.
Proof.
  unfold column_value, ρ. rewrite ResolveColumn_meaning. destruct (ResolveColumn name q scopes) as [[[t c] ty]| | |]; by intros [= <-].
Qed.

Lemma ColumnRef_meaning fields e : BindColumnRef fields scopes = Ok e → outcome (eval read e) = meaning stof ρ (PGColumnRef fields).
Proof.
  intros H. assert (∀ q name, column_name fields = Some (q, name) → column_value name q scopes = Ok e →
    outcome (eval read e) = meaning stof ρ (PGColumnRef fields)) as Hcol.
  { intros q name Hn He. cbn [meaning]. rewrite Hn. cbn [mbind option_bind]. by rewrite <- (column_meaning q name e He). }
  unfold BindColumnRef in H.
  repeat match type of H with
  | (match ?x with _ => _ end) = _ => is_var x; destruct x; try discriminate H
  | _ = Ok _ => progress (cbn [mbind res_bind strVal] in H)
  end; try (by injection H as <-); by eapply Hcol.
Qed.

Lemma computed node : computes_meaning node.
Proof.
  induction node as [name l r IHl IHr|op args IH|n Hn] using PGNode_rec_args; intros e H.
  - cbn [BindExpression] in H. destruct (BindExpression stof scopes l) as [el| | |] eqn:El; try done.
    destruct (BindExpression stof scopes r) as [er| | |] eqn:Er; try done. cbn [mbind res_bind] in H. cbn [meaning].
    rewrite <- (IHl _ El), <- (IHr _ Er). destruct name as [|[] name]; try discriminate H; by apply operator_meaning.
  - rewrite meaning_bool. destruct op; [by apply (bind_chain_meaning true)|by apply (bind_chain_meaning false)|done].
  - destruct n as [| | | | | | | fields|val| | | | | | | |]; try done; try (by injection H as <-); [by apply ColumnRef_meaning|].
    cbn [BindExpression BindConstant meaning constant] in *. destruct val; try done; try (by injection H as <-).
    + injection H as <-. cbn. unfold datum_of. cbn. do 2 f_equal. unfold integer_. cbn. rewrite i32_u32. apply i32_small, i32_range.
    + unfold BindConstant in H. unfold constant. destruct (stof str) as [f| | |]; try done. by injection H as <-.
Qed.

(** ** A tree that means something is bound *)

Lemma chain_bound t args : Forall (λ n, is_Some (meaning stof ρ n) → ∃ e, BindExpression stof scopes n = Ok e) args →
  ∀ acc, is_Some (mapM (meaning stof ρ) args) → ∃ e, bind_args (BindExpression stof scopes) t acc args = Ok e.
Proof.
  induction 1 as [|a args Ha _ IH]; intros acc Hm; [by exists acc|]. cbn [mapM] in Hm. cbn [bind_args].
  destruct (meaning stof ρ a) as [d|]; [|by destruct Hm]. destruct Ha as [ea ->]; [by eexists|]. cbn [mbind res_bind option_bind] in *.
  apply IH. by destruct (mapM (meaning stof ρ) args); [eexists|destruct Hm].
Qed.

Lemma column_bound q name : is_Some (column_in ρ q name) → ∃ e, column_value name q scopes = Ok e.
Proof.
  unfold ρ, column_value. rewrite ResolveColumn_meaning. destruct (ResolveColumn name q scopes) as [[[t c] ty]| | |]; intros [d H]; try done.
  by eexists.
Qed.

Lemma meant_is_bound node : is_Some (meaning stof ρ node) → ∃ e, BindExpression stof scopes node = Ok e.
Proof.
  induction node as [name l r IHl IHr|op args IH|n Hn] using PGNode_rec_args.
  - intros [d Hd]. cbn [meaning] in Hd. destruct (meaning stof ρ l) as [a|] eqn:El; [|done]. destruct (meaning stof ρ r) as [b|] eqn:Er; [|done].
    cbn [mbind option_bind] in Hd. destruct (operator_name name) as [op|] eqn:Eop; [|done].
    destruct (IHl ltac:(by eexists)) as [el Hl], (IHr ltac:(by eexists)) as [er Hr]. cbn [BindExpression]. rewrite Hl, Hr.
    cbn [mbind res_bind]. assert (∃ n, linitial name = Ok n ∧ strVal n = Ok op) as (n & -> & Hn)
      by (destruct name as [|[] name]; try done; injection Eop as ->; by eexists). cbn [mbind res_bind]. rewrite Hn. by eapply operator_bound.
  - rewrite meaning_bool. intros Hs.
    assert (∀ t, op ≠ PG_NOT_EXPR → ∃ e, bind_chain (BindExpression stof scopes) t args = Ok e) as Hc.
    { intros t Hop. destruct IH as [|a args Ha Hargs]; [by destruct op; destruct Hs|]. cbn [mapM] in Hs. cbn [bind_chain].
      destruct (meaning stof ρ a); [|by destruct Hs]. destruct Ha as [ea ->]; [by eexists|]. cbn [mbind res_bind option_bind] in *.
      apply chain_bound; [done|]. by destruct (mapM (meaning stof ρ) args); [eexists|destruct Hs]. }
    destruct op; cbn [BindExpression]; [by apply Hc..|]. by destruct (mapM (meaning stof ρ) args), Hs.
  - destruct n as [| | | | | | | fields|val| | | | | | | |]; try (by intros []); try done.
    + intros [d Hd]. cbn [meaning] in Hd. destruct (column_name fields) as [[q name]|] eqn:En; [|done]. cbn [mbind option_bind] in Hd.
      destruct (column_bound q name) as [e He]; [by destruct (column_in ρ q name); [eexists|]|].
      exists e. cbn [BindExpression]. rewrite <- He. unfold BindColumnRef. unfold column_name in En.
      repeat match type of En with (match ?x with _ => _ end) = _ => is_var x; destruct x; try discriminate En end; by injection En as <- <-.
    + cbn. destruct val; cbn; try (by intros []); try (by eexists). destruct (stof str); intros [d Hd]; try done. by eexists.
Qed.

(** The meaning of an expression is what its translation evaluates to: exactly the trees
    that mean something on a row are bound to an expression that evaluates on it. *)
Lemma meaning_iff node d : meaning stof ρ node = Some d ↔
  ∃ e v, BindExpression stof scopes node = Ok e ∧ eval read e = Ok v ∧ datum_of v = Some d.
Proof.
  split.
  - intros Hd. destruct (meant_is_bound node) as [e He]; [by eexists|]. pose proof (computed node e He) as Hc. rewrite Hd in Hc.
    destruct (eval read e) as [v| | |] eqn:Ev; try done. by exists e, v.
  - intros (e & v & He & Hv & Hd). rewrite <- (computed node e He). unfold outcome. by rewrite Hv.
Qed.
End ExpressionMeaning.

(** ** Rows of tables *)

(** The bytes of a record, and the row of a plan, as a row of the table [alias]. *)
Definition tuple_env (alias : string) (schema : Schema) (t : Tuple) : env := [source_of alias (GetValueBy t schema) schema].
Definition record_env (alias : string) (schema : Schema) (e : RID * bytes) : env := tuple_env alias schema (mkTuple e.1 e.2 []).

(** C14: the binder and the evaluator compute the meaning of expressions.  On a row of a
    table, and on a pair of rows for the condition of a join, an expression has the
    meaning [d] (columns by name, constants, comparisons, 32-bit and float arithmetic,
    AND and OR) exactly when the binder makes an expression of it and this evaluates to
    a value of [d]. *)
Theorem expression_meaning stof node d :
  (∀ a t tup, meaning stof (tuple_env a (t_schema_ t) tup) node = Some d ↔
    ∃ e v, BindExpression stof [mkScope a t 0] node = Ok e ∧ Evaluate e (Some tup) (t_schema_ t) = Ok v ∧ datum_of v = Some d) ∧
  (∀ a t ltup b u rtup, meaning stof (tuple_env a (t_schema_ t) ltup ++ tuple_env b (t_schema_ u) rtup) node = Some d ↔
    ∃ e v, BindExpression stof [mkScope a t 0; mkScope b u 1] node = Ok e ∧
      EvaluateJoin e ltup (t_schema_ t) rtup (t_schema_ u) = Ok v ∧ datum_of v = Some d).
Proof.
  split.
  - intros a t tup. apply (meaning_iff stof [mkScope a t 0] (λ _ col, GetValueBy tup (t_schema_ t) col)).
  - intros a t ltup b u rtup. apply (meaning_iff stof [mkScope a t 0; mkScope b u 1]
      (λ tuple_idx col, if tuple_idx =? 0 then GetValueBy ltup (t_schema_ t) col else GetValueBy rtup (t_schema_ u) col)).
Qed.
