(* ===== verification/SelectMeaning.v ===== *)
(** * What a SELECT means

    The reference semantics of SELECT from one table, in terms of [Meaning], and the
    proof that the statement, bound, optimized and executed on the pages, gives an
    answer of it. *)

From Stdlib Require Import Sorting.Sorted.
From S2P Require Import Prelude Common Value Tuple Expression PageStore PageIO PageLogic TablePage TableHeap Catalog Executor.
From S2P Require Import Operators Join Aggregate Dml OrderBy Utility Engine Optimizer Binder Meaning.

(** ** SELECT from one table *)

Section Reference.
Context (stof : string → res Z).
Abbreviation meaning := (Meaning.meaning stof).
Abbreviation truth := (Meaning.truth stof).

(** No condition, or a star for a condition, keeps every row. *)
Fixpoint filters_nothing (clause : PGNode) : bool :=
  match clause with
  | PGNull | PGColumnRef [PGAStar] | PGColumnRef [PGString _; PGAStar] | PGColumnRef [PGFloat _; PGAStar] => true
  | PGBoolExpr PG_AND_EXPR [clause] | PGBoolExpr PG_OR_EXPR [clause] => filters_nothing clause
  | _ => false
  end.
Definition condition (clause : PGNode) (ρ : env) : option bool :=
  if filters_nothing clause then Some true else truth ρ clause.
(** The rows the WHERE clause keeps, when it is true or false on every row. *)
Fixpoint sql_where (clause : PGNode) (ρs : list env) : option (list env) :=
  match ρs with
  | [] => Some []
  | ρ :: ρs => keep ← condition clause ρ; rest ← sql_where clause ρs; Some (if keep : bool then ρ :: rest else rest)
  end.

(** By the first key, then by the second, and so on, each in its direction. *)
Definition key_compare (node : PGNode) (ρ1 ρ2 : env) : comparison :=
  match meaning ρ1 node, meaning ρ2 node with
  | Some a, Some b => match compare_data a b with Some (Some c) => c | _ => Eq end
  | _, _ => Eq
  end.
Fixpoint sql_compare (sort : list PGNode) : env → env → comparison :=
  match sort with
  | PGSortBy node descending :: sort =>
      then_by (if descending : bool then reversed (key_compare node) else key_compare node) (sql_compare sort)
  | _ => λ _ _, Eq
  end.
(** Rows that compare equal may come in any order. *)
Definition sql_order (sort : list PGNode) (ρs sorted : list env) : Prop :=
  match sort with
  | [] => sorted = ρs
  | _ => sorted ≡ₚ ρs ∧ StronglySorted (λ x y, sql_compare sort x y ≠ Gt) sorted
  end.
(** Every key is an INTEGER on all rows, or a VARCHAR on all rows. *)
Definition sortable_keys (sort : list PGNode) (ρs : list env) : Prop :=
  ∀ node descending, PGSortBy node descending ∈ sort →
    (∀ ρ, ρ ∈ ρs → ∃ z, meaning ρ node = Some (DInt z)) ∨ (∀ ρ, ρ ∈ ρs → ∃ s, meaning ρ node = Some (DString s)).

Definition sql_limit (limitCount : PGNode) (ρs : list env) : list env :=
  match limitCount with PGAConst (PGInteger n) => take (Z.to_nat (u64 n)) ρs | _ => ρs end.

Definition star_target (target : PGNode) : bool :=
  match target with PGResTarget _ PGAStar | PGResTarget _ (PGColumnRef (PGAStar :: _)) => true | _ => false end.
(** The expressions of the target list. *)
Definition target_exprs (targets : list PGNode) : list PGNode :=
  omap (λ target, match target with
    | PGResTarget _ PGNull => None
    | PGResTarget _ val => if star_target target then None else Some val
    | _ => None
    end) targets.
(** A star anywhere asks for the whole row. *)
Definition whole_row (targets : list PGNode) : bool :=
  existsb star_target targets || bool_decide (target_exprs targets = []).
Definition sql_row (targets : list PGNode) (ρ : env) : option (list datum) :=
  if whole_row targets then mapM snd (ρ ≫= src_columns) else mapM (meaning ρ) (target_exprs targets).

(** A string whose length and its four bytes of length fit 32 bits. *)
Definition short (d : datum) : Prop := match d with DString s => Z.of_nat (String.length s) < 2 ^ 32 - 4 | _ => True end.
(** A row whose columns and targets all have a value. *)
Definition presentable (targets : list PGNode) (ρ : env) : Prop :=
  (∃ ds, mapM snd (ρ ≫= src_columns) = Some ds ∧ Forall short ds) ∧ ∃ ds, sql_row targets ρ = Some ds ∧ Forall short ds.

(** An answer to a query on the rows [ρs] of its table. *)
Definition sql_answer (select : PGSelect) (ρs : list env) (answer : list (list datum)) : Prop :=
  ∃ kept sorted, sql_where (whereClause select) ρs = Some kept ∧ sql_order (sortClause select) kept sorted ∧
    mapM (sql_row (targetList select)) (sql_limit (limitCount select) sorted) = Some answer.
End Reference.

(** ** The rows of a scan *)

Lemma columns_from_ext read read' cols : ∀ i, (∀ k : nat, (k < length cols)%nat → read (i + Z.of_nat k) = read' (i + Z.of_nat k)) →
  columns_from read i cols = columns_from read' i cols.
Proof.
  induction cols as [|col cols IH]; intros i H; [done|]. simpl. pose proof (H 0%nat ltac:(simpl; lia)) as H0. rewrite Z.add_0_r in H0.
  rewrite H0. f_equal. apply IH. intros k Hk. replace (i + 1 + Z.of_nat k) with (i + Z.of_nat (S k)) by lia. apply H. simpl. lia.
Qed.

(** The schemas whose columns can be counted. *)
Definition countable (schema : Schema) : Prop := Z.of_nat (length (columns_ schema)) < 2 ^ 32.
Lemma column_count schema : countable schema → Z.to_nat (GetColumnCount schema) = length (columns_ schema).
Proof. intros H. unfold GetColumnCount, u32. rewrite Z.mod_small by (unfold countable in H; lia). lia. Qed.

Lemma row_values_length schema t vs : countable schema → row_values schema t = Ok vs → length vs = length (columns_ schema).
Proof. intros Hn H. apply mapR_Forall2, Forall2_length in H. rewrite length_seq, column_count in H by done. done. Qed.
Lemma row_values_at schema t vs (i : nat) v : row_values schema t = Ok vs → vs !! i = Some v → GetValueBy t schema (Z.of_nat i) = Ok v.
Proof. intros Hvs Hv. destruct (mapR_lookup _ _ _ _ _ Hvs Hv) as (j & Hj & Hval). by apply lookup_seq in Hj as [-> _]. Qed.

Lemma value_at t vs (i : nat) v schema : values_ t = vs → vs !! i = Some v → GetValueBy t schema (Z.of_nat i) = Ok v.
Proof. intros Ht Hv. unfold GetValueBy. by rewrite Nat2Z.id, Ht, Hv. Qed.

(** A copied row has the columns of the row it copies. *)
Lemma copied_source alias schema t vs t' : countable schema → row_values schema t = Ok vs → values_ t' = vs →
  source_of alias (GetValueBy t' schema) schema = source_of alias (GetValueBy t schema) schema.
Proof.
  intros Hn Hvs Hn'. unfold source_of. f_equal. apply columns_from_ext. intros k Hk. rewrite Z.add_0_l.
  destruct (lookup_lt_is_Some_2 vs k) as [v Hv]; [by rewrite (row_values_length _ _ _ Hn Hvs)|].
  by rewrite (value_at t' vs k v), (row_values_at schema t vs k v).
Qed.

Lemma as_bool_GetAsBoolean v b : GetAsBoolean v = Ok b ↔ datum_of v ≫= as_bool = Some b.
Proof.
  unfold GetAsBoolean, assert, has_type, datum_of. destruct (type_id_ v); cbn; split; try done; by intros [= ->].
Qed.

(** What is bound to no expression. *)
Section BoundNull.
Context (stof : string → res Z) (scopes : list TableScope).

Lemma bind_args_logic bind type acc args e n : bind_args bind type acc (n :: args) = Ok e → ∃ l r, e = LogicExpression l r type.
Proof.
  revert acc n. induction args as [|m args IH]; intros acc n; cbn [bind_args]; destruct (bind n); try done; simpl.
  - intros [= <-]. by eexists _, _.
  - intros H. by eapply IH.
Qed.

Lemma column_not_null name q e : column_value name q scopes = Ok e → e ≠ NullExpression.
Proof. unfold column_value. destruct (ResolveColumn _ _ _) as [[[? ?] ?]| | |]; try done. by intros [= <-]. Qed.

(** The star is bound to no expression. *)
Lemma bound_null node : ∀ e, BindExpression stof scopes node = Ok e → e = NullExpression ↔ filters_nothing node = true.
Proof.
  induction node as [name l r _ _|op args IH|n Hn] using PGNode_rec_args; intros e H.
  - split; [|done]. intros ->. cbn [BindExpression] in H. res_inv H. unfold bind_operator in H.
    repeat match type of H with (if ?b then _ else _) = _ => destruct b; [discriminate H|] end. discriminate H.
  - assert (∀ type, bind_chain (BindExpression stof scopes) type args = Ok e →
      e = NullExpression ↔ match args with [n] => filters_nothing n | _ => false end = true) as Hc.
    { intros type. destruct IH as [|n args Hn _]; [done|]. simpl. destruct (BindExpression stof scopes n) as [en| | |]; try done. simpl.
      destruct args as [|m args]; [intros [= <-]; by apply Hn|]. intros He. split; [|done]. intros ->.
      by destruct (bind_args_logic _ _ _ _ _ _ He) as (? & ? & ?). }
    destruct op; [..|done]; cbn [BindExpression] in H; rewrite (Hc _ H); by destruct args as [|n [|]].
  - destruct n as [| | | | | | | fields|val| | | | | | | |]; try done; [by injection H as <-|..].
    + cbn [BindExpression] in H. unfold BindColumnRef in H.
      repeat match type of H with
      | (match ?x with _ => _ end) = _ => is_var x; destruct x; try discriminate H
      | _ = Ok _ => progress (cbn [mbind res_bind strVal] in H)
      end; first [by injection H as <-|apply column_not_null in H; first [by split|split; [done|by destruct p]]].
    + assert (e ≠ NullExpression) by (destruct val; try done; [by injection H as <-..|]; simpl in H; destruct (stof str); try done; by injection H as <-).
      by split.
Qed.

(** A condition, bound and evaluated with any reader of columns. *)
Lemma holds_meaning read clause e keep : BindExpression stof scopes clause = Ok e →
  match as_predicate e with None => Ok true | Some p => v ← eval read p; GetAsBoolean v end = Ok keep ↔
  condition stof clause (env_of scopes read) = Some keep.
Proof.
  intros He. pose proof (bound_null clause e He) as Hnull. pose proof (computed stof scopes read clause e He) as Hm. unfold condition.
  destruct (filters_nothing clause).
  - rewrite (proj2 Hnull eq_refl). split; by intros [= <-].
  - assert (as_predicate e = Some e) as -> by (destruct e; try done; discriminate (proj1 Hnull eq_refl)).
    unfold truth. rewrite <- Hm. destruct (eval read e) as [v| | |]; try done. apply as_bool_GetAsBoolean.
Qed.
End BoundNull.

Section ScanMeaning.
Context (stof : string → res Z) (a : string) (t : TableInfo) (count : countable (t_schema_ t)).
Let scopes : list TableScope := [mkScope a t 0].
Let schema : Schema := t_schema_ t.
Abbreviation row := (tuple_env a schema).

Lemma env_of_single tup : env_of scopes (λ _ c, GetValueBy tup schema c) = row tup.
Proof. done. Qed.

Lemma Evaluate_meaning node e tup : BindExpression stof scopes node = Ok e →
  outcome (Evaluate e (Some tup) schema) = meaning stof (row tup) node.
Proof. intros He. unfold Evaluate. rewrite (computed stof scopes _ node e He). by rewrite env_of_single. Qed.

Lemma predicate_meaning clause e tup keep : BindExpression stof scopes clause = Ok e →
  predicate_holds (as_predicate e) tup schema = Ok keep ↔ condition stof clause (row tup) = Some keep.
Proof.
  intros He. by apply (holds_meaning stof scopes (λ _ col, GetValueBy tup schema col)).
Qed.

(** The rows of a scan are those the WHERE clause keeps. *)
Lemma scan_meaning clause e es : BindExpression stof scopes clause = Ok e → ∀ rows, scan_rows schema (as_predicate e) es = Ok rows →
  sql_where stof clause (record_env a schema <$> es) = Some ((λ r : Row, row r.1) <$> rows).
Proof.
  intros He. induction es as [|[r b] es IH]; intros rows H; [by injection H as <-|].
  apply selectM_cons in H as (o & rest & Ho & Hrest & ->). specialize (IH rest Hrest). unfold scan_row in Ho. cbn [fst snd] in Ho.
  rewrite fmap_cons. cbn [sql_where]. rewrite IH.
  destruct (predicate_holds _ _ _) as [keep| | |] eqn:Hk; try done. apply (predicate_meaning clause e) in Hk; [|done].
  cbn [mbind res_bind] in Ho. change (record_env a schema (r, b)) with (row (mkTuple r b [])). rewrite Hk. cbn [mbind option_bind]. destruct keep; [|by injection Ho as <-].
  destruct (row_values schema _) as [vs| | |] eqn:Hvs; simplify_eq/=. destruct (Tuple_new vs) as [t'| | |] eqn:Ht; simplify_eq/=.
  do 2 f_equal. unfold tuple_env. f_equal. symmetry. eapply copied_source; [done|exact Hvs|by apply Tuple_new_values].
Qed.

(** *** ORDER BY *)

Lemma datum_int v z : datum_of v = Some (DInt z) → type_id_ v = INTEGER ∧ integer_ v = z.
Proof. unfold datum_of. destruct (type_id_ v); try done. by intros [= <-]. Qed.
Lemma datum_string v s : datum_of v = Some (DString s) → type_id_ v = VARCHAR ∧ varchar_ v = s.
Proof. unfold datum_of. destruct (type_id_ v); try done. by intros [= <-]. Qed.

(** A sortable key has a type, by which its values compare as their meanings. *)
Lemma key_meaning node e (ts : list Tuple) : BindExpression stof scopes node = Ok e →
  (∀ ρ, ρ ∈ row <$> ts → ∃ z, meaning stof ρ node = Some (DInt z)) ∨ (∀ ρ, ρ ∈ row <$> ts → ∃ s, meaning stof ρ node = Some (DString s)) →
  ∃ type, sortable type ∧ (∀ x, x ∈ ts → ∃ v, Evaluate e (Some x) schema = Ok v ∧ type_id_ v = type) ∧
    ∀ x y, x ∈ ts → y ∈ ts → compare_as type (key_of schema e x) (key_of schema e y) = key_compare stof node (row x) (row y).
Proof.
  intros He Hkey.
  assert (∀ x d, meaning stof (row x) node = Some d → ∃ v, Evaluate e (Some x) schema = Ok v ∧ datum_of v = Some d) as Hval.
  { intros x d Hd. rewrite <- (Evaluate_meaning node e x He) in Hd. destruct (Evaluate e (Some x) schema) as [v| | |]; try done. by exists v. }
  destruct Hkey as [Hkey|Hkey]; [exists INTEGER|exists VARCHAR]; (split; [by (left + right)|]);
    assert (∀ x, x ∈ ts → row x ∈ row <$> ts) as Hin by (intros; by apply list_elem_of_fmap_2).
  - split.
    + intros x Hx. destruct (Hkey _ (Hin x Hx)) as [z Hz]. destruct (Hval _ _ Hz) as (v & Hv & [Hty _]%datum_int). by exists v.
    + intros x y Hx Hy. unfold key_compare. destruct (Hkey _ (Hin x Hx)) as [zx Hzx], (Hkey _ (Hin y Hy)) as [zy Hzy]. rewrite Hzx, Hzy.
      destruct (Hval _ _ Hzx) as (vx & Ex & [_ <-]%datum_int), (Hval _ _ Hzy) as (vy & Ey & [_ <-]%datum_int). unfold key_of. by rewrite Ex, Ey.
  - split.
    + intros x Hx. destruct (Hkey _ (Hin x Hx)) as [z Hz]. destruct (Hval _ _ Hz) as (v & Hv & [Hty _]%datum_string). by exists v.
    + intros x y Hx Hy. unfold key_compare. destruct (Hkey _ (Hin x Hx)) as [zx Hzx], (Hkey _ (Hin y Hy)) as [zy Hzy]. rewrite Hzx, Hzy.
      destruct (Hval _ _ Hzx) as (vx & Ex & [_ <-]%datum_string), (Hval _ _ Hzy) as (vy & Ey & [_ <-]%datum_string). unfold key_of. by rewrite Ex, Ey.
Qed.

Lemma keys_meaning sort (ts : list Tuple) : sortable_keys stof sort (row <$> ts) → ∀ obs, mapR (order_by stof scopes) sort = Ok obs →
  ∃ types, keys_typed schema obs types ts ∧
    ∀ x y, x ∈ ts → y ∈ ts → order schema obs types x y = sql_compare stof sort (row x) (row y).
Proof.
  induction sort as [|n sort IH]; intros Hk obs Hobs; [injection Hobs as <-; exists []; by split; [constructor|]|].
  cbn [mapR] in Hobs. destruct n as [| | | | | | | | | | | | | |node descending| |]; try discriminate Hobs. cbn [order_by] in Hobs.
  destruct (BindExpression stof scopes node) as [e| | |] eqn:He; simplify_eq/=. destruct (mapR _ sort) as [rest| | |] eqn:Hrest; simplify_eq/=.
  destruct (IH ltac:(intros m d Hm; apply (Hk m d); by right) rest eq_refl) as (types & Htyped & Hcmp).
  destruct (key_meaning node e ts He (Hk node descending ltac:(left))) as (type & Hs & Hval & Hc). exists (type :: types). split.
  - constructor; [|done]. by split.
  - intros x y Hx Hy. cbn [order sql_compare]. unfold then_by, reversed. rewrite (Hcmp x y Hx Hy).
    by destruct descending; simpl; rewrite Hc.
Qed.

Lemma Sorted_fmap {A B} (f : A → B) (R : A → A → Prop) (R' : B → B → Prop) l :
  (∀ x y, x ∈ l → y ∈ l → R x y → R' (f x) (f y)) → StronglySorted R l → StronglySorted R' (f <$> l).
Proof.
  induction l as [|x l IH]; intros Hf Hs; [constructor|]. inversion Hs as [|? ? Hl Hx]; subst. rewrite fmap_cons. constructor.
  - apply IH; [|done]. intros y z Hy Hz. apply Hf; by right.
  - apply Forall_fmap, Forall_forall. intros y Hy. apply Hf; [by left|by right|]. by eapply Forall_forall in Hx.
Qed.

Lemma sort_meaning `{!StdSort} sort obs (ts : list Tuple) : sort ≠ [] → sortable_keys stof sort (row <$> ts) → mapR (order_by stof scopes) sort = Ok obs →
  ∃ sorted, std_sort (sort_less schema obs) ts = Ok sorted ∧ sorted ≡ₚ ts ∧ sql_order stof sort (row <$> ts) (row <$> sorted).
Proof.
  intros Hne Hk Hobs. destruct (keys_meaning sort ts Hk obs Hobs) as (types & Htyped & Hcmp).
  destruct (std_sort_sorts _ _ _ _ Htyped) as (sorted & Hs & Hp & Hsorted). exists sorted. do 2 (split; [done|]).
  destruct sort as [|n sort]; [done|]. split; [by rewrite Hp|]. eapply Sorted_fmap; [|exact Hsorted].
  intros x y Hx Hy. rewrite Hp in Hx, Hy. cbv beta. by rewrite (Hcmp x y Hx Hy).
Qed.
End ScanMeaning.

(** *** The target list *)

Lemma bind_output_inv stof scopes T name val T' : bind_output stof scopes T name val = Ok T' →
  ∃ e s, BindExpression stof scopes val = Ok e ∧ T' = mkTargets (agg_calls T) (output_exprs T ++ [e]) (output_names T ++ [s]) (is_star T).
Proof. unfold bind_output. intros H. destruct (BindExpression stof scopes val) as [e| | |]; simplify_eq/=. res_inv H. simplify_eq. by eexists _, _. Qed.

(** What one target adds. *)
Lemma bind_target_meaning stof scopes T target T' : calls_aggregate target = false → bind_target stof scopes T target = Ok T' →
  ∃ es ss, Forall2 (λ n e, BindExpression stof scopes n = Ok e) (target_exprs [target]) es ∧ length ss = length es ∧
    T' = mkTargets (agg_calls T) (output_exprs T ++ es) (output_names T ++ ss) (is_star T || star_target target).
Proof.
  intros Hagg H. destruct target as [| | | | | | | | | | | | |name val| | |]; try done.
  assert (bind_output stof scopes T name val = Ok T' → target_exprs [PGResTarget name val] = [val] → star_target (PGResTarget name val) = false →
    ∃ es ss, Forall2 (λ n e, BindExpression stof scopes n = Ok e) (target_exprs [PGResTarget name val]) es ∧ length ss = length es ∧
      T' = mkTargets (agg_calls T) (output_exprs T ++ es) (output_names T ++ ss) (is_star T || star_target (PGResTarget name val))) as Hout.
  { intros (e & s & He & ->)%bind_output_inv -> ->. exists [e], [s]. rewrite orb_false_r. split; [by repeat constructor|done]. }
  assert (T = mkTargets (agg_calls T) (output_exprs T ++ []) (output_names T ++ []) (is_star T)) as HT by (rewrite !app_nil_r; by destruct T).
  assert (T' = set_star T → target_exprs [PGResTarget name val] = [] → star_target (PGResTarget name val) = true →
    ∃ es ss, Forall2 (λ n e, BindExpression stof scopes n = Ok e) (target_exprs [PGResTarget name val]) es ∧ length ss = length es ∧
      T' = mkTargets (agg_calls T) (output_exprs T ++ es) (output_names T ++ ss) (is_star T || star_target (PGResTarget name val))) as Hstar.
  { intros -> -> ->. exists [], []. rewrite !app_nil_r, orb_true_r. split; [constructor|done]. }
  destruct val; try (by apply Hout); cbn [bind_target] in H.
  - injection H as <-. exists [], []. rewrite orb_false_r. split; [constructor|done].
  - injection H as <-. by apply Hstar.
  - destruct fields as [|f fields]; [done|]. cbn [linitial mbind res_bind] in H. destruct f; try done; try (by apply Hout).
    injection H as <-. by apply Hstar.
  - cbn [calls_aggregate] in Hagg. destruct (GetFuncName funcname) as [f| | |]; try done. simpl in H. apply bool_decide_eq_false in Hagg.
    destruct (aggregation_of f); [destruct Hagg; by eexists|]. by apply bind_output_inv in H as (e & s & He & _).
Qed.

Lemma bind_targets_meaning stof scopes targets : Forall (λ n, calls_aggregate n = false) targets →
  ∀ T T', foldR (bind_target stof scopes) T targets = Ok T' →
  ∃ es ss, Forall2 (λ n e, BindExpression stof scopes n = Ok e) (target_exprs targets) es ∧ length ss = length es ∧
    T' = mkTargets (agg_calls T) (output_exprs T ++ es) (output_names T ++ ss) (is_star T || existsb star_target targets).
Proof.
  induction 1 as [|n targets Hn _ IH]; intros T T' H.
  - injection H as <-. exists [], []. split; [constructor|]. split; [done|]. simpl. rewrite !app_nil_r, orb_false_r. by destruct T.
  - cbn [foldR] in H. destruct (bind_target stof scopes T n) as [T1| | |] eqn:E; try done.
    destruct (bind_target_meaning stof scopes T n T1 Hn E) as (es1 & ss1 & Hes1 & Hl1 & ->). destruct (IH _ _ H) as (es & ss & Hes & Hl & ->).
    exists (es1 ++ es), (ss1 ++ ss). split; [|split; [by rewrite !length_app, Hl1, Hl|cbn; by rewrite <- !app_assoc, orb_assoc]].
    assert (target_exprs (n :: targets) = target_exprs [n] ++ target_exprs targets) as ->; [|by apply Forall2_app].
    unfold target_exprs. cbn [omap list_omap]. by destruct n as [| | | | | | | | | | | | |name []| | |]; cbn; repeat case_match.
Qed.

(** *** The answer *)

Lemma mapM_agree {A B C} (f : A → option C) (g : B → option C) l k : Forall2 (λ x y, f x = g y) l k → mapM f l = mapM g k.
Proof. induction 1 as [|x y l k Hxy _ IH]; [done|]. simpl. by rewrite Hxy, IH. Qed.

(** A tuple can only be made of values of the four types. *)
Lemma mapM_app {A B} (f : A → option B) l k ys zs : mapM f l = Some ys → mapM f k = Some zs → mapM f (l ++ k) = Some (ys ++ zs).
Proof.
  revert ys. induction l as [|x l IH]; intros ys Hl Hk; [by injection Hl as <-|]. simpl in *. destruct (f x) as [y|]; [|done]. simpl in *.
  destruct (mapM f l) as [rest|]; [|done]. injection Hl as <-. by rewrite (IH rest eq_refl Hk).
Qed.

Lemma append_values_data vs : ∀ data b, append_values data vs = Ok b → ∃ ds, mapM datum_of vs = Some ds.
Proof.
  induction vs as [|v vs IH]; intros data b H; [by exists []|]. cbn [append_values] in H.
  destruct (append_value data v) as [d| | |] eqn:E; try done. destruct (IH _ _ H) as [ds Hds]. simpl. rewrite Hds.
  unfold datum_of. unfold append_value, GetSerializedSize in E. destruct (type_id_ v); try done; by eexists.
Qed.
Lemma Tuple_new_data vs t : Tuple_new vs = Ok t → ∃ ds, mapM datum_of (values_ t) = Some ds.
Proof.
  intros H. rewrite (Tuple_new_values _ _ H). unfold Tuple_new in H. destruct (append_values [] vs) eqn:E; try done. by eapply append_values_data.
Qed.

(** The data of a tuple. *)
Definition tuple_data (t : Tuple) : option (list datum) := mapM datum_of (values_ t).

Lemma columns_from_Forall2 read cols vs : length vs = length cols → ∀ i : nat, (∀ k v, vs !! k = Some v → read (Z.of_nat (i + k)) = Ok v) →
  Forall2 (λ v col, datum_of v = snd col) vs (columns_from read (Z.of_nat i) cols).
Proof.
  revert vs. induction cols as [|col cols IH]; intros vs Hlen i H; [destruct vs; [constructor|done]|]. destruct vs as [|v vs]; [done|].
  simpl. constructor.
  - simpl. pose proof (H 0%nat v eq_refl) as H0. rewrite Nat.add_0_r in H0. by rewrite H0.
  - replace (Z.of_nat i + 1) with (Z.of_nat (S i)) by lia. apply IH; [by injection Hlen|].
    intros k w Hk. rewrite <- (H (S k) w) by done. f_equal. lia.
Qed.

(** The bytes of a row. *)
Definition datum_bytes (d : datum) : bytes :=
  match d with
  | DBool b => le_encode 1 (Z.b2z b)
  | DInt z => le_encode 4 z
  | DFloat bits => le_encode 4 bits
  | DString s => le_encode 4 (Z.of_nat (String.length s)) ++ String.list_ascii_of_string s
  end.
Definition row_bytes (ds : list datum) : bytes := ds ≫= datum_bytes.

Lemma le_encode_mod n z : le_encode n (z mod 256 ^ Z.of_nat n) = le_encode n z.
Proof.
  revert z. induction n as [|n IH]; intros z; [done|]. cbn [le_encode].
  rewrite Nat2Z.inj_succ, Z.pow_succ_r, Z.rem_mul_r by lia. pose proof (Z.mod_pos_bound z 256 ltac:(lia)). f_equal.
  - f_equal. f_equal. by rewrite Z.mul_comm, Z_mod_plus_full, Z.mod_mod by lia.
  - rewrite <- (IH (z / 256)). f_equal. rewrite Z.mul_comm, Z.div_add, Z.div_small by lia. lia.
Qed.

Lemma append_value_bytes data v d : datum_of v = Some d → short d → append_value data v = Ok (data ++ datum_bytes d).
Proof.
  intros Hd Hs. unfold append_value, GetSerializedSize, SerializeTo.
  assert (∀ (n : Z) bs bs', bs = bs' → Z.of_nat (length bs) = n →
    mem_write (data ++ replicate (Z.to_nat n) Ascii.zero) (Z.of_nat (length data)) bs = Ok (data ++ bs')) as Hw.
  { intros n bs _ <- Hn. unfold mem_write. rewrite decide_True by (rewrite length_app, length_replicate; lia).
    rewrite Nat2Z.id, take_app_length, drop_ge by (rewrite length_app, length_replicate; lia). by rewrite app_nil_r. }
  unfold datum_of in Hd. destruct (type_id_ v); try discriminate Hd; injection Hd as <-; cbn [mbind res_bind]; apply Hw; rewrite ?length_le_encode; try done.
  - cbn [datum_bytes]. rewrite <- (le_encode_mod 4 (union_ v)), <- (le_encode_mod 4 (integer_ v)). f_equal.
    change (256 ^ Z.of_nat 4) with (2 ^ 32). unfold integer_, i32. rewrite Zminus_mod, Zmod_mod, <- Zminus_mod. f_equal. lia.
  - simpl in Hs. cbn [datum_bytes]. rewrite length_list_ascii. unfold u32. rewrite Z.mod_small by lia.
    rewrite Nat2Z.id, <- (length_list_ascii (varchar_ v)), firstn_all. done.
  - simpl in Hs. rewrite length_app, length_le_encode, length_take, length_list_ascii. unfold u32.
    rewrite !(Z.mod_small (Z.of_nat _)) by lia. rewrite Z.mod_small by lia. lia.
Qed.

(** Short data can be made into a tuple. *)
Lemma Tuple_new_bytes vs ds : mapM datum_of vs = Some ds → Forall short ds → Tuple_new vs = Ok (mkTuple RID_default (row_bytes ds) vs).
Proof.
  intros Hds Hs. assert (∀ data, append_values data vs = Ok (data ++ row_bytes ds)) as H; [|unfold Tuple_new; by rewrite H].
  revert ds Hds Hs. induction vs as [|v vs IH]; intros ds Hds Hs data; [injection Hds as <-; by rewrite app_nil_r|]. simpl in Hds.
  destruct (datum_of v) as [d|] eqn:Ed; [|done]. simpl in Hds. destruct (mapM datum_of vs) as [rest|]; [|done]. injection Hds as <-.
  apply Forall_cons in Hs as [Hd Hs]. cbn [append_values]. rewrite (append_value_bytes data v d Ed Hd). cbn [mbind res_bind].
  rewrite (IH rest eq_refl Hs). unfold row_bytes. by rewrite bind_cons, app_assoc.
Qed.
Lemma Tuple_new_short vs ds : mapM datum_of vs = Some ds → Forall short ds → ∃ t, Tuple_new vs = Ok t ∧ values_ t = vs.
Proof. intros Hds Hs. rewrite (Tuple_new_bytes vs ds Hds Hs). by eexists. Qed.

Lemma row_values_total schema t ds : countable schema → mapM snd (columns_from (GetValueBy t schema) 0 (columns_ schema)) = Some ds →
  ∃ vs, row_values schema t = Ok vs ∧ mapM datum_of vs = Some ds.
Proof.
  intros Hn. unfold row_values. rewrite column_count by done. generalize (columns_ schema) as cols. change 0 with (Z.of_nat 0). generalize 0%nat as i.
  intros i cols. revert i ds. induction cols as [|col cols IH]; intros i ds H; [injection H as <-; by exists []|].
  simpl in H. replace (Z.of_nat i + 1) with (Z.of_nat (S i)) in H by lia.
  destruct (GetValueBy t schema (Z.of_nat i)) as [v| | |] eqn:Ev; try done. simpl in H.
  destruct (datum_of v) as [d|] eqn:Ed; [|done]. simpl in H. destruct (mapM snd _) as [rest|] eqn:Er; [|done]. injection H as <-.
  destruct (IH (S i) rest Er) as (vs & Hvs & Hds). exists (v :: vs). cbn [seq length mapR]. rewrite Ev, Hvs. split; [done|].
  simpl. by rewrite Ed, Hds.
Qed.

(** *** The columns of scanned rows *)

Lemma deserialized_present data off ty v : DeserializeFrom data off ty = Ok v → is_null_ v = false ∧ ty ≠ INVALID.
Proof. destruct ty; simpl; intros H; res_inv H; by simplify_eq/=. Qed.

(** A column of a row of a scan: a value of its type that is not NULL. *)
Lemma scanned_column t p es rows (i : nat) col : countable (t_schema_ t) → scan_rows (t_schema_ t) p es = Ok rows →
  columns_ (t_schema_ t) !! i = Some col → ∀ r, r ∈ rows →
  ∃ v, GetValueBy r.1 (t_schema_ t) (Z.of_nat i) = Ok v ∧ type_id_ v = col_type col ∧ is_null_ v = false ∧ col_type col ≠ INVALID.
Proof.
  intros Hn. revert rows. induction es as [|e es IH]; intros rows H Hc r Hr; [injection H as <-; by apply elem_of_nil in Hr|].
  apply selectM_cons in H as (o & rest & Ho & Hrest & ->). unfold scan_row in Ho. 
  destruct (predicate_holds p _ _) as [keep| | |]; try done. cbn [mbind res_bind] in Ho.
  destruct keep; [|injection Ho as <-; by apply (IH rest)].
  destruct (row_values (t_schema_ t) _) as [vs| | |] eqn:Hvs; simplify_eq/=. destruct (Tuple_new vs) as [t'| | |] eqn:Ht; simplify_eq/=.
  apply elem_of_cons in Hr as [->|Hr]; [|by apply (IH rest)].
  destruct (lookup_lt_is_Some_2 vs i) as [v Hv].
  { rewrite (row_values_length _ _ _ Hn Hvs). by eapply lookup_lt_Some. }
  exists v. simpl. split; [by apply (value_at t' vs i v), Hv; apply Tuple_new_values|].
  pose proof (row_values_at _ _ _ i v Hvs Hv) as Hval. unfold GetValueBy in Hval. simpl in Hval. unfold GetColumn in Hval.
  rewrite (arr_get_ok _ i col Hc) in Hval. simpl in Hval. split; [by eapply deserialized_type|by eapply deserialized_present].
Qed.

Lemma selectM_length {A B} (f : A → res (option B)) l ys : selectM f l = Ok ys → (length ys ≤ length l)%nat.
Proof.
  revert ys. induction l as [|x l IH]; intros ys H; [by injection H as <-|]. apply selectM_cons in H as (o & rest & _ & Hr & ->).
  specialize (IH rest Hr). destruct o; simpl; lia.
Qed.

Section SelectMeaning.
Context {HO : HashOrder} {SS : StdSort} (fuel : nat) (fmt_2f : Z → string) (stof : string → res Z).
Context (c : Catalog) (records : Z → list (RID * bytes)).
Abbreviation query := (query_rows fmt_2f c records).
Abbreviation fueled := (enough_fuel fuel fmt_2f c records).

(** *** The plan of a SELECT from one table *)

Section OneTable.
Context (a : string) (t : TableInfo) (count : countable (t_schema_ t)).
Let scopes : list TableScope := [mkScope a t 0].
Let schema : Schema := t_schema_ t.
Abbreviation row := (tuple_env a schema).
Abbreviation bound nodes es := (Forall2 (λ n e, BindExpression stof scopes n = Ok e) nodes es).

Definition sorted_plan (sort : list PGNode) (obs : list (bool * AbstractExpression)) (plan : AbstractPlanNode) : AbstractPlanNode :=
  match sort with [] => plan | _ => SortPlanNode schema plan obs end.
Definition limited_plan (limitCount : PGNode) (plan : AbstractPlanNode) : AbstractPlanNode :=
  match limitCount with PGAConst (PGInteger n) => LimitPlanNode schema plan (u64 n) | _ => plan end.
(** The plan over a scan [child] of the table. *)
Definition select_shape (select : PGSelect) (obs : list (bool * AbstractExpression)) (es : list AbstractExpression) (cols : list Column)
    (child : AbstractPlanNode) : AbstractPlanNode :=
  let base := limited_plan (limitCount select) (sorted_plan (sortClause select) obs child) in
  if whole_row (targetList select) then base else ProjectionPlanNode (Schema_new cols) base es.

Lemma where_plan clause p1 : select_where stof scopes clause (scan_of t None) = Ok p1 →
  ∃ e, BindExpression stof scopes clause = Ok e ∧ p1 = scan_of t (as_predicate e).
Proof.
  unfold select_where. intros H. destruct clause; [injection H as <-; by exists NullExpression|..];
    (match type of H with context [BindExpression ?f ?s ?n] => destruct (BindExpression f s n) as [e| | |]; try done; injection H as <-; by exists e end).
Qed.

Lemma select_plan select plan : Forall (λ n, calls_aggregate n = false) (targetList select) →
  (base ← select_where stof scopes (whereClause select) (scan_of t None);
   targets ← foldR (bind_target stof scopes) (mkTargets [] [] [] false) (targetList select);
   base ← select_aggregates stof scopes (groupClause select) targets base;
   base ← select_order stof scopes (sortClause select) base;
   base ← select_limit (limitCount select) base;
   select_projection targets base) = Ok plan →
  ∃ e obs es cols, BindExpression stof scopes (whereClause select) = Ok e ∧ mapR (order_by stof scopes) (sortClause select) = Ok obs ∧
    bound (target_exprs (targetList select)) es ∧ length cols = length es ∧
    plan = select_shape select obs es cols (scan_of t (as_predicate e)).
Proof.
  intros Hagg H.
  destruct (select_where stof scopes (whereClause select) (scan_of t None)) as [p1| | |] eqn:E1; try done. cbn [mbind res_bind] in H.
  destruct (where_plan _ _ E1) as (e & He & ->).
  clear E1. destruct (foldR _ _ _) as [T| | |] eqn:E2; try done. cbn [mbind res_bind] in H.
  destruct (bind_targets_meaning _ _ _ Hagg _ _ E2) as (es & ss & Hes & Hl & ->). clear E2. cbn [agg_calls output_exprs output_names is_star app] in H.
  assert (∀ x y z, has_aggregates (mkTargets [] x y z) = false) as Hnone by done. unfold select_aggregates in H. rewrite Hnone in H.
  cbn [mbind res_bind] in H.
  destruct (select_order _ _ _ _) as [p2| | |] eqn:E2; try done. cbn [mbind res_bind] in H.
  assert (∃ obs, mapR (order_by stof scopes) (sortClause select) = Ok obs ∧ p2 = sorted_plan (sortClause select) obs (scan_of t (as_predicate e))) as (obs & Hobs & ->).
  { unfold select_order in E2. destruct (sortClause select) as [|n sort]; [injection E2 as <-; by exists []|].
    destruct (mapR (order_by stof scopes) (n :: sort)) as [obs| | |]; try done. injection E2 as <-. by exists obs. }
  clear E2. destruct (select_limit _ _) as [p3| | |] eqn:E3; try done. cbn [mbind res_bind] in H.
  assert (p3 = limited_plan (limitCount select) (sorted_plan (sortClause select) obs (scan_of t (as_predicate e)))) as ->.
  { unfold select_limit in E3. unfold limited_plan. destruct (limitCount select) as [| | | | | | | |[]| | | | | | | |]; try done; [by injection E3 as <-|].
    unfold sorted_plan in *. destruct (sortClause select); by injection E3 as <-. }
  unfold select_projection in H. cbn [is_star output_exprs output_names] in H.
  assert (bool_decide (length es = 0%nat) = bool_decide (target_exprs (targetList select) = [])) as Hempty.
  { apply bool_decide_ext. rewrite <- (Forall2_length _ _ _ Hes). by destruct (target_exprs (targetList select)). }
  unfold select_shape, whole_row. rewrite Hnone, Hempty in H. cbn [negb orb] in H. rewrite andb_true_r in H.
  exists e, obs, es. destruct (existsb star_target (targetList select)), (bool_decide (target_exprs (targetList select) = [])); cbn in H;
    try (injection H as <-; exists (replicate (length es) (column "" INTEGER)); rewrite length_replicate; done).
  destruct (mapR _ _) as [cols| | |] eqn:Ec; try done. injection H as <-. exists cols.
  apply mapR_Forall2, Forall2_length in Ec. rewrite length_zip in Ec. by rewrite <- Ec, Hl, Nat.min_id.
Qed.

Abbreviation rows_env rows := ((λ r : Row, row r.1) <$> (rows : list Row)).

Section Child.
Context (child : AbstractPlanNode) (rows : list Row) (child_schema : plan_schema child = schema) (child_rows : query child = Ok rows).
Context (child_fuel : fueled child) (rows_fuel : (S (length rows) < fuel)%nat).

Lemma base_schema limit sort obs : plan_schema (limited_plan limit (sorted_plan sort obs child)) = schema.
Proof. unfold limited_plan, sorted_plan. destruct limit as [| | | | | | | |[]| | | | | | | |], sort; done. Qed.

(** Rows that come from those of the child, within the fuel. *)
Definition from_child (plan : AbstractPlanNode) (out : list Row) : Prop :=
  query plan = Ok out ∧ (length out ≤ length rows)%nat ∧ fueled plan ∧ ∀ r, r ∈ out → ∃ r', r' ∈ rows ∧ r'.1 = r.1.

Lemma is_small plan out : query plan = Ok out → (length out ≤ length rows)%nat → small fuel fmt_2f c records plan.
Proof. intros Hq Hl. unfold small. rewrite Hq. lia. Qed.

Lemma sorted_rows sort obs : mapR (order_by stof scopes) sort = Ok obs → sortable_keys stof sort (rows_env rows) →
  ∃ srows, from_child (sorted_plan sort obs child) srows ∧ sql_order stof sort (rows_env rows) (rows_env srows).
Proof.
  intros Hobs Hk. unfold sorted_plan. destruct sort as [|n sort]; [exists rows; split; [split_and!; [done|lia|done|by eauto]|done]|].
  assert (∀ l : list Row, rows_env l = row <$> (l.*1 : list Tuple)) as Henv by (intros l; by rewrite <- list_fmap_compose).
  rewrite !Henv in *. destruct (sort_meaning stof a t (n :: sort) obs rows.*1 ltac:(done) Hk Hobs) as (sorted & Hst & Hp & Hord).
  assert (query (SortPlanNode schema child obs) = Ok ((λ t, (t, None)) <$> sorted)) as Hq.
  { cbn [query_rows]. rewrite child_rows, child_schema. cbn [mbind res_bind]. unfold schema. by rewrite Hst. }
  assert (length sorted = length rows) as Hlen by (by rewrite Hp, length_fmap).
  exists ((λ t, (t, None)) <$> sorted). split; [split_and!; [exact Hq|by rewrite length_fmap, Hlen| |]|].
  - split; [apply (is_small _ _ Hq); by rewrite length_fmap, Hlen|exact child_fuel].
  - intros r (x & -> & Hx)%list_elem_of_fmap. rewrite Hp in Hx. apply list_elem_of_fmap in Hx as (r' & -> & ?). by exists r'.
  - rewrite Henv. assert (∀ l : list Tuple, ((λ t : Tuple, (t, None : option RID)) <$> l).*1 = l) as ->; [|done].
    induction l as [|x l IH]; [done|]. rewrite !fmap_cons. by rewrite IH.
Qed.

(** Sorted and cut as the reference says. *)
Lemma base_rows select obs : mapR (order_by stof scopes) (sortClause select) = Ok obs → sortable_keys stof (sortClause select) (rows_env rows) →
  ∃ cut sorted, from_child (limited_plan (limitCount select) (sorted_plan (sortClause select) obs child)) cut ∧
    sql_order stof (sortClause select) (rows_env rows) sorted ∧ rows_env cut = sql_limit (limitCount select) sorted.
Proof.
  intros Hobs Hk. destruct (sorted_rows _ obs Hobs Hk) as (srows & Hs & Hord). unfold limited_plan, sql_limit.
  destruct (limitCount select) as [| | | | | | | |[]| | | | | | | |]; try (by exists srows, (rows_env srows)).
  destruct Hs as (Hq & Hlen & Hf & Hsub). exists (take (Z.to_nat (u64 ival)) srows), (rows_env srows).
  assert (query (LimitPlanNode schema (sorted_plan (sortClause select) obs child) (u64 ival)) = Ok (take (Z.to_nat (u64 ival)) srows)) as Hq'
    by (cbn [query_rows]; by rewrite Hq).
  assert (length (take (Z.to_nat (u64 ival)) srows) ≤ length rows)%nat as Hlen' by (rewrite length_take; lia).
  split; [split_and!; [exact Hq'|done| |]|].
  - split; [by eapply is_small|]. split; [|done]. unfold u64, SIZE_MAX. pose proof (Z.mod_pos_bound ival (2 ^ 64) ltac:(lia)). lia.
  - intros r Hr. apply Hsub. by eapply subseteq_take.
  - split; [done|]. by rewrite fmap_take.
Qed.
End Child.

(** Rows that can be presented are scanned, projected and copied without an error. *)
Lemma scan_total clause e es : BindExpression stof scopes clause = Ok e → ∀ kept,
  sql_where stof clause (record_env a schema <$> es) = Some kept →
  (∀ ρ, ρ ∈ kept → ∃ ds, mapM snd (ρ ≫= src_columns) = Some ds ∧ Forall short ds) →
  ∃ rows, scan_rows schema (as_predicate e) es = Ok rows.
Proof.
  intros He. unfold scan_rows. induction es as [|r es IH]; intros kept Hw Hp; [by eexists|]. rewrite fmap_cons in Hw. cbn [sql_where] in Hw.
  destruct (condition stof clause (record_env a schema r)) as [keep|] eqn:Hc; [|done]. cbn [mbind option_bind] in Hw.
  destruct (sql_where _ _ _) as [rest|] eqn:Hr; [|done]. injection Hw as <-.
  destruct (IH rest eq_refl) as [rows Hrows]; [intros ρ Hρ; apply Hp; destruct keep; [by right|done]|].
  cut (∃ o, scan_row schema (as_predicate e) r = Ok o); [intros [o Ho]; cbn [selectM]; rewrite Ho, Hrows; by eexists|].
  apply (predicate_meaning stof a t clause e) in Hc; [|done]. unfold scan_row. cbv zeta. unfold schema. rewrite Hc. cbn [mbind res_bind].
  destruct keep; [|by eexists]. destruct (Hp (record_env a schema r)) as (ds & Hds & Hs); [left|]. simpl in Hds.
  rewrite app_nil_r in Hds. destruct (row_values_total _ _ _ count Hds) as (vs & -> & Hvs). cbn [mbind res_bind].
  destruct (Tuple_new_short vs ds Hvs Hs) as (t' & -> & _). by eexists.
Qed.

Lemma project_total nodes es (r : Row) ds : bound nodes es → mapM (meaning stof (row r.1)) nodes = Some ds → Forall short ds →
  ∃ out vs, project_row es schema r = Ok out ∧ values_ out.1 = vs ∧ mapM datum_of vs = Some ds ∧ length vs = length es.
Proof.
  intros Hes Hds Hs.
  assert (∃ vs, mapR (λ e, Evaluate e (Some r.1) schema) es = Ok vs ∧ mapM datum_of vs = Some ds) as (vs & Hvs & Hdat).
  { clear Hs. revert ds Hds. induction Hes as [|n e nodes es Hn Hes IH]; intros ds Hds; [injection Hds as <-; by exists []|].
    pose proof (Evaluate_meaning stof a t n e r.1 Hn) as Hm. change (t_schema_ t) with schema in Hm. simpl in Hds. rewrite <- Hm in Hds.
    destruct (Evaluate e (Some r.1) schema) as [v| | |] eqn:Ev; try done. simpl in Hds. destruct (datum_of v) as [d|] eqn:Ed; [|done].
    simpl in Hds. destruct (mapM _ nodes) as [rest|]; [|done]. injection Hds as <-. destruct (IH rest eq_refl) as (vs & Hvs & Hdat).
    exists (v :: vs). cbn [mapR]. rewrite Ev, Hvs. split; [done|]. simpl. by rewrite Ed, Hdat. }
  destruct (Tuple_new_short vs ds Hdat Hs) as (t' & Ht & Hv). exists (t', Some (default RID_default r.2)), vs. unfold project_row. rewrite Hvs.
  cbn [mbind res_bind]. rewrite Ht. split; [done|]. split; [done|]. split; [done|]. symmetry. by apply mapR_Forall2, Forall2_length in Hvs.
Qed.

(** A tuple that holds the values of all columns is copied as it is. *)
Lemma result_same sch (r : Row) : countable sch → length (values_ r.1) = length (columns_ sch) → result_tuple sch r = Tuple_new (values_ r.1).
Proof.
  intros Hn Hlen. unfold result_tuple, row_values. rewrite column_count by done.
  assert (mapR (λ i : nat, GetValueBy r.1 sch (Z.of_nat i)) (seq 0 (length (columns_ sch))) = Ok (values_ r.1)) as ->; [|done].
  apply mapR_Forall2. rewrite <- Hlen. apply Forall2_same_length_lookup_2; [by rewrite length_seq|].
  intros i k v Hk Hv. apply lookup_seq in Hk as [-> _]. by apply (value_at _ (values_ r.1) i v).
Qed.
Lemma result_copies sch (r : Row) ds : countable sch → length (values_ r.1) = length (columns_ sch) → tuple_data r.1 = Some ds → Forall short ds →
  ∃ t', result_tuple sch r = Ok t' ∧ tuple_data t' = Some ds.
Proof.
  intros Hn Hlen Hds Hs. rewrite result_same by done. destruct (Tuple_new_short _ ds Hds Hs) as (t' & -> & Hv). exists t'. split; [done|].
  unfold tuple_data. by rewrite Hv.
Qed.
Lemma result_whole (r : Row) ds : mapM snd (row r.1 ≫= src_columns) = Some ds → Forall short ds →
  ∃ t', result_tuple schema r = Ok t' ∧ tuple_data t' = Some ds.
Proof.
  simpl. rewrite app_nil_r. intros Hds Hs. destruct (row_values_total _ _ _ count Hds) as (vs & Hvs & Hdat).
  unfold result_tuple. unfold schema. rewrite Hvs. cbn [mbind res_bind]. destruct (Tuple_new_short vs ds Hdat Hs) as (t' & -> & Hv).
  exists t'. split; [done|]. unfold tuple_data. by rewrite Hv.
Qed.

Lemma collect_ok {A B C D} (f : A → res B) (g : B → option C) (h : D → option C) (k : A → D) l :
  (∀ x, x ∈ l → ∃ y d, f x = Ok y ∧ g y = Some d ∧ h (k x) = Some d) →
  ∃ ys ds, mapR f l = Ok ys ∧ mapM g ys = Some ds ∧ mapM h (k <$> l) = Some ds.
Proof.
  induction l as [|x l IH]; intros H; [by exists [], []|]. destruct IH as (ys & ds & Hf & Hg & Hh); [intros; apply H; by right|].
  destruct (H x) as (y & d & Hy & Hd & Hk); [left|]. exists (y :: ys), (d :: ds). cbn [mapR]. rewrite fmap_cons. simpl.
  by rewrite Hy, Hf, Hd, Hg, Hk, Hh.
Qed.
Lemma mapR_compose {A B C} (f : A → res B) (g : B → res C) l zs : mapR (λ x, y ← f x; g y) l = Ok zs → ∃ ys, mapR f l = Ok ys ∧ mapR g ys = Ok zs.
Proof.
  revert zs. induction l as [|x l IH]; intros zs H; [by exists []|]. cbn [mapR] in H. destruct (f x) as [y| | |] eqn:Ef; try done. simpl in H.
  destruct (g y) as [z| | |] eqn:Eg; try done. simpl in H. destruct (mapR _ l) as [rest| | |]; try done. injection H as <-.
  destruct (IH rest eq_refl) as (ys & Hys & Hzs). exists (y :: ys). cbn [mapR]. rewrite Ef, Hys. split; [done|]. cbn [mapR mbind res_bind].
  by rewrite Eg, Hzs.
Qed.

Lemma mapR_length {A B} (f : A → res B) l ys : mapR f l = Ok ys → length ys = length l.
Proof. intros H. symmetry. by apply mapR_Forall2, Forall2_length in H. Qed.

(** The rows of the plan, projected and copied, are the rows the target list asks for. *)
Lemma shape_rows select obs es cols child rows :
  plan_schema child = schema → query child = Ok rows → fueled child → (S (length rows) < fuel)%nat →
  mapR (order_by stof scopes) (sortClause select) = Ok obs → bound (target_exprs (targetList select)) es → length cols = length es →
  countable (plan_schema (select_shape select obs es cols child)) → sortable_keys stof (sortClause select) (rows_env rows) →
  (∀ ρ, ρ ∈ rows_env rows → presentable stof (targetList select) ρ) →
  ∃ result answer sorted, query_result fmt_2f c records (select_shape select obs es cols child) = Ok result ∧
    fueled (select_shape select obs es cols child) ∧ mapM tuple_data result = Some answer ∧
    sql_order stof (sortClause select) (rows_env rows) sorted ∧
    mapM (sql_row stof (targetList select)) (sql_limit (limitCount select) sorted) = Some answer.
Proof.
  intros Hcs Hcq Hcf Hf Hobs Hes Hlen Hn Hk Hp.
  destruct (base_rows child rows Hcs Hcq Hcf Hf select obs Hobs Hk) as (cut & sorted & (Hq & Hl & Hbf & Hsub) & Hord & Hlim).
  pose proof (base_schema child Hcs (limitCount select) (sortClause select) obs) as Hs. unfold select_shape in *.
  set (base := limited_plan _ _) in *.
  assert (∀ r : Row, r ∈ cut → presentable stof (targetList select) (row r.1)) as Hcut.
  { intros r Hr. destruct (Hsub r Hr) as (r' & Hr' & <-). apply Hp. by apply (list_elem_of_fmap_2 (λ r : Row, row r.1)). }
  unfold query_result. destruct (whole_row (targetList select)) eqn:Ew.
  - rewrite Hq, Hs. cbn [mbind res_bind].
    destruct (collect_ok (result_tuple schema) tuple_data (sql_row stof (targetList select)) (λ r : Row, row r.1) cut) as (result & answer & Hr & Ha & Hrow).
    + intros r Hr. destruct (Hcut r Hr) as [(ds & Hds & Hsh) _]. destruct (result_whole r ds Hds Hsh) as (t' & Ht & Hd).
      exists t', ds. unfold sql_row. by rewrite Ew.
    + rewrite Hlim in Hrow. by exists result, answer, sorted.
  - destruct (collect_ok (λ r, o ← project_row es schema r; result_tuple (Schema_new cols) o) tuple_data
      (sql_row stof (targetList select)) (λ r : Row, row r.1) cut) as (result & answer & Hr & Ha & Hrow).
    + intros r Hr. destruct (Hcut r Hr) as [_ (ds & Hds & Hsh)]. unfold sql_row in Hds |- *. rewrite Ew in Hds |- *.
      destruct (project_total _ es r ds Hes Hds Hsh) as (out & vs & Ho & Hv & Hdat & Hlv).
      destruct (result_copies (Schema_new cols) out ds) as (t' & Ht & Hd); [exact Hn| |by unfold tuple_data; rewrite Hv|done|].
      { pose proof (f_equal length (Schema_new_types cols)) as HT. rewrite !length_fmap in HT. by rewrite Hv, Hlv, <- Hlen, HT. }
      exists t', ds. rewrite Ho. by split.
    + rewrite Hlim in Hrow. exists result, answer, sorted. destruct (mapR_compose _ _ _ _ Hr) as (outs & Hp1 & Hp2).
      assert (query (ProjectionPlanNode (Schema_new cols) base es) = Ok outs) as Hqp by (cbn [query_rows]; rewrite Hq, Hs; exact Hp1).
      rewrite Hqp. cbn [mbind res_bind plan_schema]. do 2 (split; [first [done|split; [|done]]|]); [|by split].
      unfold small. rewrite Hqp, (mapR_length _ _ _ Hp1). lia.
Qed.

(** The optimizer works on the scan below. *)
Lemma shape_optimized cat select obs es cols child child' : child ≠ NullPlanNode → Optimize cat child = Ok child' →
  Optimize cat (select_shape select obs es cols child) = Ok (select_shape select obs es cols child').
Proof.
  intros Hne Ho. assert (∀ sch p obs p', Optimize cat p = Ok p' → Optimize cat (SortPlanNode sch p obs) = Ok (SortPlanNode sch p' obs)) as Hsort.
  { intros * H. cbn [Optimize]. rewrite H. by destruct cat. }
  assert (∀ sch p n p', Optimize cat p = Ok p' → Optimize cat (LimitPlanNode sch p n) = Ok (LimitPlanNode sch p' n)) as Hlimit.
  { intros * H. cbn [Optimize]. rewrite H. by destruct cat. }
  assert (∀ sch p es p', Optimize cat p = Ok p' → Optimize cat (ProjectionPlanNode sch p es) = Ok (ProjectionPlanNode sch p' es)) as Hproj.
  { intros * H. cbn [Optimize]. rewrite H. by destruct cat. }
  unfold select_shape, limited_plan, sorted_plan.
  destruct (whole_row _), (limitCount select) as [| | | | | | | |[]| | | | | | | |], (sortClause select); auto.
Qed.
End OneTable.

(** A SELECT from one table, without aggregates and GROUP BY. *)
Definition plain_select (select : PGSelect) (rv : PGRangeVar) : Prop :=
  fromClause select = [PGRange rv] ∧ groupClause select = [] ∧ Forall (λ n, calls_aggregate n = false) (targetList select).

(** The rows of the table, named as the FROM clause does. *)
Definition table_env (name : string) (rv : PGRangeVar) (t : TableInfo) : list env :=
  record_env (default name (alias rv)) (t_schema_ t) <$> records (t_oid_ t).

Lemma bound_constant val e : BindConstant stof val = Ok e → ∃ v, e = ConstantValueExpression v ∧ is_null_ v = false.
Proof. destruct val; try done; simpl; intros H; res_inv H; simplify_eq; by eexists. Qed.

(** A constant of a bound expression is not NULL. *)
Fixpoint constants_present (e : AbstractExpression) : Prop :=
  match e with
  | NullExpression | ColumnValueExpression _ _ _ => True
  | ConstantValueExpression v => is_null_ v = false
  | ComparisonExpression l r _ | ArithmeticExpression l r _ | LogicExpression l r _ => constants_present l ∧ constants_present r
  end.

Lemma args_present type scopes args :
  Forall (λ n, ∀ e, BindExpression stof scopes n = Ok e → constants_present e) args →
  ∀ acc e, constants_present acc → bind_args (BindExpression stof scopes) type acc args = Ok e → constants_present e.
Proof.
  induction 1 as [|n args Hn _ IH]; intros acc e Hacc; simpl; [by intros [= <-]|].
  intros H. destruct (BindExpression stof scopes n) as [r| | |] eqn:E; simplify_eq/=. eapply IH; [|exact H]. split; eauto.
Qed.
Lemma bound_present scopes n : ∀ e, BindExpression stof scopes n = Ok e → constants_present e.
Proof.
  assert (∀ name q e, column_value name q scopes = Ok e → constants_present e) as Hcol.
  { intros name q e. unfold column_value. destruct (ResolveColumn _ _ _) as [[[? ?] ?]| | |]; try done. by intros [= <-]. }
  induction n as [name l r IHl IHr|op args IH|n Hn] using PGNode_rec_args; intros e H.
  - cbn [BindExpression] in H. res_inv H. unfold bind_operator in H.
    repeat match type of H with (if ?b then _ else _) = _ => destruct b; [injection H as <-; split; eauto|] end. discriminate H.
  - assert (∀ type, bind_chain (BindExpression stof scopes) type args = Ok e → constants_present e) as Hc.
    { intros type. destruct IH as [|n args Hn IH]; [done|]. simpl. destruct (BindExpression stof scopes n) as [en| | |]; try done.
      apply args_present; eauto. }
    by destruct op; [by eapply Hc..|].
  - destruct n as [| | | | | | | fields|val| | | | | | | |]; try done; [by injection H as <-| |by destruct (bound_constant val e H) as (v & -> & ?)].
    cbn [BindExpression] in H. unfold BindColumnRef in H.
    repeat match type of H with
    | (match ?x with _ => _ end) = _ => is_var x; destruct x; try discriminate H
    | _ = Ok _ => progress (cbn [mbind res_bind strVal] in H)
    end; first [by injection H as <-|by eapply Hcol].
Qed.

(** The optimized scan of a bound predicate: the same rows, within the fuel. *)
Lemma scan_optimized t e rows : db_current c records → tables_ c !! t_oid_ t = Some t → constants_present e →
  query (scan_of t (as_predicate e)) = Ok rows → (S (length (records (t_oid_ t))) < fuel)%nat →
  ∃ child, Optimize (Some c) (scan_of t (as_predicate e)) = Ok child ∧ plan_schema child = t_schema_ t ∧ query child = Ok rows ∧
    fueled child ∧ (S (length rows) < fuel)%nat.
Proof.
  intros Hdb Ht He Hq Hf.
  assert (fits fmt_2f c records (scan_of t (as_predicate e))) as Hfit.
  { cbn [fits scan_of]. destruct e as [| | |l r []| |]; try done.
    destruct l, r; cbn; try done; simpl in He; by destruct He. }
  destruct (optimize_scan fmt_2f c records _ _ _ _ Hdb Hfit Hq) as (child & rows' & Ho & Hs & Hq' & _ & Hr). rewrite (Hr eq_refl) in Hq'.
  assert (S (length rows) < fuel)%nat as Hrf.
  { cbn in Hq. unfold table_rows in Hq. rewrite Ht in Hq. apply selectM_length in Hq. lia. }
  assert (small fuel fmt_2f c records child) as Hsmall by (unfold small; by rewrite Hq').
  exists child. split; [done|]. split; [done|]. split; [done|]. split; [|done].
  destruct (optimize_scan_cases c records (t_schema_ t) (t_oid_ t) (as_predicate e) t Hdb Ht) as [H|(i & col & v & _ & _ & _ & _ & _ & H)];
    unfold scan_of in Ho; rewrite H in Ho; injection Ho as <-; split; first [done|lia].
Qed.

(** The plan of a SELECT, optimized, gives the answer the text asks for. *)
Lemma select_result select rv name t plan kept : db_current c records → plain_select select rv → relname rv = Some name →
  GetTable name c = Ok (Some t) → BindSelect stof c select = Ok plan → countable (t_schema_ t) → countable (plan_schema plan) →
  (S (length (records (t_oid_ t))) < fuel)%nat →
  sql_where stof (whereClause select) (table_env name rv t) = Some kept →
  sortable_keys stof (sortClause select) kept → (∀ ρ, ρ ∈ kept → presentable stof (targetList select) ρ) →
  ∃ plan' result answer, Optimize (Some c) plan = Ok plan' ∧ query_result fmt_2f c records plan' = Ok result ∧ fueled plan' ∧
    mapM tuple_data result = Some answer ∧ sql_answer stof select (table_env name rv t) answer.
Proof.
  intros Hdb (Hfrom & _ & Hagg) Hrel Ht Hbind Hn Hn' Hfuel Hw Hk Hp. unfold BindSelect in Hbind. rewrite Hfrom in Hbind.
  pose proof (dc_catalog _ _ Hdb) as Hc. pose proof (GetTable_tables c Hc name t Ht) as Htab.
  assert (select_from stof c [PGRange rv] = Ok ([mkScope (default name (alias rv)) t 0], scan_of t None)) as Hsf.
  { unfold select_from. cbn [foldR bind_from]. unfold scope_of. rewrite Hrel. cbn [c_str mbind res_bind]. unfold table_named. by rewrite Ht. }
  rewrite Hsf in Hbind. cbn [mbind res_bind] in Hbind.
  destruct (select_plan _ t select plan Hagg Hbind) as (e & obs & es & cols & He & Hobs & Hes & Hl & ->).
  destruct (scan_total _ t Hn _ e _ He _ Hw) as [rows Hrows]; [intros ρ Hρ; apply (Hp ρ Hρ)|].
  pose proof (scan_meaning stof _ t Hn _ e _ He rows Hrows) as Hm. unfold table_env in Hw. rewrite Hw in Hm. injection Hm as ->.
  assert (query (scan_of t (as_predicate e)) = Ok rows) as Hq by (cbn; unfold table_rows; by rewrite Htab).
  destruct (scan_optimized t e rows Hdb Htab (bound_present _ _ e He) Hq Hfuel) as (child & Ho & Hcs & Hcq & Hcf & Hrf).
  assert (∀ ch, plan_schema ch = t_schema_ t → plan_schema (select_shape t select obs es cols ch) =
    plan_schema (select_shape t select obs es cols (scan_of t (as_predicate e)))) as Hsch.
  { intros ch Hch. unfold select_shape. destruct (whole_row _); [|done]. by rewrite !base_schema. }
  destruct (shape_rows _ t Hn select obs es cols child rows Hcs Hcq Hcf Hrf Hobs Hes Hl) as (result & answer & sorted & Hr & Hf & Ha & Hord & Hrow);
    [by rewrite Hsch|done|done|].
  exists (select_shape t select obs es cols child), result, answer. split; [by apply shape_optimized|]. do 3 (split; [done|]).
  by eexists _, sorted.
Qed.
End SelectMeaning.

(** ** From the text to the answer *)

Section Answer.
Context {S : Type} `{PIO : !PageIO bytes S} {HO : HashOrder} {SS : StdSort} (fuel pages : nat).
Context (fmt_2f : Z → string) (stof : string → res Z) (Parse : string → PGParseResult).
Context (frames : 1 ≤ io_frames) (m : gmap Z bytes) (nid : Z) (c : Catalog) (heaps : Z → list (Z * (list bytes * Z))).
Context (Hheaps : ∀ oid t, tables_ c !! oid = Some t → heap_ok m (table_ t) (heaps oid) ∧ (length (heaps oid) < pages)%nat).
Let records : Z → list (RID * bytes) := λ oid, live (heaps oid).

(** C2: a SELECT from one table answers what its text means.  The statement, bound to a
    plan, optimized (with an index or without) and executed on the pages, ends and
    gives the data of an answer of the reference semantics: the rows the WHERE clause
    is true on, in an order the ORDER BY keys allow, cut by LIMIT, each giving the
    values of its targets; columns are found by their names, no index, plan or tuple
    occurs in the reference.  The indexes of the catalog have to be current
    ([db_current]; see [stale_index_misses_rows] for what happens otherwise), the WHERE
    clause has to be true or false on every row,
    the ORDER BY keys to be INTEGER or VARCHAR, and the columns and targets of the
    rows that are kept to have values. *)
Theorem select_meaning sql select rest rv name t plan kept :
  Parse sql = ParseTree (PGSelectStmt select :: rest) → plain_select select rv → relname rv = Some name →
  db_current c records → GetTable name c = Ok (Some t) → BindQuery stof c Parse sql = Ok plan →
  countable (t_schema_ t) → countable (plan_schema plan) → (Datatypes.S (length (records (t_oid_ t))) < fuel)%nat →
  sql_where stof (whereClause select) (table_env records name rv t) = Some kept →
  sortable_keys stof (sortClause select) kept → (∀ ρ, ρ ∈ kept → presentable stof (targetList select) ρ) →
  ∃ plan' result answer, Optimize (Some c) plan = Ok plan' ∧ computes (idle m nid, c) (Execute fuel pages fmt_2f plan') result ∧
    mapM tuple_data result = Some answer ∧ sql_answer stof select (table_env records name rv t) answer.
Proof.
  intros Hparse Hplain Hrel Hdb Ht Hbind Hn Hn' Hf Hw Hk Hp. unfold BindQuery in Hbind. rewrite Hparse in Hbind.
  destruct (select_result fuel fmt_2f stof c records select rv name t plan kept Hdb Hplain Hrel Ht Hbind Hn Hn' Hf Hw Hk Hp)
    as (plan' & result & answer & Ho & Hr & Hfuel & Ha & Hans).
  exists plan', result, answer. split; [done|]. split; [|done]. by apply (Execute_query fuel pages fmt_2f frames m nid c heaps).
Qed.
End Answer.

(** *** Witness: SELECT a + 1 AS w FROM t WHERE a = 7 ORDER BY a DESC LIMIT 1, by an index *)

Definition seven_select : PGSelect :=
  mkSelect [PGResTarget (Some "w") (op_expr "+" (col_ref "a") (int_const 1))] [from_table "t"]
    (op_expr "=" (col_ref "a") (int_const 7)) [] [PGSortBy (col_ref "a") true] (int_const 1) [].
Definition seven_parse (sql : string) : PGParseResult := ParseTree [PGSelectStmt seven_select].
Definition seven_plan : AbstractPlanNode :=
  match BindQuery no_floats indexed_catalog seven_parse "" with Ok plan => plan | _ => NullPlanNode end.
Definition seven_row : env := [mkSource "t" [("a", Some (DInt 7))]].

Lemma select_meaning_witness :
  sql_where no_floats (whereClause seven_select) (table_env demo_records "t" (mkRangeVar (Some "t") None) int_table) = Some [seven_row; seven_row] ∧
  ∃ plan' result answer, Optimize (HO := listed_order) (Some indexed_catalog) seven_plan = Ok plan' ∧
    computes (PIO := demo_io) (idle int_pages 1, indexed_catalog)
      (Execute (PIO := demo_io) (HO := listed_order) (SS := insertion_std_sort) 9 2 (λ _, "") plan') result ∧
    mapM tuple_data result = Some answer ∧ length answer = 1%nat ∧
    sql_answer no_floats seven_select (table_env demo_records "t" (mkRangeVar (Some "t") None) int_table) answer.
Proof.
  split; [vm_compute; reflexivity|].
  destruct (select_meaning (PIO := demo_io) (HO := listed_order) (SS := insertion_std_sort) 9 2 (λ _, "") no_floats seven_parse
    ltac:(vm_compute; discriminate) int_pages 1 indexed_catalog demo_heaps demo_heaps_ok "" seven_select [] (mkRangeVar (Some "t") None)
    "t" int_table seven_plan [seven_row; seven_row]) as (plan' & result & answer & Ho & He & Ha & Hans).
  - reflexivity.
  - split; [reflexivity|]. split; [reflexivity|]. repeat constructor.
  - reflexivity.
  - exact indexed_db_current.
  - vm_compute. reflexivity.
  - vm_compute. reflexivity.
  - vm_compute. reflexivity.
  - vm_compute. reflexivity.
  - vm_compute. lia.
  - vm_compute. reflexivity.
  - intros node d Hin. apply list_elem_of_singleton in Hin as [= -> ->]. left. intros ρ Hρ. exists 7.
    apply elem_of_cons in Hρ as [->|Hρ]; [reflexivity|]. apply list_elem_of_singleton in Hρ as ->. reflexivity.
  - intros ρ Hρ. assert (ρ = seven_row) as -> by (apply elem_of_cons in Hρ as [->|Hρ]; [done|by apply list_elem_of_singleton in Hρ]).
    split; [exists [DInt 7]|exists [DInt 8]]; (split; [reflexivity|]); repeat constructor.
  - exists plan', result, answer. split; [exact Ho|]. split; [exact He|]. split; [exact Ha|]. split; [|exact Hans].
    destruct Hans as (kept & sorted & Hw & [Hp _] & Hrow). vm_compute in Hw. injection Hw as <-.
    destruct sorted as [|ρ sorted]; [by apply Permutation_length in Hp|]. cbn [sql_limit seven_select limitCount int_const] in Hrow.
    change (Z.to_nat (u64 1)) with 1%nat in Hrow. cbn [take mapM] in Hrow. destruct (sql_row _ _ ρ); [|discriminate Hrow]. by injection Hrow as <-.
Defined.
