(* ===== verification/JoinMeaning.v ===== *)
(** * What a join means

    SELECT * from a join of two tables, in terms of [Meaning]: all pairs of rows, those
    the ON and WHERE clauses are true on, with all columns of both.  The optimizer may
    turn the nested loops into a hash join, so the rows come in any order. *)

From S2P Require Import Prelude Common Value Tuple Expression PageStore PageIO PageLogic TablePage TableHeap Catalog Executor.
From S2P Require Import Operators Join Aggregate Dml OrderBy Utility Engine Optimizer Binder Meaning SelectMeaning.

(** ** The reference *)

Section Reference.
Context (stof : string → res Z).

Definition pairs (ls rs : list env) : list env := ls ≫= λ l, (λ r, l ++ r) <$> rs.
Definition join_condition (on clause : PGNode) (ρ : env) : option bool :=
  x ← condition stof on ρ; y ← condition stof clause ρ; Some (x && y).
(** The pairs both clauses are true on, when both are true or false on every pair. *)
Fixpoint sql_join (on clause : PGNode) (ρs : list env) : option (list env) :=
  match ρs with
  | [] => Some []
  | ρ :: ρs => keep ← join_condition on clause ρ; rest ← sql_join on clause ρs; Some (if keep : bool then ρ :: rest else rest)
  end.
Definition whole (ρ : env) : option (list datum) := mapM snd (ρ ≫= src_columns).
(** The pairs a pair of conditions keeps. *)
Definition kept_pairs (on clause : PGNode) (ρs : list env) : list env := filter (λ ρ, join_condition on clause ρ = Some true) ρs.

Lemma sql_join_kept on clause ρs kept : sql_join on clause ρs = Some kept →
  kept = kept_pairs on clause ρs ∧ ∀ ρ, ρ ∈ ρs → is_Some (join_condition on clause ρ).
Proof.
  revert kept. induction ρs as [|ρ ρs IH]; intros kept H; cbn [sql_join] in H.
  - injection H as <-. split; [done|]. intros ρ Hρ. by apply elem_of_nil in Hρ.
  - destruct (join_condition on clause ρ) as [keep|] eqn:Ek; [|done]. cbn [mbind option_bind] in H.
    destruct (sql_join on clause ρs) as [rest|]; [|done]. injection H as <-. destruct (IH rest eq_refl) as [-> Hall].
    split; [unfold kept_pairs; rewrite filter_cons, Ek; destruct keep; [by rewrite decide_True|by rewrite decide_False]|].
    intros ρ' [->|Hρ]%elem_of_cons; [by rewrite Ek|by apply Hall].
Qed.
End Reference.

(** ** Lists of pairs *)

Lemma Forall2_bind {A B C D} (R : A → B → Prop) (Q : C → D → Prop) (f : A → list C) (g : B → list D) l k :
  Forall2 R l k → (∀ x y, x ∈ l → y ∈ k → R x y → Forall2 Q (f x) (g y)) → Forall2 Q (l ≫= f) (k ≫= g).
Proof.
  induction 1 as [|x y l k Hxy _ IH]; intros H; [constructor|]. rewrite !bind_cons. apply Forall2_app.
  - by apply H; [left|left|].
  - apply IH. intros; apply H; [by right|by right|done].
Qed.

Lemma filter_bind {A B} (P : B → Prop) `{∀ x, Decision (P x)} (f : A → list B) (l : list A) :
  filter P (l ≫= f) = l ≫= λ x, filter P (f x).
Proof. induction l as [|x l IH]; [done|]. by rewrite !bind_cons, filter_app, IH. Qed.
Lemma filter_fmap_bind {A B} (P : B → Prop) `{∀ x, Decision (P x)} (f : A → B) (l : list A) :
  filter P (f <$> l) = l ≫= λ x, if decide (P (f x)) then [f x] else [].
Proof. induction l as [|x l IH]; [done|]. rewrite fmap_cons, filter_cons, bind_cons, <- IH. by case_decide. Qed.

(** ** The rows of the nested loops *)

Section JoinMeaning.
Context {HO : HashOrder} {SS : StdSort} (fuel : nat) (fmt_2f : Z → string) (stof : string → res Z).
Context (a b : string) (t u : TableInfo) (count_t : countable (t_schema_ t)) (count_u : countable (t_schema_ u)).
Let scopes : list TableScope := [mkScope a t 0; mkScope b u 1].
Abbreviation left_env := (tuple_env a (t_schema_ t)).
Abbreviation right_env := (tuple_env b (t_schema_ u)).

(** The predicate the binder makes of the two clauses. *)
Definition join_predicate (q : AbstractExpression) (clause : PGNode) (e : AbstractExpression) : option AbstractExpression :=
  match clause with
  | PGNull => as_predicate q
  | _ => as_predicate (match as_predicate q with Some q => LogicExpression q e LAnd | None => e end)
  end.

Lemma bool_outcome (m : res Value) k : (v ← m; GetAsBoolean v) = Ok k ↔ outcome m ≫= as_bool = Some k.
Proof. destruct m as [v| | |]; try done. apply as_bool_GetAsBoolean. Qed.

Lemma conjunction_holds read q e k : (v ← eval read (LogicExpression q e LAnd); GetAsBoolean v) = Ok k ↔
  ∃ x y, (v ← eval read q; GetAsBoolean v) = Ok x ∧ (v ← eval read e; GetAsBoolean v) = Ok y ∧ k = x && y.
Proof.
  rewrite bool_outcome. cbn [eval]. rewrite (operation_outcome _ _ _ _ (logic_operation LAnd)). setoid_rewrite bool_outcome.
  destruct (outcome (eval read q)) as [d|]; [|naive_solver]. cbn [mbind option_bind].
  destruct (outcome (eval read e)) as [d'|]; cbn [mbind option_bind]; [|naive_solver].
  destruct (as_bool d) as [x|], (as_bool d') as [y|]; cbn; naive_solver.
Qed.

Lemma join_holds on clause q e l r keep : BindExpression stof scopes on = Ok q → BindExpression stof scopes clause = Ok e →
  (filters_nothing clause = true → clause = PGNull) →
  join_matches (join_predicate q clause e) l (t_schema_ t) r (t_schema_ u) = Ok keep ↔
  join_condition stof on clause (left_env l ++ right_env r) = Some keep.
Proof.
  intros Hq He Hnull.
  pose (read := λ tuple_idx col, if tuple_idx =? 0 then GetValueBy l (t_schema_ t) col else GetValueBy r (t_schema_ u) col).
  change (left_env l ++ right_env r) with (env_of scopes read). unfold join_condition, join_matches, EvaluateJoin. fold read.
  set (ρ := env_of scopes read). pose proof (λ k, holds_meaning stof scopes read on q k Hq) as Hon. fold ρ in Hon.
  pose proof (λ k, holds_meaning stof scopes read clause e k He) as Hwhere. fold ρ in Hwhere.
  assert (clause = PGNull ∨ clause ≠ PGNull) as [->|Hne] by (destruct clause; first [by left|by right]).
  - injection He as <-. cbn [join_predicate]. rewrite Hon. destruct (condition stof on ρ) as [x|]; [|done]. simpl. by rewrite andb_true_r.
  - assert (filters_nothing clause = false) as Hf by (destruct (filters_nothing clause); [by destruct (Hne (Hnull eq_refl))|done]).
    assert (e ≠ NullExpression) as Hne' by (intros ->; by rewrite (proj1 (bound_null stof scopes clause _ He) eq_refl) in Hf).
    assert (as_predicate e = Some e) as Hae by (by destruct e). rewrite Hae in Hwhere.
    assert (join_predicate q clause e = Some (match as_predicate q with Some q => LogicExpression q e LAnd | None => e end)) as ->
      by (destruct clause; try done; simpl; destruct (as_predicate q); done).
    destruct (as_predicate q) as [q'|].
    + rewrite conjunction_holds. setoid_rewrite Hon. setoid_rewrite Hwhere.
      destruct (condition stof on ρ), (condition stof clause ρ); simpl; naive_solver.
    + rewrite Hwhere. rewrite (proj1 (Hon true) eq_refl). simpl. by destruct (condition stof clause ρ).
Qed.

(** *** The joined rows *)

(** A row of the join and the pair it comes from. *)
Definition joins (sch : Schema) (r : Row) (ρ : env) : Prop :=
  ∃ ds, tuple_data r.1 = Some ds ∧ whole ρ = Some ds ∧ Forall short ds ∧ length (values_ r.1) = length (columns_ sch).
(** A row whose columns all have values. *)
Definition readable (ρ : env) : Prop := ∃ ds, whole ρ = Some ds ∧ Forall short ds.

Lemma joined_row sch (l r : Tuple) : length (columns_ sch) = (length (columns_ (t_schema_ t)) + length (columns_ (t_schema_ u)))%nat →
  readable (left_env l) → readable (right_env r) →
  ∃ tup, joined_tuple l (t_schema_ t) r (t_schema_ u) = Ok tup ∧ ∀ rid, joins sch (tup, rid) (left_env l ++ right_env r).
Proof.
  intros Hcols (ds & Hds & Hs) (ds' & Hds' & Hs'). unfold whole in Hds, Hds'. simpl in Hds, Hds'. rewrite app_nil_r in Hds, Hds'.
  destruct (row_values_total _ _ _ count_t Hds) as (vs & Hvs & Hdat), (row_values_total _ _ _ count_u Hds') as (ws & Hws & Hdat').
  pose proof (mapM_app datum_of vs ws _ _ Hdat Hdat') as Hall.
  destruct (Tuple_new_short _ _ Hall) as (tup & Ht & Hv); [by apply Forall_app|].
  exists tup. unfold joined_tuple. rewrite Hvs, Hws. cbn [mbind res_bind]. split; [done|]. intros rid. exists (ds ++ ds'). simpl.
  split; [unfold tuple_data; by rewrite Hv|]. split; [|split; [by apply Forall_app|]].
  - unfold whole. simpl. rewrite app_nil_r. by apply mapM_app.
  - rewrite Hv, length_app, (row_values_length _ _ _ count_t Hvs), (row_values_length _ _ _ count_u Hws). done.
Qed.

Abbreviation left_rows rows := ((λ r : Row, left_env r.1) <$> (rows : list Row)).
Abbreviation right_rows rows := ((λ r : Row, right_env r.1) <$> (rows : list Row)).

(** The nested loops give a row for each pair that is kept. *)
Lemma nlj_meaning sch on clause q e lrows rrows : BindExpression stof scopes on = Ok q → BindExpression stof scopes clause = Ok e →
  (filters_nothing clause = true → clause = PGNull) →
  length (columns_ sch) = (length (columns_ (t_schema_ t)) + length (columns_ (t_schema_ u)))%nat →
  (∀ ρ, ρ ∈ left_rows lrows → readable ρ) → (∀ ρ, ρ ∈ right_rows rrows → readable ρ) →
  (∀ ρ, ρ ∈ pairs (left_rows lrows) (right_rows rrows) → is_Some (join_condition stof on clause ρ)) →
  ∃ rows, nlj_rows (join_predicate q clause e) (t_schema_ t) (t_schema_ u) lrows rrows = Ok rows ∧
    Forall2 (joins sch) rows (kept_pairs stof on clause (pairs (left_rows lrows) (right_rows rrows))).
Proof.
  intros Hq He Hnull Hcols Hl Hr Hdef.
  assert (∀ l r : Row, l ∈ lrows → r ∈ rrows → ∃ o, nlj_match (join_predicate q clause e) (t_schema_ t) (t_schema_ u) l.1 r = Ok o ∧
    Forall2 (joins sch) (match o with Some x => [x] | None => [] end)
      (if decide (join_condition stof on clause (left_env l.1 ++ right_env r.1) = Some true) then [left_env l.1 ++ right_env r.1] else [])) as Hmatch.
  { intros l r Hin Hin'. destruct (Hdef (left_env l.1 ++ right_env r.1)) as [keep Hk].
    { apply list_elem_of_bind. exists (left_env l.1). split; [|by apply (list_elem_of_fmap_2 (λ r : Row, left_env r.1))].
      apply (list_elem_of_fmap_2 (λ ρ, left_env l.1 ++ ρ)). by apply (list_elem_of_fmap_2 (λ r : Row, right_env r.1)). }
    pose proof (proj2 (join_holds on clause q e l.1 r.1 keep Hq He Hnull) Hk) as Hm. unfold nlj_match. rewrite Hm, Hk. cbn [mbind res_bind].
    destruct keep; [|exists None; split; [done|]; rewrite decide_False by done; constructor].
    destruct (joined_row sch l.1 r.1 Hcols) as (tup & -> & Hj); [apply Hl|apply Hr|].
    { by apply (list_elem_of_fmap_2 (λ r : Row, left_env r.1)). }
    { by apply (list_elem_of_fmap_2 (λ r : Row, right_env r.1)). }
    eexists. split; [reflexivity|]. rewrite decide_True by done. constructor; [apply Hj|constructor]. }
  eexists. split; [apply nlj_rows_bind; split; [|reflexivity]; intros l Hin r Hin'; destruct (Hmatch l r Hin Hin') as (o & Ho & _); by exists o|].
  unfold kept_pairs, pairs. rewrite filter_bind.
  assert (∀ {X Y} (f : X → Y) (l : list X), Forall2 (λ x y, y = f x) l (f <$> l)) as Hmap by (intros X Y f l; induction l; by constructor).
  apply (Forall2_bind (λ (l : Row) ρ, ρ = left_env l.1)); [apply Hmap|]. intros l ρ Hin _ ->.
  rewrite filter_fmap_bind. apply (Forall2_bind (λ (r : Row) ρ, ρ = right_env r.1)); [apply Hmap|]. intros r ρ Hin' _ ->.
  destruct (Hmatch l r Hin Hin') as (o & Ho & HF). by rewrite (kept_by_ok _ _ o Ho).
Qed.
End JoinMeaning.

(** ** Scans of whole tables *)

Lemma where_nothing stof ρs : sql_where stof PGNull ρs = Some ρs.
Proof. induction ρs as [|ρ ρs IH]; [done|]. cbn [sql_where]. by rewrite IH. Qed.

Lemma full_scan a t es : countable (t_schema_ t) → (∀ ρ, ρ ∈ record_env a (t_schema_ t) <$> es → readable ρ) →
  ∃ rows, scan_rows (t_schema_ t) None es = Ok rows ∧ ((λ r : Row, tuple_env a (t_schema_ t) r.1) <$> rows) = record_env a (t_schema_ t) <$> es.
Proof.
  intros Hn Hr. pose proof (where_nothing (λ _, Ok 0) (record_env a (t_schema_ t) <$> es)) as Hw.
  destruct (scan_total (λ _, Ok 0) a t Hn PGNull NullExpression es eq_refl _ Hw Hr) as [rows Hrows]. exists rows. split; [done|].
  pose proof (scan_meaning (λ _, Ok 0) a t Hn PGNull NullExpression es eq_refl rows Hrows) as Hm. rewrite Hw in Hm. by injection Hm as ->.
Qed.

(** ** The keys of a hash join *)

(** A hash join compares the printed text of its keys: that of floats is rounded. *)
Definition no_floats_in (schema : Schema) : Prop := Forall (λ col, col_type col ≠ FLOAT) (columns_ schema).

Lemma printable_column t es rows i col r : countable (t_schema_ t) → no_floats_in (t_schema_ t) → scan_rows (t_schema_ t) None es = Ok rows →
  columns_ (t_schema_ t) !! i = Some col → r ∈ rows → printable (col_type col).
Proof.
  intros Hn Hf Hs Hc Hr. destruct (scanned_column t None es rows i col Hn Hs Hc r Hr) as (_ & _ & _ & _ & Hi).
  pose proof (Forall_lookup_1 _ _ _ _ Hf Hc) as H. cbv beta in H. unfold printable. destruct (col_type col); naive_solver.
Qed.

Lemma column_keys t es rows (i : nat) col : countable (t_schema_ t) → scan_rows (t_schema_ t) None es = Ok rows →
  columns_ (t_schema_ t) !! i = Some col → key_typed (col_type col) (t_schema_ t) (ColumnValueExpression 0 (Z.of_nat i) (col_type col)) rows.
Proof.
  intros Hn Hs Hc r Hr. destruct (scanned_column t None es rows i col Hn Hs Hc r Hr) as (v & Hv & Ht & Hp & _). by exists v.
Qed.

Section JoinKeys.
Context (a b : string) (t u : TableInfo) (count_t : countable (t_schema_ t)) (count_u : countable (t_schema_ u)).
Context (floats_t : no_floats_in (t_schema_ t)) (floats_u : no_floats_in (t_schema_ u)).
Let scopes : list TableScope := [mkScope a t 0; mkScope b u 1].

Lemma in_left c ty : in_scope scopes 0 c ty → ∃ (i : nat) col, c = Z.of_nat i ∧ columns_ (t_schema_ t) !! i = Some col ∧ col_type col = ty.
Proof.
  intros (s & col & Hs & Hi & Hc & Hcol & <-). unfold scopes in Hs.
  apply elem_of_cons in Hs as [->|Hs]; [|apply list_elem_of_singleton in Hs as ->; discriminate Hi].
  exists (Z.to_nat c), col. split; [lia|done].
Qed.
Lemma in_right c ty : in_scope scopes 1 c ty → ∃ (i : nat) col, c = Z.of_nat i ∧ columns_ (t_schema_ u) !! i = Some col ∧ col_type col = ty.
Proof.
  intros (s & col & Hs & Hi & Hc & Hcol & <-). unfold scopes in Hs.
  apply elem_of_cons in Hs as [->|Hs]; [discriminate Hi|]. apply list_elem_of_singleton in Hs as ->.
  exists (Z.to_nat c), col. split; [lia|done].
Qed.

Lemma equal_types v w x : CompareEquals v w = Ok x → type_id_ v = type_id_ w.
Proof. unfold CompareEquals, same_type, assert. case_bool_decide; done. Qed.

(** Both keys of a rewritten join have one type, whose values print apart. *)
Lemma join_keys p lk rk les res lrows rrows : bound_in scopes p → join_columns (Some p) = Some (lk, rk) →
  scan_rows (t_schema_ t) None les = Ok lrows → scan_rows (t_schema_ u) None res = Ok rrows →
  (∀ l r : Row, l ∈ lrows → r ∈ rrows → ∃ keep, join_matches (Some p) l.1 (t_schema_ t) r.1 (t_schema_ u) = Ok keep) →
  ∃ type, printable type ∧ key_typed type (t_schema_ t) lk lrows ∧ key_typed type (t_schema_ u) rk rrows.
Proof.
  intros Hb Hj Hl Hr Hdef.
  assert (∃ (i j : nat) coll colr, columns_ (t_schema_ t) !! i = Some coll ∧ columns_ (t_schema_ u) !! j = Some colr ∧
    lk = ColumnValueExpression 0 (Z.of_nat i) (col_type coll) ∧ rk = ColumnValueExpression 0 (Z.of_nat j) (col_type colr) ∧
    ∀ l r : Row, l ∈ lrows → r ∈ rrows → col_type coll = col_type colr) as (i & j & coll & colr & Hi & Hj' & -> & -> & Hsame).
  { destruct p as [| | |[|t1 c1 ty1| | | |] [|t2 c2 ty2| | | |] []| |]; try discriminate Hj. simpl in Hj, Hb. destruct Hb as [Hb1 Hb2].
    destruct (Z.eqb_spec t1 0) as [->|]; simpl in Hj.
    - destruct (Z.eqb_spec t2 1) as [->|]; simpl in Hj; [|discriminate Hj]. injection Hj as <- <-.
      destruct (in_left _ _ Hb1) as (i & coll & -> & Hi & <-), (in_right _ _ Hb2) as (j & colr & -> & Hj & <-).
      exists i, j, coll, colr. do 4 (split; [done|]). intros l r Hinl Hinr. destruct (Hdef l r Hinl Hinr) as [keep Hk].
      destruct (scanned_column t None les lrows i coll count_t Hl Hi l Hinl) as (v & Hv & <- & _).
      destruct (scanned_column u None res rrows j colr count_u Hr Hj r Hinr) as (w & Hw & <- & _).
      unfold join_matches, EvaluateJoin in Hk. cbn [eval] in Hk. simpl in Hk. rewrite Hv, Hw in Hk. simpl in Hk.
      destruct (CompareEquals v w) as [x| | |] eqn:E; try done. by eapply equal_types.
    - destruct (Z.eqb_spec t1 1) as [->|]; simpl in Hj; [|discriminate Hj].
      destruct (Z.eqb_spec t2 0) as [->|]; simpl in Hj; [|discriminate Hj]. injection Hj as <- <-.
      destruct (in_right _ _ Hb1) as (j & colr & -> & Hj & <-), (in_left _ _ Hb2) as (i & coll & -> & Hi & <-).
      exists i, j, coll, colr. do 4 (split; [done|]). intros l r Hinl Hinr. destruct (Hdef l r Hinl Hinr) as [keep Hk].
      destruct (scanned_column t None les lrows i coll count_t Hl Hi l Hinl) as (v & Hv & <- & _).
      destruct (scanned_column u None res rrows j colr count_u Hr Hj r Hinr) as (w & Hw & <- & _).
      unfold join_matches, EvaluateJoin in Hk. cbn [eval] in Hk. simpl in Hk. rewrite Hv, Hw in Hk. simpl in Hk.
      destruct (CompareEquals w v) as [x| | |] eqn:E; try done. symmetry. by eapply equal_types. }
  pose proof (column_keys t les lrows i coll count_t Hl Hi) as Hkl. pose proof (column_keys u res rrows j colr count_u Hr Hj') as Hkr.
  destruct lrows as [|l lrows].
  - destruct rrows as [|r rrows].
    + exists INTEGER. split; [by right; left|]. split; intros x Hx; by apply elem_of_nil in Hx.
    + exists (col_type colr). split; [by apply (printable_column u res (r :: rrows) j colr r); [..|left]|]. split; [|done].
      intros x Hx. by apply elem_of_nil in Hx.
  - exists (col_type coll). split; [by apply (printable_column t les (l :: lrows) i coll l); [..|left]|]. split; [done|].
    intros r Hin. destruct (Hkr r Hin) as (v & Hv & Hty & Hp). exists v. split; [done|]. split; [|done].
    rewrite Hty. symmetry. apply (Hsame l r); [by left|done].
Qed.
End JoinKeys.

(** ** From the text to the answer *)

(** SELECT * from a join of two tables, without aggregates, GROUP BY, ORDER BY and LIMIT. *)
Definition star_join (select : PGSelect) (lrv rrv : PGRangeVar) (on : PGNode) : Prop :=
  fromClause select = [PGJoinExpr (PGRange lrv) (PGRange rrv) on] ∧ groupClause select = [] ∧ sortClause select = [] ∧
  limitCount select = PGNull ∧ Forall (λ n, calls_aggregate n = false) (targetList select) ∧ whole_row (targetList select) = true.

Lemma star_targets stof scopes select T base : Forall (λ n, calls_aggregate n = false) (targetList select) → whole_row (targetList select) = true →
  foldR (bind_target stof scopes) (mkTargets [] [] [] false) (targetList select) = Ok T →
  (∀ group, select_aggregates stof scopes group T base = Ok base) ∧ select_projection T base = Ok base.
Proof.
  intros Hagg Hw HT. destruct (bind_targets_meaning _ _ _ Hagg _ _ HT) as (es & ss & Hes & Hl & ->). cbn [agg_calls output_exprs output_names is_star app].
  split; [done|]. unfold select_projection. cbn [is_star output_exprs]. unfold whole_row in Hw. apply orb_true_iff in Hw as [->|Hw]; [done|].
  apply bool_decide_eq_true in Hw. rewrite Hw in Hes. apply Forall2_nil_inv_l in Hes as ->. by rewrite andb_false_r.
Qed.

Lemma Permutation_fmap_Forall2 {A B} (R : A → B → Prop) l l' k : l' ≡ₚ l → Forall2 R l k → ∃ k', Forall2 R l' k' ∧ k' ≡ₚ k.
Proof.
  intros Hp HF. destruct (Permutation_Forall2 (Permutation_sym Hp) HF) as (k' & Hk & HF'). exists k'. by split.
Qed.

Section JoinAnswer.
Context {HO : HashOrder} {SS : StdSort} (fuel : nat) (fmt_2f : Z → string) (stof : string → res Z) (c : Catalog) (records : Z → list (RID * bytes)).
Abbreviation query := (query_rows fmt_2f c records).
Context (ln rn : string) (lrv rrv : PGRangeVar) (t u : TableInfo).
Context (left_name : relname lrv = Some ln) (right_name : relname rrv = Some rn).
Context (left_table : GetTable ln c = Ok (Some t)) (right_table : GetTable rn c = Ok (Some u)).
Let a := default ln (alias lrv).
Let b := default rn (alias rrv).
Let scopes : list TableScope := [mkScope a t 0; mkScope b u 1].
Let sch : Schema := CollectAllColumns scopes.

Lemma join_plan_of select on plan : star_join select lrv rrv on → BindSelect stof c select = Ok plan →
  ∃ q e, BindExpression stof scopes on = Ok q ∧ BindExpression stof scopes (whereClause select) = Ok e ∧
    plan = NestedLoopJoinPlanNode sch (scan_of t None) (scan_of u None) (join_predicate q (whereClause select) e).
Proof.
  intros (Hfrom & _ & Hsort & Hlimit & Hagg & Hw) H. unfold BindSelect in H. rewrite Hfrom, Hsort, Hlimit in H.
  destruct (select_from stof c _) as [[scs base]| | |] eqn:Ef; try done.
  unfold select_from in Ef. cbn [foldR bind_from as_range_var mbind res_bind] in Ef. unfold scope_of in Ef. rewrite left_name, right_name in Ef.
  cbn [c_str mbind res_bind] in Ef. unfold table_named in Ef. rewrite left_table, right_table in Ef. cbn [mbind res_bind fr_scopes app sc_info] in Ef.
  fold a b in Ef. fold scopes in Ef. destruct (BindExpression stof scopes on) as [q| | |] eqn:Eq; try done.
  cbn [mbind res_bind fr_scopes fr_plans fr_base] in Ef. injection Ef as <- <-. cbn [mbind res_bind] in H. fold sch in H.
  assert (∃ e, BindExpression stof scopes (whereClause select) = Ok e ∧
    select_where stof scopes (whereClause select) (NestedLoopJoinPlanNode sch (scan_of t None) (scan_of u None) (as_predicate q)) =
      Ok (NestedLoopJoinPlanNode sch (scan_of t None) (scan_of u None) (join_predicate q (whereClause select) e))) as (e & He & Hwh).
  { unfold select_where, join_predicate in *. destruct (whereClause select); [by exists NullExpression|..];
      (match type of H with context [BindExpression ?f ?s ?n] => destruct (BindExpression f s n) as [e| | |]; try done; by exists e end). }
  rewrite Hwh in H. cbn [mbind res_bind] in H. destruct (foldR _ _ _) as [T| | |] eqn:ET; try done. cbn [mbind res_bind] in H.
  destruct (star_targets stof scopes select T (NestedLoopJoinPlanNode sch (scan_of t None) (scan_of u None) (join_predicate q (whereClause select) e))
    Hagg Hw ET) as [Ha Hp].
  rewrite Ha in H. cbn [mbind res_bind select_order select_limit] in H. rewrite Hp in H. injection H as <-. by exists q, e.
Qed.

Lemma join_columns_count : length (columns_ sch) = (length (columns_ (t_schema_ t)) + length (columns_ (t_schema_ u)))%nat.
Proof.
  unfold sch, CollectAllColumns. cbn. pose proof (f_equal length (Schema_new_types (columns_ (t_schema_ t) ++ columns_ (t_schema_ u) ++ []))) as H.
  rewrite !length_fmap in H. rewrite H, app_nil_r. apply length_app.
Qed.

Lemma predicate_bound q e clause p : BindExpression stof scopes clause = Ok e → bound_in scopes q → join_predicate q clause e = Some p →
  is_Some (join_columns (Some p)) → bound_in scopes p.
Proof.
  intros He Hq Hp [k Hj]. pose proof (BindExpression_bound stof scopes clause e He) as Hbe.
  assert (p = q ∨ p = e) as [->| ->]; [|done..]. unfold join_predicate, as_predicate in Hp.
  destruct clause, q; try (injection Hp as <-; by left); try (destruct e; try discriminate Hp; injection Hp as <-; by right);
    try discriminate Hp; injection Hp as <-; discriminate Hj.
Qed.

Abbreviation left_env := (tuple_env a (t_schema_ t)).
Abbreviation right_env := (tuple_env b (t_schema_ u)).
Abbreviation left_rows rows := ((λ r : Row, left_env r.1) <$> (rows : list Row)).
Abbreviation right_rows rows := ((λ r : Row, right_env r.1) <$> (rows : list Row)).
(** The rows of the two tables, named as the FROM clause does. *)
Definition left_table_env : list env := table_env records ln lrv t.
Definition right_table_env : list env := table_env records rn rrv u.

Lemma pairs_length ls rs : length (pairs ls rs) = (length ls * length rs)%nat.
Proof. unfold pairs. induction ls as [|l ls IH]; [done|]. rewrite bind_cons, length_app, length_fmap, IH. done. Qed.

Lemma kept_length on clause ls rs : (length (kept_pairs stof on clause (pairs ls rs)) ≤ length ls * length rs)%nat.
Proof. rewrite <- pairs_length. apply length_filter. Qed.

(** The join of two whole scans is computed, optimized or not, within the fuel. *)
Lemma optimized_join p lrows rrows rows : db_current c records → tables_ c !! t_oid_ t = Some t → tables_ c !! t_oid_ u = Some u →
  query (scan_of t None) = Ok lrows → query (scan_of u None) = Ok rrows → nlj_rows p (t_schema_ t) (t_schema_ u) lrows rrows = Ok rows →
  fits fmt_2f c records (NestedLoopJoinPlanNode sch (scan_of t None) (scan_of u None) p) →
  (S (length (records (t_oid_ t))) < fuel)%nat → (S (length (records (t_oid_ u))) < fuel)%nat → (S (length rows) < fuel)%nat →
  ∃ plan' rows', Optimize (Some c) (NestedLoopJoinPlanNode sch (scan_of t None) (scan_of u None) p) = Ok plan' ∧
    plan_schema plan' = sch ∧ query plan' = Ok rows' ∧ rows' ≡ₚ rows ∧ enough_fuel fuel fmt_2f c records plan'.
Proof.
  intros Hdb Htt Htu Hl Hr Hrows Hfit Hf1 Hf2 Hf3.
  assert (∀ i j, tables_ c !! t_oid_ i = Some i → query (scan_of i None) = Ok j → (S (length (records (t_oid_ i))) < fuel)%nat →
    enough_fuel fuel fmt_2f c records (scan_of i None)) as Hscan.
  { intros i j Hi Hj Hf. split; [|simpl; lia]. unfold small. unfold scan_of in Hj. rewrite Hj. cbn in Hj. unfold table_rows in Hj. rewrite Hi in Hj.
    apply selectM_length in Hj. lia. }
  set (plan := NestedLoopJoinPlanNode _ _ _ _) in *.
  assert (query plan = Ok rows) as Hq by (unfold plan; cbn [query_rows]; rewrite Hl, Hr; exact Hrows).
  destruct (optimize_rows fmt_2f c records plan rows Hdb Hfit Hq) as (plan' & rows' & Ho & Hs & Hq' & Hp & _).
  exists plan', rows'. do 4 (split; [done|]).
  assert (small fuel fmt_2f c records plan') as Hsmall by (unfold small; by rewrite Hq', Hp).
  unfold plan in Ho. cbn [Optimize scan_of] in Ho. unfold apply_rules, OptimizeSeqScanToIndexScan in Ho. cbn [lookup_columns mbind res_bind] in Ho.
  injection Ho as <-. cbn [OptimizeNLJToHashJoin] in *. fold (scan_of t None) (scan_of u None) in *.
  destruct (join_columns p) as [[lk rk]|]; (split; [exact Hsmall|]); by split; eapply Hscan.
Qed.

(** The plan of a join, optimized, gives the pairs the text asks for. *)
Lemma join_result select on plan kept : db_current c records → star_join select lrv rrv on → BindSelect stof c select = Ok plan →
  countable (t_schema_ t) → countable (t_schema_ u) → countable (plan_schema plan) → no_floats_in (t_schema_ t) → no_floats_in (t_schema_ u) →
  (filters_nothing (whereClause select) = true → whereClause select = PGNull) →
  (∀ ρ, ρ ∈ left_table_env ++ right_table_env → readable ρ) →
  sql_join stof on (whereClause select) (pairs left_table_env right_table_env) = Some kept →
  (S (length left_table_env) < fuel)%nat → (S (length right_table_env) < fuel)%nat →
  (S (length left_table_env * length right_table_env) < fuel)%nat →
  ∃ plan' result answer data, Optimize (Some c) plan = Ok plan' ∧ query_result fmt_2f c records plan' = Ok result ∧
    enough_fuel fuel fmt_2f c records plan' ∧ mapM tuple_data result = Some answer ∧ mapM whole kept = Some data ∧ answer ≡ₚ data.
Proof.
  intros Hdb Hsel Hbind Hnt Hnu Hnp Hft Hfu Hnull Hread Hjoin Hf1 Hf2 Hf3.
  pose proof (dc_catalog _ _ Hdb) as Hc. pose proof (GetTable_tables c Hc ln t left_table) as Htt.
  pose proof (GetTable_tables c Hc rn u right_table) as Htu.
  destruct (join_plan_of select on plan Hsel Hbind) as (q & e & Hq & He & ->).
  destruct (full_scan a t (records (t_oid_ t)) Hnt) as (lrows & Hl & Hle); [intros ρ Hρ; apply Hread, elem_of_app; by left|].
  destruct (full_scan b u (records (t_oid_ u)) Hnu) as (rrows & Hr & Hre); [intros ρ Hρ; apply Hread, elem_of_app; by right|].
  change (left_rows lrows = left_table_env) in Hle. change (right_rows rrows = right_table_env) in Hre.
  destruct (sql_join_kept _ _ _ _ _ Hjoin) as [-> Hdef].
  destruct (nlj_meaning stof a b t u Hnt Hnu sch on (whereClause select) q e lrows rrows Hq He Hnull join_columns_count) as (rows & Hrows & Hjoins);
    [by rewrite Hle; intros; apply Hread, elem_of_app; left|by rewrite Hre; intros; apply Hread, elem_of_app; right|by rewrite Hle, Hre|].
  rewrite Hle, Hre in Hjoins.
  assert (query (scan_of t None) = Ok lrows) as Hql by (cbn; unfold table_rows; by rewrite Htt).
  assert (query (scan_of u None) = Ok rrows) as Hqr by (cbn; unfold table_rows; by rewrite Htu).
  assert (∀ l r : Row, l ∈ lrows → r ∈ rrows → ∃ keep, join_matches (join_predicate q (whereClause select) e) l.1 (t_schema_ t) r.1 (t_schema_ u) = Ok keep)
    as Hmatch.
  { intros l r Hin Hin'. destruct (Hdef (left_env l.1 ++ right_env r.1)) as [keep Hk].
    - rewrite <- Hle, <- Hre. apply list_elem_of_bind. exists (left_env l.1). split; [|by apply (list_elem_of_fmap_2 (λ r : Row, left_env r.1))].
      apply (list_elem_of_fmap_2 (λ ρ, left_env l.1 ++ ρ)). by apply (list_elem_of_fmap_2 (λ r : Row, right_env r.1)).
    - exists keep. by apply (join_holds stof a b t u on (whereClause select) q e). }
  assert (fits fmt_2f c records (NestedLoopJoinPlanNode sch (scan_of t None) (scan_of u None) (join_predicate q (whereClause select) e))) as Hfit.
  { split; [done|]. split; [done|]. destruct (join_columns _) as [[lk rk]|] eqn:Ej; [|done].
    destruct (join_predicate q (whereClause select) e) as [p|] eqn:Ep; [|done].
    assert (bound_in scopes p) as Hb by (eapply (predicate_bound q e); [exact He|exact (BindExpression_bound stof scopes on q Hq)|exact Ep|by eexists]).
    destruct (join_keys a b t u Hnt Hnu Hft Hfu p lk rk _ _ lrows rrows Hb Ej Hl Hr Hmatch) as (type & Hty & Hk1 & Hk2).
    exists type. split; [done|]. rewrite Hql, Hqr. by intros ? ? [= <-] [= <-]. }
  assert (length left_table_env = length (records (t_oid_ t)) ∧ length right_table_env = length (records (t_oid_ u))) as [Hll Hlr]
    by (unfold left_table_env, right_table_env, table_env; by rewrite !length_fmap).
  assert (S (length rows) < fuel)%nat as Hfr.
  { rewrite (Forall2_length _ _ _ Hjoins). pose proof (kept_length on (whereClause select) left_table_env right_table_env). lia. }
  destruct (optimized_join _ lrows rrows rows Hdb Htt Htu Hql Hqr Hrows Hfit) as (plan' & rows' & Ho & Hs & Hq' & Hp & Hfuel); [lia..|].
  destruct (Permutation_fmap_Forall2 _ _ _ _ Hp Hjoins) as (kept' & Hj' & Hpk).
  assert (∃ result answer, mapR (result_tuple sch) rows' = Ok result ∧ mapM tuple_data result = Some answer ∧ mapM whole kept' = Some answer)
    as (result & answer & Hres & Hans & Hw).
  { clear -Hj' Hnp. cbn [plan_schema] in Hnp. induction Hj' as [|r ρ rows kept (ds & Hd & Hw & Hs & Hlen) _ (result & answer & Hr & Ha & Hk)]; [by exists [], []|].
    destruct (result_copies sch r ds Hnp Hlen Hd Hs) as (t' & Ht & Hd'). exists (t' :: result), (ds :: answer). cbn [mapR].
    rewrite Ht, Hr. simpl. by rewrite Hd', Ha, Hw, Hk. }
  assert (∃ data, mapM whole (kept_pairs stof on (whereClause select) (pairs left_table_env right_table_env)) = Some data ∧ answer ≡ₚ data)
    as (data & Hdata & Hperm).
  { apply mapM_Some_1 in Hw. destruct (Permutation_Forall2 Hpk Hw) as (data & Hpd & HF). exists data. split; [by apply mapM_Some_2|done]. }
  exists plan', result, answer, data. split; [done|]. split; [|done]. unfold query_result. by rewrite Hq', Hs.
Qed.
End JoinAnswer.

Section Answer.
Context {S : Type} `{PIO : !PageIO bytes S} {HO : HashOrder} {SS : StdSort} (fuel pages : nat).
Context (fmt_2f : Z → string) (stof : string → res Z) (Parse : string → PGParseResult).
Context (frames : 1 ≤ io_frames) (m : gmap Z bytes) (nid : Z) (c : Catalog) (heaps : Z → list (Z * (list bytes * Z))).
Context (Hheaps : ∀ oid t, tables_ c !! oid = Some t → heap_ok m (table_ t) (heaps oid) ∧ (length (heaps oid) < pages)%nat).
Let records : Z → list (RID * bytes) := λ oid, live (heaps oid).

(** C8: a join of two tables answers what its text means.  SELECT * from t JOIN u ON a
    condition, with a WHERE clause or without, bound to a plan, optimized to a hash
    join where both sides are columns, or left as nested loops, and executed on the
    pages, ends and gives, in some order, exactly the pairs of rows both conditions are
    true on, with all columns of both rows; columns are found by their names and the
    reference knows no plan, no hash table and no key text.  Neither table may have a
    FLOAT column (FLOAT keys that print alike are joined); the indexes have to be current,
    the conditions true or false on every pair, and the columns of both tables to have
    values. *)
Theorem join_meaning sql select rest lrv rrv on ln rn t u plan kept :
  Parse sql = ParseTree (PGSelectStmt select :: rest) → star_join select lrv rrv on →
  relname lrv = Some ln → relname rrv = Some rn → db_current c records → GetTable ln c = Ok (Some t) → GetTable rn c = Ok (Some u) →
  BindQuery stof c Parse sql = Ok plan → countable (t_schema_ t) → countable (t_schema_ u) → countable (plan_schema plan) →
  no_floats_in (t_schema_ t) → no_floats_in (t_schema_ u) →
  (filters_nothing (whereClause select) = true → whereClause select = PGNull) →
  let ls := table_env records ln lrv t in let rs := table_env records rn rrv u in
  (∀ ρ, ρ ∈ ls ++ rs → readable ρ) → sql_join stof on (whereClause select) (pairs ls rs) = Some kept →
  (Datatypes.S (length ls) < fuel)%nat → (Datatypes.S (length rs) < fuel)%nat → (Datatypes.S (length ls * length rs) < fuel)%nat →
  ∃ plan' result answer data, Optimize (Some c) plan = Ok plan' ∧ computes (idle m nid, c) (Execute fuel pages fmt_2f plan') result ∧
    mapM tuple_data result = Some answer ∧ mapM whole kept = Some data ∧ answer ≡ₚ data.
Proof.
  intros Hparse Hsel Hln Hrn Hdb Ht Hu Hbind Hnt Hnu Hnp Hft Hfu Hnull ls rs Hread Hjoin Hf1 Hf2 Hf3.
  unfold BindQuery in Hbind. rewrite Hparse in Hbind.
  destruct (join_result fuel fmt_2f stof c records ln rn lrv rrv t u Hln Hrn Ht Hu select on plan kept Hdb Hsel Hbind Hnt Hnu Hnp Hft Hfu Hnull
    Hread Hjoin Hf1 Hf2 Hf3) as (plan' & result & answer & data & Ho & Hr & Hfuel & Ha & Hw & Hp).
  exists plan', result, answer, data. split; [done|]. split; [|done]. by apply (Execute_query fuel pages fmt_2f frames m nid c heaps).
Qed.
End Answer.

(** *** Witness: SELECT * FROM t AS x JOIN t AS y ON x.a = y.a, by a hash join *)

Definition self_on : PGNode := op_expr "=" (PGColumnRef [PGString "x"; PGString "a"]) (PGColumnRef [PGString "y"; PGString "a"]).
Definition named_t (alias : string) : PGRangeVar := mkRangeVar (Some "t") (Some alias).
Definition self_select : PGSelect :=
  mkSelect [PGResTarget None PGAStar] [PGJoinExpr (PGRange (named_t "x")) (PGRange (named_t "y")) self_on] PGNull [] [] PGNull [].
Definition self_parse (sql : string) : PGParseResult := ParseTree [PGSelectStmt self_select].
Definition self_plan : AbstractPlanNode := match BindQuery no_floats indexed_catalog self_parse "" with Ok plan => plan | _ => NullPlanNode end.
Definition self_env (name : string) : list env := table_env demo_records "t" (named_t name) int_table.
Definition self_kept : list env :=
  match sql_join no_floats self_on PGNull (pairs (self_env "x") (self_env "y")) with Some kept => kept | _ => [] end.

Lemma join_meaning_witness :
  mapM whole self_kept = Some ((λ z, [DInt z; DInt z]) <$> [7; 7; 9; 7; 7]) ∧
  ∃ plan' result answer data, Optimize (HO := listed_order) (Some indexed_catalog) self_plan = Ok plan' ∧
    computes (PIO := demo_io) (idle int_pages 1, indexed_catalog)
      (Execute (PIO := demo_io) (HO := listed_order) (SS := insertion_std_sort) 12 2 (λ _, "") plan') result ∧
    mapM tuple_data result = Some answer ∧ mapM whole self_kept = Some data ∧ answer ≡ₚ data.
Proof.
  split; [vm_compute; reflexivity|].
  apply (join_meaning (PIO := demo_io) (HO := listed_order) (SS := insertion_std_sort) 12 2 (λ _, "") no_floats self_parse
    ltac:(vm_compute; discriminate) int_pages 1 indexed_catalog demo_heaps demo_heaps_ok "" self_select [] (named_t "x") (named_t "y") self_on
    "t" "t" int_table int_table self_plan self_kept).
  - reflexivity.
  - split; [reflexivity|]. do 3 (split; [reflexivity|]). split; [repeat constructor|reflexivity].
  - reflexivity.
  - reflexivity.
  - exact indexed_db_current.
  - vm_compute. reflexivity.
  - vm_compute. reflexivity.
  - vm_compute. reflexivity.
  - vm_compute. reflexivity.
  - vm_compute. reflexivity.
  - vm_compute. reflexivity.
  - repeat constructor. discriminate.
  - repeat constructor. discriminate.
  - reflexivity.
  - intros ρ Hρ. assert (whole ρ = Some [DInt 7] ∨ whole ρ = Some [DInt 9]) as Hw.
    { revert ρ Hρ. apply Forall_forall. match goal with |- Forall _ ?l => let v := eval vm_compute in l in change l with v end.
      repeat (constructor; [first [by left|by right]|]). constructor. }
    destruct Hw; eexists; (split; [eassumption|repeat constructor]).
  - vm_compute. reflexivity.
  - vm_compute. lia.
  - vm_compute. lia.
  - vm_compute. lia.
Defined.
