(* ===== verification/GroupMeaning.v ===== *)
(** * What aggregation means

    The reference semantics of SELECT with COUNT, SUM, MIN or MAX from one table, with
    GROUP BY or without, and the proof that the statement, bound, optimized and executed
    on the pages, gives its answer. *)

From stdpp Require Import pretty.
From S2P Require Import Prelude Common Value Tuple Expression PageStore PageIO PageLogic TablePage TableHeap Catalog Executor.
From S2P Require Import Operators Join Aggregate Dml OrderBy Utility Engine Optimizer Protocol Binder Meaning SelectMeaning.

#[global] Instance datum_eq_dec : EqDecision datum.
Proof. solve_decision. Defined.

(** ** The reference *)

Section Reference.
Context (stof : string → res Z).

(** The call of an aggregate function a target is: the name of the function and its
    argument; COUNT of the rows themselves has none. *)
Definition counts_rows (name : string) (args : list PGNode) (agg_star : bool) : bool :=
  bool_decide (name = "count") && (agg_star || match args with PGAStar :: _ => true | _ => false end).
Definition sql_call (target : PGNode) : option (string * option PGNode) :=
  match target with
  | PGResTarget _ (PGFuncCall funcname args agg_star) =>
      match GetFuncName funcname, args with
      | Ok name, _ =>
          if counts_rows name args agg_star then Some (name, None)
          else match args with
          | [arg] => if bool_decide (name ∈ ["count"; "sum"; "min"; "max"]) then Some (name, Some arg) else None
          | _ => None
          end
      | _, _ => None
      end
  | _ => None
  end.
Definition sql_calls (targets : list PGNode) : list (string * option PGNode) := omap sql_call targets.

Definition as_int (d : datum) : option Z := match d with DInt z => Some z | _ => None end.
(** An aggregate of the integers [zs]; of no integers it is NULL, but for COUNT. *)
Definition sql_aggregate (name : string) (zs : list Z) : option datum :=
  if bool_decide (name = "count") then Some (DInt (Z.of_nat (length zs)))
  else match zs with
  | [] => None
  | z :: zs => Some (DInt (if bool_decide (name = "sum") then foldl Z.add z zs
      else if bool_decide (name = "min") then foldl Z.min z zs else foldl Z.max z zs))
  end.
Definition arg_values (ρs : list env) (arg : PGNode) : option (list Z) := mapM (λ ρ, d ← meaning stof ρ arg; as_int d) ρs.
Definition call_value (ρs : list env) (call : string * option PGNode) : option (option datum) :=
  match call with
  | (_, None) => Some (Some (DInt (Z.of_nat (length ρs))))
  | (name, Some arg) => zs ← arg_values ρs arg; Some (sql_aggregate name zs)
  end.

Definition row_key (group : list PGNode) (ρ : env) : option (list datum) := mapM (meaning stof ρ) group.
(** The rows that agree on the keys of GROUP BY; without one, all rows are one group. *)
Definition sql_groups (group : list PGNode) (ρs : list env) : list (list env) :=
  match group, ρs with
  | [], [] => [[]]
  | _, _ => (λ key, filter (λ ρ, row_key group ρ = key) ρs) <$> remove_dups (row_key group <$> ρs)
  end.
(** The keys of a group, then its aggregates. *)
Definition group_row (group : list PGNode) (calls : list (string * option PGNode)) (ρs : list env) : option (list (option datum)) :=
  key ← match ρs with [] => Some [] | ρ :: _ => row_key group ρ end;
  values ← mapM (call_value ρs) calls;
  Some ((Some <$> key) ++ values).
(** The rows may come in any order. *)
Definition sql_group_answer (select : PGSelect) (ρs : list env) (answer : list (list (option datum))) : Prop :=
  ∃ kept rows, sql_where stof (whereClause select) ρs = Some kept ∧
    mapM (group_row (groupClause select) (sql_calls (targetList select))) (sql_groups (groupClause select) kept) = Some rows ∧ answer ≡ₚ rows.

(** *** The queries whose groups the text of their keys tells apart *)

Definition plain_key (d : datum) : Prop :=
  match d with DBool _ | DInt _ => True | DString s => has_char "|" s = false ∧ short d | DFloat _ => False end.
Definition same_type_of (d d' : datum) : Prop :=
  match d, d' with DBool _, DBool _ | DInt _, DInt _ | DFloat _, DFloat _ | DString _, DString _ => True | _, _ => False end.
(** No sum on the way overflows. *)
Fixpoint sums_fit (acc : Z) (zs : list Z) : Prop :=
  match zs with [] => True | z :: zs => in_i32 (acc + z) = true ∧ sums_fit (acc + z) zs end.
Definition fits_sum (zs : list Z) : Prop := match zs with [] => True | z :: zs => sums_fit z zs end.

Record groupable (group : list PGNode) (calls : list (string * option PGNode)) (kept : list env) : Prop := {
  gr_keys ρ : ρ ∈ kept → ∃ key, row_key group ρ = Some key ∧ Forall plain_key key;
  gr_types ρ ρ' key key' : ρ ∈ kept → ρ' ∈ kept → row_key group ρ = Some key → row_key group ρ' = Some key' → Forall2 same_type_of key key';
  gr_args name arg ρ : (name, Some arg) ∈ calls → ρ ∈ kept → ∃ z, meaning stof ρ arg = Some (DInt z);
  gr_sums arg ρs zs : ("sum", Some arg) ∈ calls → ρs ∈ sql_groups group kept → arg_values ρs arg = Some zs → fits_sum zs;
  gr_count : Z.of_nat (length kept) ≤ INT32_MAX
}.
End Reference.

(** ** Values that are not NULL *)

Definition present (r : res Value) : Prop := ∀ v, r = Ok v → is_null_ v = false.

Lemma present_bool b : present (bool_value b).
Proof. by intros v [= <-]. Qed.
Lemma present_int m : present (int_value m).
Proof. intros v. unfold int_value. destruct m; try done. by intros [= <-]. Qed.
Lemma present_assert b s r : present r → present (assert b s;; r).
Proof. intros Hr v. destruct b; [apply Hr|done]. Qed.
Lemma present_ok v : is_null_ v = false → present (Ok v).
Proof. by intros H w [= <-]. Qed.
Lemma present_throw e : present (Throw e).
Proof. done. Qed.

Create HintDb present discriminated.
#[global] Hint Resolve present_bool present_int present_assert present_ok present_throw : present.
#[global] Hint Extern 1 (is_null_ _ = false) => reflexivity : present.

Lemma comparison_present t l r : present (PerformComparison t l r).
Proof.
  destruct t; cbn [PerformComparison]; [unfold CompareEquals|unfold CompareNotEquals|unfold CompareLessThan|unfold CompareLessThanOrEqual|
    unfold CompareGreaterThan|unfold CompareGreaterThanOrEqual]; apply present_assert; destruct (type_id_ l); unfold bad_compare; auto with present.
Qed.
Lemma computation_present t l r : present (PerformComputation t l r).
Proof.
  destruct t; cbn [PerformComputation]; [unfold Add|unfold Subtract|unfold Multiply|unfold Divide|unfold Modulo]; apply present_assert;
    destruct (type_id_ l); auto with present.
  apply present_assert. intros v. destruct (i32_arith _); try done. by intros [= <-].
Qed.
Lemma logic_present t l r : present (PerformLogic t l r).
Proof. destruct t; cbn [PerformLogic]; [unfold And|unfold Or]; apply present_assert, present_bool. Qed.

Lemma present_bind {A} (m : res A) f : (∀ x, present (f x)) → present (x ← m; f x).
Proof. intros Hf v. destruct m; try done. apply Hf. Qed.

(** An expression without NULL constants is not NULL on a row without NULLs. *)
Lemma eval_present read e : (∀ i c, present (read i c)) → constants_present e → present (eval read e).
Proof.
  intros Hr. induction e as [| | |l _ r _ t|l _ r _ t|l _ r _ t]; intros Hc; cbn [eval]; [done|apply Hr|by apply present_ok|..];
    apply present_bind; intros x; apply present_bind; intros y; [apply comparison_present|apply computation_present|apply logic_present].
Qed.

Lemma GetValueBy_present tup schema c : Forall (λ v, is_null_ v = false) (values_ tup) → present (GetValueBy tup schema c).
Proof.
  intros H v. unfold GetValueBy. destruct (values_ tup !! _) as [w|] eqn:E; [intros [= <-]; exact (Forall_lookup_1 _ _ _ _ H E)|].
  destruct (GetColumn schema c) as [col| | |]; try done. simpl. intros Hv. by eapply deserialized_present.
Qed.

(** The rows of a scan hold no NULL. *)
Lemma scan_present schema p es : ∀ rows, scan_rows schema p es = Ok rows → ∀ r, r ∈ rows → Forall (λ v, is_null_ v = false) (values_ r.1).
Proof.
  induction es as [|e es IH]; intros rows H r Hr; [injection H as <-; by apply elem_of_nil in Hr|].
  apply selectM_cons in H as (o & rest & Ho & Hrest & ->). unfold scan_row in Ho. cbv zeta in Ho.
  destruct (predicate_holds p _ _) as [keep| | |]; try done. cbn [mbind res_bind] in Ho.
  destruct keep; [|injection Ho as <-; by apply (IH rest)].
  destruct (row_values schema _) as [vs| | |] eqn:Hvs; simplify_eq/=. destruct (Tuple_new vs) as [t'| | |] eqn:Ht; simplify_eq/=.
  apply elem_of_cons in Hr as [->|Hr]; [|by apply (IH rest)]. simpl. rewrite (Tuple_new_values _ _ Ht).
  apply mapR_Forall2 in Hvs. clear -Hvs. induction Hvs as [|i v l vs Hv _ IH]; constructor; [|done].
  by apply (GetValueBy_present (mkTuple e.1 e.2 []) schema (Z.of_nat i)) in Hv.
Qed.

(** ** The text of the keys *)

Section KeyText.
Context (fmt_2f : Z → string).

Definition datum_text (d : datum) : string :=
  match d with DBool b => if b then "true" else "false" | DInt z => pretty z | DFloat bits => fmt_2f bits | DString s => s end.

Lemma ToString_datum v d : is_null_ v = false → datum_of v = Some d → ToString fmt_2f v = datum_text d.
Proof. unfold ToString, datum_of. intros ->. destruct (type_id_ v); try done; by intros [= <-]. Qed.

Lemma plain_no_bar d : plain_key d → has_char "|" (datum_text d) = false.
Proof. destruct d as [[]|z| |s]; simpl; try done; [intros _; by apply pretty_Z_no|by intros []]. Qed.

Lemma datum_text_inj d d' : same_type_of d d' → plain_key d → datum_text d = datum_text d' → d = d'.
Proof.
  destruct d as [b|z|f|s], d' as [b'|z'|f'|s']; try done; simpl.
  - by destruct b, b'.
  - by intros _ _ ->%(inj pretty).
  - by intros _ _ ->.
Qed.

Lemma joined_bar v vs : joined "|" (v :: vs) = FormatResultRow (v :: vs).
Proof.
  rewrite FormatResultRow_cons. revert v. induction vs as [|w vs IH]; intros v; [by rewrite string_app_nil|].
  change (joined "|" (v :: w :: vs)) with (v +:+ "|" +:+ joined "|" (w :: vs)). by rewrite IH.
Qed.

(** Keys of the same types have the same text only when they are the same. *)
Lemma key_text_inj key key' : Forall2 same_type_of key key' → Forall plain_key key → Forall plain_key key' →
  joined "|" (datum_text <$> key) = joined "|" (datum_text <$> key') → key = key'.
Proof.
  intros Ht Hp Hp' Heq.
  assert (∀ ds, Forall plain_key ds → Forall (λ v, has_char "|" v = false) (datum_text <$> ds)) as Hbar
    by (intros ds Hds; apply Forall_fmap; eapply Forall_impl; [exact Hds|exact plain_no_bar]).
  assert (datum_text <$> key = datum_text <$> key') as Htext.
  { destruct Ht as [|d d' key key' Hd Ht]; [done|]. rewrite !fmap_cons, !joined_bar in Heq.
    rewrite <- fmap_cons in Heq. apply (f_equal ParsePipeSeparated) in Heq.
    change (datum_text d' :: (datum_text <$> key')) with (datum_text <$> (d' :: key')) in Heq.
    rewrite !fmap_cons, !parse_row in Heq; [done|apply (Hbar (d' :: key')), Hp'|apply (Hbar (d :: key)), Hp]. }
  clear Heq Hbar Hp'. induction Ht as [|d d' key key' Hd Ht IH]; [done|]. rewrite !fmap_cons in Htext. injection Htext as H1 H2.
  apply Forall_cons in Hp as [Hp1 Hp2]. f_equal; [by apply datum_text_inj|by apply IH].
Qed.
End KeyText.

(** ** The aggregates of a group are computed *)

Definition int_is (v : Value) (z : Z) : Prop := type_id_ v = INTEGER ∧ is_null_ v = false ∧ integer_ v = z.
(** A value of a result: NULL, or a datum. *)
Definition shown (v : Value) : option (option datum) := if is_null_ v then Some None else Some <$> datum_of v.

Definition tuple_shown (t : Tuple) : option (list (option datum)) := mapM shown (values_ t).

Lemma int_shown v z : int_is v z → shown v = Some (Some (DInt z)).
Proof. intros (Ht & Hn & <-). unfold shown, datum_of. by rewrite Hn, Ht. Qed.

Lemma add_total v w x y : int_is v x → int_is w y → in_i32 (x + y) = true → ∃ v', Add v w = Ok v' ∧ int_is v' (x + y).
Proof.
  intros (Hv & _ & <-) (Hw & _ & <-) Hr. unfold Add, same_type. rewrite Hv, Hw. cbn. unfold int_value, i32_arith. rewrite Hr.
  eexists. split; [reflexivity|]. split_and!; [done|done|by apply integer_Value_int].
Qed.

Lemma less_total {A} v w x y (p q : A) : int_is v x → int_is w y →
  (lt ← CompareLessThan v w; b ← GetAsBoolean lt; Ok (if b : bool then p else q)) = Ok (if x <? y then p else q).
Proof. intros (Hv & _ & <-) (Hw & _ & <-). by apply less_choice. Qed.

Section Fold.
Context (out_schema child_schema : Schema) (group_bys aggregates : list AbstractExpression) (agg_types : list AggregationType).
Abbreviation arg_of := (agg_arg child_schema aggregates).
Abbreviation update := (update_aggs child_schema aggregates).
Abbreviation fold_all := (fold_group child_schema aggregates agg_types).

Definition int_arg (j : nat) (row : Row) (z : Z) : Prop := ∃ w, arg_of j row.1 = Ok w ∧ int_is w z.
(** One aggregate on the rows of a group. *)
Definition fold_one (j : nat) (ty : AggregationType) (v : Value) (rows : list Row) : res Value :=
  foldR (λ v row, update_agg ty (arg_of j row.1) v) v rows.

Lemma count_total ty j rows : ty = CountStarAggregate ∨ ty = CountAggregate ∧ (∀ row, row ∈ rows → ∃ z, int_arg j row z) →
  ∀ v m, int_is v m → 0 ≤ m → m + Z.of_nat (length rows) ≤ INT32_MAX →
  ∃ v', fold_one j ty v rows = Ok v' ∧ int_is v' (m + Z.of_nat (length rows)).
Proof.
  induction rows as [|row rows IH]; intros Hty v m Hv H0 Hm; [exists v; by rewrite Z.add_0_r|]. cbn [length] in Hm.
  unfold fold_one. cbn [foldR]. fold (fold_one j ty).
  destruct (add_total v (Value_int (type_id_ v) 1) m 1 Hv) as (v1 & Hadd & Hv1).
  { split_and!; [by destruct Hv as (-> & _)|done|by apply integer_Value_int]. }
  { unfold in_i32, INT32_MIN, INT32_MAX in *. lia. }
  assert (update_agg ty (arg_of j row.1) v = Ok v1) as ->.
  { destruct Hty as [->|[-> Harg]]; [done|]. destruct (Harg row ltac:(left)) as (z & w & Hw & _ & Hn & _). simpl. by rewrite Hw; simpl; rewrite Hn. }
  cbn [mbind res_bind]. destruct (IH) with (v := v1) (m := m + 1) as (v' & Hf & Hv'); [|done|lia|lia|].
  { destruct Hty as [?|[? Harg]]; [by left|right; split; [done|]]. intros r Hr. apply Harg. by right. }
  exists v'. split; [done|]. cbn [length]. replace (m + Z.of_nat (Datatypes.S (length rows))) with (m + 1 + Z.of_nat (length rows)) by lia. done.
Qed.

Definition combine (ty : AggregationType) : Z → Z → Z :=
  match ty with SumAggregate => Z.add | MinAggregate => Z.min | _ => Z.max end.

Lemma combine_total ty j rows zs : ty = SumAggregate ∨ ty = MinAggregate ∨ ty = MaxAggregate → Forall2 (int_arg j) rows zs →
  ∀ v x, int_is v x → (ty = SumAggregate → sums_fit x zs) → ∃ v', fold_one j ty v rows = Ok v' ∧ int_is v' (foldl (combine ty) x zs).
Proof.
  intros Hty. induction 1 as [|row z rows zs (w & Hw & Hz) _ IH]; intros v x Hv Hs; [by exists v|].
  assert (∃ v1, update_agg ty (arg_of j row.1) v = Ok v1 ∧ int_is v1 (combine ty x z)) as (v1 & Hu & Hv1).
  { pose proof (proj1 (proj2 Hv)) as Hn. pose proof (proj1 (proj2 Hz)) as Hn'.
    destruct Hty as [->|[->| ->]]; cbn [update_agg combine]; rewrite Hw; cbn [mbind res_bind]; rewrite Hn', Hn.
    - by apply (add_total v w x z Hv Hz); destruct (Hs eq_refl).
    - pose proof (less_total w v z x w v Hz Hv) as Hl. cbn [mbind res_bind] in Hl. rewrite Hl. eexists. split; [reflexivity|].
      destruct (Z.ltb_spec z x); [by rewrite Z.min_r by lia|by rewrite Z.min_l by lia].
    - pose proof (less_total v w x z w v Hv Hz) as Hl. cbn [mbind res_bind] in Hl. rewrite Hl. eexists. split; [reflexivity|].
      destruct (Z.ltb_spec x z); [by rewrite Z.max_r by lia|by rewrite Z.max_l by lia]. }
  unfold fold_one. cbn [foldR]. rewrite Hu. cbn [mbind res_bind]. apply IH; [done|]. intros ->. by destruct (Hs eq_refl).
Qed.

(** The aggregate [name] of the integers of a group. *)
Lemma fold_call name ty j rows zs : aggregation_of name = Some ty → Forall2 (int_arg j) rows zs → (name = "sum" → fits_sum zs) →
  Z.of_nat (length rows) ≤ INT32_MAX →
  ∃ v, fold_one j ty (initial_value ty INTEGER) rows = Ok v ∧ type_id_ v = INTEGER ∧ shown v = Some (sql_aggregate name zs).
Proof.
  intros Hname Hzs Hsum Hlen. unfold aggregation_of in Hname.
  assert (ty = CountAggregate ∧ name = "count" ∨ (ty = SumAggregate ∧ name = "sum" ∨ ty = MinAggregate ∧ name = "min" ∨ ty = MaxAggregate ∧ name = "max"))
    as [[-> ->]|Hty] by (repeat (case_bool_decide; [injection Hname as <-; subst; naive_solver|]); discriminate Hname).
  - destruct (count_total CountAggregate j rows) with (v := Value_int INTEGER 0) (m := 0) as (v & Hf & Hv); [|by split_and!|lia|lia|].
    { right. split; [done|]. intros row Hr. apply list_elem_of_lookup in Hr as [i Hi].
      destruct (Forall2_lookup_l _ _ _ _ _ Hzs Hi) as (z & _ & Hz). by exists z. }
    exists v. split; [done|]. split; [apply Hv|]. rewrite (int_shown _ _ Hv), (Forall2_length _ _ _ Hzs). done.
  - assert (∀ z l, sql_aggregate name (z :: l) = Some (DInt (foldl (combine ty) z l))) as Hagg
      by (intros z l; destruct Hty as [[-> ->]|[[-> ->]|[-> ->]]]; done).
    assert (sql_aggregate name [] = None ∧ initial_value ty INTEGER = Value_null INTEGER) as [Hnone ->]
      by (by destruct Hty as [[-> ->]|[[-> ->]|[-> ->]]]).
    destruct Hzs as [|row z rows zs (w & Hw & Hz) Hzs]; [exists (Value_null INTEGER); rewrite Hnone; done|].
    destruct (combine_total ty j rows zs ltac:(naive_solver) Hzs w z Hz) as (v & Hf & Hv).
    { intros ->. destruct Hty as [[_ ->]|[[? _]|[? _]]]; [by apply Hsum|done..]. }
    exists v. rewrite Hagg. split; [|by split; [apply Hv|apply int_shown]]. unfold fold_one. cbn [foldR].
    assert (update_agg ty (arg_of j row.1) (Value_null INTEGER) = Ok w) as ->; [|done].
    pose proof (proj1 (proj2 Hz)) as Hn. destruct Hty as [[-> _]|[[-> _]|[-> _]]]; cbn; rewrite Hw; cbn; by rewrite Hn.
Qed.

Lemma fold_star j rows : Z.of_nat (length rows) ≤ INT32_MAX →
  ∃ v, fold_one j CountStarAggregate (Value_int INTEGER 0) rows = Ok v ∧ type_id_ v = INTEGER ∧ shown v = Some (Some (DInt (Z.of_nat (length rows)))).
Proof.
  intros Hlen. destruct (count_total CountStarAggregate j rows ltac:(by left) (Value_int INTEGER 0) 0) as (v & Hf & Hv); [by split_and!|lia|lia|].
  exists v. split; [done|]. split; [apply Hv|]. by apply int_shown.
Qed.

(** All aggregates of a group together. *)
Lemma update_total (P : nat → AggregationType → Value → Prop) tup types : ∀ i vals, length vals = length types →
  (∀ j ty v, types !! j = Some ty → vals !! j = Some v → ∃ v', update_agg ty (arg_of (i + j) tup) v = Ok v' ∧ P (i + j)%nat ty v') →
  ∃ vals', update i types tup vals = Ok vals' ∧ length vals' = length types ∧
    ∀ j ty v', types !! j = Some ty → vals' !! j = Some v' → P (i + j)%nat ty v'.
Proof.
  induction types as [|ty types IH]; intros i [|v vals] Hlen Hup; try discriminate Hlen; [by exists []|].
  destruct (Hup 0%nat ty v eq_refl eq_refl) as (v' & Hv' & HP). rewrite Nat.add_0_r in Hv', HP. injection Hlen as Hlen.
  destruct (IH (Datatypes.S i) vals Hlen) as (vals' & Hu & Hl & HPs).
  { intros j ty' w Hty Hw. destruct (Hup (Datatypes.S j) ty' w Hty Hw) as (w' & H1 & H2).
    replace (i + Datatypes.S j)%nat with (Datatypes.S i + j)%nat in H1, H2 by lia. by exists w'. }
  exists (v' :: vals'). cbn [update_aggs]. rewrite Hv'. cbn [mbind res_bind]. rewrite Hu. split; [done|]. split; [simpl; by rewrite Hl|].
  intros [|j] ty' w Hty Hw; [simplify_eq/=; by rewrite Nat.add_0_r|].
  replace (i + Datatypes.S j)%nat with (Datatypes.S i + j)%nat by lia. by apply HPs.
Qed.

Lemma fold_group_total vs rows : ∀ init, length init = length agg_types → length vs = length agg_types →
  (∀ j ty v0, agg_types !! j = Some ty → init !! j = Some v0 → ∃ v, fold_one j ty v0 rows = Ok v ∧ vs !! j = Some v) →
  fold_all init rows = Ok vs.
Proof.
  induction rows as [|row rows IH]; intros init Hi Hv Hone; unfold fold_group; cbn [foldR].
  - f_equal. apply list_eq_same_length with (n := length agg_types); [done|done|]. intros j v0 w Hj Hv0 Hw.
    destruct (lookup_lt_is_Some_2 agg_types j Hj) as [ty Hty]. destruct (Hone j ty v0 Hty Hv0) as (v & [= ->] & Hvs). congruence.
  - destruct (update_total (λ j ty v1, ∃ v, fold_one j ty v1 rows = Ok v ∧ vs !! j = Some v) row.1 agg_types 0 init Hi) as (init' & Hu & Hl & HP).
    { intros j ty v0 Hty Hv0. destruct (Hone j ty v0 Hty Hv0) as (v & Hf & Hvs). unfold fold_one in Hf. cbn [foldR] in Hf.
      destruct (update_agg ty _ v0) as [v1| | |] eqn:E; try done. exists v1. split; [done|]. by exists v. }
    rewrite Hu. cbn [mbind res_bind]. apply IH; [done|done|]. intros j ty v0 Hty Hv0. by apply (HP j ty v0).
Qed.

Lemma foldR_prefix {A B} (f : A → B → res A) l k : ∀ a b, foldR f a (l ++ k) = Ok b → ∃ a', foldR f a l = Ok a' ∧ foldR f a' k = Ok b.
Proof.
  induction l as [|x l IH]; intros a b H; [by exists a|]. cbn [app foldR] in *. destruct (f a x) as [a1| | |]; try done. by apply IH.
Qed.

(** Grouping gives a result when each group alone does. *)
Lemma groups_total fmt_2f rows init : initial_aggs out_schema group_bys agg_types = Ok init →
  (∀ row, row ∈ rows → ∃ vals, group_values child_schema group_bys row.1 = Ok vals) →
  (∀ k, ∃ vs, fold_all init (group_of fmt_2f child_schema group_bys k rows) = Ok vs) →
  ∃ groups, foldR (group_step fmt_2f out_schema child_schema group_bys aggregates agg_types) ∅ rows = Ok groups ∧
    ∀ k, group_state fmt_2f out_schema child_schema group_bys aggregates agg_types k rows (groups !! k).
Proof.
  intros Hinit. induction rows as [|row rows IH] using rev_ind; intros Hvals Hfold.
  { exists ∅. split; [done|]. intros k. by rewrite lookup_empty. }
  destruct IH as (groups & Hg & Hst).
  { intros r Hr. apply Hvals, elem_of_app. by left. }
  { intros k. destruct (Hfold k) as [vs Hvs]. unfold group_of in Hvs. rewrite filter_app in Hvs. apply foldR_prefix in Hvs as (vs' & Hvs' & _). by exists vs'. }
  destruct (Hvals row) as [vals Hv]; [apply elem_of_app; right; by left|].
  assert (∃ groups', group_step fmt_2f out_schema child_schema group_bys aggregates agg_types groups row = Ok groups') as [groups' Hstep].
  { unfold group_step. rewrite Hv. cbn [mbind res_bind]. set (k := group_key fmt_2f vals). specialize (Hst k). destruct (Hfold k) as [vs Hvs].
    unfold group_state in Hst. unfold group_of in Hvs, Hst. rewrite filter_app, filter_cons, filter_nil in Hvs.
    rewrite decide_True in Hvs by (exists vals; by split). apply foldR_prefix in Hvs as (vs' & Hvs' & Hrow). cbn [foldR] in Hrow.
    destruct (filter _ rows) as [|r rest].
    - injection Hvs' as <-. rewrite Hst, Hinit. cbn [mbind res_bind agg_vals]. destruct (update 0 agg_types row.1 init); try done. by eexists.
    - destruct Hst as (v0 & init' & aggs & _ & Hi & Hf & ->). rewrite Hinit in Hi. injection Hi as <-. unfold fold_group in Hf.
      rewrite Hf in Hvs'. injection Hvs' as <-. cbn [mbind res_bind agg_vals]. destruct (update 0 agg_types row.1 aggs); try done. by eexists. }
  exists groups'. split; [by rewrite (foldR_app _ _ _ _ _ Hg); cbn [foldR]; rewrite Hstep|].
  intros k. by eapply group_step_state.
Qed.
End Fold.

(** ** What the binder makes of the target list *)

Section BindCalls.
Context (stof : string → res Z) (scopes : list TableScope).

Definition bound_call (call : string * option PGNode) (ac : AggCall) : Prop :=
  match call with
  | (_, None) => agg_type ac = CountStarAggregate
  | (name, Some arg) => aggregation_of name = Some (agg_type ac) ∧ BindExpression stof scopes arg = Ok (agg_call_arg ac)
  end.

Lemma count_type name type : aggregation_of name = Some type →
  bool_decide (name = "count") = match type with CountAggregate => true | _ => false end.
Proof.
  unfold aggregation_of. intros H. destruct (decide (name = "count")) as [->|Hne]; [by injection H as <-|].
  rewrite bool_decide_false in H by done. rewrite bool_decide_false by done.
  repeat (case_bool_decide; [by injection H as <-|]). discriminate H.
Qed.

Lemma no_aggregate name : aggregation_of name = None → name ∉ ["count"; "sum"; "min"; "max"].
Proof. unfold aggregation_of. intros H. repeat (case_bool_decide; [discriminate H|]). set_solver. Qed.

Lemma bind_aggregate_call name type args agg_star ac call : aggregation_of name = Some type →
  (if counts_rows name args agg_star then Some (name, None) else match args with
   | [arg] => if bool_decide (name ∈ ["count"; "sum"; "min"; "max"]) then Some (name, Some arg) else None | _ => None end) = Some call →
  bind_aggregate stof scopes type args agg_star = Ok ac → bound_call call ac.
Proof.
  intros Hname Hcall H. unfold counts_rows in Hcall. unfold bind_aggregate in H.
  pose proof (count_type name type Hname) as Hc.
  rewrite Hc in Hcall. set (is_count := match type with CountAggregate => true | _ => false end) in *.
  assert (∀ arg, args = [arg] → call = (name, Some arg) → (arg ← linitial args; e ← BindExpression stof scopes arg; Ok (mkAggCall type e)) = Ok ac → bound_call call ac) as Harg.
  { intros arg -> -> Hb. cbn [linitial mbind res_bind] in Hb. destruct (BindExpression stof scopes arg) as [e| | |] eqn:He; try done. injection Hb as <-. by split. }
  destruct is_count eqn:Ec; cbn [andb] in *.
  - destruct agg_star; cbn [orb mbind res_bind] in *; [injection Hcall as <-; by injection H as <-|].
    destruct args as [|arg args]; [discriminate Hcall|].
    assert (arg = PGAStar ∨ (match arg with PGAStar => true | _ => false end) = false) as [->|Hs] by (destruct arg; first [by left|by right]).
    { injection Hcall as <-. by injection H as <-. }
    rewrite Hs in Hcall. destruct args; [|discriminate Hcall]. destruct (bool_decide (name ∈ _)); [|discriminate Hcall]. injection Hcall as <-.
    apply (Harg arg eq_refl eq_refl). destruct arg; done.
  - destruct args as [|arg [|arg' args]]; try discriminate Hcall. destruct (bool_decide (name ∈ _)); [|discriminate Hcall]. injection Hcall as <-.
    destruct agg_star; cbn [mbind res_bind] in H; by eapply Harg.
Qed.

Lemma bind_target_call T target T' : bind_target stof scopes T target = Ok T' → (calls_aggregate target = true → is_Some (sql_call target)) →
  match sql_call target with
  | Some call => ∃ ac, agg_calls T' = agg_calls T ++ [ac] ∧ bound_call call ac
  | None => agg_calls T' = agg_calls T
  end.
Proof.
  assert (∀ name val, bind_output stof scopes T name val = Ok T' → agg_calls T' = agg_calls T) as Hout.
  { intros name val H. destruct (bind_output_inv _ _ _ _ _ _ H) as (e & s & _ & ->). done. }
  destruct target as [| | | | | | | | | | | | |name val| | |]; try done. intros H Hcall.
  destruct val as [| | | | | | |fields| | | |funcname args agg_star| | | | |]; cbn [sql_call]; cbn [bind_target] in H;
    try (injection H as <-; done); try (by eapply Hout).
  - destruct fields as [|f fields]; [discriminate H|]. cbn [linitial mbind res_bind] in H.
    destruct f; try discriminate H; try (injection H as <-; done); by eapply Hout.
  - cbn [sql_call calls_aggregate] in Hcall. destruct (GetFuncName funcname) as [fname| | |]; try done. cbn [mbind res_bind] in H.
    destruct (aggregation_of fname) as [type|] eqn:Ea.
    + destruct (bind_aggregate stof scopes type args agg_star) as [ac| | |] eqn:Eb; try done. injection H as <-.
      destruct Hcall as [call Hc]; [by rewrite bool_decide_true by eauto|]. rewrite Hc. exists ac. split; [done|].
      by eapply bind_aggregate_call.
    + pose proof (no_aggregate fname Ea) as Hno.
      assert (counts_rows fname args agg_star = false) as -> by (unfold counts_rows; rewrite bool_decide_false by (intros ->; set_solver); done).
      rewrite bool_decide_false by done. destruct args as [|? [|]]; by eapply Hout.
Qed.

Lemma bind_targets_calls targets : Forall (λ n, calls_aggregate n = true → is_Some (sql_call n)) targets →
  ∀ T T', foldR (bind_target stof scopes) T targets = Ok T' →
  ∃ acs, agg_calls T' = agg_calls T ++ acs ∧ Forall2 bound_call (sql_calls targets) acs.
Proof.
  unfold sql_calls. induction 1 as [|target targets Ht _ IH]; intros T T' H; cbn [foldR] in H.
  { injection H as <-. exists []. by rewrite app_nil_r. }
  destruct (bind_target stof scopes T target) as [T1| | |] eqn:E; try done. destruct (IH T1 T' H) as (acs & Hacs & Hb).
  pose proof (bind_target_call T target T1 E Ht) as H1. simpl. destruct (sql_call target) as [call|].
  - destruct H1 as (ac & H1 & Hc). exists (ac :: acs). rewrite Hacs, H1, <- app_assoc. split; [done|]. by constructor.
  - exists acs. by rewrite Hacs, H1.
Qed.
End BindCalls.

(** The columns of an aggregation are INTEGER. *)
Definition group_schema (keys calls : nat) : Schema := Schema_new (numbered "group_" keys ++ numbered "agg_" calls).

Lemma group_schema_types keys calls : col_type <$> columns_ (group_schema keys calls) = replicate (keys + calls) INTEGER.
Proof.
  assert (∀ prefix n, col_type <$> numbered prefix n = replicate n INTEGER) as Hn.
  { intros prefix n. unfold numbered. rewrite <- list_fmap_compose. apply list_eq_same_length with (n := n); rewrite ?length_fmap, ?length_seq, ?length_replicate; try done.
    intros i x y Hi Hx Hy. rewrite list_lookup_fmap in Hx. apply fmap_Some in Hx as (j & _ & ->). by apply lookup_replicate in Hy as [-> _]. }
  unfold group_schema. by rewrite Schema_new_types, fmap_app, !Hn, <- replicate_add.
Qed.
Lemma group_schema_length keys calls : length (columns_ (group_schema keys calls)) = (keys + calls)%nat.
Proof. rewrite <- (length_fmap col_type), group_schema_types. apply length_replicate. Qed.

Lemma group_initial gbs types : countable (group_schema (length gbs) (length types)) →
  initial_aggs (group_schema (length gbs) (length types)) gbs types = Ok ((λ ty, initial_value ty INTEGER) <$> types).
Proof.
  intros Hn. unfold countable in Hn. rewrite group_schema_length in Hn. unfold initial_aggs. apply mapR_Forall2.
  apply Forall2_same_length_lookup_2; [by rewrite length_fmap, length_zip_with, length_seq, Nat.min_id|].
  intros i [j ty] v Hz Hv. apply lookup_zip_with_Some in Hz as (j' & ty' & [= -> ->] & Hj & Hty). apply lookup_seq in Hj as [-> Hi].
  rewrite list_lookup_fmap, Hty in Hv. injection Hv as <-. simpl.
  assert (∃ col, columns_ (group_schema (length gbs) (length types)) !! (length gbs + i)%nat = Some col ∧ col_type col = INTEGER) as (col & Hc & Ht).
  { assert ((col_type <$> columns_ (group_schema (length gbs) (length types))) !! (length gbs + i)%nat = Some INTEGER) as H
      by (rewrite group_schema_types; apply lookup_replicate_2; lia).
    rewrite list_lookup_fmap in H. apply fmap_Some in H as (col & Hc & Ht). by exists col. }
  unfold GetColumn, u32. rewrite Z.mod_small by lia. rewrite (arr_get_ok _ _ col Hc). simpl. by rewrite Ht.
Qed.

(** ** The groups of the executor are the groups of the reference *)

(** A list given element by element. *)
Lemma choose_list {A} n (Q : nat → A → Prop) : (∀ j, (j < n)%nat → ∃ v, Q j v) →
  ∃ vs, length vs = n ∧ ∀ j v, vs !! j = Some v → Q j v.
Proof.
  induction n as [|n IH]; intros H; [by exists []|]. destruct IH as (vs & Hl & Hvs); [intros; apply H; lia|].
  destruct (H n ltac:(lia)) as [v Hv]. exists (vs ++ [v]). split; [rewrite length_app; simpl; lia|].
  intros j w Hj. apply lookup_app_Some in Hj as [Hj|[Hj Hw]]; [by apply Hvs|].
  apply list_lookup_singleton_Some in Hw as [Hj' <-]. by replace j with n by lia.
Qed.

Section Groups.
Context (fmt_2f : Z → string) (stof : string → res Z) (a : string) (t : TableInfo).
Let scopes : list TableScope := [mkScope a t 0].
Let schema : Schema := t_schema_ t.
Abbreviation row := (tuple_env a schema).
Abbreviation rows_env rows := ((λ r : Row, row r.1) <$> (rows : list Row)).
Abbreviation text key := (joined "|" (datum_text fmt_2f <$> (key : list datum))).
Context (group : list PGNode) (gbs : list AbstractExpression) (group_bound : Forall2 (λ n e, BindExpression stof scopes n = Ok e) group gbs).
Context (calls : list (string * option PGNode)) (acs : list AggCall) (calls_bound : Forall2 (bound_call stof scopes) calls acs).
Context (rows : list Row) (rows_present : ∀ r, r ∈ rows → Forall (λ v, is_null_ v = false) (values_ r.1)).
Context (grouped : groupable stof group calls (rows_env rows)).
Let types : list AggregationType := agg_type <$> acs.
Let args : list AbstractExpression := agg_call_arg <$> acs.
Let init : list Value := (λ ty, initial_value ty INTEGER) <$> types.
Abbreviation group_rows k := (group_of fmt_2f schema gbs k rows).

Lemma row_in r : r ∈ rows → row r.1 ∈ rows_env rows.
Proof. apply (list_elem_of_fmap_2 (λ r : Row, row r.1)). Qed.

Lemma bound_value node e r d : BindExpression stof scopes node = Ok e → r ∈ rows → meaning stof (row r.1) node = Some d →
  ∃ v, Evaluate e (Some r.1) schema = Ok v ∧ datum_of v = Some d ∧ is_null_ v = false.
Proof.
  intros He Hr Hd. pose proof (Evaluate_meaning stof a t node e r.1 He) as Hm. change (t_schema_ t) with schema in Hm. rewrite Hd in Hm.
  destruct (Evaluate e (Some r.1) schema) as [v| | |] eqn:Ev; try done. exists v. do 2 (split; [done|]).
  apply (eval_present (λ _ col, GetValueBy r.1 schema col) e); [|by eapply bound_present|exact Ev].
  intros _ c. apply GetValueBy_present. by apply rows_present.
Qed.

(** The keys of a row, as the executor computes them. *)
Lemma key_values r key : r ∈ rows → row_key stof group (row r.1) = Some key →
  ∃ vals, group_values schema gbs r.1 = Ok vals ∧ mapM datum_of vals = Some key ∧ Forall (λ v, is_null_ v = false) vals ∧
    group_key fmt_2f vals = text key.
Proof.
  intros Hr. unfold row_key, group_values.
  enough (∀ key, mapM (meaning stof (row r.1)) group = Some key → ∃ vals, mapR (λ e, Evaluate e (Some r.1) schema) gbs = Ok vals ∧
    mapM datum_of vals = Some key ∧ Forall (λ v, is_null_ v = false) vals ∧ ToString fmt_2f <$> vals = datum_text fmt_2f <$> key) as H.
  { intros Hk. destruct (H key Hk) as (vals & Hv & Hd & Hp & Ht). exists vals. do 3 (split; [done|]). unfold group_key. by rewrite Ht. }
  clear calls_bound grouped init types. induction group_bound as [|n e group' gbs' Hn Hbs IH]; intros key' Hk; [injection Hk as <-; by exists []|].
  simpl in Hk. destruct (meaning stof (row r.1) n) as [d|] eqn:Ed; [|done]. simpl in Hk.
  destruct (mapM _ group') as [ds|] eqn:Eds; [|done]. injection Hk as <-.
  destruct (IH Hbs ds eq_refl) as (vals & Hv & Hd & Hp & Ht). destruct (bound_value n e r d Hn Hr Ed) as (v & Hev & Hdv & Hnv).
  exists (v :: vals). cbn [mapR]. rewrite Hev, Hv. split; [done|]. split; [simpl; by rewrite Hdv, Hd|]. split; [by constructor|].
  rewrite !fmap_cons, Ht. by rewrite (ToString_datum fmt_2f v d Hnv Hdv).
Qed.

Lemma row_has_key r : r ∈ rows → ∃ key, row_key stof group (row r.1) = Some key ∧ Forall plain_key key.
Proof. intros Hr. by apply (gr_keys _ _ _ _ grouped), row_in. Qed.

(** Rows whose keys have the same text have the same keys. *)
Lemma has_key_iff r0 key r : r0 ∈ rows → row_key stof group (row r0.1) = Some key → r ∈ rows →
  has_key fmt_2f schema gbs (text key) r ↔ row_key stof group (row r.1) = Some key.
Proof.
  intros Hr0 Hk0 Hr. destruct (row_has_key r Hr) as (key' & Hk & Hp). destruct (key_values r key' Hr Hk) as (vals & Hv & _ & _ & Ht).
  destruct (row_has_key r0 Hr0) as (key0 & Hk0' & Hp0). rewrite Hk0 in Hk0'. injection Hk0' as <-.
  rewrite Hk. split.
  - intros (vals' & Hv' & Htext). rewrite Hv in Hv'. injection Hv' as <-. rewrite Ht in Htext. f_equal.
    apply (key_text_inj fmt_2f); [|done..].
    exact (gr_types _ _ _ _ grouped _ _ _ _ (row_in r Hr) (row_in r0 Hr0) Hk Hk0).
  - intros [= ->]. exists vals. by split.
Qed.

Lemma filter_map_env (P : Row → Prop) (Q : env → Prop) `{∀ r, Decision (P r)} `{∀ ρ, Decision (Q ρ)} l :
  (∀ r, r ∈ l → P r ↔ Q (row r.1)) → rows_env (filter P l) = filter Q (rows_env l).
Proof.
  induction l as [|r l IH]; intros HPQ; [done|]. rewrite fmap_cons, !filter_cons. pose proof (HPQ r ltac:(left)) as Hr.
  specialize (IH ltac:(intros; apply HPQ; by right)). destruct (decide (P r)) as [HP|HP].
  - rewrite decide_True by by apply Hr. by rewrite fmap_cons, IH.
  - rewrite decide_False by by rewrite <- Hr. done.
Qed.

Lemma group_env r key : r ∈ rows → row_key stof group (row r.1) = Some key →
  rows_env (group_rows (text key)) = filter (λ ρ, row_key stof group ρ = Some key) (rows_env rows).
Proof. intros Hr Hk. apply filter_map_env. intros r' Hr'. by apply (has_key_iff r). Qed.

(** A key of the map is the text of the keys of the rows of its group. *)
Lemma group_first k r rest : group_rows k = r :: rest → ∃ key, r ∈ rows ∧ row_key stof group (row r.1) = Some key ∧ Forall plain_key key ∧ k = text key.
Proof.
  intros Hg. assert (r ∈ group_rows k) as Hin by (rewrite Hg; by left). apply list_elem_of_filter in Hin as [(vals & Hv & <-) Hr].
  destruct (row_has_key r Hr) as (key & Hk & Hp). destruct (key_values r key Hr Hk) as (vals' & Hv' & _ & _ & Ht).
  rewrite Hv in Hv'. injection Hv' as <-. by exists key.
Qed.

Lemma group_listed r : r ∈ rows → filter (λ ρ, row_key stof group ρ = row_key stof group (row r.1)) (rows_env rows) ∈ sql_groups stof group (rows_env rows).
Proof.
  intros Hr. pose proof (row_in r Hr) as Hin.
  assert (filter (λ ρ, row_key stof group ρ = row_key stof group (row r.1)) (rows_env rows) ∈
    (λ key, filter (λ ρ, row_key stof group ρ = key) (rows_env rows)) <$> remove_dups (row_key stof group <$> rows_env rows)) as H.
  { apply list_elem_of_fmap. exists (row_key stof group (row r.1)). split; [done|]. apply elem_of_remove_dups. by apply list_elem_of_fmap_2. }
  unfold sql_groups. destruct group, (rows_env rows); first [exact H|by apply elem_of_nil in Hin].
Qed.

(** The argument of a call on the rows of a group. *)
Lemma arg_ints j arg ac name grp : BindExpression stof scopes arg = Ok (agg_call_arg ac) → acs !! j = Some ac → (name, Some arg) ∈ calls →
  (∀ r, r ∈ grp → r ∈ rows) → ∃ zs, Forall2 (int_arg schema args j) grp zs ∧ arg_values stof (rows_env grp) arg = Some zs.
Proof.
  intros Hb Hj Hin Hsub. unfold arg_values. induction grp as [|r grp IH]; [by exists []|].
  destruct IH as (zs & Hz & Ha); [intros; apply Hsub; by right|]. pose proof (Hsub r ltac:(left)) as Hr.
  destruct (gr_args _ _ _ _ grouped name arg _ Hin (row_in r Hr)) as [z Hm].
  destruct (bound_value arg _ r _ Hb Hr Hm) as (v & Hv & [Ht Hi]%datum_int & Hn). exists (z :: zs). split.
  - constructor; [|done]. exists v. split; [|done]. unfold agg_arg, args. by rewrite list_lookup_fmap, Hj.
  - rewrite fmap_cons. simpl. rewrite Hm. simpl. by rewrite Ha.
Qed.

(** The aggregates of a group. *)
Lemma group_fold grp : (∀ r, r ∈ grp → r ∈ rows) → (length grp ≤ length rows)%nat →
  (∀ arg zs, ("sum", Some arg) ∈ calls → arg_values stof (rows_env grp) arg = Some zs → fits_sum zs) →
  ∃ vs xs, fold_group schema args types init grp = Ok vs ∧ length vs = length acs ∧ Forall (λ v, type_id_ v = INTEGER) vs ∧
    mapM shown vs = Some xs ∧ mapM (call_value stof (rows_env grp)) calls = Some xs.
Proof.
  intros Hsub Hlen Hsum. pose proof (gr_count _ _ _ _ grouped) as Hcount. rewrite length_fmap in Hcount.
  destruct (choose_list (length acs) (λ j v, ∃ call ac, calls !! j = Some call ∧ acs !! j = Some ac ∧ type_id_ v = INTEGER ∧
    fold_one schema args j (agg_type ac) (initial_value (agg_type ac) INTEGER) grp = Ok v ∧
    is_Some (shown v) ∧ shown v = call_value stof (rows_env grp) call)) as (vs & Hl & Hvs).
  { intros j Hj. destruct (lookup_lt_is_Some_2 acs j Hj) as [ac Hac]. destruct (Forall2_lookup_r _ _ _ _ _ calls_bound Hac) as (call & Hcall & Hb).
    destruct call as [name [arg|]]; cbn [bound_call] in Hb.
    - destruct Hb as [Hname He]. destruct (arg_ints j arg ac name grp He Hac) as (zs & Hz & Ha); [by eapply list_elem_of_lookup_2|done|].
      destruct (fold_call schema args name (agg_type ac) j grp zs Hname Hz) as (v & Hf & Ht & Hs); [|lia|].
      { intros ->. apply (Hsum arg zs); [by eapply list_elem_of_lookup_2|done]. }
      exists v, (name, Some arg), ac. do 4 (split; [done|]). rewrite Hs. split; [by eexists|]. cbn [call_value]. by rewrite Ha.
    - destruct (fold_star schema args j grp) as (v & Hf & Ht & Hs); [lia|]. exists v, (name, None), ac. rewrite Hb.
      do 4 (split; [done|]). rewrite Hs. split; [by eexists|]. cbn [call_value]. by rewrite length_fmap. }
  assert (Forall2 (λ v call, shown v = call_value stof (rows_env grp) call) vs calls) as HF.
  { apply Forall2_same_length_lookup_2; [by rewrite Hl, (Forall2_length _ _ _ calls_bound)|]. intros j v call Hv Hc.
    destruct (Hvs j v Hv) as (call' & _ & Hc' & _ & _ & _ & _ & Hs). congruence. }
  assert (is_Some (mapM shown vs)) as [xs Hxs].
  { apply mapM_is_Some, Forall_lookup. intros j v Hv. by destruct (Hvs j v Hv) as (? & ? & _ & _ & _ & _ & Hs & _). }
  exists vs, xs. split_and!; [|done| |done|by rewrite <- (mapM_agree _ _ _ _ HF)].
  - apply fold_group_total; [unfold init; by rewrite length_fmap|unfold types; by rewrite length_fmap|]. intros j ty v0 Hty Hv0.
    unfold types in Hty. rewrite list_lookup_fmap in Hty. apply fmap_Some in Hty as (ac & Hac & ->).
    unfold init, types in Hv0. rewrite !list_lookup_fmap, Hac in Hv0. injection Hv0 as <-.
    destruct (lookup_lt_is_Some_2 vs j) as [v Hv]; [rewrite Hl; by eapply lookup_lt_Some|].
    destruct (Hvs j v Hv) as (call & ac' & _ & Hac' & _ & Hf & _). exists v. split; [congruence|done].
  - apply Forall_lookup. intros j v Hv. by destruct (Hvs j v Hv) as (? & ? & _ & _ & ? & _).
Qed.

Lemma group_rows_sub k r : r ∈ group_rows k → r ∈ rows.
Proof. by intros [_ ?]%list_elem_of_filter. Qed.

(** The groups of the map fold, and the sums of each fit. *)
Lemma group_folds k : ∃ vs xs, fold_group schema args types init (group_rows k) = Ok vs ∧ length vs = length acs ∧
  Forall (λ v, type_id_ v = INTEGER) vs ∧ mapM shown vs = Some xs ∧ mapM (call_value stof (rows_env (group_rows k))) calls = Some xs.
Proof.
  apply group_fold; [apply group_rows_sub|apply length_filter|]. intros arg zs Hin Ha.
  destruct (group_rows k) as [|r rest] eqn:Eg; [by injection Ha as <-|].
  destruct (group_first k r rest Eg) as (key & Hr & Hk & _ & ->). rewrite <- Eg, (group_env r key Hr Hk) in Ha.
  apply (gr_sums _ _ _ _ grouped arg _ _ Hin) in Ha; [done|]. rewrite <- Hk. by apply group_listed.
Qed.

Lemma text_perm (groups : gmap string AggState) : (∀ k, is_Some (groups !! k) ↔ group_rows k ≠ []) →
  (map_to_list groups).*1 ≡ₚ (λ key, from_option (λ key, text key) "" key) <$> remove_dups (row_key stof group <$> rows_env rows).
Proof.
  intros Hdom.
  assert (∀ key, key ∈ remove_dups (row_key stof group <$> rows_env rows) → ∃ r ds, r ∈ rows ∧ key = Some ds ∧ row_key stof group (row r.1) = Some ds) as Hkeys.
  { intros key Hin. rewrite elem_of_remove_dups, <- list_fmap_compose in Hin. apply list_elem_of_fmap in Hin as (r & -> & Hr).
    destruct (row_has_key r Hr) as (ds & Hds & _). exists r, ds. split_and!; [done|exact Hds|exact Hds]. }
  apply NoDup_Permutation.
  - apply NoDup_fst_map_to_list.
  - apply NoDup_fmap_2_strong; [|apply NoDup_remove_dups]. intros x y Hx Hy Heq.
    destruct (Hkeys x Hx) as (r & ds & Hr & -> & Hd), (Hkeys y Hy) as (r' & ds' & Hr' & -> & Hd'). simpl in Heq.
    rewrite <- Hd'. symmetry. apply (has_key_iff r ds r' Hr Hd Hr'). rewrite Heq. by apply (has_key_iff r' ds' r' Hr' Hd' Hr').
  - intros k. split.
    + intros ([k' s] & -> & Hin)%list_elem_of_fmap. apply elem_of_map_to_list in Hin. simpl.
      destruct (group_rows k') as [|r rest] eqn:Eg; [by destruct (proj1 (Hdom k') ltac:(by eexists))|].
      destruct (group_first k' r rest Eg) as (key & Hr & Hk & _ & ->). apply list_elem_of_fmap. exists (Some key). split; [done|].
      apply elem_of_remove_dups. rewrite <- Hk. by apply list_elem_of_fmap_2, row_in.
    + intros (key & -> & Hin)%list_elem_of_fmap. destruct (Hkeys key Hin) as (r & ds & Hr & -> & Hd). simpl.
      assert (is_Some (groups !! text ds)) as [s Hs].
      { apply Hdom. intros Hno. assert (r ∈ group_rows (text ds)) as Hg by (apply list_elem_of_filter; split; [by apply (has_key_iff r)|done]).
        rewrite Hno in Hg. by apply elem_of_nil in Hg. }
      apply list_elem_of_fmap. exists (text ds, s). split; [done|]. by apply elem_of_map_to_list.
Qed.

Let sch : Schema := group_schema (length gbs) (length acs).
Context (count_sch : countable sch).

Lemma made_row key vals aggs xs : mapM datum_of vals = Some key → Forall (λ v, is_null_ v = false) vals → Forall plain_key key →
  length vals = length gbs → Forall (λ v, type_id_ v = INTEGER) aggs → length aggs = length acs → mapM shown aggs = Some xs →
  ∃ t1 t2, Tuple_new (vals ++ aggs) = Ok t1 ∧ result_tuple sch (t1, Some RID_default) = Ok t2 ∧ tuple_shown t2 = Some ((Some <$> key) ++ xs).
Proof.
  intros Hkey Hp Hplain Hl Hint Hl' Hxs.
  assert (∃ ds, mapM datum_of aggs = Some ds ∧ Forall short ds) as (ds & Hds & Hs).
  { clear -Hint. induction Hint as [|v aggs Hv _ (ds & Hds & Hs)]; [by exists []|]. exists (DInt (integer_ v) :: ds).
    assert (datum_of v = Some (DInt (integer_ v))) as Hd by (unfold datum_of; by rewrite Hv). simpl. rewrite Hd. simpl. rewrite Hds.
    split; [done|]. by constructor. }
  pose proof (mapM_app datum_of vals aggs _ _ Hkey Hds) as Hall.
  assert (Forall short (key ++ ds)) as Hshort.
  { apply Forall_app. split; [|done]. eapply Forall_impl; [exact Hplain|]. intros [| | |s]; try done. by intros []. }
  destruct (Tuple_new_short _ _ Hall Hshort) as (t1 & Ht1 & Hv1). exists t1.
  rewrite result_same; [|done|simpl; unfold sch; by rewrite group_schema_length, Hv1, length_app, Hl, Hl']. simpl. rewrite Hv1, Ht1.
  exists t1. do 2 (split; [done|]). unfold tuple_shown. rewrite Hv1. apply mapM_app; [|done].
  clear -Hkey Hp. revert key Hkey. induction Hp as [|v vals Hv _ IH]; intros key Hkey; [by injection Hkey as <-|].
  simpl in Hkey. destruct (datum_of v) as [d|] eqn:Ed; [|done]. simpl in Hkey. destruct (mapM datum_of vals) as [ds|]; [|done].
  injection Hkey as <-. assert (shown v = Some (Some d)) as Hshown by (unfold shown; by rewrite Hv, Ed). simpl. rewrite Hshown. simpl.
  by rewrite (IH ds eq_refl).
Qed.

(** The row of a group in the map. *)
Lemma state_row k s : group_state fmt_2f sch schema gbs args types k rows (Some s) →
  ∃ t1 t2 d, Tuple_new (group_vals s ++ agg_vals s) = Ok t1 ∧ result_tuple sch (t1, Some RID_default) = Ok t2 ∧ tuple_shown t2 = Some d ∧
    group_row stof group calls (rows_env (group_rows k)) = Some d.
Proof.
  unfold group_state. intros Hst. destruct (group_folds k) as (vs & xs & Hfold & Hlen & Hint & Hxs & Hcalls).
  destruct (group_rows k) as [|r rest] eqn:Eg; [discriminate Hst|]. destruct Hst as (vals & init' & aggs & Hv & Hi & Hf & [= ->]).
  destruct (group_first k r rest Eg) as (key & Hr & Hk & Hplain & _).
  assert (init' = init) as ->.
  { assert (length types = length acs) as Ht by (unfold types; apply length_fmap). unfold sch in Hi. rewrite <- Ht in Hi.
    rewrite (group_initial gbs types) in Hi by (rewrite Ht; exact count_sch). by injection Hi as <-. }
  rewrite Hfold in Hf. injection Hf as <-. destruct (key_values r key Hr Hk) as (vals' & Hv' & Hd & Hp & _). rewrite Hv in Hv'. injection Hv' as <-.
  destruct (made_row key vals vs xs Hd Hp Hplain (mapR_length _ _ _ Hv) Hint Hlen Hxs) as (t1 & t2 & H1 & H2 & H3).
  exists t1, t2, ((Some <$> key) ++ xs). do 3 (split; [done|]). unfold group_row. rewrite fmap_cons in *. rewrite Hk. cbn [mbind option_bind].
  by rewrite Hcalls.
Qed.

Lemma length_remove_dups {A} `{EqDecision A} (l : list A) : (length (remove_dups l) ≤ length l)%nat.
Proof. induction l as [|x l IH]; simpl; [lia|]. case_decide; simpl; lia. Qed.

Lemma some_row : rows = [] ∨ ∃ r, r ∈ rows.
Proof. clear. destruct rows as [|r rs]; [by left|right; exists r; left]. Qed.
Lemma same_keys : group = [] ∧ gbs = [] ∨ group ≠ [] ∧ gbs ≠ [].
Proof. clear -group_bound. destruct group_bound; [by left|by right]. Qed.

(** A consistent map has the groups of the rows. *)
Definition holds_groups (groups : gmap string AggState) : Prop :=
  ∀ k, group_state fmt_2f sch schema gbs args types k rows (groups !! k).

Lemma groups_dom groups : holds_groups groups → ∀ k, is_Some (groups !! k) ↔ group_rows k ≠ [].
Proof.
  intros Hst k. specialize (Hst k). unfold group_state in Hst. destruct (group_rows k); [rewrite Hst; split; [by intros []|done]|].
  destruct Hst as (? & ? & ? & _ & _ & _ & ->). split; [done|by eexists].
Qed.
Lemma groups_none groups : holds_groups groups → groups = ∅ → rows = [].
Proof.
  intros Hst Hempty. destruct some_row as [|[r Hr]]; [done|]. destruct (row_has_key r Hr) as (key & Hk & _).
  assert (is_Some (groups !! text key)) as [s Hs]; [|by rewrite Hempty, lookup_empty in Hs].
  apply (groups_dom _ Hst). intros Hno. assert (r ∈ group_rows (text key)) as Hin by (apply list_elem_of_filter; split; [by apply (has_key_iff r)|done]).
  rewrite Hno in Hin. by apply elem_of_nil in Hin.
Qed.

Lemma groups_perm `{!HashOrder} groups : holds_groups groups → groups ≠ ∅ →
  (λ p, rows_env (group_rows p.1)) <$> hash_order groups ≡ₚ sql_groups stof group (rows_env rows).
Proof.
  intros Hst Hne.
  assert (sql_groups stof group (rows_env rows) = (λ key, filter (λ ρ, row_key stof group ρ = key) (rows_env rows)) <$> remove_dups (row_key stof group <$> rows_env rows)) as ->.
  { unfold sql_groups. destruct some_row as [Hrows|[r Hr]].
    - destruct Hne. apply map_eq. intros k. rewrite lookup_empty. apply eq_None_not_Some. intros Hk. apply (groups_dom _ Hst) in Hk. by rewrite Hrows in Hk.
    - apply row_in in Hr. destruct group; [|done]. destruct (rows_env rows); [by apply elem_of_nil in Hr|done]. }
  rewrite hash_order_perm. change (λ p : string * AggState, rows_env (group_rows p.1)) with ((λ k, rows_env (group_rows k)) ∘ (fst : string * AggState → string)).
  rewrite list_fmap_compose, (text_perm groups (groups_dom _ Hst)), <- list_fmap_compose.
  match goal with |- ?l ≡ₚ ?k => enough (l = k) as -> by done end. apply list_fmap_ext. intros i key Hi.
  apply list_elem_of_lookup_2 in Hi. rewrite elem_of_remove_dups, <- list_fmap_compose in Hi. apply list_elem_of_fmap in Hi as (r & -> & Hr).
  destruct (row_has_key r Hr) as (ds & Hds & _). simpl. rewrite Hds. simpl. by apply (group_env r ds).
Qed.

(** What the executor puts out of the map. *)
Definition gives_groups (out : res (list Tuple)) : Prop := ∃ tups ts answer data, out = Ok tups ∧
  mapR (λ t : Tuple, result_tuple sch (t, Some RID_default)) tups = Ok ts ∧ mapM tuple_shown ts = Some answer ∧
  mapM (group_row stof group calls) (sql_groups stof group (rows_env rows)) = Some data ∧ answer ≡ₚ data ∧
  (length tups ≤ Nat.max 1 (length rows))%nat.

(** Without rows: one group without GROUP BY, none with it. *)
Lemma gives_no_groups : initial_aggs sch gbs types = Ok init → rows = [] →
  gives_groups (match gbs with [] => vals ← initial_aggs sch gbs types; t ← Tuple_new vals; Ok [t] | _ => Ok [] end).
Proof.
  intros Hinit Hrows. destruct same_keys as [[Hgroup Hgbs]|[Hgroup Hgbs]].
  - destruct (group_folds "") as (vs & xs & Hf & Hl & Hint & Hxs & Hcalls). rewrite Hrows in Hf, Hcalls. injection Hf as <-.
    destruct (made_row [] [] init xs) as (t1 & t2 & H1 & H2 & H3); try done; [by rewrite Hgbs|]. cbn [app] in H1.
    exists [t1], [t2], [xs], [xs]. split; [rewrite Hinit; cbn [mbind res_bind]; rewrite H1; by rewrite Hgbs|].
    split; [cbn [mapR]; by rewrite H2|]. split; [simpl; by rewrite H3|]. split; [|by split_and!; [done|simpl; lia]].
    rewrite Hgroup, Hrows. simpl. unfold group_row. cbn [mbind option_bind]. change (mapM (call_value stof []) calls = Some xs) in Hcalls. by rewrite Hcalls.
  - exists [], [], [], []. split; [by destruct gbs|]. do 2 (split; [done|]). split_and!; [|done|simpl; lia].
    rewrite Hrows. unfold sql_groups. by destruct group.
Qed.

Lemma gives_all_groups `{!HashOrder} groups : holds_groups groups → groups ≠ ∅ →
  gives_groups (mapR (λ s, Tuple_new (group_vals s ++ agg_vals s)) (hash_order groups).*2).
Proof.
  intros Hst Hne.
  assert (∀ p, p ∈ hash_order groups → ∃ y d, (t1 ← Tuple_new (group_vals p.2 ++ agg_vals p.2); result_tuple sch (t1, Some RID_default)) = Ok y ∧
    tuple_shown y = Some d ∧ group_row stof group calls (rows_env (group_rows p.1)) = Some d) as Hall.
  { intros [k s] Hin. rewrite hash_order_perm in Hin. apply elem_of_map_to_list in Hin. pose proof (Hst k) as Hk. rewrite Hin in Hk.
    destruct (state_row k s Hk) as (t1 & t2 & d & H1 & H2 & H3 & H4). exists t2, d. simpl. by rewrite H1. }
  destruct (collect_ok _ tuple_shown (group_row stof group calls) (λ p, rows_env (group_rows p.1)) _ Hall) as (ts & answer & Hts & Hans & Hdata).
  destruct (mapR_compose _ _ _ _ Hts) as (tups & Ht1 & Ht2).
  apply mapM_Some_1 in Hdata. destruct (Permutation_Forall2 (groups_perm groups Hst Hne) Hdata) as (data & Hpd & HF).
  assert (mapR (λ s, Tuple_new (group_vals s ++ agg_vals s)) (hash_order groups).*2 = Ok tups) as Htups.
  { apply mapR_Forall2. apply mapR_Forall2 in Ht1. apply Forall2_fmap_l. exact Ht1. }
  exists tups, ts, answer, data. do 3 (split; [done|]). split; [by apply mapM_Some_2|]. split; [done|].
  rewrite (mapR_length _ _ _ Htups), length_fmap, hash_order_perm, <- (length_fmap fst), (text_perm groups (groups_dom _ Hst)), length_fmap.
  pose proof (length_remove_dups (row_key stof group <$> rows_env rows)) as Hle. rewrite !length_fmap in Hle. lia.
Qed.

(** Aggregation gives the answer of the reference. *)
Lemma agg_result `{!HashOrder} : ∃ out ts answer data, agg_rows fmt_2f sch schema gbs args types rows = Ok out ∧
  mapR (result_tuple sch) out = Ok ts ∧ mapM tuple_shown ts = Some answer ∧
  mapM (group_row stof group calls) (sql_groups stof group (rows_env rows)) = Some data ∧ answer ≡ₚ data ∧
  (length out ≤ Nat.max 1 (length rows))%nat.
Proof.
  assert (length types = length acs) as Htypes by (unfold types; apply length_fmap).
  assert (initial_aggs sch gbs types = Ok init) as Hinit by (unfold sch; rewrite <- Htypes; apply group_initial; rewrite Htypes; exact count_sch).
  destruct (groups_total sch schema gbs args types fmt_2f rows init Hinit) as (groups & Hg & Hst).
  { intros r Hr. destruct (row_has_key r Hr) as (key & Hk & _). destruct (key_values r key Hr Hk) as (vals & Hv & _). by exists vals. }
  { intros k. destruct (group_folds k) as (vs & _ & Hf & _). by exists vs. }
  assert (gives_groups (materialize sch gbs types groups)) as (tups & ts & answer & data & Htups & Hts & Hans & Hdata & Hp & Hlen).
  { unfold materialize. case_bool_decide as Hempty; [|by apply gives_all_groups]. apply gives_no_groups; [done|]. by apply (groups_none groups). }
  unfold agg_rows. rewrite Hg. cbn [mbind res_bind]. rewrite Htups. cbn [mbind res_bind]. eexists _, ts, answer, data. split; [reflexivity|].
  rewrite length_fmap. split; [|done]. apply mapR_Forall2, Forall2_fmap_l. by apply mapR_Forall2 in Hts.
Qed.
End Groups.

(** ** From the text to the answer *)

(** A SELECT from one table with aggregates, with GROUP BY or without, and no ORDER BY
    and no LIMIT. *)
Definition group_select (select : PGSelect) (rv : PGRangeVar) : Prop :=
  fromClause select = [PGRange rv] ∧ sortClause select = [] ∧ limitCount select = PGNull ∧
  Forall (λ n, calls_aggregate n = true → is_Some (sql_call n)) (targetList select) ∧ sql_calls (targetList select) ≠ [].

Section GroupPlan.
Context {HO : HashOrder} {SS : StdSort} (fuel : nat) (fmt_2f : Z → string) (stof : string → res Z) (c : Catalog) (records : Z → list (RID * bytes)).

Lemma group_plan select rv name t plan : group_select select rv → relname rv = Some name → GetTable name c = Ok (Some t) →
  BindSelect stof c select = Ok plan → let scopes := [mkScope (default name (alias rv)) t 0] in
  ∃ e gbs acs, BindExpression stof scopes (whereClause select) = Ok e ∧
    Forall2 (λ n e, BindExpression stof scopes n = Ok e) (groupClause select) gbs ∧
    Forall2 (bound_call stof scopes) (sql_calls (targetList select)) acs ∧
    plan = AggregationPlanNode (group_schema (length gbs) (length acs)) (scan_of t (as_predicate e)) gbs (agg_call_arg <$> acs) (agg_type <$> acs).
Proof.
  intros (Hfrom & Hsort & Hlimit & Hcalls & Hne) Hrel Ht H scopes. unfold BindSelect in H. rewrite Hfrom, Hsort, Hlimit in H.
  assert (select_from stof c [PGRange rv] = Ok (scopes, scan_of t None)) as Hsf.
  { unfold select_from. cbn [foldR bind_from]. unfold scope_of. rewrite Hrel. cbn [c_str mbind res_bind]. unfold table_named. by rewrite Ht. }
  rewrite Hsf in H. cbn [mbind res_bind] in H.
  destruct (select_where stof scopes (whereClause select) (scan_of t None)) as [p1| | |] eqn:E1; try done. cbn [mbind res_bind] in H.
  destruct (where_plan stof _ t _ p1 E1) as (e & He & ->).
  destruct (foldR _ _ _) as [T| | |] eqn:ET; try done. cbn [mbind res_bind] in H.
  destruct (bind_targets_calls stof scopes _ Hcalls _ _ ET) as (acs & Hacs & Hb). cbn [agg_calls app] in Hacs.
  assert (has_aggregates T = true) as Hhas.
  { unfold has_aggregates. rewrite Hacs. destruct Hb; [done|]. by rewrite bool_decide_false. }
  unfold select_aggregates, select_projection in H. rewrite Hhas in H.
  destruct (mapR (BindExpression stof scopes) (groupClause select)) as [gbs| | |] eqn:Eg; try done. cbn [mbind res_bind select_order select_limit] in H.
  rewrite andb_false_r in H. cbn [andb] in H. injection H as <-. rewrite Hacs. exists e, gbs, acs. split; [done|]. split; [by apply mapR_Forall2|]. by split.
Qed.

(** The plan of a SELECT with aggregates, optimized, gives the answer the text asks for. *)
Lemma group_result select rv name t plan kept : db_current c records → group_select select rv → relname rv = Some name →
  GetTable name c = Ok (Some t) → BindSelect stof c select = Ok plan → countable (t_schema_ t) → countable (plan_schema plan) →
  (S (length (records (t_oid_ t))) < fuel)%nat → (2 < fuel)%nat →
  sql_where stof (whereClause select) (table_env records name rv t) = Some kept →
  (∀ ρ, ρ ∈ kept → ∃ ds, mapM snd (ρ ≫= src_columns) = Some ds ∧ Forall short ds) →
  groupable stof (groupClause select) (sql_calls (targetList select)) kept →
  ∃ plan' result answer, Optimize (Some c) plan = Ok plan' ∧ query_result fmt_2f c records plan' = Ok result ∧
    enough_fuel fuel fmt_2f c records plan' ∧ mapM tuple_shown result = Some answer ∧
    sql_group_answer stof select (table_env records name rv t) answer.
Proof.
  intros Hdb Hsel Hrel Ht Hbind Hn Hn' Hf Hf2 Hw Hread Hgr. pose proof (GetTable_tables c (dc_catalog _ _ Hdb) name t Ht) as Htab.
  destruct (group_plan select rv name t plan Hsel Hrel Ht Hbind) as (e & gbs & acs & He & Hgb & Hac & ->).
  set (a := default name (alias rv)) in *.
  destruct (scan_total stof a t Hn _ e (records (t_oid_ t)) He _ Hw Hread) as [rows Hrows].
  pose proof (scan_meaning stof a t Hn _ e _ He rows Hrows) as Hm. unfold table_env in Hw. fold a in Hw. rewrite Hw in Hm. injection Hm as ->.
  assert (query_rows fmt_2f c records (scan_of t (as_predicate e)) = Ok rows) as Hq by (cbn; unfold table_rows; by rewrite Htab).
  destruct (scan_optimized fuel fmt_2f c records t e rows Hdb Htab (bound_present stof _ _ e He) Hq Hf) as (child & Ho & Hcs & Hcq & Hcf & Hrf).
  destruct (agg_result fmt_2f stof a t _ gbs Hgb _ acs Hac rows (scan_present _ _ _ rows Hrows) Hgr Hn') as
    (out & ts & answer & data & Hout & Hts & Hans & Hdata & Hperm & Hlen).
  set (sch := group_schema (length gbs) (length acs)) in *.
  set (plan' := AggregationPlanNode sch child gbs (agg_call_arg <$> acs) (agg_type <$> acs)).
  assert (query_rows fmt_2f c records plan' = Ok out) as Hq' by (unfold plan'; cbn [query_rows]; rewrite Hcq, Hcs; exact Hout).
  exists plan', ts, answer. split; [cbn [Optimize]; by rewrite Ho|]. split; [unfold query_result; rewrite Hq'; exact Hts|].
  split; [split; [unfold small; fold plan'; rewrite Hq'; lia|exact Hcf]|]. split; [done|]. eexists _, data. by split.
Qed.
End GroupPlan.

Section Answer.
Context {S : Type} `{PIO : !PageIO bytes S} {HO : HashOrder} {SS : StdSort} (fuel pages : nat).
Context (fmt_2f : Z → string) (stof : string → res Z) (Parse : string → PGParseResult).
Context (frames : 1 ≤ io_frames) (m : gmap Z bytes) (nid : Z) (c : Catalog) (heaps : Z → list (Z * (list bytes * Z))).
Context (Hheaps : ∀ oid t, tables_ c !! oid = Some t → heap_ok m (table_ t) (heaps oid) ∧ (length (heaps oid) < pages)%nat).
Let records : Z → list (RID * bytes) := λ oid, live (heaps oid).

(** C9: a SELECT with COUNT, SUM, MIN or MAX answers what its text means.  The
    statement, bound, optimized (with an index or without) and executed on the pages,
    ends and gives, in some order, one row for each group of the rows the WHERE clause
    is true on, the keys of GROUP BY first, then the aggregates of the group (of all
    rows, even of none, without GROUP BY; NULL for the sum, least and greatest of
    none).  The indexes have to be current, the WHERE clause to be true or false on every
    row, the columns of the kept rows to have values, the keys to be BOOLEAN, INTEGER or VARCHAR without a bar, each of one
    type, the arguments INTEGER, and no sum may overflow on the way. *)
Theorem group_meaning sql select rest rv name t plan kept :
  Parse sql = ParseTree (PGSelectStmt select :: rest) → group_select select rv → relname rv = Some name →
  db_current c records → GetTable name c = Ok (Some t) → BindQuery stof c Parse sql = Ok plan →
  countable (t_schema_ t) → countable (plan_schema plan) → (Datatypes.S (length (records (t_oid_ t))) < fuel)%nat → (2 < fuel)%nat →
  sql_where stof (whereClause select) (table_env records name rv t) = Some kept →
  (∀ ρ, ρ ∈ kept → ∃ ds, mapM snd (ρ ≫= src_columns) = Some ds ∧ Forall short ds) →
  groupable stof (groupClause select) (sql_calls (targetList select)) kept →
  ∃ plan' result answer, Optimize (Some c) plan = Ok plan' ∧ computes (idle m nid, c) (Execute fuel pages fmt_2f plan') result ∧
    mapM tuple_shown result = Some answer ∧ sql_group_answer stof select (table_env records name rv t) answer.
Proof.
  intros Hparse Hsel Hrel Hdb Ht Hbind Hn Hn' Hf Hf2 Hw Hread Hgr. unfold BindQuery in Hbind. rewrite Hparse in Hbind.
  destruct (group_result fuel fmt_2f stof c records select rv name t plan kept Hdb Hsel Hrel Ht Hbind Hn Hn' Hf Hf2 Hw Hread Hgr)
    as (plan' & result & answer & Ho & Hr & Hfuel & Ha & Hans).
  exists plan', result, answer. split; [done|]. split; [|done]. by apply (Execute_query fuel pages fmt_2f frames m nid c heaps).
Qed.
End Answer.

(** *** Witness: SELECT COUNT ( * ), SUM(a + 1) FROM t GROUP BY a *)

Definition call_of (name : string) (args : list PGNode) : PGNode := PGResTarget None (PGFuncCall [PGString name] args (bool_decide (args = []))).
Definition sum_arg : PGNode := op_expr "+" (col_ref "a") (int_const 1).
Definition sums_select : PGSelect :=
  mkSelect [call_of "COUNT" []; call_of "sum" [sum_arg]] [from_table "t"] PGNull [col_ref "a"] [] PGNull [].
Definition sums_parse (sql : string) : PGParseResult := ParseTree [PGSelectStmt sums_select].
Definition sums_plan : AbstractPlanNode := match BindQuery no_floats indexed_catalog sums_parse "" with Ok plan => plan | _ => NullPlanNode end.
Definition a_row (z : Z) : env := [mkSource "t" [("a", Some (DInt z))]].
Definition sums_rows : list env := a_row <$> [7; 9; 7].

Lemma sums_groupable : groupable no_floats [col_ref "a"] (sql_calls (targetList sums_select)) sums_rows.
Proof.
  assert (∀ ρ, ρ ∈ sums_rows → ∃ z, ρ = a_row z ∧ (z = 7 ∨ z = 9)) as Hrow.
  { intros ρ (z & -> & Hz)%list_elem_of_fmap. exists z. split; [done|]. set_solver. }
  split.
  - intros ρ (z & -> & _)%Hrow. exists [DInt z]. split; [done|repeat constructor].
  - intros ρ ρ' key key' (z & -> & _)%Hrow (z' & -> & _)%Hrow [= <-] [= <-]. repeat constructor.
  - intros name arg ρ Hin (z & -> & Hz)%Hrow. change (sql_calls _) with [("count", None : option PGNode); ("sum", Some sum_arg)] in Hin.
    assert (arg = sum_arg) as -> by (apply elem_of_cons in Hin as [[=]|Hin]; apply list_elem_of_singleton in Hin as [= _ ->]; done).
    exists (z + 1). by destruct Hz as [->| ->].
  - intros arg ρs zs Hin Hg Ha. change (sql_calls _) with [("count", None : option PGNode); ("sum", Some sum_arg)] in Hin.
    assert (arg = sum_arg) as -> by (apply elem_of_cons in Hin as [[=]|Hin]; apply list_elem_of_singleton in Hin as [= ->]; done).
    change (sql_groups _ _ _) with [[a_row 9]; [a_row 7; a_row 7]] in Hg.
    apply elem_of_cons in Hg as [->|Hg]; [|apply list_elem_of_singleton in Hg as ->]; vm_compute in Ha; injection Ha as <-; repeat constructor.
  - vm_compute. discriminate.
Qed.

Lemma group_meaning_witness :
  mapM (group_row no_floats [col_ref "a"] (sql_calls (targetList sums_select))) (sql_groups no_floats [col_ref "a"] sums_rows) =
    Some ((λ '(a, n, s), [Some (DInt a); Some (DInt n); Some (DInt s)]) <$> [(9, 1, 10); (7, 2, 16)]) ∧
  ∃ plan' result answer, Optimize (HO := listed_order) (Some indexed_catalog) sums_plan = Ok plan' ∧
    computes (PIO := demo_io) (idle int_pages 1, indexed_catalog)
      (Execute (PIO := demo_io) (HO := listed_order) (SS := insertion_std_sort) 9 2 (λ _, "") plan') result ∧
    mapM tuple_shown result = Some answer ∧ sql_group_answer no_floats sums_select (table_env demo_records "t" (mkRangeVar (Some "t") None) int_table) answer.
Proof.
  split; [vm_compute; reflexivity|].
  apply (group_meaning (PIO := demo_io) (HO := listed_order) (SS := insertion_std_sort) 9 2 (λ _, "") no_floats sums_parse
    ltac:(vm_compute; discriminate) int_pages 1 indexed_catalog demo_heaps demo_heaps_ok "" sums_select [] (mkRangeVar (Some "t") None)
    "t" int_table sums_plan sums_rows).
  - reflexivity.
  - split; [reflexivity|]. split; [reflexivity|]. split; [reflexivity|]. split; [|discriminate].
    repeat constructor; intros _; eexists; reflexivity.
  - reflexivity.
  - exact indexed_db_current.
  - vm_compute. reflexivity.
  - vm_compute. reflexivity.
  - vm_compute. reflexivity.
  - vm_compute. reflexivity.
  - vm_compute. lia.
  - lia.
  - vm_compute. reflexivity.
  - intros ρ (z & -> & _)%list_elem_of_fmap. exists [DInt z]. split; [reflexivity|repeat constructor].
  - exact sums_groupable.
Defined.
