(* ===== verification/ChangeMeaning.v ===== *)
(** * What DELETE and UPDATE mean

    The statements that change a table in place, in terms of [Meaning]: which records
    they select and what they leave, from the text to the pages. *)

From S2P Require Import Prelude Common Value Tuple Expression PageStore PageIO PageLogic TablePage TableHeap TableEdit Catalog Executor.
From S2P Require Import Operators Join Aggregate Dml OrderBy Utility Engine Effects Optimizer Statements Binder Meaning SelectMeaning.

(** ** DELETE *)

(** Every record is one the WHERE clause is true or false on, and one it is true on has
    columns with values. *)
Definition decided (stof : string → res Z) (clause : PGNode) (ρs : list env) : Prop :=
  ∀ ρ, ρ ∈ ρs → ∃ keep, condition stof clause ρ = Some keep ∧
    (keep = true → ∃ ds, mapM snd (ρ ≫= src_columns) = Some ds ∧ Forall short ds).

Section Decided.
Context (stof : string → res Z) (a : string) (t : TableInfo) (count : countable (t_schema_ t)).
Abbreviation row_of := (record_env a (t_schema_ t)).

Lemma decided_where clause es : decided stof clause (row_of <$> es) →
  sql_where stof clause (row_of <$> es) = Some (row_of <$> filter (λ e, condition stof clause (row_of e) = Some true) es).
Proof.
  induction es as [|e es IH]; intros H; [done|]. rewrite fmap_cons in *. cbn [sql_where].
  destruct (H (row_of e)) as (keep & Hk & _); [left|]. rewrite Hk, IH by (intros ρ Hρ; apply H; by right).
  cbn [mbind option_bind]. rewrite filter_cons, Hk. destruct keep; [by rewrite decide_True|by rewrite decide_False].
Qed.

Lemma decided_scan clause e es : BindExpression stof [mkScope a t 0] clause = Ok e → decided stof clause (row_of <$> es) →
  ∃ rows, scan_rows (t_schema_ t) (as_predicate e) es = Ok rows ∧
    length rows = length (filter (λ e, condition stof clause (row_of e) = Some true) es).
Proof.
  intros He Hd. pose proof (decided_where clause es Hd) as Hw.
  destruct (scan_total stof a t count clause e es He _ Hw) as [rows Hrows].
  { intros ρ (r & -> & [Hc Hr]%list_elem_of_filter)%list_elem_of_fmap.
    destruct (Hd (row_of r)) as (keep & Hk & Hp); [by apply list_elem_of_fmap_2|]. rewrite Hk in Hc. injection Hc as ->. by apply Hp. }
  exists rows. split; [done|]. pose proof (scan_meaning stof a t count clause e es He rows Hrows) as Hm. rewrite Hw in Hm.
  injection Hm as Hm. apply (f_equal length) in Hm. by rewrite !length_fmap in Hm.
Qed.

Lemma selected_condition clause e r keep : BindExpression stof [mkScope a t 0] clause = Ok e → condition stof clause (row_of r) = Some keep →
  selected (t_schema_ t) (as_predicate e) r = keep.
Proof.
  intros He Hc. apply (predicate_meaning stof a t clause e _ _ He) in Hc. unfold selected. by rewrite Hc.
Qed.
End Decided.

Lemma filter_agree {A} (P Q : A → Prop) `{∀ x, Decision (P x), ∀ x, Decision (Q x)} (l : list A) : (∀ x, x ∈ l → P x ↔ Q x) → filter P l = filter Q l.
Proof.
  induction l as [|x l IH]; intros Hpq; [done|]. rewrite !filter_cons, IH by (intros; apply Hpq; by right).
  pose proof (Hpq x ltac:(left)). repeat case_decide; naive_solver.
Qed.

(** The record of an answer with one number. *)
Lemma count_answer (n : nat) : Z.of_nat n ≤ INT32_MAX → ∃ r ts, count_row (Z.of_nat n) = Ok r ∧
  mapR (result_tuple CountSchema) [r] = Ok ts ∧ mapM tuple_data ts = Some [[DInt (Z.of_nat n)]].
Proof.
  intros Hn. unfold count_row.
  assert (mapM datum_of [Value_int INTEGER (Z.of_nat n)] = Some [DInt (Z.of_nat n)]) as Hd.
  { simpl. unfold datum_of. simpl. rewrite integer_Value_int; [done|]. unfold in_i32, INT32_MIN, INT32_MAX in *. lia. }
  destruct (Tuple_new_short _ _ Hd ltac:(repeat constructor)) as (t1 & Ht & Hv). rewrite Ht. cbn [mbind res_bind].
  destruct (result_copies CountSchema (t1, Some RID_default) [DInt (Z.of_nat n)]) as (t2 & Hr & Hd2); [done| | |repeat constructor|].
  { simpl. by rewrite Hv. }
  { unfold tuple_data. simpl. by rewrite Hv. }
  eexists _, [t2]. split; [done|]. cbn [mapR]. rewrite Hr. split; [done|]. simpl. by rewrite Hd2.
Qed.

Lemma delete_edits schema p es : ∀ rows h, scan_rows schema p es = Ok rows → ∃ h', edits (row_edit schema p delete_new) es h = Ok h'.
Proof.
  induction es as [|e es IH]; intros rows h H; [by eexists|]. apply selectM_cons in H as (o & rest & Ho & Hr & _).
  assert (row_edit schema p delete_new e = Ok (match o with Some _ => Some [] | None => None end)) as He
    by (unfold row_edit; rewrite Ho; by destruct o).
  cbn [edits]. rewrite He. destruct o; by apply (IH rest).
Qed.

(** ** UPDATE *)

Section Set_.
Context (stof : string → res Z).

(** The expression assigned to a column: of two assignments the later one. *)
Fixpoint assigned (targets : list PGNode) (column : string) : option PGNode :=
  match targets with
  | [] => None
  | target :: targets =>
      match assigned targets column, target with
      | Some val, _ => Some val
      | None, PGResTarget (Some name) val => if bool_decide (name = column) then Some val else None
      | None, _ => None
      end
  end.
(** The row after the assignments, all made on the old values. *)
Definition set_column (targets : list PGNode) (ρ : env) (column : string * option datum) : option datum :=
  match assigned targets column.1 with Some val => meaning stof ρ val | None => column.2 end.
Definition sql_set (targets : list PGNode) (ρ : env) : option (list datum) := mapM (set_column targets ρ) (ρ ≫= src_columns).

Lemma bind_sets scopes targets : ∀ sets sets', foldR (bind_set stof scopes) sets targets = Ok sets' →
  ∀ col, match assigned targets col with
    | Some val => ∃ e, sets' !! col = Some e ∧ BindExpression stof scopes val = Ok e
    | None => sets' !! col = sets !! col
    end.
Proof.
  induction targets as [|target targets IH]; intros sets sets' H col; [by injection H as <-|]. cbn [foldR] in H.
  destruct (bind_set stof scopes sets target) as [sets1| | |] eqn:E; try done. specialize (IH sets1 sets' H col). cbn [assigned].
  destruct (assigned targets col) as [val|]; [done|]. rewrite IH. clear IH H.
  destruct target as [| | | | | | | | | | | | |name val| | |]; try done. simpl in E. destruct name as [name|]; [|done]. simpl in E.
  destruct (BindExpression stof scopes val) as [e| | |] eqn:He; try done. injection E as <-. case_bool_decide as Hn.
  - subst name. exists e. by rewrite lookup_insert_eq.
  - by rewrite lookup_insert_ne.
Qed.

Context (a : string) (t : TableInfo) (count : countable (t_schema_ t)).
Let scopes : list TableScope := [mkScope a t 0].
Let schema : Schema := t_schema_ t.

(** The expressions of the plan give the row after the assignments. *)
Lemma update_exprs_meaning targets sets tup ds : foldR (bind_set stof scopes) ∅ targets = Ok sets →
  sql_set targets (tuple_env a schema tup) = Some ds →
  ∃ vs, mapR (λ e, Evaluate e (Some tup) schema) (imap (update_expr sets) (columns_ schema)) = Ok vs ∧ mapM datum_of vs = Some ds.
Proof.
  intros Hsets. unfold sql_set. pose proof (bind_sets scopes targets ∅ sets Hsets) as Hset. set (ρ := tuple_env a schema tup).
  assert (ρ ≫= src_columns = columns_from (GetValueBy tup schema) (Z.of_nat 0) (columns_ schema)) as -> by (simpl; by rewrite app_nil_r).
  assert (imap (update_expr sets) (columns_ schema) = imap (λ i, update_expr sets (0 + i)%nat) (columns_ schema)) as -> by done.
  generalize (columns_ schema) as cols. generalize 0%nat as i. intros i cols. revert i ds.
  induction cols as [|col cols IH]; intros i ds Hds; [injection Hds as <-; by exists []|].
  cbn [columns_from mapM] in Hds. replace (Z.of_nat i + 1) with (Z.of_nat (S i)) in Hds by lia.
  destruct (set_column targets ρ _) as [d|] eqn:Ed; [|done]. cbn [mbind option_bind] in Hds.
  destruct (mapM (set_column targets ρ) _) as [rest|] eqn:Er; [|done]. injection Hds as <-.
  assert (∃ v, Evaluate (update_expr sets i col) (Some tup) schema = Ok v ∧ datum_of v = Some d) as (v & Hv & Hd).
  { unfold set_column in Ed. cbn [fst snd] in Ed. specialize (Hset (Tuple.col_name col)). unfold update_expr.
    destruct (assigned targets (Tuple.col_name col)) as [val|].
    - destruct Hset as (e & -> & He). pose proof (Evaluate_meaning stof a t val e tup He) as Hm. change (t_schema_ t) with schema in Hm.
      fold ρ in Hm. rewrite <- Hm in Ed. destruct (Evaluate e (Some tup) schema) as [v| | |]; try discriminate Ed. by exists v.
    - rewrite Hset, lookup_empty. unfold Evaluate. cbn [eval]. destruct (GetValueBy tup schema (Z.of_nat i)) as [v| | |]; try discriminate Ed. by exists v. }
  destruct (IH (S i) rest Er) as (vs & Hvs & Hdat). exists (v :: vs). cbn [imap mapR]. rewrite Nat.add_0_r, Hv.
  split; [|simpl; by rewrite Hd, Hdat]. cbn [mbind res_bind].
  assert (imap ((λ i0, update_expr sets (i + i0)%nat) ∘ S) cols = imap (λ i0, update_expr sets (S i + i0)%nat) cols) as ->; [|by rewrite Hvs].
  apply imap_ext. intros k x _. simpl. f_equal. lia.
Qed.

(** The new bytes of a record are those of the row after the assignments. *)
Lemma update_new_bytes targets sets tup r ds : foldR (bind_set stof scopes) ∅ targets = Ok sets → r.1 = tup →
  sql_set targets (tuple_env a schema tup) = Some ds → Forall short ds →
  update_new schema (imap (update_expr sets) (columns_ schema)) r = Ok (row_bytes ds).
Proof.
  intros Hsets <- Hds Hs. destruct (update_exprs_meaning targets sets r.1 ds Hsets Hds) as (vs & Hvs & Hdat).
  unfold update_new. rewrite Hvs. cbn [mbind res_bind]. by rewrite (Tuple_new_bytes vs ds Hdat Hs).
Qed.
End Set_.
(** The new bytes of a record, if the WHERE clause is true on it. *)
Definition new_bytes (stof : string → res Z) (targets : list PGNode) (clause : PGNode) (ρ : env) : option bytes :=
  if decide (condition stof clause ρ = Some true) then row_bytes <$> sql_set stof targets ρ else None.
(** Every record it is true on has a row after the assignments. *)
Definition settable (stof : string → res Z) (targets : list PGNode) (clause : PGNode) (ρs : list env) : Prop :=
  ∀ ρ, ρ ∈ ρs → condition stof clause ρ = Some true → ∃ ds, sql_set stof targets ρ = Some ds ∧ Forall short ds.

(** The bytes the new records of a page take; they do not use the space of the old. *)
Definition page_need (g : RID * bytes → option bytes) (es : list (RID * bytes)) (pid : Z) : Z :=
  foldr (λ e n, (if decide (rid_page_id e.1 = pid) then Z.of_nat (length (default [] (g e))) else 0) + n) 0 es.
Definition room_for (g : RID * bytes → option bytes) (es : list (RID * bytes)) (h : heap) : Prop :=
  ∀ pid ts free, (pid, (ts, free)) ∈ h → page_need g es pid ≤ free.
(** The record after its edit. *)
Definition after (g : RID * bytes → option bytes) (e : RID * bytes) : RID * bytes :=
  match g e with Some b => (e.1, b) | None => e end.

Lemma page_need_pos g es pid : 0 ≤ page_need g es pid.
Proof. induction es as [|e es IH]; [done|]. simpl. case_decide; lia. Qed.

Lemma edits_room f g (es : list (RID * bytes)) : (∀ e, e ∈ es → f e = Ok (g e)) → ∀ h, NoDup h.*1 → (∀ e, e ∈ es → rid_page_id e.1 ∈ h.*1) → room_for g es h →
  ∃ h', edits f es h = Ok h'.
Proof.
  induction es as [|e es IH]; intros Hf h Hnd Hin Hroom; [by eexists|]. cbn [edits]. rewrite Hf by left. cbn [mbind res_bind].
  assert (∀ h', h'.*1 = h.*1 → room_for g es h' → ∃ h'', edits f es h' = Ok h'') as Hnext.
  { intros h' Hp Hr. apply IH; [intros; apply Hf; by right|by rewrite Hp|intros; rewrite Hp; apply Hin; by right|done]. }
  destruct (g e) as [b|] eqn:Eg.
  - assert (has_room e.1 b h = true) as ->.
    { destruct (proj1 (list_elem_of_fmap _ _ _) (Hin e ltac:(left))) as ([pid [ts free]] & Hpid & Hmem). simpl in Hpid.
      unfold has_room, page_free. rewrite (elem_of_list_to_map_1 h _ (ts, free)) by (done || by rewrite Hpid). simpl. apply orb_true_iff. right.
      apply Z.leb_le. pose proof (Hroom pid ts free Hmem) as H. simpl in H. rewrite Hpid, Eg, decide_True in H by done. simpl in H.
      pose proof (page_need_pos g es pid). lia. }
    apply Hnext; [apply edit_at_pages|]. intros pid ts free ([pid0 [ts0 free0]] & Heq & Hmem)%list_elem_of_fmap. simpl in Heq.
    pose proof (Hroom pid0 ts0 free0 Hmem) as H. simpl in H. rewrite Eg in H.
    destruct (Z.eqb_spec pid0 (rid_page_id e.1)) as [->|Hne]; injection Heq as -> -> ->.
    + rewrite decide_True in H by done. simpl in H. lia.
    + rewrite decide_False in H by done. lia.
  - apply Hnext; [done|]. intros pid ts free Hmem. pose proof (Hroom pid ts free Hmem) as H. simpl in H. rewrite Eg in H. simpl in H.
    by case_decide.
Qed.

Lemma edited_after f g (es : list (RID * bytes)) : (∀ e, e ∈ es → f e = Ok (g e)) → (∀ e, e ∈ es → g e ≠ Some []) → omap (edited f) es = after g <$> es.
Proof.
  induction es as [|e es IH]; intros Hf Hg; [done|]. rewrite fmap_cons, <- IH by (intros; (apply Hf || apply Hg); by right).
  cbn [omap list_omap]. unfold edited at 1, after at 1. rewrite Hf by left. pose proof (Hg e ltac:(left)).
  destruct (g e) as [[]|]; done.
Qed.

Section SetScan.
Context (stof : string → res Z) (a : string) (t : TableInfo) (count : countable (t_schema_ t)).
Abbreviation row_of := (record_env a (t_schema_ t)).

Lemma update_edit targets sets clause e r : foldR (bind_set stof [mkScope a t 0]) ∅ targets = Ok sets →
  BindExpression stof [mkScope a t 0] clause = Ok e → decided stof clause [row_of r] → settable stof targets clause [row_of r] →
  row_edit (t_schema_ t) (as_predicate e) (update_new (t_schema_ t) (imap (update_expr sets) (columns_ (t_schema_ t)))) r =
    Ok (new_bytes stof targets clause (row_of r)).
Proof.
  intros Hsets He Hdec Hset. destruct (Hdec (row_of r)) as (keep & Hk & Hread); [left|]. unfold new_bytes.
  pose proof (proj2 (predicate_meaning stof a t clause e (mkTuple r.1 r.2 []) keep He) Hk) as Hp. unfold row_edit, scan_row. rewrite Hp. rewrite Hk.
  cbn [mbind res_bind]. destruct keep; [|done]. rewrite decide_True by done. destruct (Hread eq_refl) as (ds & Hds & Hs).
  simpl in Hds. rewrite app_nil_r in Hds. destruct (row_values_total _ _ _ count Hds) as (vs & Hvs & Hdat). rewrite Hvs. cbn [mbind res_bind].
  destruct (Tuple_new_short vs ds Hdat Hs) as (t' & Ht & Hv). rewrite Ht. cbn [mbind res_bind].
  destruct (Hset (row_of r)) as (new & Hnew & Hns); [left|done|]. rewrite Hnew.
  assert (tuple_env a (t_schema_ t) t' = row_of r) as Henv by (unfold record_env, tuple_env; f_equal; by eapply copied_source).
  rewrite (update_new_bytes stof a t targets sets t' (t', Some r.1) new Hsets eq_refl) by (done || by rewrite Henv). done.
Qed.

Lemma row_bytes_nonempty ds : ds ≠ [] → row_bytes ds ≠ [].
Proof. destruct ds as [|d ds]; [done|]. intros _. unfold row_bytes. rewrite bind_cons. by destruct d. Qed.
Lemma mapM_some_length {A B} (f : A → option B) l ys : mapM f l = Some ys → length ys = length l.
Proof.
  revert ys. induction l as [|x l IH]; intros ys H; [by injection H as <-|]. simpl in H. destruct (f x); [|done]. simpl in H.
  destruct (mapM f l) as [rest|]; [|done]. injection H as <-. simpl. f_equal. by apply IH.
Qed.
Lemma columns_from_length read cols : ∀ i, length (columns_from read i cols) = length cols.
Proof. induction cols as [|col cols IH]; intros i; [done|]. simpl. by rewrite IH. Qed.

Lemma new_bytes_nonempty targets clause r : columns_ (t_schema_ t) ≠ [] → new_bytes stof targets clause (row_of r) ≠ Some [].
Proof.
  intros Hcols. unfold new_bytes. case_decide; [|done]. destruct (sql_set stof targets (row_of r)) as [ds|] eqn:E; [|done]. simpl.
  intros [= Hb]. apply (row_bytes_nonempty ds); [|done]. intros ->. apply Hcols. apply mapM_some_length in E. simpl in E.
  rewrite app_nil_r, columns_from_length in E. by destruct (columns_ (t_schema_ t)).
Qed.
End SetScan.

Lemma record_page h e : e ∈ live h → rid_page_id e.1 ∈ h.*1.
Proof.
  intros ([pid [ts free]] & Hin & Hp)%list_elem_of_bind. simpl in Hin. unfold live_slots in Hin.
  apply list_elem_of_filter in Hin as [_ Hin]. apply elem_of_lookup_imap in Hin as (i & u & -> & _). simpl.
  apply list_elem_of_fmap. by exists (pid, (ts, free)).
Qed.

(** ** From the text to the tables *)

Section Changes.
Context {S : Type} `{PIO : !PageIO bytes S} {HO : HashOrder} {SS : StdSort} (fuel pages : nat).
Context (fmt_2f : Z → string) (stof : string → res Z) (Parse : string → PGParseResult).
Context (frames : 2 ≤ io_frames) (zero_len : Z.of_nat (length (io_zero : bytes)) = PAGE_SIZE).
Context (c : Catalog) (m : gmap Z bytes) (T : Tables).
Context (current : db_current c (Effects.records_of T)) (stored : tables_ok c m T) (small_tables : small_heaps pages c T).

(** A table without an index whose records can be counted. *)
Record changeable (name : string) (t : TableInfo) : Prop := {
  ch_found : GetTable name c = Ok (Some t);
  ch_unindexed : unindexed c (t_oid_ t);
  ch_columns : countable (t_schema_ t);
  ch_fuel : (Datatypes.S (length (Effects.records_of T (t_oid_ t))) < fuel)%nat;
  ch_records : Z.of_nat (length (Effects.records_of T (t_oid_ t))) ≤ INT32_MAX
}.
(** The rows of a table, under its own name. *)
Definition rows_of (name : string) (t : TableInfo) : list env := record_env name (t_schema_ t) <$> Effects.records_of T (t_oid_ t).

Abbreviation where_is clause name t b := (λ e, condition stof clause (record_env name (t_schema_ t) e) = Some b).

Lemma BindDelete_plan relation clause name t plan : relname relation = Some name → GetTable name c = Ok (Some t) →
  BindDelete stof c relation clause = Ok plan →
  ∃ e, BindExpression stof [mkScope name t 0] clause = Ok e ∧ plan = DeletePlanNode CountSchema (scan_of t (as_predicate e)) (t_oid_ t).
Proof.
  intros Hrel Hfound Hbind. unfold BindDelete in Hbind. rewrite Hrel in Hbind. cbn [c_str mbind res_bind] in Hbind.
  unfold table_named in Hbind. rewrite Hfound in Hbind. cbn [mbind res_bind] in Hbind. unfold bind_where in Hbind.
  destruct (BindExpression stof [mkScope name t 0] clause) as [e| | |]; simplify_eq/=. by exists e.
Qed.

(** A change of an unindexed table is executed as it is bound. *)
Lemma change_optimized name t p (f : AbstractPlanNode → AbstractPlanNode) : changeable name t →
  (∀ child, Optimize (Some c) child = Ok child → Optimize (Some c) (f child) = Ok (f child)) → Optimize (Some c) (f (scan_of t p)) = Ok (f (scan_of t p)).
Proof.
  intros H Hf. apply Hf. pose proof (dc_catalog _ _ current) as Hc.
  apply (unindexed_scan fmt_2f frames zero_len c _ _ p t Hc); [by apply (GetTable_tables c Hc name), (ch_found _ _ H)|apply (ch_unindexed _ _ H)].
Qed.

Lemma small_edited t f h' : tables_ c !! t_oid_ t = Some t → edits f (Effects.records_of T (t_oid_ t)) (heap_of T (t_oid_ t)) = Ok h' →
  small_heaps pages c (set_heap (t_oid_ t) h' (t_next T) T).
Proof.
  intros Ht Hed oid' t' Ht'. rewrite heap_of_set. case_decide as Ho; [|by eapply small_tables]. subst oid'. rewrite (edits_length _ _ _ _ Hed).
  by eapply small_tables.
Qed.

(** A DELETE or UPDATE whose edits are defined runs. *)
Lemma changed_runs name t clause e plan new h' : changeable name t → decided stof clause (rows_of name t) →
  BindExpression stof [mkScope name t 0] clause = Ok e → plan_schema plan = CountSchema →
  plan_effect fmt_2f c T plan = edit_effect c T (t_oid_ t) (as_predicate e) new →
  effect_fuel fuel fmt_2f c T plan = ((1 < fuel)%nat ∧ (length (Effects.records_of T (t_oid_ t)) < fuel)%nat) →
  effect_result fmt_2f c T plan = ('(rows, T) ← plan_effect fmt_2f c T plan; ts ← mapR (result_tuple (plan_schema plan)) rows; Ok (ts, T)) →
  edits (row_edit (t_schema_ t) (as_predicate e) (new t)) (Effects.records_of T (t_oid_ t)) (heap_of T (t_oid_ t)) = Ok h' →
  ∃ result m' T', tables_ok c m' T' ∧
    reaches (idle m (t_next T), c) (Execute fuel pages fmt_2f plan) result (idle m' (t_next T'), c) ∧
    Effects.records_of T' (t_oid_ t) = omap (edited (row_edit (t_schema_ t) (as_predicate e) (new t))) (Effects.records_of T (t_oid_ t)) ∧
    others_same (t_oid_ t) T T' ∧
    mapM tuple_data result = Some [[DInt (Z.of_nat (length (filter (where_is clause name t true) (Effects.records_of T (t_oid_ t)))))]].
Proof.
  intros Hch Hdec He Hsch Heff Hfuel Hres Hh.
  pose proof (GetTable_tables c (dc_catalog _ _ current) name t (ch_found _ _ Hch)) as Htab.
  destruct (decided_scan stof name t (ch_columns _ _ Hch) clause e _ He Hdec) as (rows & Hrows & Hlen).
  assert (Z.of_nat (length rows) ≤ INT32_MAX) as Hmax by (pose proof (ch_records _ _ Hch); apply scan_rows_length in Hrows; lia).
  destruct (count_answer (length rows) Hmax) as (r & ts & Hr & Hts & Hdata).
  set (T' := set_heap (t_oid_ t) h' (t_next T) T).
  assert (edit_effect c T (t_oid_ t) (as_predicate e) new = Ok ([r], T')) as Hed.
  { unfold edit_effect. rewrite Htab, Hrows. cbn [mbind res_bind]. rewrite Hh. cbn [mbind res_bind].
    rewrite (proj2 (Z.leb_le _ _)) by done. by rewrite Hr. }
  destruct (Execute_runs fuel pages fmt_2f frames zero_len c m T stored small_tables plan ts T') as (m' & Hm' & Hrun).
  { rewrite Hres, Heff, Hed. cbn [mbind res_bind]. by rewrite Hsch, Hts. }
  { rewrite Hfuel. pose proof (ch_fuel _ _ Hch). lia. }
  { by eapply small_edited. }
  destruct (edit_effect_records c m T _ _ _ _ _ stored Hed) as (t1 & srows & Ht1 & _ & _ & Hrec & Hother). rewrite Htab in Ht1. injection Ht1 as <-.
  exists ts, m', T'. do 4 (split; [done|]). by rewrite Hdata, Hlen.
Qed.

(** C11: DELETE deletes what its text says.  The statement, bound, optimized and executed on
    the pages, ends, answers the number of records its WHERE clause is true on, and
    leaves the table with exactly the records it is false on, in their order and under
    their ids, and every other table as it was.  The table must have no index that
    answers lookups ([changeable]), and the WHERE clause has to be true or false on every
    row. *)
Theorem delete_meaning sql relation clause rest name t plan :
  Parse sql = ParseTree (PGDeleteStmt relation clause :: rest) → relname relation = Some name →
  BindQuery stof c Parse sql = Ok plan → changeable name t → decided stof clause (rows_of name t) →
  ∃ result m' T', Optimize (Some c) plan = Ok plan ∧ tables_ok c m' T' ∧
    reaches (idle m (t_next T), c) (Execute fuel pages fmt_2f plan) result (idle m' (t_next T'), c) ∧
    Effects.records_of T' (t_oid_ t) = filter (where_is clause name t false) (Effects.records_of T (t_oid_ t)) ∧ others_same (t_oid_ t) T T' ∧
    mapM tuple_data result = Some [[DInt (Z.of_nat (length (filter (where_is clause name t true) (Effects.records_of T (t_oid_ t)))))]].
Proof.
  intros Hparse Hrel Hbind Hch Hdec. unfold BindQuery in Hbind. rewrite Hparse in Hbind.
  destruct (BindDelete_plan relation clause name t plan Hrel (ch_found _ _ Hch) Hbind) as (e & He & ->).
  pose proof (GetTable_tables c (dc_catalog _ _ current) name t (ch_found _ _ Hch)) as Htab.
  set (es := Effects.records_of T (t_oid_ t)) in *. unfold rows_of in Hdec. fold es in Hdec.
  destruct (decided_scan stof name t (ch_columns _ _ Hch) clause e es He Hdec) as (rows & Hrows & _).
  destruct (delete_edits _ _ es rows (heap_of T (t_oid_ t)) Hrows) as [h' Hh].
  destruct (changed_runs name t clause e (DeletePlanNode CountSchema (scan_of t (as_predicate e)) (t_oid_ t)) (λ _, delete_new) h')
    as (result & m' & T' & Hm' & Hrun & Hrec & Hother & Hdata); try done; [cbn [plan_effect scan_of]; by rewrite Z.eqb_refl|].
  exists result, m', T'. split; [apply (change_optimized name t _ (λ ch, DeletePlanNode _ ch _) Hch); intros ch Ho; cbn [Optimize]; by rewrite Ho|].
  do 2 (split; [done|]). split; [|by split].
  rewrite Hrec. fold es. rewrite (deleted_records _ _ _ _ Hrows). apply filter_agree. intros r0 Hr0.
  destruct (Hdec (record_env name (t_schema_ t) r0)) as (keep & Hk & _); [by apply list_elem_of_fmap_2|].
  rewrite (selected_condition stof name t clause e r0 keep He Hk), Hk. naive_solver.
Qed.

Lemma BindUpdate_plan relation targets clause name t plan : relname relation = Some name → GetTable name c = Ok (Some t) →
  BindUpdate stof c relation targets clause = Ok plan →
  ∃ sets e, foldR (bind_set stof [mkScope name t 0]) ∅ targets = Ok sets ∧ BindExpression stof [mkScope name t 0] clause = Ok e ∧
    plan = UpdatePlanNode CountSchema (scan_of t (as_predicate e)) (t_oid_ t) (imap (update_expr sets) (columns_ (t_schema_ t))).
Proof.
  intros Hrel Hfound Hbind. unfold BindUpdate in Hbind. rewrite Hrel in Hbind. cbn [c_str mbind res_bind] in Hbind.
  unfold table_named in Hbind. rewrite Hfound in Hbind. cbn [mbind res_bind] in Hbind. unfold bind_where in Hbind.
  destruct (foldR (bind_set stof [mkScope name t 0]) ∅ targets) as [sets| | |]; simplify_eq/=.
  destruct (BindExpression stof [mkScope name t 0] clause) as [e| | |]; simplify_eq/=. by exists sets, e.
Qed.

Abbreviation new_of name t targets clause := (λ e, new_bytes stof targets clause (record_env name (t_schema_ t) e)).

(** C10: UPDATE assigns what its text says.  The statement, bound, optimized and executed on
    the pages, ends, answers the number of records its WHERE clause is true on, and
    leaves the table with the same record ids in the same order, where each of these
    records has the bytes of its row after the assignments (all computed on the old
    row, the last one to a column counts, the other columns as they were) and the other
    records and tables are as they were.  The table must have no index that answers
    lookups ([changeable]: nothing would keep it current), the WHERE clause has to be true
    or false and the new values to exist on every row, and the pages to have room for the
    new bytes, since the old ones are not reused. *)
Theorem update_meaning sql relation targets clause rest name t plan :
  Parse sql = ParseTree (PGUpdateStmt relation targets clause :: rest) → relname relation = Some name →
  BindQuery stof c Parse sql = Ok plan → changeable name t → columns_ (t_schema_ t) ≠ [] →
  decided stof clause (rows_of name t) → settable stof targets clause (rows_of name t) →
  room_for (new_of name t targets clause) (Effects.records_of T (t_oid_ t)) (heap_of T (t_oid_ t)) →
  ∃ result m' T', Optimize (Some c) plan = Ok plan ∧ tables_ok c m' T' ∧
    reaches (idle m (t_next T), c) (Execute fuel pages fmt_2f plan) result (idle m' (t_next T'), c) ∧
    Effects.records_of T' (t_oid_ t) = after (new_of name t targets clause) <$> Effects.records_of T (t_oid_ t) ∧ others_same (t_oid_ t) T T' ∧
    mapM tuple_data result = Some [[DInt (Z.of_nat (length (filter (where_is clause name t true) (Effects.records_of T (t_oid_ t)))))]].
Proof.
  intros Hparse Hrel Hbind Hch Hne Hdec Hset Hroom. unfold BindQuery in Hbind. rewrite Hparse in Hbind.
  destruct (BindUpdate_plan relation targets clause name t plan Hrel (ch_found _ _ Hch) Hbind) as (sets & e & Hsets & He & ->).
  pose proof (GetTable_tables c (dc_catalog _ _ current) name t (ch_found _ _ Hch)) as Htab.
  set (es := Effects.records_of T (t_oid_ t)) in *. unfold rows_of in Hdec, Hset. fold es in Hdec, Hset.
  set (exprs := imap (update_expr sets) (columns_ (t_schema_ t))).
  assert (∀ r, r ∈ es → row_edit (t_schema_ t) (as_predicate e) (update_new (t_schema_ t) exprs) r = Ok (new_of name t targets clause r)) as Hedit.
  { intros r Hr. assert (record_env name (t_schema_ t) r ∈ record_env name (t_schema_ t) <$> es) as Hin by (by apply list_elem_of_fmap_2).
    apply (update_edit stof name t (ch_columns _ _ Hch)); [done|done|..].
    - intros ρ ->%list_elem_of_singleton. by apply Hdec.
    - intros ρ ->%list_elem_of_singleton. by apply Hset. }
  destruct (edits_room _ _ es Hedit (heap_of T (t_oid_ t))) as [h' Hh]; [by eapply heap_nodup|intros r Hr; by apply record_page|done|].
  destruct (changed_runs name t clause e (UpdatePlanNode CountSchema (scan_of t (as_predicate e)) (t_oid_ t) exprs)
    (λ t, update_new (t_schema_ t) exprs) h') as (result & m' & T' & Hm' & Hrun & Hrec & Hother & Hdata); try done;
    [cbn [plan_effect scan_of]; by rewrite Z.eqb_refl|].
  exists result, m', T'. split; [apply (change_optimized name t _ (λ ch, UpdatePlanNode _ ch _ _) Hch); intros ch Ho; cbn [Optimize]; by rewrite Ho|].
  do 2 (split; [done|]). split; [|by split]. rewrite Hrec. fold es. apply edited_after; [done|].
  intros r Hr. by apply new_bytes_nonempty.
Qed.
End Changes.

(** ** Witnesses: DELETE FROM t WHERE a = 7 and UPDATE t SET a = a + 1 WHERE a = 7 *)

Section Demo.
#[local] Existing Instance demo_io.
#[local] Existing Instance listed_order.
#[local] Existing Instance insertion_std_sort.

Definition range_t : PGRangeVar := mkRangeVar (Some "t") None.
Definition is_seven : PGNode := op_expr "=" (col_ref "a") (int_const 7).
Definition increment : list PGNode := [PGResTarget (Some "a") (op_expr "+" (col_ref "a") (int_const 1))].
Definition change_parse (sql : string) : PGParseResult :=
  ParseTree [if bool_decide (sql = "DELETE") then PGDeleteStmt range_t is_seven else PGUpdateStmt range_t increment is_seven].
Definition change_plan (sql : string) : AbstractPlanNode :=
  match BindQuery no_floats two_catalog change_parse sql with Ok plan => plan | _ => NullPlanNode end.
Definition int_env (z : Z) : env := [mkSource "t" [("a", Some (DInt z))]].

Lemma demo_changeable : changeable 9 two_catalog Effects.two_tables "t" int_table.
Proof.
  split; [reflexivity| |vm_compute; reflexivity|vm_compute; lia|vm_compute; discriminate].
  intros t ioid i _ H. change ((∅ : gmap Z IndexInfo) !! ioid = Some i) in H. by rewrite lookup_empty in H.
Qed.
Lemma demo_rows : rows_of Effects.two_tables "t" int_table = int_env <$> [7; 9; 7].
Proof. vm_compute. reflexivity. Qed.
Lemma demo_decided : decided no_floats is_seven (rows_of Effects.two_tables "t" int_table).
Proof.
  rewrite demo_rows. intros ρ (z & -> & Hz)%list_elem_of_fmap. exists (z =? 7). split; [|intros _; exists [DInt z]; by repeat constructor].
  repeat (apply elem_of_cons in Hz as [->|Hz]; [reflexivity|]). by apply elem_of_nil in Hz.
Qed.

Lemma delete_meaning_witness :
  Effects.records_of Effects.two_tables 1 = [(mkRID 0 0, int_row 7); (mkRID 0 1, int_row 9); (mkRID 0 2, int_row 7)] ∧
  ∃ result m' T', tables_ok two_catalog m' T' ∧
    reaches (idle two_pages 2, two_catalog) (Execute 9 5 (λ _, "") (change_plan "DELETE")) result (idle m' (t_next T'), two_catalog) ∧
    Effects.records_of T' 1 = [(mkRID 0 1, int_row 9)] ∧ mapM tuple_data result = Some [[DInt 2]].
Proof.
  split; [vm_compute; reflexivity|].
  destruct (delete_meaning (PIO := demo_io) 9 5 (λ _, "") no_floats change_parse ltac:(vm_compute; discriminate) ltac:(vm_compute; reflexivity)
    two_catalog two_pages Effects.two_tables two_db_current two_tables_ok two_tables_small "DELETE" range_t is_seven [] "t" int_table (change_plan "DELETE"))
    as (result & m' & T' & _ & Hm' & Hrun & Hrec & _ & Hdata).
  - reflexivity.
  - reflexivity.
  - vm_compute. reflexivity.
  - exact demo_changeable.
  - exact demo_decided.
  - exists result, m', T'. split; [exact Hm'|]. split; [exact Hrun|]. split; [change 1 with (t_oid_ int_table); rewrite Hrec|rewrite Hdata]; vm_compute; reflexivity.
Defined.

Lemma update_meaning_witness :
  ∃ result m' T', tables_ok two_catalog m' T' ∧
    reaches (idle two_pages 2, two_catalog) (Execute 9 5 (λ _, "") (change_plan "UPDATE")) result (idle m' (t_next T'), two_catalog) ∧
    Effects.records_of T' 1 = [(mkRID 0 0, int_row 8); (mkRID 0 1, int_row 9); (mkRID 0 2, int_row 8)] ∧ mapM tuple_data result = Some [[DInt 2]].
Proof.
  destruct (update_meaning (PIO := demo_io) 9 5 (λ _, "") no_floats change_parse ltac:(vm_compute; discriminate) ltac:(vm_compute; reflexivity)
    two_catalog two_pages Effects.two_tables two_db_current two_tables_ok two_tables_small "UPDATE" range_t increment is_seven [] "t" int_table (change_plan "UPDATE"))
    as (result & m' & T' & _ & Hm' & Hrun & Hrec & _ & Hdata).
  - reflexivity.
  - reflexivity.
  - vm_compute. reflexivity.
  - exact demo_changeable.
  - discriminate.
  - exact demo_decided.
  - rewrite demo_rows. intros ρ (z & -> & Hz)%list_elem_of_fmap _.
    repeat (apply elem_of_cons in Hz as [->|Hz]; [eexists; split; [reflexivity|repeat constructor]|]). by apply elem_of_nil in Hz.
  - intros pid ts free Hin. vm_compute in Hin. apply list_elem_of_singleton in Hin as [= -> -> ->]. vm_compute. discriminate.
  - exists result, m', T'. split; [exact Hm'|]. split; [exact Hrun|]. split; [change 1 with (t_oid_ int_table); rewrite Hrec|rewrite Hdata]; vm_compute; reflexivity.
Defined.
End Demo.
