(* ===== verification/InsertMeaning.v ===== *)
(** * What INSERT ... SELECT means

    INSERT INTO a table the rows another table has, in terms of [Meaning], from the text
    to the pages.  The whole rows are inserted: the binder does not read the target list
    of the SELECT. *)

From S2P Require Import Prelude Common Value Tuple Expression PageStore PageIO PageLogic TablePage TableHeap TableEdit Catalog Executor.
From S2P Require Import Operators Join Aggregate Dml OrderBy Utility Engine Effects Optimizer Statements Binder Meaning SelectMeaning ChangeMeaning.

(** ** Tuples that fit a page are all inserted *)

Lemma put_fitting nid t h o h' nid' : fits_new_page t = true → put nid t h = (o, h', nid') →
  is_Some o ∧ (length h' ≤ S (length h))%nat ∧ nid ≤ nid' ≤ nid + 1.
Proof.
  intros Hfit Hput. split.
  - destruct (put_inserted _ _ _ _ _ _ Hput); [by eexists|]. unfold appended_rid. rewrite Hfit. by eexists.
  - destruct (put_pages _ _ _ _ _ _ Hput) as [[Hp ->]|[Hp ->]]; rewrite <- (length_fmap fst h'), Hp, ?length_app, length_fmap; simpl; lia.
Qed.

Lemma puts_fitting tuples : Forall (λ t, fits_new_page t = true ∧ t ≠ []) tuples → ∀ n nid h, 0 ≤ nid → nid + Z.of_nat (length tuples) ≤ INT32_MAX →
  ∃ rids h' nid', puts tuples n nid h = Ok (n + Z.of_nat (length tuples), h', nid') ∧ length rids = length tuples ∧
    live h' ≡ₚ zip rids tuples ++ live h ∧ (length h' ≤ length h + length tuples)%nat.
Proof.
  induction 1 as [|t tuples [Hfit Hne] _ IH]; intros n nid h H0 Hmax.
  { exists [], h, nid. simpl. rewrite Z.add_0_r. split_and!; [done|done|done|lia]. }
  cbn [puts length] in *. destruct (put nid t h) as [[o h1] nid1] eqn:Hput.
  destruct (put_fitting _ _ _ _ _ _ Hfit Hput) as ([r ->] & Hl & Hn). pose proof (put_live _ _ _ _ _ _ Hput) as Hlive.
  rewrite bool_decide_true by (unfold fits_new_page, PAGE_SIZE, in_i32, INT32_MIN, INT32_MAX in *; apply Z.leb_le in Hfit; lia).
  destruct (IH (n + 1) nid1 h1) as (rids & h' & nid' & Hp & Hlen & Hperm & Hlen'); [lia|lia|].
  exists (r :: rids), h', nid'. split; [rewrite Hp; f_equal; f_equal; f_equal; lia|]. split; [simpl; by rewrite Hlen|].
  split; [|lia]. rewrite Hperm, Hlive. unfold new_record. rewrite decide_False by done. simpl. symmetry. apply Permutation_middle.
Qed.

(** ** The bytes of the rows of a scan *)

(** The bytes a whole row is stored as. *)
Definition stored_bytes (ρ : env) : option bytes := row_bytes <$> mapM snd (ρ ≫= src_columns).

Lemma scanned_bytes stof a t clause e es rows kept : countable (t_schema_ t) → BindExpression stof [mkScope a t 0] clause = Ok e →
  scan_rows (t_schema_ t) (as_predicate e) es = Ok rows → sql_where stof clause (record_env a (t_schema_ t) <$> es) = Some kept →
  (∀ ρ, ρ ∈ kept → ∃ ds, mapM snd (ρ ≫= src_columns) = Some ds ∧ Forall short ds) →
  mapM stored_bytes kept = Some ((λ row : Row, data_ row.1) <$> rows).
Proof.
  intros Hn He. revert rows kept. induction es as [|r es IH]; intros rows kept Hrows Hw Hread.
  { injection Hrows as <-. by injection Hw as <-. }
  apply selectM_cons in Hrows as (o & rest & Ho & Hrest & ->). rewrite fmap_cons in Hw. cbn [sql_where] in Hw.
  destruct (condition stof clause (record_env a (t_schema_ t) r)) as [keep|] eqn:Hc; [|done]. cbn [mbind option_bind] in Hw.
  destruct (sql_where stof clause _) as [ks|] eqn:Hks; [|done]. injection Hw as <-.
  assert (∀ ρ, ρ ∈ ks → ∃ ds, mapM snd (ρ ≫= src_columns) = Some ds ∧ Forall short ds) as Hread'
    by (intros ρ Hρ; apply Hread; destruct keep; [by right|done]).
  specialize (IH rest ks Hrest eq_refl Hread'). apply (predicate_meaning stof a t clause e _ _ He) in Hc. unfold scan_row in Ho. rewrite Hc in Ho.
  cbn [mbind res_bind] in Ho. destruct keep; [|by injection Ho as <-].
  destruct (Hread (record_env a (t_schema_ t) r)) as (ds & Hds & Hs); [left|]. pose proof Hds as Hds'. simpl in Hds'. rewrite app_nil_r in Hds'.
  destruct (row_values_total _ _ _ Hn Hds') as (vs & Hvs & Hdat). rewrite Hvs in Ho. cbn [mbind res_bind] in Ho.
  rewrite (Tuple_new_bytes vs ds Hdat Hs) in Ho. injection Ho as <-. rewrite fmap_cons.
  assert (stored_bytes (record_env a (t_schema_ t) r) = Some (row_bytes ds)) as Hst by (unfold stored_bytes; by rewrite Hds).
  cbn [mapM]. rewrite Hst. cbn [mbind option_bind]. by rewrite IH.
Qed.

(** ** From the text to the tables *)

Section Insert.
Context {S : Type} `{PIO : !PageIO bytes S} {HO : HashOrder} {SS : StdSort} (fuel pages : nat).
Context (fmt_2f : Z → string) (stof : string → res Z) (Parse : string → PGParseResult).
Context (frames : 2 ≤ io_frames) (zero_len : Z.of_nat (length (io_zero : bytes)) = PAGE_SIZE).
Context (c : Catalog) (m : gmap Z bytes) (T : Tables).
Context (current : db_current c (Effects.records_of T)) (stored : tables_ok c m T) (small_tables : small_heaps pages c T).

Lemma BindInsert_plan relation sub src uname name t u plan : relname relation = Some uname → fromClause sub = [PGRange src] →
  relname src = Some name → GetTable name c = Ok (Some t) → GetTable uname c = Ok (Some u) → BindInsert stof c relation (Some sub) = Ok plan →
  ∃ e, BindExpression stof [mkScope name t 0] (whereClause sub) = Ok e ∧ plan = InsertPlanNode CountSchema (scan_of t (as_predicate e)) (t_oid_ u).
Proof.
  intros Hrel Hfrom Hsrc Ht Hu H. unfold BindInsert in H. rewrite Hrel in H. cbn [c_str mbind res_bind] in H.
  unfold table_named at 1 in H. rewrite Hu, Hfrom in H. cbn [mbind res_bind foldR insert_from] in H.
  rewrite Hsrc in H. cbn [c_str mbind res_bind] in H. unfold table_named in H. rewrite Ht in H. cbn [mbind res_bind app] in H.
  unfold bind_where in H. destruct (BindExpression stof _ (whereClause sub)) as [e| | |]; try discriminate H. cbn [mbind res_bind snd] in H.
  injection H as <-. by exists e.
Qed.

(** C12: INSERT ... SELECT inserts what its text says.  The statement, from one table into
    another, bound, optimized and executed on the pages, ends, answers the number of rows
    the WHERE clause is true on, and adds to the table one record for each of them,
    under record ids of their own, with the bytes of the whole row; the records that were
    there and the other tables stay as they were.  Neither table may have an index that
    answers lookups ([changeable]), the WHERE clause has to be true or false on every row,
    the bytes of a row to fit a page, and page ids and pages of the table to be left. *)
Theorem insert_meaning sql relation sub rest src uname name t u plan kept new :
  Parse sql = ParseTree (PGInsertStmt relation (Some sub) :: rest) → relname relation = Some uname → fromClause sub = [PGRange src] →
  relname src = Some name → BindQuery stof c Parse sql = Ok plan → changeable fuel c T name t → changeable fuel c T uname u → t_oid_ t ≠ t_oid_ u →
  sql_where stof (whereClause sub) (rows_of T name t) = Some kept →
  (∀ ρ, ρ ∈ kept → ∃ ds, mapM snd (ρ ≫= src_columns) = Some ds ∧ Forall short ds) →
  mapM stored_bytes kept = Some new → Forall (λ b, fits_new_page b = true ∧ b ≠ []) new →
  0 ≤ t_next T → t_next T + Z.of_nat (length new) ≤ INT32_MAX → (length (heap_of T (t_oid_ u)) + length new < pages)%nat →
  ∃ result m' T' rids, Optimize (Some c) plan = Ok plan ∧ tables_ok c m' T' ∧
    reaches (idle m (t_next T), c) (Execute fuel pages fmt_2f plan) result (idle m' (t_next T'), c) ∧
    length rids = length new ∧ Effects.records_of T' (t_oid_ u) ≡ₚ zip rids new ++ Effects.records_of T (t_oid_ u) ∧
    NoDup (Effects.records_of T' (t_oid_ u)).*1 ∧ others_same (t_oid_ u) T T' ∧ mapM tuple_data result = Some [[DInt (Z.of_nat (length new))]].
Proof.
  intros Hparse Hrel Hfrom Hsrc Hbind Hch Hchu Hne Hw Hread Hnew Hfit Hid0 Hid Hpages. unfold BindQuery in Hbind. rewrite Hparse in Hbind.
  destruct (BindInsert_plan relation sub src uname name t u plan Hrel Hfrom Hsrc (ch_found _ _ _ _ _ Hch) (ch_found _ _ _ _ _ Hchu) Hbind) as (e & He & ->).
  pose proof (GetTable_tables c (dc_catalog _ _ current) name t (ch_found _ _ _ _ _ Hch)) as Htab.
  pose proof (GetTable_tables c (dc_catalog _ _ current) uname u (ch_found _ _ _ _ _ Hchu)) as Hutab.
  pose proof (ch_columns _ _ _ _ _ Hch) as Hcount. unfold rows_of in Hw. set (es := Effects.records_of T (t_oid_ t)) in *.
  destruct (scan_total stof name t Hcount _ e es He _ Hw Hread) as [rows Hrows].
  pose proof (scanned_bytes stof name t _ e es rows kept Hcount He Hrows Hw Hread) as Hbytes. rewrite Hnew in Hbytes. injection Hbytes as Hbytes.
  assert (length rows = length new) as Hlen by (by rewrite Hbytes, length_fmap).
  destruct (puts_fitting new Hfit 0 (t_next T) (heap_of T (t_oid_ u)) Hid0 Hid) as (rids & h' & nid' & Hputs & Hrl & Hlive & Hhl).
  assert (Z.of_nat (length new) ≤ INT32_MAX) as Hmax by lia.
  destruct (count_answer (length new) Hmax) as (r & ts & Hr & Hts & Hdata).
  set (plan := InsertPlanNode CountSchema (scan_of t (as_predicate e)) (t_oid_ u)). set (T' := set_heap (t_oid_ u) h' nid' T).
  assert (effect_result fmt_2f c T plan = Ok (ts, T')) as Heff.
  { unfold effect_result, plan. cbn [plan_effect scan_of plan_schema]. rewrite (proj2 (Z.eqb_neq _ _) Hne). unfold insert_effect.
    rewrite Htab, Hutab. fold es. rewrite Hrows. cbn [mbind res_bind].
    unfold Row in Hlen, Hbytes. rewrite <- Hbytes, Hputs. cbn [mbind res_bind].
    rewrite Hlen, (proj2 (Z.leb_le _ _)) by done. rewrite Z.add_0_l, Hr. cbn [mbind res_bind]. by rewrite Hts. }
  destruct (Execute_runs fuel pages fmt_2f frames zero_len c m T stored small_tables plan ts T' Heff) as (m' & Hm' & Hrun).
  { unfold plan. cbn [effect_fuel scan_of]. pose proof (ch_fuel _ _ _ _ _ Hch). lia. }
  { intros oid' t' Ht'. unfold T'. rewrite heap_of_set. case_decide; [lia|by apply (small_tables oid' t')]. }
  exists ts, m', T', rids. split.
  { apply (change_optimized fuel fmt_2f frames zero_len c T current name t _ (λ ch, InsertPlanNode _ ch _) Hch). intros ch Ho. cbn [Optimize]. by rewrite Ho. }
  do 3 (split; [done|]). split; [unfold Effects.records_of, T'; rewrite heap_of_set, decide_True by done; exact Hlive|].
  split; [by eapply records_nodup|]. split; [|done]. intros oid' Hno. unfold T'. by rewrite heap_of_set, decide_False.
Qed.
End Insert.

(** ** Witness: INSERT INTO u SELECT * FROM t WHERE a = 7 *)

Section Demo.
#[local] Existing Instance demo_io.
#[local] Existing Instance listed_order.
#[local] Existing Instance insertion_std_sort.

Definition seven_source : PGSelect := mkSelect [PGResTarget None PGAStar] [PGRange range_t] is_seven [] [] PGNull [].
Definition copy_parse (sql : string) : PGParseResult := ParseTree [PGInsertStmt (mkRangeVar (Some "u") None) (Some seven_source)].
Definition copied_plan : AbstractPlanNode := match BindQuery no_floats two_catalog copy_parse "" with Ok plan => plan | _ => NullPlanNode end.

Lemma u_changeable : changeable 9 two_catalog Effects.two_tables "u" u_table.
Proof.
  split; [reflexivity| |vm_compute; reflexivity|vm_compute; lia|vm_compute; discriminate].
  intros t ioid i _ H. change ((∅ : gmap Z IndexInfo) !! ioid = Some i) in H. by rewrite lookup_empty in H.
Qed.

Lemma insert_meaning_witness :
  Effects.records_of Effects.two_tables 2 = [] ∧
  ∃ result m' T' rids, tables_ok two_catalog m' T' ∧
    reaches (idle two_pages 2, two_catalog) (Execute 9 5 (λ _, "") copied_plan) result (idle m' (t_next T'), two_catalog) ∧
    length rids = 2%nat ∧ Effects.records_of T' 2 ≡ₚ zip rids [int_row 7; int_row 7] ∧ mapM tuple_data result = Some [[DInt 2]].
Proof.
  split; [vm_compute; reflexivity|].
  destruct (insert_meaning (PIO := demo_io) 9 5 (λ _, "") no_floats copy_parse ltac:(vm_compute; discriminate) ltac:(vm_compute; reflexivity)
    two_catalog two_pages Effects.two_tables two_db_current two_tables_ok two_tables_small "" (mkRangeVar (Some "u") None) seven_source [] range_t "u" "t"
    int_table u_table copied_plan (int_env <$> [7; 7]) [int_row 7; int_row 7])
    as (result & m' & T' & rids & _ & Hm' & Hrun & Hlen & Hrec & _ & _ & Hdata).
  - reflexivity.
  - reflexivity.
  - reflexivity.
  - reflexivity.
  - vm_compute. reflexivity.
  - exact demo_changeable.
  - exact u_changeable.
  - vm_compute. discriminate.
  - vm_compute. reflexivity.
  - intros ρ (z & -> & _)%list_elem_of_fmap. exists [DInt z]. split; [reflexivity|repeat constructor].
  - vm_compute. reflexivity.
  - repeat constructor; vm_compute; discriminate.
  - vm_compute. discriminate.
  - vm_compute. discriminate.
  - vm_compute. lia.
  - exists result, m', T', rids. split; [exact Hm'|]. split; [exact Hrun|]. split; [exact Hlen|]. split; [|exact Hdata].
    rewrite app_nil_r in Hrec. exact Hrec.
Defined.
End Demo.
