(* ===== verification/Server.v ===== *)
(** * Server, client and shell

    [server_main.cpp] and [client_main.cpp] (src/src/onebase_server, src/src/onebase_client)
    and src/tools/onebase_shell.cpp: a statement is bound, optimized and executed, the
    rows are written as text, sent, and printed as a table.  The options of [main], the
    sockets' set-up and the threads are in [ServerMain]; the prompts and the log are not
    modelled. *)

From stdpp Require Import pretty.
From S2P Require Import Prelude Common Value Tuple Expression PageStore PageIO PageLogic TablePage TableHeap Catalog Executor.
From S2P Require Import Operators Join Aggregate Dml OrderBy Utility Engine Optimizer Binder Protocol.

(** ** Text *)

Definition newline : string := String "010"%char "".
Definition text := String.list_ascii_of_string.
Definition untext := String.string_of_list_ascii.

(** [std::getline] until the end of the stream: no empty line after the last newline. *)
Definition getlines (s : string) : list string :=
  let parts := split_loop "010"%char (text s) [] [] in
  match last parts with Some "" => removelast parts | _ => parts end.

Fixpoint repeated (n : nat) (c : ascii) : string := match n with O => "" | S n => String c (repeated n c) end.
(** [std::left << std::setw(w) << s] *)
Definition padded (w : nat) (s : string) : string := s +:+ repeated (w - String.length s) " ".

(** [widths[c] = max(widths[c], row[c].size())] for the columns both have. *)
Fixpoint widen (widths : list nat) (row : list string) : list nat :=
  match widths, row with
  | w :: widths, s :: row => Nat.max w (String.length s) :: widen widths row
  | _, _ => widths
  end.
Definition column_widths (headers : list string) (rows : list (list string)) : list nat :=
  foldl widen (String.length <$> headers) rows.

Fixpoint rule (widths : list nat) : string :=
  match widths with [] => "" | w :: widths => repeated (w + 2) "-" +:+ "+" +:+ rule widths end.
Definition separator (widths : list nat) : string := "+" +:+ rule widths.
(** The cells of a line; a missing one is empty. *)
Fixpoint cells (widths : list nat) (row : list string) : string :=
  match widths with
  | [] => ""
  | w :: widths => " " +:+ padded w (hd "" row) +:+ " |" +:+ cells widths (tl row)
  end.
Definition table_line (widths : list nat) (row : list string) : string := "|" +:+ cells widths row +:+ newline.

(** Header and rows, between separators. *)
Definition table_text (headers : list string) (rows : list (list string)) : string :=
  let widths := column_widths headers rows in
  separator widths +:+ newline +:+ table_line widths headers +:+ separator widths +:+ newline +:+
  foldr (λ row rest, table_line widths row +:+ rest) "" rows +:+ separator widths +:+ newline.

(** [(n rows)] *)
Definition row_count (n : nat) : string :=
  "(" +:+ pretty n +:+ " row" +:+ (if decide (n = 1)%nat then "" else "s") +:+ ")".

(** ** The client's [PrintResult] *)

(** The rows end at an empty line or one that starts with a parenthesis. *)
Definition ends_rows (line : string) : bool :=
  match line with "" => true | String c _ => bool_decide (c = "("%char) end.
Fixpoint data_rows (lines : list string) : list (list string) :=
  match lines with
  | [] => []
  | line :: lines => if ends_rows line then [] else ParsePipeSeparated line :: data_rows lines
  end.
Definition starts_count (line : string) : bool := match line with String c _ => bool_decide (c = "("%char) | "" => false end.
(** The last line that starts with a parenthesis. *)
Definition summary_line (lines : list string) : string :=
  match last (filter (λ line, starts_count line = true) lines) with Some line => line +:+ newline | None => "" end.

Definition PrintResult (body : string) : string :=
  match getlines body with
  | [] => ""
  | header :: lines => table_text (ParsePipeSeparated header) (data_rows lines) +:+ summary_line (header :: lines)
  end.

(** ** The read loops of the client and of the shell

    What a line of input does, and the statement read so far. *)
Inductive LineAction := Stop | Help | ListTables | Again | Run (query : string).

Definition isspace (c : ascii) : bool := let n := N_of_ascii c in (n =? 32)%N || ((9 <=? n)%N && (n <=? 13)%N).
Fixpoint trim_front (s : list ascii) : list ascii :=
  match s with c :: s' => if isspace c then trim_front s' else s | [] => [] end.
Definition trim (s : list ascii) : list ascii := rev (trim_front (rev (trim_front s))).

(** Lines are collected until one ends in a semicolon. *)
Definition collect (query_buf line : string) : LineAction * string :=
  let buf := text (query_buf +:+ line) in
  if bool_decide (last buf = Some ";"%char) then
    match trim (removelast buf) with
    | [] => (Again, "")
    | query => (Run (untext query), "")
    end
  else (Again, untext buf +:+ " ").

Definition client_line (query_buf line : string) : LineAction * string :=
  if bool_decide (line = "\q" ∨ line = "quit" ∨ line = "exit") then (Stop, query_buf)
  else if bool_decide (line = "\?" ∨ line = "help") then (Help, query_buf)
  else if bool_decide (line = "") then (Again, query_buf)
  else collect query_buf line.

(** The shell takes its commands only between statements. *)
Definition shell_line (query_buf line : string) : LineAction * string :=
  if bool_decide (line = "") then (Again, query_buf)
  else if bool_decide (query_buf = "" ∧ (line = "quit" ∨ line = "exit" ∨ line = "\q")) then (Stop, query_buf)
  else if bool_decide (query_buf = "" ∧ (line = "help" ∨ line = "\h" ∨ line = "\?")) then (Help, query_buf)
  else if bool_decide (query_buf = "" ∧ (line = "tables" ∨ line = "\dt")) then (ListTables, query_buf)
  else collect query_buf line.

(** ** Answering a statement *)

Section Server.
Context {S : Type} `{PIO : !PageIO bytes S} {HO : HashOrder} {SS : StdSort} (fuel pages : nat).
Context (fmt_2f : Z → string) (stof : string → res Z) (Parse : string → PGParseResult).
Abbreviation M A := (ST (DB S) A).

(** Bind, optimize, execute; the shell's optimizer has no catalog. *)
Definition run_sql (with_catalog : bool) (sql : string) : M (AbstractPlanNode * list Tuple) :=
  c ← get_catalog;
  plan ← st_lift (BindQuery stof c Parse sql);
  plan ← st_lift (Optimize (if with_catalog then Some c else None) plan);
  result_set ← Execute fuel pages fmt_2f plan;
  mret (plan, result_set).

Definition column_names (schema : Schema) : res (list string) :=
  mapR (λ i, col ← GetColumn schema (Z.of_nat i); Ok (Tuple.col_name col)) (seq 0 (Z.to_nat (GetColumnCount schema))).
Definition row_texts (schema : Schema) (t : Tuple) : list string :=
  (λ i : nat, ToString fmt_2f (GetValue t (Z.of_nat i))) <$> seq 0 (Z.to_nat (GetColumnCount schema)).

(** The body of a RESULT message. *)
Definition result_body (names : list string) (rows : list (list string)) : string :=
  foldl (λ body vals, body +:+ (FormatResultRow vals +:+ newline)) (FormatResultHeader names +:+ newline) rows +:+
  row_count (length rows).

Definition query_body (sql : string) : M string :=
  '(plan, result_set) ← run_sql true sql;
  let schema := plan_schema plan in
  names ← st_lift (column_names schema);
  mret (result_body names (row_texts schema <$> (result_set : list Tuple))).

(** The shell: the table, or the message of the exception. *)
Definition PrintResultTable (schema : Schema) (rows : list Tuple) : res string :=
  headers ← column_names schema;
  Ok (table_text headers (row_texts schema <$> rows) +:+ row_count (length rows) +:+ newline).

Definition what (e : exn) : string :=
  match e with LogicError msg | RuntimeError msg | InvalidArgument msg | OutOfRange msg => msg end.
(** [try { ... } catch (const std::exception &e) { ... }] *)
Definition catching {A B} (m : M A) (k : A → B) (handler : exn → B) : M B := λ d,
  match m d with
  | (Ok x, d) => (Ok (k x), d)
  | (Throw e, d) => (Ok (handler e), d)
  | (UB, d) => (UB, d)
  | (OutOfFuel, d) => (OutOfFuel, d)
  end.

Definition ExecuteSQL (sql : string) : M string :=
  catching ('(plan, rows) ← run_sql false sql; st_lift (PrintResultTable (plan_schema plan) rows))
           id (λ e, "ERROR: " +:+ what e +:+ newline).

(** *** The shell's loop *)

Definition shell_help_text : string :=
  foldr (λ s rest, s +:+ newline +:+ rest) ""
    ["Commands:"; "  help / \h     Show this help"; "  tables / \dt  List all tables"; "  quit / \q     Exit the shell"; "";
     "Enter SQL statements terminated by a semicolon (;)."; "Supported: SELECT, INSERT, UPDATE, DELETE"; ""].

Definition tables_text (c : Catalog) : string :=
  match GetAllTables c with
  | [] => "No tables." +:+ newline
  | tables =>
      padded 20 "Name" +:+ "Schema" +:+ newline +:+ repeated 60 "-" +:+ newline +:+
      foldr (λ t rest, padded 20 (t_name_ t) +:+ Schema_ToString (t_schema_ t) +:+ newline +:+ rest) "" tables
  end.

Fixpoint shell_main (lines : list string) (query_buf printed : string) : M string :=
  match lines with
  | [] => mret printed
  | line :: lines =>
      match shell_line query_buf line with
      | (Stop, _) => mret (printed +:+ "Bye!" +:+ newline)
      | (Help, query_buf) => shell_main lines query_buf (printed +:+ shell_help_text)
      | (ListTables, query_buf) => c ← get_catalog; shell_main lines query_buf (printed +:+ tables_text c)
      | (Again, query_buf) => shell_main lines query_buf printed
      | (Run query, query_buf) => out ← ExecuteSQL query; shell_main lines query_buf (printed +:+ out)
      end
  end.

(** ** The server's loop over one connection *)

Context {W : Type} `{SW : !Socket W} (g_running : W → bool).
Abbreviation Net A := (ST (DB S * W) A).
Definition in_db {A} (m : M A) : Net A := st_zoom fst (λ d s, (d, s.2)) m.
Definition in_net {A} (m : ST W A) : Net A := st_zoom snd (λ w s, (s.1, w)) m.

Definition HandleQuery (sql : string) (client_fd : Z) : Net unit :=
  '(type, body) ← in_db (catching (query_body sql) (λ body, (RESULT, body)) (λ e, (ERROR, what e)));
  _ ← in_net (SendMessage client_fd type body);
  mret tt.

(** One message; false ends the loop. *)
Definition handle_message (client_fd : Z) (type : MessageType) (data : string) : Net bool :=
  if ascii_dec type QUERY then _ ← HandleQuery data client_fd; mret true
  else if ascii_dec type TERMINATE then mret false
  else _ ← in_net (SendMessage client_fd ERROR "Unknown message type"); mret true.

(** One turn of the loop; false ends it. *)
Definition serve_one (client_fd : Z) : Net bool :=
  s ← st_get;
  if negb (g_running s.2) then mret false
  else
    o ← in_net (RecvMessage client_fd);
    match o with
    | None => mret false
    | Some (type, data) => handle_message client_fd type data
    end.

Fixpoint HandleClient (n : nat) (client_fd : Z) : Net unit :=
  match n with
  | O => st_fuel
  | Datatypes.S n => continue ← serve_one client_fd; if continue : bool then HandleClient n client_fd else mret tt
  end.

(** ** The client's loop: what it prints of a response *)
Definition print_response (m : MessageType * string) : string :=
  let '(type, data) := m in
  if ascii_dec type RESULT then PrintResult data
  else if ascii_dec type ERROR then "ERROR: " +:+ data +:+ newline
  else if ascii_dec type COMMAND_COMPLETE then data +:+ newline
  else "Unexpected response from server." +:+ newline.

Definition help_text : string :=
  foldr (λ s rest, s +:+ newline +:+ rest) ""
    ["Commands:"; "  \q          Quit"; "  \?          Show this help"; "  SQL;        Execute a SQL statement"; ""].

(** The lines of its input, up to the end or to a quit command; [wait] is what the
    others do while the client waits for a response.  The printed text, without the
    prompts. *)
Fixpoint client_main (sock_fd : Z) (wait : Net unit) (lines : list string) (query_buf printed : string) : Net string :=
  match lines with
  | [] => mret printed
  | line :: lines =>
      match client_line query_buf line with
      | (Run query, query_buf) =>
          ok ← in_net (SendMessage sock_fd QUERY query);
          if negb ok then mret (printed +:+ "Connection lost." +:+ newline) else
          _ ← wait;
          o ← in_net (RecvMessage sock_fd);
          match o with
          | None => mret (printed +:+ "Connection lost." +:+ newline)
          | Some m => client_main sock_fd wait lines query_buf (printed +:+ print_response m)
          end
      | (Stop, _) => _ ← in_net (SendMessage sock_fd TERMINATE ""); mret printed
      | (Help, query_buf) => client_main sock_fd wait lines query_buf (printed +:+ help_text)
      | (_, query_buf) => client_main sock_fd wait lines query_buf printed
      end
  end.
End Server.

(** ** The client shows what the shell shows *)

Lemma pretty_no_newline (n : nat) : has_char "010" (pretty n) = false.
Proof. change (pretty n) with (pretty (N.of_nat n)). by apply pretty_N_no. Qed.

Lemma row_count_no_newline n : has_char "010" (row_count n) = false.
Proof.
  unfold row_count. rewrite !has_char_app, pretty_no_newline. destruct (decide _); reflexivity.
Qed.

Lemma FormatResultRow_no c vs : c ≠ "|"%char → Forall (λ v, has_char c v = false) vs → has_char c (FormatResultRow vs) = false.
Proof.
  intros Hc Hvs. destruct Hvs as [|v vs Hv Hvs]; [done|]. rewrite FormatResultRow_cons, has_char_app, Hv. simpl.
  induction Hvs as [|w vs Hw _ IH]; [done|]. cbn [row_tail].
  change (String "|" (w +:+ row_tail vs)) with ("|" +:+ (w +:+ row_tail vs)).
  rewrite !has_char_app, Hw, IH. rewrite !orb_false_r. apply bool_decide_eq_false. simpl. intros H. set_solver.
Qed.

(** A text made of lines is read back as those lines. *)
Fixpoint unlines (lines : list string) (rest : string) : string :=
  match lines with [] => rest | line :: lines => line +:+ newline +:+ unlines lines rest end.

Lemma split_unlines lines final : Forall (λ l, has_char "010" l = false) (lines ++ [final]) →
  split_loop "010" (text (unlines lines final)) [] [] = lines ++ [final].
Proof.
  induction lines as [|line lines IH]; intros H; apply Forall_cons in H as [Hl%has_char_false H]; cbn [unlines].
  - rewrite <- (app_nil_r (text final)), split_loop_word by done. simpl. unfold text. by rewrite String.string_of_list_ascii_of_string.
  - unfold text in *. rewrite list_ascii_app, split_loop_word by done. simpl. rewrite String.string_of_list_ascii_of_string.
    rewrite split_loop_parts. simpl. f_equal. by apply IH.
Qed.

Lemma getlines_unlines lines final : final ≠ "" → Forall (λ l, has_char "010" l = false) (lines ++ [final]) →
  getlines (unlines lines final) = lines ++ [final].
Proof.
  intros Hf H. unfold getlines. rewrite split_unlines by done. rewrite last_snoc. by destruct final.
Qed.

Lemma result_body_lines names rows :
  result_body names rows = unlines (FormatResultHeader names :: (FormatResultRow <$> rows)) (row_count (length rows)).
Proof.
  unfold result_body. generalize (row_count (length rows)). intros tail.
  assert (∀ body, foldl (λ body vals, body +:+ (FormatResultRow vals +:+ newline)) body rows +:+ tail =
                  body +:+ unlines (FormatResultRow <$> rows) tail) as ->.
  { induction rows as [|row rows IH]; intros body; [done|]. cbn [foldl fmap list_fmap unlines]. rewrite IH.
    by rewrite <- !string_app_assoc. }
  cbn [unlines]. by rewrite <- string_app_assoc.
Qed.

(** Texts the format can carry: no separator and no newline in them, and no row that
    the client takes for the end of the rows. *)
Definition printable_text (s : string) : Prop := has_char "|" s = false ∧ has_char "010" s = false.
Definition printable_row (row : list string) : Prop :=
  row ≠ [] ∧ Forall printable_text row ∧ ends_rows (FormatResultRow row) = false.

Lemma parse_printable row : row ≠ [] → Forall printable_text row → ParsePipeSeparated (FormatResultRow row) = row.
Proof. intros Hne H. destruct row as [|v vs]; [done|]. apply parse_row. eapply Forall_impl; [exact H|]. by intros ? [? _]. Qed.

Lemma line_printable row : Forall printable_text row → has_char "010" (FormatResultRow row) = false.
Proof. intros H. apply FormatResultRow_no; [done|]. eapply Forall_impl; [exact H|]. by intros ? [_ ?]. Qed.

Lemma data_rows_printable rows n : Forall printable_row rows → data_rows ((FormatResultRow <$> rows) ++ [row_count n]) = rows.
Proof.
  induction 1 as [|row rows (Hne & Hp & He) _ IH]; [done|]. cbn [fmap list_fmap app data_rows]. rewrite He.
  by rewrite parse_printable, IH.
Qed.

(** What the client prints of a result the format can carry. *)
Lemma PrintResult_table names rows :
  names ≠ [] → Forall printable_text names → Forall printable_row rows →
  PrintResult (result_body names rows) = table_text names rows +:+ row_count (length rows) +:+ newline.
Proof.
  intros Hne Hn Hr. unfold PrintResult. rewrite result_body_lines, getlines_unlines; [|done|].
  - cbn [app]. change (FormatResultHeader names) with (FormatResultRow names).
    rewrite parse_printable, data_rows_printable by done. f_equal. unfold summary_line.
    by rewrite app_comm_cons, filter_app, last_app.
  - cbn [app]. constructor; [by apply (line_printable names)|]. apply Forall_app. split.
    + apply Forall_fmap. eapply Forall_impl; [exact Hr|]. intros row (_ & Hp & _). by apply line_printable.
    + constructor; [apply row_count_no_newline|constructor].
Qed.

(** ** A session, from the client's statements to what it prints *)

Section Session.
Context {S : Type} `{PIO : !PageIO bytes S} {HO : HashOrder} {SS : StdSort} (fuel pages : nat).
Context (fmt_2f : Z → string) (stof : string → res Z) (Parse : string → PGParseResult).
Context {W : Type} `{SW : !Socket W} `{ST0 : !Stream W} (g_running : W → bool) (running : ∀ w, g_running w = true).

Lemma column_names_ok schema : Z.of_nat (length (columns_ schema)) < 2 ^ 32 →
  column_names schema = Ok (Tuple.col_name <$> columns_ schema).
Proof.
  intros Hl. unfold column_names, GetColumnCount, u32. rewrite Z.mod_small, Nat2Z.id by lia.
  apply mapR_Forall2, Forall2_same_length_lookup_2; [by rewrite length_seq, length_fmap|].
  intros i j name Hj Hn. apply lookup_seq in Hj as [-> _]. rewrite list_lookup_fmap in Hn.
  destruct (columns_ schema !! i) as [col|] eqn:E; [|done]. injection Hn as <-. unfold GetColumn. by rewrite (arr_get_ok _ _ col).
Qed.

Context (server client : Z) (connected : peer server = client) (two_ends : server ≠ client).

(** The server's turn. *)
Definition turn : ST (DB S * W) unit := _ ← serve_one fuel pages fmt_2f stof Parse g_running server; mret tt.

Lemma in_net_run {A} (cmd : ST W A) (d : DB S) w r w' : cmd w = (r, w') → in_net cmd (d, w) = (r, (d, w')).
Proof. unfold in_net, st_zoom. simpl. by intros ->. Qed.

Lemma catching_ok {A B} (cmd : ST (DB S) A) (k : A → B) h d x d' : cmd d = (Ok x, d') → catching cmd k h d = (Ok (k x), d').
Proof. unfold catching. by intros ->. Qed.

Lemma catching_throw {A B} (cmd : ST (DB S) A) (k : A → B) h d e d' : cmd d = (Throw e, d') → catching cmd k h d = (Ok (h e), d').
Proof. unfold catching. by intros ->. Qed.

(** The message that answers a statement: its rows, or the text of the exception. *)
Definition reply (sql : string) : ST (DB S) (MessageType * string) :=
  catching (query_body fuel pages fmt_2f stof Parse sql) (λ body, (RESULT, body)) (λ e, (ERROR, what e)).

Lemma HandleQuery_ok sql msg d d' w : reply sql d = (Ok msg, d') → healthy w → Protocol.fits msg →
  ∃ w', HandleQuery fuel pages fmt_2f stof Parse sql server (d, w) = (Ok tt, (d', w')) ∧ sent client (frame_of msg) w w'.
Proof.
  destruct msg as [type body]. intros Hb Hh Hf. destruct (SendMessage_ok server type body w Hh Hf) as (w' & Hs & Hsent). exists w'.
  rewrite connected in Hsent. split; [|done]. unfold HandleQuery.
  assert (in_db (reply sql) (d, w) = (Ok (type, body), (d', w))) as Hdb by (unfold in_db, st_zoom; simpl; by rewrite Hb).
  st_step Hdb. by st_step (in_net_run _ d' _ _ _ Hs).
Qed.

Lemma turn_answers sql msg d d' w : reply sql d = (Ok msg, d') → healthy w →
  wire server w = frame_of (QUERY, sql) → wire client w = [] → Protocol.fits (QUERY, sql) → Protocol.fits msg →
  ∃ w', turn (d, w) = (Ok tt, (d', w')) ∧ healthy w' ∧ wire server w' = [] ∧ wire client w' = frame_of msg.
Proof.
  intros Hb Hh Hws Hwc Hfq Hfb. rewrite <- (app_nil_r (frame_of (QUERY, sql))) in Hws.
  destruct (RecvMessage_ok server (QUERY, sql) w [] Hh Hfq Hws) as (w1 & H1 & Hh1 & Hw1 & Hoth1).
  rewrite Hws in Hw1. apply app_inv_head in Hw1.
  destruct (HandleQuery_ok sql msg d d' w1 Hb Hh1 Hfb) as (w2 & H2 & Hh2 & Hw2 & Hoth2).
  exists w2. split_and!; [|done|by rewrite Hoth2|by rewrite Hw2, Hoth1, Hwc].
  assert (serve_one fuel pages fmt_2f stof Parse g_running server (d, w) = (Ok true, (d', w2))) as Hone.
  { unfold serve_one. st_run. rewrite running. cbn [negb]. st_step (in_net_run _ d _ _ _ H1).
    unfold handle_message. destruct (ascii_dec QUERY QUERY); [|done]. by st_step H2. }
  unfold turn. by st_step Hone.
Qed.

(** A line that ends a statement takes it to the server and back. *)
Lemma client_round buf buf' line sql msg d d1 w : client_line buf line = (Run sql, buf') →
  reply sql d = (Ok msg, d1) → Protocol.fits (QUERY, sql) → Protocol.fits msg →
  healthy w → wire server w = [] → wire client w = [] →
  ∃ w1, healthy w1 ∧ wire server w1 = [] ∧ wire client w1 = [] ∧ ∀ lines printed,
    client_main client turn (line :: lines) buf printed (d, w) = client_main client turn lines buf' (printed +:+ print_response msg) (d1, w1).
Proof.
  intros Hline Hrun Hfq Hfb Hh Hws Hwc. assert (peer client = server) as Hpeer by (rewrite <- connected; apply peer_peer).
  destruct (SendMessage_ok client QUERY sql w Hh Hfq) as (w1 & H1 & Hh1 & Hw1 & Hoth1). rewrite Hpeer in Hw1, Hoth1.
  destruct (turn_answers sql msg d d1 w1 Hrun Hh1) as (w2 & H2 & Hh2 & Hs2 & Hc2);
    [by rewrite Hw1, Hws|by rewrite Hoth1|done..|].
  rewrite <- (app_nil_r (frame_of msg)) in Hc2.
  destruct (RecvMessage_ok client msg w2 [] Hh2 Hfb Hc2) as (w3 & H3 & Hh3 & Hw3 & Hoth3).
  rewrite Hc2 in Hw3. apply app_inv_head in Hw3. exists w3. split_and!; [done|by rewrite Hoth3|done|]. intros lines printed.
  cbn [client_main]. rewrite Hline. st_step (in_net_run _ d _ _ _ H1). cbn [negb]. st_step H2. by st_step (in_net_run _ d1 _ _ _ H3).
Qed.

Lemma client_quits buf printed (d : DB S) w : healthy w → wire server w = [] → wire client w = [] →
  ∃ w1, client_main client turn ["\q"] buf printed (d, w) = (Ok printed, (d, w1)) ∧
    wire server w1 = frame_of (TERMINATE, "") ∧ wire client w1 = [].
Proof.
  intros Hh Hws Hwc. assert (peer client = server) as Hpeer by (rewrite <- connected; apply peer_peer).
  destruct (SendMessage_ok client TERMINATE "" w Hh) as (w1 & H1 & Hh1 & Hw1 & Hoth1); [unfold Protocol.fits; simpl; lia|].
  rewrite Hpeer in Hw1, Hoth1. exists w1. split_and!; [|by rewrite Hw1, Hws|by rewrite Hoth1].
  change (client_main client turn ["\q"] buf printed) with (_ ← in_net (S := S) (SendMessage client TERMINATE ""); mret printed).
  by st_step (in_net_run _ d _ _ _ H1).
Qed.

End Session.
