(* ===== verification/Session.v ===== *)
(** * Sessions

    A session of a client with the server, as a run of an abstract database: the
    statements a user types, the tables printed and the database they leave.  This puts
    the binder, the optimizer, the executors, the catalog, the table heaps, the page
    interface, the protocol, the server and the client together. *)

From stdpp Require Import pretty.
From S2P Require Import Prelude Common Value Tuple Expression PageStore PageIO PageLogic TablePage TableHeap TableEdit Catalog Executor.
From S2P Require Import Operators Join Aggregate Dml OrderBy Utility Engine Effects Optimizer Statements Refusals Binder Protocol Server.

Section Session.
Context {S : Type} `{PIO : !PageIO bytes S} {HO : HashOrder} {SS : StdSort} (fuel pages : nat).
Context (fmt_2f : Z → string) (stof : string → res Z) (Parse : string → PGParseResult).
Context {W : Type} `{SW : !Socket W} `{ST0 : !Stream W} (g_running : W → bool) (running : ∀ w, g_running w = true).
Context (frames : 2 ≤ io_frames) (zero_len : Z.of_nat (length (io_zero : bytes)) = PAGE_SIZE).
Context (server client : Z) (connected : peer server = client) (two_ends : server ≠ client).

(** The abstract database: a catalog and the tables. *)
Abbreviation database := (Catalog * Tables)%type.

(** The answer to [sql], rows [result] with the columns of [schema], fits the wire format,
    and [out] is what the shell prints for it. *)
Definition carried (sql : string) (schema : Schema) (result : list Tuple) (out : string) : Prop :=
  PrintResultTable fmt_2f schema result = Ok out ∧
  let names := Tuple.col_name <$> columns_ schema in
  let texts := row_texts fmt_2f schema <$> result in
  Z.of_nat (length names) < 2 ^ 32 ∧ names ≠ [] ∧ Forall printable_text names ∧ Forall printable_row texts ∧
  Protocol.fits (QUERY, sql) ∧ Protocol.fits (RESULT, result_body names texts).

(** A statement takes the database to the next one, and prints [out]: the rows [rows] of
    its effect, in the order [result] in which the optimized plan has them, another one
    only where a join becomes a hash join. *)
Definition statement_step (db : database) (sql out : string) (db' : database) : Prop :=
  ∃ plan plan' rows result, BindQuery stof db.1 Parse sql = Ok plan ∧ good_statement fmt_2f db.1 db.2 plan ∧
    statement_effect fmt_2f db.1 db.2 plan = Ok (rows, db') ∧ Optimize (Some db.1) plan = Ok plan' ∧
    statement_effect fmt_2f db.1 db.2 plan' = Ok (result, db') ∧ same_answer plan result rows ∧
    carried sql (plan_schema plan) result out ∧ statement_fuel fuel fmt_2f db.1 db.2 plan' ∧ small_heaps pages db'.1 db'.2 ∧
    0 ≤ next_index_oid_ db.1 < UINT32_MAX.

(** A statement that fails: the binder throws, or the engine does. *)
Definition fails (db : database) (sql : string) (e : exn) (db' : database) : Prop :=
  BindQuery stof db.1 Parse sql = Throw e ∧ db' = db ∨
  ∃ plan c', BindQuery stof db.1 Parse sql = Ok plan ∧ statement_failure db.1 plan = Some (e, c') ∧ db' = (c', db.2).
Definition failed_step (db : database) (sql out : string) (db' : database) : Prop :=
  ∃ e, fails db sql e db' ∧ Protocol.fits (QUERY, sql) ∧ Protocol.fits (ERROR, what e) ∧ out = "ERROR: " +:+ what e +:+ newline.

(** The user's lines, what is printed for each, and the text of the statement being
    typed.  A statement may be typed on several lines. *)
Inductive script : string → database → list (string * string) → database → Prop :=
  | script_end buf db : script buf db [] db
  | script_more buf db line buf' qs db' :
      client_line buf line = (Again, buf') → script buf' db qs db' → script buf db ((line, "") :: qs) db'
  | script_help buf db line buf' qs db' :
      client_line buf line = (Help, buf') → script buf' db qs db' → script buf db ((line, help_text) :: qs) db'
  | script_statement buf db line sql buf' out db1 qs db' :
      client_line buf line = (Run sql, buf') → statement_step db sql out db1 ∨ failed_step db sql out db1 →
      script buf' db1 qs db' → script buf db ((line, out) :: qs) db'.

(** The pages hold the database, and its indexes are current. *)
Definition holds (m : gmap Z bytes) (db : database) : Prop :=
  tables_ok db.1 m db.2 ∧ db_current db.1 (Effects.records_of db.2) ∧ small_heaps pages db.1 db.2.
Definition ghost_of (m : gmap Z bytes) (db : database) : Store bytes * Catalog := (idle m (t_next db.2), db.1).

(** The server's part of a statement. *)
Lemma statement_body m db sql out db' : holds m db → statement_step db sql out db' →
  ∃ m' body, holds m' db' ∧ reaches (ghost_of m db) (query_body fuel pages fmt_2f stof Parse sql) body (ghost_of m' db') ∧
    Protocol.fits (QUERY, sql) ∧ Protocol.fits (RESULT, body) ∧ PrintResult body = out.
Proof.
  destruct db as [c T], db' as [c' T'].
  intros (HT & Hdb & Hsmall) (plan & plan' & rows & result & Hb & Hgood & He & Ho & He' & _ & (Hprint & Hlen & Hne & Hn & Hr & Hs & Hbody) & Hf & Hsmall' & Hoid).
  simpl in *. rewrite length_fmap in Hlen. pose proof (column_names_ok _ Hlen) as Hnames.
  destruct (optimized_runs fuel pages fmt_2f frames zero_len c m T plan rows c' T' Hdb HT Hsmall Hoid Hgood He) as (p & ts & Hp & Hsch & Hep & _ & Hrun).
  rewrite Ho in Hp. injection Hp as <-. rewrite He' in Hep. injection Hep as <-. destruct (Hrun Hf Hsmall') as (m' & HT' & Hdb' & Hexec).
  exists m'. eexists. split; [by split|]. split; [|split; [exact Hs|split; [exact Hbody|]]].
  - unfold query_body, run_sql. eapply reaches_bind.
    { eapply reaches_bind; [apply computes_catalog|]. eapply reaches_bind; [by apply computes_lift|].
      eapply reaches_bind; [by apply computes_lift|]. eapply reaches_bind; [exact Hexec|]. apply reaches_ret. }
    cbn beta iota zeta. rewrite Hsch. eapply reaches_bind; [apply computes_lift; exact Hnames|]. apply reaches_ret.
  - rewrite PrintResult_table by done. unfold PrintResultTable in Hprint. rewrite Hnames in Hprint. injection Hprint as <-.
    by rewrite length_fmap.
Qed.

Lemma failed_body m db sql out db' : holds m db → failed_step db sql out db' →
  ∃ e, holds m db' ∧ refuses (ghost_of m db) (query_body fuel pages fmt_2f stof Parse sql) e (ghost_of m db') ∧
    Protocol.fits (QUERY, sql) ∧ Protocol.fits (ERROR, what e) ∧ print_response (ERROR, what e) = out.
Proof.
  destruct db as [c T]. intros (HT & Hdb & Hsmall) (e & Hstep & Hq & Hf & ->). exists e. simpl in *.
  destruct Hstep as [[Hb ->]|(plan & c' & Hb & He & ->)].
  - split; [done|]. split; [|done]. unfold query_body, run_sql. apply refuses_first. eapply refuses_next; [apply computes_catalog|].
    apply refuses_first. by apply refuses_lift.
  - destruct (failure_current c m T plan e c' Hdb HT He) as (Hdb' & HT' & Htab).
    split; [split; [done|split; [done|by eapply small_heaps_same]]|]. split; [|done]. unfold query_body, run_sql. apply refuses_first.
    eapply refuses_next; [apply computes_catalog|]. eapply refuses_next; [by apply computes_lift|].
    eapply (refuses_next _ _ _ _ plan); [apply computes_lift|apply refuses_first; by apply statement_refuses].
    by destruct plan.
Qed.

(** Either way the server replies, and the client prints what it shall. *)
Lemma statement_reply m db sql out db' : holds m db → statement_step db sql out db' ∨ failed_step db sql out db' →
  ∃ m' n msg, 0 ≤ n ∧ holds m' db' ∧ Protocol.fits (QUERY, sql) ∧ Protocol.fits msg ∧ print_response msg = out ∧
    ∀ k d, 0 ≤ k → db_rel (k + n) (ghost_of m db) d →
    ∃ d', reply fuel pages fmt_2f stof Parse sql d = (Ok msg, d') ∧ db_rel k (ghost_of m' db') d'.
Proof.
  intros Hm [Hstep|Hstep].
  - destruct (statement_body m db sql out db' Hm Hstep) as (m' & body & Hm' & (n & Hn & Hrun) & Hq & Hb & <-).
    exists m', n, (RESULT, body). do 5 (split; [done|]). intros k d Hk Hd. destruct (Hrun k d Hk Hd) as (x & d' & g & Hrun' & [-> ->] & Hd').
    exists d'. split; [|done]. by apply catching_ok.
  - destruct (failed_body m db sql out db' Hm Hstep) as (e & Hm' & (n & Hn & Hrun) & Hq & He & <-).
    exists m, n, (ERROR, what e). do 5 (split; [done|]). intros k d Hk Hd. destruct (Hrun k d Hk Hd) as (d' & Hrun' & Hd').
    exists d'. split; [|done]. unfold reply. by rewrite (catching_throw _ _ _ _ _ _ Hrun').
Qed.

(** The client's loop from database [db], with text [buf] typed so far. *)
Definition session (buf : string) (db : database) (m : gmap Z bytes) (qs : list (string * string)) (db' : database) : Prop :=
  ∃ n m', 0 ≤ n ∧ holds m' db' ∧ ∀ k d w printed,
    0 ≤ k → db_rel (k + n) (ghost_of m db) d → healthy w → wire server w = [] → wire client w = [] →
    ∃ d' w', client_main client (turn fuel pages fmt_2f stof Parse g_running server) (qs.*1 ++ ["\q"]) buf printed (d, w)
        = (Ok (foldl String.append printed qs.*2), (d', w')) ∧
      db_rel k (ghost_of m' db') d' ∧ wire server w' = frame_of (TERMINATE, "") ∧ wire client w' = [].

Lemma script_session buf db qs db' : script buf db qs db' → ∀ m, holds m db → session buf db m qs db'.
Proof.
  assert (∀ buf buf' db m line out qs db', session buf' db m qs db' → client_line buf line = (Again, buf') ∧ out = "" ∨ client_line buf line = (Help, buf') ∧ out = help_text →
    session buf db m ((line, out) :: qs) db') as Hsame.
  { intros buf0 buf' db0 m line out qs0 db1 (n & m' & Hn & Hm' & H) Hline. exists n, m'. do 2 (split; [done|]). intros k d w printed Hk Hd Hh Hws Hwc.
    destruct (H k d w (printed +:+ out) Hk Hd Hh Hws Hwc) as (d' & w' & H1 & Hrest). exists d', w'. split; [|done].
    cbn [fmap list_fmap app fst snd foldl client_main]. rewrite <- H1. destruct Hline as [[-> ->]|[-> ->]]; [by rewrite string_app_nil|done]. }
  induction 1 as [buf db|buf db line buf' qs db' Hline _ IH|buf db line buf' qs db' Hline _ IH|buf db line sql buf' out db1 qs db' Hline Hstep _ IH];
    intros m Hm.
  - exists 0, m. do 2 (split; [done|]). intros k d w printed Hk Hd Hh Hws Hwc. rewrite Z.add_0_r in Hd.
    destruct (client_quits fuel pages fmt_2f stof Parse g_running server client connected two_ends buf printed d w Hh Hws Hwc) as (w1 & H1 & ? & ?).
    by exists d, w1.
  - apply (Hsame _ buf'); [by apply IH|by left].
  - apply (Hsame _ buf'); [by apply IH|by right].
  - destruct (statement_reply m db sql out db1 Hm Hstep) as (m1 & n1 & msg & Hn1 & Hm1 & Hfq & Hfm & <- & Hrep).
    destruct (IH m1 Hm1) as (n2 & m' & Hn2 & Hm' & Hrest). exists (n1 + n2), m'. split; [lia|]. split; [done|].
    intros k d w printed Hk Hd Hh Hws Hwc.
    destruct (Hrep (k + n2) d) as (d1 & Hrun & Hd1); [lia|by replace (k + n2 + n1) with (k + (n1 + n2)) by lia|].
    destruct (client_round fuel pages fmt_2f stof Parse g_running running server client connected two_ends buf buf' line sql msg d d1 w
      Hline Hrun Hfq Hfm Hh Hws Hwc) as (w1 & Hh1 & Hs1 & Hc1 & Hround).
    destruct (Hrest k d1 w1 (printed +:+ print_response msg) Hk Hd1 Hh1 Hs1 Hc1) as (d' & w' & H4 & Hrest'). exists d', w'. split; [|done].
    cbn [fmap list_fmap app fst snd foldl]. by rewrite Hround.
Qed.

(** C1: a session is a run of the abstract database.  Over any working connection,
    however [read] and [write] cut the bytes, on any page store with two frames: the user
    types statements (queries, INSERT ... SELECT, DELETE, UPDATE, CREATE INDEX, DROP
    INDEX, SHOW, and statements that the binder refuses or that fail), on one line or
    several, and quits; the client prints for each what the abstract database
    answers, or the message of the error, and at the end the pages hold the abstract
    database that the statements leave, with current indexes.  The abstract database has
    a step for the statements of [good_statement]: it does not change a
    table that has an index, and its queries meet the conditions of [fits]; where a join
    becomes a hash join it answers the rows in the order of the hash join. *)
Theorem session_runs_statements db qs db' m :
  script "" db qs db' → holds m db →
  ∃ n m', 0 ≤ n ∧ holds m' db' ∧ ∀ k d w printed,
    0 ≤ k → db_rel (k + n) (ghost_of m db) d → healthy w → wire server w = [] → wire client w = [] →
    ∃ d' w', client_main client (turn fuel pages fmt_2f stof Parse g_running server) (qs.*1 ++ ["\q"]) "" printed (d, w)
        = (Ok (foldl String.append printed qs.*2), (d', w')) ∧
      db_rel k (ghost_of m' db') d' ∧ wire server w' = frame_of (TERMINATE, "") ∧ wire client w' = [].
Proof. intros Hscript. by apply script_session. Qed.
End Session.

(** ** Witness: copying a table, indexing and asking the copy, and joining the two *)

Definition copy_text : string := "INSERT INTO u SELECT * FROM t WHERE a = 7".
Definition index_text : string := "CREATE INDEX i ON u (a)".
Definition ask_text : string := "SELECT a FROM u WHERE a = 7".
Definition join_text : string := "SELECT * FROM t JOIN u ON t.a = u.a".
Definition where_seven : PGNode := op_expr "=" (col_ref "a") (int_const 7).
Definition range_u : PGRangeVar := mkRangeVar (Some "u") None.
Definition demo_parse (sql : string) : PGParseResult :=
  if bool_decide (sql = copy_text) then
    ParseTree [PGInsertStmt range_u (Some (mkSelect [PGResTarget None (PGColumnRef [PGAStar])] [from_table "t"] where_seven [] [] PGNull []))]
  else if bool_decide (sql = index_text) then ParseTree [PGIndexStmt (Some range_u) (Some "i") [PGIndexElem (Some "a") PGNull]]
  else if bool_decide (sql = ask_text) then
    ParseTree [PGSelectStmt (mkSelect [PGResTarget None (col_ref "a")] [from_table "u"] where_seven [] [] PGNull [])]
  else if bool_decide (sql = join_text) then
    let on := op_expr "=" (PGColumnRef [PGString "t"; PGString "a"]) (PGColumnRef [PGString "u"; PGString "a"]) in
    ParseTree [PGSelectStmt (mkSelect [PGResTarget None PGAStar]
      [PGJoinExpr (PGRange (mkRangeVar (Some "t") None)) (PGRange range_u) on] PGNull [] [] PGNull [])]
  else ParseError "syntax error".

Definition lines_of (l : list string) : string := foldr (λ s rest, s +:+ newline +:+ rest) "" l.
Definition demo_session : list (string * string) := [
  ("INSERT INTO u SELECT * FROM t WHERE a = 7;", lines_of ["+-------+"; "| count |"; "+-------+"; "| 2     |"; "+-------+"; "(1 row)"]);
  ("CREATE INDEX i", "");
  ("ON u (a);", lines_of ["+----------------+"; "| command_tag    |"; "+----------------+"; "| CREATE INDEX i |"; "+----------------+"; "(1 row)"]);
  ("CREATE INDEX i ON u (a);", lines_of ["ERROR: Failed to create index: i"]);
  ("SELECT a FROM u WHERE a = 7;", lines_of ["+---+"; "| a |"; "+---+"; "| 7 |"; "| 7 |"; "+---+"; "(2 rows)"]);
  ("SELECT * FROM t JOIN u ON t.a = u.a;", lines_of ["+---+---+"; "| a | a |"; "+---+---+";
     "| 7 | 7 |"; "| 7 | 7 |"; "| 7 | 7 |"; "| 7 | 7 |"; "+---+---+"; "(4 rows)"]);
  ("SELEKT;", lines_of ["ERROR: Parse error: syntax error"])
].

(** The fuel of a query, by evaluating the rows of its parts. *)
Ltac fuel_check :=
  cbn [statement_fuel effect_fuel enough_fuel]; unfold small;
  repeat match goal with |- _ ∧ _ => split end;
    match goal with
    | |- match ?q with _ => _ end => let v := eval vm_compute in q in change q with v; cbv beta iota; cbn [length]; lia
    | |- (_ < _)%nat => vm_compute; lia
    | |- True => exact I
    end.

Section Demo.
#[local] Existing Instance demo_io.
#[local] Existing Instance listed_order.
#[local] Existing Instance insertion_std_sort.

Abbreviation fmt := (λ _ : Z, "").

(** The databases of the session. *)
Definition db_after (sql : string) (db : Catalog * Tables) : Catalog * Tables :=
  match plan ← BindQuery no_floats db.1 demo_parse sql; statement_effect fmt db.1 db.2 plan with Ok (_, db) => db | _ => db end.
Definition db_start : Catalog * Tables := (two_catalog, Effects.two_tables).
Definition db_copied : Catalog * Tables := Eval vm_compute in db_after copy_text db_start.
Definition db_indexed : Catalog * Tables := Eval vm_compute in db_after index_text db_copied.

Lemma carried_check sql schema result out : PrintResultTable fmt schema result = Ok out →
  (let names := Tuple.col_name <$> columns_ schema in
   let texts := row_texts fmt schema <$> result in
   let body := result_body names texts in
   let printable s := negb (has_char "|" s) && negb (has_char "010" s) in
   (Z.of_nat (length names) <? 2 ^ 32) && negb (bool_decide (names = [])) && forallb printable names &&
   forallb (λ row, negb (bool_decide (row = [])) && forallb printable row && negb (ends_rows (FormatResultRow row))) texts &&
   bool_decide (Protocol.fits (QUERY, sql)) && bool_decide (Protocol.fits (RESULT, body))) = true →
  carried fmt sql schema result out.
Proof.
  intros Hp H. cbv zeta in H. repeat rewrite andb_true_iff in H. destruct H as (((((H1 & H2) & H3) & H4) & H5) & H6).
  assert (∀ s, negb (has_char "|" s) && negb (has_char "010" s) = true → printable_text s) as Htext.
  { intros s [?%negb_true_iff ?%negb_true_iff]%andb_true_iff. by split. }
  split; [done|]. cbv zeta. split; [lia|]. split; [by apply negb_true_iff, bool_decide_eq_false in H2|].
  split; [|split; [|split; [by apply bool_decide_eq_true in H5|by apply bool_decide_eq_true in H6]]].
  - apply Forall_forall. intros s Hs. apply Htext. rewrite forallb_forall in H3. by apply H3, list_elem_of_In.
  - apply Forall_forall. intros row Hrow. rewrite forallb_forall in H4. apply list_elem_of_In, H4 in Hrow.
    rewrite !andb_true_iff in Hrow. destruct Hrow as ((Hne & Hrow) & He). split; [by apply negb_true_iff, bool_decide_eq_false in Hne|].
    split; [|by apply negb_true_iff]. apply Forall_forall. intros s Hs. apply Htext. rewrite forallb_forall in Hrow. by apply Hrow, list_elem_of_In.
Qed.

Lemma db_cases db oid t : db = db_start ∨ db = db_copied ∨ db = db_indexed → tables_ db.1 !! oid = Some t → oid = 1 ∨ oid = 2.
Proof.
  intros Hdb Ht. assert (tables_ two_catalog !! oid = Some t) as H by (by destruct Hdb as [->|[->| ->]]).
  apply two_tables_cases in H as [[-> _]|[-> _]]; [by left|by right].
Qed.

Lemma db_small db : db = db_start ∨ db = db_copied ∨ db = db_indexed → small_heaps 5 db.1 db.2.
Proof. intros Hdb oid t [-> | ->]%(db_cases db oid t Hdb); destruct Hdb as [->|[->| ->]]; vm_compute; lia. Qed.

Lemma copy_step : statement_step 9 5 fmt no_floats demo_parse db_start copy_text
  (lines_of ["+-------+"; "| count |"; "+-------+"; "| 2     |"; "+-------+"; "(1 row)"]) db_copied.
Proof.
  eexists _, _, _, _. split; [vm_compute; reflexivity|]. split; [split; intros t ioid i _ H; vm_compute in H; discriminate|].
  do 3 (split; [vm_compute; reflexivity|]). split; [by split|]. split; [apply carried_check; vm_compute; reflexivity|].
  split; [split; vm_compute; lia|]. split; [apply db_small; auto|by split; [|unfold UINT32_MAX]].
Qed.

Lemma index_step : statement_step 9 5 fmt no_floats demo_parse db_copied index_text
  (lines_of ["+----------------+"; "| command_tag    |"; "+----------------+"; "| CREATE INDEX i |"; "+----------------+"; "(1 row)"]) db_indexed.
Proof.
  eexists _, _, _, _. split; [vm_compute; reflexivity|]. split; [exact I|].
  do 3 (split; [vm_compute; reflexivity|]). split; [by split|]. split; [apply carried_check; vm_compute; reflexivity|].
  split; [|split; [apply db_small; auto|by split; [|unfold UINT32_MAX]]].
  split; [lia|]. intros t Ht. vm_compute in Ht. injection Ht as <-. vm_compute. lia.
Qed.

Lemma ask_step : statement_step 9 5 fmt no_floats demo_parse db_indexed ask_text
  (lines_of ["+---+"; "| a |"; "+---+"; "| 7 |"; "| 7 |"; "+---+"; "(2 rows)"]) db_indexed.
Proof.
  eexists _, _, _, _. split; [vm_compute; reflexivity|]. split; [reflexivity|].
  do 3 (split; [vm_compute; reflexivity|]). split; [by split|]. split; [apply carried_check; vm_compute; reflexivity|].
  split; [|split; [apply db_small; auto|by split; [|unfold UINT32_MAX]]].
  fuel_check.
Qed.

(** A join that becomes a hash join. *)
Lemma join_step : statement_step 9 5 fmt no_floats demo_parse db_indexed join_text
  (lines_of ["+---+---+"; "| a | a |"; "+---+---+"; "| 7 | 7 |"; "| 7 | 7 |"; "| 7 | 7 |"; "| 7 | 7 |"; "+---+---+"; "(4 rows)"]) db_indexed.
Proof.
  eexists _, _, _, _. split; [vm_compute; reflexivity|]. split.
  { match goal with |- good_statement _ _ _ ?p => let v := eval vm_compute in p in change p with v end.
    split; [exact I|]. split; [exact I|]. exists INTEGER. split; [right; left; reflexivity|]. intros lrows rrows Hl Hr.
    vm_compute in Hl, Hr. injection Hl as <-. injection Hr as <-. split; apply key_typed_check; vm_compute; reflexivity. }
  do 3 (split; [vm_compute; reflexivity|]). split; [by split|]. split; [apply carried_check; vm_compute; reflexivity|].
  split; [|split; [apply db_small; auto|by split; [|unfold UINT32_MAX]]].
  fuel_check.
Qed.

Lemma refused_step : failed_step no_floats demo_parse db_indexed index_text (lines_of ["ERROR: Failed to create index: i"]) db_indexed.
Proof.
  eexists. split; [right; eexists _, _; split; [vm_compute; reflexivity|]; split; [vm_compute; reflexivity|reflexivity]|].
  split; [vm_compute; reflexivity|]. split; [vm_compute; reflexivity|reflexivity].
Qed.

Lemma syntax_step : failed_step no_floats demo_parse db_indexed "SELEKT" (lines_of ["ERROR: Parse error: syntax error"]) db_indexed.
Proof.
  eexists. split; [left; split; [vm_compute; reflexivity|reflexivity]|].
  split; [vm_compute; reflexivity|]. split; [vm_compute; reflexivity|reflexivity].
Qed.

Lemma demo_script : script 9 5 fmt no_floats demo_parse "" db_start demo_session db_indexed.
Proof.
  eapply script_statement; [vm_compute; reflexivity|left; exact copy_step|].
  eapply script_more; [vm_compute; reflexivity|].
  eapply script_statement; [vm_compute; reflexivity|left; exact index_step|].
  eapply script_statement; [vm_compute; reflexivity|right; exact refused_step|].
  eapply script_statement; [vm_compute; reflexivity|left; exact ask_step|].
  eapply script_statement; [vm_compute; reflexivity|left; exact join_step|].
  eapply script_statement; [vm_compute; reflexivity|right; exact syntax_step|]. apply script_end.
Qed.

Lemma session_runs_statements_witness :
  ∃ d d' w' m', client_main 1 (turn 9 5 fmt no_floats demo_parse (λ _, true) 0) (demo_session.*1 ++ ["\q"]) "" "" (d, no_bytes)
      = (Ok (foldl String.append "" demo_session.*2), (d', w')) ∧
    holds 5 m' db_indexed ∧ db_rel 0 (ghost_of m' db_indexed) d' ∧ wire (W := Pipe) 1 w' = [].
Proof.
  destruct (session_runs_statements (PIO := demo_io) 9 5 fmt no_floats demo_parse (W := Pipe) (λ _, true) (λ _, eq_refl)
    ltac:(vm_compute; discriminate) ltac:(vm_compute; reflexivity) 0 1 eq_refl ltac:(lia) db_start demo_session db_indexed two_pages)
    as (n & m' & Hn & Hm' & H).
  - exact demo_script.
  - split; [exact two_tables_ok|]. split; [exact two_db_current|]. apply db_small. by left.
  - destruct (H 0 (mkDB (idle two_pages 2) two_catalog) no_bytes "") as (d' & w' & H1 & H2 & _ & H3).
    + lia.
    + split; [|reflexivity]. split; [reflexivity|]. split.
      * intros p [x Hx]. change (two_pages !! p = Some x) in Hx. unfold two_pages in Hx.
        apply lookup_insert_Some in Hx as [[<- _]|[_ [<- _]%lookup_singleton_Some]]; simpl; lia.
      * intros p [x Hx]. change ((∅ : gmap Z (Z * Z)) !! p = Some x) in Hx. by rewrite lookup_empty in Hx.
    + exact I.
    + reflexivity.
    + reflexivity.
    + exists (mkDB (idle two_pages 2) two_catalog), d', w', m'. split; [exact H1|]. split; [exact Hm'|]. split; [exact H2|exact H3].
Defined.
End Demo.
