(* ===== verification/Shell.v ===== *)
(** * Sessions of the shell

    A session of the local shell ([onebase_shell.cpp]), as a run of the abstract
    database.  The shell runs statements in its own process: no message is sent, and
    its optimizer has no catalog.  So no index is used, indexes need not be current, and
    statements may change tables that have some. *)

From S2P Require Import Prelude Common Value Tuple Expression PageStore PageIO PageLogic TablePage TableHeap TableEdit Catalog Executor.
From S2P Require Import Operators Join Aggregate Dml OrderBy Utility Engine Effects Optimizer Statements Refusals Binder Protocol Server Session.

Section Shell.
Context {S : Type} `{PIO : !PageIO bytes S} {HO : HashOrder} {SS : StdSort} (fuel pages : nat).
Context (fmt_2f : Z → string) (stof : string → res Z) (Parse : string → PGParseResult).
Context (frames : 2 ≤ io_frames) (zero_len : Z.of_nat (length (io_zero : bytes)) = PAGE_SIZE).

Abbreviation database := (Catalog * Tables)%type.
Abbreviation execute := (ExecuteSQL fuel pages fmt_2f stof Parse).
Abbreviation shell := (shell_main fuel pages fmt_2f stof Parse).

(** ** The abstract database at the shell *)

(** A statement takes the database to the next one, and prints the rows of its effect as a
    table, in another order only where a join becomes a hash join. *)
Definition shell_statement (db : database) (sql out : string) (db' : database) : Prop :=
  ∃ plan plan' rows result, BindQuery stof db.1 Parse sql = Ok plan ∧ good_without_catalog fmt_2f db.1 db.2 plan ∧
    statement_effect fmt_2f db.1 db.2 plan = Ok (rows, db') ∧ Optimize None plan = Ok plan' ∧
    statement_effect fmt_2f db.1 db.2 plan' = Ok (result, db') ∧ same_answer plan result rows ∧
    PrintResultTable fmt_2f (plan_schema plan) result = Ok out ∧
    statement_fuel fuel fmt_2f db.1 db.2 plan' ∧ small_heaps pages db'.1 db'.2 ∧ 0 ≤ next_index_oid_ db.1 < UINT32_MAX.

(** One that fails prints the message of its exception. *)
Definition shell_failure (db : database) (sql out : string) (db' : database) : Prop :=
  ∃ e, fails stof Parse db sql e db' ∧ out = "ERROR: " +:+ what e +:+ newline.

(** The lines of a user, with what is printed for each, up to the end of the input or to a
    quit command. *)
Inductive shell_script : string → database → list (string * string) → database → Prop :=
  | shell_end buf db : shell_script buf db [] db
  | shell_quit buf db line buf' : shell_line buf line = (Stop, buf') → shell_script buf db [(line, "Bye!" +:+ newline)] db
  | shell_more buf db line buf' qs db' :
      shell_line buf line = (Again, buf') → shell_script buf' db qs db' → shell_script buf db ((line, "") :: qs) db'
  | shell_help buf db line buf' qs db' :
      shell_line buf line = (Help, buf') → shell_script buf' db qs db' → shell_script buf db ((line, shell_help_text) :: qs) db'
  | shell_tables buf db line buf' qs db' :
      shell_line buf line = (ListTables, buf') → shell_script buf' db qs db' → shell_script buf db ((line, tables_text db.1) :: qs) db'
  | shell_run buf db line sql buf' out db1 qs db' :
      shell_line buf line = (Run sql, buf') → shell_statement db sql out db1 ∨ shell_failure db sql out db1 →
      shell_script buf' db1 qs db' → shell_script buf db ((line, out) :: qs) db'.

(** The pages hold the database. *)
Definition shell_holds (m : gmap Z bytes) (db : database) : Prop :=
  catalog_ok db.1 ∧ tables_ok db.1 m db.2 ∧ small_heaps pages db.1 db.2.

(** ** The shell runs it *)

Lemma reaches_catching {A B} g g' (cmd : ST (DB S) A) (k : A → B) h x : reaches g cmd x g' → reaches g (catching cmd k h) (k x) g'.
Proof.
  intros (n & Hn & H). exists n. split; [done|]. intros i d Hi Hd. destruct (H i d Hi Hd) as (y & d' & g1 & Hrun & [-> ->] & Hd').
  exists (k x), d', g'. split; [by apply catching_ok|done].
Qed.

Lemma refuses_catching {A B} g g' (cmd : ST (DB S) A) (k : A → B) h e : refuses g cmd e g' → reaches g (catching cmd k h) (h e) g'.
Proof.
  intros (n & Hn & H). exists n. split; [done|]. intros i d Hi Hd. destruct (H i d Hi Hd) as (d' & Hrun & Hd').
  exists (h e), d', g'. split; [by apply catching_throw|done].
Qed.

Lemma shell_statement_runs m db sql out db' : shell_holds m db → shell_statement db sql out db' →
  ∃ m', shell_holds m' db' ∧ reaches (ghost_of m db) (execute sql) out (ghost_of m' db').
Proof.
  destruct db as [c T], db' as [c' T']. intros (Hc & HT & Hsmall) (plan & plan' & rows & result & Hb & Hgood & He & Ho & He' & _ & Hout & Hf & Hsmall' & Hoid).
  simpl in *. destruct (statement_without_catalog fmt_2f c T plan rows _ Hgood He) as (p & ts & Hp & Hs & _ & _). rewrite Ho in Hp. injection Hp as <-.
  destruct (statement_runs fuel pages fmt_2f frames zero_len c m T plan' result c' T' Hc HT Hsmall Hoid He' Hf Hsmall') as (m' & Hc' & HT' & Hrun).
  exists m'. split; [by split_and!|]. unfold ExecuteSQL. apply (reaches_catching _ _ _ id _ out). eapply reaches_bind.
  - unfold run_sql. eapply reaches_bind; [apply computes_catalog|]. eapply reaches_bind; [by apply computes_lift|].
    eapply reaches_bind; [by apply computes_lift|]. eapply reaches_bind; [exact Hrun|]. apply reaches_ret.
  - cbn beta iota. apply computes_lift. by rewrite Hs.
Qed.

Lemma shell_failure_runs m db sql out db' : shell_holds m db → shell_failure db sql out db' →
  shell_holds m db' ∧ reaches (ghost_of m db) (execute sql) out (ghost_of m db').
Proof.
  destruct db as [c T]. intros (Hc & HT & Hsmall) (e & Hfail & ->). unfold ExecuteSQL.
  destruct Hfail as [[Hb ->]|(plan & c' & Hb & He & ->)]; simpl in *.
  - split; [by split|]. apply (refuses_catching _ _ _ id (λ e, "ERROR: " +:+ what e +:+ newline)). apply refuses_first. unfold run_sql.
    eapply refuses_next; [apply computes_catalog|]. apply refuses_first. by apply refuses_lift.
  - destruct (failure_catalog c plan e c' Hc He) as [Hc' Ht]. split.
    { split; [done|]. split; [by eapply tables_ok_same|by eapply small_heaps_same]. }
    apply (refuses_catching _ _ _ id (λ e, "ERROR: " +:+ what e +:+ newline)). apply refuses_first. unfold run_sql.
    eapply refuses_next; [apply computes_catalog|]. eapply refuses_next; [by apply computes_lift|].
    eapply (refuses_next _ _ _ _ plan); [apply computes_lift|apply refuses_first; by apply statement_refuses]. by destruct plan.
Qed.

Lemma shell_script_runs buf db qs db' : shell_script buf db qs db' → ∀ m, shell_holds m db →
  ∃ m', shell_holds m' db' ∧ ∀ printed,
    reaches (ghost_of m db) (shell qs.*1 buf printed) (foldl String.append printed qs.*2) (ghost_of m' db').
Proof.
  induction 1 as [buf db|buf db line buf' Hl|buf db line buf' qs db' Hl _ IH|buf db line buf' qs db' Hl _ IH
    |buf db line buf' qs db' Hl _ IH|buf db line sql buf' out db1 qs db' Hl Hstep _ IH]; intros m Hm.
  - exists m. split; [done|]. intros printed. apply reaches_ret.
  - exists m. split; [done|]. intros printed. cbn. rewrite Hl. apply reaches_ret.
  - destruct (IH m Hm) as (m' & Hm' & Hrun). exists m'. split; [done|]. intros printed. cbn. rewrite Hl, string_app_nil. apply Hrun.
  - destruct (IH m Hm) as (m' & Hm' & Hrun). exists m'. split; [done|]. intros printed.
    cbn [fmap list_fmap fst snd foldl shell_main]. rewrite Hl. apply Hrun.
  - destruct (IH m Hm) as (m' & Hm' & Hrun). exists m'. split; [done|]. intros printed.
    cbn [fmap list_fmap fst snd foldl shell_main]. rewrite Hl. eapply reaches_bind; [apply computes_catalog|apply Hrun].
  - assert (∃ m1, shell_holds m1 db1 ∧ reaches (ghost_of m db) (execute sql) out (ghost_of m1 db1)) as (m1 & Hm1 & Hrun1).
    { destruct Hstep as [Hstep|Hstep]; [by apply shell_statement_runs|]. exists m. by apply (shell_failure_runs m db sql). }
    destruct (IH m1 Hm1) as (m' & Hm' & Hrun). exists m'. split; [done|]. intros printed.
    cbn [fmap list_fmap fst snd foldl shell_main]. rewrite Hl. eapply reaches_bind; [exact Hrun1|apply Hrun].
Qed.

(** C4: a session of the shell is a run of the abstract database.  On any page store with
    two frames, for a catalog that is consistent, whose indexes may be out of date: the user
    types statements (queries that meet the conditions of [fits], INSERT ... SELECT, DELETE and
    UPDATE, of tables with an index or without, CREATE INDEX, DROP INDEX, SHOW, and statements
    that the binder refuses or that fail), on one line or several, and the commands help and
    tables, up to quit or the end of the input; the shell prints for each what the abstract
    database answers, or the message of the error, and at the end the pages hold the abstract
    database that the statements leave. *)
Theorem shell_runs_statements db qs db' m :
  shell_script "" db qs db' → shell_holds m db →
  ∃ n m', 0 ≤ n ∧ shell_holds m' db' ∧ ∀ k d, 0 ≤ k → db_rel (k + n) (ghost_of m db) d →
    ∃ d', shell qs.*1 "" "" d = (Ok (foldl String.append "" qs.*2), d') ∧ db_rel k (ghost_of m' db') d'.
Proof.
  intros Hs Hm. destruct (shell_script_runs "" db qs db' Hs m Hm) as (m' & Hm' & Hrun). destruct (Hrun "") as (n & Hn & H).
  exists n, m'. split; [done|]. split; [done|]. intros k d Hk Hd. destruct (H k d Hk Hd) as (x & d' & g & Hx & [-> ->] & Hd'). by exists d'.
Qed.
End Shell.

(** ** Witness: copying rows into a table twice, the second time after an index is made *)

Definition shell_demo : list (string * string) := [
  ("INSERT INTO u SELECT * FROM t WHERE a = 7;", lines_of ["+-------+"; "| count |"; "+-------+"; "| 2     |"; "+-------+"; "(1 row)"]);
  ("CREATE INDEX i", "");
  ("ON u (a);", lines_of ["+----------------+"; "| command_tag    |"; "+----------------+"; "| CREATE INDEX i |"; "+----------------+"; "(1 row)"]);
  ("INSERT INTO u SELECT * FROM t WHERE a = 7;", lines_of ["+-------+"; "| count |"; "+-------+"; "| 2     |"; "+-------+"; "(1 row)"]);
  ("CREATE INDEX i ON u (a);", lines_of ["ERROR: Failed to create index: i"]);
  ("SELECT a FROM u WHERE a = 7;", lines_of ["+---+"; "| a |"; "+---+"; "| 7 |"; "| 7 |"; "| 7 |"; "| 7 |"; "+---+"; "(4 rows)"]);
  ("quit", lines_of ["Bye!"])
].

Section Demo.
#[local] Existing Instance demo_io.
#[local] Existing Instance listed_order.
#[local] Existing Instance insertion_std_sort.

Abbreviation fmt := (λ _ : Z, "").

Definition db_twice : Catalog * Tables := Eval vm_compute in db_after copy_text db_indexed.

Lemma shell_small db : db = db_start ∨ db = db_copied ∨ db = db_indexed ∨ db = db_twice → small_heaps 5 db.1 db.2.
Proof.
  intros Hdb oid t Ht. assert (tables_ two_catalog !! oid = Some t) as H by (by destruct Hdb as [->|[->|[->| ->]]]).
  apply two_tables_cases in H as [[-> _]|[-> _]]; destruct Hdb as [->|[->|[->| ->]]]; vm_compute; lia.
Qed.

Lemma shell_copy db db' : db = db_start ∧ db' = db_copied ∨ db = db_indexed ∧ db' = db_twice →
  shell_statement 9 5 fmt no_floats demo_parse db copy_text
    (lines_of ["+-------+"; "| count |"; "+-------+"; "| 2     |"; "+-------+"; "(1 row)"]) db'.
Proof.
  intros [[-> ->]|[-> ->]]; eexists _, _, _, _; (split; [vm_compute; reflexivity|]); (split; [exact I|]);
    do 3 (split; [vm_compute; reflexivity|]); (split; [by split|]); (split; [vm_compute; reflexivity|]);
    (split; [split; vm_compute; lia|]); (split; [apply shell_small; auto|by split; [|unfold UINT32_MAX]]).
Qed.

Lemma shell_index : shell_statement 9 5 fmt no_floats demo_parse db_copied index_text
  (lines_of ["+----------------+"; "| command_tag    |"; "+----------------+"; "| CREATE INDEX i |"; "+----------------+"; "(1 row)"]) db_indexed.
Proof.
  eexists _, _, _, _. split; [vm_compute; reflexivity|]. split; [exact I|]. do 3 (split; [vm_compute; reflexivity|]). split; [by split|].
  split; [vm_compute; reflexivity|]. split; [|split; [apply shell_small; auto|by split; [|unfold UINT32_MAX]]].
  split; [lia|]. intros t Ht. vm_compute in Ht. injection Ht as <-. vm_compute. lia.
Qed.

Lemma shell_ask : shell_statement 9 5 fmt no_floats demo_parse db_twice ask_text
  (lines_of ["+---+"; "| a |"; "+---+"; "| 7 |"; "| 7 |"; "| 7 |"; "| 7 |"; "+---+"; "(4 rows)"]) db_twice.
Proof.
  eexists _, _, _, _. split; [vm_compute; reflexivity|]. split; [reflexivity|]. do 3 (split; [vm_compute; reflexivity|]). split; [by split|].
  split; [vm_compute; reflexivity|]. split; [|split; [apply shell_small; auto|by split; [|unfold UINT32_MAX]]]. fuel_check.
Qed.

Lemma shell_demo_script : shell_script 9 5 fmt no_floats demo_parse "" db_start shell_demo db_twice.
Proof.
  eapply shell_run; [vm_compute; reflexivity|left; apply shell_copy; auto|].
  eapply shell_more; [vm_compute; reflexivity|].
  eapply shell_run; [vm_compute; reflexivity|left; exact shell_index|].
  eapply shell_run; [vm_compute; reflexivity|left; apply shell_copy; auto|].
  eapply shell_run; [vm_compute; reflexivity|right; exists (RuntimeError "Failed to create index: i")|].
  { split; [right; eexists _, _; split; [vm_compute; reflexivity|split; [vm_compute; reflexivity|reflexivity]]|reflexivity]. }
  eapply shell_run; [vm_compute; reflexivity|left; exact shell_ask|].
  eapply shell_quit. vm_compute. reflexivity.
Qed.

Lemma shell_runs_statements_witness :
  ∃ d d' m', shell_main 9 5 fmt no_floats demo_parse shell_demo.*1 "" "" d = (Ok (foldl String.append "" shell_demo.*2), d') ∧
    shell_holds 5 m' db_twice ∧ db_rel 0 (ghost_of m' db_twice) d'.
Proof.
  destruct (shell_runs_statements (PIO := demo_io) 9 5 fmt no_floats demo_parse ltac:(vm_compute; discriminate) ltac:(vm_compute; reflexivity)
    db_start shell_demo db_twice two_pages) as (n & m' & Hn & Hm' & H).
  - exact shell_demo_script.
  - split; [exact two_catalog_ok|]. split; [exact two_tables_ok|]. apply shell_small. by left.
  - destruct (H 0 (mkDB (idle two_pages 2) two_catalog)) as (d' & H1 & H2).
    + lia.
    + split; [|reflexivity]. split; [reflexivity|]. split.
      * intros p [x Hx]. change (two_pages !! p = Some x) in Hx. unfold two_pages in Hx.
        apply lookup_insert_Some in Hx as [[<- _]|[_ [<- _]%lookup_singleton_Some]]; simpl; lia.
      * intros p [x Hx]. change ((∅ : gmap Z (Z * Z)) !! p = Some x) in Hx. by rewrite lookup_empty in Hx.
    + exists (mkDB (idle two_pages 2) two_catalog), d', m'. split; [exact H1|]. split; [exact Hm'|exact H2].
Defined.
End Demo.
