(* ===== verification/Setup.v ===== *)
(** * Making a database

    No statement makes a table: the tables and their first rows are made by calls of the
    catalog and of the table heaps, as the tests do.  What these calls do to the
    abstract database, and that from an empty catalog they make one that
    sessions run on. *)

From S2P Require Import Prelude Common Value Tuple Expression PageStore PageIO PageLogic TablePage TableHeap TableEdit Catalog Executor.
From S2P Require Import Operators Join Aggregate Dml OrderBy Utility Engine Effects Optimizer Statements.

(** [Catalog::CreateTable], and [InsertTuple] on the heap of a table. *)
Inductive setup_call :=
  | NewTable (name : string) (schema : Schema)
  | NewRow (name : string) (tuple : Tuple).

Section Setup.
Context {S : Type} `{PIO : !PageIO bytes S} (pages : nat).
Abbreviation M A := (ST (DB S) A).
Abbreviation database := (Catalog * Tables)%type.

Definition setup_step (a : setup_call) : M unit :=
  match a with
  | NewTable name schema => _ ← CreateTable name schema; mret tt
  | NewRow name tuple =>
      c ← get_catalog;
      table ← st_lift (GetTable name c);
      match table with
      | None => st_ub
      | Some t => _ ← on_heap (InsertTuple pages (table_ t) tuple); mret tt
      end
  end.
Fixpoint setup (calls : list setup_call) : M unit :=
  match calls with [] => mret tt | a :: calls => _ ← setup_step a; setup calls end.

(** ** The effect *)

Definition with_table (name : string) (schema : Schema) (db : database) : database :=
  let '(c, T) := db in
  let oid := next_table_oid_ c in
  (mkCatalog (u32 (oid + 1)) (next_index_oid_ c) (<[oid := mkTableInfo schema name (t_next T) oid]> (tables_ c))
     (<[name := oid]> (table_names_ c)) (indexes_ c) (index_names_ c),
   set_heap oid [(t_next T, ([], 4080))] (t_next T + 1) T).

(** The table oids and the page ids have not run out, and the heaps stay small. *)
Definition setup_effect (a : setup_call) (db : database) : option database :=
  let '(c, T) := db in
  match a with
  | NewTable name schema =>
      if bool_decide (table_names_ c !! name = None ∧ 0 ≤ next_table_oid_ c < UINT32_MAX ∧ 0 ≤ t_next T ≤ INT32_MAX ∧ (1 < pages)%nat)
      then Some (with_table name schema (c, T)) else None
  | NewRow name tuple =>
      t ← table_names_ c !! name ≫= λ oid, tables_ c !! oid;
      let '(_, h, nid) := put (t_next T) (data_ tuple) (heap_of T (t_oid_ t)) in
      if bool_decide (0 ≤ t_next T ≤ INT32_MAX ∧ Z.of_nat (length (data_ tuple)) ≤ PAGE_SIZE ∧ (length h < pages)%nat)
      then Some (c, set_heap (t_oid_ t) h nid T) else None
  end.
Fixpoint setup_effects (calls : list setup_call) (db : database) : option database :=
  match calls with [] => Some db | a :: calls => setup_effect a db ≫= setup_effects calls end.

(** ** The calls make these changes *)

Context (frames : 2 ≤ io_frames) (zero_len : Z.of_nat (length (io_zero : bytes)) = PAGE_SIZE).

(** A database without an index. *)
Record plain_db (m : gmap Z bytes) (db : database) : Prop := {
  pd_catalog : catalog_ok db.1;
  pd_tables : tables_ok db.1 m db.2;
  pd_small : small_heaps pages db.1 db.2;
  pd_indexes : indexes_ db.1 = ∅
}.

Lemma plain_current m db : plain_db m db → db_current db.1 (Effects.records_of db.2).
Proof.
  intros [Hc HT _ Hi]. split; [done|intros oid t Ht; by eapply records_nodup|].
  intros oid t ioid i _ Hioid. by rewrite Hi, lookup_empty in Hioid.
Qed.

Lemma TableHeap_new_rule m nid : ∃ d, page_view d INVALID_PAGE_ID [] 4080 ∧
  triple io_rel 4 (idle m nid) TableHeap_new (λ pid a', pid = nid ∧ a' = idle (<[nid := d]> m) (nid + 1)).
Proof using PIO frames zero_len.
  destruct (Init_ok INVALID_PAGE_ID io_zero zero_len) as (d & Hinit & Hv). exists d. split; [exact Hv|].
  unfold TableHeap_new. page_step new_rule. { unfold room. rewrite map_size_empty. lia. }
  intros o a' (f & -> & _ & _ & ->). rewrite insert_empty.
  page_step read_pinned_rule; [apply lookup_insert_eq|]. intros ? a' [-> ->]. pure_step Hinit.
  page_step write_pinned_rule; [apply lookup_insert_eq|]. intros [] a' ->. rewrite insert_insert_eq.
  page_step unpin_pinned_rule; [set_solver|by left|]. intros ? a' [_ ->]. apply ret_rule; [lia|done].
Qed.

Lemma CreateTable_makes m db name schema db' : plain_db m db → setup_effect (NewTable name schema) db = Some db' →
  ∃ m', plain_db m' db' ∧ reaches (idle m (t_next db.2), db.1) (setup_step (NewTable name schema)) tt (idle m' (t_next db'.2), db'.1).
Proof using PIO frames zero_len.
  destruct db as [c T]. intros [Hc HT Hsmall Hi] He. simpl in *. case_bool_decide as Hcond; [|done]. destruct Hcond as (Hname & Hoid & Hnid & Hpages).
  injection He as <-. destruct (TableHeap_new_rule m (t_next T)) as (d & Hv & Hrun). exists (<[t_next T := d]> m).
  assert (tables_ c !! next_table_oid_ c = None) as Hnew.
  { destruct (tables_ c !! _) as [t|] eqn:Ht; [|done]. destruct (co_table _ Hc _ _ Ht) as (_ & ? & _). lia. }
  assert (∀ p, t_next T ≤ p → m !! p = None) as Hfree by apply (to_free _ _ _ HT).
  assert (∀ oid t, tables_ c !! oid = Some t → t_next T ∉ (heap_of T oid).*1) as Hapart.
  { intros oid t Ht Hin. destruct (heap_ok_live _ _ _ _ (to_heap _ _ _ HT oid t Ht) Hin) as [x Hx]. by rewrite Hfree in Hx by lia. }
  split; [split|].
  - pose proof (bump_table_oid c Hc Hoid) as Hc1.
    apply (add_table_ok _ (next_table_oid_ c) (mkTableInfo schema name (t_next T) (next_table_oid_ c)) Hc1); try done.
    simpl. unfold u32, UINT32_MAX in *. rewrite Z.mod_small by lia. lia.
  - split; simpl.
    + intros oid t. rewrite lookup_insert_Some, heap_of_set. intros [[<- <-]|[Hne Ht]]; [rewrite decide_True by done|rewrite decide_False by done].
      * split; [|split; [apply NoDup_singleton|done]]. simpl. split; [done|]. split; [unfold INVALID_PAGE_ID; lia|].
        exists d, INVALID_PAGE_ID. split; [apply lookup_insert_eq|]. by split.
      * destruct (to_heap _ _ _ HT oid t Ht) as (Hch & Hnd & Hne'). split; [|by split].
        eapply chain_agree; [exact Hch|]. intros p Hp. apply lookup_insert_ne. intros <-. by eapply Hapart.
    + intros o1 t1 o2 t2 H1 H2 Hne. rewrite !heap_of_set.
      apply lookup_insert_Some in H1 as [[<- _]|[Hn1 H1]]; apply lookup_insert_Some in H2 as [[<- _]|[Hn2 H2]]; [done| | |].
      * rewrite decide_True, decide_False by done. intros p ->%list_elem_of_singleton. by eapply Hapart.
      * rewrite decide_False, decide_True by done. intros p Hp ->%list_elem_of_singleton. by eapply Hapart.
      * rewrite !decide_False by done. by eapply (to_apart _ _ _ HT).
    + intros p Hp. rewrite lookup_insert_ne by lia. apply Hfree. lia.
  - intros oid t. simpl. rewrite lookup_insert_Some, heap_of_set. intros [[<- _]|[Hne Ht]]; [rewrite decide_True by done|rewrite decide_False by done].
    + simpl. lia.
    + by eapply Hsmall.
  - done.
  - unfold setup_step. simpl. eapply reaches_bind; [|apply reaches_ret]. unfold CreateTable.
    eapply reaches_get; [intros p; cbn [cat]; reflexivity|]. rewrite Hname. cbn zeta.
    eapply reaches_bind; [apply reaches_set_cat|]. cbn beta.
    eapply reaches_bind; [apply (reaches_heap 4); [lia|exact Hrun]|]. cbn beta.
    eapply reaches_get; [intros p; cbn [cat]; reflexivity|]. cbn zeta.
    eapply reaches_bind; [apply reaches_set_cat|]. apply reaches_ret.
Qed.

Lemma InsertTuple_makes m db name tuple db' : plain_db m db → setup_effect (NewRow name tuple) db = Some db' →
  ∃ m', plain_db m' db' ∧ reaches (idle m (t_next db.2), db.1) (setup_step (NewRow name tuple)) tt (idle m' (t_next db'.2), db'.1).
Proof using PIO frames zero_len.
  destruct db as [c T]. intros [Hc HT Hsmall Hi] He. simpl in *.
  destruct (table_names_ c !! name ≫= _) as [t|] eqn:Ht; [|done]. simpl in He.
  assert (tables_ c !! t_oid_ t = Some t) as Htab.
  { apply bind_Some in Ht as (oid & _ & Hoid). by destruct (co_table _ Hc _ _ Hoid) as (-> & _). }
  destruct (put (t_next T) (data_ tuple) (heap_of T (t_oid_ t))) as [[o h] nid] eqn:Hput. case_bool_decide as Hcond; [|done].
  destruct Hcond as (Hnid & Hlen & Hpages). injection He as <-.
  pose proof (put_length _ _ _ _ _ _ Hput) as Hle.
  destruct (InsertTuple_puts pages frames zero_len m (t_next T) c (table_ t) (heap_of T (t_oid_ t)) tuple o h nid)
    as (m' & Hok & Hstep & Hrun); [by apply (to_heap _ _ _ HT)|lia|unfold in_i32, INT32_MIN, INT32_MAX in *; lia|lia|by apply (to_free _ _ _ HT)|done|done|].
  exists m'. split; [split|].
  - done.
  - by eapply tables_ok_step.
  - intros oid t' Ht'. simpl. rewrite heap_of_set. case_decide; [done|by eapply Hsmall].
  - done.
  - unfold setup_step. eapply reaches_bind; [apply computes_catalog|]. eapply reaches_bind; [apply computes_lift; by rewrite GetTable_ok, Ht|].
    cbn beta iota. eapply reaches_bind; [exact Hrun|]. apply reaches_ret.
Qed.

Lemma setup_makes calls : ∀ m db db', plain_db m db → setup_effects calls db = Some db' →
  ∃ m', plain_db m' db' ∧ reaches (idle m (t_next db.2), db.1) (setup calls) tt (idle m' (t_next db'.2), db'.1).
Proof using PIO frames zero_len.
  induction calls as [|a calls IH]; intros m db db' Hdb He; cbn [setup_effects setup] in *.
  - injection He as <-. exists m. split; [done|]. apply reaches_ret.
  - apply bind_Some in He as (db1 & H1 & H2).
    assert (∃ m1, plain_db m1 db1 ∧ reaches (idle m (t_next db.2), db.1) (setup_step a) tt (idle m1 (t_next db1.2), db1.1)) as (m1 & Hm1 & Hrun1).
    { destruct a; [by apply CreateTable_makes|by apply InsertTuple_makes]. }
    destruct (IH m1 db1 db' Hm1 H2) as (m' & Hm' & Hrun). exists m'. split; [done|]. by eapply reaches_bind.
Qed.

(** The empty database. *)
Definition empty_db (next_page : Z) : database := (Catalog_new, mkTables ∅ next_page).
Lemma empty_plain next_page : plain_db ∅ (empty_db next_page).
Proof.
  split; [apply Catalog_new_ok|split|..].
  all: try (intros oid t Ht; simpl in Ht; by rewrite lookup_empty in Ht).
  - intros o1 t1 o2 t2 H. simpl in H. by rewrite lookup_empty in H.
  - intros p _. apply lookup_empty.
  - done.
Qed.
End Setup.
