(* ===== verification/Assembly.v ===== *)
(** * The assembled instance

    [onebase_instance.cpp] (src/src/onebase_server) and its header: the parts of a running
    database.  The real buffer pool, with its replacer and its disk, takes the place of
    the page interface, so what is proved of heaps, catalog, engine and server over
    that interface holds of the instance. *)

From S2P Require Import Prelude Common Value Tuple Expression LruK Disk BufferPool PageStore PageIO PageLogic TablePage TableHeap TableEdit Catalog.
From S2P Require Import Executor Operators Join Aggregate Dml OrderBy Utility Engine Effects Optimizer Statements Refusals Binder Protocol Server Session Setup.
From S2P Require Lock.

(** [execution_engine_] and [exec_ctx_] hold pointers to the other parts; the
    transaction manager is in [Lock]. *)
Record OneBaseInstance := mkInstance { instance_db : DB (BufferPool bytes); lock_mgr_ : Lock.LockManager }.

Definition OneBaseInstance_new (disk_mgr : DiskManager bytes) (buffer_pool_size : Z) : OneBaseInstance :=
  mkInstance (mkDB (BufferPool_new blank_page buffer_pool_size disk_mgr LRUK_REPLACER_K) Catalog_new) Lock.LockManager_new.

(** A new instance on a good file: no table, no pinned page, and [k] page calls left. *)
Lemma instance_ready disk_mgr buffer_pool_size k :
  0 ≤ buffer_pool_size ≤ INT32_MAX → failbit disk_mgr = false → 0 ≤ next_page_id_ disk_mgr →
  next_page_id_ disk_mgr + k ≤ INT32_MAX → 0 ≤ k →
  db_rel (PIO := buffer_pool_io blank_page buffer_pool_size) k (Store_new (next_page_id_ disk_mgr), Catalog_new)
    (instance_db (OneBaseInstance_new disk_mgr buffer_pool_size)).
Proof.
  intros Hn Hd Hx Hk H0. split; [|done]. by apply pool_io_start.
Qed.

Section Instance_.
Context {HO : HashOrder} {SS : StdSort} (fuel pages : nat).
Context (fmt_2f : Z → string) (stof : string → res Z) (Parse : string → PGParseResult).
Context {W : Type} `{SW : !Socket W} `{ST0 : !Stream W} (g_running : W → bool) (running : ∀ w, g_running w = true).
Context (server client : Z) (connected : peer server = client) (two_ends : server ≠ client).
Context (disk_mgr : DiskManager bytes) (buffer_pool_size : Z) (frames : 2 ≤ buffer_pool_size ≤ INT32_MAX).
Context (good_disk : failbit disk_mgr = false) (first_page : 0 ≤ next_page_id_ disk_mgr).

#[local] Instance pool_pages : PageIO bytes (BufferPool bytes) := buffer_pool_io blank_page buffer_pool_size.

(** C3: a new instance serves.  On a good file, with a buffer pool of two frames or
    more: the calls that make tables and their rows are executed as specified, and the
    session of a client that follows (of the statements of [good_statement], and of
    statements that are refused or fail) prints what the abstract database answers, through
    the catalog, the table heaps, the buffer pool with its evictions and the disk.
    Nothing is asked but that page ids last: the run needs at most [cost] page calls,
    a number that depends on the calls and on the session only, not on the
    connection. *)
Theorem instance_serves calls db qs db' :
  setup_effects pages calls (empty_db (next_page_id_ disk_mgr)) = Some db →
  script fuel pages fmt_2f stof Parse "" db qs db' →
  ∃ cost, 0 ≤ cost ∧ (next_page_id_ disk_mgr + cost ≤ INT32_MAX → ∀ w, healthy w → wire server w = [] → wire client w = [] →
    ∃ d1 d' w' m', setup pages calls (instance_db (OneBaseInstance_new disk_mgr buffer_pool_size)) = (Ok tt, d1) ∧
      client_main client (turn fuel pages fmt_2f stof Parse g_running server) (qs.*1 ++ ["\q"]) "" "" (d1, w)
        = (Ok (foldl String.append "" qs.*2), (d', w')) ∧
      holds pages m' db' ∧ db_rel 0 (ghost_of m' db') d' ∧ wire server w' = frame_of (TERMINATE, "") ∧ wire client w' = []).
Proof.
  intros Hsetup Hscript. set (nid := next_page_id_ disk_mgr) in *.
  assert (2 ≤ io_frames (S := BufferPool bytes)) as Hframes by (simpl; lia).
  assert (Z.of_nat (length (io_zero : bytes)) = PAGE_SIZE) as Hzero by (vm_compute; reflexivity).
  destruct (setup_makes pages Hframes Hzero calls ∅ _ db (empty_plain pages nid) Hsetup) as (m & Hm & n1 & Hn1 & Hrun1).
  assert (holds pages m db) as Hholds.
  { split; [by apply (pd_tables _ _ _ Hm)|split; [by eapply plain_current|by apply (pd_small _ _ _ Hm)]]. }
  destruct (script_session fuel pages fmt_2f stof Parse g_running running Hframes Hzero server client connected two_ends
    "" db qs db' Hscript m Hholds) as (n2 & m' & Hn2 & Hm' & Hrun2).
  exists (n2 + n1). split; [lia|]. intros Hcost w Hh Hws Hwc.
  destruct (Hrun1 n2 (instance_db (OneBaseInstance_new disk_mgr buffer_pool_size))) as (x & d1 & g1 & Hset & [-> ->] & Hd1);
    [done|apply instance_ready; [lia|done|done|unfold nid in *; lia|lia]|].
  destruct (Hrun2 0 d1 w "") as (d' & w' & Hses & Hd' & Hs' & Hc'); [done|by rewrite Z.add_0_l|done..|].
  by exists d1, d', w', m'.
Qed.
End Instance_.

(** ** Witness: two frames, an empty file, and the session of [Session] *)

Section Demo.
#[local] Existing Instance listed_order.
#[local] Existing Instance insertion_std_sort.

Definition demo_calls : list setup_call :=
  let row z := NewRow "t" (mkTuple RID_default (int_row z) []) in
  [NewTable "t" int_schema; row 7; row 9; row 7; NewTable "u" int_schema].

(** The whole program, computed: two frames for the three pages in use. *)
Definition demo_run : ST (DB (BufferPool bytes) * Pipe) string :=
  in_db (setup (PIO := buffer_pool_io blank_page 2) 5 demo_calls);;
  client_main 1 (turn (PIO := buffer_pool_io blank_page 2) 9 5 (λ _, "") no_floats demo_parse (λ _, true) 0) (demo_session.*1 ++ ["\q"]) "" "".

Example demo_run_prints :
  (demo_run (instance_db (OneBaseInstance_new (Disk_open []) 2), no_bytes)).1 = Ok (foldl String.append "" demo_session.*2).
Proof. vm_compute. reflexivity. Qed.

Lemma instance_serves_witness :
  ∃ cost, 0 ≤ cost ∧ (cost ≤ INT32_MAX →
    ∃ d1 d' w', setup (PIO := buffer_pool_io blank_page 2) 5 demo_calls (instance_db (OneBaseInstance_new (Disk_open []) 2)) = (Ok tt, d1) ∧
      client_main 1 (turn (PIO := buffer_pool_io blank_page 2) 9 5 (λ _, "") no_floats demo_parse (λ _, true) 0)
        (demo_session.*1 ++ ["\q"]) "" "" (d1, no_bytes) = (Ok (foldl String.append "" demo_session.*2), (d', w'))).
Proof.
  destruct (instance_serves 9 5 (λ _, "") no_floats demo_parse (W := Pipe) (SW := pipe_socket) (ST0 := pipe_stream) (λ _, true) (λ _, eq_refl) 0 1 ltac:(reflexivity) ltac:(lia)
    (Disk_open []) 2 ltac:(unfold INT32_MAX; lia) eq_refl ltac:(vm_compute; discriminate) demo_calls db_start demo_session db_indexed)
    as (cost & Hcost & H).
  - vm_compute. reflexivity.
  - exact demo_script.
  - exists cost. split; [exact Hcost|]. intros Hlast.
    destruct (H Hlast no_bytes I eq_refl eq_refl) as (d1 & d' & w' & m' & H1 & H2 & _). exists d1, d', w'. split; [exact H1|exact H2].
Defined.
End Demo.
