(* ===== verification/ServerMain.v ===== *)
(** * The server process

    [main], the signal handler and the threads of
    [src/src/onebase_server/server_main.cpp], and the start of the client
    ([client_main.cpp]).  The main thread accepts connections and starts a thread for
    each; the steps of the threads, of their peers and of the signal interleave.  What a
    thread does with a query is [Server.HandleQuery]; here it is one state of the thread,
    which others may enter meanwhile: nothing in the code prevents it. *)

From S2P Require Import Prelude Protocol.

(** ** Options and sockets *)

Section Start.
(** [std::stoi]. *)
Context (stoi : string → res Z).

(** What [main] does after its options: it exits, or goes on. *)
Inductive Start (A : Type) := Exit (code : Z) | Go (a : A).
Arguments Exit {A} code.
Arguments Go {A} a.

(** The loop over the options; [opts] are the successive answers of [getopt].  An
    exception of [stoi] leaves [main]. *)
Fixpoint server_options (opts : list (ascii * string)) (db_file : string) (port : Z) : res (Start (string * Z)) :=
  match opts with
  | [] => Ok (Go (db_file, port))
  | (opt, optarg) :: opts =>
      if ascii_dec opt "d" then server_options opts optarg port
      else if ascii_dec opt "p" then n ← stoi optarg; server_options opts db_file (u16 n)
      else Ok (Exit (if ascii_dec opt "h" then 0 else 1))
  end.
Definition server_start (opts : list (ascii * string)) : res (Start (string * Z)) :=
  server_options opts "onebase.db" DEFAULT_SERVER_PORT.

Fixpoint client_options (opts : list (ascii * string)) (host : string) (port : Z) : res (Start (string * Z)) :=
  match opts with
  | [] => Ok (Go (host, port))
  | (opt, optarg) :: opts =>
      if ascii_dec opt "H" then client_options opts optarg port
      else if ascii_dec opt "p" then n ← stoi optarg; client_options opts host (u16 n)
      else Ok (Exit (if ascii_dec opt "h" then 0 else 1))
  end.
Definition client_start (opts : list (ascii * string)) : res (Start (string * Z)) :=
  client_options opts "127.0.0.1" DEFAULT_SERVER_PORT.
End Start.
Arguments Exit {A} code.
Arguments Go {A} a.

(** The listening socket, from the answers of [socket], [bind] and [listen]; and the
    descriptors that were closed. *)
Definition open_listener (socket bind listen : Z) : Start Z * list Z :=
  if socket <? 0 then (Exit 1, [])
  else if bind <? 0 then (Exit 1, [socket])
  else if listen <? 0 then (Exit 1, [socket])
  else (Go socket, []).

(** The connection of the client, from the answers of [socket], [inet_pton] and [connect]. *)
Definition open_connection (socket inet_pton connect : Z) : Start Z * list Z :=
  if socket <? 0 then (Exit 1, [])
  else if inet_pton <=? 0 then (Exit 1, [socket])
  else if connect <? 0 then (Exit 1, [socket])
  else (Go socket, []).

(** A descriptor that is given up has been closed, and no other. *)
Lemma open_listener_closes socket bind listen fd : 
  fd ∈ (open_listener socket bind listen).2 ↔ fd = socket ∧ 0 ≤ socket ∧ (open_listener socket bind listen).1 = Exit 1.
Proof. unfold open_listener. repeat case_match; simpl; set_unfold; naive_solver lia. Qed.
Lemma open_connection_closes socket pton connect fd : 
  fd ∈ (open_connection socket pton connect).2 ↔ fd = socket ∧ 0 ≤ socket ∧ (open_connection socket pton connect).1 = Exit 1.
Proof. unfold open_connection. repeat case_match; simpl; set_unfold; naive_solver lia. Qed.

(** ** The threads *)

(** Where a worker is in [HandleClient]: before the test of [g_running], waiting in
    [RecvMessage], in [HandleQuery], sending the answer to an unknown message, after the
    loop, or returned. *)
Inductive WorkerPc := WTest | WRecv | WQuery (sql : string) | WUnknown | WClose | WDone.

(** A worker with its connection: the frames that have arrived ([None] is one that
    [RecvMessage] refuses), and whether the peer may send more. *)
Record Worker := mkWorker {
  client_fd : Z;
  pc : WorkerPc;
  inbox : list (option (MessageType * string));
  peer_open : bool
}.

(** Where the main thread is: before the test of [g_running], in [accept], joining the
    [i]-th worker, after the joins, or returned. *)
Inductive MainPc := Test | Accept | Joining (i : nat) | Closing | Stopped.

(** [closed]: the listening descriptors that were passed to [close]. *)
Record Process := mkProcess {
  g_running : bool;
  g_listen_fd : Z;
  main_pc : MainPc;
  workers : list Worker;
  closed : list Z
}.

Definition set_main (pc : MainPc) (s : Process) : Process := mkProcess (g_running s) (g_listen_fd s) pc (workers s) (closed s).
Definition set_workers (ws : list Worker) (s : Process) : Process := mkProcess (g_running s) (g_listen_fd s) (main_pc s) ws (closed s).

Definition Process_start (fd : Z) : Process := mkProcess true fd Test [] [].

Definition SignalHandler (s : Process) : Process :=
  if 0 <=? g_listen_fd s then mkProcess false (-1) (main_pc s) (workers s) (g_listen_fd s :: closed s)
  else mkProcess false (g_listen_fd s) (main_pc s) (workers s) (closed s).

(** The [switch] of [HandleClient]. *)
Definition dispatch (type : MessageType) (data : string) : WorkerPc :=
  if ascii_dec type QUERY then WQuery data else if ascii_dec type TERMINATE then WClose else WUnknown.

(** A step of a worker; [None] while it waits for its peer, and when it has returned. *)
Definition worker_step (running : bool) (w : Worker) : option Worker :=
  match pc w with
  | WTest => Some (mkWorker (client_fd w) (if running then WRecv else WClose) (inbox w) (peer_open w))
  | WRecv =>
      match inbox w with
      | Some (type, data) :: rest => Some (mkWorker (client_fd w) (dispatch type data) rest (peer_open w))
      | None :: rest => Some (mkWorker (client_fd w) WClose rest (peer_open w))
      | [] => if peer_open w then None else Some (mkWorker (client_fd w) WClose [] false)
      end
  | WQuery _ | WUnknown => Some (mkWorker (client_fd w) WTest (inbox w) (peer_open w))
  | WClose => Some (mkWorker (client_fd w) WDone (inbox w) (peer_open w))
  | WDone => None
  end.

(** The answer of [accept]: a connection, as long as the socket is open, or a failure. *)
Inductive Accepted := Connection (fd : Z) | Failed.

Definition is_done (w : Worker) : bool := match pc w with WDone => true | _ => false end.

(** A step of the main thread; [None] while it waits for a worker, and when it has
    returned. *)
Definition main_step (a : Accepted) (s : Process) : option Process :=
  match main_pc s with
  | Test => Some (set_main (if g_running s then Accept else Joining 0) s)
  | Accept =>
      match a with
      | Connection fd =>
          if (0 <=? g_listen_fd s) && (0 <=? fd)
          then Some (mkProcess (g_running s) (g_listen_fd s) Test (workers s ++ [mkWorker fd WTest [] true]) (closed s))
          else None
      | Failed => Some (set_main (if g_running s then Test else Joining 0) s)
      end
  | Joining i =>
      match workers s !! i with
      | Some w => if is_done w then Some (set_main (Joining (S i)) s) else None
      | None => Some (set_main Closing s)
      end
  | Closing =>
      if 0 <=? g_listen_fd s
      then Some (mkProcess (g_running s) (g_listen_fd s) Stopped (workers s) (g_listen_fd s :: closed s))
      else Some (set_main Stopped s)
  | Stopped => None
  end.

(** A step of one of the threads. *)
Inductive step (s : Process) : Process → Prop :=
  | step_main a s' : main_step a s = Some s' → step s s'
  | step_worker i w w' : workers s !! i = Some w → worker_step (g_running s) w = Some w' → step s (set_workers (<[i := w']> (workers s)) s).

(** A step of the others: a peer sends a message or closes its connection, or a signal
    arrives. *)
Inductive env (s : Process) : Process → Prop :=
  | env_send i w m : workers s !! i = Some w → peer_open w = true →
      env s (set_workers (<[i := mkWorker (client_fd w) (pc w) (inbox w ++ [m]) true]> (workers s)) s)
  | env_close i w : workers s !! i = Some w → env s (set_workers (<[i := mkWorker (client_fd w) (pc w) (inbox w) false]> (workers s)) s)
  | env_signal : env s (SignalHandler s).

Definition reachable (fd : Z) : Process → Prop := rtc (λ s s', step s s' ∨ env s s') (Process_start fd).

(** However the threads are scheduled, they come to such a state. *)
Inductive eventually (P : Process → Prop) (s : Process) : Prop :=
  | now : P s → eventually P s
  | later : (∃ s', step s s') → (∀ s', step s s' → eventually P s') → eventually P s.

(** ** Lemmas *)

(** The main thread has joined these workers. *)
Definition joined (s : Process) : nat :=
  match main_pc s with Joining i => i | Closing | Stopped => length (workers s) | _ => 0%nat end.
Definition invariant (s : Process) : Prop :=
  (if g_running s then 0 ≤ g_listen_fd s else g_listen_fd s = -1) ∧
  (g_running s = true → main_pc s = Test ∨ main_pc s = Accept) ∧
  Forall (λ w, is_done w = true) (take (joined s) (workers s)).

Lemma invariant_start fd : 0 ≤ fd → invariant (Process_start fd).
Proof. intros Hfd. split_and!; simpl; [done|by left|constructor]. Qed.

Lemma done_stuck b w : is_done w = true → worker_step b w = None.
Proof. unfold is_done, worker_step. by destruct (pc w). Qed.

(** A worker may change as long as one that has returned stays so. *)
Lemma invariant_worker s i w w' : invariant s → workers s !! i = Some w → (is_done w = true → is_done w' = true) →
  invariant (set_workers (<[i := w']> (workers s)) s).
Proof.
  intros (H1 & H2 & H3) Hi Hw. split; [done|]. split; [done|]. rewrite Forall_lookup in H3 |- *.
  assert (joined (set_workers (<[i := w']> (workers s)) s) = joined s) as -> by (unfold joined; simpl; destruct (main_pc s); by rewrite ?length_insert).
  simpl. intros j x Hj. apply lookup_take_Some in Hj as [Hj Hlt]. destruct (decide (i = j)) as [<-|Hne].
  - rewrite list_lookup_insert_eq in Hj by (by eapply lookup_lt_Some). injection Hj as <-. apply Hw, (H3 i). by apply lookup_take_Some.
  - rewrite list_lookup_insert_ne in Hj by done. apply (H3 j). by apply lookup_take_Some.
Qed.

Lemma main_step_invariant a s s' : invariant s → main_step a s = Some s' → invariant s'.
Proof.
  intros (H1 & H2 & H3) Hs. unfold main_step in Hs. destruct (main_pc s) as [| |i| |] eqn:Hpc; [| | | |done].
  - injection Hs as <-. split; [done|]. unfold joined. simpl. destruct (g_running s); (split; [naive_solver|constructor]).
  - destruct a as [fd|].
    + destruct (_ && _) eqn:Hfd; [|done]. injection Hs as <-. split; [done|]. split; [by left|constructor].
    + injection Hs as <-. split; [done|]. unfold joined. simpl. destruct (g_running s); (split; [naive_solver|constructor]).
  - assert (g_running s = false) as Hr by (destruct (g_running s); [destruct (H2 eq_refl); congruence|done]).
    unfold joined in H3. rewrite Hpc in H3. destruct (workers s !! i) as [w|] eqn:Hw.
    + destruct (is_done w) eqn:Hd; [|done]. injection Hs as <-. split; [done|]. split; [simpl; congruence|]. unfold joined. simpl.
      rewrite (take_S_r _ _ _ Hw). apply Forall_app. split; [done|by constructor].
    + injection Hs as <-. split; [done|]. split; [simpl; congruence|]. unfold joined. simpl. apply lookup_ge_None in Hw.
      rewrite take_ge in H3 |- * by done. exact H3.
  - assert (g_running s = false) as Hr by (destruct (g_running s); [destruct (H2 eq_refl); congruence|done]).
    rewrite Hr in H1. rewrite H1 in Hs. injection Hs as <-. split; [simpl; by rewrite Hr|]. split; [simpl; congruence|].
    unfold joined in *. rewrite Hpc in H3. exact H3.
Qed.

Lemma invariant_reachable fd s : 0 ≤ fd → reachable fd s → invariant s.
Proof.
  intros Hfd H. pattern s. eapply rtc_ind_r; [by apply invariant_start| |exact H]. intros s1 s2 _ [Hs|He] Hi.
  - destruct Hs as [a s' Hs|i w w' Hw Hs]; [by eapply main_step_invariant|]. eapply invariant_worker; [done|done|].
    intros Hd. by rewrite (done_stuck _ _ Hd) in Hs.
  - destruct He as [i w m Hw Ho|i w Hw|]; [by eapply invariant_worker|by eapply invariant_worker|].
    destruct Hi as (H1 & H2 & H3). unfold SignalHandler. destruct (Z.leb_spec 0 (g_listen_fd s1)); (split; [|split; [done|exact H3]]); simpl.
    + done.
    + destruct (g_running s1); [lia|done].
Qed.

(** The listening socket is closed once, by the first signal: the test before the
    [close] of [main] fails. *)
Lemma closed_once fd s : 0 ≤ fd → reachable fd s → if g_running s then g_listen_fd s = fd ∧ closed s = [] else closed s = [fd].
Proof.
  intros Hfd H. pattern s. refine (rtc_ind_r _ (Process_start fd) _ _ s H); [by split|]. intros s1 s2 Hr Hs Hc.
  pose proof (invariant_reachable fd s1 Hfd Hr) as (H1 & H2 & _). destruct Hs as [[a s' Hs|i w w' Hw Hs]|[i w m Hw Ho|i w Hw|]]; try exact Hc.
  - unfold main_step in Hs. destruct (main_pc s1) eqn:Hpc; [| | | |done]; repeat case_match; simplify_eq/=; try exact Hc; try naive_solver lia.
    all: destruct (g_running s1); [naive_solver|lia].
  - unfold SignalHandler. destruct (g_running s1).
    + destruct Hc as [-> ->]. by rewrite (proj2 (Z.leb_le _ _) Hfd).
    + by rewrite H1.
Qed.

(** *** After the signal *)

(** How many steps are left. *)
Definition worker_left (w : Worker) : nat :=
  match pc w with WRecv => 5 | WQuery _ | WUnknown => 4 | WTest => 3 | WClose => 2 | WDone => 1 end.
Definition main_left (s : Process) : nat :=
  match main_pc s with
  | Accept => length (workers s) + 5 | Test => length (workers s) + 4
  | Joining i => length (workers s) - i + 3 | Closing => 2 | Stopped => 1
  end.
Definition steps_left (s : Process) : nat := main_left s + sum_list_with worker_left (workers s).

Lemma sum_insert {A} (f : A → nat) l i x y : l !! i = Some x → (sum_list_with f (<[i := y]> l) + f x = sum_list_with f l + f y)%nat.
Proof.
  intros Hi. rewrite (insert_take_drop _ _ _ (lookup_lt_Some _ _ _ Hi)). rewrite <- (take_drop_middle l i x Hi) at 3.
  rewrite !sum_list_with_app. simpl. lia.
Qed.

Lemma worker_step_left w w' : worker_step false w = Some w' → (worker_left w' < worker_left w)%nat.
Proof.
  unfold worker_step, worker_left. destruct (pc w); try (intros [= <-]; simpl; lia).
  destruct (inbox w) as [|[[type data]|] rest]; [destruct (peer_open w); [done|]| |]; intros [= <-]; simpl; [lia| |lia].
  unfold dispatch. repeat destruct (ascii_dec _ _); lia.
Qed.

Lemma step_left s s' : invariant s → g_running s = false → step s s' → (steps_left s' < steps_left s)%nat.
Proof.
  intros (Hfd & _ & _) Hr [a s2 Hs|i w w' Hw Hs]; unfold steps_left; rewrite Hr in *.
  - unfold main_step in Hs. unfold main_left. rewrite Hr, Hfd in Hs. destruct (main_pc s) as [| |i| |] eqn:Hpc; [| | | |done].
    + injection Hs as <-. simpl. lia.
    + destruct a as [fd|]; [done|]. injection Hs as <-. simpl. lia.
    + destruct (workers s !! i) as [w|] eqn:Hw.
      * destruct (is_done w); [|done]. injection Hs as <-. simpl. apply lookup_lt_Some in Hw. lia.
      * injection Hs as <-. simpl. lia.
    + injection Hs as <-. simpl. lia.
  - apply worker_step_left in Hs. pose proof (sum_insert worker_left _ _ _ w' Hw). simpl.
    assert (main_left (set_workers (<[i:=w']> (workers s)) s) = main_left s) as -> by (unfold main_left; simpl; by rewrite length_insert). lia.
Qed.

Definition peers_closed (s : Process) : Prop := Forall (λ w, peer_open w = false) (workers s).

Lemma worker_step_peer b w w' : worker_step b w = Some w' → peer_open w = false → peer_open w' = false.
Proof.
  unfold worker_step. destruct (pc w); try (by intros [= <-]).
  destruct (inbox w) as [|[[type data]|] rest]; [destruct (peer_open w); [done|]| |]; by intros [= <-].
Qed.

Lemma step_closed s s' : invariant s → g_running s = false → peers_closed s → step s s' →
  invariant s' ∧ g_running s' = false ∧ peers_closed s'.
Proof.
  intros Hi Hr Hp Hst. pose proof Hst as [a s2 Hs|i w w' Hw Hs].
  - split; [by eapply main_step_invariant|]. destruct Hi as (Hfd & _ & _). rewrite Hr in Hfd. unfold main_step in Hs. rewrite Hfd in Hs.
    unfold peers_closed in *. repeat case_match; simplify_eq/=; done.
  - split; [|split; [done|]].
    + eapply invariant_worker; [done|done|]. intros Hd. by rewrite (done_stuck _ _ Hd) in Hs.
    + apply Forall_insert; [done|]. eapply worker_step_peer; [done|]. by eapply (Forall_lookup_1 _ _ _ _ Hp).
Qed.

(** Some thread can move, or all have returned. *)
Lemma step_possible s : invariant s → peers_closed s → main_pc s = Stopped ∨ ∃ s', step s s'.
Proof.
  intros Hi Hp. destruct (main_step Failed s) as [s'|] eqn:Hs; [right; exists s'; by apply (step_main s Failed)|].
  unfold main_step in Hs. destruct (main_pc s) as [| |i| |]; try done; [|by destruct (0 <=? g_listen_fd s)|by left]. right.
  destruct (workers s !! i) as [w|] eqn:Hw; [|done]. destruct (is_done w) eqn:Hd; [done|].
  assert (∃ w', worker_step (g_running s) w = Some w') as [w' Hw'].
  { pose proof (Forall_lookup_1 _ _ _ _ Hp Hw) as Ho. simpl in Ho. unfold worker_step. unfold is_done in Hd. rewrite Ho.
    destruct (pc w); try done; try (by eexists). destruct (inbox w) as [|[[]|] ?]; by eexists. }
  eexists. by eapply step_worker.
Qed.

Lemma shutdown_ends s : invariant s → g_running s = false → peers_closed s → eventually (λ s, main_pc s = Stopped) s.
Proof.
  remember (steps_left s) as n eqn:Hn. revert s Hn. induction (lt_wf n) as [n _ IH]. intros s -> Hi Hr Hp.
  destruct (step_possible s Hi Hp) as [|Hmove]; [by apply now|]. apply later; [done|]. intros s' Hs.
  destruct (step_closed s s' Hi Hr Hp Hs) as (Hi' & Hr' & Hp'). eapply IH; [by apply step_left|done..].
Qed.

(** *** A silent peer *)

Definition waits (w : Worker) : Prop := pc w = WRecv ∧ inbox w = [] ∧ peer_open w = true.
Definition held_up (i : nat) (s : Process) : Prop :=
  (∃ w, workers s !! i = Some w ∧ waits w) ∧ match main_pc s with Joining j => (j ≤ i)%nat | Closing | Stopped => False | _ => True end.

Lemma step_held_up i s s' : held_up i s → step s s' → held_up i s'.
Proof.
  intros [(w & Hw & Hwait) Hm] [a s2 Hs|j x x' Hx Hs].
  - pose proof Hwait as (Hpc & Hin & Ho). unfold main_step in Hs. destruct (main_pc s) as [| |j| |] eqn:Hpcm; [| | |done|done].
    + injection Hs as <-. split; [by exists w|]. simpl. destruct (g_running s); [done|lia].
    + destruct a as [fd|].
      * destruct (_ && _); [|done]. injection Hs as <-. split; [|done]. exists w. split; [|done]. simpl. by apply lookup_app_l_Some.
      * injection Hs as <-. split; [by exists w|]. simpl. destruct (g_running s); [done|lia].
    + destruct (workers s !! j) as [x|] eqn:Hx.
      * destruct (is_done x) eqn:Hd; [|done]. injection Hs as <-. split; [by exists w|]. simpl. destruct (decide (j = i)) as [->|]; [|lia].
        exfalso. assert (x = w) as -> by congruence. unfold is_done in Hd. by rewrite Hpc in Hd.
      * exfalso. apply lookup_ge_None in Hx. apply lookup_lt_Some in Hw. lia.
  - split; [|done]. destruct (decide (j = i)) as [->|Hne].
    + exfalso. assert (x = w) as -> by congruence. destruct Hwait as (Hpc & Hin & Ho). unfold worker_step in Hs. by rewrite Hpc, Hin, Ho in Hs.
    + exists w. split; [|done]. simpl. by rewrite list_lookup_insert_ne.
Qed.

Lemma waits_held_up s i w : invariant s → workers s !! i = Some w → waits w → held_up i s.
Proof.
  intros (_ & _ & Hj) Hw Hwait. split; [by exists w|]. unfold joined in Hj.
  assert (∀ n, Forall (λ w, is_done w = true) (take n (workers s)) → (n ≤ i)%nat) as Hn.
  { intros n Hn. destruct (decide (n ≤ i)%nat) as [|Hlt]; [done|]. exfalso. rewrite Forall_lookup in Hn.
    assert (is_done w = true) as Hd by (apply (Hn i); apply lookup_take_Some; split; [done|lia]). destruct Hwait as (Hpc & _). unfold is_done in Hd. by rewrite Hpc in Hd. }
  apply lookup_lt_Some in Hw. destruct (main_pc s); try done; apply Hn in Hj; lia.
Qed.

Lemma rtc_held_up i s s' : held_up i s → rtc step s s' → main_pc s' ≠ Stopped.
Proof.
  intros Hh Hs. induction Hs as [s|s s1 s2 Hst _ IH]; [|apply IH; by eapply step_held_up]. destruct Hh as [_ Hm]. intros Hpc. by rewrite Hpc in Hm.
Qed.

(** C37: the end of the server.  Whatever the threads, the clients and the signals have
    done: [main] returns only after a signal, with its socket closed (once) and all its workers
    returned; after the signal, if the clients close their connections, it returns,
    however the threads are scheduled; but as long as one client stays connected and
    sends nothing, it does not: the worker does not leave [RecvMessage], and [main] does
    not get past its [join]. *)
Theorem server_shutdown fd s : 0 ≤ fd → reachable fd s →
  (main_pc s = Stopped → g_running s = false ∧ g_listen_fd s = -1 ∧ closed s = [fd] ∧ Forall (λ w, is_done w = true) (workers s)) ∧
  (g_running s = false → peers_closed s → eventually (λ s, main_pc s = Stopped) s) ∧
  (∀ i w, workers s !! i = Some w → waits w → ∀ s', rtc step s s' → main_pc s' ≠ Stopped).
Proof.
  intros Hfd Hreach. pose proof (invariant_reachable fd s Hfd Hreach) as Hi. split_and!.
  - intros Hpc. destruct Hi as (H1 & H2 & H3). unfold joined in H3. rewrite Hpc in H2, H3. rewrite firstn_all in H3.
    pose proof (closed_once fd s Hfd Hreach). destruct (g_running s); [naive_solver|done].
  - by apply shutdown_ends.
  - intros i w Hw Hwait s'. eapply rtc_held_up. by eapply waits_held_up.
Qed.

(** ** Runs *)

Inductive move := Main (a : Accepted) | Thread (i : nat) | Send (i : nat) (m : option (MessageType * string)) | HangUp (i : nat) | Signal.

Definition perform (mv : move) (s : Process) : option Process :=
  match mv with
  | Main a => main_step a s
  | Thread i => w ← workers s !! i; w' ← worker_step (g_running s) w; Some (set_workers (<[i := w']> (workers s)) s)
  | Send i m => w ← workers s !! i;
      if peer_open w then Some (set_workers (<[i := mkWorker (client_fd w) (pc w) (inbox w ++ [m]) true]> (workers s)) s) else None
  | HangUp i => w ← workers s !! i; Some (set_workers (<[i := mkWorker (client_fd w) (pc w) (inbox w) false]> (workers s)) s)
  | Signal => Some (SignalHandler s)
  end.
Fixpoint perform_all (mvs : list move) (s : Process) : option Process :=
  match mvs with [] => Some s | mv :: mvs => s ← perform mv s; perform_all mvs s end.

Lemma perform_step mv s s' : perform mv s = Some s' → step s s' ∨ env s s'.
Proof.
  destruct mv as [a|i|i m|i|]; simpl.
  - intros H. left. by eapply step_main.
  - destruct (workers s !! i) as [w|] eqn:Hw; [|done]. simpl. destruct (worker_step (g_running s) w) as [w'|] eqn:Hs; [|done].
    intros [= <-]. left. by eapply step_worker.
  - destruct (workers s !! i) as [w|] eqn:Hw; [|done]. simpl. destruct (peer_open w) eqn:Ho; [|done]. intros [= <-]. right. by apply env_send.
  - destruct (workers s !! i) as [w|] eqn:Hw; [|done]. intros [= <-]. right. by apply env_close.
  - intros [= <-]. right. apply env_signal.
Qed.
Lemma perform_all_reachable fd mvs s : perform_all mvs (Process_start fd) = Some s → reachable fd s.
Proof.
  unfold reachable. generalize (Process_start fd). induction mvs as [|mv mvs IH]; intros s0; simpl; [by intros [= ->]|].
  destruct (perform mv s0) as [s1|] eqn:H1; [|done]. intros H. eapply rtc_l; [by eapply perform_step|by apply IH].
Qed.

(** Nothing keeps two clients apart: while the server runs, the queries of any two
    clients can be in [HandleQuery], on the same instance, at the same time. *)
Lemma queries_overlap fd c1 c2 q1 q2 : 0 ≤ fd → 0 ≤ c1 → 0 ≤ c2 →
  ∃ s, reachable fd s ∧ g_running s = true ∧ workers s = [mkWorker c1 (WQuery q1) [] true; mkWorker c2 (WQuery q2) [] true].
Proof.
  intros H0%Z.leb_le H1%Z.leb_le H2%Z.leb_le. eexists. split.
  - apply (perform_all_reachable fd [Main Failed; Main (Connection c1); Main Failed; Main (Connection c2); Thread 0; Send 0 (Some (QUERY, q1));
      Thread 1; Thread 0; Send 1 (Some (QUERY, q2)); Thread 1]).
    repeat (cbn; unfold main_step; cbn; rewrite ?H0, ?H1, ?H2; cbn). reflexivity.
  - done.
Qed.

(** A client connects and says nothing; the server gets a signal; later the client leaves. *)
Definition silent_client : list move := [Main Failed; Main (Connection 4); Thread 0; Main Failed; Signal; Main Failed].
Definition silent_state : Process := mkProcess false (-1) (Joining 0) [mkWorker 4 WRecv [] true] [3].
Definition left_state : Process := mkProcess false (-1) (Joining 0) [mkWorker 4 WRecv [] false] [3].

Lemma server_shutdown_witness :
  (∀ s', rtc step silent_state s' → main_pc s' ≠ Stopped) ∧ eventually (λ s, main_pc s = Stopped) left_state.
Proof.
  split.
  - refine (proj2 (proj2 (server_shutdown 3 silent_state _ _)) 0%nat (mkWorker 4 WRecv [] true) _ _).
    + lia.
    + apply (perform_all_reachable 3 silent_client). reflexivity.
    + reflexivity.
    + by split_and!.
  - refine (proj1 (proj2 (server_shutdown 3 left_state _ _)) _ _).
    + lia.
    + apply (perform_all_reachable 3 (silent_client ++ [HangUp 0])). reflexivity.
    + reflexivity.
    + by repeat constructor.
Defined.

(** Ports are cut to 16 bits. *)
Example port_is_cut stoi : stoi "88637" = Ok 88637 → server_start stoi [("p"%char, "88637")] = Ok (Go ("onebase.db", DEFAULT_SERVER_PORT)).
Proof. intros H. unfold server_start. simpl. by rewrite H. Qed.
